(* ===== verification/_CoqProject ===== *)
-Q . S2P
Prelude.v
Errors.v
Host.v
FsLocker.v
LockUsers.v
Limits.v
NetIP.v
GoSlice.v
Schema.v
Service.v
Logic.v
TxLogic.v
BranchEni.v
GenerateAssignment.v
AssignV3.v
UnassignV3.v
LongLivedLock.v
ExcessBranches.v
GcV3.v
Gc.v
GcV2.v
TrunkEnis.v
AssignV1.v
AgentAllocate.v
Gpu.v
AssignV2.v
InternalApis.v
Reconcile.v
ScheduledTasks.v
Allocate.v
Hedge.v
Batch.v
ShellParser.v
GoTime.v
LogWatcher.v
LogFiles.v
Iam.v
Cache.v
ApiProtect.v
Runner.v
Scenario.v
ScenarioV2.v
ScenarioAgent.v
