(* ===== verification/Prelude.v ===== *)
(** * titus-executor: the VPC service, the agent and the executor

    titus-executor runs containers on EC2 instances.  Its VPC service
    ([vpc/service]) gives every container addresses of the VPC: it keeps a
    postgres database of instances, network interfaces (ENIs), addresses and
    assignments, and changes EC2 to match.  The executor runs on the instance: it
    drives one container through its life and uploads its logs.  A tool there, the agent, asks
    the service for addresses.  This library models the service, statement by statement, and
    the parts of the executor and the agent that are more than calls of Docker and netlink,
    and proves what they promise.

    ** The program's parts

    An instance has a trunk ENI; branch ENIs are attached to it, each at an
    index of its own, and carry the addresses of containers.

    - [AssignIPV3] (assign_addresses_v3.go) answers a request for addresses.  It
      calls [generateAssignmentID] (generate_assignment_id.go) to put the task on
      a branch ENI, then picks IPv4, IPv6 and elastic addresses and an HTB class
      in one transaction.  [UnassignIPV3] takes them back.  Agents of the first two
      generations ask for addresses on an interface or at an index of the trunk, and report what they
      use (assign_address.go).
    - [generateAssignmentID] attaches another branch ENI when no attached one fits;
      when the trunk is full it first detaches the one unused for longest.
    - branch_enis.go attaches and detaches.  [startAssociation] and
      [startDissociation] write a work item, a row of branch_eni_attachments;
      [finishAssociation] and [finishDisassociation] call EC2 and record the
      outcome.  They are called by the request that started the work, or by an
      action worker that is told of the row through a queue.
    - Background tasks detach ENIs nobody uses (detach_unused_branch_eni.go) and
      delete those beyond a warm pool (delete_excess_branches.go).  A task runs on
      the host that holds a lease on it (long_lived_lock.go).
    - The garbage collector (gc_v3.go) takes back assignments of tasks that no longer
      run, and addresses that are on an ENI and in no assignment.  Agents of the first two
      generations ask for the addresses of an ENI to be collected (gc.go).
    - Trunk ENIs are created when an instance is provisioned and tombstoned before
      they are deleted (trunk_enis.go, provision_instance.go).  internal_apis.go has
      calls to associate, disassociate, describe and detach ENIs by hand.
    - Reconciliation (reconcile_branch_enis.go, reconcile_branch_eni_attachments.go,
      reconcile_trunk_enis.go) compares the database with what EC2 describes.
      Scheduled tasks (scheduled_tasks.go) copy subnets, availability zones and elastic
      IPs from EC2, for every account at an interval, on whichever replica gets the lock.
    - Static allocations (allocate.go) reserve an address for later, with a signed message
      that proves it.
    - vpc/limits.go says how many ENIs and addresses an instance type has;
      errors.go, vpcerrors/errors.go and ec2wrapper/ec2_errors.go classify errors
      as retryable, persistent, or of a gRPC code.
    - Interfaces and instances are described in batches (ec2wrapper/ec2_batch.go), each with a
      hedged request (ec2wrapper/hedge.go): callers share one call to EC2.
    - In the executor, the runner (executor/runner) prepares, starts, monitors and kills
      a container and reports its status; the shell parser
      (executor/dockershellparser) splits entry points; the log watcher
      (filesystems/watcher.go) rotates and uploads logs while the task writes them.
    - Processes of an instance keep out of each other's way with locks on files
      (fslocker/fslocker.go).  The agent takes one for each address it
      gives to a container (vpc/tool/allocate/allocate_network.go), an executor one for each GPU
      of its container (nvidia/nvidia.go, [setupGPU] and [Kill] of executor/runtime/docker/docker.go).
    - The metadata service gives a container the credentials of its role (metadataserver/iam.go).
      It assumes the role with a policy that restricts it to the container's addresses
      (metadataserver/api_protect.go); what this needs of EC2 is cached in files (cache).

    ** The files

    - [Prelude]: outcomes of a Go call ([res]), tactics, generic lemmas, strconv.
    - [Errors]: the error values, [errors.Is]/[As] as searches of the chain of
      wrapped errors, [HandleEC2Error] and the classifications.
    - [Host]: an instance with its processes.  A Go function that asks the operating system
      is an interaction tree; processes interleave at every question.  A program logic for
      them, partial and total, with what each relies on and guarantees.
    - [FsLocker]: fslocker.go; [LockUsers]: what programs that take its locks promise each
      other, as a class.
    - [Limits]: vpc/limits.go.
    - [NetIP]: [net.ParseIP] and [IP.String] of Go; [GoSlice]: slices that share arrays.
    - [Schema]: the rows as records, the database [db] as lists of rows, the unique
      indexes and foreign keys of db/migrations as [schema_ok], checked by
      [check_constraints].
    - [Service]: what handlers run in.  [M A] is a state monad over [world] with
      errors and panics; transactions ([BeginTx], [Commit], [Rollback], [query],
      [exec], ...), the EC2 calls and the wrappers of ec2_session.go.
    - [Logic]: weakest preconditions for [M], and [preserves], which lifts a
      preorder on databases from statements to handlers; their hint databases.
    - [TxLogic]: transactions that are not retried, what they see and how they end;
      [moves], which lifts a preorder on the database and the calls made.
    - [BranchEni]: branch_enis.go.
    - [GenerateAssignment]: generate_assignment_id.go.
    - [AssignV3], [UnassignV3]: assign_addresses_v3.go.
    - [LongLivedLock]: long_lived_lock.go.
    - [ExcessBranches]: detach_unused_branch_eni.go, delete_excess_branches.go.
    - [GcV3]: gc_v3.go, errgroupish.go.
    - [Gc], [GcV2]: gc.go and ec2_helper.go.
    - [TrunkEnis]: trunk_enis.go, eni.go, provision_instance.go, aws_types.go.
    - [AssignV1], [AssignV2]: assign_address.go.
    - [AgentAllocate]: allocate_network.go, utilities.go; [Gpu]: nvidia.go, [setupGPU] and
      [Kill] of docker.go.
    - [InternalApis]: internal_apis.go.
    - [Reconcile]: the three reconciliation tasks for ENIs and attachments.
    - [ScheduledTasks]: scheduled_tasks.go, reconcile_elastic_ips.go, reconcile_subnets.go,
      reconcile_availability_zones.go, [getTaskLoops] of service.go.
    - [Allocate]: allocate.go, with the signatures and the encoding as arguments.
    - [Hedge], [Batch]: hedge.go and ec2_batch.go as step relations over their goroutines;
      [Batch.Describer] is what the two describers have in common.
    - [ShellParser]: executor/dockershellparser/shell_parser.go, with a syntax of
      words and their meaning as its specification.
    - [GoTime]: times of Go's package time and their names.
    - [LogWatcher]: rotation of stdout and stderr in watcher.go; [LogFiles]: the files
      of the log directory, and the regular expressions for their names.
    - [Iam]: iam.go as a step relation over its goroutines, with time; [Cache]: cache.go and
      cache_linux.go as a step relation over processes; [ApiProtect]: api_protect.go, ec2util.go.
    - [Runner]: executor/runner as a step relation over its goroutines.
    - [Scenario]: a concrete account on which the theorems are applied and the
      handlers are run by evaluation; [ScenarioV2] for the first two generations;
      [ScenarioAgent] for an instance with its processes.

    ** How code becomes definitions

    A Go function is a definition with its name; one that touches the database
    or EC2 has type [M A].  An error return is [Fail], a nil dereference or an
    index out of range is [Panic], and a deferred rollback
    runs on every path ([with_tx]).  An SQL
    statement is a function on [db] whose parts follow the clauses of the statement;
    a query without an [ORDER BY] that decides leaves the choice to the world.  A
    transaction sees the committed database with its own writes; a failed
    statement aborts it; writes are checked against [schema_ok], and reach the
    committed database with [Commit] only.  [Commit] that fails has not committed.

    What a run does not determine is in [world]: which statements fail, which row
    is chosen, UUIDs, the clock.  EC2 is the argument [ec2], any function of the
    calls made so far and the call made now.  Theorems quantify over all of it.

    On an instance the code is a [Host.prog], a tree of questions: to the operating system
    (open, mkdir, flock, ...), to the Go runtime (mutexes, channels, the clock) and to a world of
    the component's own (the service, the hardware).  The machine of [Host] answers the first
    two, an arbitrary oracle the third and whatever the machine does not determine.  A process may be killed
    at any moment; the kernel then closes its files.

    ** What the theorems show

    - The life of an attachment: [BranchEni.att_step] is the state machine of a row
      (attaching, attached, unattaching, unattached, failed), [attachments_evolve]
      lifts it to databases.  The workers, a whole [AssignIPV3] and a whole [UnassignIPV3]
      stay within it and within the schema, on every error path too.  An ENI in
      use is not detached unless forced; one is marked attached only with the
      association EC2 gave; a persistent error is recorded.
    - Placing an assignment: it lands on an attached ENI of the trunk and subnet
      asked for, with room left and with the security groups asked for, which EC2 has or was asked to
      set; a new ENI is attached at a free index.
    - Addresses: completing an assignment is atomic; the chosen IPv4 address is
      free, not static and unused for longest, or new; the answer of
      [AssignIPV3] describes the committed database; an idempotent request fetches
      what was assigned; unassigning releases it and nothing else.  In the first two generations
      EC2 is asked once for no more IPv4 addresses than the interface may have, and an address that
      [AssignIPV2] picked is not taken by a [GCV2] that runs before the collection's time-out is over.
    - The work queue: every pending row is queued, under a key from which its ID is
      read back; every item is done once, and forgotten or added again.
    - Leases: for any interleaving of hosts at most one holds an unexpired lease;
      a free lock is acquired; preemption ends a lease.
    - Background tasks: only unused ENIs are detached; at most one is deleted, in the
      database and in EC2, never one of the warm pool or one in use.
    - Garbage collection: a running task keeps its assignment, those of other tasks go, and EC2 is
      only asked to take away addresses that nothing uses, and to give static ones to their home ENI; in the first two generations,
      only those that are neither allocated nor static nor first and were not used for long, and the
      answer says exactly which the agent is to forget.
    - Trunk ENIs: deletion goes by its steps, and after a failure the row is left with its tombstone; an
      instance is provisioned with one trunk ENI and all its HTB classes.
    - Reconciliation: an ENI stays known, with its attachments, unless EC2 does not know
      it, and no ENI that is known is deleted in EC2, on every error path; the task for
      attachments never changes anything.
    - Scheduled tasks: all that a task loop does is a history of runs, each of which does the work of the task
      and which are an interval apart; a failing one leaves no trace; elastic IPs become those of EC2
      exactly when these fit into the table.
    - Static allocations: one free address at a time, never more than an ENI has room for;
      what was answered can be validated, and found under its UUID as PostgreSQL prints it; only what a
      trusted key vouches for is valid.
    - Describing in batches: whatever interleaves, a caller gets the answer to its own
      name or an error that says why not, every request is in exactly one batch, no
      batch is too large, and every caller is served in a bounded number of steps.
    - The shell parser refines the meaning of words, gives quoted words back unless they are empty, and ends
      on every input.
    - The runner: however requests, goroutines and answers interleave, its actions are
      a life with exactly one terminal status, in which the watcher that was started is stopped, and it ends.
    - Logs: if nothing fails and the task writes lines, then however writes and rounds interleave the uploads put
      together are all that the task wrote; a round touches exactly the files it should, those whose names
      are of one of five forms or match the user's expression.
    - File locks: whatever the processes of an instance do at the same time, a lock is on the
      directory that has the name when it is taken, and a lock asked for with a timeout has an answer in a
      bounded number of steps.  Agents that allocate at the same time never give the same
      address to two containers, and executors never give one GPU to two containers, unless Docker could not
      stop one of them.
    - Credentials: STS is asked by one goroutine at a time, only when it is due, and always with the policy
      where there is one; if nothing is late, credentials that are handed out live for four minutes or more; the
      names of sessions are accepted by STS.  A cached value is an answer for its key and not too old,
      whatever processes do at the same time.
    - Errors, validation and limits: exact classification of EC2 errors, rejection
      of incomplete requests without effect, look-ups and 64-bit arithmetic.

    ** Fuel and bounds

    A loop that retries after a serialization failure consumes a fault of the
    schedule on every round, so its fuel is the number of faults left plus one, and
    is proved not to run out.  The loop of [generateAssignmentID2] ends with a
    timeout of 30 seconds; its fuel is the number of rounds that fit, and the theorems
    hold for every number.  Endless loops ([holdLock], the worker and listener loops)
    run over a finite list of what their [select] receives, for every such list.  The
    number of pages EC2 answers a describe call with is bounded by a fuel, and the
    theorems hold for every fuel.  The fuel of [reallocateStaticAssignments] and of the
    shell parser is proved to be enough.  The programs of [Host] have no fuel: they are trees, which may
    be infinite, and a run is a list of steps; [FsLocker.lockHelper_ends] bounds the steps of a lock by its
    timeout.

    ** What is not modelled

    Handlers of [BranchEni] to [ExcessBranches] run one after the other: serializable
    transactions make concurrent ones behave like some such order, and advisory
    locks they wait for are always granted.  Columns that only record who did something and
    when, logging, tracing and metrics are left out.  EC2, postgres and the AWS SDK
    are not in the repository.  The workers of one background task run one after the
    other.  Not modelled yet: the goroutines around the log watcher.
    In [Host] the deadline of a context may pass at any moment; a lock without timeout waits in
    a goroutine of its own, which the definitions have and the program logic does not; an error of reading or
    writing a file is left out.
    In [Iam] the section under a lock that reads or writes one pointer is one step, and bodies of responses are the
    structs that are encoded as JSON.  Routing, redirects and signatures of the metadata service, and the reaper, are
    calls of other programs and libraries.  The rest of the Docker runtime and of the agent is calls of the kernel,
    Docker and netlink. *)
From stdpp Require Export base tactics decidable list strings gmap sorting pretty.
From Stdlib Require Export Ascii.
From Stdlib Require Export ZArith Lia.

(** * Outcomes of a Go call

    A call returns a value, returns an error, or panics. *)
Inductive res (Er A : Type) : Type :=
| Ok (a : A)
| Fail (e : Er)
| Panic (msg : string).

Arguments Ok {Er A} a.
Arguments Fail {Er A} e.
Arguments Panic {Er A} msg.

Definition is_ok {Er A} (r : res Er A) : bool :=
  match r with Ok _ => true | _ => false end.

(** * Tactics *)

(** Case analysis on the innermost scrutinee of a [match] or [if] that is in
    the way, with an equation. *)
Ltac break_match_hyp :=
  match goal with
  | H : context [match ?x with _ => _ end] |- _ =>
      lazymatch x with
      | context [match _ with _ => _ end] => fail
      | _ => let E := fresh "E" in destruct x eqn:E
      end
  end.

Ltac break_match_goal :=
  match goal with
  | |- context [match ?x with _ => _ end] =>
      lazymatch x with
      | context [match _ with _ => _ end] => fail
      | _ => let E := fresh "E" in destruct x eqn:E
      end
  end.

Ltac break := first [break_match_hyp | break_match_goal].

Ltac break_all := repeat (simpl in *; simplify_eq/=; try done; break); simpl in *; simplify_eq/=.

(** * Decimal numerals: [strconv.Itoa] and [strconv.Atoi] *)

Definition digit (c : ascii) : option N :=
  let n := N_of_ascii c in
  if ((48 <=? n) && (n <=? 57))%N then Some (n - 48)%N else None.

Fixpoint digits (acc : N) (s : string) : option N :=
  match s with
  | EmptyString => Some acc
  | String c s => match digit c with Some n => digits (10 * acc + n)%N s | None => None end
  end.

(** The sign is optional, one digit is not. *)
Definition parse_integer (s : string) : option Z :=
  match s with
  | EmptyString => None
  | String c s' =>
      if ascii_dec c "-" then
        match s' with EmptyString => None | _ => (λ n, - Z.of_N n)%Z <$> digits 0 s' end
      else if ascii_dec c "+" then
        match s' with EmptyString => None | _ => Z.of_N <$> digits 0 s' end
      else Z.of_N <$> digits 0 s
  end.

Definition is_int (z : Z) : bool := ((- 2 ^ 63 <=? z) && (z <? 2 ^ 63))%Z.

(** A number that is not an [int] is an error too. *)
Definition Atoi (s : string) : option Z :=
  z ← parse_integer s;
  if is_int z then Some z else None.

Definition Itoa (z : Z) : string := pretty z.

Lemma digits_app acc s t :
  digits acc (s +:+ t) = match digits acc s with Some n => digits n t | None => None end.
Proof. revert acc. induction s as [|c s IH]; intros acc; simpl; [done|]. by destruct (digit c). Qed.

Lemma digit_pretty n : (n < 10)%N → digit (pretty_N_char n) = Some n.
Proof.
  intros Hn. assert (n ∈ [0;1;2;3;4;5;6;7;8;9]%N) as Hin by (rewrite !elem_of_cons; lia).
  repeat (apply elem_of_cons in Hin as [->|Hin]; [reflexivity|]). inversion Hin.
Qed.

Lemma digits_pretty_N_go x s acc :
  ∃ m, digits acc (pretty_N_go x s) = digits m s ∧ (acc = 0%N → m = x).
Proof.
  revert s acc. induction (N.lt_wf_0 x) as [x _ IH]; intros s acc.
  destruct (decide (x = 0%N)) as [->|Hx].
  - exists acc. rewrite pretty_N_go_0. done.
  - rewrite pretty_N_go_step by lia.
    destruct (IH (x `div` 10)%N ltac:(apply N.div_lt; lia) (String (pretty_N_char (x `mod` 10)) s) acc)
      as (m & Hm & H0).
    exists (10 * m + x `mod` 10)%N. rewrite Hm. simpl. rewrite digit_pretty by (apply N.mod_lt; lia).
    split; [done|]. intros Hacc. rewrite (H0 Hacc). pose proof (N.div_mod x 10). lia.
Qed.

Lemma digits_pretty (n : N) : digits 0 (pretty n) = Some n.
Proof.
  unfold pretty, pretty_N. case_decide as E; [by subst|].
  destruct (digits_pretty_N_go n "" 0) as (m & Hm & H0). rewrite Hm. simpl. by rewrite H0.
Qed.

Lemma pretty_N_head (n : N) : ∃ c s, pretty n = String c s ∧ is_Some (digit c).
Proof.
  pose proof (digits_pretty n) as H. destruct (pretty n) as [|c s] eqn:E.
  - simpl in H. by simplify_eq.
  - exists c, s. split; [done|]. simpl in H. destruct (digit c); [eauto | done].
Qed.

Lemma parse_integer_dash c s :
  parse_integer (String "-" (String c s)) = (λ n, - Z.of_N n)%Z <$> digits 0 (String c s).
Proof. done. Qed.

Lemma parse_integer_digit c s :
  is_Some (digit c) → parse_integer (String c s) = Z.of_N <$> digits 0 (String c s).
Proof.
  intros Hc. unfold parse_integer. destruct (ascii_dec c "-") as [->|]; [by destruct Hc|].
  destruct (ascii_dec c "+") as [->|]; [by destruct Hc | done].
Qed.

Lemma parse_integer_pretty (z : Z) : parse_integer (pretty z) = Some z.
Proof.
  destruct z as [|p|p]; [done| |];
    destruct (pretty_N_head (Npos p)) as (c & s & E & Hc); pose proof (digits_pretty (Npos p)) as H;
    rewrite E in H.
  - change (pretty (Zpos p)) with (pretty (Npos p)). by rewrite E, parse_integer_digit, H.
  - change (pretty (Zneg p)) with (String "-" (pretty (Npos p))). by rewrite E, parse_integer_dash, H.
Qed.

(** Reading a printed number gives it back. *)
Lemma Atoi_Itoa z : is_int z = true → Atoi (Itoa z) = Some z.
Proof. intros H. unfold Atoi, Itoa. rewrite parse_integer_pretty. simpl. by rewrite H. Qed.

(** * Splitting strings: [strings.Split] at a one-character separator *)

Fixpoint strings_Split (s : string) (sep : ascii) : list string :=
  match s with
  | EmptyString => [EmptyString]
  | String c s' =>
      if ascii_dec c sep then EmptyString :: strings_Split s' sep
      else match strings_Split s' sep with
           | [] => [String c EmptyString]
           | h :: t => String c h :: t
           end
  end.

(** [sort.Strings] *)
Definition sort_Strings (l : list string) : list string := merge_sort String.le l.

(** * Generic list lemmas *)

(** The list around an index, and the list after a write there *)
Lemma list_split_at {A} (l : list A) i x :
  l !! i = Some x → ∃ l1 l2, l = l1 ++ x :: l2 ∧ i = length l1 ∧ ∀ y, <[i:=y]> l = l1 ++ y :: l2.
Proof.
  intros H. pose proof (lookup_lt_Some _ _ _ H). exists (take i l), (drop (S i) l).
  split_and!; [by rewrite take_drop_middle | rewrite length_take; lia |]. intros y. by apply insert_take_drop.
Qed.

Lemma existsb_true {A} (f : A → bool) (l : list A) :
  existsb f l = true ↔ ∃ x, x ∈ l ∧ f x = true.
Proof.
  rewrite List.existsb_exists. setoid_rewrite <- list_elem_of_In. done.
Qed.
