(* ===== verification/Errors.v ===== *)
(** * Errors: the error values of the VPC service

    Models [vpc/service/errors.go], [vpc/service/vpcerrors/errors.go] and
    [vpc/service/ec2wrapper/ec2_errors.go].  A Go error is a value of [error];
    [chain] lists what repeated [errors.Unwrap] yields, and every
    classification ([errors.Is], [pqError], [RetrieveEC2Error], ...) is a
    search of that list, as the loops of the source are. *)
From S2P Require Import Prelude.

Open Scope string_scope.
Open Scope Z_scope.
Open Scope list_scope.

(** The gRPC codes the service uses. *)
Inductive code : Type :=
| OK | Canceled | Unknown | InvalidArgument | DeadlineExceeded | NotFound
| ResourceExhausted | FailedPrecondition | Aborted | Unimplemented | Internal.

#[export] Instance code_eq_dec : EqDecision code.
Proof. solve_decision. Defined.

(** An [awserr.Error]; it also is an [awserr.RequestFailure] when it carries an
    HTTP status code and a request ID. *)
Record awserr := AwsErr {
  aws_Code : string;
  aws_Message : string;
  aws_failure : option (Z * string)
}.

Definition aws_StatusCode (a : awserr) : Z :=
  match aws_failure a with Some (s, _) => s | None => 0 end.

(** The [errno] values the code tells apart; the others are numbers. *)
Inductive errno : Type :=
| EWOULDBLOCK | ETIMEDOUT | EBADF | ENOENT | EEXIST | ENOTDIR | ENOTEMPTY | EOther (n : Z).

#[export] Instance errno_eq_dec : EqDecision errno.
Proof. solve_decision. Defined.

Definition errno_text (e : errno) : string :=
  match e with
  | EWOULDBLOCK => "resource temporarily unavailable"
  | ETIMEDOUT => "connection timed out"
  | EBADF => "bad file descriptor"
  | ENOENT => "no such file or directory"
  | EEXIST => "file exists"
  | ENOTDIR => "not a directory"
  | ENOTEMPTY => "directory not empty"
  | EOther n => "errno " +:+ Itoa n
  end.

(** [EWrap] is what [pkg/errors.Wrap] builds, [EMulti] a [multierror.Error]
    (which this vendored version gives no [Unwrap]). *)
Inductive error : Type :=
| EString (msg : string)
| EWrap (msg : string) (err : error)
| EStatus (c : code) (msg : string)
| ENoRows
| ETxDone
| ECtx (deadline : bool)
| EPq (name constraint : string)
| EConcurrency (err : error)
| EIrrecoverable (err : error)
| EMethodNotPossible (method : string)
| EPersistent (err : error)
| ERetryable (err : error)
| EWithSleep (err : error)
| EAws (a : awserr)
| EWrappedRequestFailure (a : awserr)
| EWrappedEC2 (a : awserr)
| EErrno (e : errno)
| EMulti (errs : list error).

(** [Error()]: the text, as far as it is stored in the database. *)
Fixpoint Error (e : error) : string :=
  match e with
  | EString msg => msg
  | EWrap msg e' => msg +:+ ": " +:+ Error e'
  | EStatus _ msg => "rpc error: " +:+ msg
  | ENoRows => "sql: no rows in result set"
  | ETxDone => "sql: transaction has already been committed or rolled back"
  | ECtx true => "context deadline exceeded"
  | ECtx false => "context canceled"
  | EPq name constraint => "pq: " +:+ name +:+ " " +:+ constraint
  | EConcurrency e' | EIrrecoverable e' | EPersistent e' | ERetryable e' | EWithSleep e' => Error e'
  | EMethodNotPossible m => "Cannot use " +:+ m
  | EAws a | EWrappedRequestFailure a | EWrappedEC2 a => aws_Code a +:+ ": " +:+ aws_Message a
  | EErrno e => errno_text e
  | EMulti _ => "multiple errors"
  end.

(** [wrappedRequestFailureError.Unwrap] *)
Definition wrappedRequestFailure_Unwrap (a : awserr) : error :=
  if (500 <=? aws_StatusCode a) && (aws_StatusCode a <? 600) then ERetryable (EAws a)
  else if (400 <=? aws_StatusCode a) && (aws_StatusCode a <? 500) then EPersistent (EAws a)
  else EAws a.

(** [errors.Unwrap] over the [Unwrap] methods of the error types. *)
Definition Unwrap (e : error) : option error :=
  match e with
  | EWrap _ e' | EConcurrency e' | EIrrecoverable e' | EPersistent e'
  | ERetryable e' | EWithSleep e' => Some e'
  | EWrappedRequestFailure a => Some (wrappedRequestFailure_Unwrap a)
  | EWrappedEC2 a => Some (EAws a)
  | _ => None
  end.

Fixpoint chain (e : error) : list error :=
  e :: match e with
       | EWrap _ e' | EConcurrency e' | EIrrecoverable e' | EPersistent e'
       | ERetryable e' | EWithSleep e' => chain e'
       | EWrappedRequestFailure a =>
           match wrappedRequestFailure_Unwrap a with
           | EAws a' => [EAws a']
           | e' => [e'; EAws a]
           end
       | EWrappedEC2 a => [EAws a]
       | _ => []
       end.

(** [errors.Is(err, &T{})]: the [Is] methods only test the dynamic type. *)
Definition errors_Is (is_T : error → bool) (e : error) : bool := existsb is_T (chain e).

Definition isConcurrencyError (e : error) : bool :=
  errors_Is (λ e, match e with EConcurrency _ => true | _ => false end) e.

Definition isIrrecoverableError (e : error) : bool :=
  errors_Is (λ e, match e with EIrrecoverable _ => true | _ => false end) e.

Definition isMethodNotPossible (e : error) : bool :=
  errors_Is (λ e, match e with EMethodNotPossible _ => true | _ => false end) e.

Definition IsPersistentError (e : error) : bool :=
  errors_Is (λ e, match e with EPersistent _ => true | _ => false end) e.

Definition IsRetryable (e : error) : bool :=
  errors_Is (λ e, match e with ERetryable _ => true | _ => false end) e.

Definition IsSleep (e : error) : bool :=
  errors_Is (λ e, match e with EWithSleep _ => true | _ => false end) e.

Definition list_find_map {A B} (f : A → option B) (l : list A) : option B :=
  head (omap f l).

(** [pqError]: the first [*pq.Error] of the chain. *)
Definition pqError (e : error) : option (string * string) :=
  list_find_map (λ e, match e with EPq n c => Some (n, c) | _ => None end) (chain e).

Definition isSerializationFailure (e : error) : bool :=
  match pqError e with
  | Some (name, _) => bool_decide (name = "serialization_failure")
  | None => false
  end.

Definition RetrieveEC2Error (e : error) : option awserr :=
  list_find_map (λ e, match e with EAws a => Some a | _ => None end) (chain e).

Definition RetrieveRequestFailure (e : error) : option awserr :=
  list_find_map
    (λ e, match e with
          | EAws a => match aws_failure a with Some _ => Some a | None => None end
          | _ => None
          end) (chain e).

Definition IsRequestFailure (e : error) : bool := bool_decide (is_Some (RetrieveRequestFailure e)).
Definition IsAWSErr (e : error) : bool := bool_decide (is_Some (RetrieveEC2Error e)).

Definition InvalidNetworkInterfaceIDNotFound := "InvalidNetworkInterfaceID.NotFound".
Definition InvalidAssociationIDNotFound := "InvalidAssociationID.NotFound".
Definition InvalidGroupNotFound := "InvalidGroup.NotFound".
Definition InvalidSubnetIDNotFound := "InvalidSubnetID.NotFound".
Definition InvalidInstanceIDNotFound := "InvalidInstanceID.NotFound".
Definition ClientRequestLimitExceeded := "Client.RequestLimitExceeded".
Definition CanceledErrorCode := "RequestCanceled".
Definition ErrCodeResponseTimeout := "ResponseTimeout".

Definition decodeError (a : awserr) : code :=
  if bool_decide (aws_Code a ∈ [InvalidNetworkInterfaceIDNotFound; InvalidAssociationIDNotFound;
                                InvalidGroupNotFound; InvalidSubnetIDNotFound;
                                InvalidInstanceIDNotFound]) then NotFound
  else if bool_decide (aws_Code a = ClientRequestLimitExceeded) then ResourceExhausted
  else if bool_decide (aws_Code a = CanceledErrorCode) then Canceled
  else if bool_decide (aws_Code a = ErrCodeResponseTimeout) then DeadlineExceeded
  else Unknown.

Definition WrapEC2Error (e : error) : error :=
  match RetrieveRequestFailure e with
  | Some a => EWrappedRequestFailure a
  | None =>
      match RetrieveEC2Error e with
      | Some a => EWrappedEC2 a
      | None => e
      end
  end.

(** The span attributes [HandleEC2Error] also sets are tracing only. *)
Definition HandleEC2Error (e : error) : error := WrapEC2Error e.

(** The status code a gRPC client sees: [status.FromError] asks the error
    itself for [GRPCStatus] and does not unwrap. *)
Definition GRPCStatus (e : error) : code :=
  match e with
  | EStatus c _ => c
  | EConcurrency _ => Aborted
  | EMethodNotPossible _ => FailedPrecondition
  | EWrappedRequestFailure a | EWrappedEC2 a => decodeError a
  | _ => Unknown
  end.

(** ** Facts about the chain *)

Lemma chain_Unwrap e :
  chain e = e :: match Unwrap e with Some e' => chain e' | None => [] end.
Proof.
  destruct e; try done. simpl. unfold wrappedRequestFailure_Unwrap.
  do 2 (destruct (_ && _); [done |]). done.
Qed.

Lemma errors_Is_Unwrap is_T e :
  errors_Is is_T e = is_T e || match Unwrap e with Some e' => errors_Is is_T e' | None => false end.
Proof. unfold errors_Is. rewrite chain_Unwrap. simpl. by destruct (Unwrap e). Qed.

Lemma errors_Is_Wrap is_T msg e :
  is_T (EWrap msg e) = false → errors_Is is_T (EWrap msg e) = errors_Is is_T e.
Proof. intros H. rewrite errors_Is_Unwrap. simpl. by rewrite H. Qed.

Lemma IsRetryable_Wrap msg e : IsRetryable (EWrap msg e) = IsRetryable e.
Proof. by apply errors_Is_Wrap. Qed.

Lemma IsPersistentError_Wrap msg e : IsPersistentError (EWrap msg e) = IsPersistentError e.
Proof. by apply errors_Is_Wrap. Qed.

Lemma list_find_map_elem {A B} (f : A → option B) l b :
  list_find_map f l = Some b → ∃ a, a ∈ l ∧ f a = Some b.
Proof.
  unfold list_find_map. intros H%head_Some_elem_of.
  by apply list_elem_of_omap in H.
Qed.

Create Rewrite HintDb vpcerrors.
#[export] Hint Rewrite IsRetryable_Wrap IsPersistentError_Wrap : vpcerrors.

(** ** Errors of EC2 *)

Lemma RetrieveRequestFailure_failure e a :
  RetrieveRequestFailure e = Some a → is_Some (aws_failure a).
Proof.
  intros (e' & _ & H)%list_find_map_elem. destruct e'; try done.
  destruct (aws_failure a0) eqn:E; [|done]. injection H as <-. by rewrite E.
Qed.

Lemma chain_WrappedRequestFailure a :
  chain (EWrappedRequestFailure a) =
    [EWrappedRequestFailure a]
    ++ (if (500 <=? aws_StatusCode a) && (aws_StatusCode a <? 600) then [ERetryable (EAws a)]
        else if (400 <=? aws_StatusCode a) && (aws_StatusCode a <? 500) then [EPersistent (EAws a)] else [])
    ++ [EAws a].
Proof. simpl. unfold wrappedRequestFailure_Unwrap. by do 2 (destruct (_ && _); [done|]). Qed.

(** An error of EC2 that carries an HTTP status,
    however deeply it is wrapped, comes out of [HandleEC2Error] as retryable
    exactly when the status is 5xx and as persistent exactly when it is 4xx, with
    the gRPC code of its AWS code, and with the AWS error still to be found in its
    chain; handling it again changes nothing. *)
Theorem HandleEC2Error_classifies e a :
  RetrieveRequestFailure e = Some a →
  IsRetryable (HandleEC2Error e) = (500 <=? aws_StatusCode a) && (aws_StatusCode a <? 600) ∧
  IsPersistentError (HandleEC2Error e) = (400 <=? aws_StatusCode a) && (aws_StatusCode a <? 500) ∧
  GRPCStatus (HandleEC2Error e) = decodeError a ∧
  RetrieveEC2Error (HandleEC2Error e) = Some a ∧
  HandleEC2Error (HandleEC2Error e) = HandleEC2Error e.
Proof.
  intros H. destruct (RetrieveRequestFailure_failure e a H) as [f Hf].
  assert (HandleEC2Error e = EWrappedRequestFailure a) as -> by (unfold HandleEC2Error, WrapEC2Error; by rewrite H).
  unfold IsRetryable, IsPersistentError, errors_Is, RetrieveEC2Error, HandleEC2Error, WrapEC2Error, RetrieveRequestFailure.
  rewrite chain_WrappedRequestFailure.
  destruct (500 <=? aws_StatusCode a) eqn:E1, (aws_StatusCode a <? 600) eqn:E2,
    (400 <=? aws_StatusCode a) eqn:E3, (aws_StatusCode a <? 500) eqn:E4; simpl; unfold list_find_map; csimpl; rewrite ?Hf; try done; lia.
Qed.
