(* ===== verification/Host.v ===== *)
(** * Host: processes of one machine and the files they lock

    The tools that run on an agent coordinate through the file system: they make directories, open them and
    take [flock(2)] locks on them.  This file is what those tools use of the operating system and
    of Go's runtime: a directory tree, open files with their locks, a clock, contexts, goroutines and
    channels, and processes that run at the same time and can die at any moment.

    A program is an interaction tree over [hostE], so loops that wait for the world have no bound here.
    [handle] is the effect of one call, and [None] while the caller has to wait; what the operating
    system decides is in [oracle].  [sys_step] runs one step of one thread, or lets the world act; a run is a list of [label]s.

    [flock] converts a lock in two steps, as its manual page says: the lock that is held is dropped, and then
    the new one is asked for.  They are two calls here, so that other processes can act between them.

    [wp] is a program logic for one process among others: [R] bounds what the others do
    between two calls, [G] is what the process promises about each call it makes, [W] holds of every machine.
    [sys_ok_steps] is its soundness for whole systems. *)
From S2P Require Import Prelude Errors.
From ITree Require Import ITree.

Open Scope string_scope.
Open Scope Z_scope.
Open Scope list_scope.

#[export] Instance itree_ret {E} : MRet (itree E) := λ A a, Ret a.
#[export] Instance itree_bind {E} : MBind (itree E) := λ A B k t, ITree.bind t k.

(** ** Paths *)

(** A path is its list of components; a Go path is split at its slashes. *)
Definition path := list string.

(** [filepath.Clean] of a rooted path *)
Fixpoint clean_onto (done p : path) : path :=
  match p with
  | [] => done
  | c :: p =>
      if bool_decide (c = "" ∨ c = ".") then clean_onto done p
      else if bool_decide (c = "..") then clean_onto (removelast done) p
      else clean_onto (done ++ [c]) p
  end.

(** [filepath.Join] of a clean rooted path with another *)
Definition Join (p q : path) : path := clean_onto p q.

Definition parent (p : path) : path := removelast p.

(** ** The machine *)

Definition pid := N.
Definition file := N.
Definition ref := N.
Definition ctx := N.

Inductive lock_mode : Type := LOCK_SH | LOCK_EX.

#[export] Instance lock_mode_eq_dec : EqDecision lock_mode.
Proof. solve_decision. Defined.

Record inode := Inode { ino_dir : bool; ino_mtime : Z }.

(** An open file description: the file, the lock it has, and the path it was opened by *)
Record ofile := OFile { of_ino : N; of_lock : option lock_mode; of_path : path }.

(** What processes do beyond files: the questions they ask others, with the type of the answer *)
Class World := { question : Type; answer : question → Type }.

Section Host.
Context `{World}.

Inductive happening : Type :=
| Asked (q : question) (a : answer q)
| Exited
| Panicked.

(** [m_files] and the stores of Go objects are per process.  [m_locks] has the [Lock] structs of the
    locker, whose [file] can be nil, and [m_chans] the channels that carry one error.  [m_cancelled] has
    the contexts that are done, and whether because of a deadline.  [m_trace] is what happened, latest first. *)
Record machine := Machine {
  m_now : Z;
  m_next : N;
  m_names : gmap path N;
  m_inodes : gmap N inode;
  m_files : gmap (pid * file) ofile;
  m_locks : gmap (pid * ref) (option file);
  m_chans : gmap (pid * ref) (option (option error));
  m_cancelled : gmap (pid * ctx) bool;
  m_trace : list (pid * happening)
}.

Definition with_files (m : machine) (fs : gmap (pid * file) ofile) : machine :=
  Machine (m_now m) (m_next m) (m_names m) (m_inodes m) fs (m_locks m) (m_chans m) (m_cancelled m) (m_trace m).
Definition with_names (m : machine) (names : gmap path N) (inodes : gmap N inode) : machine :=
  Machine (m_now m) (m_next m) names inodes (m_files m) (m_locks m) (m_chans m) (m_cancelled m) (m_trace m).
Definition with_locks (m : machine) (ls : gmap (pid * ref) (option file)) : machine :=
  Machine (m_now m) (m_next m) (m_names m) (m_inodes m) (m_files m) ls (m_chans m) (m_cancelled m) (m_trace m).
Definition with_chans (m : machine) (cs : gmap (pid * ref) (option (option error))) : machine :=
  Machine (m_now m) (m_next m) (m_names m) (m_inodes m) (m_files m) (m_locks m) cs (m_cancelled m) (m_trace m).
Definition with_cancelled (m : machine) (cs : gmap (pid * ctx) bool) : machine :=
  Machine (m_now m) (m_next m) (m_names m) (m_inodes m) (m_files m) (m_locks m) (m_chans m) cs (m_trace m).
Definition with_trace (m : machine) (tr : list (pid * happening)) : machine :=
  Machine (m_now m) (m_next m) (m_names m) (m_inodes m) (m_files m) (m_locks m) (m_chans m) (m_cancelled m) tr.
Definition with_now (m : machine) (t : Z) : machine :=
  Machine t (m_next m) (m_names m) (m_inodes m) (m_files m) (m_locks m) (m_chans m) (m_cancelled m) (m_trace m).
Definition bump_next (m : machine) : machine :=
  Machine (m_now m) (m_next m + 1) (m_names m) (m_inodes m) (m_files m) (m_locks m) (m_chans m) (m_cancelled m) (m_trace m).

(** ** Calls *)

(** [unix.Flock] is [FlockDrop] and [FlockTake], or [FlockUn] for [LOCK_UN].  [Fork] starts a goroutine and
    answers [true] in it, [Goexit] ends one, and [GoPanic] the process.  [SelectDone] waits for a context and a channel.
    A send is the last thing its goroutine does here, so it need not wait for the receiver. *)
Inductive sysE : Type → Type :=
| OpenFile (p : path) (creat : bool) : sysE (error + file)
| Mkdir (p : path) : sysE (option error)
| Stat (p : path) : sysE (error + bool)
| Remove (p : path) : sysE (option error)
| ReadDir (p : path) : sysE (error + (list (string * Z)))
| FlockDrop (f : file) (how : lock_mode) : sysE (option error)
| FlockTake (f : file) (how : lock_mode) (nb : bool) : sysE (option error)
| FlockUn (f : file) : sysE (option error)
| Close (f : file) : sysE (option error)
| Futimes (f : file) (t : Z) : sysE (option error)
| Now : sysE Z
| WaitUntil (t : Z) : sysE unit
| Intn (n : Z) : sysE Z
| CtxErr (c : ctx) : sysE (option error)
| NewLock (f : file) : sysE ref
| LoadLock (r : ref) : sysE (option file)
| ClearLock (r : ref) : sysE unit
| MakeChan : sysE ref
| Send (ch : ref) (e : option error) : sysE unit
| Recv (ch : ref) : sysE (option error)
| SelectDone (c : ctx) (ch : ref) : sysE (error + option error)
| Ask (q : question) : sysE (answer q).

Inductive hostE : Type → Type :=
| Sys {A} (e : sysE A) : hostE A
| Fork : hostE bool
| Goexit : hostE Empty_set
| GoPanic : hostE Empty_set.

Definition prog := itree hostE.
Definition sys {A} (e : sysE A) : prog A := ITree.trigger (Sys e).

(** What is decided elsewhere: whether a system call fails with an errno of its own, numbers drawn,
    the answers of others, and which ready case a [select] takes *)
Record oracle := Oracle {
  o_fault : option Z;
  o_pick : Z;
  o_done : bool;
  o_answer : ∀ q, answer q
}.

(** ** Locks *)

Definition conflicts (held how : lock_mode) : bool :=
  match held, how with LOCK_SH, LOCK_SH => false | _, _ => true end.

(** Whether an open file other than [k] keeps [how] from being granted on [ino] *)
Definition obstructs (k : pid * file) (ino : N) (how : lock_mode) (e : (pid * file) * ofile) : bool :=
  negb (bool_decide (e.1 = k)) && bool_decide (of_ino e.2 = ino) &&
  match of_lock e.2 with Some held => conflicts held how | None => false end.

Definition obstructed (m : machine) (k : pid * file) (ino : N) (how : lock_mode) : bool :=
  existsb (obstructs k ino how) (map_to_list (m_files m)).

Definition set_lock (m : machine) (k : pid * file) (o : ofile) (l : option lock_mode) : machine :=
  with_files m (<[k := OFile (of_ino o) l (of_path o)]> (m_files m)).

(** ** Directories *)

Definition is_dir (m : machine) (p : path) : bool :=
  match m_names m !! p with
  | Some i => match m_inodes m !! i with Some n => ino_dir n | None => false end
  | None => false
  end.

(** The names in a directory, sorted, with the modification times *)
Definition entry_of (m : machine) (p : path) (e : path * N) : option (string * Z) :=
  if bool_decide (e.1 ≠ [] ∧ parent e.1 = p) then
    n ← m_inodes m !! e.2; c ← last e.1; Some (c, ino_mtime n)
  else None.

Definition by_name (a b : string * Z) : Prop := String.le a.1 b.1.

#[global] Instance by_name_dec a b : Decision (by_name a b).
Proof. unfold by_name. apply _. Defined.

Definition entries (m : machine) (p : path) : list (string * Z) :=
  merge_sort by_name (omap (entry_of m p) (map_to_list (m_names m))).

Definition create (m : machine) (p : path) (dir : bool) : machine :=
  bump_next (with_names m (<[p := m_next m]> (m_names m)) (<[m_next m := Inode dir (m_now m)]> (m_inodes m))).

Definition open_as (m : machine) (p : pid) (ino : N) (q : path) : file * machine :=
  (m_next m, bump_next (with_files m (<[(p, m_next m) := OFile ino None q]> (m_files m)))).

(** ** The effect of a call *)

Definition errno_of (n : Z) : error := EErrno (EOther n).

(** A call on an open file of the process *)
Definition on_file {A} (o : oracle) (m : machine) (k : pid * file) (bad : error → A) (f : ofile → option (A * machine)) : option (A * machine) :=
  match m_files m !! k, o_fault o with
  | None, _ => Some (bad (EErrno EBADF), m)
  | Some _, Some n => Some (bad (errno_of n), m)
  | Some x, None => f x
  end.

Definition handle_open (o : oracle) (p : pid) (q : path) (creat : bool) (m : machine) : (error + file) * machine :=
  match o_fault o, m_names m !! q with
  | Some n, _ => (inl (errno_of n), m)
  | None, Some i => let '(f, m') := open_as m p i q in (inr f, m')
  | None, None =>
      if creat && is_dir m (parent q) && bool_decide (q ≠ []) then
        let '(f, m') := open_as (create m q false) p (m_next m) q in (inr f, m')
      else (inl (EErrno ENOENT), m)
  end.

Definition handle_mkdir (o : oracle) (q : path) (m : machine) : option error * machine :=
  match o_fault o, m_names m !! q with
  | Some n, _ => (Some (errno_of n), m)
  | None, Some _ => (Some (EErrno EEXIST), m)
  | None, None =>
      if is_dir m (parent q) && bool_decide (q ≠ []) then (None, create m q true) else (Some (EErrno ENOENT), m)
  end.

Definition handle_remove (o : oracle) (q : path) (m : machine) : option error * machine :=
  match o_fault o, m_names m !! q with
  | Some n, _ => (Some (errno_of n), m)
  | None, None => (Some (EErrno ENOENT), m)
  | None, Some _ =>
      if bool_decide (entries m q = []) then (None, with_names m (delete q (m_names m)) (m_inodes m))
      else (Some (EErrno ENOTEMPTY), m)
  end.

(** A context that is done says why. *)
Definition ctx_err (m : machine) (p : pid) (c : ctx) : option error := ECtx <$> m_cancelled m !! (p, c).

(** The first half of [flock]: a lock of another mode is dropped. *)
Definition flock_drop (m : machine) (k : pid * file) (how : lock_mode) (x : ofile) : machine :=
  if bool_decide (of_lock x = Some how) then m else set_lock m k x None.

(** The second half: the lock is granted when no other open file obstructs it. *)
Definition flock_take (m : machine) (k : pid * file) (how : lock_mode) (nb : bool) (x : ofile) : option (option error * machine) :=
  if bool_decide (of_lock x = Some how) then Some (None, m)
  else if obstructed m k (of_ino x) how then
    if nb then Some (Some (EErrno EWOULDBLOCK), m) else None
  else Some (None, set_lock m k x (Some how)).

Definition handle (o : oracle) (p : pid) {A} (e : sysE A) (m : machine) : option (A * machine) :=
  match e in sysE A return option (A * machine) with
  | OpenFile q creat => Some (handle_open o p q creat m)
  | Mkdir q => Some (handle_mkdir o q m)
  | Stat q => Some (match o_fault o, m_names m !! q with
                    | Some n, _ => inl (errno_of n)
                    | None, None => inl (EErrno ENOENT)
                    | None, Some _ => inr (is_dir m q)
                    end, m)
  | Remove q => Some (handle_remove o q m)
  | ReadDir q => Some (match o_fault o, m_names m !! q with
                       | Some n, _ => inl (errno_of n)
                       | None, None => inl (EErrno ENOENT)
                       | None, Some _ => if is_dir m q then inr (entries m q) else inl (EErrno ENOTDIR)
                       end, m)
  | FlockDrop f how => on_file o m (p, f) Some (λ x, Some (None, flock_drop m (p, f) how x))
  | FlockTake f how nb => on_file o m (p, f) Some (flock_take m (p, f) how nb)
  | FlockUn f => on_file o m (p, f) Some (λ x, Some (None, set_lock m (p, f) x None))
  | Close f => match m_files m !! (p, f) with
               | None => Some (Some (EErrno EBADF), m)
               | Some _ => Some (errno_of <$> o_fault o, with_files m (delete (p, f) (m_files m)))
               end
  | Futimes f t => on_file o m (p, f) Some (λ x,
      Some (None, with_names m (m_names m) (alter (λ n, Inode (ino_dir n) t) (of_ino x) (m_inodes m))))
  | Now => Some (m_now m, m)
  | WaitUntil t => if t <=? m_now m then Some (tt, m) else None
  | Intn n => Some (o_pick o mod n, m)
  | CtxErr c => Some (ctx_err m p c, m)
  | NewLock f => Some (m_next m, bump_next (with_locks m (<[(p, m_next m) := Some f]> (m_locks m))))
  | LoadLock r => Some (m_locks m !! (p, r) ≫= id, m)
  | ClearLock r => Some (tt, with_locks m (alter (λ _, None) (p, r) (m_locks m)))
  | MakeChan => Some (m_next m, bump_next (with_chans m (<[(p, m_next m) := None]> (m_chans m))))
  | Send ch e => Some (tt, with_chans m (<[(p, ch) := Some e]> (m_chans m)))
  | Recv ch => e ← m_chans m !! (p, ch) ≫= id; Some (e, with_chans m (<[(p, ch) := None]> (m_chans m)))
  | SelectDone c ch =>
      match ctx_err m p c, m_chans m !! (p, ch) ≫= id with
      | Some e, None => Some (inl e, m)
      | Some e, Some v => if o_done o then Some (inl e, m) else Some (inr v, with_chans m (<[(p, ch) := None]> (m_chans m)))
      | None, Some v => Some (inr v, with_chans m (<[(p, ch) := None]> (m_chans m)))
      | None, None => None
      end
  | Ask q => Some (o_answer o q, with_trace m ((p, Asked q (o_answer o q)) :: m_trace m))
  end.

(** ** Systems *)

(** A goroutine of a process; the process ends with its main one. *)
Record thread := Thread { th_pid : pid; th_main : bool; th_code : prog unit }.

Record system := System { sys_m : machine; sys_threads : gmap N thread }.

(** When a process is gone, its goroutines are, and the kernel closes its files. *)
Definition die (p : pid) (h : happening) (s : system) : system :=
  System (with_trace (with_files (sys_m s) (filter (λ e, e.1.1 ≠ p) (m_files (sys_m s)))) ((p, h) :: m_trace (sys_m s)))
    (filter (λ e, th_pid e.2 ≠ p) (sys_threads s)).

Definition set_code (s : system) (tid : N) (th : thread) (m : machine) (c : prog unit) : system :=
  System m (<[tid := Thread (th_pid th) (th_main th) c]> (sys_threads s)).

(** The next node of a thread *)
Definition step_thread (o : oracle) (tid : N) (th : thread) (s : system) : option system :=
  match observe (th_code th) with
  | RetF _ => Some (if th_main th then die (th_pid th) Exited s else System (sys_m s) (delete tid (sys_threads s)))
  | TauF c => Some (set_code s tid th (sys_m s) c)
  | VisF e k =>
      match e in hostE A return (A → prog unit) → option system with
      | Fork => λ k,
          let m := sys_m s in
          Some (System (bump_next m) (<[m_next m := Thread (th_pid th) false (k true)]>
            (<[tid := Thread (th_pid th) (th_main th) (k false)]> (sys_threads s))))
      | Goexit => λ _, Some (System (sys_m s) (delete tid (sys_threads s)))
      | GoPanic => λ _, Some (die (th_pid th) Panicked s)
      | Sys e => λ k, '(a, m) ← handle o (th_pid th) e (sys_m s); Some (set_code s tid th m (k a))
      end k
  end.

(** A thread runs, time passes, a context is done, or a process is killed. *)
Inductive label : Type :=
| Run (tid : N) (o : oracle)
| Tick (d : N)
| CancelCtx (p : pid) (c : ctx) (deadline : bool)
| Kill (p : pid).

Definition cancel (m : machine) (p : pid) (c : ctx) (deadline : bool) : machine :=
  match m_cancelled m !! (p, c) with
  | Some _ => m
  | None => with_cancelled m (<[(p, c) := deadline]> (m_cancelled m))
  end.

Definition sys_step (l : label) (s : system) : option system :=
  match l with
  | Run tid o => th ← sys_threads s !! tid; step_thread o tid th s
  | Tick d => Some (System (with_now (sys_m s) (m_now (sys_m s) + Z.of_N d)) (sys_threads s))
  | CancelCtx p c deadline => Some (System (cancel (sys_m s) p c deadline) (sys_threads s))
  | Kill p => Some (die p Exited s)
  end.

Fixpoint sys_run (ls : list label) (s : system) : option system :=
  match ls with
  | [] => Some s
  | l :: ls => s' ← sys_step l s; sys_run ls s'
  end.

(** Every process starts as one goroutine; the one of process [p] is thread [p]. *)
Definition boot (m : machine) (ps : list (pid * prog unit)) : system :=
  System m (list_to_map ((λ e, (e.1, Thread e.1 true e.2)) <$> ps)).

(** ** A logic for one process *)

Section Wp.
Context (p : pid) (W : machine → Prop) (R : machine → machine → Prop) (G : ∀ A, sysE A → machine → Prop) (I : machine → Prop).
Context (R_refl : ∀ m, R m m) (R_trans : ∀ m1 m2 m3, R m1 m2 → R m2 m3 → R m1 m3).

(** [n] steps of the process: [I] holds before each, [G] of each call, and [Q] of the result.  A total one has
    returned, panicked or waits after fewer than [n] steps.  Goroutines are out of its reach. *)
Fixpoint wp (total : bool) (n : nat) {A} (t : prog A) (Q : A → machine → Prop) (m : machine) {struct n} : Prop :=
  match n with
  | O => total = false
  | S n => ∀ m', W m' → R m m' → I m' ∧
      match observe t with
      | RetF a => Q a m'
      | TauF t => wp total n t Q m'
      | VisF e k =>
          match e in hostE X return (X → prog A) → Prop with
          | Sys e => λ k, G _ e m' ∧ ∀ o x m'', handle o p e m' = Some (x, m'') → W m'' → wp total n (k x) Q m''
          | GoPanic => λ _, True
          | Fork | Goexit => λ _, False
          end k
      end
  end.

Lemma wp_rely b n {A} (t : prog A) Q m m' : wp b n t Q m → R m m' → wp b n t Q m'.
Proof. destruct n; [done|]. intros Hwp HR m2 HW HR'. exact (Hwp m2 HW (R_trans _ _ _ HR HR')). Qed.

Lemma wp_observe b n {A} (t t' : prog A) Q m : observe t = observe t' → wp b n t Q m → wp b n t' Q m.
Proof. destruct n; [done|]. intros E Hwp m' HW HR. rewrite <- E. exact (Hwp m' HW HR). Qed.

Lemma prog_mono b n {A} (t : prog A) Q Q' m : (∀ a m', Q a m' → Q' a m') → wp b n t Q m → wp b n t Q' m.
Proof.
  intros HQ. revert t m. induction n as [|n IH]; intros t m; [done|]. intros Hwp m' HW HR.
  destruct (Hwp m' HW HR) as [HI H2]. split; [done|]. destruct (observe t) as [a|t'|X e k]; [by apply HQ | by apply IH|].
  destruct e; try done. destruct H2 as [HG H2]. split; [done|]. intros o x m'' Hh HW'. apply IH. exact (H2 o x m'' Hh HW').
Qed.

Lemma wp_down n {A} (t : prog A) Q m : wp false (S n) t Q m → wp false n t Q m.
Proof.
  revert t m. induction n as [|n IH]; intros t m; [done|]. intros Hwp m' HW HR.
  destruct (Hwp m' HW HR) as [HI H2]. split; [done|]. destruct (observe t) as [a|t'|X e k]; [done | by apply IH|].
  destruct e; try done. destruct H2 as [HG H2]. split; [done|]. intros o x m'' Hh HW'. apply IH. exact (H2 o x m'' Hh HW').
Qed.

Lemma observe_bind {A B} (t : prog A) (k : A → prog B) : observe (ITree.bind t k) =
  match observe t with
  | RetF a => observe (k a)
  | TauF t => TauF (ITree.bind t k)
  | VisF e h => VisF e (λ x, ITree.bind (h x) k)
  end.
Proof. unfold ITree.bind, ITree.subst, observe. cbn. by destruct (_observe t). Qed.

(** More steps are no harm to a total one. *)
Lemma wp_up n n' {A} (t : prog A) Q m : (n ≤ n')%nat → wp true n t Q m → wp true n' t Q m.
Proof.
  revert n' t m. induction n as [|n IH]; intros n' t m; [done|]. destruct n' as [|n']; [lia|]. intros Hle Hwp m' HW HR.
  destruct (Hwp m' HW HR) as [HI H2]. split; [done|]. destruct (observe t) as [a|t'|X e k]; [done | by apply IH; [lia|]|].
  destruct e; try done. destruct H2 as [HG H2]. split; [done|]. intros o x m'' Hh HW'. apply IH; [lia|]. exact (H2 o x m'' Hh HW').
Qed.

(** What returns, returns rightly. *)
Lemma wp_total_partial n n' {A} (t : prog A) Q m : wp true n t Q m → wp false n' t Q m.
Proof.
  revert n t m. induction n' as [|n' IH]; intros n t m; [done|]. destruct n as [|n]; [done|]. intros Hwp m' HW HR.
  destruct (Hwp m' HW HR) as [HI H2]. split; [done|]. destruct (observe t) as [a|t'|X e k]; [done | exact (IH n t' m' H2)|].
  destruct e; try done. destruct H2 as [HG H2]. split; [done|]. intros o x m'' Hh HW'. exact (IH n (k x) m'' (H2 o x m'' Hh HW')).
Qed.

Lemma prog_bind n {A B} (t : prog A) (k : A → prog B) Q m :
  wp false n t (λ a m, wp false n (k a) Q m) m → wp false n (mbind k t) Q m.
Proof.
  unfold mbind, itree_bind. revert t m. induction n as [|n IH]; intros t m; [done|]. intros Hwp m' HW HR.
  destruct (Hwp m' HW HR) as [HI H2]. rewrite observe_bind. destruct (observe t) as [a|t'|X e h].
  - exact (H2 m' HW (R_refl _)).
  - split; [done|]. apply IH. eapply prog_mono; [|exact H2]. intros a m2. apply wp_down.
  - split; [done|]. destruct e; try done. destruct H2 as [HG H2]. split; [done|]. intros o x m'' Hh HW'. apply IH.
    eapply prog_mono; [|exact (H2 o x m'' Hh HW')]. intros a m2. apply wp_down.
Qed.

Lemma prog_bind_total n n' {A B} (t : prog A) (k : A → prog B) Q m :
  wp true n t (λ a m, wp true n' (k a) Q m) m → wp true (n + n') (mbind k t) Q m.
Proof.
  unfold mbind, itree_bind. revert t m. induction n as [|n IH]; intros t m; [done|]. intros Hwp m' HW HR.
  destruct (Hwp m' HW HR) as [HI H2]. cbn [Nat.add]. rewrite observe_bind. destruct (observe t) as [a|t'|X e h].
  - assert (wp true (S (n + n')) (k a) Q m') as Hk by (eapply wp_up; [|exact H2]; lia). exact (Hk m' HW (R_refl _)).
  - split; [done|]. by apply IH.
  - split; [done|]. destruct e; try done. destruct H2 as [HG H2]. split; [done|]. intros o x m'' Hh HW'. apply IH. exact (H2 o x m'' Hh HW').
Qed.

Lemma prog_ret b n {A} (a : A) Q m : (∀ m', W m' → R m m' → I m' ∧ Q a m') → wp b (S n) (mret a) Q m.
Proof. intros HQ m' HW HR. exact (HQ m' HW HR). Qed.

Lemma wp_tau b n {A} (t : prog A) Q m : (∀ m', W m' → R m m' → I m' ∧ wp b n t Q m') → wp b (S n) (Tau t) Q m.
Proof. intros Ht m' HW HR. exact (Ht m' HW HR). Qed.

Lemma prog_panic b n {A} (k : Empty_set → prog A) Q m : (∀ m', W m' → R m m' → I m') → wp b (S n) (ITree.trigger GoPanic ≫= k) Q m.
Proof. intros HI m' HW HR. split; [by apply HI | done]. Qed.

(** A call and what follows it *)
Lemma prog_call b n {A B} (e : sysE A) (k : A → prog B) Q m :
  (∀ m', W m' → R m m' → I m' ∧ G _ e m' ∧ ∀ o x m'', handle o p e m' = Some (x, m'') → W m'' → wp b n (k x) Q m'') →
  wp b (S n) (sys e ≫= k) Q m.
Proof.
  intros He m' HW HR. destruct (He m' HW HR) as (HI & HG & Hk). split; [done|]. cbn. split; [done|].
  intros o x m'' Hh HW'. eapply wp_observe; [|exact (Hk o x m'' Hh HW')]. exact (eq_sym (observe_bind (Ret x) k)).
Qed.

(** A loop, with an invariant *)
Lemma wp_iter n {A B} (body : A → prog (A + B)) (J : A → machine → Prop) Q :
  (∀ n i m, J i m → wp false n (body i) (λ r m', match r with inl i => J i m' | inr x => Q x m' end) m) →
  (∀ m' m'' i, J i m' → W m'' → R m' m'' → I m'') → (∀ m' m'' x, Q x m' → W m'' → R m' m'' → I m'' ∧ Q x m'') →
  ∀ i m, J i m → wp false n (ITree.iter body i) Q m.
Proof.
  intros Hbody HJI HQ. induction n as [|n IH]; intros i m HJ; [done|].
  apply (wp_observe _ _ (mbind (λ lr, match lr with inl l => Tau (ITree.iter body l) | inr x => Ret x end) (body i))); [done|].
  apply prog_bind. eapply prog_mono; [|by apply Hbody]. intros [j|x] m' Hj.
  - intros m'' HW HR. split; [by eapply HJI|]. cbn. eapply wp_rely; [by apply IH | done].
  - intros m'' HW HR. by eapply HQ.
Qed.
End Wp.

(** ** Systems of such processes *)

Section Adequacy.
Context (W : machine → Prop) (R : pid → machine → machine → Prop) (G : pid → ∀ A, sysE A → machine → Prop) (I : pid → machine → Prop).

(** What makes a choice of the four sound: nothing another process or the world does is against [R] *)
Record fits : Prop := {
  fit_refl : ∀ p m, R p m m;
  fit_trans : ∀ p m1 m2 m3, R p m1 m2 → R p m2 m3 → R p m1 m3;
  fit_world : ∀ o p A (e : sysE A) x m m', W m → G p A e m → handle o p e m = Some (x, m') → W m';
  fit_others : ∀ o p q A (e : sysE A) x m m', p ≠ q → W m → G q A e m → handle o q e m = Some (x, m') → R p m m';
  fit_tick : ∀ p d m, W m → W (with_now m (m_now m + Z.of_N d)) ∧ R p m (with_now m (m_now m + Z.of_N d));
  fit_cancel : ∀ p q c b m, W m → W (cancel m q c b) ∧ R p m (cancel m q c b);
  fit_die : ∀ p h s, W (sys_m s) → W (sys_m (die p h s)) ∧ ∀ q, q ≠ p → R q (sys_m s) (sys_m (die p h s))
}.

Definition runs_well (p : pid) (m : machine) (t : prog unit) : Prop := ∀ n, wp p W (R p) (G p) (I p) false n t (λ _ _, True) m.

Record sys_ok (s : system) : Prop := {
  ok_world : W (sys_m s);
  ok_threads : ∀ tid th, sys_threads s !! tid = Some th → th_pid th = tid ∧ th_main th = true ∧ runs_well tid (sys_m s) (th_code th)
}.

Context (Hfit : fits).

Lemma runs_well_rely p m m' t : R p m m' → runs_well p m t → runs_well p m' t.
Proof. intros HR Hw n. eapply wp_rely; [exact (fit_trans Hfit p) | by apply Hw | done]. Qed.

(** Another process takes a step. *)
Lemma threads_ok_others s p (m : machine) (ths : gmap N thread) :
  sys_ok s → (∀ q, q ≠ p → R q (sys_m s) m) → W m → (∀ tid, tid ≠ p → ths !! tid = sys_threads s !! tid) →
  (∀ th, ths !! p = Some th → th_pid th = p ∧ th_main th = true ∧ runs_well p m (th_code th)) → sys_ok (System m ths).
Proof.
  intros Hok HR HW Hths Hp. split; [done|]. cbn. intros tid th Hth. destruct (decide (tid = p)) as [->|Hne]; [by apply Hp|].
  rewrite (Hths tid Hne) in Hth. destruct (ok_threads s Hok tid th Hth) as (E1 & E2 & Hw).
  split_and!; [done | done|]. eapply runs_well_rely, Hw. by apply HR.
Qed.

Lemma sys_ok_die s p h : sys_ok s → sys_ok (die p h s).
Proof.
  intros Hok. destruct (fit_die Hfit p h s (ok_world s Hok)) as [HW HR]. split; [done|].
  intros tid th [Hth Hne]%map_lookup_filter_Some. cbn in Hne. destruct (ok_threads s Hok tid th Hth) as (E1 & E2 & Hw).
  split_and!; [done | done|]. eapply runs_well_rely, Hw. apply HR. congruence.
Qed.

(** A thread that goes on with [c] *)
Lemma sys_ok_set s tid th m c : sys_ok s → sys_threads s !! tid = Some th → (∀ q, q ≠ tid → R q (sys_m s) m) → W m → runs_well tid m c →
  sys_ok (set_code s tid th m c).
Proof.
  intros Hok Hth HR HW Hc. destruct (ok_threads s Hok tid th Hth) as (E1 & E2 & _). eapply threads_ok_others; [done | exact HR | done | |].
  - intros j Hj. by rewrite lookup_insert_ne.
  - intros th'. rewrite lookup_insert_eq. intros [= <-]. done.
Qed.

Lemma sys_ok_run_thread o s tid th s' : sys_ok s → sys_threads s !! tid = Some th → step_thread o tid th s = Some s' → sys_ok s'.
Proof.
  intros Hok Hth Hs. destruct (ok_threads s Hok tid th Hth) as (E1 & E2 & Hw). pose proof (ok_world s Hok) as HW. unfold step_thread in Hs.
  assert (∀ n, _) as Hw' by exact (λ n, Hw (S n) (sys_m s) HW (fit_refl Hfit _ _)). clear Hw.
  destruct (observe (th_code th)) as [a|t|X e k].
  - injection Hs as <-. rewrite E2. by apply sys_ok_die.
  - injection Hs as <-. apply sys_ok_set; [done | done | intros; apply (fit_refl Hfit) | done|]. exact (λ n, proj2 (Hw' n)).
  - destruct e as [A e| | |]; [| destruct (Hw' O) as [_ []].. | injection Hs as <-; by apply sys_ok_die].
    destruct (handle o (th_pid th) e (sys_m s)) as [[a m]|] eqn:Eh; [|done]. injection Hs as <-. rewrite E1 in Eh.
    pose proof (proj1 (proj2 (Hw' O))) as HG. pose proof (fit_world Hfit _ _ _ _ _ _ _ HW HG Eh) as HW'.
    apply sys_ok_set; [done | done | intros q Hq; by eapply (fit_others Hfit) | done|]. intros n. by apply (proj2 (proj2 (Hw' n)) o).
Qed.

Lemma sys_ok_step l s s' : sys_ok s → sys_step l s = Some s' → sys_ok s'.
Proof.
  intros Hok Hs. pose proof (ok_world s Hok) as HW. destruct l as [tid o|d|p c b|p]; cbn in Hs.
  - destruct (sys_threads s !! tid) as [th|] eqn:Hth; [|done]. by eapply sys_ok_run_thread.
  - injection Hs as <-. split; [by apply (fit_tick Hfit 0%N)|]. intros tid th Hth. destruct (ok_threads s Hok tid th Hth) as (E1 & E2 & Hw).
    split_and!; [done | done|]. eapply runs_well_rely, Hw. by apply (fit_tick Hfit).
  - injection Hs as <-. split; [by apply (fit_cancel Hfit 0%N)|]. intros tid th Hth. destruct (ok_threads s Hok tid th Hth) as (E1 & E2 & Hw).
    split_and!; [done | done|]. eapply runs_well_rely, Hw. by apply (fit_cancel Hfit).
  - injection Hs as <-. by apply sys_ok_die.
Qed.

Lemma sys_ok_steps ls s s' : sys_ok s → sys_run ls s = Some s' → sys_ok s'.
Proof.
  revert s. induction ls as [|l ls IH]; intros s Hok; cbn; [by intros [= <-]|].
  destruct (sys_step l s) as [s1|] eqn:E; [|done]. apply IH. by eapply sys_ok_step.
Qed.

Lemma sys_ok_boot m ps : W m → (∀ p t, (p, t) ∈ ps → runs_well p m t) → sys_ok (boot m ps).
Proof.
  intros HW Hps. split; [done|]. intros tid th Hth%elem_of_list_to_map_2. apply list_elem_of_fmap in Hth as ([p t] & [= -> ->] & Hin).
  split_and!; [done | done | by apply Hps].
Qed.

Lemma sys_ok_I s tid th : sys_ok s → sys_threads s !! tid = Some th → I tid (sys_m s).
Proof. intros Hok Hth. destruct (ok_threads s Hok tid th Hth) as (_ & _ & Hw). exact (proj1 (Hw 1%nat _ (ok_world s Hok) (fit_refl Hfit _ _))). Qed.
End Adequacy.
End Host.
