(* ===== verification/FsLocker.v ===== *)
(** * FsLocker: locks on paths, held by processes

    Models [fslocker/fslocker.go].  A lock on a path is a [flock] on the directory of that name, which
    is made if need be; [.pendingwork] is locked shared while that happens and exclusively while
    a path is removed, so that nobody locks a directory that is not there any more.

    A [Lock] is a struct that others can share: [ToExclusiveLock] and [ToSharedLock] return the struct they are given,
    and [Unlock] sets its file to nil.  So locks are references here, into the store of the process. *)
From ITree Require Import ITree.
From S2P Require Import Prelude Errors Host.

Open Scope string_scope.
Open Scope Z_scope.
Open Scope list_scope.

Record FSLocker := MkFSLocker { pendingWorkPath : path; locker_path : path }.

Definition millisecond : Z := 1000000.
Definition second : Z := 1000 * millisecond.

Section Locker.
Context `{World}.

(** [panic] *)
Definition go_panic {A} : prog A := ITree.trigger GoPanic ≫= λ e : Empty_set, match e with end.

(** The end of a goroutine that was started by [go func] *)
Definition goexit {A} : prog A := ITree.trigger Goexit ≫= λ e : Empty_set, match e with end.

(** [unix.Flock] with [LOCK_SH] or [LOCK_EX], and [LOCK_NB] or not *)
Definition Flock (f : file) (how : lock_mode) (nb : bool) : prog (option error) :=
  e ← sys (FlockDrop f how);
  match e with Some e => mret (Some e) | None => sys (FlockTake f how nb) end.

Definition Sleep (d : Z) : prog unit := t ← sys Now; sys (WaitUntil (t + d)).

(** A nil [*os.File]: no file has this number. *)
Definition nil_file : file := 0%N.

Definition or_panic (e : option error) : prog unit := match e with Some _ => go_panic | None => mret tt end.

Definition shouldClose (f : file) : prog unit := e ← sys (Close f); or_panic e.

Definition shouldUnlock (f : file) : prog unit := e ← sys (FlockUn f); or_panic e.

(** [Lock.Unlock] *)
Definition Unlock (l : ref) : prog unit :=
  file ← sys (LoadLock l);
  match file with
  | None => mret tt
  | Some f =>
      e ← sys (FlockUn f);
      _ ← or_panic e;
      _ ← shouldClose f;
      sys (ClearLock l)
  end.

(** [Lock.Bump]; [unix.NsecToTimeval] rounds to microseconds. *)
Definition Bump (l : ref) : prog unit :=
  now ← sys Now;
  file ← sys (LoadLock l);
  e ← sys (Futimes (default nil_file file) (now / 1000 * 1000));
  or_panic e.

(** What [lockHelper] does until the timeout: an attempt every 100 milliseconds *)
Definition try_lock (c : ctx) (fd : file) (how : lock_mode) (timeout start : Z) (firstLoop : bool) : prog (bool + option error) :=
  now ← sys Now;
  if (now - start <? timeout) || firstLoop then
    done ← sys (CtxErr c);
    match done with
    | Some e => mret (inr (Some e))
    | None =>
        err ← Flock fd how true;
        match err with
        | Some (EErrno EWOULDBLOCK) => _ ← Sleep (100 * millisecond); mret (inl false)
        | Some e => mret (inr (Some e))
        | None => mret (inr None)
        end
    end
  else mret (inr (Some (EErrno ETIMEDOUT))).

(** Without a timeout a goroutine waits for the lock; when the context is done first, another waits
    for that one, and releases the lock. *)
Definition lock_forever (c : ctx) (fd : file) (how : lock_mode) : prog (option error) :=
  locked ← sys MakeChan;
  child ← ITree.trigger Fork;
  if child : bool then
    err ← Flock fd how false;
    _ ← sys (Send locked err);
    goexit
  else
    r ← sys (SelectDone c locked);
    match r with
    | inl e =>
        child ← ITree.trigger Fork;
        if child : bool then
          _ ← sys (Recv locked);
          _ ← sys (FlockUn fd);
          _ ← shouldClose fd;
          goexit
        else mret (Some e)
    | inr err => mret err
    end.

Definition lockHelper (c : ctx) (fd : file) (how : lock_mode) (timeout : option Z) : prog (option error) :=
  match timeout with
  | None => lock_forever c fd how
  | Some timeout =>
      if timeout =? 0 then Flock fd how true
      else
        start ← sys Now;
        ITree.iter (try_lock c fd how timeout start) true
  end.

(** [os.MkdirAll] of the first [n] components of a path *)
Fixpoint MkdirAll (n : nat) (p : path) : prog (option error) :=
  let q := take n p in
  st ← sys (Stat q);
  match st with
  | inr true => mret None
  | inr false => mret (Some (EErrno ENOTDIR))
  | inl _ =>
      e ← match n with O => mret None | S n => MkdirAll n p end;
      match e with
      | Some e => mret (Some e)
      | None =>
          e ← sys (Mkdir q);
          match e with
          | None => mret None
          | Some e => st ← sys (Stat q); match st with inr true => mret None | _ => mret (Some e) end
          end
      end
  end.

(** The [i] attempts that are left of [mkdirLockDir]; [err] is the error of the last one. *)
Fixpoint mkdir_attempts (i : nat) (err : error) (lockPath : path) : prog (error + file) :=
  match i with
  | O => mret (inl err)
  | S i =>
      e ← MkdirAll (length lockPath) lockPath;
      match e with
      | None => sys (OpenFile lockPath false)
      | Some e =>
          r ← sys (Intn 100);
          _ ← Sleep (millisecond * r);
          mkdir_attempts i e lockPath
      end
  end.

Definition mkdirLockDir (locker : FSLocker) (path : path) : prog (error + file) :=
  mkdir_attempts 10 (EString "") (Join (locker_path locker) path).

(** [err == ctx.Err()] for an error of [lockHelper]; the errors of contexts are two values. *)
Definition is_ctx_err (e : error) (done : option error) : bool :=
  match e, done with ECtx a, Some (ECtx b) => Bool.eqb a b | _, _ => false end.

(** The deferred calls of [doLock] and [RemovePath] *)
Definition release_pending {A} (pendingWorkFile : file) (r : A) : prog A :=
  _ ← shouldUnlock pendingWorkFile;
  _ ← shouldClose pendingWorkFile;
  mret r.

Definition doLock (locker : FSLocker) (c : ctx) (how : lock_mode) (path : path) (timeout : option Z) : prog (error + ref) :=
  opened ← sys (OpenFile (pendingWorkPath locker) true);
  match opened with
  | inl e => mret (inl e)
  | inr pendingWorkFile =>
      e ← Flock pendingWorkFile LOCK_SH false;
      match e with
      | Some e => _ ← shouldClose pendingWorkFile; mret (inl e)
      | None =>
          made ← mkdirLockDir locker path;
          match made with
          | inl e => release_pending pendingWorkFile (inl e)
          | inr fd =>
              e ← lockHelper c fd how timeout;
              match e with
              | Some e =>
                  done ← sys (CtxErr c);
                  _ ← (if is_ctx_err e done then mret tt else shouldClose fd);
                  release_pending pendingWorkFile (inl e)
              | None =>
                  l ← sys (NewLock fd);
                  release_pending pendingWorkFile (inr l)
              end
          end
      end
  end.

Definition ExclusiveLock (locker : FSLocker) (c : ctx) (path : path) (timeout : option Z) : prog (error + ref) :=
  doLock locker c LOCK_EX path timeout.

Definition SharedLock (locker : FSLocker) (c : ctx) (path : path) (timeout : option Z) : prog (error + ref) :=
  doLock locker c LOCK_SH path timeout.

(** Both return the struct they convert. *)
Definition ToExclusiveLock (sl : ref) (c : ctx) (timeout : option Z) : prog (error + ref) :=
  file ← sys (LoadLock sl);
  e ← lockHelper c (default nil_file file) LOCK_EX timeout;
  match e with Some e => mret (inl e) | None => mret (inr sl) end.

Definition ToSharedLock (el : ref) : prog ref :=
  file ← sys (LoadLock el);
  e ← Flock (default nil_file file) LOCK_SH false;
  _ ← or_panic e;
  mret el.

Definition NewFSLocker (path : path) : prog (error + FSLocker) :=
  let existing (e : option error) := match e with Some (EErrno EEXIST) => None | _ => e end in
  e ← sys (Mkdir path);
  match existing e with
  | Some e => mret (inl e)
  | None =>
      let lockPath := Join path ["lockDir"] in
      e ← sys (Mkdir lockPath);
      match existing e with
      | Some e => mret (inl e)
      | None => mret (inr (MkFSLocker (Join path [".pendingwork"]) lockPath))
      end
  end.

Definition RemovePath (locker : FSLocker) (path : path) : prog (option error) :=
  opened ← sys (OpenFile (pendingWorkPath locker) true);
  match opened with
  | inl e => mret (Some e)
  | inr pendingWorkFile =>
      e ← Flock pendingWorkFile LOCK_EX false;
      match e with
      | Some e => _ ← shouldClose pendingWorkFile; mret (Some e)
      | None =>
          e ← sys (Remove (Join (locker_path locker) path));
          release_pending pendingWorkFile e
      end
  end.

(** A record is a name and its time. *)
Definition ListFiles (locker : FSLocker) (path : path) : prog (error + list (string * Z)) :=
  files ← sys (ReadDir (Join (locker_path locker) path));
  match files with
  | inl (EErrno ENOENT) => mret (inr [])
  | inl e => mret (inl e)
  | inr files => mret (inr files)
  end.
End Locker.

(** * What the locker promises *)

Section Spec.
Context `{World} (locker : FSLocker) (rm : bool).

Abbreviation pending := (pendingWorkPath locker).

(** ** The machine *)

(** What is in use has a number below [m_next], and a file with an exclusive lock has no other. *)
Record world (m : machine) : Prop := {
  w_files : ∀ k x, m_files m !! k = Some x → (k.2 < m_next m ∧ of_ino x < m_next m)%N;
  w_locks : ∀ k v, m_locks m !! k = Some v → (k.2 < m_next m)%N;
  w_names : ∀ q i, m_names m !! q = Some i → (i < m_next m)%N;
  w_excl : ∀ k1 k2 x1 x2, m_files m !! k1 = Some x1 → m_files m !! k2 = Some x2 → k1 ≠ k2 → of_ino x1 = of_ino x2 →
    of_lock x1 = Some LOCK_EX → of_lock x2 = None
}.

Definition trace_of (p : pid) (m : machine) : list (pid * happening) := filter (λ e, e.1 = p) (m_trace m).

(** No name is lost. *)
Definition names_kept (m m' : machine) : Prop := ∀ q i, m_names m !! q = Some i → m_names m' !! q = Some i.

(** The process has a lock on [.pendingwork], of a mode in [modes]. *)
Definition has_pending (p : pid) (modes : list lock_mode) (m : machine) : Prop :=
  ∃ f x how, m_files m !! (p, f) = Some x ∧ m_names m !! pending = Some (of_ino x) ∧ of_lock x = Some how ∧ how ∈ modes.

Abbreviation holds_pending p := (has_pending p [LOCK_SH; LOCK_EX]).

(** From [m] to [m'], of the objects of process [p] only those in [S] changed. *)
Record moves (p : pid) (S : N → Prop) (m m' : machine) : Prop := {
  mv_files : ∀ f : file, ¬ S f → m_files m' !! (p, f) = m_files m !! (p, f);
  mv_locks : ∀ r : ref, ¬ S r → m_locks m' !! (p, r) = m_locks m !! (p, r);
  mv_trace : trace_of p m' = trace_of p m;
  mv_now : m_now m <= m_now m';
  mv_next : (m_next m ≤ m_next m')%N;
  mv_pending : ∀ i, m_names m !! pending = Some i → m_names m' !! pending = Some i;
  mv_names : rm = false → names_kept m m'
}.

(** What others do while a process waits.  They remove no name when it has a lock on [.pendingwork]. *)
Definition others (p : pid) (m m' : machine) : Prop :=
  moves p (λ _, False) m m' ∧ (holds_pending p m → names_kept m m').

(** What a process promises: a name is only removed with an exclusive lock on [.pendingwork], if at all; a lock that is
    asked for is on the file that has the name, and where names are removed, it is that of [.pendingwork] or asked for while
    the process has that. *)
Definition promises (p : pid) (A : Type) (e : sysE A) (m : machine) : Prop :=
  match e with
  | Remove q => rm = true ∧ q ≠ pending ∧ has_pending p [LOCK_EX] m
  | FlockTake f how nb => ∀ x, m_files m !! (p, f) = Some x →
      m_names m !! of_path x = Some (of_ino x) ∧ (rm = true → of_path x = pending ∨ holds_pending p m)
  | _ => True
  end.

Lemma names_kept_refl m : names_kept m m.
Proof. by intros q i. Qed.

Lemma names_kept_trans m1 m2 m3 : names_kept m1 m2 → names_kept m2 m3 → names_kept m1 m3.
Proof. intros H1 H2 q i Hq. by apply H2, H1. Qed.

Lemma moves_refl p S m : moves p S m m.
Proof. split; first [done | lia | intros; apply names_kept_refl]. Qed.

Lemma moves_trans p S m1 m2 m3 : moves p S m1 m2 → moves p S m2 m3 → moves p S m1 m3.
Proof.
  intros [F1 L1 T1 N1 X1 P1 K1] [F2 L2 T2 N2 X2 P2 K2]. split.
  - intros f Hf. by rewrite F2, F1.
  - intros r Hr. by rewrite L2, L1.
  - by rewrite T2.
  - lia.
  - lia.
  - intros i Hi. by apply P2, P1.
  - intros E. eapply names_kept_trans; [by apply K1 | by apply K2].
Qed.

Lemma moves_weaken p (S S' : N → Prop) m m' : (∀ s, S s → S' s) → moves p S m m' → moves p S' m m'.
Proof. intros HS [F L T N X P K]. split; auto. Qed.

Lemma has_pending_moves p modes m m' : moves p (λ _, False) m m' → has_pending p modes m → has_pending p modes m'.
Proof.
  intros Hm (f & x & how & Hf & Hp & Hl & Hin). exists f, x, how. rewrite (mv_files _ _ _ _ Hm) by tauto.
  split_and!; [done | by apply (mv_pending _ _ _ _ Hm) | done | done].
Qed.

Lemma others_refl p m : others p m m.
Proof. split; [apply moves_refl | intros _; apply names_kept_refl]. Qed.

Lemma others_trans p m1 m2 m3 : others p m1 m2 → others p m2 m3 → others p m1 m3.
Proof.
  intros [H1 K1] [H2 K2]. split; [by eapply moves_trans|]. intros Hp. eapply names_kept_trans; [by apply K1|].
  apply K2. by eapply has_pending_moves.
Qed.

(** ** The effect of calls *)

(** No call but a removal loses a name. *)
Definition removes {A} (e : sysE A) : bool := match e with Remove _ => true | _ => false end.

Lemma create_fresh m q dir : world m → m_names m !! q = None → names_kept m (create m q dir).
Proof. intros HW Hq q' i Hi. unfold create. cbn. rewrite lookup_insert_ne; [done | congruence]. Qed.

Ltac calls := repeat first [progress simplify_eq/= | case_match | progress unfold on_file, flock_take, flock_drop in * | progress unfold mbind, option_bind in *].

Lemma handle_names o p A (e : sysE A) x m m' : world m → handle o p e m = Some (x, m') → removes e = false → names_kept m m'.
Proof.
  intros HW Hh Hr. destruct e; cbn in Hh; try done; try (calls; by intros ??).
  - injection Hh as Hh. unfold handle_open, open_as in *. destruct (o_fault o); [simplify_eq/=; by intros ??|].
    destruct (m_names m !! p0) eqn:Eq; [simplify_eq/=; by intros ??|].
    destruct (creat && is_dir m (parent p0) && bool_decide (p0 ≠ [])); simplify_eq/=; [|by intros ??]. by apply (create_fresh m p0 false).
  - injection Hh as Hh. unfold handle_mkdir in *. destruct (o_fault o); [simplify_eq/=; by intros ??|].
    destruct (m_names m !! p0) eqn:Eq; [simplify_eq/=; by intros ??|].
    destruct (is_dir m (parent p0) && bool_decide (p0 ≠ [])); simplify_eq/=; [|by intros ??]. by apply (create_fresh m p0 true).
Qed.

Lemma world_create m q dir : world m → m_names m !! q = None → world (create m q dir).
Proof.
  intros [F L N X] Hq. split; cbn.
  - intros k x Hk. destruct (F k x Hk). lia.
  - intros k v Hk. pose proof (L k v Hk). lia.
  - intros q' i [[<- <-]|[_ Hi]]%lookup_insert_Some; [lia|]. pose proof (N q' i Hi). lia.
  - exact X.
Qed.

Lemma world_open m p i q : world m → (i < m_next m)%N → world (open_as m p i q).2.
Proof.
  intros [F L N X] Hi. split; cbn.
  - intros k x [[<- <-]|[_ Hk]]%lookup_insert_Some; [cbn; lia|]. destruct (F k x Hk). lia.
  - intros k v Hk. pose proof (L k v Hk). lia.
  - intros q' j Hj. pose proof (N q' j Hj). lia.
  - intros k1 k2 x1 x2 [[<- <-]|[_ H1]]%lookup_insert_Some [[<- <-]|[_ H2]]%lookup_insert_Some; try done. by apply X.
Qed.

Lemma obstructed_false m k ino how k' x held : obstructed m k ino how = false → m_files m !! k' = Some x → k' ≠ k → of_ino x = ino →
  of_lock x = Some held → conflicts held how = false.
Proof.
  intros Ho Hk Hne Hi Hl. apply not_true_iff_false. intros Hc. apply not_true_iff_false in Ho. apply Ho. unfold obstructed.
  apply existsb_exists. exists (k', x). split; [by apply list_elem_of_In, elem_of_map_to_list|]. unfold obstructs. cbn.
  rewrite bool_decide_false, bool_decide_true, Hl by done. done.
Qed.

Lemma world_set_lock m k x l : world m → m_files m !! k = Some x →
  match l with Some how => obstructed m k (of_ino x) how = false | None => True end → world (set_lock m k x l).
Proof.
  intros [F L N X] Hk Hl. split; cbn; [|done|done|].
  - intros k' x' [[<- <-]|[_ Hk']]%lookup_insert_Some; [exact (F k x Hk) | by apply F].
  - intros k1 k2 x1 x2 [[<- <-]|[N1 H1]]%lookup_insert_Some [[<- <-]|[N2 H2]]%lookup_insert_Some; cbn; try done.
    + intros _ E ->. destruct (of_lock x2) as [held|] eqn:E2; [|done].
      pose proof (obstructed_false _ _ _ _ _ _ _ Hl H2 (not_eq_sym N2) (eq_sym E) E2) as Hc. by destruct held.
    + intros _ E E1. destruct l as [how|]; [|done]. pose proof (obstructed_false _ _ _ _ _ _ _ Hl H1 (not_eq_sym N1) E E1) as Hc. done.
    + by apply X.
Qed.

Lemma world_close m k : world m → world (with_files m (delete k (m_files m))).
Proof.
  intros [F L N X]. split; cbn; [|done|done|].
  - intros k' x [_ Hk']%lookup_delete_Some. by apply F.
  - intros k1 k2 x1 x2 [_ H1]%lookup_delete_Some [_ H2]%lookup_delete_Some. by apply X.
Qed.

(** The fields that matter to [world] are the same, up to new numbers. *)
Lemma world_same m m' : world m → m_files m' = m_files m → m_locks m' = m_locks m → m_names m' = m_names m → (m_next m ≤ m_next m')%N → world m'.
Proof.
  intros [F L N X] E1 E2 E3 Hn. split; rewrite ?E1, ?E2, ?E3.
  - intros k x Hk. destruct (F k x Hk). lia.
  - intros k v Hk. pose proof (L k v Hk). lia.
  - intros q i Hq. pose proof (N q i Hq). lia.
  - exact X.
Qed.

Lemma world_locks m k v : world m → (k.2 < m_next m)%N → world (with_locks m (<[k := v]> (m_locks m))).
Proof.
  intros [F L N X] Hk. split; cbn; try done. intros k' v' [[<- <-]|[_ H']]%lookup_insert_Some; [done | by eapply L].
Qed.

Lemma world_clear m k : world m → world (with_locks m (alter (λ _, None) k (m_locks m))).
Proof. intros [F L N X]. split; cbn; try done. intros k' v' [(_ & v & Hv & _)|[_ Hv]]%lookup_alter_Some; by eapply L. Qed.

Lemma world_remove m q : world m → world (with_names m (delete q (m_names m)) (m_inodes m)).
Proof. intros [F L N X]. split; cbn; try done. intros q' i [_ Hq]%lookup_delete_Some. by eapply N. Qed.

Lemma handle_world o p A (e : sysE A) x m m' : world m → handle o p e m = Some (x, m') → world m'.
Proof.
  intros HW Hh. destruct e; cbn in Hh.
  - unfold handle_open in Hh. destruct (o_fault o); [by simplify_eq/=|]. destruct (m_names m !! p0) as [i|] eqn:Eq; simplify_eq/=.
    + apply (world_open m p i p0 HW). by eapply w_names.
    + destruct (creat && _ && _); simplify_eq/=; [|done].
      apply (world_open (create m p0 false) p (m_next m) p0); [by apply world_create | cbn; lia].
  - unfold handle_mkdir in Hh. destruct (o_fault o); [by simplify_eq/=|]. destruct (m_names m !! p0) as [i|] eqn:Eq; [by simplify_eq/=|].
    destruct (_ && _); simplify_eq/=; [by apply world_create | done].
  - by calls.
  - unfold handle_remove in Hh. destruct (o_fault o); [by simplify_eq/=|]. destruct (m_names m !! p0) as [i|] eqn:Eq; [|by simplify_eq/=].
    case_bool_decide; simplify_eq/=; [by apply world_remove | done].
  - by calls.
  - calls; try done. by apply world_set_lock.
  - calls; try done. by apply world_set_lock.
  - calls; try done. by apply world_set_lock.
  - calls; try done; by apply world_close.
  - calls; try done; by apply (world_same m).
  - by calls.
  - by calls.
  - by calls.
  - by calls.
  - calls. apply (world_same (with_locks (bump_next m) (<[(p, m_next m) := Some f]> (m_locks m)))); try done.
    apply (world_locks (bump_next m)); [apply (world_same m) | cbn]; try done; cbn; lia.
  - by calls.
  - calls. by apply world_clear.
  - calls. apply (world_same m); try done. cbn. lia.
  - calls. by apply (world_same m).
  - calls; by apply (world_same m).
  - calls; try done; by apply (world_same m).
  - calls. by apply (world_same m).
Qed.

(** The objects of the process that a call changes *)
Definition touches (m : machine) {A} (e : sysE A) (s : N) : Prop :=
  match e with
  | OpenFile _ _ | NewLock _ => (m_next m ≤ s)%N
  | FlockDrop f _ | FlockTake f _ _ | FlockUn f | Close f => s = f
  | ClearLock r => s = r
  | _ => False
  end.

Definition asks {A} (e : sysE A) : bool := match e with Ask _ => true | _ => false end.

Lemma trace_of_other p q h m : p ≠ q → trace_of q (with_trace m ((p, h) :: m_trace m)) = trace_of q m.
Proof. intros Hne. unfold trace_of. cbn [m_trace with_trace]. by rewrite filter_cons_False. Qed.

(** What a call of [p] changes, as seen by [q] *)
Lemma handle_moves o p q A (e : sysE A) x m m' : world m → promises p A e m → handle o p e m = Some (x, m') → (q = p → asks e = false) →
  moves q (λ s, q = p ∧ touches m e s) m m'.
Proof.
  intros HW HG Hh Ha.
  assert (removes e = false → names_kept m m') as Hk by (intros Hr; by eapply handle_names).
  destruct (removes e) eqn:Er.
  { destruct e; try done. cbn in Hh, HG. destruct HG as (Erm & Hne & _). unfold handle_remove in Hh.
    destruct (o_fault o); [simplify_eq/=; apply moves_refl|]. destruct (m_names m !! p0); [|simplify_eq/=; apply moves_refl].
    case_bool_decide; simplify_eq/=; [|apply moves_refl]. split; cbn; try done; try lia; [|congruence]. intros i Hi. by rewrite lookup_delete_ne. }
  specialize (Hk eq_refl).
  assert (∀ i, m_names m !! pending = Some i → m_names m' !! pending = Some i) as Hp by (intros i; apply Hk).
  clear HG.
  assert (∀ (q' f f' : N), ¬ (q' = p ∧ f' = f) → (p, f) ≠ (q', f')) as Hpair by (intros q' f f' Hn [= -> ->]; by apply Hn).
  destruct e; cbn in Hh |- *.
  - unfold handle_open in Hh. destruct (o_fault o); [simplify_eq/=; apply moves_refl|].
    destruct (m_names m !! p0) as [i|] eqn:Eq; simplify_eq/=.
    + split; cbn; try done; try lia. intros f Hf. rewrite lookup_insert_ne; [done|]. apply Hpair. intros [-> ->]. apply Hf. split; [done|lia].
    + destruct (creat && _ && _); simplify_eq/=; [|apply moves_refl].
      split; cbn; try done; try lia. intros f Hf. rewrite lookup_insert_ne; [done|]. apply Hpair. intros [-> ->]. apply Hf. split; [done|lia].
  - unfold handle_mkdir in Hh. destruct (o_fault o); [simplify_eq/=; apply moves_refl|].
    destruct (m_names m !! p0) as [i|] eqn:Eq; [simplify_eq/=; apply moves_refl|].
    destruct (_ && _); simplify_eq/=; [|apply moves_refl]. split; cbn; try done; lia.
  - calls; apply moves_refl.
  - done.
  - calls; apply moves_refl.
  - calls; try apply moves_refl. split; cbn; try done; try lia. intros f' Hf. rewrite lookup_insert_ne; [done|]. by apply Hpair.
  - calls; try apply moves_refl. split; cbn; try done; try lia. intros f' Hf. rewrite lookup_insert_ne; [done|]. by apply Hpair.
  - calls; try apply moves_refl. split; cbn; try done; try lia. intros f' Hf. rewrite lookup_insert_ne; [done|]. by apply Hpair.
  - calls; try apply moves_refl; (split; cbn; try done; try lia); intros f' Hf; (rewrite lookup_delete_ne; [done|]); by apply Hpair.
  - calls; try apply moves_refl. split; cbn; done || lia.
  - calls; apply moves_refl.
  - calls; apply moves_refl.
  - calls; apply moves_refl.
  - calls; apply moves_refl.
  - calls. split; cbn; try done; try lia. intros f' Hf. rewrite lookup_insert_ne; [done|]. apply Hpair. intros [-> ->]. apply Hf. split; [done|lia].
  - calls; apply moves_refl.
  - calls. split; cbn; try done; try lia. intros f' Hf. rewrite lookup_alter_ne; [done|]. by apply Hpair.
  - calls. split; cbn; done || lia.
  - calls. split; cbn; done || lia.
  - calls; split; cbn; done || lia.
  - calls; try apply moves_refl; split; cbn; done || lia.
  - calls. split; cbn; try done; try lia. apply trace_of_other. intros ->. by specialize (Ha eq_refl).
Qed.

(** ** Processes among others *)

(** An exclusive lock on [.pendingwork] is the only one. *)
Lemma pending_exclusive p q m : world m → has_pending p [LOCK_EX] m → holds_pending q m → p = q.
Proof.
  intros HW (f & x & how & Hf & Hp & Hl & ->%list_elem_of_singleton) (f' & x' & how' & Hf' & Hp' & Hl' & _).
  destruct (decide (p = q)) as [|Hne]; [done|]. exfalso.
  assert (of_lock x' = None) as E; [|by rewrite E in Hl'].
  eapply (w_excl m HW (p, f) (q, f')); [done | done | congruence | congruence | done].
Qed.

Lemma moves_others p (S : N → Prop) m m' : (∀ s, ¬ S s) → moves p S m m' → names_kept m m' → others p m m'.
Proof. intros HS Hm Hk. split; [|done]. eapply moves_weaken; [|exact Hm]. intros s Hs. by apply (HS s). Qed.

Lemma handle_others o p q A (e : sysE A) x m m' : p ≠ q → world m → promises q A e m → handle o q e m = Some (x, m') → others p m m'.
Proof.
  intros Hne HW HG Hh. split.
  - eapply moves_weaken; [|eapply (handle_moves o q p); try done]. by intros s [-> _].
  - intros Hp. destruct (removes e) eqn:Er; [|by eapply handle_names]. destruct e; try done. destruct HG as (_ & _ & HG).
    by destruct Hne; symmetry; eapply pending_exclusive.
Qed.

Lemma others_same p m m' : (∀ f : file, m_files m' !! (p, f) = m_files m !! (p, f)) → m_locks m' = m_locks m → trace_of p m' = trace_of p m →
  m_now m <= m_now m' → m_next m' = m_next m → m_names m' = m_names m → others p m m'.
Proof.
  intros E1 E2 E3 Hn E4 E5. split; [split|]; unfold names_kept; rewrite ?E2, ?E3, ?E4, ?E5; try done; try lia.
Qed.

Lemma locker_fits : fits world others promises.
Proof.
  split.
  - apply others_refl.
  - apply others_trans.
  - intros o p A e x m m' HW _. by apply handle_world.
  - intros o p q A e x m m' Hne. by apply handle_others.
  - intros p d m HW. split; [by apply (world_same m)|]. apply others_same; cbn; done || lia.
  - intros p q c b m HW. unfold cancel. destruct (m_cancelled m !! (q, c)); [split; [done | apply others_refl]|].
    split; [by apply (world_same m)|]. apply others_same; cbn; done || lia.
  - intros p h s HW. unfold die. cbn. split.
    + destruct HW as [F L N X]. split; cbn; try done.
      * intros k x [Hk _]%map_lookup_filter_Some. by apply F.
      * intros k1 k2 x1 x2 [H1 _]%map_lookup_filter_Some [H2 _]%map_lookup_filter_Some. by apply X.
    + intros q Hne. apply others_same; cbn; try done; try lia; [|by apply (trace_of_other p q h (sys_m s)) ; congruence].
      intros f. destruct (m_files (sys_m s) !! (q, f)) as [x|] eqn:E.
      * by apply map_lookup_filter_Some.
      * apply map_lookup_filter_None. by left.
Qed.

Section Process.
Context (p : pid) (I : machine → Prop).

Abbreviation WP := (wp p world (others p) (promises p) I).

(** An assertion that survives what others do and what the process does to its objects in [S] *)
Record frame (S : N → Prop) (C : machine → Prop) : Prop := {
  fr_others : ∀ m1 m2, C m1 → others p m1 m2 → C m2;
  fr_own : ∀ m1 m2, C m1 → moves p S m1 m2 → names_kept m1 m2 → C m2;
  fr_I : ∀ m, C m → I m
}.

Lemma frame_weaken (S S' : N → Prop) C : (∀ s, S' s → S s) → frame S C → frame S' C.
Proof. intros HS [F1 F2 F3]. split; [done| |done]. intros m1 m2 HC Hm. apply (F2 m1 m2 HC). by eapply moves_weaken. Qed.

(** A call and what follows it: [S] has the objects the call changes. *)
Lemma wp_sys b n (S : N → Prop) C {A B} (e : sysE A) (k : A → prog B) Q m : frame S C → C m → removes e = false → asks e = false →
  (∀ m', world m' → C m' → others p m m' → promises p A e m' ∧ ∀ s, touches m' e s → S s) →
  (∀ o x m1 m2, world m1 → C m1 → others p m m1 → handle o p e m1 = Some (x, m2) → world m2 → C m2 →
     moves p (touches m1 e) m1 m2 → names_kept m1 m2 → WP b n (k x) Q m2) →
  WP b (Datatypes.S n) (sys e ≫= k) Q m.
Proof.
  intros [F1 F2 F3] HC Hr Ha HG Hk. apply prog_call. intros m1 HW1 HR1. pose proof (F1 _ _ HC HR1) as HC1.
  destruct (HG m1 HW1 HC1 HR1) as [HP HS]. split_and!; [by apply F3 | done|]. intros o x m2 Hh HW2.
  assert (moves p (touches m1 e) m1 m2) as Hm.
  { eapply moves_weaken; [|eapply (handle_moves o p p); done]. by intros s [_ Hs]. }
  pose proof (handle_names _ _ _ _ _ _ _ HW1 Hh Hr) as Hn. apply (Hk o x m1 m2 HW1 HC1 HR1 Hh HW2); [|done..]. eapply F2; [done | | done]. by eapply moves_weaken.
Qed.

(** A call that changes nothing of the process *)
Definition quiet {A} (e : sysE A) : bool :=
  match e with
  | Mkdir _ | Stat _ | ReadDir _ | Futimes _ _ | Now | WaitUntil _ | Intn _ | CtxErr _ | LoadLock _ => true
  | _ => false
  end.

Lemma wp_quiet b n C {A B} (e : sysE A) (k : A → prog B) Q m : frame (λ _, False) C → C m → quiet e = true →
  (∀ o x m1 m2, world m1 → C m1 → others p m m1 → handle o p e m1 = Some (x, m2) → C m2 → others p m m2 → WP b n (k x) Q m2) →
  WP b (Datatypes.S n) (sys e ≫= k) Q m.
Proof.
  intros HF HC Hq Hk. apply (wp_sys b n (λ _, False) C); try done; [by destruct e | by destruct e | intros m' _ _ _; destruct e; done || by split|].
  intros o x m1 m2 HW1 HC1 HR1 Hh HW2 HC2 Hm Hn. apply (Hk o x m1 m2 HW1 HC1 HR1 Hh HC2). eapply others_trans; [done|].
  eapply moves_others; [|exact Hm | done]. intros s Hs. by destruct e.
Qed.

Lemma frame_ret b n S C {A} (a : A) Q m : frame S C → C m → (∀ m', C m' → others p m m' → Q a m') → WP b (Datatypes.S n) (mret a) Q m.
Proof. intros HF HC HQ. apply prog_ret. intros m' _ HR. pose proof (fr_others _ _ HF _ _ HC HR). split; [by apply (fr_I _ _ HF) | by apply HQ]. Qed.

(** A call at the end of a program *)
Lemma sys_last b n {A} (e : sysE A) Q m : WP b n (sys e ≫= λ x, mret x) Q m → WP b n (sys e) Q m.
Proof.
  destruct n as [|n]; [done|]. intros Hwp m' HW HR. destruct (Hwp m' HW HR) as [HI Hk]. cbn in Hk |- *. split; [done|].
  destruct Hk as [HG Hk]. split; [done|]. intros o x m2 Hh HW2. eapply wp_observe; [|exact (Hk o x m2 Hh HW2)]. done.
Qed.

(** The file [f] of the process is open on inode [i], by the path [q], with lock [l]. *)
Definition has_file (f : file) (i : N) (l : option lock_mode) (q : path) (m : machine) : Prop :=
  m_files m !! (p, f) = Some (OFile i l q).

Lemma has_file_others f i l q m m' : others p m m' → has_file f i l q m → has_file f i l q m'.
Proof. intros [Hm _] Hf. unfold has_file. by rewrite (mv_files _ _ _ _ Hm f id). Qed.

(** When the lock of [f] may be asked for *)
Definition lockable (C : machine → Prop) (i : N) (q : path) : Prop := ∀ m, C m →
  m_names m !! q = Some i ∧ (rm = true → q = pending ∨ holds_pending p m).

(** What the lock is after an attempt: one that does not succeed has lost the lock of another mode it was to replace. *)
Definition flock_result (how : lock_mode) (r : option error) (l : option lock_mode) : Prop :=
  match r with
  | None => l = Some how
  | Some (EErrno EWOULDBLOCK) => l = None
  | Some (EErrno (EOther _)) => True
  | _ => False
  end.

Lemma Flock_spec C f how nb i l q m : frame (eq f) C → lockable C i q → C m → has_file f i l q m →
  WP true 3 (Flock f how nb) (λ r m', C m' ∧ m_now m <= m_now m' ∧ ∃ l', has_file f i l' q m' ∧ flock_result how r l') m.
Proof.
  intros HF Hl HC Hf. unfold Flock. apply (wp_sys _ _ (eq f) C); [done | done | done | done | by split; [|intros s ->]|].
  intros o e m1 m2 HW1 HC1 HR1 Hh HW2 HC2 Hm _. pose proof (has_file_others _ _ _ _ _ _ HR1 Hf) as Hf1.
  pose proof (mv_now _ _ _ _ (proj1 HR1)) as Hn1. pose proof (mv_now _ _ _ _ Hm) as Hn2. cbn in Hh. unfold on_file in Hh. rewrite Hf1 in Hh.
  assert (∃ l', has_file f i l' q m2 ∧ match e with Some e => ∃ n, e = errno_of n | None => l' = None ∨ l' = Some how end) as (l2 & Hf2 & He).
  { destruct (o_fault o); simplify_eq/=; [by eauto|]. unfold flock_drop. case_bool_decide as El; [|eexists; split; [apply lookup_insert_eq | by left]].
    cbn in El. eauto. }
  destruct e as [e|].
  { eapply (frame_ret _ _ (eq f) C); [done | done|]. intros m' HC' HR'. pose proof (mv_now _ _ _ _ (proj1 HR')). split_and!; [done | lia|].
    exists l2. destruct He as [n ->]. split; [by eapply has_file_others | done]. }
  clear Hh. apply sys_last. apply (wp_sys _ _ (eq f) C); [done | done | done | done | |].
  { intros m' _ HC' HR'. split; [|by intros s ->]. intros x Hx. pose proof (has_file_others _ _ _ _ _ _ HR' Hf2) as Hf'.
    unfold has_file in Hf'. simplify_eq/=. by apply Hl. }
  intros o' r m3 m4 HW3 HC3 HR3 Hh HW4 HC4 Hm' _. pose proof (has_file_others _ _ _ _ _ _ HR3 Hf2) as Hf3.
  pose proof (mv_now _ _ _ _ (proj1 HR3)) as Hn3. pose proof (mv_now _ _ _ _ Hm') as Hn4. cbn in Hh. unfold on_file in Hh. rewrite Hf3 in Hh.
  eapply (frame_ret _ _ (eq f) C); [done | done|]. intros m' HC' HR'. pose proof (mv_now _ _ _ _ (proj1 HR')). split_and!; [done | lia|].
  assert (∃ l', has_file f i l' q m4 ∧ flock_result how r l') as (l4 & Hf4 & Hr).
  { destruct (o_fault o'); simplify_eq/=; [by eexists|]. unfold flock_take in Hh. cbn in Hh. case_bool_decide as El; simplify_eq/=; [by eexists|].
    destruct He as [->|]; [|done]. destruct (obstructed _ _ _ _); [destruct nb; simplify_eq/=; by eexists|].
    simplify_eq/=. eexists. split; [apply lookup_insert_eq | done]. }
  exists l4. split; [by eapply has_file_others | done].
Qed.

Lemma frame_quiet (S : N → Prop) C : frame S C → frame (λ _, False) C.
Proof. by apply frame_weaken. Qed.

Lemma Sleep_spec C d m : frame (λ _, False) C → C m → WP true 3 (Sleep d) (λ _ m', C m' ∧ m_now m + d <= m_now m') m.
Proof.
  intros HF HC. unfold Sleep. apply (wp_quiet _ _ C); [done..|]. intros o t m1 m2 HW1 HC1 HR1 [= <- <-] HC2 HR2.
  pose proof (mv_now _ _ _ _ (proj1 HR1)) as Hn1. apply sys_last, (wp_quiet _ _ C); [done..|].
  intros o' [] m3 m4 HW3 HC3 HR3 Hh HC4 HR4. eapply (frame_ret _ _ _ C); [done | done|]. intros m' HC' HR'.
  pose proof (mv_now _ _ _ _ (proj1 HR')) as Hn'. split; [done|]. cbn in Hh. destruct (m_now m1 + d <=? m_now m3) eqn:E; simplify_eq/=. lia.
Qed.

(** What [lockHelper] returns *)
Definition helper_result (how : lock_mode) (r : option error) (l : option lock_mode) (deadline now : Z) : Prop :=
  match r with
  | Some (ECtx _) => True
  | Some (EErrno ETIMEDOUT) => l = None ∧ deadline <= now
  | _ => flock_result how r l
  end.

Definition interval : Z := 100 * millisecond.

(** One round: it ends with an answer, or 100 milliseconds later without the lock. *)
Lemma try_lock_spec C c f how d start first i l q m : frame (eq f) C → lockable C i q → C m → has_file f i l q m → (first = false → l = None) →
  WP true 10 (try_lock c f how d start first) (λ r m', C m' ∧ ∃ l', has_file f i l' q m' ∧
    match r with
    | inl again => again = false ∧ l' = None ∧ m_now m + interval <= m_now m' ∧ (first = true ∨ m_now m - start < d)
    | inr r => helper_result how r l' (start + d) (m_now m')
    end) m.
Proof.
  intros HF Hl HC Hf Hfirst. unfold try_lock. apply (wp_quiet _ _ C); [by eapply frame_quiet | done | done|].
  intros o t m1 m2 HW1 HC1 HR1 [= <- <-] _ _. clear o. pose proof (has_file_others _ _ _ _ _ _ HR1 Hf) as Hf1.
  pose proof (mv_now _ _ _ _ (proj1 HR1)) as Hn1.
  destruct ((m_now m1 - start <? d) || first) eqn:Econd.
  2:{ apply orb_false_iff in Econd as [Ed ->]. eapply (frame_ret _ _ _ C); [done | done|]. intros m' HC' HR'.
      pose proof (mv_now _ _ _ _ (proj1 HR')). split; [done|]. exists l. split; [by eapply has_file_others|]. cbn. split; [by apply Hfirst | lia]. }
  apply (wp_quiet _ _ C); [by eapply frame_quiet | done | done|]. intros o done m2 m3 HW2 HC2 HR2 Hh _ _. cbn in Hh. injection Hh as <- <-.
  pose proof (has_file_others _ _ _ _ _ _ HR2 Hf1) as Hf2. pose proof (mv_now _ _ _ _ (proj1 HR2)) as Hn2.
  destruct (ctx_err m2 p c) as [e|] eqn:Ectx.
  { eapply (frame_ret _ _ _ C); [done | done|]. intros m' HC' HR'. split; [done|]. exists l. split; [by eapply has_file_others|].
    unfold ctx_err in Ectx. destruct (m_cancelled m2 !! (p, c)); simplify_eq/=. done. }
  apply (prog_bind_total _ _ _ _ _ (others_refl p) 3 5). eapply prog_mono; [|by apply (Flock_spec C f how true i l q)].
  intros r m4 (HC4 & Hn4 & l4 & Hf4 & Hr). destruct r as [e|].
  2:{ eapply (frame_ret _ _ _ C); [done | done|]. intros m' HC' HR'. split; [done|]. exists l4. split; [by eapply has_file_others | done]. }
  destruct e as [| | | | | | | | | | | | | | | |en|]; try done. destruct en as [| | | | | | |en]; try done; cbn in Hr; try done.
  2:{ eapply (frame_ret _ _ _ C); [done | done|]. intros m' HC' HR'. split; [done|]. exists l4. split; [by eapply has_file_others | done]. }
  subst l4. apply (prog_bind_total _ _ _ _ _ (others_refl p) 3 2).
  eapply prog_mono; [|apply (Sleep_spec (λ m', C m' ∧ has_file f i None q m'))]; [| |done].
  - intros [] m5 ([HC5 Hf5] & Hn5). eapply (frame_ret _ _ _ C); [done | done|]. intros m' HC' HR'.
    pose proof (mv_now _ _ _ _ (proj1 HR')) as Hn'. split; [done|]. exists None. split; [by eapply has_file_others|].
    apply orb_true_iff in Econd. unfold interval. split_and!; [done | done | lia|]. destruct Econd as [Ed|]; [right; lia | by left].
  - split.
    + intros ma mb [HCa Hfa] HR. split; [by eapply (fr_others _ _ HF) | by eapply has_file_others].
    + intros ma mb [HCa Hfa] Hm Hk. split; [by eapply (fr_own _ _ (frame_quiet _ _ HF))|]. unfold has_file. by rewrite (mv_files _ _ _ _ Hm f id).
    + intros ma [HCa _]. by eapply (fr_I _ _ HF).
Qed.

(** How many steps the rounds take: [k] is how many intervals are left. *)
Definition rounds (k : nat) (first : bool) : nat := 12 * (k + if first then 1 else 0) + 12.

Lemma try_locks_spec C c f how d start i q k first l m : frame (eq f) C → lockable C i q → C m → has_file f i l q m → (first = false → l = None) →
  start + d - m_now m <= Z.of_nat k * interval →
  WP true (rounds k first) (ITree.iter (try_lock c f how d start) first)
    (λ r m', C m' ∧ ∃ l', has_file f i l' q m' ∧ helper_result how r l' (start + d) (m_now m')) m.
Proof.
  intros HF Hl. revert first l m.
  assert (∀ k first l m, C m → has_file f i l q m → (first = false → l = None) → start + d - m_now m <= Z.of_nat k * interval →
    (∀ m', C m' → has_file f i None q m' → m_now m + interval <= m_now m' → (first = true ∨ (0 < k)%nat) →
      WP true (rounds k first - 12) (ITree.iter (try_lock c f how d start) false)
        (λ r m', C m' ∧ ∃ l', has_file f i l' q m' ∧ helper_result how r l' (start + d) (m_now m')) m') →
    WP true (rounds k first) (ITree.iter (try_lock c f how d start) first)
      (λ r m', C m' ∧ ∃ l', has_file f i l' q m' ∧ helper_result how r l' (start + d) (m_now m')) m) as Hround.
  { clear k. intros k first l m HC Hf Hfirst Hk Hagain.
    apply (wp_observe _ _ _ _ _ _ _ (mbind (λ lr, match lr with inl b => Tau (ITree.iter (try_lock c f how d start) b) | inr x => Ret x end) (try_lock c f how d start first))); [done|].
    replace (rounds k first) with (10 + S (S (rounds k first - 12)))%nat by (unfold rounds; lia).
    apply prog_bind_total; [apply others_refl|]. eapply prog_mono; [|by apply (try_lock_spec C c f how d start first i l q)].
    intros [again|r] m1 (HC1 & l1 & Hf1 & Hr).
    - destruct Hr as (-> & -> & Hn & Hor). apply wp_tau. intros m' HW HR. split; [apply (fr_I _ _ HF); by eapply (fr_others _ _ HF)|].
      pose proof (mv_now _ _ _ _ (proj1 HR)). eapply wp_up; [|apply Hagain]; [lia | by eapply (fr_others _ _ HF) | by eapply has_file_others | lia|].
      destruct Hor as [->|Hd]; [by left | right]. unfold interval, millisecond in *. lia.
    - eapply (frame_ret _ _ _ C); [done | done|]. intros m' HC' HR'. split; [done|]. exists l1. split; [by eapply has_file_others|].
      pose proof (mv_now _ _ _ _ (proj1 HR')). destruct r as [e|]; [|done]. destruct e as [| | | | | | | | | | | | | | | |en|]; try done.
      destruct en; try done. cbn in Hr |- *. split; [tauto | lia]. }
  induction k as [|k IH]; intros first l m HC Hf Hfirst Hk.
  - eapply Hround; [done..|]. intros m' HC' Hf' Hn [->|]; [|lia].
    apply (Hround 0%nat false None); [done | done | done | unfold interval, millisecond in *; lia|]. intros m2 HC2 Hf2 Hn2 [|]; [done | lia].
  - eapply Hround; [done..|]. intros m' HC' Hf' Hn _.
    eapply wp_up; [|apply (IH false None)]; [unfold rounds; destruct first; lia | done | done | done | unfold interval, millisecond in *; lia].
Qed.

(** Enough steps for [lockHelper] *)
Definition helper_steps (timeout : Z) : nat := 1 + rounds (Z.to_nat (timeout / interval + 1)) true.

Lemma lockHelper_spec C c f how d i l q m : frame (eq f) C → lockable C i q → C m → has_file f i l q m →
  WP true (helper_steps d) (lockHelper c f how (Some d))
    (λ r m', C m' ∧ ∃ l', has_file f i l' q m' ∧ helper_result how r l' (m_now m + d) (m_now m')) m.
Proof.
  intros HF Hl HC Hf. unfold lockHelper. destruct (d =? 0) eqn:Ed.
  - eapply wp_up; [|eapply prog_mono; [|by apply (Flock_spec C f how true i l q)]]; [unfold helper_steps, rounds; lia|].
    intros r m' (HC' & _ & l' & Hf' & Hr). split; [done|]. exists l'. split; [done|]. unfold helper_result.
    destruct r as [e|]; [|done]. by destruct e as [| | | | | | | | | | | | | | | |[]|].
  - apply (wp_quiet _ _ C); [by eapply frame_quiet | done | done|].
    intros o t m1 m2 HW1 HC1 HR1 [= <- <-] _ _. pose proof (mv_now _ _ _ _ (proj1 HR1)) as Hn1.
    eapply prog_mono; [|apply (try_locks_spec C c f how d (m_now m1) i q _ true l m1); [done | done | done | by eapply has_file_others | done|]].
    + intros r m' (HC' & l' & Hf' & Hr). split; [done|]. exists l'. split; [done|]. destruct r as [e|]; [|done].
      destruct e as [| | | | | | | | | | | | | | | |[]|]; try done. cbn in Hr |- *. split; [tauto|lia].
    + pose proof (Z.mul_succ_div_gt d interval ltac:(done)). destruct (decide (0 <= d / interval + 1)).
      * rewrite Z2Nat.id by done. lia.
      * assert (d / interval + 1 <= 0) by lia. unfold interval, millisecond in *. lia.
Qed.

(** ** The operations *)

(** A frame and what it says of one more file *)
Lemma frame_file (S : N → Prop) C f i l q : frame S C → ¬ S f → frame S (λ m, C m ∧ has_file f i l q m).
Proof.
  intros HF Hf. split.
  - intros m1 m2 [HC Hx] HR. split; [by eapply (fr_others _ _ HF) | by eapply has_file_others].
  - intros m1 m2 [HC Hx] Hm Hk. split; [by eapply (fr_own _ _ HF)|]. unfold has_file. by rewrite (mv_files _ _ _ _ Hm f Hf).
  - intros m [HC _]. by apply (fr_I _ _ HF).
Qed.

Lemma frame_lock (S : N → Prop) C (r : ref) v : frame S C → ¬ S r → frame S (λ m, C m ∧ m_locks m !! (p, r) = v).
Proof.
  intros HF Hr. split.
  - intros m1 m2 [HC Hx] HR. split; [by eapply (fr_others _ _ HF) | by rewrite (mv_locks _ _ _ _ (proj1 HR) r id)].
  - intros m1 m2 [HC Hx] Hm Hk. split; [by eapply (fr_own _ _ HF)|]. by rewrite (mv_locks _ _ _ _ Hm r Hr).
  - intros m [HC _]. by apply (fr_I _ _ HF).
Qed.

(** A fact that nothing undoes *)
Lemma frame_and (S : N → Prop) C (D : machine → Prop) : frame S C → (∀ m1 m2, C m1 → D m1 → others p m1 m2 → D m2) →
  (∀ m1 m2, C m1 → D m1 → moves p S m1 m2 → names_kept m1 m2 → D m2) → frame S (λ m, C m ∧ D m).
Proof.
  intros HF H1 H2. split.
  - intros m1 m2 [HC HD] HR. split; [by eapply (fr_others _ _ HF) | by eapply H1].
  - intros m1 m2 [HC HD] Hm Hk. split; [by eapply (fr_own _ _ HF) | by eapply H2].
  - intros m [HC _]. by apply (fr_I _ _ HF).
Qed.

Lemma frame_next (S : N → Prop) C n : frame S C → frame S (λ m, C m ∧ (n ≤ m_next m)%N).
Proof.
  intros HF. apply frame_and; [done| |].
  - intros m1 m2 _ Hn HR. pose proof (mv_next _ _ _ _ (proj1 HR)). lia.
  - intros m1 m2 _ Hn Hm _. pose proof (mv_next _ _ _ _ Hm). lia.
Qed.

(** Rules for programs that need not end *)
Lemma quiet_spec n C {A B} (e : sysE A) (k : A → prog B) Q m : frame (λ _, False) C → C m → quiet e = true →
  (∀ o x m1 m2, world m1 → C m1 → others p m m1 → handle o p e m1 = Some (x, m2) → C m2 → others p m m2 → WP false n (k x) Q m2) →
  WP false n (sys e ≫= k) Q m.
Proof. intros HF HC Hq Hk. by apply wp_down, (wp_quiet _ _ C). Qed.

Lemma ret_spec n S C {A} (a : A) Q m : frame S C → C m → (∀ m', C m' → others p m m' → Q a m') → WP false n (mret a) Q m.
Proof. intros HF HC HQ. by eapply wp_down, frame_ret. Qed.

Lemma panic_spec n C {A} Q m : frame (λ _, False) C → C m → WP false n (go_panic (A := A)) Q m.
Proof. intros HF HC. apply wp_down, prog_panic. intros m' _ HR. apply (fr_I _ _ HF). by eapply (fr_others _ _ HF). Qed.

Lemma MkdirAll_spec n C k q m : frame (λ _, False) C → C m → WP false n (MkdirAll k q) (λ _, C) m.
Proof.
  intros HF. revert m. induction k as [|k IH]; intros m HC; cbn [MkdirAll].
  all: apply (quiet_spec _ C); [done..|]; intros o st m1 m2 _ _ _ _ HC2 _.
  all: destruct st as [e|[]]; [|by eapply (ret_spec _ _ C)..].
  all: apply prog_bind; [apply others_refl|].
  1: eapply (ret_spec _ _ C); [done | done|]; intros m3 HC3 _.
  2: eapply prog_mono; [|by apply IH]; intros e' m3 HC3; destruct e' as [e'|]; [by eapply (ret_spec _ _ C)|].
  all: apply (quiet_spec _ C); [done..|]; intros o' e' m4 m5 _ _ _ _ HC5 _; destruct e' as [e'|]; [|by eapply (ret_spec _ _ C)].
  all: apply (quiet_spec _ C); [done..|]; intros o'' st m6 m7 _ _ _ _ HC7 _.
  all: by destruct st as [|[]]; eapply (ret_spec _ _ C).
Qed.

(** Opening a file gives a new one. *)
Lemma OpenFile_spec n S C q creat {B} (k : error + file → prog B) Q m : frame S C → C m → (∀ s, (m_next m ≤ s)%N → S s) →
  (∀ e m', C m' → (m_next m ≤ m_next m')%N → WP false n (k (inl e)) Q m') →
  (∀ f i m', C m' → (m_next m ≤ f)%N → (f < m_next m')%N → has_file f i None q m' → m_names m' !! q = Some i → WP false n (k (inr f)) Q m') →
  WP false n (sys (OpenFile q creat) ≫= k) Q m.
Proof.
  intros HF HC HS Hfail Hok. apply wp_down, (wp_sys _ _ S C); [done | done | done | done | |].
  { intros m' _ _ HR. split; [done|]. intros s Hs. apply HS. pose proof (mv_next _ _ _ _ (proj1 HR)). cbn in Hs. lia. }
  intros o x m1 m2 HW1 HC1 HR1 Hh HW2 HC2 Hm Hk. pose proof (mv_next _ _ _ _ (proj1 HR1)) as Hn. pose proof (mv_next _ _ _ _ Hm).
  cbn in Hh. injection Hh as Hh. destruct x as [e|f]; [apply Hfail; [done | lia]|].
  assert (∃ i, has_file f i None q m2 ∧ m_names m2 !! q = Some i ∧ (m_next m1 ≤ f < m_next m2)%N) as (i & Hf & Hq & Hfn).
  { unfold handle_open in Hh. destruct (o_fault o); [done|]. destruct (m_names m1 !! q) as [i|] eqn:Eq.
    - injection Hh as E1 E2. subst. exists i. split_and!; [apply lookup_insert_eq | done | cbn; lia..].
    - destruct (creat && _ && _); [|done]. cbn in Hh. injection Hh as E1 E2. subst. exists (m_next m1).
      split_and!; [apply lookup_insert_eq | apply lookup_insert_eq | cbn; lia..]. }
  apply (Hok f i); done || lia.
Qed.

(** While [.pendingwork] is locked, a name stays. *)
Lemma name_kept C q i m m' : (∀ m, C m → holds_pending p m) → C m → m_names m !! q = Some i → others p m m' → m_names m' !! q = Some i.
Proof. intros HP HC Hq [_ Hk]. apply Hk; [by apply HP | done]. Qed.

Lemma mkdir_attempts_spec n S C j e q m : frame S C → C m → (∀ s, (m_next m ≤ s)%N → S s) → (∀ m, C m → holds_pending p m) →
  WP false n (mkdir_attempts j e q) (λ r m', C m' ∧
    match r with inl _ => True | inr f => (m_next m ≤ f < m_next m')%N ∧ ∃ i, has_file f i None q m' ∧ m_names m' !! q = Some i end) m.
Proof.
  intros HF HC HS HP. pose (D := λ m', C m' ∧ (m_next m ≤ m_next m')%N).
  assert (frame S D) as HD by by apply frame_next.
  assert (frame (λ _, False) D) as HD' by by eapply frame_quiet.
  assert (D m) as HDm by by split. revert HDm. generalize m at 1 3 as m1. revert e.
  induction j as [|j IH]; intros e m1 HDm; cbn [mkdir_attempts]; [eapply (ret_spec _ _ D); [done | done|]; by intros m' [HC' _] _|].
  apply prog_bind; [apply others_refl|]. eapply prog_mono; [|by apply (MkdirAll_spec _ D)]. intros [e'|] m2 HD2.
  - apply (quiet_spec _ D); [done..|]. intros o r m3 m4 _ _ _ _ HD4 _. apply prog_bind; [apply others_refl|].
    eapply prog_mono; [|eapply wp_total_partial, (Sleep_spec D); done]. intros [] m5 [HD5 _]. by apply IH.
  - apply sys_last, (OpenFile_spec _ S D); [done | done | | |].
    + intros s Hs. apply HS. destruct HD2. lia.
    + intros e3 m3 HD3 _. eapply (ret_spec _ _ D); [done | done|]. by intros m' [HC' _] _.
    + intros f i m3 HD3 Hn Hn' Hf Hq. eapply (ret_spec _ _ D); [done | done|]. intros m' [HC' _] HR. split; [done|].
      pose proof (mv_next _ _ _ _ (proj1 HR)). destruct HD2. split; [lia|]. exists i. split; [by eapply has_file_others|].
      eapply (name_kept C); [done | apply HD3 | done | done].
Qed.

Lemma or_panic_spec n C e m : frame (λ _, False) C → C m → WP false n (or_panic e) (λ _ m', C m' ∧ e = None) m.
Proof.
  intros HF HC. destruct e as [e|]; [by eapply panic_spec|]. eapply (ret_spec _ _ C); [done | done|]. done.
Qed.

(** Unlocking and closing a file that [C] does not speak of *)
Lemma shouldUnlock_spec n C f m : frame (eq f) C → C m → WP false n (shouldUnlock f) (λ _, C) m.
Proof.
  intros HF HC. apply wp_down, (wp_sys _ _ (eq f) C); [done | done | done | done | by split; [|intros s ->]|].
  intros o e m1 m2 _ _ _ _ _ HC2 _ _. eapply prog_mono; [|apply (or_panic_spec _ C); [by eapply frame_quiet | done]]. by intros [] m' [HC' _].
Qed.

Lemma shouldClose_spec n C f m : frame (eq f) C → C m → WP false n (shouldClose f) (λ _, C) m.
Proof.
  intros HF HC. apply wp_down, (wp_sys _ _ (eq f) C); [done | done | done | done | by split; [|intros s ->]|].
  intros o e m1 m2 _ _ _ _ _ HC2 _ _. eapply prog_mono; [|apply (or_panic_spec _ C); [by eapply frame_quiet | done]]. by intros [] m' [HC' _].
Qed.

Lemma release_pending_spec n C f {A} (r : A) m : frame (eq f) C → C m → WP false n (release_pending f r) (λ r' m', C m' ∧ r' = r) m.
Proof.
  intros HF HC. apply prog_bind; [apply others_refl|]. eapply prog_mono; [|by apply (shouldUnlock_spec _ C)]. intros [] m1 HC1.
  apply prog_bind; [apply others_refl|]. eapply prog_mono; [|by apply (shouldClose_spec _ C)]. intros [] m2 HC2.
  by eapply (ret_spec _ _ C).
Qed.

(** A name that stays, when none is removed *)
Definition named (q : path) (i : N) (m : machine) : Prop := rm = false → m_names m !! q = Some i.

Lemma frame_named S C q i : frame S C → frame S (λ m, C m ∧ named q i m).
Proof.
  intros HF. apply frame_and; [done| |].
  - intros m1 m2 _ Hq HR Erm. by apply (mv_names _ _ _ _ (proj1 HR)), Hq.
  - intros m1 m2 _ Hq Hm _ Erm. by apply (mv_names _ _ _ _ Hm), Hq.
Qed.

Lemma frame_pending_name S C i : frame S C → frame S (λ m, C m ∧ m_names m !! pending = Some i).
Proof.
  intros HF. apply frame_and; [done| |].
  - intros m1 m2 _ Hq HR. by apply (mv_pending _ _ _ _ (proj1 HR)).
  - intros m1 m2 _ Hq Hm _. by apply (mv_pending _ _ _ _ Hm).
Qed.

Lemma frame_name S C q i : frame S C → (∀ m, C m → holds_pending p m) → frame S (λ m, C m ∧ m_names m !! q = Some i).
Proof.
  intros HF HP. apply frame_and; [done| |].
  - intros m1 m2 HC Hq HR. by eapply (name_kept C).
  - intros m1 m2 _ Hq _ Hk. by apply Hk.
Qed.

(** The lock [l] of the process: its struct has the file [f], which is open on the inode [i] of [q] *)
Definition has_lock (l : ref) (f : file) (i : N) (how : lock_mode) (q : path) (m : machine) : Prop :=
  m_locks m !! (p, l) = Some (Some f) ∧ has_file f i (Some how) q m ∧ named q i m.

Lemma frame_has_lock (S : N → Prop) C l f i how q : frame S C → ¬ S l → ¬ S f → frame S (λ m, C m ∧ has_lock l f i how q m).
Proof.
  intros HF Hl Hf. pose proof (frame_named _ _ q i (frame_file _ _ f i (Some how) q (frame_lock _ _ l (Some (Some f)) HF Hl) Hf)) as [F1 F2 F3].
  unfold has_lock. split.
  - intros m1 m2 (HC & H1 & H2 & H3) HR. destruct (F1 m1 m2 (conj (conj (conj HC H1) H2) H3) HR) as [[[? ?] ?] ?]. done.
  - intros m1 m2 (HC & H1 & H2 & H3) Hm Hk. destruct (F2 m1 m2 (conj (conj (conj HC H1) H2) H3) Hm Hk) as [[[? ?] ?] ?]. done.
  - intros m (HC & H1 & H2 & H3). apply F3. done.
Qed.

(** What a successful [doLock] has made: objects with numbers from [m0] *)
Definition lock_made (m0 : N) (how : lock_mode) (q : path) (r : error + ref) (m : machine) : Prop :=
  match r with
  | inl _ => True
  | inr l => ∃ f i, (m0 ≤ l < m_next m)%N ∧ (m0 ≤ f < m_next m)%N ∧ l ≠ f ∧ has_lock l f i how q m
  end.

(** After [.pendingwork] is locked: the rest of [doLock] *)
Lemma doLock_inside n C c how q d pw ip m0 m {Q : error + ref → machine → Prop} (k : error + file → prog (error + ref)) :
  frame (λ s, (m0 ≤ s)%N) C → C m → (m0 ≤ pw)%N → (pw < m_next m)%N → has_file pw ip (Some LOCK_SH) pending m → m_names m !! pending = Some ip →
  k = (λ made, match made with
       | inl e => release_pending pw (inl e)
       | inr fd =>
           e ← lockHelper c fd how (Some d);
           match e with
           | Some e => done ← sys (CtxErr c); _ ← (if is_ctx_err e done then mret tt else shouldClose fd); release_pending pw (inl e)
           | None => l ← sys (NewLock fd); release_pending pw (inr l)
           end
       end) →
  (∀ r m', C m' → lock_made m0 how q r m' → Q r m') →
  WP false n (mkdir_attempts 10 (EString "") q ≫= k) Q m.
Proof.
  intros HF HC Hpw Hpwn Hfpw Hp -> HQ. pose (C2 := λ m', ((C m' ∧ m_names m' !! pending = Some ip) ∧ has_file pw ip (Some LOCK_SH) pending m') ∧ (m_next m ≤ m_next m')%N).
  assert (∀ S : N → Prop, (∀ s, S s → (m0 ≤ s)%N) → ¬ S pw → frame S C2) as HF2.
  { intros S HS Hn. by apply frame_next, frame_file, Hn; apply frame_pending_name; eapply frame_weaken. }
  assert (∀ m', C2 m' → holds_pending p m') as HP.
  { intros m' (((_ & H1) & H2) & _). exists pw, (OFile ip (Some LOCK_SH) pending), LOCK_SH. split_and!; [done | done | done | set_solver]. }
  assert (C2 m) as HC2 by done.
  assert (∀ (e : error) n m', C m' → WP false n (release_pending pw (inl e)) Q m') as Hfail.
  { intros e n' m' HC'. eapply prog_mono; [|apply (release_pending_spec _ C); [eapply frame_weaken; [|done]; by intros s <- | done]].
    intros r m2 [HCr ->]. by apply HQ. }
  apply prog_bind; [apply others_refl|].
  eapply prog_mono; [|apply (mkdir_attempts_spec _ (λ s, (m_next m ≤ s)%N) C2 10 (EString "") q m); [apply HF2; intros; lia | done | done | done]].
  intros [e|fd] m2 [HCm2 Hfd]; [apply Hfail; apply HCm2|]. destruct Hfd as (Hfdn & i & Hffd & Hq).
  apply prog_bind; [apply others_refl|]. pose (C3 := λ m', (C2 m' ∧ m_names m' !! q = Some i) ∧ (fd + 1 ≤ m_next m')%N).
  eapply prog_mono; [|eapply wp_total_partial, (lockHelper_spec C3 c fd how d i None q)].
  2: { apply frame_next, frame_name; [|done]. apply HF2; intros; lia. }
  2: { intros m' [[HC2' Hq'] _]. split; [done|]. right. by apply HP. }
  2: { split; [done | lia]. }
  2: done.
  intros r m3 (HC3 & l & Hf3 & Hr). destruct r as [e|].
  - assert (C m3) as HCm3 by apply HC3.
    apply (quiet_spec _ C); [eapply frame_weaken, HF; done | done | done|]. intros o done' m4 m5 _ _ _ _ HC5 _. apply prog_bind; [apply others_refl|].
    assert (∀ n', WP false n' (if is_ctx_err e done' then mret tt else shouldClose fd) (λ _, C) m5) as Hclose.
    { intros n'. destruct (is_ctx_err e done'); [by eapply (ret_spec _ _ C)|]. apply shouldClose_spec; [|done]. eapply frame_weaken, HF. intros s <-. lia. }
    eapply prog_mono; [|apply Hclose]. intros [] m6 HC6. by apply Hfail.
  - cbn in Hr. subst l. pose (C4 := λ m', (C m' ∧ named q i m') ∧ has_file fd i (Some how) q m').
    assert (C4 m3) as HC4. { split; [|done]. split; [apply HC3 | intros _; apply HC3]. }
    assert (m_next m ≤ m_next m3 ∧ fd + 1 ≤ m_next m3)%N as [Hn3 Hfd3] by (split; apply HC3).
    assert (frame (λ s, (m_next m3 ≤ s)%N) C4) as HF4.
    { apply frame_file; [|lia]. apply frame_named. eapply frame_weaken, HF. intros s Hs. cbn in *. lia. }
    apply wp_down, (wp_sys _ _ (λ s, (m_next m3 ≤ s)%N) C4); [done | done | done | done | |].
    { intros m' _ _ HR. pose proof (mv_next _ _ _ _ (proj1 HR)). split; [done|]. intros s Hs. cbn in Hs. lia. }
    intros o l m4 m5 _ _ HR4 Hh _ HC5 _ _. pose proof (mv_next _ _ _ _ (proj1 HR4)) as Hn4. cbn in Hh. injection Hh as <- E5.
    assert (m_locks m5 !! (p, m_next m4) = Some (Some fd)) as Hl by (subst m5; apply lookup_insert_eq).
    eapply prog_mono; [|apply (release_pending_spec _ (λ m', (C m' ∧ has_lock (m_next m4) fd i how q m') ∧ (m_next m4 + 1 ≤ m_next m')%N))].
    + intros r m6 [[[HC6 Hl6] Hn6] ->]. apply HQ; [done|]. exists fd, i. split_and!; [lia | lia | lia | lia | lia | apply Hl6..].
    + apply frame_next, frame_has_lock; [|lia..]. eapply frame_weaken, HF. by intros s <-.
    + destruct HC5 as [[HC5 Hnm] Hf5]. split; [done|]. subst m5. cbn. lia.
Qed.

(** [doLock] with a timeout: a lock is a new one, on the directory of that name. *)
Lemma doLock_spec n C c how path d m0 m : frame (λ s, (m0 ≤ s)%N) C → C m → (m0 ≤ m_next m)%N →
  WP false n (doLock locker c how path (Some d)) (λ r m', C m' ∧ lock_made m0 how (Join (locker_path locker) path) r m') m.
Proof.
  intros HF HC Hm0. assert (frame (λ _, False) C) as HF0 by by eapply frame_quiet.
  apply (OpenFile_spec _ (λ s, (m0 ≤ s)%N) C); [done | done | intros; lia | |].
  { intros e m1 HC1 _. by eapply (ret_spec _ _ C). }
  intros pw ip m1 HC1 Hpw Hpwn Hf1 Hp1. apply prog_bind; [apply others_refl|].
  assert (frame (eq pw) C) as HFpw by (eapply frame_weaken, HF; intros s <-; lia).
  pose (C1 := λ m', (C m' ∧ m_names m' !! pending = Some ip) ∧ (pw + 1 ≤ m_next m')%N).
  eapply prog_mono; [|eapply wp_total_partial, (Flock_spec C1 pw LOCK_SH false ip None pending)].
  2: by apply frame_next, frame_pending_name.
  2: by intros m' [[_ Hq] _]; split; [|left].
  2: split; [done | lia].
  2: done.
  intros [e|] m2 (HC2 & _ & l & Hf2 & Hr).
  - apply prog_bind; [apply others_refl|]. eapply prog_mono; [|apply (shouldClose_spec _ C); [done | apply HC2]].
    intros [] m3 HC3. by eapply (ret_spec _ _ C).
  - cbn in Hr. subst l. destruct HC2 as [[HC2 Hp2] Hn2].
    eapply (doLock_inside _ C c how (Join (locker_path locker) path) d pw ip m0 m2); [done | done | lia | lia | done | done | reflexivity|].
    intros r m' HC' Hr'. by split.
Qed.

Lemma Unlock_spec n (S : N → Prop) C (l : ref) m : frame S C → C m → S l → (∀ f : file, m_locks m !! (p, l) = Some (Some f) → S f) →
  WP false n (Unlock l) (λ _, C) m.
Proof.
  intros HF HC HSl HSf. assert (frame (λ _, False) C) as HF0 by by eapply frame_quiet.
  apply (quiet_spec _ C); [done..|]. intros o x m1 m2 _ HC1 HR1 Hh HC2 _. cbn in Hh. injection Hh as <- <-.
  destruct (m_locks m1 !! (p, l)) as [[f|]|] eqn:El; cbn [mbind option_bind id]; [|by eapply (ret_spec _ _ C)..].
  assert (S f) as Hf by (apply HSf; by rewrite <- (mv_locks _ _ _ _ (proj1 HR1) l id)).
  assert (frame (eq f) C) as HFf by (eapply frame_weaken, HF; by intros s <-).
  apply wp_down, (wp_sys _ _ (eq f) C); [done | done | done | done | by split; [|intros s ->]|].
  intros o' e m3 m4 _ _ _ _ _ HC4 _ _. apply prog_bind; [apply others_refl|].
  eapply prog_mono; [|by apply (or_panic_spec _ C)]. intros [] m5 [HC5 _].
  apply prog_bind; [apply others_refl|]. eapply prog_mono; [|by apply (shouldClose_spec _ C)]. intros [] m6 HC6.
  apply sys_last, wp_down, (wp_sys _ _ S C); [done | done | done | done | by split; [|intros s ->]|].
  intros o7 [] m7 m8 _ _ _ _ _ HC8 _ _. by eapply (ret_spec _ _ C).
Qed.

Lemma Bump_spec n C l m : frame (λ _, False) C → C m → WP false n (Bump l) (λ _, C) m.
Proof.
  intros HF HC. do 3 (apply (quiet_spec _ C); [done..|]; intros ? ? ? ? _ _ _ _ ? _).
  eapply prog_mono; [|by apply (or_panic_spec _ C)]. by intros [] m' [HC' _].
Qed.

Lemma ListFiles_spec n C path m : frame (λ _, False) C → C m → WP false n (ListFiles locker path) (λ _, C) m.
Proof.
  intros HF HC. apply (quiet_spec _ C); [done..|]. intros o x m1 m2 _ _ _ _ HC2 _.
  destruct x as [e|l]; [|by eapply (ret_spec _ _ C)]. destruct e as [| | | | | | | | | | | | | | | |[]|]; by eapply (ret_spec _ _ C).
Qed.

(** A lock of the process becomes shared. *)
Lemma ToSharedLock_spec n C (l : ref) (f : file) i how q m : frame (eq f) C → C m → l ≠ f → has_lock l f i how q m → rm = false →
  WP false n (ToSharedLock l) (λ r m', C m' ∧ r = l ∧ has_lock l f i LOCK_SH q m') m.
Proof.
  intros HF HC Hne (Hl & Hf & Hq) Erm. pose (D := λ m', (C m' ∧ m_locks m' !! (p, l) = Some (Some f)) ∧ named q i m').
  assert (frame (eq f) D) as HD by (apply frame_named, frame_lock; congruence).
  apply (quiet_spec _ D); [by eapply frame_quiet | done | done|]. intros o x m1 m2 _ HD1 HR1 Hh HD2 HR2. cbn in Hh. injection Hh as <- <-.
  destruct HD1 as [[HC1 Hl1] Hq1]. rewrite Hl1. cbn [mbind option_bind id default]. apply prog_bind; [apply others_refl|].
  eapply prog_mono; [|eapply wp_total_partial, (Flock_spec D f LOCK_SH false i (Some how) q)].
  2: done. 2: by intros m' [_ Hq']; split; [apply Hq' | congruence]. 2: done. 2: by eapply has_file_others.
  intros e m3 (HD3 & _ & l3 & Hf3 & Hr). apply prog_bind; [apply others_refl|].
  destruct e as [e|]; [eapply panic_spec; [eapply (frame_quiet _ D); done | done]|]. cbn in Hr. subst l3.
  eapply (ret_spec _ _ D); [done | done|]. intros m4 HD4 HR4.
  eapply (ret_spec _ _ D); [done | done|]. intros m5 HD5 HR5. destruct HD5 as [[HC5 Hl5] Hq5]. split_and!; [done | done|].
  split_and!; [done | | done]. eapply has_file_others; [done|]. by eapply has_file_others.
Qed.
End Process.
End Spec.

(** * Processes that use the locker *)

(** Where [NewFSLocker] puts the two *)
Definition well_placed (locker : FSLocker) : Prop :=
  ∃ root, pendingWorkPath locker = root ++ [".pendingwork"] ∧ locker_path locker = root ++ ["lockDir"].

Lemma Join_extends p q : ".." ∉ q → ∃ s, Join p q = p ++ s.
Proof.
  unfold Join. revert p. induction q as [|c q IH]; intros p Hq; cbn; [exists []; by rewrite app_nil_r|].
  apply not_elem_of_cons in Hq as [Hc Hq]. case_bool_decide; [by apply IH|]. rewrite bool_decide_false by congruence.
  destruct (IH (p ++ [c]) Hq) as [s Hs]. exists (c :: s). by rewrite Hs, <- app_assoc.
Qed.

Lemma Join_not_pending locker q : well_placed locker → ".." ∉ q → Join (locker_path locker) q ≠ pendingWorkPath locker.
Proof.
  intros (root & -> & ->) Hq E. destruct (Join_extends (root ++ ["lockDir"]) q Hq) as [s Hs]. rewrite Hs, <- app_assoc in E.
  by apply app_inj_1 in E as [_ [= ]].
Qed.

(** What a process can do with a locker; it refers to the locks it has taken by their numbers. *)
Inductive locker_op : Type :=
| OpLock (how : lock_mode) (path : path) (timeout : Z)
| OpUnlock (i : nat)
| OpBump (i : nat)
| OpList (path : path)
| OpRemove (path : path).

Section Client.
Context `{World}.

Fixpoint client (locker : FSLocker) (c : ctx) (ops : list locker_op) (held : list ref) : prog unit :=
  match ops with
  | [] => mret tt
  | OpLock how path timeout :: ops =>
      r ← match how with
          | LOCK_EX => ExclusiveLock locker c path (Some timeout)
          | LOCK_SH => SharedLock locker c path (Some timeout)
          end;
      client locker c ops (match r with inr l => held ++ [l] | inl _ => held end)
  | OpUnlock i :: ops => _ ← match held !! i with Some l => Unlock l | None => mret tt end; client locker c ops held
  | OpBump i :: ops => _ ← match held !! i with Some l => Bump l | None => mret tt end; client locker c ops held
  | OpList path :: ops => _ ← ListFiles locker path; client locker c ops held
  | OpRemove path :: ops => _ ← RemovePath locker path; client locker c ops held
  end.

Definition stays_inside (op : locker_op) : Prop := match op with OpRemove path => ".." ∉ path | _ => True end.

Context (locker : FSLocker) (Hlocker : well_placed locker).

Abbreviation anywhere := (λ _ : machine, True).
Abbreviation WP p := (wp p world (others locker true p) (promises locker true p) anywhere).

Lemma frame_anywhere p S : frame locker true p anywhere S anywhere.
Proof. done. Qed.

Lemma RemovePath_spec n p path m : ".." ∉ path → WP p false n (RemovePath locker path) (λ _ _, True) m.
Proof.
  intros Hpath. apply (OpenFile_spec locker true p _ _ (λ _, True) anywhere); [done | done | done | |].
  { intros e m1 _ _. by eapply (ret_spec locker true p _ _ (λ _, False) anywhere). }
  intros pw ip m1 _ _ _ Hf1 Hp1. apply prog_bind; [apply others_refl|]. pose (C1 := λ m', True ∧ m_names m' !! pendingWorkPath locker = Some ip).
  assert (frame locker true p anywhere (eq pw) C1) as HF1 by by apply frame_pending_name.
  eapply prog_mono; [|eapply wp_total_partial, (Flock_spec locker true p _ C1 pw LOCK_EX false ip None (pendingWorkPath locker))].
  2: done. 2: by intros m' [_ Hq]; split; [|left]. 2: done. 2: done.
  intros [e|] m2 (HC2 & _ & l & Hf2 & Hr).
  - apply prog_bind; [apply others_refl|]. eapply prog_mono; [|by apply (shouldClose_spec locker true p _ _ anywhere)].
    intros [] m3 _. by eapply (ret_spec locker true p _ _ (λ _, False) anywhere).
  - cbn in Hr. subst l. apply wp_down, prog_call. intros m3 HW3 HR3. split_and!; [done | |].
    + split_and!; [done | by apply Join_not_pending|]. exists pw, (OFile ip (Some LOCK_EX) (pendingWorkPath locker)), LOCK_EX.
      split_and!; [by eapply has_file_others | | done | by left]. by apply (mv_pending _ _ _ _ _ _ (proj1 HR3)), HC2.
    + intros o r m4 _ _. eapply prog_mono; [|by apply (release_pending_spec locker true p _ _ anywhere)]. done.
Qed.

Lemma client_spec n p c ops held m : Forall stays_inside ops → WP p false n (client locker c ops held) (λ _ _, True) m.
Proof.
  intros Hops. revert held m. induction Hops as [|op ops Hop _ IH]; intros held m; cbn [client].
  { by eapply (ret_spec locker true p _ _ (λ _, False) anywhere). }
  assert (∀ A (t : prog A) h, (∀ m, WP p false n t (λ _ _, True) m) → WP p false n (r ← t; client locker c ops (h r)) (λ _ _, True) m) as Hseq.
  { intros A t h Ht. apply prog_bind; [apply others_refl|]. eapply prog_mono; [|apply Ht]. intros. by apply IH. }
  destruct op as [how path d|i|i|path|path]; cbn in Hop.
  - apply Hseq. intros m'. destruct how; (eapply prog_mono; [|apply (doLock_spec locker true p _ _ anywhere _ _ _ _ 0%N)]; [done | done | done | lia]).
  - apply (Hseq _ _ (λ _, held)). intros m'. destruct (held !! i); [|by eapply (ret_spec locker true p _ _ (λ _, False) anywhere)].
    by eapply prog_mono; [|apply (Unlock_spec locker true p _ _ (λ _, True) anywhere)].
  - apply (Hseq _ _ (λ _, held)). intros m'. destruct (held !! i); [|by eapply (ret_spec locker true p _ _ (λ _, False) anywhere)].
    by eapply prog_mono; [|apply (Bump_spec locker true p _ _ anywhere)].
  - apply (Hseq _ _ (λ _, held)). intros m'. by eapply prog_mono; [|apply (ListFiles_spec locker true p _ _ anywhere)].
  - apply (Hseq _ _ (λ _, held)). intros m'. by apply RemovePath_spec.
Qed.
End Client.

(** C14: Whatever several processes do with one locker at the same time (locking with timeouts, releasing, listing, removing),
    and whenever they die, a lock that one of them asks the kernel for is on the file that has the name at that moment, and it is either
    that of [.pendingwork] or asked for with a lock on [.pendingwork]: [RemovePath] cannot take the directory away in between. *)
Theorem doLock_locks_current `{World} locker m ps ls s tid th f how nb k x :
  well_placed locker → world m → (∀ p t, (p, t) ∈ ps → ∃ c ops, t = client locker c ops [] ∧ Forall stays_inside ops) →
  sys_run ls (boot m ps) = Some s → sys_threads s !! tid = Some th → observe (th_code th) = VisF (Sys (FlockTake f how nb)) k →
  m_files (sys_m s) !! (tid, f) = Some x →
  m_names (sys_m s) !! of_path x = Some (of_ino x) ∧
  (of_path x = pendingWorkPath locker ∨ has_pending locker tid [LOCK_SH; LOCK_EX] (sys_m s)).
Proof.
  intros Hl HW Hps Hrun Hth Hobs Hx.
  assert (sys_ok world (others locker true) (promises locker true) (λ _ _, True) s) as Hok.
  { eapply sys_ok_steps; [apply locker_fits| |done]. apply sys_ok_boot; [done|]. intros p t Hin n.
    destruct (Hps p t Hin) as (c & ops & -> & Hops). by apply client_spec. }
  destruct (ok_threads _ _ _ _ _ Hok tid th Hth) as (_ & _ & Hwp).
  destruct (Hwp 1%nat (sys_m s) (ok_world _ _ _ _ _ Hok) (others_refl _ _ _ _)) as [_ Hcall]. rewrite Hobs in Hcall.
  destruct Hcall as [Hcall _]. destruct (Hcall x Hx) as [Hn Hp]. split; [done | by apply Hp].
Qed.

(** C25: [lockHelper] with a timeout ends: after a number of steps that depends on the timeout alone it has an answer, whatever others
    do who remove no names.
    The answer is the lock, an error of the context or of the kernel, or [ETIMEDOUT], and the last not before the timeout is over.
    A lock of another mode that was to be converted is lost when the answer is [EWOULDBLOCK] or [ETIMEDOUT]; after an error of
    the context or another one of the kernel the file may have it or not. *)
Theorem lockHelper_ends `{World} locker p c f how d i l q m : m_names m !! q = Some i → m_files m !! (p, f) = Some (OFile i l q) →
  wp p world (others locker false p) (promises locker false p) (λ _, True) true (helper_steps d) (lockHelper c f how (Some d))
    (λ r m', ∃ l', m_files m' !! (p, f) = Some (OFile i l' q) ∧ helper_result how r l' (m_now m + d) (m_now m')) m.
Proof.
  intros Hq Hf. eapply prog_mono; [|apply (lockHelper_spec locker false p _ (λ m', True ∧ named false q i m') c f how d i l q)].
  - intros r m' [_ Hr]. exact Hr.
  - by apply frame_named.
  - intros m' [_ Hn]. split; [by apply Hn | done].
  - by split; [|intros _].
  - done.
Qed.
