(* ===== verification/LockUsers.v ===== *)
(** * LockUsers: processes that announce what they have locked

    A process of the agent takes exclusive locks on paths and then says so to the rest of the world: it prints an address, or starts
    a container with devices.  [LockUser] says which paths a question of a process announces, and which ends
    their use.  The rules here are those of [FsLocker.v] for such processes, and [users_exclusive] is what they give: two processes that are
    alive never have a path in use at the same time.  [AgentAllocate.v] and [Gpu.v] are instances. *)
From ITree Require Import ITree.
From S2P Require Import Prelude Errors Host FsLocker.

Open Scope string_scope.
Open Scope Z_scope.
Open Scope list_scope.

(** Which paths a question announces, and whether its answer ends the use of what was announced *)
Class LockUser (W : World) := {
  announces : question → list path;
  ends : ∀ q, answer q → bool
}.

Section Users.
Context {W : World} {U : LockUser W} (locker : FSLocker).

Definition announced (p : pid) (q : path) (m : machine) : Prop := ∃ x a, (p, Asked x a) ∈ m_trace m ∧ q ∈ announces x.
Definition ended (p : pid) (m : machine) : Prop := ∃ x a, (p, Asked x a) ∈ m_trace m ∧ ends x a = true.

(** What a process has announced it has locked, until it ends the use. *)
Definition keeps_locks (p : pid) (m : machine) : Prop :=
  ∀ q, announced p q m → ¬ ended p m → ∃ l f i, has_lock false p l f i LOCK_EX q m.

Lemma elem_of_trace p h m : (p, h) ∈ trace_of p m ↔ (p, h) ∈ m_trace m.
Proof. unfold trace_of. rewrite list_elem_of_filter. cbn. tauto. Qed.

Section One.
Context (p : pid).

Abbreviation WP := (wp p world (others locker false p) (promises locker false p) (keeps_locks p)).
Abbreviation moved := (moves locker false p).
Abbreviation lock := (has_lock false p).

(** Nothing was announced. *)
Definition calm (m : machine) : Prop := ∀ q, ¬ announced p q m.

Lemma announced_moves S q m m' : moved S m m' → announced p q m' → announced p q m.
Proof.
  intros Hm (x & a & Hx & Hq). exists x, a. split; [|done]. apply elem_of_trace in Hx. apply elem_of_trace. by rewrite <- (mv_trace _ _ _ _ _ _ Hm).
Qed.

Lemma ended_moves S m m' : moved S m m' → ended p m → ended p m'.
Proof.
  intros Hm (x & a & Hx & Hq). exists x, a. split; [|done]. apply elem_of_trace in Hx. apply elem_of_trace. by rewrite (mv_trace _ _ _ _ _ _ Hm).
Qed.

Lemma has_lock_moves (S : N → Prop) l f i how q m m' : moved S m m' → ¬ S l → ¬ S f → lock l f i how q m → lock l f i how q m'.
Proof.
  intros Hm Hl Hf (H1 & H2 & H3). split_and!.
  - by rewrite (mv_locks _ _ _ _ _ _ Hm l Hl).
  - unfold has_file. by rewrite (mv_files _ _ _ _ _ _ Hm f Hf).
  - intros E. by apply (mv_names _ _ _ _ _ _ Hm), H3.
Qed.

(** ** Frames *)

(** What a question does to the trace *)
Definition after (q : question) (a : answer q) (m : machine) : machine := with_trace m ((p, Asked q a) :: m_trace m).

Lemma announced_after q x a m : announced p q (after x a m) → q ∈ announces x ∨ announced p q m.
Proof.
  intros (y & b & [Hy|Hy]%elem_of_cons & Hq); [left | right; by exists y, b].
  apply (f_equal (λ e : pid * happening, match e.2 with Asked z _ => announces z | _ => [] end)) in Hy. cbn in Hy. by rewrite <- Hy.
Qed.

(** An assertion about what is below [n], which questions that announce nothing do not affect either *)
Record above (n : N) (C : machine → Prop) : Prop := {
  ab_frame : frame locker false p (keeps_locks p) (λ s, (n ≤ s)%N) C;
  ab_ask : ∀ q a m, announces q = [] → C m → C (after q a m);
  ab_next : ∀ m, C m → (n ≤ m_next m)%N
}.

Lemma frame_calm S : frame locker false p (keeps_locks p) S calm.
Proof.
  split.
  - intros m1 m2 HC HR q Hq. apply (HC q). eapply announced_moves; [apply HR | done].
  - intros m1 m2 HC HM _ q Hq. apply (HC q). by eapply announced_moves.
  - intros m HC q Hq. by destruct (HC q).
Qed.

Lemma above_calm n : above n (λ m, calm m ∧ (n ≤ m_next m)%N).
Proof.
  split.
  - apply frame_next, frame_calm.
  - intros x a m Hx [HC Hn]. split; [|done]. intros q [Hq|Hq]%announced_after; [rewrite Hx in Hq; by apply elem_of_nil in Hq | by apply (HC q)].
  - by intros m [_ Hn].
Qed.

Lemma frame_ended S : frame locker false p (keeps_locks p) S (ended p).
Proof.
  split.
  - intros m1 m2 HC HR. eapply ended_moves; [apply HR | done].
  - intros m1 m2 HC Hm _. by eapply ended_moves.
  - by intros m HC q _ Hn.
Qed.

(** A lock that is kept while more is done *)
Lemma above_lock n n' C l f i how q : above n C → (n ≤ n')%N → (l < n')%N → (f < n')%N →
  above n' (λ m, (C m ∧ lock l f i how q m) ∧ (n' ≤ m_next m)%N).
Proof.
  intros [HF HA HN] Hn Hl Hf. split.
  - apply frame_next, frame_has_lock; [|lia..]. eapply frame_weaken, HF. intros s Hs. cbn in *. lia.
  - intros q' a m Hq [[HC Hlk] Hn']. split; [|done]. split; [by apply HA | done].
  - by intros m [_ Hn'].
Qed.

Lemma keep_lock n C l f i how q m : above n C → C m → (l < m_next m)%N → (f < m_next m)%N → lock l f i how q m →
  above (m_next m) (λ m', (C m' ∧ lock l f i how q m') ∧ (m_next m ≤ m_next m')%N) ∧ ((C m ∧ lock l f i how q m) ∧ (m_next m ≤ m_next m)%N).
Proof. intros HC Hm Hl Hf Hlk. split; [by apply (above_lock n); [|apply (ab_next _ _ HC)|..] | split; [done | lia]]. Qed.

(** ** Rules *)

Lemma ask_spec n k0 C q {B} (k : answer q → prog B) Q m : above n C → C m → announces q = [] →
  (∀ a m', C m' → WP false k0 (k a) Q m') → WP false k0 (sys (Ask q) ≫= k) Q m.
Proof.
  intros HC Hm Hq Hk. apply wp_down, prog_call. intros m1 HW1 HR1. pose proof (fr_others _ _ _ _ _ _ (ab_frame _ _ HC) _ _ Hm HR1) as Hm1.
  split_and!; [by apply (fr_I _ _ _ _ _ _ (ab_frame _ _ HC)) | done|].
  intros o a m2 Hh _. cbn in Hh. injection Hh as <- <-. apply Hk. by apply (ab_ask _ _ HC q).
Qed.

Lemma above_ret n k0 C {A} (a : A) Q m : above n C → C m → (∀ m', C m' → others locker false p m m' → Q a m') → WP false k0 (mret a) Q m.
Proof. intros HC Hm HQ. by eapply ret_spec; [apply (ab_frame _ _ HC)| |]. Qed.

Lemma above_quiet n C : above n C → frame locker false p (keeps_locks p) (λ _, False) C.
Proof. intros HC. by eapply frame_quiet, (ab_frame _ _ HC). Qed.

Lemma Lock_spec n k0 C c how path d m : above n C → C m →
  WP false k0 (doLock locker c how path (Some d)) (λ r m', C m' ∧ lock_made false p n how (Join (locker_path locker) path) r m') m.
Proof. intros HC Hm. apply doLock_spec; [apply (ab_frame _ _ HC) | done | by apply (ab_next _ _ HC)]. Qed.

Lemma Unlock_above n k0 C l f i how q m : above n C → C m → (n ≤ l)%N → (n ≤ f)%N → lock l f i how q m → WP false k0 (Unlock l) (λ _, C) m.
Proof.
  intros HC Hm Hl Hf (Hlk & _). eapply Unlock_spec; [apply (ab_frame _ _ HC) | done | done|]. intros f' Hf'. by simplify_eq/=.
Qed.

(** The lock [l] is exclusive, on [q], and made of objects with numbers from [n]. *)
Definition taken (n : N) (q : path) (l : ref) (m : machine) : Prop :=
  ∃ f i, (n ≤ l < m_next m)%N ∧ (n ≤ f < m_next m)%N ∧ lock l f i LOCK_EX q m.

Lemma taken_moves (S : N → Prop) n q l m m' : moved S m m' → (∀ s, (n ≤ s)%N → ¬ S s) → taken n q l m → taken n q l m'.
Proof.
  intros Hm HS (f & i & Hl & Hf & Hlk). pose proof (mv_next _ _ _ _ _ _ Hm). exists f, i. split_and!; [lia..|].
  eapply has_lock_moves; [done | apply HS; lia | apply HS; lia | done].
Qed.

Lemma taken_mono n n' q l m : (n ≤ n')%N → taken n' q l m → taken n q l m.
Proof. intros Hn (f & i & Hl & Hf & Hlk). exists f, i. split_and!; [lia.. | done]. Qed.

(** An exclusive lock that was just made *)
Lemma made_taken n q l m : lock_made false p n LOCK_EX q (inr l) m → taken n q l m.
Proof. intros (f & i & Hl & Hf & _ & Hlk). by exists f, i. Qed.

Lemma Unlock_taken n k0 C q l m : above n C → C m → taken n q l m → WP false k0 (Unlock l) (λ _, C) m.
Proof. intros HC Hm (f & i & Hl & Hf & Hlk). eapply (Unlock_above n _ C l f); [done | done | lia | lia | done]. Qed.
End One.

(** Processes that run well have no path in common. *)
Lemma users_exclusive m ps ls s p p' q :
  world m → m_trace m = [] → (∀ p t, (p, t) ∈ ps → ∀ m, calm p m → runs_well world (others locker false) (promises locker false) keeps_locks p m t) →
  sys_run ls (boot m ps) = Some s → is_Some (sys_threads s !! p) → is_Some (sys_threads s !! p') → p ≠ p' →
  announced p q (sys_m s) → announced p' q (sys_m s) → ¬ ended p (sys_m s) → ¬ ended p' (sys_m s) → False.
Proof.
  intros HW Htr Hps Hrun [th Hp] [th' Hp'] Hne Ha Ha' He He'.
  assert (sys_ok world (others locker false) (promises locker false) keeps_locks s) as Hok.
  { eapply sys_ok_steps; [apply locker_fits| |done]. apply sys_ok_boot; [done|]. intros p0 t Hin. apply Hps; [done|].
    intros q0 (x & a & Hx & _). rewrite Htr in Hx. by apply elem_of_nil in Hx. }
  pose proof (sys_ok_I _ _ _ _ (locker_fits _ _) s p th Hok Hp q Ha He) as (l1 & f1 & i1 & _ & Hf1 & Hn1).
  pose proof (sys_ok_I _ _ _ _ (locker_fits _ _) s p' th' Hok Hp' q Ha' He') as (l2 & f2 & i2 & _ & Hf2 & Hn2).
  specialize (Hn1 eq_refl). specialize (Hn2 eq_refl). rewrite Hn1 in Hn2. injection Hn2 as <-.
  assert (Some LOCK_EX = None) as E; [|done].
  apply (w_excl _ (ok_world _ _ _ _ _ Hok) (p, f1) (p', f2) _ _ Hf1 Hf2); [congruence | done | done].
Qed.
End Users.
