(* ===== verification/Limits.v ===== *)
(** * Limits: what an instance type allows

    Models [vpc/limits.go]: the table of instance families and sizes, and the
    functions that look an instance type such as ["m5.4xlarge"] up in it. *)
From S2P Require Import Prelude Errors.

Open Scope string_scope.
Open Scope Z_scope.
Open Scope list_scope.

Record limits := Limits {
  interfaces : Z;
  ipAddressesPerInterface : Z;
  networkThroughput : Z;
  branchENIs : Z
}.

#[export] Instance limits_eq_dec : EqDecision limits.
Proof. solve_decision. Defined.

Definition interfaceLimits : list (string * list (string * limits)) := [
  ("g4dn", [
    ("xlarge", Limits 3 10 5000 10);
    ("2xlarge", Limits 3 10 10000 20);
    ("4xlarge", Limits 3 10 20000 60);
    ("8xlarge", Limits 4 15 50000 60);
    ("12xlarge", Limits 8 30 50000 60);
    ("16xlarge", Limits 15 50 50000 120);
    ("metal", Limits 15 50 100000 120)]);
  ("m4", [
    ("large", Limits 2 10 100 0);
    ("xlarge", Limits 4 15 1000 0);
    ("2xlarge", Limits 4 15 1000 0);
    ("4xlarge", Limits 8 30 2000 0);
    ("10xlarge", Limits 8 30 10000 0);
    ("16xlarge", Limits 8 30 23000 0)]);
  ("m5", [
    ("large", Limits 3 10 100 10);
    ("xlarge", Limits 4 15 1000 20);
    ("2xlarge", Limits 4 15 1000 40);
    ("4xlarge", Limits 8 30 2000 60);
    ("12xlarge", Limits 8 30 10000 60);
    ("24xlarge", Limits 15 50 23000 120);
    ("metal", Limits 12 50 25000 120)]);
  ("r4", [
    ("large", Limits 3 10 1000 0);
    ("xlarge", Limits 4 15 1000 0);
    ("2xlarge", Limits 4 15 2000 0);
    ("4xlarge", Limits 8 30 4000 0);
    ("8xlarge", Limits 8 30 9000 0);
    ("16xlarge", Limits 15 24 23000 0)]);
  ("r5", [
    ("large", Limits 3 10 1000 10);
    ("xlarge", Limits 4 15 1000 20);
    ("2xlarge", Limits 4 15 2000 40);
    ("4xlarge", Limits 8 30 4000 60);
    ("12xlarge", Limits 8 30 9000 60);
    ("24xlarge", Limits 15 50 23000 120);
    ("metal", Limits 12 50 25000 120)]);
  ("p2", [
    ("xlarge", Limits 4 15 2000 0);
    ("8xlarge", Limits 8 30 6000 0);
    ("16xlarge", Limits 8 30 20000 0)]);
  ("p3", [
    ("2xlarge", Limits 4 15 2000 40);
    ("8xlarge", Limits 8 30 10000 40);
    ("16xlarge", Limits 8 30 25000 40)]);
  ("c5", [
    ("large", Limits 3 10 1000 0);
    ("xlarge", Limits 4 15 2000 0);
    ("2xlarge", Limits 4 15 2000 0);
    ("4xlarge", Limits 4 30 4000 0);
    ("9xlarge", Limits 4 30 10000 0);
    ("18xlarge", Limits 4 50 23000 0)])
].

(** Looking a key up in a Go map literal. *)
Definition map_get {A} (k : string) (l : list (string * A)) : option A :=
  snd <$> List.find (λ e, bool_decide (e.1 = k)) l.

(** [This function will panic if the instance type is unknown], says its comment;
    it panics when there is no dot and returns an error otherwise. *)
Definition getLimits (instanceType : string) : res error limits :=
  match strings_Split instanceType "." with
  | family :: subtype :: _ =>
      match map_get family interfaceLimits with
      | None => Fail (EString "Unknown family")
      | Some subtypes =>
          match map_get subtype subtypes with
          | None => Fail (EString "Unknown subtype for family")
          | Some l => Ok l
          end
      end
  | _ => Panic "index out of range"
  end.

Definition res_map {Er A B} (f : A → B) (r : res Er A) : res Er B :=
  match r with Ok a => Ok (f a) | Fail e => Fail e | Panic s => Panic s end.

Definition mustGetLimits (instanceType : string) : res error limits :=
  match getLimits instanceType with
  | Fail e => Panic (Error e)
  | r => r
  end.

Definition GetMaxInterfaces (t : string) : res error Z := res_map interfaces (getLimits t).
Definition GetMaxIPAddresses (t : string) : res error Z := res_map ipAddressesPerInterface (getLimits t).
Definition GetMaxNetworkMbps (t : string) : res error Z := res_map networkThroughput (getLimits t).

Definition uint64 (n : Z) : Z := n mod 2 ^ 64.

Definition GetMaxNetworkbps (t : string) : res error Z :=
  res_map (λ mbps, uint64 (uint64 (uint64 mbps * 1000) * 1000)) (GetMaxNetworkMbps t).

Definition GetMaxBranchENIs (t : string) : res error Z :=
  match getLimits t with
  | Ok l =>
      if branchENIs l =? 0 then Fail (EString "Instance type does not support branch ENIs")
      else Ok (branchENIs l)
  | Fail e => Fail e
  | Panic s => Panic s
  end.

Definition MustGetMaxBranchENIs (t : string) : res error Z :=
  match GetMaxBranchENIs t with Fail e => Panic (Error e) | r => r end.

Definition MustGetMaxInterfaces (t : string) : res error Z := res_map interfaces (mustGetLimits t).
Definition MustGetMaxIPAddresses (t : string) : res error Z := res_map ipAddressesPerInterface (mustGetLimits t).
Definition MustGetMaxNetworkMbps (t : string) : res error Z := res_map networkThroughput (mustGetLimits t).
Definition MustGetMaxNetworkbps (t : string) : res error Z :=
  res_map (λ mbps, uint64 (uint64 (uint64 mbps * 1000) * 1000)) (MustGetMaxNetworkMbps t).

(** ** Every entry of the table is found under its name *)

Definition instance_types : list (string * limits) :=
  interfaceLimits ≫= λ '(family, subtypes), (λ '(subtype, l), (family +:+ "." +:+ subtype, l)) <$> subtypes.

Lemma map_get_elem {A} k (l : list (string * A)) a : map_get k l = Some a → (k, a) ∈ l.
Proof.
  unfold map_get. destruct (List.find _ _) as [[k' a']|] eqn:E; [|done]. intros [= ->].
  apply List.find_some in E as [Hin%list_elem_of_In Hk%bool_decide_eq_true]. simpl in Hk. by subst.
Qed.

Lemma getLimits_in_table t l : getLimits t = Ok l → ∃ n, (n, l) ∈ instance_types.
Proof.
  unfold getLimits. destruct (strings_Split t ".") as [|f [|s r]]; [done..|].
  destruct (map_get f _) as [subs|] eqn:E1; [|done]. destruct (map_get s subs) as [l'|] eqn:E2; [|done].
  intros [= ->]. apply map_get_elem in E1, E2. exists (f +:+ "." +:+ s). apply list_elem_of_bind.
  exists (f, subs). split; [|done]. apply list_elem_of_fmap. by exists (s, l).
Qed.

Definition sensible (l : limits) : bool :=
  (0 <? interfaces l) && (0 <? ipAddressesPerInterface l) && (0 <? networkThroughput l)
  && (networkThroughput l <=? 100000) && (0 <=? branchENIs l).

Lemma getLimits_sensible t l : getLimits t = Ok l → sensible l = true.
Proof.
  intros (n & Hn)%getLimits_in_table.
  assert (forallb (λ e, sensible e.2) instance_types = true) as H by by vm_compute.
  rewrite List.forallb_forall in H. apply list_elem_of_In in Hn. by apply (H _ Hn).
Qed.

(** Looking an instance type up finds its entry of the
    table, for every entry: the names of families and sizes are distinct and
    have no dot. *)
Theorem getLimits_table : Forall (λ '(name, l), getLimits name = Ok l) instance_types.
Proof.
  apply Forall_forall. intros [n l] Hn.
  assert (forallb (λ '(name, l), match getLimits name with
                                 | Ok l' => bool_decide (l' = l) | _ => false end) instance_types = true) as H.
  { by vm_compute. }
  rewrite List.forallb_forall in H. apply list_elem_of_In in Hn. specialize (H _ Hn). simpl in H.
  destruct (getLimits n); [|done..]. apply bool_decide_eq_true in H. by subst.
Qed.

(** The conversion to bits per second in 64-bit
    arithmetic never wraps. *)
Theorem GetMaxNetworkbps_exact t mbps :
  GetMaxNetworkMbps t = Ok mbps → GetMaxNetworkbps t = Ok (mbps * 1000000).
Proof.
  unfold GetMaxNetworkbps. intros H. rewrite H. simpl. unfold GetMaxNetworkMbps in H.
  destruct (getLimits t) as [l|e|s] eqn:E; [|done..]. injection H as <-.
  apply getLimits_sensible in E. unfold sensible in E.
  rewrite !andb_true_iff, !Z.ltb_lt, !Z.leb_le in E. destruct E as [[[[_ _] ?] ?] _].
  f_equal. unfold uint64. rewrite (Z.mod_small (networkThroughput l)) by lia.
  rewrite (Z.mod_small (networkThroughput l * 1000)) by lia. rewrite Z.mod_small by lia. lia.
Qed.
