(* ===== verification/NetIP.v ===== *)
(** * NetIP: the addresses of Go's package net

    What the service uses of [net.IP]: [ParseIP], [IP.String] and [IP.To4].  An address
    that is not nil is its eight groups of 16 bits; an IPv4 address is the one that
    is mapped to it.  Printing and parsing give an address back, so that
    [net.ParseIP(s).String()] is a canonical form. *)
From S2P Require Import Prelude.

Open Scope string_scope.
Open Scope N_scope.
Open Scope list_scope.

Definition IP := list N.

(** ** Parsing *)

Definition big : N := 0xFFFFFF.

Definition hex_digit (c : ascii) : option N :=
  let n := N_of_ascii c in
  if (48 <=? n) && (n <=? 57) then Some (n - 48)
  else if (97 <=? n) && (n <=? 102) then Some (n - 97 + 10)
  else if (65 <=? n) && (n <=? 70) then Some (n - 65 + 10)
  else None.

(** The loop of [dtoi] and [xtoi]: the number and what follows it *)
Fixpoint scan_number (base : N) (digit : ascii → option N) (acc : N) (s : string) : option (N * string) :=
  match s with
  | EmptyString => Some (acc, EmptyString)
  | String c s' =>
      match digit c with
      | Some d => let n := acc * base + d in if big <=? n then None else scan_number base digit n s'
      | None => Some (acc, s)
      end
  end.

(** At least one digit is needed. *)
Definition to_number (base : N) (digit : ascii → option N) (s : string) : option (N * string) :=
  match s with
  | String c _ => match digit c with Some _ => scan_number base digit 0 s | None => None end
  | EmptyString => None
  end.

Definition dtoi : string → option (N * string) := to_number 10 digit.
Definition xtoi : string → option (N * string) := to_number 16 hex_digit.

Definition octet (s : string) : option (N * string) :=
  '(n, s) ← dtoi s;
  if 0xFF <? n then None else Some (n, s).

Definition skip_char (c : ascii) (s : string) : option string :=
  match s with
  | String c' s => if ascii_dec c' c then Some s else None
  | EmptyString => None
  end.

Definition parse_octets (s : string) : option (N * N * N * N) :=
  '(a, s) ← octet s; s ← skip_char "." s;
  '(b, s) ← octet s; s ← skip_char "." s;
  '(c, s) ← octet s; s ← skip_char "." s;
  '(d, s) ← octet s;
  match s with EmptyString => Some (a, b, c, d) | _ => None end.

Definition IPv4 (a b c d : N) : IP := [0; 0; 0; 0; 0; 0xFFFF; a * 256 + b; c * 256 + d].

Definition parseIPv4 (s : string) : option IP := '(a, b, c, d) ← parse_octets s; Some (IPv4 a b c d).

(** The loop of [parseIPv6]: the groups so far, where the ellipsis is, and what is left of the string *)
Fixpoint v6_loop (room : nat) (gs : list N) (ellipsis : option nat) (s : string) : option (list N * option nat * string) :=
  match room with
  | O => Some (gs, ellipsis, s)
  | S room =>
      '(n, rest) ← xtoi s;
      if 0xFFFF <? n then None
      else match rest with
      | EmptyString => Some (gs ++ [n], ellipsis, EmptyString)
      | String c s1 =>
          if ascii_dec c "." then
            if bool_decide (ellipsis = None) && negb (length gs =? 6)%nat then None
            else if (8 <? length gs + 2)%nat then None
            else '(a, b, c, d) ← parse_octets s; Some (gs ++ [a * 256 + b; c * 256 + d], ellipsis, EmptyString)
          else if ascii_dec c ":" then
            match s1 with
            | EmptyString => None
            | String c s2 =>
                if ascii_dec c ":" then
                  match ellipsis, s2 with
                  | Some _, _ => None
                  | None, EmptyString => Some (gs ++ [n], Some (length (gs ++ [n])), EmptyString)
                  | None, _ => v6_loop room (gs ++ [n]) (Some (length (gs ++ [n]))) s2
                  end
                else v6_loop room (gs ++ [n]) ellipsis s1
            end
          else None
      end
  end.

(** The ellipsis stands for at least one group of zeros. *)
Definition expand (gs : list N) (ellipsis : option nat) : option IP :=
  match ellipsis with
  | None => if (length gs <? 8)%nat then None else Some gs
  | Some e => if (length gs <? 8)%nat then Some (take e gs ++ replicate (8 - length gs) 0 ++ drop e gs) else None
  end.

Definition finish_v6 (r : option (list N * option nat * string)) : option IP :=
  match r with
  | Some (gs, ellipsis, EmptyString) => expand gs ellipsis
  | _ => None
  end.

Definition parseIPv6 (s : string) : option IP :=
  match skip_char ":" s ≫= skip_char ":" with
  | Some EmptyString => Some (replicate 8 0)
  | Some s => finish_v6 (v6_loop 8 [] (Some 0%nat) s)
  | None => finish_v6 (v6_loop 8 [] None s)
  end.

(** Whether a dot comes before any colon, or a colon before any dot *)
Fixpoint dot_first (s : string) : option bool :=
  match s with
  | EmptyString => None
  | String c s => if ascii_dec c "." then Some true else if ascii_dec c ":" then Some false else dot_first s
  end.

Definition ParseIP (s : string) : option IP :=
  match dot_first s with
  | Some true => parseIPv4 s
  | Some false => parseIPv6 s
  | None => None
  end.

(** ** Printing *)

Definition To4 (ip : IP) : option (N * N * N * N) :=
  match ip with
  | [0; 0; 0; 0; 0; 0xFFFF; h; l] => Some (h / 256, h mod 256, l / 256, l mod 256)
  | _ => None
  end.

Fixpoint leading_zeros (gs : list N) : nat :=
  match gs with
  | 0 :: gs => S (leading_zeros gs)
  | _ => 0
  end.

(** The longest run of zeros: where it begins and its length.  The loop goes on one group
    behind a run that is the longest so far. *)
Fixpoint longest_run (fuel i : nat) (gs : list N) (best : nat * nat) : nat * nat :=
  match fuel, gs with
  | S fuel, _ :: _ =>
      let k := leading_zeros gs in
      if (best.2 <? k)%nat then longest_run fuel (i + k + 1) (drop (k + 1) gs) (i, k)
      else longest_run fuel (i + 1) (drop 1 gs) best
  | _, _ => best
  end.

Definition hexDigit (n : N) : ascii := ascii_of_N (if n <? 10 then 48 + n else 87 + n).

(** Leading zeros are not printed. *)
Fixpoint hex_digits (j : nat) (n : N) : string :=
  match j with
  | O => EmptyString
  | S j =>
      let v := N.shiftr n (4 * N.of_nat j) in
      if 0 <? v then String (hexDigit (v mod 16)) (hex_digits j n) else hex_digits j n
  end.

Definition appendHex (n : N) : string := if n =? 0 then "0" else hex_digits 8 n.

Fixpoint print_groups (gs : list N) : string :=
  match gs with
  | [] => EmptyString
  | [g] => appendHex g
  | g :: gs => appendHex g +:+ ":" +:+ print_groups gs
  end.

Definition print_v6 (ip : IP) : string :=
  let (e, k) := longest_run 8 0 ip (0%nat, 0%nat) in
  if (k <=? 1)%nat then print_groups ip
  else print_groups (take e ip) +:+ "::" +:+ print_groups (drop (e + k) ip).

(** [IP.String]; nil prints as well. *)
Definition IP_String (ip : option IP) : string :=
  match ip with
  | None => "<nil>"
  | Some ip =>
      match To4 ip with
      | Some (a, b, c, d) => pretty a +:+ "." +:+ pretty b +:+ "." +:+ pretty c +:+ "." +:+ pretty d
      | None => print_v6 ip
      end
  end.

(** [ip.To4() == nil], also for nil *)
Definition is_v4 (ip : option IP) : bool := match ip with Some ip => bool_decide (is_Some (To4 ip)) | None => false end.

(** [net.ParseIP(s).String()] *)
Definition canonical (s : string) : string := IP_String (ParseIP s).

Example canonical_v4 : canonical "010.1.02.3" = "10.1.2.3".
Proof. reflexivity. Qed.

Example canonical_v6 : canonical "2001:0DB8:0:0:1:0:0:0" = "2001:db8:0:0:1::".
Proof. reflexivity. Qed.

Example canonical_mapped : canonical "::ffff:10.0.0.1" = "10.0.0.1".
Proof. reflexivity. Qed.

Example canonical_bad : canonical "1.2.3" = "<nil>".
Proof. reflexivity. Qed.

(** ** Numbers *)

(** A string does not go on with a digit. *)
Definition ends_number (digit : ascii → option N) (s : string) : Prop :=
  match s with String c _ => digit c = None | EmptyString => True end.

Section Numbers.
Context (base : N) (digit : ascii → option N).

Lemma scan_number_app acc s n rest :
  scan_number base digit acc s = Some (n, "") → ends_number digit rest → scan_number base digit acc (s +:+ rest) = Some (n, rest).
Proof.
  revert acc. induction s as [|c s IH]; intros acc H Hr; simpl in *.
  - injection H as ->. destruct rest as [|c rest]; simpl in *; [done | by rewrite Hr].
  - destruct (digit c); [|done]. destruct (big <=? _); [done | by apply IH].
Qed.

Lemma to_number_app s n rest :
  to_number base digit s = Some (n, "") → ends_number digit rest → to_number base digit (s +:+ rest) = Some (n, rest).
Proof.
  intros H Hr. unfold to_number in *. destruct s as [|c s]; [done|]. destruct (digit c) eqn:E; [|done].
  apply (scan_number_app _ _ _ rest) in H; [|done]. simpl in *. by rewrite E in *.
Qed.

(** A number has no separators. *)
Lemma dot_first_number s n t :
  digit "."%char = None → digit ":"%char = None → to_number base digit s = Some (n, "") → dot_first (s +:+ t) = dot_first t.
Proof.
  intros Hdot Hcolon H. assert (∃ acc, scan_number base digit acc s = Some (n, "")) as [acc H'].
  { unfold to_number in H. destruct s as [|c s]; [done|]. destruct (digit c); [eauto | done]. }
  clear H. revert acc H'. induction s as [|c s IH]; intros acc H; simpl in *; [done|].
  destruct (digit c) eqn:E; [|done]. destruct (ascii_dec c ".") as [->|]; [congruence|]. destruct (ascii_dec c ":") as [->|]; [congruence|].
  destruct (big <=? _); [done | by eapply IH].
Qed.
End Numbers.

(** Bytes, and the words that two of them make *)
Definition bytes : list N := N.of_nat <$> seq 0 256.

Lemma elem_of_bytes n : n < 256 → n ∈ bytes.
Proof. intros H. apply list_elem_of_fmap. exists (N.to_nat n). split; [lia|]. apply elem_of_seq. lia. Qed.

Lemma dtoi_bytes : forallb (λ n, bool_decide (dtoi (pretty n) = Some (n, ""))) bytes = true.
Proof. vm_compute. reflexivity. Qed.

Lemma xtoi_words : forallb (λ h, forallb (λ l, bool_decide (xtoi (appendHex (256 * h + l)) = Some (256 * h + l, ""))) bytes) bytes = true.
Proof. vm_compute. reflexivity. Qed.

Lemma dtoi_pretty n : n < 256 → dtoi (pretty n) = Some (n, "").
Proof.
  intros H. pose proof dtoi_bytes as Hall. rewrite List.forallb_forall in Hall.
  eapply bool_decide_eq_true_1, Hall, list_elem_of_In, elem_of_bytes, H.
Qed.

Lemma xtoi_appendHex n : n < 65536 → xtoi (appendHex n) = Some (n, "").
Proof.
  intros H. pose proof xtoi_words as Hall. rewrite List.forallb_forall in Hall.
  assert (n / 256 < 256) as Hh by (apply N.Div0.div_lt_upper_bound; lia).
  assert (n mod 256 < 256) as Hl by (apply N.mod_lt; lia).
  specialize (Hall (n / 256) (proj1 (list_elem_of_In _ _) (elem_of_bytes _ Hh))). rewrite List.forallb_forall in Hall.
  specialize (Hall (n mod 256) (proj1 (list_elem_of_In _ _) (elem_of_bytes _ Hl))).
  apply bool_decide_eq_true in Hall. by rewrite <- N.div_mod in Hall.
Qed.

Lemma octet_pretty n rest : n < 256 → ends_number digit rest → octet (pretty n +:+ rest) = Some (n, rest).
Proof.
  intros Hn Hr. unfold octet, dtoi. rewrite (to_number_app _ _ _ n) by (done || by apply dtoi_pretty). simpl.
  destruct (N.ltb_spec 0xFF n); [lia | done].
Qed.

Lemma xtoi_print n rest : n < 65536 → ends_number hex_digit rest → xtoi (appendHex n +:+ rest) = Some (n, rest).
Proof. intros Hn Hr. apply to_number_app; [by apply xtoi_appendHex | done]. Qed.

(** ** Printing and parsing *)

Definition valid (ip : IP) : Prop := length ip = 8%nat ∧ Forall (λ g, g < 65536) ip.

Lemma string_app_nil s : s +:+ "" = s.
Proof. induction s as [|c s IH]; [done|]. exact (f_equal (String c) IH). Qed.

Lemma string_app_assoc s t u : (s +:+ t) +:+ u = s +:+ (t +:+ u).
Proof. induction s as [|c s IH]; [done|]. exact (f_equal (String c) IH). Qed.

Lemma appendHex_head n : n < 65536 → ∃ c s, appendHex n = String c s ∧ is_Some (hex_digit c).
Proof.
  intros H%xtoi_appendHex. destruct (appendHex n) as [|c s]; [done|]. exists c, s. split; [done|].
  unfold xtoi, to_number in H. destruct (hex_digit c); [eauto | done].
Qed.

Lemma print_groups_cons g gs : gs ≠ [] → print_groups (g :: gs) = appendHex g +:+ String ":" (print_groups gs).
Proof. by destruct gs. Qed.

Lemma print_groups_head gs : gs ≠ [] → Forall (λ g, g < 65536) gs → ∃ c s, print_groups gs = String c s ∧ is_Some (hex_digit c).
Proof.
  intros Hne Hall. destruct gs as [|g gs]; [done|]. apply Forall_cons in Hall as [Hg _].
  destruct (appendHex_head g Hg) as (c & s & E & Hc). destruct gs as [|g' gs]; [simpl; eauto|].
  rewrite print_groups_cons, E by done. simpl. eauto.
Qed.

Lemma hex_not_colon c : is_Some (hex_digit c) → c ≠ ":"%char.
Proof. intros [n H] ->. done. Qed.

(** One turn of the loop *)
Lemma v6_loop_step room gs e g rest :
  g < 65536 → ends_number hex_digit rest →
  v6_loop (S room) gs e (appendHex g +:+ rest) =
    match rest with
    | EmptyString => Some (gs ++ [g], e, EmptyString)
    | String c s1 =>
        if ascii_dec c "." then
          if bool_decide (e = None) && negb (length gs =? 6)%nat then None
          else if (8 <? length gs + 2)%nat then None
          else '(a, b, c, d) ← parse_octets (appendHex g +:+ rest); Some (gs ++ [a * 256 + b; c * 256 + d], e, EmptyString)
        else if ascii_dec c ":" then
          match s1 with
          | EmptyString => None
          | String c s2 =>
              if ascii_dec c ":" then
                match e, s2 with
                | Some _, _ => None
                | None, EmptyString => Some (gs ++ [g], Some (length (gs ++ [g])), EmptyString)
                | None, _ => v6_loop room (gs ++ [g]) (Some (length (gs ++ [g]))) s2
                end
              else v6_loop room (gs ++ [g]) e s1
          end
        else None
    end.
Proof.
  intros Hg Hr. cbn [v6_loop]. rewrite (xtoi_print g rest Hg Hr). cbn. destruct (N.ltb_spec 65535 g); [lia | done].
Qed.

Lemma v6_loop_groups l room gs e :
  l ≠ [] → Forall (λ g, g < 65536) l → (length l ≤ room)%nat → v6_loop room gs e (print_groups l) = Some (gs ++ l, e, "").
Proof.
  revert room gs. induction l as [|g l IH]; intros [|room] gs Hne Hall Hlen; simpl in Hlen; try done; [lia|].
  apply Forall_cons in Hall as [Hg Hall]. destruct (decide (l = [])) as [->|Hl].
  - change (print_groups [g]) with (appendHex g). rewrite <- (string_app_nil (appendHex g)), v6_loop_step by done. done.
  - rewrite print_groups_cons, v6_loop_step by done.
    destruct (print_groups_head l Hl Hall) as (c & s & E & Hc%hex_not_colon). rewrite E. simpl.
    destruct (ascii_dec c ":"); [done|]. rewrite <- E, IH by (done || lia). by rewrite <- app_assoc.
Qed.

Lemma v6_loop_ellipsis l r room gs :
  l ≠ [] → Forall (λ g, g < 65536) l → Forall (λ g, g < 65536) r → (length l + length r ≤ room)%nat →
  v6_loop room gs None (print_groups l +:+ "::" +:+ print_groups r) = Some (gs ++ l ++ r, Some (length (gs ++ l)), "").
Proof.
  revert room gs. induction l as [|g l IH]; intros [|room] gs Hne Hall Hr Hlen; simpl in Hlen; try done; [lia|].
  apply Forall_cons in Hall as [Hg Hall]. destruct (decide (l = [])) as [->|Hl].
  - change (print_groups [g]) with (appendHex g). rewrite v6_loop_step by done. simpl.
    destruct (decide (r = [])) as [->|Hrne]; [done|]. destruct (print_groups_head r Hrne Hr) as (c & s & E & _). rewrite E. change ("" +:+ String c s) with (String c s). cbv iota.
    rewrite <- E, v6_loop_groups by (done || simpl in Hlen; lia). by rewrite <- app_assoc.
  - rewrite print_groups_cons, string_app_assoc, v6_loop_step by done.
    destruct (print_groups_head l Hl Hall) as (c & s & E & Hc%hex_not_colon).
    change (String ":" (print_groups l) +:+ "::" +:+ print_groups r) with (String ":" (print_groups l +:+ "::" +:+ print_groups r)).
    cbn [ascii_dec]. rewrite E. simpl. destruct (ascii_dec c ":"); [done|].
    change (String c (s +:+ String ":" (String ":" (print_groups r)))) with (String c s +:+ "::" +:+ print_groups r).
    rewrite <- E, IH by (done || lia). rewrite <- !app_assoc. done.
Qed.

(** A run of zeros of an address *)
Definition zero_run (ip : IP) (e k : nat) : Prop := ∃ l r, ip = l ++ replicate k 0 ++ r ∧ length l = e.

Lemma leading_zeros_run gs : ∃ r, gs = replicate (leading_zeros gs) 0 ++ r.
Proof. induction gs as [|[|g] gs [r IH]]; simpl; [by exists [] | exists r; simpl; by f_equal | by eexists]. Qed.

Lemma longest_run_zeros fuel ip i gs best :
  (∃ l, ip = l ++ gs ∧ length l = i) → zero_run ip best.1 best.2 →
  zero_run ip (longest_run fuel i gs best).1 (longest_run fuel i gs best).2.
Proof.
  revert i gs best. induction fuel as [|fuel IH]; intros i gs best (l & Hl & Hi) Hbest; [done|].
  destruct gs as [|g gs']; [done|]. set (gs := g :: gs') in *. cbn [longest_run]. fold gs.
  change (longest_run (S fuel) i gs best) with
    (let k := leading_zeros gs in
     if (best.2 <? k)%nat then longest_run fuel (i + k + 1) (drop (k + 1) gs) (i, k)
     else longest_run fuel (i + 1) (drop 1 gs) best). cbv zeta.
  destruct (leading_zeros_run gs) as [r Hr].
  assert (∀ k, (k ≤ length gs)%nat → ∃ l', ip = l' ++ drop k gs ∧ length l' = i + k)%nat as Hdrop.
  { intros k Hk. exists (l ++ take k gs). rewrite <- app_assoc, take_drop, length_app, length_take. split; [done | lia]. }
  assert (leading_zeros gs ≤ length gs)%nat as Hle by (rewrite Hr at 2; rewrite length_app, length_replicate; lia).
  assert (zero_run ip i (leading_zeros gs)) as Hrun by (exists l, r; rewrite <- Hr; done).
  destruct (best.2 <? leading_zeros gs)%nat eqn:E.
  - destruct (decide (leading_zeros gs + 1 ≤ length gs)%nat) as [Hlt|Hge].
    + apply IH; [|exact Hrun].
      destruct (Hdrop _ Hlt) as (l' & -> & Hlen). exists l'. split; [done | lia].
    + rewrite drop_ge by lia. destruct fuel; exact Hrun.
  - apply IH; [|done]. apply Hdrop. simpl. lia.
Qed.

Lemma print_v6_groups ip :
  print_v6 ip = print_groups ip ∨
  ∃ l k r, ip = l ++ replicate k 0 ++ r ∧ (1 < k)%nat ∧ print_v6 ip = print_groups l +:+ "::" +:+ print_groups r.
Proof.
  unfold print_v6. assert (zero_run ip 0 0) as H0 by (exists [], ip; split; reflexivity).
  pose proof (longest_run_zeros 8 ip 0 ip (0, 0)%nat (ex_intro _ [] (conj eq_refl eq_refl)) H0) as H.
  destruct (longest_run 8 0 ip (0, 0)%nat) as [e k]. destruct H as (l & r & Hip & Hl). simpl in *.
  destruct (Nat.leb_spec k 1); [by left | right]. exists l, k, r. split_and!; [done|done|].
  rewrite Hip, take_app_length', app_assoc, drop_app_length' by (rewrite ?length_app, ?length_replicate; lia). done.
Qed.

Lemma dot_first_hex g t : g < 65536 → dot_first (appendHex g +:+ t) = dot_first t.
Proof. intros H%xtoi_appendHex. by apply (dot_first_number 16 hex_digit _ g). Qed.

Lemma dot_first_dec n t : n < 256 → dot_first (pretty n +:+ t) = dot_first t.
Proof. intros H%dtoi_pretty. by apply (dot_first_number 10 digit _ n). Qed.

Lemma dot_first_groups l t : Forall (λ g, g < 65536) l → dot_first t = Some false → dot_first (print_groups l +:+ t) = Some false.
Proof.
  intros Hall Ht. destruct l as [|g l]; [done|]. apply Forall_cons in Hall as [Hg _]. destruct (decide (l = [])) as [->|Hl].
  - simpl. by rewrite dot_first_hex.
  - by rewrite print_groups_cons, string_app_assoc, dot_first_hex.
Qed.

(** Strings that do not begin with an ellipsis, and those that do *)
Lemma parseIPv6_plain s c s' : s = String c s' → c ≠ ":"%char → parseIPv6 s = finish_v6 (v6_loop 8 [] None s).
Proof. intros -> Hc. unfold parseIPv6. cbn [skip_char]. destruct (ascii_dec c ":"); done. Qed.

Lemma parseIPv6_ellipsis s c s' : s = String c s' → parseIPv6 ("::" +:+ s) = finish_v6 (v6_loop 8 [] (Some 0%nat) s).
Proof. intros ->. done. Qed.

(** A printed IPv6 address is parsed as such. *)
Lemma parseIPv6_print ip : valid ip → dot_first (print_v6 ip) = Some false ∧ parseIPv6 (print_v6 ip) = Some ip.
Proof.
  intros [Hlen Hall]. destruct (print_v6_groups ip) as [->|(l & k & r & Hip & Hk & ->)].
  - split.
    + destruct ip as [|g [|g' ip]]; [done|done|]. apply Forall_cons in Hall as [Hg _]. rewrite print_groups_cons by done.
      by rewrite dot_first_hex.
    + destruct (print_groups_head ip) as (c & s & E & Hc%hex_not_colon); [by intros ->|done|].
      rewrite (parseIPv6_plain _ _ _ E Hc), v6_loop_groups by (done || lia || by intros ->). simpl. by rewrite Hlen.
  - assert (length l + k + length r = 8)%nat as Hsum by (rewrite <- Hlen, Hip, !length_app, length_replicate; lia).
    rewrite Hip, !Forall_app in Hall. destruct Hall as (Hl & _ & Hr). split; [by apply dot_first_groups|].
    assert (∀ gs, gs = l ++ r → expand gs (Some (length l)) = Some ip) as Hexp.
    { intros gs ->. unfold expand. rewrite length_app. destruct (Nat.ltb_spec (length l + length r) 8); [|lia].
      rewrite take_app_length, drop_app_length, Hip. do 3 f_equal. f_equal. lia. }
    destruct (decide (l = [])) as [->|Hne].
    + destruct (decide (r = [])) as [->|Hrne].
      * change (parseIPv6 _) with (Some (replicate 8 0)). rewrite Hip. simpl. rewrite app_nil_r. simpl in Hsum. by replace k with 8%nat by lia.
      * destruct (print_groups_head r Hrne Hr) as (c & s & E & _).
        change (print_groups [] +:+ ?s) with s. rewrite (parseIPv6_ellipsis _ _ _ E), v6_loop_groups by (done || simpl in Hsum; lia). by apply Hexp.
    + destruct (print_groups_head l Hne Hl) as (c & s & E & Hc%hex_not_colon).
      rewrite (parseIPv6_plain _ c (s +:+ "::" +:+ print_groups r)), v6_loop_ellipsis by (done || lia || by rewrite E). by apply Hexp.
Qed.

Lemma skip_dot s : skip_char "." ("." +:+ s) = Some s.
Proof. done. Qed.

Lemma parse_octets_print a b c d :
  a < 256 → b < 256 → c < 256 → d < 256 →
  parse_octets (pretty a +:+ "." +:+ pretty b +:+ "." +:+ pretty c +:+ "." +:+ pretty d) = Some (a, b, c, d).
Proof.
  intros Ha Hb Hc Hd. unfold parse_octets.
  do 3 (rewrite octet_pretty by done; cbn [mbind option_bind]; rewrite skip_dot; cbn [mbind option_bind]).
  rewrite <- (string_app_nil (pretty d)), octet_pretty by done. done.
Qed.

Lemma To4_Some ip a b c d :
  valid ip → To4 ip = Some (a, b, c, d) → ip = IPv4 a b c d ∧ a < 256 ∧ b < 256 ∧ c < 256 ∧ d < 256.
Proof.
  intros [Hlen Hall] H. unfold To4 in H. do 9 (destruct ip as [|? ip]; try done).
  repeat match goal with H : context [match ?x with _ => _ end] |- _ => is_var x; destruct x; try done end.
  injection H as <- <- <- <-. repeat (apply Forall_cons in Hall as [? Hall]).
  split_and!; [|apply N.Div0.div_lt_upper_bound; lia|apply N.mod_lt; lia|apply N.Div0.div_lt_upper_bound; lia|apply N.mod_lt; lia].
  unfold IPv4. rewrite !(N.mul_comm _ 256), <- !N.div_mod by done. done.
Qed.

(** Printing and parsing give an address back. *)
Lemma ParseIP_String ip : valid ip → ParseIP (IP_String (Some ip)) = Some ip.
Proof.
  intros Hv. simpl. unfold ParseIP. destruct (To4 ip) as [[[[a b] c] d]|] eqn:E.
  - destruct (To4_Some _ _ _ _ _ Hv E) as (-> & Ha & Hb & Hc & Hd). rewrite dot_first_dec by done. simpl.
    unfold parseIPv4. by rewrite parse_octets_print.
  - destruct (parseIPv6_print ip Hv) as [-> ->]. done.
Qed.

(** ** What is parsed is valid *)

Lemma octet_bound s n rest : octet s = Some (n, rest) → n < 256.
Proof.
  unfold octet. destruct (dtoi s) as [[m r]|]; [|done]. simpl. destruct (N.ltb_spec 255 m); [done|]. intros [= <- _]. lia.
Qed.

Lemma parse_octets_bound s a b c d : parse_octets s = Some (a, b, c, d) → a < 256 ∧ b < 256 ∧ c < 256 ∧ d < 256.
Proof.
  unfold parse_octets. intros H.
  repeat match type of H with
  | (octet ?s ≫= _) = _ => let E := fresh "E" in destruct (octet s) as [[? ?]|] eqn:E; [|done]; apply octet_bound in E; cbn in H
  | (skip_char ?c ?s ≫= _) = _ => destruct (skip_char c s) as [?|]; [|done]; cbn in H
  end.
  match type of H with match ?s with _ => _ end = _ => destruct s; [|done] end. by simplify_eq.
Qed.

Lemma word_bound a b : a < 256 → b < 256 → a * 256 + b < 65536.
Proof. lia. Qed.

Lemma v6_loop_bound room gs e s gs' e' s' :
  v6_loop room gs e s = Some (gs', e', s') → (room + length gs = 8)%nat → Forall (λ g, g < 65536) gs →
  (∀ n, e = Some n → (n ≤ length gs)%nat) →
  Forall (λ g, g < 65536) gs' ∧ (length gs' ≤ 8)%nat ∧ (∀ n, e' = Some n → (n ≤ length gs')%nat).
Proof.
  revert gs e s. induction room as [|room IH]; intros gs e s H Hlen Hgs He; cbn [v6_loop] in H; [injection H as <- <- <-; split_and!; [done|lia|done]|].
  destruct (xtoi s) as [[n rest]|]; [|done]. cbn [mbind option_bind] in H. destruct (N.ltb_spec 65535 n) as [|Hn]; [done|].
  assert (Forall (λ g, g < 65536) (gs ++ [n])) as Hgs1 by (apply Forall_app; split; [done|]; constructor; [lia | done]).
  assert (length (gs ++ [n]) = S (length gs)) as Hlen1 by (rewrite length_app; simpl; lia).
  assert (∀ m, e = Some m → (m ≤ length (gs ++ [n]))%nat) as He1 by (intros m Hm; specialize (He m Hm); lia).
  destruct rest as [|c s1]; [injection H as <- <- <-; split_and!; [done|lia|done]|].
  destruct (ascii_dec c ".").
  - destruct (_ && _); [done|]. destruct (8 <? length gs + 2)%nat eqn:E; [done|]. apply Nat.ltb_ge in E.
    destruct (parse_octets s) as [[[[a b] c'] d]|] eqn:Ep; [|done]. cbn in H. injection H as <- <- <-.
    apply parse_octets_bound in Ep as (? & ? & ? & ?). rewrite length_app. simpl. split_and!; [|lia|intros m Hm; specialize (He m Hm); lia].
    apply Forall_app. split; [done|]. repeat constructor; by apply word_bound.
  - destruct (ascii_dec c ":"); [|done]. destruct s1 as [|c2 s2]; [done|]. destruct (ascii_dec c2 ":").
    + destruct e; [done|]. destruct s2 as [|c3 s3]; [injection H as <- <- <-; split_and!; [done|lia|by intros m [= <-]]|].
      eapply IH; [exact H|lia|done|by intros m [= <-]].
    + eapply IH; [exact H|lia|done|done].
Qed.

Lemma expand_valid gs e ip :
  Forall (λ g, g < 65536) gs → (length gs ≤ 8)%nat → (∀ n, e = Some n → (n ≤ length gs)%nat) → expand gs e = Some ip → valid ip.
Proof.
  intros Hgs Hlen He H. unfold expand in H. destruct e as [n|]; destruct (Nat.ltb_spec (length gs) 8); try done; simplify_eq.
  - specialize (He n eq_refl). split.
    + rewrite !length_app, length_take, length_replicate, length_drop. lia.
    + rewrite !Forall_app. split_and!; [by apply Forall_take | apply Forall_replicate; lia | by apply Forall_drop].
  - split; [lia | done].
Qed.

Lemma finish_v6_valid e s ip : (∀ n, e = Some n → n = 0%nat) → finish_v6 (v6_loop 8 [] e s) = Some ip → valid ip.
Proof.
  intros He H. unfold finish_v6 in H. destruct (v6_loop 8 [] e s) as [[[gs e'] [|]]|] eqn:E; try done.
  apply v6_loop_bound in E as (H1 & H2 & H3); [by eapply expand_valid | done | constructor |]. intros n Hn. by rewrite (He n Hn).
Qed.

Lemma ParseIP_valid s ip : ParseIP s = Some ip → valid ip.
Proof.
  unfold ParseIP. destruct (dot_first s) as [[]|]; [..|done].
  - unfold parseIPv4. destruct (parse_octets s) as [[[[a b] c] d]|] eqn:E; [|done]. intros [= <-].
    apply parse_octets_bound in E as (? & ? & ? & ?). split; [done|]. repeat (constructor; [lia || by apply word_bound|]). done.
  - unfold parseIPv6. destruct (skip_char ":" s ≫= skip_char ":") as [[|c s']|]; [| |by apply finish_v6_valid].
    + intros [= <-]. split; [done|]. repeat (constructor; [lia|]). done.
    + apply finish_v6_valid. by intros n [= <-].
Qed.

(** Canonical forms do not change any more, and they stand for the same address. *)
Lemma ParseIP_canonical s : ParseIP (canonical s) = ParseIP s.
Proof.
  unfold canonical. destruct (ParseIP s) as [ip|] eqn:E; [|done]. by apply ParseIP_String, (ParseIP_valid s).
Qed.

Lemma canonical_idem s : canonical (canonical s) = canonical s.
Proof. unfold canonical at 1. by rewrite ParseIP_canonical. Qed.
