(* ===== verification/GoSlice.v ===== *)
(** * GoSlice: slices that share their arrays

    A slice of Go is an array and a length; the capacity is that of the array.  [append] writes into the array
    when there is room, which other slices of the same array then see, and else copies into a
    larger array.  Cells that were not written hold the zero value, here [None]. *)
From S2P Require Import Prelude.

Section Slices.
Context {A : Type}.

Abbreviation heap := (list (list (option A))).

Record slice := MkSlice { sl_array : nat; sl_len : nat }.

(** The capacity after growing, for the sizes and element types where doubling fills a size class *)
Definition grow (cap : nat) : nat := if (cap =? 0)%nat then 1%nat else if (cap <? 1024)%nat then (2 * cap)%nat else (cap + cap / 4)%nat.

Definition array (h : heap) (s : slice) : list (option A) := default [] (h !! sl_array s).

Definition contents (h : heap) (s : slice) : list A := omap id (take (sl_len s) (array h s)).

(** The literal [[]T{}] *)
Definition empty_slice (h : heap) : heap * slice := (h ++ [[]], MkSlice (length h) 0).

Definition grown (a : list (option A)) (len : nat) (x : A) : list (option A) :=
  take len a ++ [Some x] ++ replicate (grow (length a) - S len) None.

Definition append (h : heap) (s : slice) (x : A) : heap * slice :=
  let a := array h s in
  if (sl_len s <? length a)%nat then (<[sl_array s := <[sl_len s := Some x]> a]> h, MkSlice (sl_array s) (S (sl_len s)))
  else (h ++ [grown a (sl_len s) x], MkSlice (length h) (S (sl_len s))).

(** A slice of the heap: its cells were written. *)
Definition slice_ok (h : heap) (s : slice) : Prop :=
  (sl_array s < length h)%nat ∧ (sl_len s ≤ length (array h s))%nat ∧ Forall is_Some (take (sl_len s) (array h s)).

Lemma array_lookup h s : (sl_array s < length h)%nat → h !! sl_array s = Some (array h s).
Proof. intros H. unfold array. by destruct (lookup_lt_is_Some_2 h (sl_array s) H) as [a ->]. Qed.

Lemma append_contents h s x h' s' :
  slice_ok h s → append h s x = (h', s') → slice_ok h' s' ∧ contents h' s' = contents h s ++ [x].
Proof.
  intros (Ha & Hl & Hs). unfold append, contents. destruct (Nat.ltb_spec (sl_len s) (length (array h s))) as [Hlt|Hge]; intros [= <- <-].
  - assert (array (<[sl_array s := <[sl_len s := Some x]> (array h s)]> h) (MkSlice (sl_array s) (S (sl_len s))) = <[sl_len s := Some x]> (array h s)) as E.
    { unfold array at 1. simpl. by rewrite list_lookup_insert_eq. }
    unfold slice_ok. rewrite E. simpl sl_len. simpl sl_array.
    assert (take (S (sl_len s)) (<[sl_len s := Some x]> (array h s)) = take (sl_len s) (array h s) ++ [Some x]) as Et.
    { rewrite (take_S_r _ _ (Some x)) by (by apply list_lookup_insert_eq). by rewrite take_insert_ge by lia. }
    rewrite Et, omap_app. split; [|done]. rewrite !length_insert. split_and!; [done|lia|]. apply Forall_app. split; [done|]. by repeat constructor.
  - assert (sl_len s = length (array h s)) as El by lia.
    set (a' := grown (array h s) (sl_len s) x).
    assert (array (h ++ [a']) (MkSlice (length h) (S (sl_len s))) = a') as E by (unfold array; simpl; by rewrite list_lookup_middle).
    unfold slice_ok. rewrite E. simpl sl_len. simpl sl_array.
    assert (take (S (sl_len s)) a' = take (sl_len s) (array h s) ++ [Some x]) as Et.
    { unfold a', grown. rewrite app_assoc, take_app_le by (rewrite length_app, length_take; simpl; lia).
      apply take_ge. rewrite length_app, length_take. simpl. lia. }
    rewrite Et, omap_app, length_app. split; [|done]. split_and!; [simpl; lia| |].
    + unfold a', grown. rewrite !length_app, length_take. simpl. lia.
    + apply Forall_app. split; [done|]. by repeat constructor.
Qed.

(** A slice that is not longer, or has another array, does not see the write. *)
Lemma append_other h s x h' s' t :
  append h s x = (h', s') → slice_ok h t → sl_array t ≠ sl_array s ∨ (sl_len t ≤ sl_len s)%nat →
  slice_ok h' t ∧ contents h' t = contents h t.
Proof.
  intros Happ (Ha & Hl & Hs) Hd. unfold append in Happ. destruct (sl_len s <? length (array h s))%nat; injection Happ as <- <-.
  - assert ((take (sl_len t) (array (<[sl_array s := <[sl_len s := Some x]> (array h s)]> h) t) = take (sl_len t) (array h t)) ∧
            length (array (<[sl_array s := <[sl_len s := Some x]> (array h s)]> h) t) = length (array h t)) as [Et El].
    { unfold array at 1 4. destruct (decide (sl_array t = sl_array s)) as [E|E].
      - rewrite E. destruct Hd as [|Hd]; [done|]. rewrite list_lookup_insert_eq by lia. simpl. rewrite length_insert.
        rewrite take_insert_ge by lia. unfold array. by rewrite E.
      - by rewrite list_lookup_insert_ne. }
    unfold slice_ok, contents. rewrite Et, El, length_insert. done.
  - assert (array (h ++ [grown (array h s) (sl_len s) x]) t = array h t) as E.
    { unfold array at 1. by rewrite lookup_app_l. }
    unfold slice_ok, contents. rewrite E, length_app. split; [|done]. split_and!; [simpl; lia|done|done].
Qed.
End Slices.
