(* ===== verification/Schema.v ===== *)
(** * Schema: the tables of the VPC service's database

    The rows the version 3 API reads and writes, with the unique indexes and
    foreign keys that [vpc/service/db/migrations/*.up.sql] declare.  Columns
    that only record who did something and when, and that no query reads
    ([attachment_created_by], ...), are left out.  Nullable columns that some
    code path finds NULL are options; [CREATE UNIQUE INDEX] ignores NULLs, so a
    unique index over such a column is over its non-NULL values. *)
From S2P Require Import Prelude Errors.

Open Scope string_scope.
Open Scope Z_scope.
Open Scope list_scope.

(** The enum [attachment_state] (19_serial.up.sql, branch_enis.go). *)
Inductive attachment_state : Set :=
| attaching | attached | unattaching | unattached | failed.

#[export] Instance attachment_state_eq_dec : EqDecision attachment_state.
Proof. solve_decision. Defined.

(** [state = 'attaching' OR state = 'attached' OR state = 'unattaching'] *)
Definition active (s : attachment_state) : bool :=
  match s with attaching | attached | unattaching => true | _ => false end.

Record branch_eni_row := BranchEniRow {
  be_branch_eni : string;
  be_account_id : string;
  be_subnet_id : string;
  be_az : string;
  be_vpc_id : string;
  be_security_groups : list string;
  be_dirty_security_groups : bool;
  be_mac : option string;
  be_last_assigned_to : option Z;
  be_created_at : Z
}.

Record attachment := Attachment {
  at_id : Z;
  at_branch_eni : string;
  at_trunk_eni : string;
  at_idx : Z;
  at_association_id : option string;
  at_association_token : option string;
  at_disassociation_token : option string;
  at_state : attachment_state;
  at_force : option bool;
  at_error_code : option string;
  at_error_message : option string;
  at_generation : option Z;
  at_created_at : Z;
  at_completed_at : option Z
}.

#[export] Instance attachment_eq_dec : EqDecision attachment.
Proof. solve_decision. Defined.

Record assignment_row := AssignmentRow {
  as_id : Z;
  as_association : string;
  as_assignment_id : string;
  as_ipv4addr : option string;
  as_ipv6addr : option string;
  as_completed : bool
}.

Record trunk_eni_row := TrunkEniRow {
  te_id : Z;
  te_trunk_eni : string;
  te_account_id : string;
  te_az : string;
  te_subnet_id : string;
  te_vpc_id : string;
  te_region : string;
  te_mac : option string;
  te_generation : option Z;
  te_deleted_at : option Z
}.

Record subnet_row := SubnetRow {
  sn_subnet_id : string;
  sn_az : string;
  sn_az_id : string;
  sn_vpc_id : string;
  sn_account_id : string;
  sn_cidr : string
}.

Record az_row := AzRow {
  az_account_id : string;
  az_group_name : string;
  az_zone_id : string;
  az_zone_name : string;
  az_region : string;
  az_network_border_group : string
}.

(** *** Columns of type [uuid]

    PostgreSQL reads 32 hexadecimal digits, in either case, with a hyphen allowed after every
    four of them, and with braces around; it prints them in lower case, in groups of
    8, 4, 4, 4 and 12. *)

(** The digit in lower case *)
Definition hex_lower (c : ascii) : option ascii :=
  let n := nat_of_ascii c in
  if ((48 <=? n) && (n <=? 57) || (97 <=? n) && (n <=? 102))%nat then Some c
  else if ((65 <=? n) && (n <=? 70))%nat then Some (ascii_of_nat (n + 32)) else None.

Definition skip_hyphen (s : string) : string :=
  match s with String c s' => if bool_decide (c = "-"%char) then s' else s | "" => "" end.

(** [n] groups of four digits: the digits, and what follows them *)
Fixpoint uuid_digits (n : nat) (s : string) : option (string * string) :=
  match n with
  | O => Some ("", s)
  | S n =>
      match s with
      | String a (String b (String c (String d s))) =>
          a ← hex_lower a; b ← hex_lower b; c ← hex_lower c; d ← hex_lower d;
          x ← uuid_digits n (if (0 <? n)%nat then skip_hyphen s else s);
          Some (String a (String b (String c (String d x.1))), x.2)
      | _ => None
      end
  end.

Definition uuid_out (digits : string) : string :=
  String.substring 0 8 digits +:+ "-" +:+ String.substring 8 4 digits +:+ "-" +:+ String.substring 12 4 digits +:+ "-" +:+
  String.substring 16 4 digits +:+ "-" +:+ String.substring 20 12 digits.

(** What is printed for a value that was written [s]; [None] for invalid input syntax *)
Definition uuid_in (s : string) : option string :=
  match s with
  | String "{" s =>
      x ← uuid_digits 8 s;
      if bool_decide (x.2 = "}") then Some (uuid_out x.1) else None
  | _ =>
      x ← uuid_digits 8 s;
      if bool_decide (x.2 = "") then Some (uuid_out x.1) else None
  end.

(** The last digit of a number in hexadecimal *)
Definition hex_digit (n : nat) : ascii :=
  let d := (n mod 16)%nat in ascii_of_nat (if (d <? 10)%nat then 48 + d else 87 + d).

(** [n] digits *)
Fixpoint hex_digits (n k : nat) : string :=
  match n with O => "" | S n => hex_digits n (k / 16) +:+ String (hex_digit k) "" end.

Definition uuid_text (k : nat) : string := "00000000-0000-4000-8000-" +:+ hex_digits 12 k.

Lemma hex_lower_digit n : hex_lower (hex_digit n) = Some (hex_digit n).
Proof.
  unfold hex_digit. pose proof (Nat.mod_upper_bound n 16 ltac:(done)) as H. generalize dependent (n mod 16)%nat. intros d H.
  do 16 (destruct d as [|d]; [reflexivity|]). lia.
Qed.

Lemma skip_hyphen_digit c s : hex_lower c = Some c → skip_hyphen (String c s) = String c s.
Proof. intros H. simpl. by case_bool_decide; [subst|]. Qed.

Lemma uuid_digits_step n a b c d s :
  hex_lower a = Some a → hex_lower b = Some b → hex_lower c = Some c → hex_lower d = Some d →
  uuid_digits (S n) (String a (String b (String c (String d s)))) =
  x ← uuid_digits n (if (0 <? n)%nat then skip_hyphen s else s);
  Some (String a (String b (String c (String d x.1))), x.2).
Proof. intros Ha Hb Hc Hd. simpl. by rewrite Ha, Hb, Hc, Hd. Qed.

Lemma uuid_text_canonical k : uuid_in (uuid_text k) = Some (uuid_text k).
Proof.
  unfold uuid_text. cbn [hex_digits].
  repeat match goal with |- context [hex_digit ?n] =>
    let H := fresh "H" in pose proof (hex_lower_digit n) as H; revert H; generalize (hex_digit n) end.
  intros. cbv [String.append]. unfold uuid_in. cbv beta iota.
  do 8 (rewrite uuid_digits_step by (assumption || reflexivity); cbn [Nat.ltb Nat.leb];
        first [rewrite skip_hyphen_digit by (assumption || reflexivity)
              |match goal with |- context [skip_hyphen (String "-" ?s)] => change (skip_hyphen (String "-" s)) with s end | idtac]).
  reflexivity.
Qed.

(** Static IPv4 allocations.  Columns of type [bytea] are strings of bytes, and those of type
    [uuid] hold what is printed. *)
Record ip_address_row := IpAddressRow {
  ip_id : string;
  ip_az : string;
  ip_region : string;
  ip_subnet_id : string;
  ip_ip_address : string;
  ip_home_eni : string;
  ip_account : string;
  ip_host_public_key : string;
  ip_host_public_key_signature : string;
  ip_message : string;
  ip_message_signature : string
}.

Record ip_address_attachment := IpAddressAttachment {
  ia_ip_address_uuid : string;
  ia_assignment_id : string
}.

(** The column [tags] is a JSON object of strings. *)
Record elastic_ip_row := ElasticIpRow {
  ei_allocation_id : string;
  ei_account_id : string;
  ei_public_ip : string;
  ei_region : string;
  ei_network_border_group : string;
  ei_tags : gmap string string
}.

(** [tags->>'titus_vpc_pool'] *)
Definition ei_pool (e : elastic_ip_row) : option string := ei_tags e !! "titus_vpc_pool".

Record elastic_ip_attachment := ElasticIpAttachment {
  ea_id : Z;
  ea_allocation_id : string;
  ea_assignment_id : string;
  ea_association_id : option string
}.

Record ip_last_used_row := IpLastUsedRow {
  lu_ip_address : string;
  lu_vpc_id : string;
  lu_last_seen : Z
}.

Record account_mapping_row := AccountMappingRow {
  am_account : string;
  am_availability_zone : string;
  am_vpc_id : string;
  am_subnet_id : string
}.

(** The table [ip_last_used] of the first two generations *)
Record ip_used_row := IpUsedRow {
  ul_ip_address : string;
  ul_last_used : option Z;
  ul_last_allocated : option Z
}.

Record htb_class_row := HtbClassRow {
  hc_id : Z;
  hc_trunk_eni : Z;
  hc_assignment_id : option Z;
  hc_class_id : Z
}.

(** The column [held_by] is NULL after a preemption. *)
Record lock_row := LockRow {
  lk_id : Z;
  lk_name : string;
  lk_held_by : option string;
  lk_held_until : Z
}.

(** [last_run] is the time of the insertion until the task has run. *)
Record scheduled_task_row := ScheduledTaskRow {
  st_id : Z;
  st_name : string;
  st_last_run : Z;
  st_hostname : option string
}.

(** [accounts] holds pairs of a region and an account, [static_enis] of an ENI and a
    subnet.  The rows of the table ip_addresses that have an ID and NULL in all other
    columns are in [ip_addresses_new]; [AllocateAddress] inserts a row like this and
    fills it in the same transaction. *)
Record db := Db {
  branch_enis : list branch_eni_row;
  branch_eni_attachments : list attachment;
  assignments : list assignment_row;
  trunk_enis : list trunk_eni_row;
  subnets : list subnet_row;
  account_mapping : list account_mapping_row;
  availability_zones : list az_row;
  ip_addresses : list ip_address_row;
  ip_address_attachments : list ip_address_attachment;
  elastic_ips : list elastic_ip_row;
  elastic_ip_attachments : list elastic_ip_attachment;
  ip_last_used_v3 : list ip_last_used_row;
  branch_eni_last_used : list (string * Z);
  eni_permissions : list (string * string);
  htb_classid : list htb_class_row;
  long_lived_locks : list lock_row;
  scheduled_tasks : list scheduled_task_row;
  accounts : list (string * string);
  ip_addresses_new : list string;
  static_enis : list (string * string);
  trusted_public_keys : list string;
  ip_last_used : list ip_used_row
}.

(** ** Table updates *)

Definition set_branch_enis (v : list branch_eni_row) (d : db) : db :=
  Db v (branch_eni_attachments d) (assignments d) (trunk_enis d) (subnets d) (account_mapping d)
     (availability_zones d) (ip_addresses d) (ip_address_attachments d) (elastic_ips d)
     (elastic_ip_attachments d) (ip_last_used_v3 d) (branch_eni_last_used d)
     (eni_permissions d) (htb_classid d) (long_lived_locks d) (scheduled_tasks d) (accounts d)
     (ip_addresses_new d) (static_enis d) (trusted_public_keys d) (ip_last_used d).

Definition set_branch_eni_attachments (v : list attachment) (d : db) : db :=
  Db (branch_enis d) v (assignments d) (trunk_enis d) (subnets d) (account_mapping d)
     (availability_zones d) (ip_addresses d) (ip_address_attachments d) (elastic_ips d)
     (elastic_ip_attachments d) (ip_last_used_v3 d) (branch_eni_last_used d)
     (eni_permissions d) (htb_classid d) (long_lived_locks d) (scheduled_tasks d) (accounts d)
     (ip_addresses_new d) (static_enis d) (trusted_public_keys d) (ip_last_used d).

Definition set_trunk_enis (v : list trunk_eni_row) (d : db) : db :=
  Db (branch_enis d) (branch_eni_attachments d) (assignments d) v (subnets d) (account_mapping d)
     (availability_zones d) (ip_addresses d) (ip_address_attachments d) (elastic_ips d)
     (elastic_ip_attachments d) (ip_last_used_v3 d) (branch_eni_last_used d)
     (eni_permissions d) (htb_classid d) (long_lived_locks d) (scheduled_tasks d) (accounts d)
     (ip_addresses_new d) (static_enis d) (trusted_public_keys d) (ip_last_used d).

Definition set_assignments (v : list assignment_row) (d : db) : db :=
  Db (branch_enis d) (branch_eni_attachments d) v (trunk_enis d) (subnets d) (account_mapping d)
     (availability_zones d) (ip_addresses d) (ip_address_attachments d) (elastic_ips d)
     (elastic_ip_attachments d) (ip_last_used_v3 d) (branch_eni_last_used d)
     (eni_permissions d) (htb_classid d) (long_lived_locks d) (scheduled_tasks d) (accounts d)
     (ip_addresses_new d) (static_enis d) (trusted_public_keys d) (ip_last_used d).

Definition set_ip_address_attachments (v : list ip_address_attachment) (d : db) : db :=
  Db (branch_enis d) (branch_eni_attachments d) (assignments d) (trunk_enis d) (subnets d)
     (account_mapping d) (availability_zones d) (ip_addresses d) v (elastic_ips d)
     (elastic_ip_attachments d) (ip_last_used_v3 d) (branch_eni_last_used d)
     (eni_permissions d) (htb_classid d) (long_lived_locks d) (scheduled_tasks d) (accounts d)
     (ip_addresses_new d) (static_enis d) (trusted_public_keys d) (ip_last_used d).

Definition set_elastic_ip_attachments (v : list elastic_ip_attachment) (d : db) : db :=
  Db (branch_enis d) (branch_eni_attachments d) (assignments d) (trunk_enis d) (subnets d)
     (account_mapping d) (availability_zones d) (ip_addresses d) (ip_address_attachments d)
     (elastic_ips d) v (ip_last_used_v3 d) (branch_eni_last_used d)
     (eni_permissions d) (htb_classid d) (long_lived_locks d) (scheduled_tasks d) (accounts d)
     (ip_addresses_new d) (static_enis d) (trusted_public_keys d) (ip_last_used d).

Definition set_ip_last_used_v3 (v : list ip_last_used_row) (d : db) : db :=
  Db (branch_enis d) (branch_eni_attachments d) (assignments d) (trunk_enis d) (subnets d)
     (account_mapping d) (availability_zones d) (ip_addresses d) (ip_address_attachments d)
     (elastic_ips d) (elastic_ip_attachments d) v (branch_eni_last_used d)
     (eni_permissions d) (htb_classid d) (long_lived_locks d) (scheduled_tasks d) (accounts d)
     (ip_addresses_new d) (static_enis d) (trusted_public_keys d) (ip_last_used d).

Definition set_branch_eni_last_used (v : list (string * Z)) (d : db) : db :=
  Db (branch_enis d) (branch_eni_attachments d) (assignments d) (trunk_enis d) (subnets d)
     (account_mapping d) (availability_zones d) (ip_addresses d) (ip_address_attachments d)
     (elastic_ips d) (elastic_ip_attachments d) (ip_last_used_v3 d) v
     (eni_permissions d) (htb_classid d) (long_lived_locks d) (scheduled_tasks d) (accounts d)
     (ip_addresses_new d) (static_enis d) (trusted_public_keys d) (ip_last_used d).

Definition set_eni_permissions (v : list (string * string)) (d : db) : db :=
  Db (branch_enis d) (branch_eni_attachments d) (assignments d) (trunk_enis d) (subnets d)
     (account_mapping d) (availability_zones d) (ip_addresses d) (ip_address_attachments d)
     (elastic_ips d) (elastic_ip_attachments d) (ip_last_used_v3 d) (branch_eni_last_used d)
     v (htb_classid d) (long_lived_locks d) (scheduled_tasks d) (accounts d)
     (ip_addresses_new d) (static_enis d) (trusted_public_keys d) (ip_last_used d).

Definition set_htb_classid (v : list htb_class_row) (d : db) : db :=
  Db (branch_enis d) (branch_eni_attachments d) (assignments d) (trunk_enis d) (subnets d)
     (account_mapping d) (availability_zones d) (ip_addresses d) (ip_address_attachments d)
     (elastic_ips d) (elastic_ip_attachments d) (ip_last_used_v3 d) (branch_eni_last_used d)
     (eni_permissions d) v (long_lived_locks d) (scheduled_tasks d) (accounts d)
     (ip_addresses_new d) (static_enis d) (trusted_public_keys d) (ip_last_used d).

Definition set_long_lived_locks (v : list lock_row) (d : db) : db :=
  Db (branch_enis d) (branch_eni_attachments d) (assignments d) (trunk_enis d) (subnets d)
     (account_mapping d) (availability_zones d) (ip_addresses d) (ip_address_attachments d)
     (elastic_ips d) (elastic_ip_attachments d) (ip_last_used_v3 d) (branch_eni_last_used d)
     (eni_permissions d) (htb_classid d) v (scheduled_tasks d) (accounts d)
     (ip_addresses_new d) (static_enis d) (trusted_public_keys d) (ip_last_used d).

Definition set_subnets (v : list subnet_row) (d : db) : db :=
  Db (branch_enis d) (branch_eni_attachments d) (assignments d) (trunk_enis d) v
     (account_mapping d) (availability_zones d) (ip_addresses d) (ip_address_attachments d)
     (elastic_ips d) (elastic_ip_attachments d) (ip_last_used_v3 d) (branch_eni_last_used d)
     (eni_permissions d) (htb_classid d) (long_lived_locks d) (scheduled_tasks d) (accounts d)
     (ip_addresses_new d) (static_enis d) (trusted_public_keys d) (ip_last_used d).

Definition set_availability_zones (v : list az_row) (d : db) : db :=
  Db (branch_enis d) (branch_eni_attachments d) (assignments d) (trunk_enis d) (subnets d)
     (account_mapping d) v (ip_addresses d) (ip_address_attachments d)
     (elastic_ips d) (elastic_ip_attachments d) (ip_last_used_v3 d) (branch_eni_last_used d)
     (eni_permissions d) (htb_classid d) (long_lived_locks d) (scheduled_tasks d) (accounts d)
     (ip_addresses_new d) (static_enis d) (trusted_public_keys d) (ip_last_used d).

Definition set_elastic_ips (v : list elastic_ip_row) (d : db) : db :=
  Db (branch_enis d) (branch_eni_attachments d) (assignments d) (trunk_enis d) (subnets d)
     (account_mapping d) (availability_zones d) (ip_addresses d) (ip_address_attachments d)
     v (elastic_ip_attachments d) (ip_last_used_v3 d) (branch_eni_last_used d)
     (eni_permissions d) (htb_classid d) (long_lived_locks d) (scheduled_tasks d) (accounts d)
     (ip_addresses_new d) (static_enis d) (trusted_public_keys d) (ip_last_used d).

Definition set_scheduled_tasks (v : list scheduled_task_row) (d : db) : db :=
  Db (branch_enis d) (branch_eni_attachments d) (assignments d) (trunk_enis d) (subnets d)
     (account_mapping d) (availability_zones d) (ip_addresses d) (ip_address_attachments d)
     (elastic_ips d) (elastic_ip_attachments d) (ip_last_used_v3 d) (branch_eni_last_used d)
     (eni_permissions d) (htb_classid d) (long_lived_locks d) v (accounts d)
     (ip_addresses_new d) (static_enis d) (trusted_public_keys d) (ip_last_used d).

Definition set_ip_addresses (v : list ip_address_row) (d : db) : db :=
  Db (branch_enis d) (branch_eni_attachments d) (assignments d) (trunk_enis d) (subnets d) (account_mapping d)
     (availability_zones d) v (ip_address_attachments d) (elastic_ips d) (elastic_ip_attachments d) (ip_last_used_v3 d)
     (branch_eni_last_used d) (eni_permissions d) (htb_classid d) (long_lived_locks d) (scheduled_tasks d) (accounts d)
     (ip_addresses_new d) (static_enis d) (trusted_public_keys d) (ip_last_used d).

Definition set_ip_addresses_new (v : list string) (d : db) : db :=
  Db (branch_enis d) (branch_eni_attachments d) (assignments d) (trunk_enis d) (subnets d) (account_mapping d)
     (availability_zones d) (ip_addresses d) (ip_address_attachments d) (elastic_ips d) (elastic_ip_attachments d) (ip_last_used_v3 d)
     (branch_eni_last_used d) (eni_permissions d) (htb_classid d) (long_lived_locks d) (scheduled_tasks d) (accounts d)
     v (static_enis d) (trusted_public_keys d) (ip_last_used d).

Definition set_static_enis (v : list (string * string)) (d : db) : db :=
  Db (branch_enis d) (branch_eni_attachments d) (assignments d) (trunk_enis d) (subnets d) (account_mapping d)
     (availability_zones d) (ip_addresses d) (ip_address_attachments d) (elastic_ips d) (elastic_ip_attachments d) (ip_last_used_v3 d)
     (branch_eni_last_used d) (eni_permissions d) (htb_classid d) (long_lived_locks d) (scheduled_tasks d) (accounts d)
     (ip_addresses_new d) v (trusted_public_keys d) (ip_last_used d).

Definition set_ip_last_used (v : list ip_used_row) (d : db) : db :=
  Db (branch_enis d) (branch_eni_attachments d) (assignments d) (trunk_enis d) (subnets d) (account_mapping d)
     (availability_zones d) (ip_addresses d) (ip_address_attachments d) (elastic_ips d) (elastic_ip_attachments d) (ip_last_used_v3 d)
     (branch_eni_last_used d) (eni_permissions d) (htb_classid d) (long_lived_locks d) (scheduled_tasks d) (accounts d)
     (ip_addresses_new d) (static_enis d) (trusted_public_keys d) v.

(** [UPDATE t SET .. WHERE p]: the rows satisfying [p] are rewritten by [f]. *)
Definition update_where {A} (p : A → bool) (f : A → A) (l : list A) : list A :=
  (λ r, if p r then f r else r) <$> l.

(** [SELECT .. WHERE p], and its complement for [DELETE]. *)
Definition where_ {A} (p : A → bool) (l : list A) : list A := List.filter p l.

Definition count_where {A} (p : A → bool) (l : list A) : nat := length (where_ p l).

(** [SELECT a, b FROM l1 JOIN l2 ON on] *)
Definition join {A B} (l1 : list A) (l2 : list B) (on : A → B → bool) : list (A * B) :=
  l1 ≫= λ a, (λ b, (a, b)) <$> where_ (on a) l2.

Definition oeqb (o : option string) (s : string) : bool := bool_decide (o = Some s).

(** [(SELECT region FROM availability_zones WHERE zone_name = branch_enis.az AND
    account_id = branch_enis.account_id)] *)
Definition region_of_branch (b : branch_eni_row) (d : db) : option string :=
  az_region <$> head (where_ (λ z, bool_decide (az_zone_name z = be_az b) && bool_decide (az_account_id z = be_account_id b))
                        (availability_zones d)).

Definition branch_named (eni : string) (b : branch_eni_row) : bool := bool_decide (be_branch_eni b = eni).

(** ** Constraints *)

(** [CREATE UNIQUE INDEX] over the key [f] of the rows that have one. *)
Definition unique {A K} `{EqDecision K} (f : A → option K) (l : list A) : bool :=
  bool_decide (NoDup (omap f l)).

(** [REFERENCES]: every referencing key [f] is among the referenced keys. *)
Definition references {A K} `{EqDecision K} (f : A → option K) (l : list A) (keys : list K) : bool :=
  forallb (λ r, match f r with Some k => bool_decide (k ∈ keys) | None => true end) l.

Definition if_active {K} (k : attachment → K) (r : attachment) : option K :=
  if active (at_state r) then Some (k r) else None.

Inductive violation_kind : Set := unique_violation | foreign_key_violation.

Definition constraints : list (violation_kind * string * (db → bool)) := [
  (unique_violation, "branch_enis_pkey",
   λ d, unique (Some ∘ be_branch_eni) (branch_enis d));
  (unique_violation, "branch_eni_attachments_pk",
   λ d, unique (Some ∘ at_id) (branch_eni_attachments d));
  (unique_violation, "branch_eni_attachments_branch_eni_trunk_eni_idx_uindex",
   λ d, unique (if_active (λ r, (at_branch_eni r, at_trunk_eni r, at_idx r))) (branch_eni_attachments d));
  (unique_violation, "branch_eni_attachments_trunk_eni_idx_uindex",
   λ d, unique (if_active (λ r, (at_trunk_eni r, at_idx r))) (branch_eni_attachments d));
  (unique_violation, "branch_eni_attachments_branch_eni_uindex",
   λ d, unique (if_active at_branch_eni) (branch_eni_attachments d));
  (unique_violation, "branch_eni_attachments_association_id_uindex",
   λ d, unique at_association_id (branch_eni_attachments d));
  (unique_violation, "branch_eni_attachments_association_token_uindex",
   λ d, unique at_association_token (branch_eni_attachments d));
  (unique_violation, "branch_eni_attachments_disassociation_token_uindex",
   λ d, unique at_disassociation_token (branch_eni_attachments d));
  (unique_violation, "assignments_pk", λ d, unique (Some ∘ as_id) (assignments d));
  (unique_violation, "assignments_allocation_id_uindex",
   λ d, unique (Some ∘ as_assignment_id) (assignments d));
  (unique_violation, "assignments_branch_eni_association_ipv4addr_uindex",
   λ d, unique (λ r, pair (as_association r) <$> as_ipv4addr r) (assignments d));
  (unique_violation, "assignments_branch_eni_association_ipv6addr_uindex",
   λ d, unique (λ r, pair (as_association r) <$> as_ipv6addr r) (assignments d));
  (unique_violation, "trunk_enis_pk", λ d, unique (Some ∘ te_id) (trunk_enis d));
  (unique_violation, "trunk_enis_trunk_eni_uindex", λ d, unique (Some ∘ te_trunk_eni) (trunk_enis d));
  (unique_violation, "ip_address_attachments_assignment_id_uindex",
   λ d, unique (Some ∘ ia_assignment_id) (ip_address_attachments d));
  (unique_violation, "ip_address_attachments_ip_address_uuid_uindex",
   λ d, unique (Some ∘ ia_ip_address_uuid) (ip_address_attachments d));
  (unique_violation, "elastic_ip_attachments_pk", λ d, unique (Some ∘ ea_id) (elastic_ip_attachments d));
  (unique_violation, "elastic_ip_attachments_assignment_id_uindex",
   λ d, unique (Some ∘ ea_assignment_id) (elastic_ip_attachments d));
  (unique_violation, "elastic_ip_attachments_elastic_ip_uindex",
   λ d, unique (Some ∘ ea_allocation_id) (elastic_ip_attachments d));
  (unique_violation, "elastic_ip_attachments_association_id_uindex",
   λ d, unique ea_association_id (elastic_ip_attachments d));
  (unique_violation, "ip_last_used_v3_ip_address_uindex",
   λ d, unique (λ r, Some (lu_ip_address r, lu_vpc_id r)) (ip_last_used_v3 d));
  (unique_violation, "branch_eni_last_used_pk", λ d, unique (Some ∘ fst) (branch_eni_last_used d));
  (unique_violation, "eni_permissions_branch_eni_account_id_uindex",
   λ d, unique Some (eni_permissions d));
  (unique_violation, "htb_classid_assignment_id_uindex", λ d, unique hc_assignment_id (htb_classid d));
  (unique_violation, "htb_classid_trunk_eni_class_id_uindex",
   λ d, unique (λ r, Some (hc_trunk_eni r, hc_class_id r)) (htb_classid d));
  (unique_violation, "long_lived_locks_pk", λ d, unique (Some ∘ lk_id) (long_lived_locks d));
  (unique_violation, "long_lived_locks_lock_name_uindex", λ d, unique (Some ∘ lk_name) (long_lived_locks d));
  (unique_violation, "subnets_subnet_id_uindex", λ d, unique (Some ∘ sn_subnet_id) (subnets d));
  (unique_violation, "availability_zones_account_id_zone_id_uindex",
   λ d, unique (λ r, Some (az_account_id r, az_zone_id r)) (availability_zones d));
  (unique_violation, "availability_zones_account_id_zone_name_uindex",
   λ d, unique (λ r, Some (az_account_id r, az_zone_name r)) (availability_zones d));
  (unique_violation, "elastic_ips_allocation_id_uindex", λ d, unique (Some ∘ ei_allocation_id) (elastic_ips d));
  (unique_violation, "elastic_ips_public_ip_uindex", λ d, unique (Some ∘ ei_public_ip) (elastic_ips d));
  (unique_violation, "scheduled_tasks_pk", λ d, unique (Some ∘ st_id) (scheduled_tasks d));
  (unique_violation, "scheduled_tasks_name_uindex", λ d, unique (Some ∘ st_name) (scheduled_tasks d));
  (unique_violation, "accounts_account_id_region_uindex", λ d, unique Some (accounts d));
  (unique_violation, "ip_addresses_pkey", λ d, unique Some ((ip_id <$> ip_addresses d) ++ ip_addresses_new d));
  (unique_violation, "ip_addresses_ip_address_subnet_id_uindex",
   λ d, unique (λ r, Some (ip_ip_address r, ip_subnet_id r)) (ip_addresses d));
  (unique_violation, "static_enis_eni_id_uindex", λ d, unique (Some ∘ fst) (static_enis d));
  (unique_violation, "trusted_public_keys_pkey", λ d, unique Some (trusted_public_keys d));
  (unique_violation, "ip_last_used_pk", λ d, unique (Some ∘ ul_ip_address) (ip_last_used d));
  (foreign_key_violation, "branch_eni_attachments_branch_enis_branch_eni_fk",
   λ d, references (Some ∘ at_branch_eni) (branch_eni_attachments d) (be_branch_eni <$> branch_enis d));
  (foreign_key_violation, "eni_permissions_branch_enis_branch_eni_fk",
   λ d, references (Some ∘ fst) (eni_permissions d) (be_branch_eni <$> branch_enis d));
  (foreign_key_violation, "branch_eni_last_used_branch_enis_branch_eni_fk",
   λ d, references (Some ∘ fst) (branch_eni_last_used d) (be_branch_eni <$> branch_enis d));
  (foreign_key_violation, "assignments_branch_eni_attachments_association_id_fk",
   λ d, references (Some ∘ as_association) (assignments d) (omap at_association_id (branch_eni_attachments d)));
  (foreign_key_violation, "ip_address_attachments_ip_addresses_id_fk",
   λ d, references (Some ∘ ia_ip_address_uuid) (ip_address_attachments d) (ip_id <$> ip_addresses d));
  (foreign_key_violation, "ip_address_attachments_assignments_assignment_id_fk",
   λ d, references (Some ∘ ia_assignment_id) (ip_address_attachments d) (as_assignment_id <$> assignments d));
  (foreign_key_violation, "elastic_ip_attachments_assignments_assignment_id_fk",
   λ d, references (Some ∘ ea_assignment_id) (elastic_ip_attachments d) (as_assignment_id <$> assignments d));
  (foreign_key_violation, "elastic_ip_attachments_elastic_ips_allocation_id_fk",
   λ d, references (Some ∘ ea_allocation_id) (elastic_ip_attachments d) (ei_allocation_id <$> elastic_ips d));
  (foreign_key_violation, "htb_classid_assignments_id_fk",
   λ d, references hc_assignment_id (htb_classid d) (as_id <$> assignments d));
  (foreign_key_violation, "htb_classid_trunk_enis_id_fk",
   λ d, references (Some ∘ hc_trunk_eni) (htb_classid d) (te_id <$> trunk_enis d));
  (foreign_key_violation, "static_enis_subnets_subnet_id_fk",
   λ d, references (Some ∘ snd) (static_enis d) (sn_subnet_id <$> subnets d))
].

Definition violation_name (k : violation_kind) : string :=
  match k with
  | unique_violation => "unique_violation"
  | foreign_key_violation => "foreign_key_violation"
  end.

(** What the database answers to a statement whose effect is [d]. *)
Definition check_constraints (d : db) : error + db :=
  match List.find (λ c, negb (c.2 d)) constraints with
  | Some (k, name, _) => inl (EPq (violation_name k) name)
  | None => inr d
  end.

Definition schema_ok (d : db) : Prop := Forall (λ c, c.2 d = true) constraints.

(** [DELETE FROM assignments WHERE p]: ON DELETE CASCADE removes the static and
    elastic attachments of the deleted assignments, ON DELETE SET NULL frees
    their HTB classes. *)
Definition delete_assignments (p : assignment_row → bool) (d : db) : db :=
  let gone := where_ p (assignments d) in
  let names := as_assignment_id <$> gone in
  let ids := as_id <$> gone in
  set_assignments (where_ (negb ∘ p) (assignments d))
  (set_ip_address_attachments
     (where_ (λ r, negb (bool_decide (ia_assignment_id r ∈ names))) (ip_address_attachments d))
  (set_elastic_ip_attachments
     (where_ (λ r, negb (bool_decide (ea_assignment_id r ∈ names))) (elastic_ip_attachments d))
  (set_htb_classid
     (update_where
        (λ r, match hc_assignment_id r with Some i => bool_decide (i ∈ ids) | None => false end)
        (λ r, HtbClassRow (hc_id r) (hc_trunk_eni r) None (hc_class_id r)) (htb_classid d)) d))).

(** [INSERT .. ON CONFLICT (ip_address, vpc_id) DO UPDATE SET last_seen = now()] *)
Definition upsert_last_used (now : Z) (vpc ip : string) (l : list ip_last_used_row) :
  list ip_last_used_row :=
  let same r := bool_decide (lu_ip_address r = ip ∧ lu_vpc_id r = vpc) in
  if existsb same l then update_where same (λ r, IpLastUsedRow ip vpc now) l
  else l ++ [IpLastUsedRow ip vpc now].

(** [INSERT INTO branch_eni_last_used .. ON CONFLICT (branch_eni) DO UPDATE] *)
Definition upsert_eni_last_used (now : Z) (eni : string) (l : list (string * Z)) :
  list (string * Z) :=
  if existsb (λ r, bool_decide (r.1 = eni)) l
  then update_where (λ r, bool_decide (r.1 = eni)) (λ _, (eni, now)) l
  else l ++ [(eni, now)].

(** ** Facts *)

Lemma elem_of_where {A} (p : A → bool) l x : x ∈ where_ p l ↔ x ∈ l ∧ p x = true.
Proof. unfold where_. rewrite !list_elem_of_In. apply List.filter_In. Qed.

Lemma elem_of_update_where {A} (p : A → bool) f l x :
  x ∈ update_where p f l ↔ (x ∈ l ∧ p x = false) ∨ ∃ y, y ∈ l ∧ p y = true ∧ x = f y.
Proof.
  unfold update_where. rewrite list_elem_of_fmap. split.
  - intros (y & -> & Hy). destruct (p y) eqn:E; [right; eauto | left; eauto].
  - intros [[Hx E] | (y & Hy & E & ->)].
    + exists x. by rewrite E.
    + exists y. by rewrite E.
Qed.

Lemma elem_of_join {A B} (l1 : list A) (l2 : list B) on a b :
  (a, b) ∈ join l1 l2 on ↔ a ∈ l1 ∧ b ∈ l2 ∧ on a b = true.
Proof.
  unfold join. rewrite list_elem_of_bind. split.
  - intros (a' & Hb & Ha). apply list_elem_of_fmap in Hb as (b' & [= -> ->] & Hb).
    apply elem_of_where in Hb as []. done.
  - intros (Ha & Hb & Hon). exists a. split; [|done].
    apply list_elem_of_fmap. exists b. split; [done|]. by apply elem_of_where.
Qed.

Lemma update_where_fmap {A B} (p : A → bool) f (g : A → B) l :
  (∀ x, p x = true → g (f x) = g x) → g <$> update_where p f l = g <$> l.
Proof.
  intros H. unfold update_where. rewrite <- list_fmap_compose.
  apply list_fmap_ext. intros _ x _. simpl. destruct (p x) eqn:E; auto.
Qed.

Lemma update_where_omap {A B} (p : A → bool) f (g : A → option B) l :
  (∀ x, x ∈ l → p x = true → g (f x) = g x) → omap g (update_where p f l) = omap g l.
Proof.
  unfold update_where. intros H. induction l as [|a l IH]; [done|]. csimpl.
  rewrite IH by (intros; apply H; [by right | done]).
  destruct (p a) eqn:E; [|done]. by rewrite H by (done || by left).
Qed.

Lemma where_nil {A} (p : A → bool) l : (∀ x, x ∈ l → p x = false) → where_ p l = [].
Proof.
  intros H. induction l as [|a l IH]; [done|]. simpl.
  rewrite (H a) by by left. apply IH. intros; apply H; by right.
Qed.

Lemma where_all {A} (p : A → bool) l : (∀ x, x ∈ l → p x = true) → where_ p l = l.
Proof.
  intros H. induction l as [|a l IH]; [done|]. simpl. rewrite (H a) by by left. f_equal. apply IH. intros; apply H; by right.
Qed.

Lemma count_where_pos {A} (p : A → bool) l x :
  x ∈ l → p x = true → (0 < count_where p l)%nat.
Proof.
  intros Hx Hp. assert (x ∈ where_ p l) as H by by apply elem_of_where.
  unfold count_where. by destruct (where_ p l); [inversion H | simpl; lia].
Qed.

Lemma check_constraints_inr d d' : check_constraints d = inr d' → d' = d ∧ schema_ok d.
Proof.
  unfold check_constraints, schema_ok. destruct (List.find _ _) as [[[k n] c]|] eqn:E; [done|].
  intros [= <-]. split; [done|]. apply Forall_forall. intros c Hc.
  apply list_elem_of_In in Hc. pose proof (List.find_none _ _ E _ Hc) as H.
  by apply negb_false_iff in H.
Qed.

(** The constraints of a concrete database can be computed. *)
Definition schema_okb (d : db) : bool := match check_constraints d with inr _ => true | inl _ => false end.

Lemma schema_okb_ok d : schema_okb d = true → schema_ok d.
Proof.
  unfold schema_okb. destruct (check_constraints d) eqn:E; [done|]. intros _. by eapply check_constraints_inr.
Qed.

Lemma check_constraints_inl d e :
  check_constraints d = inl e → ∃ k c, e = EPq (violation_name k) c.
Proof. unfold check_constraints. destruct (List.find _ _) as [[[k n] c]|]; naive_solver. Qed.

Lemma check_constraints_ok d : schema_ok d → check_constraints d = inr d.
Proof.
  unfold check_constraints, schema_ok. intros H.
  destruct (List.find _ _) as [[[k n] c]|] eqn:E; [|done].
  apply List.find_some in E as [Hin%list_elem_of_In Hc].
  rewrite Forall_forall in H. apply H in Hin. simpl in *. by rewrite Hin in Hc.
Qed.

Lemma schema_ok_named d n :
  schema_ok d →
  match List.find (λ c, String.eqb n c.1.2) constraints with Some c => c.2 d = true | None => True end.
Proof.
  intros H. destruct (List.find _ _) as [c|] eqn:E; [|done].
  apply List.find_some in E as [Hin%list_elem_of_In _]. unfold schema_ok in H.
  rewrite Forall_forall in H. by apply H.
Qed.

(** Reads the constraint named [n] off [schema_ok]. *)
Ltac constraint_of H n C :=
  match type of H with
  | schema_ok ?d =>
      pose proof (schema_ok_named d n H) as C;
      cbv [List.find constraints String.eqb Ascii.eqb Bool.eqb fst snd] in C
  end.

Lemma unique_omap {A K} `{EqDecision K} (f : A → option K) l :
  unique f l = true → NoDup (omap f l).
Proof. unfold unique. by rewrite bool_decide_eq_true. Qed.

Lemma NoDup_omap_inj {A K} (f : A → option K) (l : list A) x y k :
  NoDup l → NoDup (omap f l) → x ∈ l → y ∈ l → f x = Some k → f y = Some k → x = y.
Proof.
  intros Hl. induction Hl as [|a l Ha Hl IH]; simpl; intros Hnd Hx Hy Ex Ey; [inversion Hx|].
  apply elem_of_cons in Hx as [->|Hx]; apply elem_of_cons in Hy as [->|Hy]; [done| | |].
  - rewrite Ex in Hnd. apply NoDup_cons in Hnd as [Hnd _]. destruct Hnd.
    apply list_elem_of_omap. eauto.
  - rewrite Ey in Hnd. apply NoDup_cons in Hnd as [Hnd _]. destruct Hnd.
    apply list_elem_of_omap. eauto.
  - apply IH; [|done..]. destruct (f a); [by apply NoDup_cons in Hnd as [_ ?] | done].
Qed.

Lemma omap_Some_fmap {A K} (f : A → K) (l : list A) : omap (Some ∘ f) l = f <$> l.
Proof. induction l; [done|]. csimpl. by f_equal. Qed.

Lemma unique_fmap {A K} `{EqDecision K} (f : A → K) l : unique (Some ∘ f) l = true ↔ NoDup (f <$> l).
Proof. unfold unique. by rewrite bool_decide_eq_true, omap_Some_fmap. Qed.

Lemma references_elem {A K} `{EqDecision K} (f : A → option K) l keys x k :
  references f l keys = true → x ∈ l → f x = Some k → k ∈ keys.
Proof.
  unfold references. rewrite forallb_forall. intros H Hx Hk. apply list_elem_of_In, H in Hx. rewrite Hk in Hx.
  by apply bool_decide_eq_true in Hx.
Qed.

(** A statement keeps the constraints of the tables it does not write; for those
    it does, the hypotheses say so. *)
Ltac keeps_schema Hs :=
  unfold schema_ok in *; rewrite Forall_forall in *;
  let k := fresh "k" in let n := fresh "n" in let c := fresh "c" in let Hc := fresh "Hc" in
  intros [[k n] c] Hc; specialize (Hs _ Hc); unfold constraints in Hc;
  repeat (apply elem_of_cons in Hc as [[= -> -> ->]|Hc]; [first [exact Hs | assumption]|]); inversion Hc.

Lemma unique_id {A} `{EqDecision A} (l : list A) : unique Some l = true ↔ NoDup l.
Proof. rewrite <- (list_fmap_id l) at 2. apply (unique_fmap id). Qed.

(** The rows of a table with a unique non-NULL key are distinct and determined
    by it. *)
Lemma unique_key {A K} `{EqDecision K} (f : A → K) l x y :
  unique (Some ∘ f) l = true → x ∈ l → y ∈ l → f x = f y → x = y.
Proof.
  intros H%unique_omap. revert x y. induction l as [|a l IH]; intros x y Hx Hy E; [inversion Hx|].
  simpl in H. apply NoDup_cons in H as [Ha H].
  assert (∀ z, z ∈ l → f z = f a → False) as Hz.
  { intros z Hz Ez. apply Ha. apply list_elem_of_omap. exists z. simpl. by rewrite Ez. }
  apply elem_of_cons in Hx as [->|Hx]; apply elem_of_cons in Hy as [->|Hy]; [done| | |].
  - by destruct (Hz y).
  - by destruct (Hz x).
  - by apply IH.
Qed.

(** The same for a key that may be NULL, in a table whose rows are distinct. *)
Lemma unique_nullable_key {A K K'} `{EqDecision K, EqDecision K'} (id : A → K') (f : A → option K) l x y k :
  unique (Some ∘ id) l = true → unique f l = true →
  x ∈ l → y ∈ l → f x = Some k → f y = Some k → x = y.
Proof.
  intros Hid Hf. apply NoDup_omap_inj; [|by apply unique_omap].
  apply unique_omap in Hid. apply (NoDup_fmap_1 id). by rewrite <- omap_Some_fmap.
Qed.

Lemma head_where {A} (p : A → bool) l a : head (where_ p l) = Some a → a ∈ l ∧ p a = true.
Proof. intros H%head_Some_elem_of. by apply elem_of_where. Qed.
