(* ===== verification/Service.v ===== *)
(** * Service: what the handlers of the VPC service run in

    A handler is a function of type [M A]: it reads and changes a [world] and
    returns a value, an error or a panic.  The world holds the committed
    database, the open transactions, the log of the calls made to EC2, and the
    sources of everything a run does not determine (faults of the database or
    of the context, random choices, fresh row IDs and UUIDs, the clock).

    EC2 is not part of the repository: it is the argument [ec2], a function
    of the calls made so far and of the call being made.  The wrappers of
    [vpc/service/ec2wrapper/ec2_session.go] around its calls are translated. *)
From S2P Require Import Prelude Errors Schema.

Open Scope string_scope.
Open Scope Z_scope.
Open Scope list_scope.

(** ** EC2 *)

Record private_ip := PrivateIp {
  pi_address : string;
  pi_primary : bool;
  pi_association : option string
}.

Record interface_attachment := InterfaceAttachment {
  nia_AttachmentId : string;
  nia_DeviceIndex : Z;
  nia_DeleteOnTermination : bool
}.

Record network_interface := NetworkInterface {
  NetworkInterfaceId : string;
  ni_SubnetId : string;
  ni_OwnerId : string;
  ni_AvailabilityZone : string;
  ni_VpcId : string;
  ni_MacAddress : string;
  ni_Status : string;
  ni_Groups : list string;
  ni_PrivateIpAddress : string;
  ni_PrivateIpAddresses : list private_ip;
  ni_Ipv6Addresses : list string;
  ni_Attachment : option interface_attachment
}.

(** [ec2.InstanceNetworkInterface], as far as the service reads it. *)
Record instance_eni := InstanceEni {
  in_NetworkInterfaceId : string;
  in_OwnerId : string;
  in_SubnetId : string;
  in_MacAddress : string;
  in_InterfaceType : string;
  in_DeviceIndex : Z;
  in_VpcId : string;
  in_Description : string
}.

(** With the owner of its reservation *)
Record instance := Instance {
  InstanceId : string;
  InstanceType : string;
  inst_AvailabilityZone : string;
  inst_SubnetId : string;
  inst_NetworkInterfaces : list instance_eni;
  inst_OwnerId : string
}.

(** [ec2.Address], [ec2.Subnet] and [ec2.AvailabilityZone] *)
Record address := Address {
  ad_AllocationId : string;
  ad_PublicIp : string;
  ad_NetworkBorderGroup : string;
  ad_Tags : list (string * string)
}.

Record ec2_subnet := Ec2Subnet {
  es_SubnetId : string;
  es_AvailabilityZone : string;
  es_AvailabilityZoneId : string;
  es_VpcId : string;
  es_OwnerId : string;
  es_CidrBlock : string
}.

Record availability_zone := AvailabilityZone {
  ez_GroupName : string;
  ez_NetworkBorderGroup : string;
  ez_RegionName : string;
  ez_ZoneId : string;
  ez_ZoneName : string
}.

Inductive ec2_call : Set → Set :=
| GetSession (account region : string) : ec2_call unit
| DescribeInstance (id : string) (invalidateCache : bool) : ec2_call instance
| DescribeNetworkInterface (id : string) : ec2_call network_interface
| DescribeNetworkInterfaces (ids : list string) (nextToken : option string) :
    ec2_call (list network_interface * option string)
| DescribeNetworkInterfacesByDescription (description owner : string) (nextToken : option string) :
    ec2_call (list network_interface * option string)
| DescribeTrunkInterfaceAssociations (nextToken : option string) : ec2_call (list string * option string)
| AssociateTrunkInterface (trunk branch token : string) (vlan : Z) : ec2_call string
| DisassociateTrunkInterface (association token : string) : ec2_call unit
| CreateNetworkInterface (subnet : string) (groups : list string) : ec2_call network_interface
| CreateTrunkNetworkInterface (subnet description : string) : ec2_call network_interface
| CreateStaticNetworkInterface (subnet description : string) (ipv6Count secondaryCount : Z) : ec2_call network_interface
| AttachNetworkInterface (deviceIndex : Z) (instance eni : string) : ec2_call unit
| DeleteNetworkInterface (eni : string) : ec2_call unit
| ModifyNetworkInterfaceGroups (eni : string) (groups : list string) : ec2_call unit
| ModifyNetworkInterfaceDescription (eni description : string) : ec2_call unit
| ModifyNetworkInterfaceSourceDestCheck (eni : string) (value : bool) : ec2_call unit
| ModifyNetworkInterfaceDeleteOnTermination (eni attachmentId : string) (value : bool) : ec2_call unit
| CreateNetworkInterfacePermission (account eni : string) : ec2_call unit
| AssignPrivateIpCount (eni : string) (count : Z) : ec2_call (list string)
| AssignPrivateIps (eni : string) (ips : list string) (allowReassignment : bool) : ec2_call (list string)
| UnassignPrivateIps (eni : string) (ips : list string) : ec2_call unit
| AssignIpv6Count (eni : string) (count : Z) : ec2_call (list string)
| AssignIpv6s (eni : string) (ips : list string) : ec2_call (list string)
| UnassignIpv6s (eni : string) (ips : list string) : ec2_call unit
| AssociateAddress (allocation eni privateIp : string) : ec2_call string
| DisassociateAddress (association : string) : ec2_call unit
| DescribeAddresses : ec2_call (list address)
| DescribeSubnets (owner : string) (nextToken : option string) : ec2_call (list ec2_subnet * option string)
| DescribeSubnetsByID (ids : list string) : ec2_call (list ec2_subnet)
| DescribeSecurityGroups (vpc groupName : string) : ec2_call (list string)
| DescribeAvailabilityZones : ec2_call (list availability_zone).

(** One call that was made, of whatever result type. *)
Record event := Event { ev_type : Set; ev_call : ec2_call ev_type }.
Arguments Event {ev_type} ev_call.

Definition ec2_oracle := ∀ A : Set, list event → ec2_call A → error + A.

(** ** The world *)

Record world := World {
  w_db : db;
  w_txs : gmap nat (option (db → db));
  w_next_tx : nat;
  w_calls : list event;
  w_faults : list (option error);
  w_rand : list nat;
  w_seq : Z;
  w_uuid : nat;
  w_now : Z;
  w_sg_cache : list (string * (string * Z))
}.

Definition M (A : Type) : Type := world → res error A * world.

#[export] Instance M_ret : MRet M := λ A a w, (Ok a, w).
#[export] Instance M_bind : MBind M := λ A B f m w,
  match m w with
  | (Ok a, w') => f a w'
  | (Fail e, w') => (Fail e, w')
  | (Panic s, w') => (Panic s, w')
  end.

Definition act {A} (f : world → res error A * world) : M A := f.
Definition throw {A} (e : error) : M A := λ w, (Fail e, w).
Definition go_panic {A} (s : string) : M A := λ w, (Panic s, w).
Definition get_world : M world := λ w, (Ok w, w).

(** Runs [m] and hands its error, if any, to the code that inspects it. *)
Definition try {A} (m : M A) : M (error + A) := λ w,
  match m w with
  | (Ok a, w') => (Ok (inr a), w')
  | (Fail e, w') => (Ok (inl e), w')
  | (Panic s, w') => (Panic s, w')
  end.

(** [if err != nil { return errors.Wrap(err, msg) }] *)
Definition wrap {A} (msg : string) (m : M A) : M A := λ w,
  match m w with (Fail e, w') => (Fail (EWrap msg e), w') | r => r end.

(** [status.Error(codes.Unknown, errors.Wrap(err, msg).Error())] *)
Definition wrap_status {A} (c : code) (msg : string) (m : M A) : M A := λ w,
  match m w with (Fail _, w') => (Fail (EStatus c msg), w') | r => r end.

(** The result of code that reads and changes nothing *)
Definition lift {A} (r : error + A) : M A := match r with inl e => throw e | inr a => mret a end.

(** ** World updates *)

Definition set_db (d : db) (w : world) : world :=
  World d (w_txs w) (w_next_tx w) (w_calls w) (w_faults w) (w_rand w) (w_seq w) (w_uuid w)
        (w_now w) (w_sg_cache w).
Definition set_txs (t : gmap nat (option (db → db))) (w : world) : world :=
  World (w_db w) t (w_next_tx w) (w_calls w) (w_faults w) (w_rand w) (w_seq w) (w_uuid w)
        (w_now w) (w_sg_cache w).
Definition set_next_tx (n : nat) (w : world) : world :=
  World (w_db w) (w_txs w) n (w_calls w) (w_faults w) (w_rand w) (w_seq w) (w_uuid w)
        (w_now w) (w_sg_cache w).
Definition set_calls (c : list event) (w : world) : world :=
  World (w_db w) (w_txs w) (w_next_tx w) c (w_faults w) (w_rand w) (w_seq w) (w_uuid w)
        (w_now w) (w_sg_cache w).
Definition set_faults (f : list (option error)) (w : world) : world :=
  World (w_db w) (w_txs w) (w_next_tx w) (w_calls w) f (w_rand w) (w_seq w) (w_uuid w)
        (w_now w) (w_sg_cache w).
Definition set_rand (r : list nat) (w : world) : world :=
  World (w_db w) (w_txs w) (w_next_tx w) (w_calls w) (w_faults w) r (w_seq w) (w_uuid w)
        (w_now w) (w_sg_cache w).
Definition set_seq (s : Z) (w : world) : world :=
  World (w_db w) (w_txs w) (w_next_tx w) (w_calls w) (w_faults w) (w_rand w) s (w_uuid w)
        (w_now w) (w_sg_cache w).
Definition set_uuid (u : nat) (w : world) : world :=
  World (w_db w) (w_txs w) (w_next_tx w) (w_calls w) (w_faults w) (w_rand w) (w_seq w) u
        (w_now w) (w_sg_cache w).
Definition set_sg_cache (c : list (string * (string * Z))) (w : world) : world :=
  World (w_db w) (w_txs w) (w_next_tx w) (w_calls w) (w_faults w) (w_rand w) (w_seq w) (w_uuid w)
        (w_now w) c.

Definition set_now (t : Z) (w : world) : world :=
  World (w_db w) (w_txs w) (w_next_tx w) (w_calls w) (w_faults w) (w_rand w) (w_seq w) (w_uuid w)
        t (w_sg_cache w).

(** ** What a run does not determine *)

(** The next entry of the fault schedule: whether the next interaction with the
    database (or the context) fails, and with which error.  An exhausted
    schedule means no more faults. *)
Definition fault_point : M unit := λ w,
  match w_faults w with
  | [] => (Ok tt, w)
  | f :: fs =>
      (match f with Some e => Fail e | None => Ok tt end, set_faults fs w)
  end.

Definition random : M nat := λ w,
  match w_rand w with
  | [] => (Ok 0%nat, w)
  | n :: ns => (Ok n, set_rand ns w)
  end.

(** [ORDER BY RANDOM() LIMIT 1], [LIMIT 1] without an order, and [PopAny] of a
    Go set: some element. *)
Definition choose {A} (l : list A) : M (option A) :=
  n ← random;
  mret (l !! (n mod length l)%nat).

(** [ORDER BY RANDOM()], and the order of [UnsortedList] of a Go set *)
Fixpoint shuffle {A} (l : list A) : M (list A) :=
  match l with
  | [] => mret []
  | x :: l =>
      s ← shuffle l;
      n ← random;
      mret (take n s ++ x :: drop n s)
  end.

(** A value of a [serial] column: sequences are not transactional. *)
Definition nextval : M Z := λ w, (Ok (w_seq w), set_seq (w_seq w + 1) w).

(** [uuid.New()] of one package, [uuid.New().String()] of the other: a UUID in lower case *)
Definition uuid_New : M string := λ w, (Ok (uuid_text (w_uuid w)), set_uuid (S (w_uuid w)) w).

Definition now : M Z := λ w, (Ok (w_now w), w).

(** ** Transactions

    An open transaction is the composition of its pending writes: what it sees
    is the committed database with its own writes applied, and committing
    applies them.  A statement that fails aborts the transaction: it stays
    open, [None] in [w_txs], and refuses every further statement and the
    commit.  A transaction that was committed or rolled back is no longer in
    [w_txs] and answers [sql.ErrTxDone]. *)

Abbreviation tx := nat (only parsing).

Definition abort (h : tx) (w : world) : world := set_txs (<[h := None]> (w_txs w)) w.
Definition close (h : tx) (w : world) : world := set_txs (delete h (w_txs w)) w.

Definition in_failed_sql_transaction : error := EPq "in_failed_sql_transaction" "".

Definition BeginTx : M tx :=
  _ ← fault_point;
  act (λ w, (Ok (w_next_tx w),
             set_next_tx (S (w_next_tx w)) (set_txs (<[w_next_tx w := Some id]> (w_txs w)) w))).

(** Sends a statement: what the transaction sees, unless the statement fails. *)
Definition tx_view (h : tx) : M db := λ w,
  match w_txs w !! h with
  | None => (Fail ETxDone, w)
  | Some None => (Fail in_failed_sql_transaction, w)
  | Some (Some g) =>
      match fault_point w with
      | (Ok _, w') => (Ok (g (w_db w)), w')
      | (Fail e, w') => (Fail e, abort h w')
      | (Panic s, w') => (Panic s, w')
      end
  end.

(** A statement that neither reads nor writes the tables: [SET ..],
    [SELECT pg_notify(..)], [SELECT pg_advisory_xact_lock(..)]. *)
Definition statement (h : tx) : M unit :=
  _ ← tx_view h;
  mret tt.

(** [tx.QueryContext] of a query that returns the rows [f]. *)
Definition query {A} (h : tx) (f : db → A) : M A :=
  d ← tx_view h;
  mret (f d).

(** [tx.QueryRowContext(..).Scan(..)] of a query whose answer is at most one row. *)
Definition queryRow {A} (h : tx) (f : db → option A) : M A :=
  o ← query h f;
  match o with Some a => mret a | None => throw ENoRows end.

(** [if err == sql.ErrNoRows { .. }] after a query for one row. *)
Definition queryRowOpt {A} (h : tx) (f : db → option A) : M (option A) :=
  r ← try (queryRow h f);
  match r with
  | inl ENoRows => mret None
  | inl e => throw e
  | inr a => mret (Some a)
  end.

(** The same for a query with [LIMIT 1] that does not fix which row. *)
Definition queryRowAny {A} (h : tx) (f : db → list A) : M A :=
  l ← query h f;
  o ← choose l;
  match o with Some a => mret a | None => throw ENoRows end.

(** [tx.ExecContext]: [F d0] is the effect of the statement that saw [d0], which
    the constraints of the schema may refuse; [r d0] is what it reports
    ([RowsAffected], the columns of [RETURNING]).  An [UPDATE] locks the rows it
    saw until its transaction is over, so its effect depends on [d0]. *)
Definition exec_at {A} (h : tx) (F : db → db → db) (r : db → A) : M A :=
  d ← tx_view h;
  match check_constraints (F d d) with
  | inl e => act (λ w, (Fail e, abort h w))
  | inr _ =>
      act (λ w, (Ok (r d),
                 set_txs (alter (fmap (λ (g : db → db) d', F d (g d'))) h (w_txs w)) w))
  end.

Definition exec (h : tx) (f : db → db) : M unit := exec_at h (λ _, f) (λ _, tt).

(** [tx.Commit]: in every case the transaction is over.  What is committed
    satisfies the constraints. *)
Definition Commit (h : tx) : M unit := λ w,
  match tx_view h w with
  | (Ok d, w') =>
      match check_constraints d with
      | inl e => (Fail e, close h w')
      | inr _ => (Ok tt, set_db d (close h w'))
      end
  | (Fail e, w') => (Fail e, close h w')
  | (Panic s, w') => (Panic s, w')
  end.

(** [_ = tx.Rollback()] *)
Definition Rollback (h : tx) : M unit := λ w, (Ok tt, close h w).

(** [tx, err := db.BeginTx(..); if err != nil { .. }; defer tx.Rollback()]:
    [begin] starts the transaction and says what the function does with an
    error of that. *)
Definition with_tx {A} (begin : M tx) (body : tx → M A) : M A :=
  h ← begin;
  act (λ w, match body h w with (r, w') => (r, close h w') end).

(** A deferred function commits when the body returned no error, which it also has not when it
    panicked, and the error of the commit is returned. *)
Definition deferred_commit {A} (h : tx) (body : M A) : M A :=
  act (λ w, match body w with
            | (Ok a, w') =>
                match Commit h w' with
                | (Ok _, w2) => (Ok a, w2)
                | (Fail e, w2) => (Fail e, w2)
                | (Panic s, w2) => (Panic s, w2)
                end
            | (Fail e, w') => (Fail e, close h w')
            | (Panic s, w') => (Panic s, (Commit h w').2)
            end).

Definition with_commit {A} (begin : M tx) (body : tx → M A) : M A :=
  h ← begin;
  deferred_commit h (body h).

(** A statement on [vpcService.db] itself is a transaction of its own. *)
Definition db_exec {A} (F : db → db) (r : db → A) : M A :=
  _ ← fault_point;
  act (λ w, match check_constraints (F (w_db w)) with
            | inl e => (Fail e, w)
            | inr d => (Ok (r (w_db w)), set_db d w)
            end).

Definition db_queryRow {A} (f : db → option A) : M A :=
  _ ← fault_point;
  act (λ w, (match f (w_db w) with Some a => Ok a | None => Fail ENoRows end, w)).

(** [beginSerializableTx] also disables sequential scans. *)
Definition beginSerializableTx : M tx :=
  h ← wrap "Could not start database transaction" BeginTx;
  r ← try (statement h);
  match r with
  | inl e => _ ← Rollback h; throw (EWrap "Cannot disable seqscan" e)
  | inr _ => mret h
  end.

(** [row.Scan(&s)] of a NULL column into a Go value that cannot hold NULL. *)
Definition scan_error : error := EString "sql: Scan error: converting NULL to string is unsupported".

Definition scan {A} (o : option A) : M A :=
  match o with Some a => mret a | None => throw scan_error end.

(** ** Retrying a transaction

    The service retries a transaction by [goto retry] when a statement answers
    with a serialization failure.  A run of the body answers [None] for such a
    jump.  Each jump was caused by an entry of the fault schedule, so one more
    run than there are entries is enough ([retry_terminates]). *)

Fixpoint retry_loop {A} (fuel : nat) (body : M (option A)) : M A :=
  match fuel with
  | O => go_panic "retry_loop: out of fuel"
  | S n =>
      r ← body;
      match r with Some a => mret a | None => retry_loop n body end
  end.

Definition retrying {A} (body : M (option A)) : M A := λ w,
  retry_loop (S (length (w_faults w))) body w.

(** [if isSerializationFailure(err) { goto retry }; if err != nil { return fail(err) }] *)
Definition or_retry {A B} (m : M A) (fail : error → error) (k : A → M (option B)) : M (option B) :=
  r ← try m;
  match r with
  | inl e => if isSerializationFailure e then mret None else throw (fail e)
  | inr a => k a
  end.

(** ** EC2 sessions *)

Section Ec2Session.
Context (ec2 : ec2_oracle).

(** The call as the AWS client makes it. *)
Definition call {A : Set} (c : ec2_call A) : M A := λ w,
  (match ec2 A (w_calls w) c with inl e => Fail e | inr a => Ok a end,
   set_calls (w_calls w ++ [Event c]) w).

(** [EC2Session]'s methods wrap the client's error; the error
    [HandleEC2Error] computes there only goes to the trace. *)
Definition session_call {A : Set} (msg : string) (c : ec2_call A) : M A := wrap msg (call c).

Definition GetSessionFromAccountAndRegion (account region : string) : M unit :=
  call (GetSession account region).

Definition session_AssociateTrunkInterface (trunk branch token : string) (vlan : Z) : M string :=
  session_call "Cannot associate trunk network interface" (AssociateTrunkInterface trunk branch token vlan).

Definition session_DisassociateTrunkInterface (association token : string) : M unit :=
  session_call "Cannot disassociate network interface" (DisassociateTrunkInterface association token).

Definition session_CreateNetworkInterface (subnet : string) (groups : list string) : M network_interface :=
  session_call "Cannot create network interface" (CreateNetworkInterface subnet groups).

Definition session_DeleteNetworkInterface (eni : string) : M unit :=
  session_call "Cannot delete network interface" (DeleteNetworkInterface eni).

Definition session_ModifyNetworkInterfaceAttribute (eni : string) (groups : list string) : M unit :=
  session_call "Cannot modify network interface" (ModifyNetworkInterfaceGroups eni groups).

Definition session_DisassociateAddress (association : string) : M unit :=
  session_call "Cannot describe trunk interface associations" (DisassociateAddress association).

(** [status.Convert(errors.Wrap(err, ..)).Err()]: the wrapped error has no
    [GRPCStatus] of its own, so what is left is code [Unknown] and a text. *)
Definition session_AssignPrivateIPAddresses (c : ec2_call (list string)) : M (list string) :=
  wrap_status Unknown "Cannot assign IPv4 addresses" (call c).

Definition session_AssignIPv6Addresses (c : ec2_call (list string)) : M (list string) :=
  wrap_status Unknown "Cannot assign IPv6 addresses" (call c).

Definition session_UnassignPrivateIPAddresses (eni : string) (ips : list string) : M unit :=
  call (UnassignPrivateIps eni ips).

Definition session_ModifySecurityGroups (eni : string) (groups : list string) : M unit := λ w,
  match call (ModifyNetworkInterfaceGroups eni groups) w with
  | (Fail e, w') => (Fail (HandleEC2Error e), w')
  | r => r
  end.

(** The session keeps subnets, also beyond their time when EC2 fails, and default groups; here both are part of what answers the call. *)
Definition session_GetSubnetByID (id : string) : M ec2_subnet := λ w,
  match call (DescribeSubnetsByID [id]) w with
  | (Fail e, w') => (Fail (HandleEC2Error e), w')
  | (Ok [], w') => (Panic "index out of range", w')
  | (Ok (s :: _), w') => (Ok s, w')
  | (Panic m, w') => (Panic m, w')
  end.

Definition session_GetDefaultSecurityGroups (vpc : string) : M (list string) :=
  groups ← wrap "Could not describe security groups" (call (DescribeSecurityGroups vpc "default"));
  match groups with
  | [sg] => mret [sg]
  | _ => throw (EString "Describe call returned unexpected number of security groups")
  end.

(** [GetNetworkInterfaceByID] returns [HandleEC2Error] of the describer's error. *)
Definition session_GetNetworkInterfaceByID (eni : string) : M network_interface := λ w,
  match call (DescribeNetworkInterface eni) w with
  | (Fail e, w') => (Fail (HandleEC2Error e), w')
  | r => r
  end.

Definition session_GetInstance (id : string) (invalidateCache : bool) : M instance := λ w,
  match call (DescribeInstance id invalidateCache) w with
  | (Fail e, w') => (Fail (HandleEC2Error e), w')
  | r => r
  end.
End Ec2Session.
