(* ===== verification/Logic.v ===== *)
(** * Logic: reasoning about the handlers

    Two ways to prove something of a handler of type [M A] for every fault
    schedule and every choice of the database.  [wp] follows the statements one
    by one and knows what each query answered.  [preserves] shows that whatever
    a handler commits is related to what it started from by a preorder on
    databases, and asks only that every statement it executes is; it composes
    along the syntax of a handler, and the hint database [preserves] does the
    composing. *)
From S2P Require Import Prelude Errors Schema Service.

Open Scope string_scope.
Open Scope Z_scope.
Open Scope list_scope.

(** ** Weakest preconditions

    [wp m Q w]: running [m] in [w] ends in an outcome and a world that satisfy
    [Q].  The rules quantify over what the fault schedule does next, so a
    handler's specification holds for every schedule. *)

Definition wp {A} (m : M A) (Q : res error A → world → Prop) (w : world) : Prop :=
  Q (m w).1 (m w).2.

Lemma wp_elim {A} (m : M A) Q w r w' : wp m Q w → m w = (r, w') → Q r w'.
Proof. unfold wp. intros H E. by rewrite E in H. Qed.

Lemma wp_mono {A} (m : M A) (Q Q' : res error A → world → Prop) w :
  wp m Q w → (∀ r w', Q r w' → Q' r w') → wp m Q' w.
Proof. unfold wp. auto. Qed.

Lemma wp_ret {A} (a : A) Q w : Q (Ok a) w → wp (mret a) Q w.
Proof. done. Qed.

Lemma wp_throw {A} e (Q : res error A → world → Prop) w : Q (Fail e) w → wp (throw e) Q w.
Proof. done. Qed.

Lemma wp_panic {A} s (Q : res error A → world → Prop) w : Q (Panic s) w → wp (go_panic s) Q w.
Proof. done. Qed.

Lemma wp_bind {A B} (m : M A) (f : A → M B) Q w :
  wp m (λ r w', match r with
                | Ok a => wp (f a) Q w'
                | Fail e => Q (Fail e) w'
                | Panic s => Q (Panic s) w'
                end) w →
  wp (m ≫= f) Q w.
Proof. unfold wp, mbind, M_bind. destruct (m w) as [[a|e|s] w']; done. Qed.

Lemma wp_try {A} (m : M A) Q w :
  wp m (λ r w', match r with
                | Ok a => Q (Ok (inr a)) w'
                | Fail e => Q (Ok (inl e)) w'
                | Panic s => Q (Panic s) w'
                end) w →
  wp (try m) Q w.
Proof. unfold wp, try. destruct (m w) as [[a|e|s] w']; done. Qed.

Lemma wp_wrap {A} msg (m : M A) Q w :
  wp m (λ r w', match r with Fail e => Q (Fail (EWrap msg e)) w' | _ => Q r w' end) w →
  wp (wrap msg m) Q w.
Proof. unfold wp, wrap. destruct (m w) as [[a|e|s] w']; done. Qed.

Lemma wp_wrap_status {A} c msg (m : M A) Q w :
  wp m (λ r w', match r with Fail e => Q (Fail (EStatus c msg)) w' | _ => Q r w' end) w →
  wp (wrap_status c msg m) Q w.
Proof. unfold wp, wrap_status. destruct (m w) as [[a|e|s] w']; done. Qed.

Lemma wp_act {A} (f : world → res error A * world) Q w : Q (f w).1 (f w).2 → wp (act f) Q w.
Proof. done. Qed.

Lemma wp_fault_point Q w :
  (∀ fs, (length fs ≤ length (w_faults w))%nat → Q (Ok tt) (set_faults fs w)) →
  (∀ e fs, (length fs < length (w_faults w))%nat → Q (Fail e) (set_faults fs w)) →
  wp fault_point Q w.
Proof.
  intros HOk HFail. unfold wp, fault_point. destruct w as [d t n c [|[e|] fs] r s u k g]; simpl in *.
  - apply (HOk []). simpl. lia.
  - apply HFail. simpl. lia.
  - apply HOk. simpl. lia.
Qed.

Lemma wp_random Q w : (∀ n ns, Q (Ok n) (set_rand ns w)) → wp random Q w.
Proof.
  intros H. unfold wp, random. destruct w as [d t n c fs [|x r] s u k g]; simpl;
    [apply (H _ []) | apply H].
Qed.

Lemma wp_choose {A} (l : list A) Q w :
  (∀ a ns, a ∈ l → Q (Ok (Some a)) (set_rand ns w)) →
  (∀ ns, l = [] → Q (Ok None) (set_rand ns w)) →
  wp (choose l) Q w.
Proof.
  intros HSome HNone. unfold choose. apply wp_bind, wp_random. intros n ns. apply wp_ret.
  destruct (l !! (n mod length l)%nat) as [a|] eqn:E.
  - apply HSome. by eapply list_elem_of_lookup_2.
  - apply HNone. destruct l as [|x l]; [done|].
    apply lookup_ge_None in E. simpl in E.
    pose proof (Nat.mod_upper_bound n (S (length l))). lia.
Qed.

Lemma wp_nextval Q w : Q (Ok (w_seq w)) (set_seq (w_seq w + 1) w) → wp nextval Q w.
Proof. done. Qed.

Lemma wp_uuid Q w : (∀ s, uuid_in s = Some s → Q (Ok s) (set_uuid (S (w_uuid w)) w)) → wp uuid_New Q w.
Proof. intros H. apply H, uuid_text_canonical. Qed.

Lemma wp_now Q w : Q (Ok (w_now w)) w → wp now Q w.
Proof. done. Qed.

Lemma wp_BeginTx Q w :
  (∀ fs, (length fs ≤ length (w_faults w))%nat →
         Q (Ok (w_next_tx w))
           (set_next_tx (S (w_next_tx w))
              (set_txs (<[w_next_tx w := Some id]> (w_txs w)) (set_faults fs w)))) →
  (∀ e fs, (length fs < length (w_faults w))%nat → Q (Fail e) (set_faults fs w)) →
  wp BeginTx Q w.
Proof. intros. unfold BeginTx. apply wp_bind, wp_fault_point; auto. Qed.

Lemma wp_tx_view h g Q w :
  w_txs w !! h = Some (Some g) →
  (∀ fs, (length fs ≤ length (w_faults w))%nat → Q (Ok (g (w_db w))) (set_faults fs w)) →
  (∀ e fs, (length fs < length (w_faults w))%nat → Q (Fail e) (abort h (set_faults fs w))) →
  wp (tx_view h) Q w.
Proof.
  intros Hh HOk HFail. unfold wp, tx_view. rewrite Hh.
  pose proof (wp_fault_point
    (λ r w', match r with
             | Ok _ => Q (Ok (g (w_db w))) w' | Fail e => Q (Fail e) (abort h w')
             | Panic s => Q (Panic s) w' end) w HOk HFail) as H.
  unfold wp in H. by destruct (fault_point w) as [[]].
Qed.

Lemma wp_statement h g Q w :
  w_txs w !! h = Some (Some g) →
  (∀ fs, (length fs ≤ length (w_faults w))%nat → Q (Ok tt) (set_faults fs w)) →
  (∀ e fs, (length fs < length (w_faults w))%nat → Q (Fail e) (abort h (set_faults fs w))) →
  wp (statement h) Q w.
Proof. intros. unfold statement. apply wp_bind. eapply wp_tx_view; eauto. Qed.

Lemma wp_query {A} h (f : db → A) g Q w :
  w_txs w !! h = Some (Some g) →
  (∀ fs, (length fs ≤ length (w_faults w))%nat → Q (Ok (f (g (w_db w)))) (set_faults fs w)) →
  (∀ e fs, (length fs < length (w_faults w))%nat → Q (Fail e) (abort h (set_faults fs w))) →
  wp (query h f) Q w.
Proof. intros. unfold query. apply wp_bind. eapply wp_tx_view; eauto. Qed.

Lemma wp_queryRow {A} h (f : db → option A) g Q w :
  w_txs w !! h = Some (Some g) →
  (∀ a fs, (length fs ≤ length (w_faults w))%nat → f (g (w_db w)) = Some a → Q (Ok a) (set_faults fs w)) →
  (∀ fs, (length fs ≤ length (w_faults w))%nat → f (g (w_db w)) = None → Q (Fail ENoRows) (set_faults fs w)) →
  (∀ e fs, (length fs < length (w_faults w))%nat → Q (Fail e) (abort h (set_faults fs w))) →
  wp (queryRow h f) Q w.
Proof.
  intros Hh HOk HNone HFail. unfold queryRow. apply wp_bind. eapply wp_query; [done| |done].
  intros fs Hfs. destruct (f (g (w_db w))) eqn:E; [apply wp_ret | apply wp_throw]; auto.
Qed.

Lemma wp_queryRowAny {A} h (f : db → list A) g Q w :
  w_txs w !! h = Some (Some g) →
  (∀ a fs ns, (length fs ≤ length (w_faults w))%nat → a ∈ f (g (w_db w)) →
              Q (Ok a) (set_rand ns (set_faults fs w))) →
  (∀ fs ns, (length fs ≤ length (w_faults w))%nat → f (g (w_db w)) = [] →
              Q (Fail ENoRows) (set_rand ns (set_faults fs w))) →
  (∀ e fs, (length fs < length (w_faults w))%nat → Q (Fail e) (abort h (set_faults fs w))) →
  wp (queryRowAny h f) Q w.
Proof.
  intros Hh HOk HNone HFail. unfold queryRowAny. apply wp_bind. eapply wp_query; [done| |done].
  intros fs Hfs. apply wp_bind, wp_choose; intros.
  - by apply wp_ret, HOk.
  - by apply wp_throw, HNone.
Qed.

Lemma wp_exec_at {A} h (F : db → db → db) (r : db → A) g Q w :
  w_txs w !! h = Some (Some g) →
  (∀ fs, (length fs ≤ length (w_faults w))%nat → schema_ok (F (g (w_db w)) (g (w_db w))) →
         Q (Ok (r (g (w_db w))))
           (set_txs (<[h := Some (λ d, F (g (w_db w)) (g d))]> (w_txs w)) (set_faults fs w))) →
  (∀ fs k c, (length fs ≤ length (w_faults w))%nat →
     check_constraints (F (g (w_db w)) (g (w_db w))) = inl (EPq (violation_name k) c) →
     Q (Fail (EPq (violation_name k) c)) (abort h (set_faults fs w))) →
  (∀ e fs, (length fs < length (w_faults w))%nat → Q (Fail e) (abort h (set_faults fs w))) →
  wp (exec_at h F r) Q w.
Proof.
  intros Hh HOk HC HFail. unfold exec_at. apply wp_bind. eapply wp_tx_view; [done| |done].
  intros fs Hfs. destruct (check_constraints (F _ _)) as [e|d'] eqn:E.
  - apply wp_act. destruct (check_constraints_inl _ _ E) as (k & c & ->). by apply HC.
  - apply check_constraints_inr in E as [-> E]. apply wp_act. simpl.
    replace (alter _ _ _) with (<[h := Some (λ d, F (g (w_db w)) (g d))]> (w_txs w)); [by apply HOk|].
    apply map_eq. intros i. destruct (decide (h = i)) as [<-|].
    + rewrite lookup_alter_eq, lookup_insert_eq. by rewrite Hh.
    + by rewrite lookup_alter_ne, lookup_insert_ne.
Qed.

Lemma wp_Commit h g Q w :
  w_txs w !! h = Some (Some g) →
  (∀ fs, (length fs ≤ length (w_faults w))%nat → schema_ok (g (w_db w)) →
         Q (Ok tt) (set_db (g (w_db w)) (close h (set_faults fs w)))) →
  (∀ fs k c, (length fs ≤ length (w_faults w))%nat → check_constraints (g (w_db w)) = inl (EPq (violation_name k) c) →
     Q (Fail (EPq (violation_name k) c)) (close h (set_faults fs w))) →
  (∀ e fs, (length fs < length (w_faults w))%nat → Q (Fail e) (close h (set_faults fs w))) →
  wp (Commit h) Q w.
Proof.
  intros Hh HOk HC HFail. unfold wp, Commit.
  pose proof (wp_tx_view h g
    (λ r w', match r with
             | Ok d => d = g (w_db w) ∧ ∃ fs, (length fs ≤ length (w_faults w))%nat ∧ w' = set_faults fs w
             | Fail e => ∃ fs, (length fs < length (w_faults w))%nat ∧ w' = abort h (set_faults fs w)
             | Panic s => False end) w Hh) as H.
  unfold wp in H. destruct (tx_view h w) as [[d|e|s] w'] eqn:E; simpl in H.
  - destruct H as (-> & fs & Hfs & ->); [eauto 6..|].
    destruct (check_constraints (g (w_db w))) as [e|d'] eqn:E'; simpl.
    + destruct (check_constraints_inl _ _ E') as (k & c & ->). by apply HC.
    + apply check_constraints_inr in E' as [-> E']. by apply HOk.
  - destruct H as (fs & Hfs & ->); [eauto 6..|]. unfold close, abort. simpl.
    rewrite delete_insert_eq. by apply HFail.
  - destruct H; eauto 6.
Qed.

Lemma wp_Rollback h Q w : Q (Ok tt) (close h w) → wp (Rollback h) Q w.
Proof. done. Qed.

Lemma wp_with_tx {A} begin (body : tx → M A) Q w :
  wp begin
     (λ r w1, match r with
              | Ok h => wp (body h) (λ r w', Q r (close h w')) w1
              | Fail e => Q (Fail e) w1
              | Panic s => Q (Panic s) w1
              end) w →
  wp (with_tx begin body) Q w.
Proof.
  intros H. unfold with_tx. apply wp_bind. eapply wp_mono; [exact H|].
  intros [h|e|s] w1; [|done|done]. unfold wp, act. by destruct (body h w1) as [r w'].
Qed.

Lemma wp_scan {A} (o : option A) Q w :
  (∀ a, o = Some a → Q (Ok a) w) → (o = None → Q (Fail scan_error) w) → wp (scan o) Q w.
Proof. intros HOk HNone. destruct o; [apply wp_ret | apply wp_throw]; auto. Qed.

Lemma wp_call ec2 {A : Set} (c : ec2_call A) Q w :
  (∀ a, ec2 A (w_calls w) c = inr a → Q (Ok a) (set_calls (w_calls w ++ [Event c]) w)) →
  (∀ e, ec2 A (w_calls w) c = inl e → Q (Fail e) (set_calls (w_calls w ++ [Event c]) w)) →
  wp (call ec2 c) Q w.
Proof. intros HOk HFail. unfold wp, call. simpl. destruct (ec2 _ _ _) eqn:E; auto. Qed.

(** ** Retrying *)

Lemma wp_retrying {A} (body : M (option A)) (I : world → Prop) Q w :
  I w →
  (∀ w1, I w1 →
     wp body (λ r w', match r with
                      | Ok None => I w' ∧ (length (w_faults w') < length (w_faults w1))%nat
                      | Ok (Some a) => Q (Ok a) w'
                      | Fail e => Q (Fail e) w'
                      | Panic s => Q (Panic s) w'
                      end) w1) →
  wp (retrying body) Q w.
Proof.
  intros HI Hbody. unfold wp at 1, retrying. fold (wp (retry_loop (S (length (w_faults w))) body) Q w).
  assert (length (w_faults w) < S (length (w_faults w)))%nat as Hlt by lia. revert Hlt.
  generalize (S (length (w_faults w))) as fuel. intros fuel. revert w HI.
  induction fuel as [|n IH]; intros w HI Hlt; [lia|]. simpl. apply wp_bind.
  eapply wp_mono; [by apply Hbody|]. intros [[a|]|e|s] w'; [by intros | | by intros | by intros].
  intros [HI' Hdec]. apply IH; [done | lia].
Qed.

Lemma wp_or_retry {A B} (m : M A) fail (k : A → M (option B)) Q w :
  wp m (λ r w', match r with
                | Ok a => wp (k a) Q w'
                | Fail e => (isSerializationFailure e = true → Q (Ok None) w') ∧
                            (isSerializationFailure e = false → Q (Fail (fail e)) w')
                | Panic s => Q (Panic s) w'
                end) w →
  wp (or_retry m fail k) Q w.
Proof.
  intros H. unfold or_retry. apply wp_bind, wp_try. eapply wp_mono; [exact H|].
  intros [a|e|s] w'; [done| |done]. intros [H1 H2].
  destruct (isSerializationFailure e); [apply wp_ret | apply wp_throw]; auto.
Qed.

Lemma isSerializationFailure_Wrap msg e : isSerializationFailure (EWrap msg e) = isSerializationFailure e.
Proof. done. Qed.

Lemma violation_not_serialization k c : isSerializationFailure (EPq (violation_name k) c) = false.
Proof. by destruct k. Qed.

#[export] Hint Rewrite isSerializationFailure_Wrap violation_not_serialization : vpcerrors.

(** ** Preservation of a preorder on databases *)

(** [R] says how a database may evolve and [I] what then stays true of it. *)
Class Invariant (R : relation db) (I : db → Prop) : Prop := {
  inv_preorder :: PreOrder R;
  inv_mono d d' : I d → R d d' → I d'
}.

Section Preserves.
Context (R : relation db) (I : db → Prop) `{!Invariant R I}.

(** The committed database satisfies the schema and [I]; open transactions have
    handles below the next one and only pending writes that [R] allows. *)
Record sane (w : world) : Prop := Sane {
  sane_txs : ∀ h g, w_txs w !! h = Some (Some g) → ∀ d, R d (g d);
  sane_fresh : ∀ h o, w_txs w !! h = Some o → (h < w_next_tx w)%nat;
  sane_schema : schema_ok (w_db w);
  sane_inv : I (w_db w)
}.

Record evolves (w w' : world) : Prop := Evolves {
  ev_related : R (w_db w) (w_db w');
  ev_sane : sane w';
  ev_next : (w_next_tx w ≤ w_next_tx w')%nat;
  ev_faults : (length (w_faults w') ≤ length (w_faults w))%nat
}.

Definition preserves {A} (m : M A) : Prop := ∀ w, sane w → wp m (λ _ w', evolves w w') w.

(** A body of [retrying]: it also uses up an entry of the fault schedule when
    it jumps back. *)
Definition retry_body {A} (m : M (option A)) : Prop := ∀ w, sane w →
  wp m (λ r w', evolves w w' ∧ (r = Ok None → (length (w_faults w') < length (w_faults w))%nat)) w.

(** A statement that fails with a serialization failure was made to fail. *)
Definition serial {A} (m : M A) : Prop := ∀ w, sane w →
  wp m (λ r w', evolves w w' ∧
          ∀ e, r = Fail e → isSerializationFailure e = true →
               (length (w_faults w') < length (w_faults w))%nat) w.

Lemma evolves_refl w : sane w → evolves w w.
Proof. by split. Qed.

Lemma evolves_trans w1 w2 w3 : evolves w1 w2 → evolves w2 w3 → evolves w1 w3.
Proof. intros [? ? ? ?] [? ? ? ?]. split; auto; [by etrans | lia | lia]. Qed.

Lemma sane_close h w : sane w → sane (close h w).
Proof.
  intros [H1 H2 ? ?]. split; unfold close; simpl; try done;
    intros ? ? [_ Hl]%lookup_delete_Some; eauto.
Qed.

Lemma sane_insert h o w :
  sane w → is_Some (w_txs w !! h) → (∀ g, o = Some g → ∀ d, R d (g d)) →
  sane (set_txs (<[h := o]> (w_txs w)) w).
Proof.
  intros [H1 H2 ? ?] [o' Hh] Ho. split; simpl; try done; intros h' g Hl;
    apply lookup_insert_Some in Hl as [[<- Hl]|[_ Hl]]; eauto.
Qed.

Lemma evolves_close h w w' : evolves w w' → evolves w (close h w').
Proof. intros [? ? ? ?]. split; simpl; auto. by apply sane_close. Qed.

Lemma evolves_abort h w w' : evolves w w' → is_Some (w_txs w' !! h) → evolves w (abort h w').
Proof. intros [? ? ? ?] ?. split; simpl; auto. by apply sane_insert. Qed.

Lemma evolves_calls c w w' : evolves w w' → evolves w (set_calls c w').
Proof. intros [? [? ? ? ?] ? ?]. by split. Qed.

Lemma evolves_faults fs w w' :
  evolves w w' → (length fs ≤ length (w_faults w'))%nat → evolves w (set_faults fs w').
Proof. intros [? [? ? ? ?] ? ?] ?. split; try done. simpl. lia. Qed.

Lemma evolves_rand ns w w' : evolves w w' → evolves w (set_rand ns w').
Proof. intros [? [? ? ? ?] ? ?]. by split. Qed.

Lemma preserves_ret {A} (a : A) : preserves (mret a).
Proof. intros w Hw. by apply wp_ret, evolves_refl. Qed.

Lemma preserves_throw {A} e : preserves (@throw A e).
Proof. intros w Hw. by apply wp_throw, evolves_refl. Qed.

Lemma preserves_panic {A} s : preserves (@go_panic A s).
Proof. intros w Hw. by apply wp_panic, evolves_refl. Qed.

Lemma preserves_bind {A B} (m : M A) (f : A → M B) :
  preserves m → (∀ a, preserves (f a)) → preserves (m ≫= f).
Proof.
  intros Hm Hf w Hw. apply wp_bind. eapply wp_mono; [by apply Hm|].
  intros [a|e|s] w' Ht; [|done|done]. eapply wp_mono; [by apply Hf, Ht|].
  intros r w2 Ht2. by eapply evolves_trans.
Qed.

Lemma preserves_try {A} (m : M A) : preserves m → preserves (try m).
Proof. intros Hm w Hw. apply wp_try. eapply wp_mono; [by apply Hm|]. by intros [] ?. Qed.

Lemma preserves_wrap {A} msg (m : M A) : preserves m → preserves (wrap msg m).
Proof. intros Hm w Hw. apply wp_wrap. eapply wp_mono; [by apply Hm|]. by intros [] ?. Qed.

Lemma preserves_wrap_status {A} c msg (m : M A) : preserves m → preserves (wrap_status c msg m).
Proof. intros Hm w Hw. apply wp_wrap_status. eapply wp_mono; [by apply Hm|]. by intros [] ?. Qed.

Lemma preserves_fault_point : preserves fault_point.
Proof.
  intros w Hw. apply wp_fault_point; intros; apply evolves_faults; auto using evolves_refl; lia.
Qed.

Lemma preserves_get_world : preserves get_world.
Proof. intros w Hw. by apply evolves_refl. Qed.

Lemma preserves_choose {A} (l : list A) : preserves (choose l).
Proof. intros w Hw. apply wp_choose; intros; by apply evolves_rand, evolves_refl. Qed.

Lemma preserves_random : preserves random.
Proof. intros w Hw. apply wp_random; intros; by apply evolves_rand, evolves_refl. Qed.

Lemma preserves_nextval : preserves nextval.
Proof. intros w [? ? ? ?]. apply wp_nextval. by split. Qed.

Lemma preserves_uuid : preserves uuid_New.
Proof. intros w [? ? ? ?]. apply wp_uuid. intros s _. by split. Qed.

Lemma preserves_now : preserves now.
Proof. intros w Hw. by apply wp_now, evolves_refl. Qed.

Lemma preserves_call ec2 {A : Set} (c : ec2_call A) : preserves (call ec2 c).
Proof. intros w Hw. apply wp_call; intros; by apply evolves_calls, evolves_refl. Qed.

Lemma preserves_BeginTx : preserves BeginTx.
Proof.
  intros w Hw. apply wp_BeginTx; intros fs; intros; [|apply evolves_faults; auto using evolves_refl; lia].
  destruct Hw as [H1 H2 ? ?]. split; try done; simpl; [|lia].
  split; simpl; try done; intros h o Hl; apply lookup_insert_Some in Hl as [[<- Hl]|[_ Hl]]; simplify_eq;
    try (by eauto); try lia. apply H2 in Hl. lia.
Qed.

(** A statement on a transaction that is over or aborted changes nothing. *)
Lemma wp_tx_view_closed h Q w :
  (∀ g, w_txs w !! h ≠ Some (Some g)) →
  (∀ e, isSerializationFailure e = false → Q (Fail e) w) → wp (tx_view h) Q w.
Proof.
  intros Hh HQ. unfold wp, tx_view. destruct (w_txs w !! h) as [[g|]|] eqn:E; [naive_solver| |];
    by apply HQ.
Qed.

Lemma serial_tx_view h : serial (tx_view h).
Proof.
  intros w Hw. destruct (w_txs w !! h) as [[g|]|] eqn:Hh.
  - eapply wp_tx_view; [done| |]; simpl; intros.
    + split; [|done]. apply evolves_faults; auto using evolves_refl.
    + split; [|intros; simpl; lia]. apply evolves_abort; [|by eexists].
      apply evolves_faults; auto using evolves_refl. lia.
  - apply wp_tx_view_closed; [naive_solver|]. intros e He. split; [by apply evolves_refl|]. congruence.
  - apply wp_tx_view_closed; [naive_solver|]. intros e He. split; [by apply evolves_refl|]. congruence.
Qed.

(** A statement on a transaction in whatever state. *)
Lemma wp_tx_view_sane h w :
  sane w →
  wp (tx_view h) (λ r w',
    evolves w w' ∧ w_db w' = w_db w ∧ (∀ h', h' ≠ h → w_txs w' !! h' = w_txs w !! h') ∧
    (∀ g, w_txs w' !! h = Some (Some g) → w_txs w !! h = Some (Some g)) ∧
    match r with
    | Ok d => ∃ g, w_txs w' !! h = Some (Some g) ∧ d = g (w_db w)
    | Fail _ => True
    | Panic _ => False
    end) w.
Proof.
  intros Hw. destruct (w_txs w !! h) as [[g|]|] eqn:Hh.
  - eapply wp_tx_view; [done| |]; simpl; intros.
    + split_and!; [apply evolves_faults; auto using evolves_refl|done|done|congruence|by exists g].
    + split_and!; [|done|by intros; apply lookup_insert_ne|by rewrite lookup_insert_eq|done].
      apply evolves_abort; [|by eexists]. apply evolves_faults; auto using evolves_refl. lia.
  - apply wp_tx_view_closed; [naive_solver|]. intros e _. split_and!; [by apply evolves_refl|done|done|congruence|done].
  - apply wp_tx_view_closed; [naive_solver|]. intros e _. split_and!; [by apply evolves_refl|done|done|congruence|done].
Qed.

Lemma wp_statement_sane h w :
  sane w →
  wp (statement h) (λ r w',
    evolves w w' ∧ w_db w' = w_db w ∧ (∀ h', h' ≠ h → w_txs w' !! h' = w_txs w !! h') ∧
    (∀ g, w_txs w' !! h = Some (Some g) → w_txs w !! h = Some (Some g)) ∧
    match r with Panic _ => False | _ => True end) w.
Proof.
  intros Hw. apply wp_bind. eapply wp_mono; [by apply wp_tx_view_sane|].
  intros [d|e|s] w' (? & ? & ? & ? & ?); [apply wp_ret|..]; done.
Qed.

Lemma serial_preserves {A} (m : M A) : serial m → preserves m.
Proof. intros H w Hw. eapply wp_mono; [by apply H|]. by intros r w' []. Qed.

(** [serial] for a statement followed by code that only looks at its answer. *)
Lemma serial_bind {A B} (m : M A) (f : A → M B) :
  serial m → (∀ a, serial (f a)) → serial (m ≫= f).
Proof.
  intros Hm Hf w Hw. apply wp_bind. eapply wp_mono; [by apply Hm|].
  intros [a|e|s] w' [Ht H]; [|naive_solver|naive_solver].
  eapply wp_mono; [by apply Hf, Ht|]. intros r w2 [Ht2 H2]. split; [by eapply evolves_trans|].
  intros e -> He. specialize (H2 e eq_refl He). destruct Ht. lia.
Qed.

Lemma serial_of_total {A} (m : M A) : preserves m → (∀ w e, (m w).1 ≠ Fail e) → serial m.
Proof.
  intros Hm Hne w Hw. specialize (Hm w Hw). unfold wp in *. split; [done|].
  intros e He. by destruct (Hne w e).
Qed.

Lemma serial_ret {A} (a : A) : serial (mret a).
Proof. by apply serial_of_total; [apply preserves_ret | intros w e]. Qed.

Lemma serial_throw {A} e : isSerializationFailure e = false → serial (@throw A e).
Proof.
  intros He w Hw. apply wp_throw. split; [by apply evolves_refl|]. intros ? [= <-]. congruence.
Qed.

Lemma serial_choose {A} (l : list A) : serial (choose l).
Proof.
  apply serial_of_total; [apply preserves_choose|]. intros w e. unfold choose.
  change (wp (n ← random; mret (l !! (n mod length l)%nat)) (λ r _, r ≠ Fail e) w).
  by apply wp_bind, wp_random.
Qed.

Lemma serial_statement h : serial (statement h).
Proof. apply serial_bind; [apply serial_tx_view | intros; apply serial_ret]. Qed.

Lemma serial_query {A} h (f : db → A) : serial (query h f).
Proof. apply serial_bind; [apply serial_tx_view | intros; apply serial_ret]. Qed.

Lemma serial_queryRow {A} h (f : db → option A) : serial (queryRow h f).
Proof.
  apply serial_bind; [apply serial_query|]. intros []; [apply serial_ret | by apply serial_throw].
Qed.

Lemma serial_queryRowAny {A} h (f : db → list A) : serial (queryRowAny h f).
Proof.
  apply serial_bind; [apply serial_query|]. intros l. apply serial_bind; [apply serial_choose|].
  intros []; [apply serial_ret | by apply serial_throw].
Qed.

Lemma serial_scan {A} (o : option A) : serial (scan o).
Proof. destruct o; [apply serial_ret | by apply serial_throw]. Qed.

(** An update on a transaction in whatever state, knowing what it sees. *)
Lemma wp_exec_at_sane {A} h F (r : db → A) w :
  sane w → (∀ g, w_txs w !! h = Some (Some g) → ∀ d, R d (F (g (w_db w)) d)) →
  wp (exec_at h F r) (λ r' w',
    evolves w w' ∧ w_db w' = w_db w ∧ (∀ h', h' ≠ h → w_txs w' !! h' = w_txs w !! h') ∧
    match r' with
    | Ok _ => ∃ g, w_txs w !! h = Some (Some g) ∧
                   w_txs w' !! h = Some (Some (λ d, F (g (w_db w)) (g d)))
    | Fail e => (isSerializationFailure e = true → (length (w_faults w') < length (w_faults w))%nat) ∧
                ∀ g, w_txs w' !! h ≠ Some (Some g)
    | Panic _ => False
    end) w.
Proof.
  intros Hw HF. destruct (w_txs w !! h) as [[g|]|] eqn:Hh.
  - eapply wp_exec_at; [done|..]; simpl; intros.
    + split_and!; [|done|by intros; apply lookup_insert_ne|].
      * split; simpl; try done. apply (sane_insert _ _ (set_faults fs w)); simpl; [by destruct Hw|by eexists|].
        intros g' [= <-] d. etrans; [|by apply HF]. by eapply sane_txs.
      * exists g. by rewrite lookup_insert_eq.
    + split_and!; [|done|by intros; apply lookup_insert_ne|by rewrite violation_not_serialization|
        by rewrite lookup_insert_eq].
      apply evolves_abort; [|by eexists]. apply evolves_faults; auto using evolves_refl.
    + split_and!; [|done|by intros; apply lookup_insert_ne|done|by rewrite lookup_insert_eq].
      apply evolves_abort; [|by eexists]. apply evolves_faults; auto using evolves_refl. lia.
  - apply wp_bind, wp_tx_view_closed; [naive_solver|]. intros e He.
    split_and!; [by apply evolves_refl|done|done|congruence|congruence].
  - apply wp_bind, wp_tx_view_closed; [naive_solver|]. intros e He.
    split_and!; [by apply evolves_refl|done|done|congruence|congruence].
Qed.

Lemma serial_exec_at {A} h F (r : db → A) : (∀ d0 d, R d (F d0 d)) → serial (exec_at h F r).
Proof.
  intros HF w Hw. eapply wp_mono; [by apply wp_exec_at_sane|].
  intros [a|e|s] w' (Hev & _ & _ & H); (split; [done|]); naive_solver.
Qed.

Lemma serial_exec h f : (∀ d, R d (f d)) → serial (exec h f).
Proof. intros Hf. by apply serial_exec_at. Qed.

Lemma wp_Commit_sane h w :
  sane w →
  wp (Commit h) (λ r w',
    evolves w w' ∧ (∀ h', h' ≠ h → w_txs w' !! h' = w_txs w !! h') ∧ w_txs w' !! h = None ∧
    match r with
    | Ok _ => ∃ g, w_txs w !! h = Some (Some g) ∧ w_db w' = g (w_db w)
    | Fail e => w_db w' = w_db w ∧
                (isSerializationFailure e = true →
                 (length (w_faults w') < length (w_faults w))%nat ∧ ∃ g, w_txs w !! h = Some (Some g))
    | Panic _ => False
    end) w.
Proof.
  intros Hw. destruct (w_txs w !! h) as [[g|]|] eqn:Hh.
  - eapply wp_Commit; [done|..]; simpl; intros.
    + assert (R (w_db w) (g (w_db w))) by by eapply sane_txs.
      split_and!; [|by intros; apply lookup_delete_ne|apply lookup_delete_eq|by exists g].
      split; simpl; try done. destruct (sane_close h w Hw). split; try done.
      by eapply inv_mono.
    + split_and!; [|by intros; apply lookup_delete_ne|apply lookup_delete_eq|done|
                    by rewrite violation_not_serialization].
      apply evolves_close, evolves_faults; auto using evolves_refl.
    + split_and!; [|by intros; apply lookup_delete_ne|apply lookup_delete_eq|done|by eauto].
      apply evolves_close, evolves_faults; auto using evolves_refl. lia.
  - unfold wp, Commit, tx_view. rewrite Hh. simpl.
    split_and!; [by apply evolves_close, evolves_refl|by intros; apply lookup_delete_ne|apply lookup_delete_eq|done|done].
  - unfold wp, Commit, tx_view. rewrite Hh. simpl.
    split_and!; [by apply evolves_close, evolves_refl|by intros; apply lookup_delete_ne|apply lookup_delete_eq|done|done].
Qed.

Lemma serial_Commit h : serial (Commit h).
Proof.
  intros w Hw. eapply wp_mono; [by apply wp_Commit_sane|].
  intros [a|e|s] w' (Hev & _ & _ & H); (split; [done|]); naive_solver.
Qed.

Lemma serial_wrap {A} msg (m : M A) : serial m → serial (wrap msg m).
Proof.
  intros Hm w Hw. apply wp_wrap. eapply wp_mono; [by apply Hm|]. intros [a|e|s] w' [Ht H];
    (split; [done|]); [naive_solver| |naive_solver]. intros ? [= <-] He. by apply (H e).
Qed.

Lemma preserves_Rollback h : preserves (Rollback h).
Proof. intros w Hw. apply wp_Rollback. by apply evolves_close, evolves_refl. Qed.

Lemma preserves_with_tx {A} begin (body : tx → M A) :
  preserves begin → (∀ h, preserves (body h)) → preserves (with_tx begin body).
Proof.
  intros Hb Hbody w Hw. apply wp_with_tx. eapply wp_mono; [by apply Hb|].
  intros [h|e|s] w1 Ht; [|done|done]. eapply wp_mono; [by apply Hbody, Ht|].
  intros r w' Ht'. by eapply evolves_close, evolves_trans.
Qed.

Lemma preserves_beginSerializableTx : preserves beginSerializableTx.
Proof.
  apply preserves_bind; [apply preserves_wrap, preserves_BeginTx|]. intros h.
  apply preserves_bind; [apply preserves_try, serial_preserves, serial_statement|].
  intros [e|[]]; [|apply preserves_ret].
  apply preserves_bind; [apply preserves_Rollback | intros; apply preserves_throw].
Qed.

(** *** Retry loops *)

Lemma retry_body_ret {A} (a : A) : retry_body (mret (Some a)).
Proof. intros w Hw. apply wp_ret. split; [by apply evolves_refl | done]. Qed.

Lemma retry_body_throw {A} e : retry_body (@throw (option A) e).
Proof. intros w Hw. apply wp_throw. split; [by apply evolves_refl | done]. Qed.

Lemma retry_body_bind {A B} (m : M A) (f : A → M (option B)) :
  preserves m → (∀ a, retry_body (f a)) → retry_body (m ≫= f).
Proof.
  intros Hm Hf w Hw. apply wp_bind. eapply wp_mono; [by apply Hm|].
  intros [a|e|s] w' Ht; [|naive_solver|naive_solver]. eapply wp_mono; [by apply Hf, Ht|].
  intros r w2 [Ht2 H2]. split; [by eapply evolves_trans|]. intros Hr. specialize (H2 Hr).
  destruct Ht. lia.
Qed.

Lemma retry_body_or_retry {A B} (m : M A) fail (k : A → M (option B)) :
  serial m → (∀ a, retry_body (k a)) → retry_body (or_retry m fail k).
Proof.
  intros Hm Hk w Hw. apply wp_or_retry. eapply wp_mono; [by apply Hm|].
  intros [a|e|s] w' [Ht H]; [|split; intros He; (split; [done|]); naive_solver|naive_solver].
  eapply wp_mono; [by apply Hk, Ht|]. intros r w2 [Ht2 H2]. split; [by eapply evolves_trans|].
  intros Hr. specialize (H2 Hr). destruct Ht. lia.
Qed.

Lemma retry_body_with_tx {A} begin (body : tx → M (option A)) :
  preserves begin → (∀ h, retry_body (body h)) → retry_body (with_tx begin body).
Proof.
  intros Hb Hbody w Hw. apply wp_with_tx. eapply wp_mono; [by apply Hb|].
  intros [h|e|s] w1 Ht; [|naive_solver|naive_solver]. eapply wp_mono; [by apply Hbody, Ht|].
  intros r w' [Ht' H']. split; [by eapply evolves_close, evolves_trans|].
  intros Hr. specialize (H' Hr). destruct Ht. simpl. lia.
Qed.

Lemma preserves_retrying {A} (body : M (option A)) : retry_body body → preserves (retrying body).
Proof.
  intros Hb w Hw. eapply (wp_retrying _ (λ w', evolves w w')); [by apply evolves_refl|].
  intros w1 Ht. eapply wp_mono; [by apply Hb, Ht|].
  intros [[a|]|e|s] w' [Ht' H]; try (by eapply evolves_trans).
  split; [by eapply evolves_trans | by apply H].
Qed.

(** The loop ends before its fuel does. *)
Lemma retry_terminates {A} (body : M (option A)) w :
  retry_body body → (∀ s w', (body w').1 ≠ Panic s) → sane w →
  ∀ s, (retrying body w).1 ≠ Panic s.
Proof.
  intros Hb Hnp Hw s.
  change (wp (retrying body) (λ r _, r ≠ Panic s) w).
  eapply (wp_retrying _ sane); [done|]. intros w1 Hw1.
  specialize (Hb w1 Hw1). specialize (Hnp s w1). unfold wp in *.
  destruct (body w1) as [[[a|]|e|s'] w'] eqn:E; simpl in *; try done; [|congruence].
  destruct Hb as [Ht H]. split; [apply Ht | by apply H].
Qed.
End Preserves.

Create HintDb preserves.
#[export] Hint Resolve preserves_ret preserves_throw preserves_panic preserves_bind preserves_try
  preserves_wrap preserves_wrap_status preserves_fault_point preserves_get_world preserves_choose
  preserves_random preserves_nextval preserves_uuid preserves_now preserves_call preserves_BeginTx
  preserves_Rollback preserves_with_tx preserves_beginSerializableTx preserves_retrying
  retry_body_ret retry_body_throw retry_body_bind retry_body_or_retry retry_body_with_tx
  serial_ret serial_statement serial_query serial_queryRow serial_queryRowAny serial_scan
  serial_exec serial_exec_at serial_Commit serial_wrap : preserves.

(** Walks the syntax of a handler; what is left are the statements that need an
    argument of their own. *)
Ltac preserves_step :=
  match goal with
  | |- preserves _ _ (match ?x with _ => _ end) => destruct x
  | |- retry_body _ _ (match ?x with _ => _ end) => destruct x
  | |- serial _ _ (match ?x with _ => _ end) => destruct x
  | |- preserves _ _ (_ ≫= _) => apply (preserves_bind _ _); [|intros]
  | |- preserves _ _ (try _) => apply (preserves_try _ _)
  | |- preserves _ _ (wrap _ _) => apply (preserves_wrap _ _)
  | |- preserves _ _ (wrap_status _ _ _) => apply (preserves_wrap_status _ _)
  | |- preserves _ _ (with_tx _ _) => apply (preserves_with_tx _ _); [|intros]
  | |- preserves _ _ (retrying _) => apply (preserves_retrying _ _)
  | |- retry_body _ _ (with_tx _ _) => apply (retry_body_with_tx _ _); [|intros]
  | |- retry_body _ _ (or_retry _ _ _) => apply (retry_body_or_retry _ _); [|intros]
  | |- retry_body _ _ (mret (Some _)) => apply (retry_body_ret _ _)
  | |- retry_body _ _ (throw _) => apply (retry_body_throw _ _)
  | |- retry_body _ _ (_ ≫= _) => apply (retry_body_bind _ _); [|intros]
  | |- serial _ _ (wrap _ _) => apply (serial_wrap _ _)
  | |- serial _ _ (_ ≫= _) => apply (serial_bind _ _); [|intros]
  | |- serial _ _ (throw _) => apply (serial_throw _ _); reflexivity
  | |- preserves _ _ (session_call _ _ _) => unfold session_call
  | |- _ => progress (eauto 3 with preserves typeclass_instances; try done)
  | |- serial _ _ (exec _ _) => apply (serial_exec _ _); intros
  | |- serial _ _ (exec_at _ _ _) => apply (serial_exec_at _ _); intros
  | |- preserves _ _ (exec _ _) => apply (serial_preserves _ _)
  | |- preserves _ _ (exec_at _ _ _) => apply (serial_preserves _ _)
  | |- preserves _ _ _ => apply (serial_preserves _ _); solve [eauto 3 with preserves typeclass_instances]
  end.

Ltac preserves_walk := repeat preserves_step.

(** ** Beginning a transaction *)

(** The world after a transaction was begun in [w]. *)
Definition begun (fs : list (option error)) (w : world) : world :=
  set_next_tx (S (w_next_tx w)) (set_txs (<[w_next_tx w := Some id]> (w_txs w)) (set_faults fs w)).

Lemma evolves_begun R I `{!Invariant R I} fs w :
  sane R I w → (length fs ≤ length (w_faults w))%nat → evolves R I w (begun fs w).
Proof.
  intros [H1 H2 ? ?] Hfs. split; simpl; [done| |lia|lia].
  split; simpl; try done; intros h o Hl; apply lookup_insert_Some in Hl as [[<- Hl]|[_ Hl]];
    simplify_eq; try (by eauto); try lia. apply H2 in Hl. lia.
Qed.

Lemma wp_beginSerializableTx R I `{!Invariant R I} Q w :
  sane R I w →
  (∀ fs, (length fs ≤ length (w_faults w))%nat → evolves R I w (begun fs w) →
         Q (Ok (w_next_tx w)) (begun fs w)) →
  (∀ e w', evolves R I w w' → w_db w' = w_db w → w_txs w' = w_txs w → Q (Fail e) w') →
  wp beginSerializableTx Q w.
Proof.
  intros Hw HOk HFail. unfold beginSerializableTx.
  apply wp_bind, wp_wrap, wp_BeginTx; cycle 1.
  { intros e fs Hfs. apply HFail; [|done|done].
    apply evolves_faults; [by apply evolves_refl | lia]. }
  intros fs Hfs. fold (begun fs w).
  assert (∀ fs', (length fs' ≤ length fs)%nat → evolves R I w (begun fs' w)) as Hev.
  { intros fs' Hfs'. apply (evolves_begun _ _); [done | lia]. }
  apply wp_bind, wp_try. eapply wp_statement; [apply lookup_insert_eq| |]; intros.
  - apply wp_ret. apply (HOk fs0); [simpl in *; lia | by apply Hev].
  - apply wp_bind, wp_Rollback, wp_throw. apply HFail; [|done|].
    + apply (evolves_close R I), (evolves_abort R I); simpl in *.
      * apply (Hev fs0). lia.
      * rewrite lookup_insert_eq. by eexists.
    + unfold close, abort, begun. simpl. rewrite insert_insert_eq, delete_insert_id; [done|].
      destruct (w_txs w !! w_next_tx w) eqn:E; [|done]. apply (sane_fresh _ _ _ Hw) in E. lia.
Qed.

Lemma wp_preserves {A} R I (m : M A) Q w :
  preserves R I m → sane R I w → (∀ r w', evolves R I w w' → Q r w') → wp m Q w.
Proof. intros Hm Hw HQ. eapply wp_mono; [by apply Hm | auto]. Qed.

Create HintDb evolves.
#[export] Hint Resolve evolves_refl evolves_faults evolves_rand evolves_calls evolves_close
  evolves_abort : evolves.

(** ** Inside a transaction

    Between the begin and the commit of a fast transaction the committed
    database is some [d], and the transaction sees [g d] for its pending writes
    [g].  [stmt] says what a statement does to [g]; every failure leaves a world
    in which the transaction, once closed, has done nothing. *)

Section InTx.
Context (R : relation db) (I : db → Prop) `{!Invariant R I}.

Record in_tx (w0 : world) (h : tx) (d : db) (g : db → db) (w : world) : Prop := InTx {
  it_evolves : evolves R I w0 w;
  it_db : w_db w = d;
  it_tx : w_txs w !! h = Some (Some g);
  it_others : w_txs (close h w) = w_txs w0
}.

Record undone (w0 : world) (h : tx) (d : db) (w : world) : Prop := Undone {
  ud_evolves : evolves R I w0 (close h w);
  ud_db : w_db w = d;
  ud_others : w_txs (close h w) = w_txs w0
}.

Definition shorter (w w0 : world) : Prop := (length (w_faults w) < length (w_faults w0))%nat.

Definition stmt {A} (h : tx) (d : db) (g : db → db) (m : M A) (K : A → (db → db) → Prop) : Prop :=
  ∀ w0 w, in_tx w0 h d g w →
  wp m (λ r w', match r with
                | Ok a => ∃ g', in_tx w0 h d g' w' ∧ K a g'
                | Fail e => undone w0 h d w' ∧ (isSerializationFailure e = true → shorter w' w0)
                | Panic _ => False
                end) w.

Lemma in_tx_undone w0 h d g w : in_tx w0 h d g w → undone w0 h d w.
Proof. intros [? ? ? ?]. split; [by apply evolves_close | done | done]. Qed.

Lemma in_tx_faults w0 h d g w fs :
  in_tx w0 h d g w → (length fs ≤ length (w_faults w))%nat → in_tx w0 h d g (set_faults fs w).
Proof. intros [? ? ? ?] ?. split; [by apply evolves_faults | done..]. Qed.

Lemma in_tx_abort w0 h d g w fs :
  in_tx w0 h d g w → (length fs < length (w_faults w))%nat →
  undone w0 h d (abort h (set_faults fs w)) ∧ shorter (abort h (set_faults fs w)) w0.
Proof.
  intros [Hev Hd Ht Ho] Hfs. split.
  - split; [|done|by simpl in *; rewrite delete_insert_eq]. apply evolves_close, evolves_abort; [|by eexists].
    apply evolves_faults; [done | lia].
  - unfold shorter. simpl. destruct Hev. lia.
Qed.

Lemma stmt_ret {A} h d g (a : A) : stmt h d g (mret a) (λ a' g', a' = a ∧ g' = g).
Proof. intros w0 w Hw. apply wp_ret. eauto. Qed.

Lemma stmt_wrap {A} h d g msg (m : M A) K : stmt h d g m K → stmt h d g (wrap msg m) K.
Proof. intros Hm w0 w Hw. apply wp_wrap. eapply wp_mono; [by apply Hm|]. by intros [] ?. Qed.

Lemma stmt_statement h d g : stmt h d g (statement h) (λ _ g', g' = g).
Proof.
  intros w0 w Hw. eapply wp_statement; [apply Hw|..]; intros; simpl.
  - eauto using in_tx_faults.
  - edestruct in_tx_abort; eauto.
Qed.

Lemma stmt_query {A} h d g (f : db → A) : stmt h d g (query h f) (λ a g', a = f (g d) ∧ g' = g).
Proof.
  intros w0 w Hw. eapply wp_query; [apply Hw|..]; intros; simpl.
  - exists g. rewrite (it_db _ _ _ _ _ Hw). eauto using in_tx_faults.
  - edestruct in_tx_abort; eauto.
Qed.

Lemma stmt_queryRow {A} h d g (f : db → option A) :
  stmt h d g (queryRow h f) (λ a g', f (g d) = Some a ∧ g' = g).
Proof.
  intros w0 w Hw. pose proof (it_db _ _ _ _ _ Hw) as Hd.
  eapply wp_queryRow; [apply Hw|..]; rewrite ?Hd; intros; simpl.
  - eauto 6 using in_tx_faults.
  - split; [|done]. eauto using in_tx_undone, in_tx_faults.
  - edestruct in_tx_abort; eauto.
Qed.

Lemma in_tx_rand w0 h d g w ns : in_tx w0 h d g w → in_tx w0 h d g (set_rand ns w).
Proof. intros [? ? ? ?]. split; [by apply evolves_rand | done..]. Qed.

Lemma stmt_queryRowAny {A} h d g (f : db → list A) :
  stmt h d g (queryRowAny h f) (λ a g', a ∈ f (g d) ∧ g' = g).
Proof.
  intros w0 w Hw. pose proof (it_db _ _ _ _ _ Hw) as Hd.
  eapply wp_queryRowAny; [apply Hw|..]; rewrite ?Hd; intros; simpl.
  - exists g. split; [|done]. by apply in_tx_rand, in_tx_faults.
  - split; [|done]. by eapply in_tx_undone, in_tx_rand, in_tx_faults.
  - edestruct in_tx_abort; eauto.
Qed.

Lemma stmt_uuid h d g : stmt h d g uuid_New (λ _ g', g' = g).
Proof.
  intros w0 w [Hev Hd Ht Ho]. apply wp_uuid. intros s _. exists g. split; [|done].
  split; [|done..]. destruct Hev as [? [? ? ? ?] ? ?]. by split.
Qed.

Lemma stmt_nextval h d g : stmt h d g nextval (λ _ g', g' = g).
Proof.
  intros w0 w [Hev Hd Ht Ho]. apply wp_nextval. exists g. split; [|done].
  split; [|done..]. destruct Hev as [? [? ? ? ?] ? ?]. by split.
Qed.

Lemma stmt_now h d g : stmt h d g now (λ _ g', g' = g).
Proof. intros w0 w Hw. apply wp_now. eauto. Qed.

Lemma stmt_exec_at {A} h d g F (r : db → A) :
  (∀ d', R d' (F (g d) d')) →
  stmt h d g (exec_at h F r)
    (λ a g', a = r (g d) ∧ g' = (λ d', F (g d) (g d')) ∧ schema_ok (F (g d) (g d))).
Proof.
  intros HF w0 w Hw. pose proof Hw as [Hev Hd Ht Ho]. subst d.
  eapply wp_exec_at; [done|..]; intros; simpl.
  - eexists. split; [|done]. split; [|done|apply lookup_insert_eq|by simpl in *; rewrite delete_insert_eq].
    pose proof (ev_sane _ _ _ _ Hev) as Hs. destruct Hev. split; simpl; [done| |done|lia].
    apply (sane_insert R I h _ (set_faults fs w)); simpl; [by destruct Hs|by eexists|].
    intros g' [= <-] d. etrans; [|apply HF]. by eapply sane_txs.
  - split; [|by rewrite violation_not_serialization].
    split; [|done|by simpl in *; rewrite delete_insert_eq].
    apply evolves_close, evolves_abort; [|by eexists]. by apply evolves_faults.
  - by edestruct (in_tx_abort w0 h (w_db w) g w).
Qed.

Lemma stmt_exec h d g f :
  (∀ d', R d' (f d')) →
  stmt h d g (exec h f) (λ _ g', g' = (λ d', f (g d')) ∧ schema_ok (f (g d))).
Proof.
  intros Hf w0 w Hw. eapply wp_mono; [by eapply (stmt_exec_at h d g (λ _, f))|].
  intros [a|e|s] w'; [|done|done]. intros (g' & ? & ? & ? & ?). eauto.
Qed.

(** *** Composition *)

(** What the body of a transaction that is retried has to establish; [Q] is
    about the world after the deferred rollback. *)
Definition tx_post {A} (w0 : world) (h : tx) (d : db) (Q : res error A → world → Prop)
    (r : res error (option A)) (w : world) : Prop :=
  match r with
  | Ok None => undone w0 h d w ∧ shorter w w0
  | Ok (Some a) => Q (Ok a) (close h w)
  | Fail e => Q (Fail e) (close h w)
  | Panic s => Q (Panic s) (close h w)
  end.

(** [Q] holds of every failure that changed nothing. *)
Definition allows_failure {A} (w0 : world) (d : db) (Q : res error A → world → Prop) : Prop :=
  ∀ e w, evolves R I w0 w → w_db w = d → w_txs w = w_txs w0 → Q (Fail e) w.

Lemma tx_or_retry {A B} w0 h d g (m : M A) K fail (k : A → M (option B)) Q w :
  stmt h d g m K → in_tx w0 h d g w → allows_failure w0 d Q →
  (∀ a g' w', K a g' → in_tx w0 h d g' w' → wp (k a) (tx_post w0 h d Q) w') →
  wp (or_retry m fail k) (tx_post w0 h d Q) w.
Proof.
  intros Hm Hw Hf Hk. apply wp_or_retry. eapply wp_mono; [by apply Hm|].
  intros [a|e|s] w'; [by intros (g' & ? & ?); eapply Hk| |done].
  intros [Hu Hs]. split; intros He; [by split; auto|]. simpl. apply Hf; apply Hu.
Qed.

Lemma tx_bind {A B} w0 h d g (m : M A) K (k : A → M (option B)) Q w :
  stmt h d g m K → in_tx w0 h d g w → allows_failure w0 d Q →
  (∀ a g' w', K a g' → in_tx w0 h d g' w' → wp (k a) (tx_post w0 h d Q) w') →
  wp (m ≫= k) (tx_post w0 h d Q) w.
Proof.
  intros Hm Hw Hf Hk. apply wp_bind. eapply wp_mono; [by apply Hm|].
  intros [a|e|s] w'; [by intros (g' & ? & ?); eapply Hk| |done].
  intros [Hu _]. apply Hf; apply Hu.
Qed.

Lemma tx_throw {A} w0 h d g e (Q : res error A → world → Prop) w :
  in_tx w0 h d g w → allows_failure w0 d Q → wp (throw e) (tx_post w0 h d Q) w.
Proof. intros Hw Hf. apply wp_throw, Hf; by apply (in_tx_undone _ _ _ _ _ Hw). Qed.

Lemma tx_commit {A} w0 h d g fail (a : A) Q w :
  in_tx w0 h d g w → allows_failure w0 d Q →
  (∀ w', schema_ok (g d) → evolves R I w0 w' → w_db w' = g d → w_txs w' = w_txs w0 → Q (Ok a) w') →
  wp (or_retry (Commit h) fail (λ _, mret (Some a))) (tx_post w0 h d Q) w.
Proof.
  intros Hw Hf HQ. pose proof Hw as [Hev Hd Ht Ho]. apply wp_or_retry.
  pose proof (serial_Commit R I h w (ev_sane _ _ _ _ Hev)) as Hc.
  assert (wp (Commit h) (λ r w', match r with
            | Ok _ => w_db w' = g d ∧ w_txs (close h w') = w_txs w0 ∧ schema_ok (g d)
            | Fail _ => w_db w' = d ∧ w_txs (close h w') = w_txs w0
            | Panic _ => False end) w) as Hc'.
  { simpl in Ho. eapply wp_Commit; [done|..]; subst d; intros; simpl; by rewrite delete_delete_eq. }
  unfold wp in Hc, Hc' |- *. destruct (Commit h w) as [[[]|e|s] w']; simpl in *; [|split|done].
  - destruct Hc as [Hev' _], Hc' as (Hd' & Ho' & Hs). apply HQ; [done| |done|done].
    by eapply evolves_close, evolves_trans.
  - intros He. destruct Hc as [Hev' Hl], Hc' as [Hd' Ho']. specialize (Hl e eq_refl He). split.
    + split; [by eapply evolves_close, evolves_trans | done | done].
    + unfold shorter. destruct Hev. lia.
  - intros He. destruct Hc as [Hev' _], Hc' as [Hd' Ho'].
    apply Hf; [by eapply evolves_close, evolves_trans | done | done].
Qed.

(** [begin] begins a transaction or leaves everything as it is; [panics] says
    whether it may panic. *)
Definition begins (panics : Prop) (begin : M tx) : Prop := ∀ w, sane R I w →
  wp begin (λ r w', match r with
                    | Ok h => h = w_next_tx w ∧ evolves R I w w' ∧
                              ∃ fs, (length fs ≤ length (w_faults w))%nat ∧ w' = begun fs w
                    | Fail _ => evolves R I w w' ∧ w_db w' = w_db w ∧ w_txs w' = w_txs w
                    | Panic _ => panics ∧ evolves R I w w' ∧ w_db w' = w_db w ∧ w_txs w' = w_txs w
                    end) w.

Lemma begins_beginSerializableTx msg : begins False (wrap msg beginSerializableTx).
Proof. intros w Hw. apply wp_wrap, (wp_beginSerializableTx R I _ _ Hw); eauto 6. Qed.

Lemma wp_retry_begin_tx {A} panics begin (body : tx → M (option A)) Q w :
  begins panics begin →
  sane R I w →
  allows_failure w (w_db w) Q →
  (panics → ∀ s w', evolves R I w w' → w_db w' = w_db w → Q (Panic s) w') →
  (∀ w0 h w1, evolves R I w w0 → sane R I w0 → w_db w0 = w_db w → w_txs w0 = w_txs w → h = w_next_tx w0 →
     allows_failure w0 (w_db w) Q → in_tx w0 h (w_db w) id w1 →
     wp (body h) (tx_post w0 h (w_db w) Q) w1) →
  wp (retrying (with_tx begin body)) Q w.
Proof.
  intros Hb Hw Hf HP Hbody.
  eapply (wp_retrying _ (λ w1, evolves R I w w1 ∧ w_db w1 = w_db w ∧ w_txs w1 = w_txs w));
    [by split; [apply evolves_refl|]|].
  intros w1 (Hev & Hd & Ho). pose proof (ev_sane _ _ _ _ Hev) as Hs.
  apply wp_with_tx. eapply wp_mono; [by apply Hb|].
  intros [h|e|s] w2; cycle 1.
  { intros (Hev' & Hd' & Ho'). apply Hf; [by eapply evolves_trans | by rewrite Hd' | by rewrite Ho']. }
  { intros (Hp & Hev' & Hd' & Ho'). apply HP; [done | by eapply evolves_trans | by rewrite Hd']. }
  intros (-> & Hev1 & fs & Hfs & ->).
  eapply wp_mono; [eapply (Hbody w1); [done|done|done|done|done| |]|].
  - intros e w2 Hev2 Hd2 Ho2. apply Hf; [by eapply evolves_trans | done | by rewrite Ho2].
  - split; [done | done | apply lookup_insert_eq |]. simpl. rewrite delete_insert_id; [done|].
    destruct (w_txs w1 !! w_next_tx w1) eqn:E; [|done]. apply (sane_fresh _ _ _ Hs) in E. lia.
  - intros [[a|]|e|s] w'; simpl; try done. intros [[Hu Hdb Ho'] Hsh]. split; [|done].
    split; [by eapply evolves_trans | split; [done|]]. simpl in Ho'. by rewrite Ho'.
Qed.

Lemma wp_retry_tx {A} msg (body : tx → M (option A)) Q w :
  sane R I w →
  allows_failure w (w_db w) Q →
  (∀ w0 h w1, evolves R I w w0 → sane R I w0 → w_db w0 = w_db w → w_txs w0 = w_txs w → h = w_next_tx w0 →
     allows_failure w0 (w_db w) Q → in_tx w0 h (w_db w) id w1 →
     wp (body h) (tx_post w0 h (w_db w) Q) w1) →
  wp (retrying (with_tx (wrap msg beginSerializableTx) body)) Q w.
Proof.
  intros. eapply (wp_retry_begin_tx False); [apply begins_beginSerializableTx|done..].
Qed.
End InTx.

Create HintDb stmt.
#[export] Hint Resolve stmt_statement | 0 : stmt.
#[export] Hint Resolve stmt_ret stmt_wrap stmt_queryRow stmt_queryRowAny stmt_uuid stmt_nextval
  stmt_now : stmt.
#[export] Hint Resolve stmt_query | 4 : stmt.

(** One statement of a transaction's body. *)
Ltac tx_step :=
  first [eapply (tx_or_retry _ _) | eapply (tx_bind _ _)];
  [solve [eauto 4 with stmt typeclass_instances] | eassumption | assumption | ];
  let a := fresh "a" in let g := fresh "g" in let w := fresh "w" in let K := fresh "K" in
  let Hin := fresh "Hin" in
  intros a g w K Hin; simpl in K.

(** ** Code that only talks to EC2 *)

Definition calls_only {A} (m : M A) : Prop := ∀ w,
  wp m (λ r w', (∃ cs, w' = set_calls cs w) ∧ match r with Panic _ => False | _ => True end) w.

Lemma calls_only_ret {A} (a : A) : calls_only (mret a).
Proof. intros w. apply wp_ret. split; [|done]. exists (w_calls w). by destruct w. Qed.

Lemma calls_only_throw {A} e : calls_only (@throw A e).
Proof. intros w. apply wp_throw. split; [|done]. exists (w_calls w). by destruct w. Qed.

Lemma calls_only_bind {A B} (m : M A) (f : A → M B) :
  calls_only m → (∀ a, calls_only (f a)) → calls_only (m ≫= f).
Proof.
  intros Hm Hf w. apply wp_bind. eapply wp_mono; [apply Hm|].
  intros [a|e|s] w1 [[cs ->] ?]; [|by eauto|done]. eapply wp_mono; [apply Hf|].
  intros r w2 [[cs' ->] ?]. split; [|done]. by exists cs'.
Qed.

Lemma calls_only_try {A} (m : M A) : calls_only m → calls_only (try m).
Proof. intros Hm w. apply wp_try. eapply wp_mono; [apply Hm|]. by intros [] ? []. Qed.

Lemma calls_only_wrap {A} msg (m : M A) : calls_only m → calls_only (wrap msg m).
Proof. intros Hm w. apply wp_wrap. eapply wp_mono; [apply Hm|]. by intros [] ? []. Qed.

Lemma calls_only_call ec2 {A : Set} (c : ec2_call A) : calls_only (call ec2 c).
Proof. intros w. apply wp_call; intros; (split; [by eexists|done]). Qed.

Create HintDb calls_only.
#[export] Hint Resolve calls_only_ret calls_only_throw calls_only_bind calls_only_try calls_only_wrap
  calls_only_call : calls_only.
#[export] Hint Extern 3 (calls_only (match ?x with _ => _ end)) => destruct x : calls_only.

(** ** Statements on a transaction in whatever state

    What is known of the outcome without knowing anything of the world: a
    statement that succeeds saw the pending writes [g] of its transaction. *)

Record unchanged (h : tx) (w w' : world) : Prop := Unchanged {
  un_db : w_db w' = w_db w;
  un_tx : ∀ g, w_txs w' !! h = Some (Some g) → w_txs w !! h = Some (Some g)
}.

#[export] Instance unchanged_preorder h : PreOrder (unchanged h).
Proof.
  split; [by split|]. intros w1 w2 w3 [H1 H2] [H3 H4]. split; [congruence | auto].
Qed.

Lemma wp_tx_view_any h w :
  wp (tx_view h) (λ r w', unchanged h w w' ∧
    match r with Ok d => ∃ g, w_txs w' !! h = Some (Some g) ∧ d = g (w_db w) | _ => True end) w.
Proof.
  destruct (w_txs w !! h) as [[g|]|] eqn:Hh.
  - eapply wp_tx_view; [done| |]; simpl; intros; (split; [split; [done|]|]); simpl.
    + done.
    + by exists g.
    + by rewrite lookup_insert_eq.
    + done.
  - apply (wp_tx_view_closed h); [naive_solver|]. done.
  - apply (wp_tx_view_closed h); [naive_solver|]. done.
Qed.

Lemma wp_statement_any h w :
  wp (statement h) (λ r w', unchanged h w w') w.
Proof. apply wp_bind. eapply wp_mono; [apply wp_tx_view_any|]. by intros [] w' []. Qed.

Lemma wp_query_any {A} h (f : db → A) w :
  wp (query h f) (λ r w', unchanged h w w' ∧
    match r with Ok a => ∃ g, w_txs w' !! h = Some (Some g) ∧ a = f (g (w_db w)) | _ => True end) w.
Proof.
  apply wp_bind. eapply wp_mono; [apply wp_tx_view_any|].
  intros [d|e|s] w' [Hu H]; [apply wp_ret|done|done]. destruct H as (g & Hg & ->). eauto.
Qed.

Lemma unchanged_rand h w w' ns : unchanged h w w' → unchanged h w (set_rand ns w').
Proof. by intros [? ?]. Qed.

Lemma wp_queryRow_any {A} h (f : db → option A) w :
  wp (queryRow h f) (λ r w', unchanged h w w' ∧
    match r with Ok a => ∃ g, w_txs w' !! h = Some (Some g) ∧ f (g (w_db w)) = Some a | _ => True end) w.
Proof.
  apply wp_bind. eapply wp_mono; [apply wp_query_any|].
  intros [o|e|s] w' [Hu H]; [|done|done]. destruct H as (g & Hg & ->).
  destruct (f (g (w_db w))) eqn:E; [apply wp_ret | apply wp_throw]; eauto.
Qed.

Lemma wp_queryRowAny_any {A} h (f : db → list A) w :
  wp (queryRowAny h f) (λ r w', unchanged h w w' ∧
    match r with Ok a => ∃ g, w_txs w' !! h = Some (Some g) ∧ a ∈ f (g (w_db w)) | _ => True end) w.
Proof.
  apply wp_bind. eapply wp_mono; [apply wp_query_any|].
  intros [o|e|s] w' [Hu H]; [|done|done]. destruct H as (g & Hg & ->).
  apply wp_bind, wp_choose; intros; [apply wp_ret|apply wp_throw]; (split; [by apply unchanged_rand|]); [|done].
  by exists g.
Qed.

Lemma wp_exec_at_any {A} h F (r : db → A) w :
  wp (exec_at h F r) (λ r' w', w_db w' = w_db w ∧
    match r' with
    | Ok a => ∃ g, w_txs w !! h = Some (Some g) ∧ a = r (g (w_db w)) ∧
                   w_txs w' !! h = Some (Some (λ d, F (g (w_db w)) (g d)))
    | Fail _ => ∀ g, w_txs w' !! h ≠ Some (Some g)
    | Panic _ => False
    end) w.
Proof.
  destruct (w_txs w !! h) as [[g|]|] eqn:Hh.
  - eapply wp_exec_at; [done|..]; simpl; intros; (split; [done|]); rewrite lookup_insert_eq; [|done|done].
    by exists g.
  - apply wp_bind, (wp_tx_view_closed h); [naive_solver|]. intros e _. split; [done|]. congruence.
  - apply wp_bind, (wp_tx_view_closed h); [naive_solver|]. intros e _. split; [done|]. congruence.
Qed.

Lemma wp_exec_any h f w :
  wp (exec h f) (λ r w', w_db w' = w_db w ∧
    match r with
    | Ok _ => ∃ g, w_txs w !! h = Some (Some g) ∧ w_txs w' !! h = Some (Some (λ d, f (g d)))
    | Fail _ => ∀ g, w_txs w' !! h ≠ Some (Some g)
    | Panic _ => False
    end) w.
Proof.
  eapply wp_mono; [apply wp_exec_at_any|]. intros [[]|e|s] w' [Hd H]; (split; [done|]); try done.
  destruct H as (g & Hg & _ & Hg'). eauto.
Qed.

Lemma wp_Commit_any h w :
  wp (Commit h) (λ r w',
    match r with
    | Ok _ => ∃ g, w_txs w !! h = Some (Some g) ∧ w_db w' = g (w_db w) ∧ schema_ok (w_db w')
    | _ => w_db w' = w_db w
    end) w.
Proof.
  destruct (w_txs w !! h) as [[g|]|] eqn:Hh.
  - eapply wp_Commit; [done|..]; simpl; intros; eauto.
  - unfold wp, Commit, tx_view. by rewrite Hh.
  - unfold wp, Commit, tx_view. by rewrite Hh.
Qed.

Lemma wp_BeginTx_any w :
  wp BeginTx (λ r w', w_db w' = w_db w ∧
    match r with Ok h => w_txs w' !! h = Some (Some id) | _ => True end) w.
Proof. apply wp_BeginTx; intros; (split; [done|]); simpl; [apply lookup_insert_eq|done]. Qed.

Lemma wp_beginSerializableTx_any w :
  wp beginSerializableTx (λ r w', w_db w' = w_db w ∧
    match r with Ok h => w_txs w' !! h = Some (Some id) | _ => True end) w.
Proof.
  apply wp_bind, wp_wrap, wp_BeginTx; [|done]. intros fs Hfs. apply wp_bind, wp_try.
  eapply wp_statement; [apply lookup_insert_eq|..]; intros.
  - apply wp_ret. split; [done|]. simpl. apply lookup_insert_eq.
  - by apply wp_bind, wp_Rollback, wp_throw.
Qed.

Lemma wp_true {A} (m : M A) w : wp m (λ _ _, True) w.
Proof. done. Qed.

(** Runs code whose outcome the postcondition does not depend on. *)
Ltac wp_skip :=
  apply wp_bind; eapply wp_mono; [apply wp_true|]; intros [?|?|?] ? _; [|done|done].

(** ** The pending writes of one transaction

    [keeps_tx h Φ m]: [m] commits nothing, and if the pending writes of [h]
    satisfy [Φ] before they do so after. *)

Section KeepsTx.
Context (h : tx) (Φ : (db → db) → Prop).

Definition pending (w : world) : Prop := ∀ g, w_txs w !! h = Some (Some g) → Φ g.

Definition keeps_tx {A} (m : M A) : Prop := ∀ w, pending w →
  wp m (λ _ w', w_db w' = w_db w ∧ pending w') w.

Lemma keeps_tx_ret {A} (a : A) : keeps_tx (mret a).
Proof. intros w Hw. by apply wp_ret. Qed.

Lemma keeps_tx_throw {A} e : keeps_tx (@throw A e).
Proof. intros w Hw. by apply wp_throw. Qed.

Lemma keeps_tx_panic {A} s : keeps_tx (@go_panic A s).
Proof. intros w Hw. by apply wp_panic. Qed.

Lemma keeps_tx_bind {A B} (m : M A) (f : A → M B) :
  keeps_tx m → (∀ a, keeps_tx (f a)) → keeps_tx (m ≫= f).
Proof.
  intros Hm Hf w Hw. apply wp_bind. eapply wp_mono; [by apply Hm|].
  intros [a|e|s] w1 [Hd1 Hp1]; [|done|done]. eapply wp_mono; [by apply Hf|].
  intros r w2 [Hd2 Hp2]. split; [congruence|done].
Qed.

Lemma keeps_tx_try {A} (m : M A) : keeps_tx m → keeps_tx (try m).
Proof. intros Hm w Hw. apply wp_try. eapply wp_mono; [by apply Hm|]. by intros [] ? ?. Qed.

Lemma keeps_tx_wrap {A} msg (m : M A) : keeps_tx m → keeps_tx (wrap msg m).
Proof. intros Hm w Hw. apply wp_wrap. eapply wp_mono; [by apply Hm|]. by intros [] ? ?. Qed.

Lemma keeps_tx_wrap_status {A} c msg (m : M A) : keeps_tx m → keeps_tx (wrap_status c msg m).
Proof. intros Hm w Hw. apply wp_wrap_status. eapply wp_mono; [by apply Hm|]. by intros [] ? ?. Qed.

Lemma keeps_tx_choose {A} (l : list A) : keeps_tx (choose l).
Proof. intros w Hw. by apply wp_choose. Qed.

Lemma keeps_tx_random : keeps_tx random.
Proof. intros w Hw. by apply wp_random. Qed.

Lemma keeps_tx_nextval : keeps_tx nextval.
Proof. intros w Hw. by apply wp_nextval. Qed.

Lemma keeps_tx_now : keeps_tx now.
Proof. intros w Hw. by apply wp_now. Qed.

Lemma keeps_tx_call ec2 {A : Set} (c : ec2_call A) : keeps_tx (call ec2 c).
Proof. intros w Hw. by apply wp_call. Qed.

Lemma keeps_tx_statement : keeps_tx (statement h).
Proof.
  intros w Hw. eapply wp_mono; [apply wp_statement_any|]. intros r w' [Hd Ht]. split; [done|].
  intros g Hg. by apply Hw, Ht.
Qed.

Lemma keeps_tx_query {A} (f : db → A) : keeps_tx (query h f).
Proof.
  intros w Hw. eapply wp_mono; [apply wp_query_any|]. intros r w' [[Hd Ht] _]. split; [done|].
  intros g Hg. by apply Hw, Ht.
Qed.

Lemma keeps_tx_queryRow {A} (f : db → option A) : keeps_tx (queryRow h f).
Proof.
  intros w Hw. eapply wp_mono; [apply wp_queryRow_any|]. intros r w' [[Hd Ht] _]. split; [done|].
  intros g Hg. by apply Hw, Ht.
Qed.

Lemma keeps_tx_queryRowAny {A} (f : db → list A) : keeps_tx (queryRowAny h f).
Proof.
  intros w Hw. eapply wp_mono; [apply wp_queryRowAny_any|]. intros r w' [[Hd Ht] _]. split; [done|].
  intros g Hg. by apply Hw, Ht.
Qed.

Lemma keeps_tx_scan {A} (o : option A) : keeps_tx (scan o).
Proof. destruct o; [apply keeps_tx_ret | apply keeps_tx_throw]. Qed.

Lemma keeps_tx_exec f : (∀ g, Φ g → Φ (λ d, f (g d))) → keeps_tx (exec h f).
Proof.
  intros Hf w Hw. eapply wp_mono; [apply wp_exec_any|]. intros [[]|e|s] w' [Hd H]; (split; [done|]).
  - destruct H as (g & Hg & Hg'). intros g2 Hg2. simplify_eq. by apply Hf, Hw.
  - intros g Hg. by destruct (H g).
  - done.
Qed.

Lemma keeps_tx_exec_at {A} F (r : db → A) :
  (∀ d0 g, Φ g → Φ (λ d, F d0 (g d))) → keeps_tx (exec_at h F r).
Proof.
  intros Hf w Hw. eapply wp_mono; [apply wp_exec_at_any|]. intros [a|e|s] w' [Hd H]; (split; [done|]).
  - destruct H as (g & Hg & _ & Hg'). intros g2 Hg2. simplify_eq. by apply Hf, Hw.
  - intros g Hg. by destruct (H g).
  - done.
Qed.
End KeepsTx.

Lemma wp_conj {A} (m : M A) Q1 Q2 w : wp m Q1 w → wp m Q2 w → wp m (λ r w', Q1 r w' ∧ Q2 r w') w.
Proof. done. Qed.

(** One step of a transaction's body that commits nothing yet. *)
Lemma wp_keeps {A B} h Φ (m : M A) (f : A → M B) Q w :
  keeps_tx h Φ m → pending h Φ w →
  (∀ e w', w_db w' = w_db w → Q (Fail e) w') → (∀ s w', w_db w' = w_db w → Q (Panic s) w') →
  (∀ a w', w_db w' = w_db w → pending h Φ w' → wp (f a) Q w') →
  wp (m ≫= f) Q w.
Proof.
  intros Hm Hp Hf HP Hk. apply wp_bind. eapply wp_mono; [by apply (Hm w)|].
  intros [a|e|s] w' [Hd Hp']; auto.
Qed.

Lemma pending_mono h (Φ Ψ : (db → db) → Prop) w : pending h Φ w → (∀ g, Φ g → Ψ g) → pending h Ψ w.
Proof. intros H HΦ g Hg. by apply HΦ, H. Qed.

Lemma wp_exec_pending h (Φ Ψ : (db → db) → Prop) f w :
  pending h Φ w → (∀ g, Φ g → Ψ (λ d, f (g d))) →
  wp (exec h f) (λ _ w', w_db w' = w_db w ∧ pending h Ψ w') w.
Proof.
  intros Hp Hf. eapply wp_mono; [apply wp_exec_any|]. intros [[]|e|s] w' [Hd H]; (split; [done|]).
  - destruct H as (g & Hg & Hg'). intros g2 Hg2. simplify_eq. by apply Hf, Hp.
  - intros g Hg. by destruct (H g).
  - done.
Qed.

Ltac keeps_step :=
  match goal with
  | |- keeps_tx _ _ (match ?x with _ => _ end) => destruct x
  | |- keeps_tx _ _ (_ ≫= _) => apply keeps_tx_bind; [|intros]
  | |- keeps_tx _ _ (try _) => apply keeps_tx_try
  | |- keeps_tx _ _ (wrap _ _) => apply keeps_tx_wrap
  | |- keeps_tx _ _ (wrap_status _ _ _) => apply keeps_tx_wrap_status
  | |- keeps_tx _ _ (session_call _ _ _) => unfold session_call
  | |- keeps_tx _ _ (exec _ _) => apply keeps_tx_exec; intros
  | |- keeps_tx _ _ (exec_at _ _ _) => apply keeps_tx_exec_at; intros
  | |- keeps_tx _ _ _ =>
      first [apply keeps_tx_ret | apply keeps_tx_throw | apply keeps_tx_panic | apply keeps_tx_choose
            | apply keeps_tx_random | apply keeps_tx_nextval | apply keeps_tx_now | apply keeps_tx_call
            | apply keeps_tx_statement
            | apply keeps_tx_query | apply keeps_tx_queryRow | apply keeps_tx_queryRowAny | apply keeps_tx_scan]
  end.

Ltac keeps_walk := repeat keeps_step.

(** Closes a failure branch, where nothing was committed. *)
Ltac same_db := intros; simpl in *; first [congruence | split; [congruence|done]].

(** Runs a step that commits nothing and keeps what is pending. *)
Ltac keep_step := eapply wp_keeps; [|eassumption|solve [same_db]|solve [same_db]|].

(** *** A transaction that has written nothing, or one statement *)

(** A query of a transaction that has written nothing yet answers from the
    committed database. *)
Lemma wp_query_id {A} h (f : db → A) w :
  pending h (eq id) w →
  wp (query h f) (λ r w', (w_db w' = w_db w ∧ pending h (eq id) w') ∧
    match r with Ok a => a = f (w_db w) | _ => True end) w.
Proof.
  intros Hp. apply wp_conj; [by apply keeps_tx_query|]. eapply wp_mono; [apply wp_query_any|].
  intros [a|e|s] w' [[_ Ht] H]; [|done|done]. destruct H as (g & Hg%Ht & ->). by rewrite <- (Hp g Hg).
Qed.

Lemma wp_queryRow_id {A} h (f : db → option A) w :
  pending h (eq id) w →
  wp (queryRow h f) (λ r w', (w_db w' = w_db w ∧ pending h (eq id) w') ∧
    match r with Ok a => f (w_db w) = Some a | _ => True end) w.
Proof.
  intros Hp. apply wp_conj; [by apply keeps_tx_queryRow|]. eapply wp_mono; [apply wp_queryRow_any|].
  intros [a|e|s] w' [[_ Ht] H]; [|done|done]. destruct H as (g & Hg%Ht & H). by rewrite <- (Hp g Hg) in H.
Qed.

Lemma wp_BeginTx_id w :
  wp BeginTx (λ r w', w_db w' = w_db w ∧ match r with Ok h => pending h (eq id) w' | _ => True end) w.
Proof.
  eapply wp_mono; [apply wp_BeginTx_any|]. intros [h|e|s] w' [Hd H]; (split; [done|]); [|done|done].
  intros g Hg. congruence.
Qed.

Lemma wp_try_queryRow_id {A} h (f : db → option A) w :
  pending h (eq id) w →
  wp (try (queryRow h f)) (λ r w', (w_db w' = w_db w ∧ pending h (eq id) w') ∧
    match r with Ok (inr a) => f (w_db w) = Some a | _ => True end) w.
Proof. intros Hp. apply wp_try. eapply wp_mono; [by apply wp_queryRow_id|]. by intros [] w' ?. Qed.

Lemma wp_Commit_id h w :
  pending h (eq id) w → wp (Commit h) (λ _ w', w_db w' = w_db w) w.
Proof.
  intros Hp. eapply wp_mono; [apply wp_Commit_any|]. intros [[]|e|s] w' H; [|done..].
  destruct H as (g & Hg & Hd & _). by rewrite <- (Hp g Hg) in Hd.
Qed.

Lemma wp_exec_eq h f w :
  pending h (eq id) w → wp (exec h f) (λ _ w', w_db w' = w_db w ∧ pending h (eq f) w') w.
Proof. intros Hp. apply (wp_exec_pending h (eq id)); [done|]. by intros g <-. Qed.

Lemma wp_Commit_eq h f w :
  pending h (eq f) w →
  wp (Commit h) (λ r w', match r with Ok _ => w_db w' = f (w_db w) | _ => w_db w' = w_db w end) w.
Proof.
  intros Hp. eapply wp_mono; [apply wp_Commit_any|]. intros [[]|e|s] w' H; [|done..].
  destruct H as (g & Hg & Hd & _). by rewrite <- (Hp g Hg) in Hd.
Qed.
