(* ===== verification/TxLogic.v ===== *)
(** * TxLogic: transactions that run once

    Handlers that do not retry a transaction are reasoned about with what the
    transaction sees.  [observes] is for one that only reads, [traces] also for the calls it makes; [sequel] and [ends]
    follow the pending writes of one to its commit; [keeps_calls] says that code
    makes no calls of EC2. *)
From S2P Require Import Prelude Errors Schema Service Logic.

Open Scope string_scope.
Open Scope Z_scope.
Open Scope list_scope.

Create HintDb observes.

(** ** Transactions that only read

    [observes_in G hs P d t m Q]: [m], run at time [t] within the transactions [hs] whose pending writes to
    the committed database [d] satisfy [G], commits nothing, makes only calls
    that satisfy [P], and answers with a value that satisfies [Q].  Transactions that write nothing
    [observes]. *)

Section Observes.
Context {G : (db → db) → Prop} (hs : list tx) (P : event → Prop) (d : db) (t : Z).

Definition clean (w : world) : Prop := ∀ h, h ∈ hs → pending h G w.

Definition observed (w w' : world) : Prop :=
  w_db w' = d ∧ w_now w' = t ∧ clean w' ∧ ∃ es, w_calls w' = w_calls w ++ es ∧ Forall P es.

Definition observes_in {A} (m : M A) (Q : A → Prop) : Prop := ∀ w,
  w_db w = d → w_now w = t → clean w →
  wp m (λ r w', observed w w' ∧ match r with Ok a => Q a | _ => True end) w.

Lemma observed_refl w : w_db w = d → w_now w = t → clean w → observed w w.
Proof. intros. split_and!; try done. exists []. by rewrite app_nil_r. Qed.

Lemma observed_trans w1 w2 w3 : observed w1 w2 → observed w2 w3 → observed w1 w3.
Proof.
  intros (_ & _ & _ & es & E & H) (? & ? & ? & es' & E' & H'). split_and!; try done. exists (es ++ es').
  rewrite E', E, app_assoc. split; [done|]. by apply Forall_app.
Qed.

Lemma observes_ret {A} (a : A) (Q : A → Prop) : Q a → observes_in (mret a) Q.
Proof. intros HQ w ? ? ?. apply wp_ret. split; [by apply observed_refl | done]. Qed.

Lemma observes_throw {A} e (Q : A → Prop) : observes_in (throw e) Q.
Proof. intros w ? ? ?. apply wp_throw. split; [by apply observed_refl | done]. Qed.

Lemma observes_bind {A B} (m : M A) (f : A → M B) Q Q' :
  observes_in m Q → (∀ a, Q a → observes_in (f a) Q') → observes_in (m ≫= f) Q'.
Proof.
  intros Hm Hf w Hd Ht Hp. apply wp_bind. eapply wp_mono; [by apply Hm|].
  intros [a|e|s] w1 [Hob HQ]; [|done|done]. pose proof Hob as (Hd1 & Ht1 & Hp1 & _).
  eapply wp_mono; [by apply (Hf a HQ)|]. intros r w2 [Hob2 Hr]. split; [by eapply observed_trans | done].
Qed.

Lemma observes_mono {A} (m : M A) (Q Q' : A → Prop) : observes_in m Q → (∀ a, Q a → Q' a) → observes_in m Q'.
Proof.
  intros Hm HQ w ? ? ?. eapply wp_mono; [by apply Hm|]. intros [a|e|s] w1 [Hob Ha]; (split; [done|]); auto.
Qed.

Lemma observes_try {A} (m : M A) (Q : A → Prop) :
  observes_in m Q → observes_in (try m) (λ r, match r with inr a => Q a | inl _ => True end).
Proof. intros Hm w ? ? ?. apply wp_try. eapply wp_mono; [by apply Hm|]. by intros [a|e|s] w1 [Hob Ha]. Qed.

Lemma observes_wrap {A} msg (m : M A) Q : observes_in m Q → observes_in (wrap msg m) Q.
Proof. intros Hm w ? ? ?. apply wp_wrap. eapply wp_mono; [by apply Hm|]. by intros [a|e|s] w1 [Hob Ha]. Qed.

Lemma observes_now (Q : Z → Prop) : Q t → observes_in now Q.
Proof. intros HQ w ? Ht ?. apply wp_now. split; [by apply observed_refl | by rewrite Ht]. Qed.

Lemma observes_fault_point : observes_in fault_point (λ _, True).
Proof.
  intros w Hd Ht Hp. assert (∀ fs, observed w (set_faults fs w)) as Hob.
  { intros fs. split_and!; try done. exists []. by rewrite app_nil_r. }
  apply wp_fault_point; intros; split; auto.
Qed.

Lemma observes_call ec2 {A : Set} (c : ec2_call A) (Q : A → Prop) :
  P (Event c) → (∀ a, Q a) → observes_in (call ec2 c) Q.
Proof.
  intros HP HQ w Hd Ht Hp. assert (observed w (set_calls (w_calls w ++ [Event c]) w)) as Hob.
  { split_and!; try done. exists [Event c]. split; [done|]. by apply Forall_singleton. }
  apply wp_call; intros; split; auto.
Qed.

Lemma clean_abort h w : clean w → clean (abort h w).
Proof.
  intros Hc h' Hh' g Hg. simpl in Hg. apply lookup_insert_Some in Hg as [[_ [=]]|[_ Hg]]. by apply (Hc h').
Qed.

Lemma clean_close h w : clean w → clean (close h w).
Proof. intros Hc h' Hh' g Hg. simpl in Hg. apply lookup_delete_Some in Hg as [_ Hg]. by apply (Hc h'). Qed.

Lemma observes_query_in {A} h (f : db → A) (Q : A → Prop) : h ∈ hs → (∀ g, G g → Q (f (g d))) → observes_in (query h f) Q.
Proof.
  intros Hh HQ w Hd Ht Hp. assert (∀ fs, observed w (set_faults fs w)) as Hob.
  { intros fs. split_and!; try done. exists []. by rewrite app_nil_r. }
  destruct (w_txs w !! h) as [[g|]|] eqn:E.
  - eapply wp_query; [done| |].
    + intros fs _. split; [done|]. rewrite Hd. exact (HQ g (Hp h Hh g E)).
    + intros e fs _. split; [|done]. split_and!; try done; [by apply clean_abort|exists []; by rewrite app_nil_r].
  - unfold query. apply wp_bind. unfold wp, tx_view. rewrite E. split; [by apply observed_refl | done].
  - unfold query. apply wp_bind. unfold wp, tx_view. rewrite E. split; [by apply observed_refl | done].
Qed.

Lemma observes_statement h : h ∈ hs → observes_in (statement h) (λ _, True).
Proof. intros Hh. exact (observes_query_in h (λ _, tt) (λ _, True) Hh (λ _ _, I)). Qed.

(** A statement that writes *)
Lemma observes_exec_in h f : h ∈ hs → (∀ g, G g → G (λ d', f (g d'))) → observes_in (exec h f) (λ _, True).
Proof.
  intros Hh HG w Hd Ht Hp.
  assert (∀ w', w_db w' = d → w_now w' = t → clean w' → w_calls w' = w_calls w → observed w w') as Hob.
  { intros w' ? ? ? Hc. split_and!; try done. exists []. by rewrite app_nil_r. }
  destruct (w_txs w !! h) as [[g|]|] eqn:E; [|unfold exec, exec_at; apply wp_bind; unfold wp, tx_view; rewrite E; split; [by apply Hob | done]..].
  eapply wp_exec_at; [done|..]; intros; (split; [apply Hob; try done|done]); [|by apply clean_abort..].
  intros h' Hh' g' Hg'. simpl in Hg'. apply lookup_insert_Some in Hg' as [[_ [= <-]]|[_ Hg']]; [|by apply (Hp h')].
  apply HG. exact (Hp h Hh g E).
Qed.

Lemma observes_scan {A} (o : option A) : observes_in (scan o) (λ a, o = Some a).
Proof. destruct o; [by apply observes_ret | apply observes_throw]. Qed.

Lemma observes_random : observes_in random (λ _, True).
Proof.
  intros w Hd Ht Hp. apply wp_random. intros n ns. split; [|done].
  split_and!; [done|done|done|exists []; by rewrite app_nil_r].
Qed.

Lemma observes_choose {A} (l : list A) : observes_in (choose l) (λ o, match o with Some a => a ∈ l | None => l = [] end).
Proof.
  intros w Hd Ht Hp. apply wp_choose; intros; (split; [split_and!; try done; exists []; by rewrite app_nil_r | done]).
Qed.

Lemma observes_shuffle {A} (l : list A) : observes_in (shuffle l) (λ l', l' ≡ₚ l).
Proof.
  induction l as [|x l IH]; simpl; [by apply observes_ret|]. eapply observes_bind; [exact IH|]. intros l' Hl'.
  eapply observes_bind; [apply observes_random|]. intros n _. apply observes_ret.
  rewrite <- Permutation_middle, take_drop. by constructor.
Qed.
End Observes.

Abbreviation observes := (@observes_in (eq id)).

(** Nothing is written. *)
Section ReadOnly.
Context (hs : list tx) (P : event → Prop) (d : db) (t : Z).

Lemma observes_query_of {A} h (f : db → A) (Q : A → Prop) : h ∈ hs → Q (f d) → observes hs P d t (query h f) Q.
Proof. intros Hh HQ. apply observes_query_in; [done|]. by intros g <-. Qed.

Lemma observes_queryRow_of {A} h (f : db → option A) : h ∈ hs → observes hs P d t (queryRow h f) (λ a, f d = Some a).
Proof.
  intros Hh. unfold queryRow. eapply observes_bind; [by apply (observes_query_of h f (λ o, o = f d))|].
  intros o ->. destruct (f d); [by apply observes_ret | apply observes_throw].
Qed.

Lemma observes_Commit h : h ∈ hs → observes hs P d t (Commit h) (λ _, True).
Proof.
  intros Hh w Hd Ht Hp. destruct (w_txs w !! h) as [[g|]|] eqn:E.
  - pose proof (Hp h Hh g E) as <-. eapply wp_Commit; [done|..]; intros; (split; [|done]);
      (split_and!; [done|done|exact (clean_close _ h w Hp)|exists []; by rewrite app_nil_r]).
  - unfold wp, Commit, tx_view. rewrite E. split; [|done].
    split_and!; [done|done|by apply clean_close|exists []; by rewrite app_nil_r].
  - unfold wp, Commit, tx_view. rewrite E. split; [|done].
    split_and!; [done|done|by apply clean_close|exists []; by rewrite app_nil_r].
Qed.

End ReadOnly.

(** Fewer calls *)
Lemma observes_asks {A G} hs (P P' : event → Prop) d t (m : M A) Q :
  observes_in (G:=G) hs P d t m Q → (∀ ev, P ev → P' ev) → observes_in (G:=G) hs P' d t m Q.
Proof.
  intros Hm HP w Hd Ht Hp. eapply wp_mono; [by apply Hm|]. intros r w' [(? & ? & ? & es & Hes & Hall) Hr]. split; [|done].
  split_and!; try done. exists es. split; [done|]. by eapply Forall_impl.
Qed.

(** One transaction *)
Lemma observes_query {A} h P d t (f : db → A) (Q : A → Prop) : Q (f d) → observes [h] P d t (query h f) Q.
Proof. apply observes_query_of. by left. Qed.

Lemma observes_queryRow {A} h P d t (f : db → option A) : observes [h] P d t (queryRow h f) (λ a, f d = Some a).
Proof. apply observes_queryRow_of. by left. Qed.

(** How a transaction begins *)
Definition begins (begin : M tx) : Prop := ∀ w,
  wp begin (λ r w', match r with
                    | Ok h => ∃ fs, h = w_next_tx w ∧
                        w' = set_next_tx (S (w_next_tx w)) (set_txs (<[w_next_tx w := Some id]> (w_txs w)) (set_faults fs w))
                    | Fail _ => ∃ fs, w' = set_faults fs w
                    | Panic _ => False
                    end) w.

Lemma begins_BeginTx : begins BeginTx.
Proof. intros w. apply wp_BeginTx; eauto. Qed.

Lemma begins_wrap msg m : begins m → begins (wrap msg m).
Proof. intros H w. apply wp_wrap. eapply wp_mono; [apply H|]. by intros [] ? ?. Qed.

Lemma begins_wrap_status c msg m : begins m → begins (wrap_status c msg m).
Proof. intros H w. apply wp_wrap_status. eapply wp_mono; [apply H|]. by intros [] ? ?. Qed.

(** A transaction within *)
Lemma observes_with_tx {A} hs P d t begin (body : tx → M A) Q :
  begins begin → (∀ h, observes (h :: hs) P d t (body h) Q) → observes hs P d t (with_tx begin body) Q.
Proof.
  intros Hbegin Hbody w Hd Ht Hp. apply wp_with_tx. eapply wp_mono; [apply Hbegin|]. intros [h|e|s] w1; [| |done].
  - intros (fs & -> & ->). eapply wp_mono; [apply Hbody; try done|].
    + intros h Hh g Hg. simpl in Hg. apply lookup_insert_Some in Hg as [[_ [= <-]]|[Hne Hg]]; [done|].
      apply elem_of_cons in Hh as [->|Hh]; [done | by apply (Hp h)].
    + intros r w2 [(Hd2 & Ht2 & Hp2 & es & Hes & Hall) HQ]. split; [|done]. split_and!; [done|done| |by exists es].
      apply clean_close. intros h' Hh'. apply Hp2. by right.
  - intros [fs ->]. split; [|done]. split_and!; [done|done|done|exists []; by rewrite app_nil_r].
Qed.

#[export] Hint Resolve begins_BeginTx begins_wrap begins_wrap_status : observes.

(** ** The calls behind an answer

    [traces m Q]: what [observes] says of [m], and an answer [a] comes after calls [es] with [Q a es]. *)
Section Traces.
Context {G : (db → db) → Prop} (hs : list tx) (P : event → Prop) (d : db) (t : Z).

Definition traces {A} (m : M A) (Q : A → list event → Prop) : Prop := ∀ w,
  w_db w = d → w_now w = t → clean (G:=G) hs w →
  wp m (λ r w', observed (G:=G) hs P d t w w' ∧
    match r with Ok a => ∃ es, w_calls w' = w_calls w ++ es ∧ Q a es | _ => True end) w.

Lemma traces_observes {A} (m : M A) (Q : A → Prop) : observes_in (G:=G) hs P d t m Q → traces m (λ a _, Q a).
Proof.
  intros Hm w ? ? ?. eapply wp_mono; [by apply Hm|]. intros [a|e|s] w1 [Hob Ha]; (split; [done|]); try done.
  destruct Hob as (_ & _ & _ & es & ? & _). eauto.
Qed.

Lemma traces_mono {A} (m : M A) (Q Q' : A → list event → Prop) : traces m Q → (∀ a es, Q a es → Q' a es) → traces m Q'.
Proof.
  intros Hm HQ w ? ? ?. eapply wp_mono; [by apply Hm|]. intros [a|e|s] w1 [Hob Ha]; (split; [done|]); try done.
  destruct Ha as (es & ? & ?). eauto.
Qed.

Lemma traces_ret {A} (a : A) (Q : A → list event → Prop) : Q a [] → traces (mret a) Q.
Proof. intros HQ w ? ? ?. apply wp_ret. split; [by apply observed_refl|]. exists []. by rewrite app_nil_r. Qed.

Lemma traces_throw {A} e (Q : A → list event → Prop) : traces (throw e) Q.
Proof. intros w ? ? ?. apply wp_throw. split; [by apply observed_refl | done]. Qed.

Lemma traces_bind {A B} (m : M A) (f : A → M B) Q Q' :
  traces m Q → (∀ a es, Q a es → traces (f a) (λ b es', Q' b (es ++ es'))) → traces (m ≫= f) Q'.
Proof.
  intros Hm Hf w Hd Ht Hp. apply wp_bind. eapply wp_mono; [by apply Hm|].
  intros [a|e|s] w1 [Hob HQ]; [|done|done]. destruct HQ as (es & Hes & HQ). pose proof Hob as (Hd1 & Ht1 & Hp1 & _).
  eapply wp_mono; [by apply (Hf a es HQ)|]. intros r w2 [Hob2 Hr]. split; [by eapply observed_trans|].
  destruct r as [b|e|s]; [|done|done]. destruct Hr as (es' & Hes' & Hr). exists (es ++ es'). split; [|done].
  by rewrite Hes', Hes, app_assoc.
Qed.

Lemma traces_try {A} (m : M A) (Q : A → list event → Prop) :
  traces m Q → traces (try m) (λ r es, match r with inr a => Q a es | inl _ => True end).
Proof.
  intros Hm w ? ? ?. apply wp_try. eapply wp_mono; [by apply Hm|]. intros [a|e|s] w1 [Hob Ha]; (split; [done|]); try done.
  destruct Hob as (_ & _ & _ & es & ? & _). eauto.
Qed.

Lemma traces_wrap {A} msg (m : M A) Q : traces m Q → traces (wrap msg m) Q.
Proof. intros Hm w ? ? ?. apply wp_wrap. eapply wp_mono; [by apply Hm|]. by intros [a|e|s] w1 [Hob Ha]. Qed.

Lemma traces_wrap_status {A} c msg (m : M A) Q : traces m Q → traces (wrap_status c msg m) Q.
Proof. intros Hm w ? ? ?. apply wp_wrap_status. eapply wp_mono; [by apply Hm|]. by intros [a|e|s] w1 [Hob Ha]. Qed.

Lemma traces_call ec2 {A : Set} (c : ec2_call A) : P (Event c) → traces (call ec2 c) (λ _ es, es = [Event c]).
Proof.
  intros HP w Hd Ht Hp. assert (observed (G:=G) hs P d t w (set_calls (w_calls w ++ [Event c]) w)) as Hob.
  { split_and!; try done. exists [Event c]. split; [done|]. by apply Forall_singleton. }
  apply wp_call; intros; (split; [done|]); try done. by eexists.
Qed.
End Traces.

Lemma traces_with_tx {A} hs P d t begin (body : tx → M A) Q :
  begins begin → (∀ h, traces (G:=eq id) (h :: hs) P d t (body h) Q) → traces (G:=eq id) hs P d t (with_tx begin body) Q.
Proof.
  intros Hbegin Hbody w Hd Ht Hp. apply wp_with_tx. eapply wp_mono; [apply Hbegin|]. intros [h|e|s] w1; [| |done].
  - intros (fs & -> & ->). eapply wp_mono; [apply Hbody; try done|].
    + intros h Hh g Hg. simpl in Hg. apply lookup_insert_Some in Hg as [[_ [= <-]]|[Hne Hg]]; [done|].
      apply elem_of_cons in Hh as [->|Hh]; [done | by apply (Hp h)].
    + intros r w2 [(Hd2 & Ht2 & Hp2 & es & Hes & Hall) HQ]. split; [|done]. split_and!; [done|done| |by exists es].
      apply clean_close. intros h' Hh'. apply Hp2. by right.
  - intros [fs ->]. split; [|done]. split_and!; [done|done|done|exists []; by rewrite app_nil_r].
Qed.

(** What a world and its successor have in common when a transaction that only read is over. *)
Definition quiet (P : event → Prop) (w w' : world) : Prop :=
  w_db w' = w_db w ∧ ∃ es, w_calls w' = w_calls w ++ es ∧ Forall P es.

(** Code outside of transactions *)
Lemma observes_quiet {A} P (m : M A) Q w :
  observes [] P (w_db w) (w_now w) m Q → wp m (λ r w', quiet P w w' ∧ match r with Ok a => Q a | _ => True end) w.
Proof.
  intros H. eapply wp_mono; [apply H; try done; by intros h ?%elem_of_nil|]. intros r w' [(Hd & _ & _ & Hes) HQ]. by repeat split.
Qed.

Section ObservesMore.
Context {G : (db → db) → Prop} (hs : list tx) (P : event → Prop) (d : db) (t : Z).

Lemma observes_wrap_status {A} c msg (m : M A) Q : observes_in (G:=G) hs P d t m Q → observes_in (G:=G) hs P d t (wrap_status c msg m) Q.
Proof. intros Hm w ? ? ?. apply wp_wrap_status. eapply wp_mono; [by apply Hm|]. by intros [a|e|s] w1 [Hob Ha]. Qed.

(** What EC2 answered *)
Lemma observes_call_answer ec2 {A : Set} (c : ec2_call A) :
  P (Event c) → observes_in (G:=G) hs P d t (call ec2 c) (λ a, ∃ cs, ec2 A cs c = inr a).
Proof.
  intros HP w Hd Ht Hp. assert (observed (G:=G) hs P d t w (set_calls (w_calls w ++ [Event c]) w)) as Hob.
  { split_and!; try done. exists [Event c]. split; [done|]. by apply Forall_singleton. }
  apply wp_call; intros; split; eauto.
Qed.

Lemma observes_GetNetworkInterfaceByID ec2 eni :
  P (Event (DescribeNetworkInterface eni)) →
  observes_in (G:=G) hs P d t (session_GetNetworkInterfaceByID ec2 eni) (λ a, ∃ cs, ec2 _ cs (DescribeNetworkInterface eni) = inr a).
Proof.
  intros HP w Hd Ht Hp. pose proof (observes_call_answer ec2 _ HP w Hd Ht Hp) as H. unfold wp in *. unfold session_GetNetworkInterfaceByID.
  by destruct (call ec2 (DescribeNetworkInterface eni) w) as [[a|e|s] w'].
Qed.

Lemma observes_GetInstance ec2 id b :
  P (Event (DescribeInstance id b)) →
  observes_in (G:=G) hs P d t (session_GetInstance ec2 id b) (λ a, ∃ cs, ec2 _ cs (DescribeInstance id b) = inr a).
Proof.
  intros HP w Hd Ht Hp. pose proof (observes_call_answer ec2 _ HP w Hd Ht Hp) as H. unfold wp in *. unfold session_GetInstance.
  by destruct (call ec2 (DescribeInstance id b) w) as [[a|e|s] w'].
Qed.
End ObservesMore.

(** ** What a transaction sees

    [sees h d X w]: the committed database is [d], and [X] is what the transaction
    [h] sees of it through its pending writes, unless it was aborted.  [sequel h d X m K]
    follows [m] through the statements of [h]: nothing is committed, and an answer
    [a] together with what [h] sees then satisfies [K]. *)

Definition sees (h : tx) (d X : db) (w : world) : Prop := w_db w = d ∧ pending h (λ g, g d = X) w.

Section Sees.
Context (h : tx) (d : db).

Definition sequel {A} (X : db) (m : M A) (K : A → db → Prop) : Prop := ∀ w, sees h d X w →
  wp m (λ r w', match r with
                | Ok a => ∃ X', sees h d X' w' ∧ K a X'
                | Fail _ => ∃ X', sees h d X' w'
                | Panic _ => False
                end) w.

Lemma sees_faults X fs w : sees h d X w → sees h d X (set_faults fs w).
Proof. done. Qed.

Lemma sees_abort X w : w_db w = d → sees h d X (abort h w).
Proof. intros Hd. split; [done|]. intros g Hg. simpl in Hg. by rewrite lookup_insert_eq in Hg. Qed.

Lemma sequel_ret {A} X (a : A) (K : A → db → Prop) : K a X → sequel X (mret a) K.
Proof. intros HK w Hw. apply wp_ret. eauto. Qed.

Lemma sequel_throw {A} X e (K : A → db → Prop) : sequel X (throw e) K.
Proof. intros w Hw. apply wp_throw. eauto. Qed.

Lemma sequel_bind {A B} X (m : M A) (f : A → M B) K K' :
  sequel X m K → (∀ a X', K a X' → sequel X' (f a) K') → sequel X (m ≫= f) K'.
Proof.
  intros Hm Hf w Hw. apply wp_bind. eapply wp_mono; [by apply Hm|].
  intros [a|e|s] w1; [|done|done]. intros (X' & Hs & HK). by apply (Hf a X').
Qed.

Lemma sequel_mono {A} X (m : M A) (K K' : A → db → Prop) :
  sequel X m K → (∀ a X', K a X' → K' a X') → sequel X m K'.
Proof.
  intros Hm HK w Hw. eapply wp_mono; [by apply Hm|]. intros [a|e|s] w1; [|done|done].
  intros (X' & Hs & Ha). eauto.
Qed.

Lemma sequel_try {A} X (m : M A) K :
  sequel X m K → sequel X (try m) (λ r X', match r with inr a => K a X' | inl _ => True end).
Proof.
  intros Hm w Hw. apply wp_try. eapply wp_mono; [by apply Hm|]. intros [a|e|s] w1; [done| |done].
  intros (X' & Hs). eauto.
Qed.

Lemma sequel_wrap {A} X msg (m : M A) K : sequel X m K → sequel X (wrap msg m) K.
Proof. intros Hm w Hw. apply wp_wrap. eapply wp_mono; [by apply Hm|]. by intros [a|e|s] w1 ?. Qed.

Lemma sequel_wrap_status {A} X c msg (m : M A) K : sequel X m K → sequel X (wrap_status c msg m) K.
Proof. intros Hm w Hw. apply wp_wrap_status. eapply wp_mono; [by apply Hm|]. by intros [a|e|s] w1 ?. Qed.

Lemma sequel_calls {A} X (m : M A) : calls_only m → sequel X m (λ _ X', X' = X).
Proof.
  intros Hm w Hw. eapply wp_mono; [apply Hm|]. intros [a|e|s] w1 [[cs ->] ?]; [|by exists X|done].
  by exists X.
Qed.

Lemma sequel_now X : sequel X now (λ _ X', X' = X).
Proof. intros w Hw. apply wp_now. eauto. Qed.

Lemma sequel_choose {A} X (l : list A) :
  sequel X (choose l) (λ o X', X' = X ∧ match o with Some a => a ∈ l | None => l = [] end).
Proof. intros w Hw. apply wp_choose; intros; by exists X. Qed.

Lemma sequel_fault_point X : sequel X fault_point (λ _ X', X' = X).
Proof. intros w Hw. apply wp_fault_point; intros; by exists X. Qed.

Lemma sequel_nextval X : sequel X nextval (λ _ X', X' = X).
Proof. intros w Hw. apply wp_nextval. by exists X. Qed.

Lemma sequel_tx_view X : sequel X (tx_view h) (λ a X', X' = X ∧ a = X).
Proof.
  intros w Hw. pose proof Hw as [Hd Hp]. destruct (w_txs w !! h) as [[g|]|] eqn:E.
  - eapply wp_tx_view; [done| |].
    + intros fs _. exists X. split; [done|]. split; [done|]. rewrite Hd. exact (Hp g E).
    + intros e fs _. exists X. by apply sees_abort.
  - unfold wp, tx_view. rewrite E. by exists X.
  - unfold wp, tx_view. rewrite E. by exists X.
Qed.

Lemma sequel_statement X : sequel X (statement h) (λ _ X', X' = X).
Proof. eapply sequel_bind; [apply sequel_tx_view|]. intros ? ? [-> ->]. by apply sequel_ret. Qed.

Lemma sequel_query {A} X (f : db → A) : sequel X (query h f) (λ a X', X' = X ∧ a = f X).
Proof. eapply sequel_bind; [apply sequel_tx_view|]. intros ? ? [-> ->]. by apply sequel_ret. Qed.

Lemma sequel_queryRow {A} X (f : db → option A) : sequel X (queryRow h f) (λ a X', X' = X ∧ f X = Some a).
Proof.
  eapply sequel_bind; [apply sequel_query|]. intros ? ? [-> ->].
  destruct (f X) eqn:E; [by apply sequel_ret | apply sequel_throw].
Qed.

Lemma sequel_queryRowAny {A} X (f : db → list A) : sequel X (queryRowAny h f) (λ a X', X' = X ∧ a ∈ f X).
Proof.
  eapply sequel_bind; [apply sequel_query|]. intros ? ? [-> ->]. eapply sequel_bind; [apply sequel_choose|].
  intros [a|] ? [-> Ha]; [by apply sequel_ret | apply sequel_throw].
Qed.

Lemma sequel_scan {A} X (o : option A) : sequel X (scan o) (λ a X', X' = X ∧ o = Some a).
Proof. destruct o; [by apply sequel_ret | apply sequel_throw]. Qed.

Lemma sequel_aborts {A} X e (K : A → db → Prop) : sequel X (act (λ w, (Fail e, abort h w))) K.
Proof. intros w [Hd _]. apply wp_act. exists X. by apply sees_abort. Qed.

Lemma sequel_write {A} X (f : db → db) (a : A) :
  sequel X (act (λ w, (Ok a, set_txs (alter (fmap (λ (g : db → db) d', f (g d'))) h (w_txs w)) w)))
    (λ a' X', X' = f X ∧ a' = a).
Proof.
  intros w [Hd Hp]. apply wp_act. exists (f X). split; [|done]. split; [done|]. intros g. simpl.
  rewrite lookup_alter_eq. destruct (w_txs w !! h) as [[g0|]|] eqn:E; simpl; [|done|done].
  intros [= <-]. by rewrite (Hp g0 E).
Qed.

Lemma sequel_exec_at {A} X F (r : db → A) :
  sequel X (exec_at h F r) (λ a X', X' = F X X ∧ a = r X ∧ schema_ok X').
Proof.
  eapply sequel_bind; [apply sequel_tx_view|]. intros ? ? [-> ->].
  destruct (check_constraints (F X X)) eqn:E; [apply sequel_aborts|]. apply check_constraints_inr in E as [_ E].
  eapply sequel_mono; [apply sequel_write|]. by intros ? ? [-> ->].
Qed.

Lemma sequel_exec X f : sequel X (exec h f) (λ _ X', X' = f X ∧ schema_ok X').
Proof. eapply sequel_mono; [apply sequel_exec_at|]. naive_solver. Qed.

(** The rest of a transaction: [Q] is about the outcome and what is then committed. *)
Definition ends {A} (X : db) (m : M A) (Q : res error A → db → Prop) : Prop := ∀ w, sees h d X w →
  wp m (λ r w', Q r (w_db w')) w.

Lemma ends_bind {A B} X (m : M A) (f : A → M B) K Q :
  sequel X m K → (∀ e, Q (Fail e) d) → (∀ a X', K a X' → ends X' (f a) Q) → ends X (m ≫= f) Q.
Proof.
  intros Hm He Hf w Hw. apply wp_bind. eapply wp_mono; [by apply Hm|].
  intros [a|e|s] w1; [|by intros (X' & -> & _)|done]. intros (X' & Hs & HK). by apply (Hf a X').
Qed.

Lemma ends_ret {A} X (a : A) (Q : res error A → db → Prop) : Q (Ok a) d → ends X (mret a) Q.
Proof. intros HQ w [Hd _]. apply wp_ret. by rewrite Hd. Qed.

Lemma ends_throw {A} X e (Q : res error A → db → Prop) : Q (Fail e) d → ends X (throw e) Q.
Proof. intros HQ w [Hd _]. apply wp_throw. by rewrite Hd. Qed.

Lemma ends_sequel {A} X (m : M A) K (Q : res error A → db → Prop) :
  sequel X m K → (∀ a X', K a X' → Q (Ok a) d) → (∀ e, Q (Fail e) d) → ends X m Q.
Proof.
  intros Hm Ha He w Hw. eapply wp_mono; [by apply Hm|].
  intros [a|e|s] w1; [intros (X' & [-> _] & HK); eauto | intros (X' & -> & _); auto | done].
Qed.

Lemma wp_Commit_sees X (Q : res error unit → world → Prop) w :
  sees h d X w → (∀ w', w_db w' = X → schema_ok X → Q (Ok tt) w') → (∀ e w', w_db w' = d → Q (Fail e) w') →
  wp (Commit h) Q w.
Proof.
  intros [Hd Hp] HOk HFail. destruct (w_txs w !! h) as [[g|]|] eqn:E.
  - pose proof (Hp g E) as HX. eapply wp_Commit; [done|..]; rewrite ?Hd, ?HX; intros; [by apply HOk | by apply HFail ..].
  - unfold wp, Commit, tx_view. rewrite E. by apply HFail.
  - unfold wp, Commit, tx_view. rewrite E. by apply HFail.
Qed.

(** The code after [Commit] no longer uses the transaction. *)
Lemma ends_commit {A} X msg (k : M A) (Q : res error A → db → Prop) :
  (∀ e, Q (Fail e) d) →
  (∀ w, w_db w = X → schema_ok X → wp k (λ r w', Q r (w_db w')) w) →
  ends X (wrap msg (Commit h) ≫= λ _, k) Q.
Proof.
  intros He Hk w Hw. apply wp_bind, wp_wrap. eapply wp_Commit_sees; [done|by apply Hk|]. intros e w' ->. apply He.
Qed.
End Sees.

(** [db.BeginTx] and the deferred rollback. *)
Lemma wp_with_tx_ends {A} begin (body : tx → M A) (Q : res error A → db → Prop) w :
  wp begin (λ r w', w_db w' = w_db w ∧
    match r with Ok h => pending h (eq id) w' | Fail _ => True | Panic _ => False end) w →
  (∀ e, Q (Fail e) (w_db w)) → (∀ h, ends h (w_db w) (w_db w) (body h) Q) →
  wp (with_tx begin body) (λ r w', Q r (w_db w')) w.
Proof.
  intros Hb He Hbody. apply wp_with_tx. eapply wp_mono; [exact Hb|]. intros [h|e|s] w1 [Hd Hp]; [|by rewrite Hd|done].
  apply (Hbody h w1). split; [done|]. by intros g <-%Hp.
Qed.

Lemma wp_BeginTx_status c msg w :
  wp (wrap_status c msg BeginTx) (λ r w', w_db w' = w_db w ∧
    match r with Ok h => pending h (eq id) w' | Fail _ => True | Panic _ => False end) w.
Proof.
  apply wp_wrap_status, wp_BeginTx; [|done]. intros fs _. split; [done|]. intros g Hg. simpl in Hg.
  rewrite lookup_insert_eq in Hg. congruence.
Qed.

Lemma wp_BeginTx_wrap msg w :
  wp (wrap msg BeginTx) (λ r w', w_db w' = w_db w ∧
    match r with Ok h => pending h (eq id) w' | Fail _ => True | Panic _ => False end) w.
Proof.
  apply wp_wrap, wp_BeginTx; [|done]. intros fs _. split; [done|]. intros g Hg. simpl in Hg.
  rewrite lookup_insert_eq in Hg. congruence.
Qed.

Create HintDb sequel.
#[export] Hint Resolve sequel_query sequel_queryRow sequel_queryRowAny sequel_scan sequel_statement sequel_exec
  sequel_exec_at sequel_now sequel_nextval sequel_choose sequel_fault_point sequel_wrap sequel_wrap_status : sequel.
#[export] Hint Resolve sequel_calls | 3 : sequel.

(** One statement of a transaction that is not retried. *)
Ltac ends_step :=
  first [eapply ends_bind | eapply sequel_bind];
  [solve [eauto 4 with sequel calls_only] | try done ..];
  let a := fresh "a" in let X := fresh "X" in let K := fresh "K" in
  intros a X K; simpl in K.

(** ** Code that only reads

    [reads h d X m Q]: whatever happens, the transaction sees [X] as before, unless
    it is aborted; so the code may look at the error and go on. *)

Section Reads.
Context (h : tx) (d X : db).

Definition reads {A} (m : M A) (Q : A → Prop) : Prop := ∀ w, sees h d X w →
  wp m (λ r w', sees h d X w' ∧ match r with Ok a => Q a | Fail _ => True | Panic _ => False end) w.

Lemma reads_ret {A} (a : A) (Q : A → Prop) : Q a → reads (mret a) Q.
Proof. intros HQ w Hw. by apply wp_ret. Qed.

Lemma reads_throw {A} e (Q : A → Prop) : reads (throw e) Q.
Proof. intros w Hw. by apply wp_throw. Qed.

Lemma reads_bind {A B} (m : M A) (f : A → M B) Q Q' : reads m Q → (∀ a, Q a → reads (f a) Q') → reads (m ≫= f) Q'.
Proof.
  intros Hm Hf w Hw. apply wp_bind. eapply wp_mono; [by apply Hm|]. intros [a|e|s] w1 [Hs HQ]; [|done|done]. by apply Hf.
Qed.

Lemma reads_tx_view : reads (tx_view h) (λ a, a = X).
Proof.
  intros w Hw. pose proof Hw as [Hd Hp]. destruct (w_txs w !! h) as [[g|]|] eqn:E.
  - eapply wp_tx_view; [done| |].
    + intros fs _. split; [done|]. rewrite Hd. exact (Hp g E).
    + intros e fs _. split; [by apply sees_abort | done].
  - unfold wp, tx_view. by rewrite E.
  - unfold wp, tx_view. by rewrite E.
Qed.

Lemma reads_query {A} (f : db → A) : reads (query h f) (λ a, a = f X).
Proof. eapply reads_bind; [apply reads_tx_view|]. intros ? ->. by apply reads_ret. Qed.

Lemma reads_queryRow {A} (f : db → option A) : reads (queryRow h f) (λ a, f X = Some a).
Proof.
  eapply reads_bind; [apply reads_query|]. intros ? ->. destruct (f X) eqn:E; [by apply reads_ret | apply reads_throw].
Qed.

Lemma reads_queryRowAny {A} (f : db → list A) : reads (queryRowAny h f) (λ a, a ∈ f X).
Proof.
  eapply reads_bind; [apply reads_query|]. intros ? ->.
  eapply (reads_bind _ _ (λ o, match o with Some a => a ∈ f X | None => True end)).
  - intros w Hw. apply wp_choose; by intros.
  - intros [a|] Ha; [by apply reads_ret | apply reads_throw].
Qed.

Lemma sequel_try_reads {A} (m : M A) Q :
  reads m Q → sequel h d X (try m) (λ r X', X' = X ∧ match r with inr a => Q a | inl _ => True end).
Proof.
  intros Hm w Hw. apply wp_try. eapply wp_mono; [by apply Hm|]. intros [a|e|s] w1 [Hs HQ]; [by exists X|by exists X|done].
Qed.
End Reads.

(** ** A transaction that may have been aborted *)

Definition aborted (h : tx) (d : db) (w : world) : Prop := w_db w = d ∧ ∀ g, w_txs w !! h ≠ Some (Some g).

Lemma wp_tx_view_aborted h d w :
  aborted h d w → wp (tx_view h) (λ r w', aborted h d w' ∧ ∃ e, r = Fail e) w.
Proof. intros Hw. apply wp_tx_view_closed; [apply Hw|]. eauto. Qed.

Lemma wp_exec_aborted h d f w : aborted h d w → wp (exec h f) (λ r w', aborted h d w' ∧ ∃ e, r = Fail e) w.
Proof.
  intros Hw. apply wp_bind. eapply wp_mono; [by apply wp_tx_view_aborted|]. by intros r w' [? [e ->]]; eauto.
Qed.

Lemma wp_Commit_aborted h d w : aborted h d w → wp (Commit h) (λ r w', w_db w' = d ∧ ∃ e, r = Fail e) w.
Proof.
  intros [Hd Ht]. unfold wp, Commit, tx_view. destruct (w_txs w !! h) as [[g|]|] eqn:E; simpl; [by destruct (Ht g)|..]; eauto.
Qed.

(** After an aborted transaction's commit comes nothing. *)
Lemma wp_commit_aborted {A} h d msg (k : unit → M A) (Q : res error A → world → Prop) w :
  aborted h d w → (∀ e w', w_db w' = d → Q (Fail e) w') → wp (wrap msg (Commit h) ≫= k) Q w.
Proof.
  intros Hw HQ. apply wp_bind, wp_wrap. eapply wp_mono; [by apply wp_Commit_aborted|]. intros r w' [? [e ->]]. by apply HQ.
Qed.

Lemma wp_exec_then_aborted {A} h d msg f (k : unit → M A) (Q : res error A → world → Prop) w :
  aborted h d w → (∀ e w', w_db w' = d → Q (Fail e) w') → wp (wrap msg (exec h f) ≫= k) Q w.
Proof.
  intros Hw HQ. apply wp_bind, wp_wrap. eapply wp_mono; [by apply wp_exec_aborted|].
  intros r w' [[? _] [e ->]]. by apply HQ.
Qed.

(** A query whose error the code looks at: it found nothing, or it failed and the transaction is aborted. *)
Lemma ends_try_queryRow {A B} h d X (f : db → option A) (k : error + A → M B) (Q : res error B → db → Prop) :
  (∀ a, f X = Some a → ends h d X (k (inr a)) Q) →
  (f X = None → ends h d X (k (inl ENoRows)) Q) →
  (∀ e w, aborted h d w → wp (k (inl e)) (λ r w', Q r (w_db w')) w) →
  ends h d X (try (queryRow h f) ≫= k) Q.
Proof.
  intros HOk HNone HFail w Hw. pose proof Hw as [Hd Hp]. apply wp_bind, wp_try.
  destruct (w_txs w !! h) as [[g|]|] eqn:E.
  - pose proof (Hp g E) as HX. eapply wp_queryRow; [done|..]; rewrite ?Hd, ?HX.
    + intros a fs _ Ha. by apply HOk.
    + intros fs _ Ha. by apply HNone.
    + intros e fs _. apply HFail. split; [done|]. intros g'. simpl. by rewrite lookup_insert_eq.
  - unfold queryRow, query. apply wp_bind, wp_bind, wp_tx_view_closed; [naive_solver|]. intros e _. apply HFail.
    split; [done|]. naive_solver.
  - unfold queryRow, query. apply wp_bind, wp_bind, wp_tx_view_closed; [naive_solver|]. intros e _. apply HFail.
    split; [done|]. naive_solver.
Qed.

(** ** Code that makes no calls *)

Definition keeps_calls {A} (m : M A) : Prop := ∀ w, w_calls (m w).2 = w_calls w.

Lemma wp_keeps_calls {A} (m : M A) Q w :
  keeps_calls m → wp m Q w → wp m (λ r w', Q r w' ∧ w_calls w' = w_calls w) w.
Proof. intros Hm Hw. split; [exact Hw | apply Hm]. Qed.

Lemma keeps_calls_ret {A} (a : A) : keeps_calls (mret a).
Proof. done. Qed.

Lemma keeps_calls_throw {A} e : keeps_calls (@throw A e).
Proof. done. Qed.

Lemma keeps_calls_panic {A} s : keeps_calls (@go_panic A s).
Proof. done. Qed.

Lemma keeps_calls_bind {A B} (m : M A) (f : A → M B) : keeps_calls m → (∀ a, keeps_calls (f a)) → keeps_calls (m ≫= f).
Proof.
  intros Hm Hf w. specialize (Hm w). unfold mbind, M_bind. destruct (m w) as [[a|e|s] w1]; simpl in *; [|done|done].
  by rewrite Hf.
Qed.

Lemma keeps_calls_try {A} (m : M A) : keeps_calls m → keeps_calls (try m).
Proof. intros Hm w. specialize (Hm w). unfold try. by destruct (m w) as [[a|e|s] w1]. Qed.

Lemma keeps_calls_wrap {A} msg (m : M A) : keeps_calls m → keeps_calls (wrap msg m).
Proof. intros Hm w. specialize (Hm w). unfold wrap. by destruct (m w) as [[a|e|s] w1]. Qed.

Lemma keeps_calls_wrap_status {A} c msg (m : M A) : keeps_calls m → keeps_calls (wrap_status c msg m).
Proof. intros Hm w. specialize (Hm w). unfold wrap_status. by destruct (m w) as [[a|e|s] w1]. Qed.

Lemma keeps_calls_fault_point : keeps_calls fault_point.
Proof. intros w. unfold fault_point. by destruct (w_faults w) as [|[]]. Qed.

Lemma keeps_calls_random : keeps_calls random.
Proof. intros w. unfold random. by destruct (w_rand w). Qed.

Lemma keeps_calls_choose {A} (l : list A) : keeps_calls (choose l).
Proof. apply keeps_calls_bind; [apply keeps_calls_random|done]. Qed.

Lemma keeps_calls_now : keeps_calls now.
Proof. done. Qed.

Lemma keeps_calls_nextval : keeps_calls nextval.
Proof. done. Qed.

Lemma keeps_calls_BeginTx : keeps_calls BeginTx.
Proof. apply keeps_calls_bind; [apply keeps_calls_fault_point|done]. Qed.

Lemma keeps_calls_tx_view h : keeps_calls (tx_view h).
Proof.
  intros w. unfold tx_view. pose proof (keeps_calls_fault_point w) as H.
  destruct (w_txs w !! h) as [[g|]|]; [|done|done]. by destruct (fault_point w) as [[] w'].
Qed.

Lemma keeps_calls_statement h : keeps_calls (statement h).
Proof. apply keeps_calls_bind; [apply keeps_calls_tx_view|done]. Qed.

Lemma keeps_calls_query {A} h (f : db → A) : keeps_calls (query h f).
Proof. apply keeps_calls_bind; [apply keeps_calls_tx_view|done]. Qed.

Lemma keeps_calls_queryRow {A} h (f : db → option A) : keeps_calls (queryRow h f).
Proof. apply keeps_calls_bind; [apply keeps_calls_query|]. by intros []. Qed.

Lemma keeps_calls_queryRowOpt {A} h (f : db → option A) : keeps_calls (queryRowOpt h f).
Proof. apply keeps_calls_bind; [apply keeps_calls_try, keeps_calls_queryRow|]. intros [[]|]; done. Qed.

Lemma keeps_calls_scan {A} (o : option A) : keeps_calls (scan o).
Proof. by destruct o. Qed.

Lemma keeps_calls_exec_at {A} h F (r : db → A) : keeps_calls (exec_at h F r).
Proof. apply keeps_calls_bind; [apply keeps_calls_tx_view|]. intros d. by destruct (check_constraints (F d d)). Qed.

Lemma keeps_calls_exec h f : keeps_calls (exec h f).
Proof. apply keeps_calls_exec_at. Qed.

Lemma keeps_calls_Commit h : keeps_calls (Commit h).
Proof.
  intros w. unfold Commit. pose proof (keeps_calls_tx_view h w) as H. destruct (tx_view h w) as [[d|e|s] w']; simpl in *; try done.
  by destruct (check_constraints d).
Qed.

Lemma keeps_calls_with_tx {A} begin (body : tx → M A) :
  keeps_calls begin → (∀ h, keeps_calls (body h)) → keeps_calls (with_tx begin body).
Proof.
  intros Hb Hbody. apply keeps_calls_bind; [done|]. intros h w. specialize (Hbody h w). unfold act. by destruct (body h w).
Qed.

Lemma keeps_calls_beginSerializableTx : keeps_calls beginSerializableTx.
Proof.
  apply keeps_calls_bind; [apply keeps_calls_wrap, keeps_calls_BeginTx|]. intros h.
  apply keeps_calls_bind; [apply keeps_calls_try, keeps_calls_statement|]. by intros [].
Qed.

Lemma keeps_calls_or_retry {A B} (m : M A) fail (k : A → M (option B)) :
  keeps_calls m → (∀ a, keeps_calls (k a)) → keeps_calls (or_retry m fail k).
Proof.
  intros Hm Hk. apply keeps_calls_bind; [by apply keeps_calls_try|]. intros [e|a]; [|done].
  by destruct (isSerializationFailure e).
Qed.

Lemma keeps_calls_retrying {A} (body : M (option A)) : keeps_calls body → keeps_calls (retrying body).
Proof.
  intros Hb w. unfold retrying. generalize (S (length (w_faults w))) as n. intros n. revert w.
  induction n as [|n IH]; intros w; [done|]. simpl. apply keeps_calls_bind; [done|]. by intros [a|].
Qed.

Create HintDb keeps_calls.
#[export] Hint Resolve keeps_calls_ret keeps_calls_throw keeps_calls_panic keeps_calls_bind keeps_calls_try keeps_calls_wrap
  keeps_calls_wrap_status keeps_calls_fault_point keeps_calls_random keeps_calls_choose keeps_calls_now keeps_calls_nextval
  keeps_calls_BeginTx keeps_calls_statement keeps_calls_query keeps_calls_queryRow keeps_calls_queryRowOpt keeps_calls_scan keeps_calls_exec_at
  keeps_calls_exec keeps_calls_Commit keeps_calls_with_tx keeps_calls_beginSerializableTx keeps_calls_or_retry
  keeps_calls_retrying : keeps_calls.

Ltac keeps_calls_walk :=
  repeat match goal with
  | |- keeps_calls (match ?x with _ => _ end) => destruct x
  | |- keeps_calls (_ ≫= _) => apply keeps_calls_bind; [|intros]
  | |- keeps_calls (with_tx _ _) => apply keeps_calls_with_tx; [|intros]
  | |- keeps_calls (retrying _) => apply keeps_calls_retrying
  | |- keeps_calls (or_retry _ _ _) => apply keeps_calls_or_retry; [|intros]
  | |- keeps_calls (try _) => apply keeps_calls_try
  | |- keeps_calls (wrap _ _) => apply keeps_calls_wrap
  | |- keeps_calls _ => solve [auto 2 with keeps_calls]
  end.

(** ** How often something is asked

    [budget hit k m]: whatever happens, [m] makes at most [k] of the calls that [hit] is about. *)

Section Budget.
Context (hit : event → bool).

Definition budget {A} (k : nat) (m : M A) : Prop := ∀ w, ∃ es, w_calls (m w).2 = w_calls w ++ es ∧ (count_where hit es ≤ k)%nat.

Lemma budget_keeps_calls {A} k (m : M A) : keeps_calls m → budget k m.
Proof. intros Hm w. exists []. rewrite Hm, app_nil_r. split; [done|]. unfold count_where. simpl. lia. Qed.

Lemma budget_bind {A B} k j (m : M A) (f : A → M B) : budget k m → (∀ a, budget j (f a)) → budget (k + j) (m ≫= f).
Proof.
  intros Hm Hf w. destruct (Hm w) as (es & Hes & Hk). unfold mbind, M_bind. destruct (m w) as [[a|e|s] w']; simpl in *; [|exists es; split; [done|lia]..].
  destruct (Hf a w') as (es' & Hes' & Hj). exists (es ++ es'). rewrite Hes', Hes, app_assoc. split; [done|].
  unfold count_where, where_ in *. rewrite List.filter_app, length_app. lia.
Qed.

Lemma budget_try {A} k (m : M A) : budget k m → budget k (try m).
Proof. intros Hm w. specialize (Hm w). unfold try. by destruct (m w) as [[]]. Qed.

Lemma budget_wrap {A} k msg (m : M A) : budget k m → budget k (wrap msg m).
Proof. intros Hm w. specialize (Hm w). unfold wrap. by destruct (m w) as [[]]. Qed.

Lemma budget_wrap_status {A} k c msg (m : M A) : budget k m → budget k (wrap_status c msg m).
Proof. intros Hm w. specialize (Hm w). unfold wrap_status. by destruct (m w) as [[]]. Qed.

Lemma budget_call ec2 {A : Set} (c : ec2_call A) : budget (if hit (Event c) then 1 else 0)%nat (call ec2 c).
Proof. intros w. exists [Event c]. unfold count_where, where_. simpl. by destruct (hit (Event c)). Qed.

Lemma budget_with_tx {A} k begin (body : tx → M A) :
  keeps_calls begin → (∀ h, budget k (body h)) → budget k (with_tx begin body).
Proof.
  intros Hb Hbody. apply (budget_bind 0); [by apply budget_keeps_calls|]. intros h w. specialize (Hbody h w). unfold act. by destruct (body h w).
Qed.
End Budget.

(** ** What can be seen from outside

    [moves S m]: whatever happens, [m] changes the committed database and the log of calls
    only as the preorder [S] allows. *)

Definition seen (w : world) : db * list event := (w_db w, w_calls w).

Section Moves.
Context (S : relation (db * list event)) `{!PreOrder S}.

Definition moves {A} (m : M A) : Prop := ∀ w, wp m (λ _ w', S (seen w) (seen w')) w.

Lemma moves_ret {A} (a : A) : moves (mret a).
Proof. intros w. by apply wp_ret. Qed.

Lemma moves_throw {A} e : moves (@throw A e).
Proof. intros w. by apply wp_throw. Qed.

Lemma moves_panic {A} s : moves (@go_panic A s).
Proof. intros w. by apply wp_panic. Qed.

Lemma moves_bind {A B} (m : M A) (f : A → M B) : moves m → (∀ a, moves (f a)) → moves (m ≫= f).
Proof.
  intros Hm Hf w. apply wp_bind. eapply wp_mono; [apply Hm|]. intros [a|e|s] w1 H1; [|done|done].
  eapply wp_mono; [apply Hf|]. intros r w2 H2. by etrans.
Qed.

Lemma moves_try {A} (m : M A) : moves m → moves (try m).
Proof. intros Hm w. apply wp_try. eapply wp_mono; [apply Hm|]. by intros [a|e|s] w1. Qed.

Lemma moves_wrap {A} msg (m : M A) : moves m → moves (wrap msg m).
Proof. intros Hm w. apply wp_wrap. eapply wp_mono; [apply Hm|]. by intros [a|e|s] w1. Qed.

Lemma moves_fault_point : moves fault_point.
Proof. intros w. apply wp_fault_point; by intros. Qed.

Lemma moves_random : moves random.
Proof. intros w. apply wp_random; by intros. Qed.

Lemma moves_shuffle {A} (l : list A) : moves (shuffle l).
Proof.
  induction l as [|a l IH]; simpl; [apply moves_ret|]. apply moves_bind; [done|]. intros s.
  apply moves_bind; [apply moves_random|]. intros n. apply moves_ret.
Qed.

Lemma moves_call ec2 {A : Set} (c : ec2_call A) : (∀ d cs, S (d, cs) (d, cs ++ [Event c])) → moves (call ec2 c).
Proof. intros HS w. apply wp_call; intros; apply HS. Qed.

(** Code that makes no calls. *)
Lemma moves_db {A} (m : M A) (T : relation db) :
  keeps_calls m → (∀ w, wp m (λ _ w', T (w_db w) (w_db w')) w) → (∀ d d' cs, T d d' → S (d, cs) (d', cs)) → moves m.
Proof.
  intros Hc HT HS w. specialize (Hc w). specialize (HT w). unfold wp, seen in *. rewrite Hc. by apply HS.
Qed.
End Moves.

(** ** Retrying without counting the faults *)

Section Retry.
Context (h : tx) (d : db).

Lemma ends_or_retry {A B} X (m : M A) fail (k : A → M (option B)) K (Q : res error (option B) → db → Prop) :
  sequel h d X m K → (∀ e, Q (Fail e) d) → Q (Ok None) d → (∀ a X', K a X' → ends h d X' (k a) Q) →
  ends h d X (or_retry m fail k) Q.
Proof.
  intros Hm He Hn Hk w Hw. apply wp_or_retry. eapply wp_mono; [by apply Hm|].
  intros [a|e|s] w1; [intros (X' & Hs & HK); by apply (Hk a X')|intros (X' & Hd & _); by rewrite Hd|done].
Qed.

Lemma ends_or_commit {B} X fail (b : B) (Q : res error (option B) → db → Prop) :
  (∀ e, Q (Fail e) d) → Q (Ok None) d → Q (Ok (Some b)) X →
  ends h d X (or_retry (Commit h) fail (λ _, mret (Some b))) Q.
Proof.
  intros He Hn Hb w [Hd Hp]. apply wp_or_retry. destruct (w_txs w !! h) as [[g|]|] eqn:E.
  - pose proof (Hp g E) as HX. eapply wp_Commit; [done|..]; rewrite ?Hd, ?HX; intros; simpl; rewrite ?Hd; auto.
  - unfold wp, Commit, tx_view. rewrite E. simpl. by rewrite Hd.
  - unfold wp, Commit, tx_view. rewrite E. simpl. by rewrite Hd.
Qed.

Lemma wp_or_commit_aborted {B} fail (k : unit → M (option B)) (Q : res error (option B) → world → Prop) w :
  aborted h d w → (∀ r w', w_db w' = d → match r with Ok (Some _) | Panic _ => True | _ => Q r w' end) →
  wp (or_retry (Commit h) fail k) Q w.
Proof.
  intros Hw HQ. apply wp_or_retry. eapply wp_mono; [by apply wp_Commit_aborted|]. intros r w' [Hd [e ->]].
  split; intros _; [by apply (HQ (Ok None)) | by apply (HQ (Fail (fail e)))].
Qed.

Lemma sequel_queryRowOpt {A} X (f : db → option A) :
  sequel h d X (queryRowOpt h f) (λ o X', X' = X ∧ match o with Some a => f X = Some a | None => True end).
Proof.
  intros w Hw. apply wp_bind, wp_try. pose proof Hw as [Hd Hp].
  destruct (w_txs w !! h) as [[g|]|] eqn:E.
  - pose proof (Hp g E) as HX. eapply wp_queryRow; [done|..]; rewrite ?Hd, ?HX.
    + intros a fs _ Ha. by exists X.
    + intros fs _ _. by exists X.
    + intros e fs _. assert (sees h d X (abort h (set_faults fs w))) by by apply sees_abort.
      destruct e; by exists X.
  - unfold queryRow, query. apply wp_bind, wp_bind, wp_tx_view_closed; [naive_solver|]. intros e _. destruct e; by exists X.
  - unfold queryRow, query. apply wp_bind, wp_bind, wp_tx_view_closed; [naive_solver|]. intros e _. destruct e; by exists X.
Qed.

(** The row is there, it is not, or the transaction is aborted. *)
Lemma ends_or_retry_queryRowOpt {A B} X (f : db → option A) fail (k : option A → M (option B))
    (Q : res error (option B) → db → Prop) :
  (∀ e, Q (Fail e) d) → Q (Ok None) d →
  (∀ a, f X = Some a → ends h d X (k (Some a)) Q) → (f X = None → ends h d X (k None) Q) →
  (∀ w, aborted h d w → wp (k None) (λ r w', Q r (w_db w')) w) →
  ends h d X (or_retry (queryRowOpt h f) fail k) Q.
Proof.
  intros He Hn HOk HNone Hab w Hw. apply wp_or_retry, wp_bind, wp_try. pose proof Hw as [Hd Hp].
  destruct (w_txs w !! h) as [[g|]|] eqn:E.
  - pose proof (Hp g E) as HX. eapply wp_queryRow; [done|..]; rewrite ?Hd, ?HX.
    + intros a fs _ Ha. apply wp_ret. by apply HOk.
    + intros fs _ Ha. apply wp_ret. by apply HNone.
    + intros e fs _. assert (aborted h d (abort h (set_faults fs w))).
      { split; [done|]. intros g'. simpl. by rewrite lookup_insert_eq. }
      destruct e; try (apply wp_throw; simpl; rewrite Hd; auto). apply wp_ret. by apply Hab.
  - unfold queryRow, query. apply wp_bind, wp_bind. unfold wp, tx_view. rewrite E. simpl. rewrite Hd. auto.
  - unfold queryRow, query. apply wp_bind, wp_bind. unfold wp, tx_view. rewrite E. simpl. rewrite Hd. auto.
Qed.
End Retry.

#[export] Hint Resolve sequel_queryRowOpt : sequel.

Lemma wp_retrying_any {A} (body : M (option A)) (I : world → Prop) Q w :
  I w → (∀ s w1, I w1 → Q (Panic s) w1) →
  (∀ w1, I w1 →
     wp body (λ r w', match r with
                      | Ok None => I w'
                      | Ok (Some a) => Q (Ok a) w'
                      | Fail e => Q (Fail e) w'
                      | Panic s => Q (Panic s) w'
                      end) w1) →
  wp (retrying body) Q w.
Proof.
  intros HI HP Hbody. unfold wp at 1, retrying. fold (wp (retry_loop (S (length (w_faults w))) body) Q w).
  generalize (S (length (w_faults w))) as fuel. intros fuel. revert w HI.
  induction fuel as [|n IH]; intros w HI; [by apply HP|]. simpl. apply wp_bind.
  eapply wp_mono; [by apply Hbody|]. intros [[a|]|e|s] w'; [by intros | | by intros | by intros]. apply IH.
Qed.

(** A transaction that is retried until it has an outcome; a panic leaves the database alone. *)
Lemma wp_retrying_ends {A} begin (body : tx → M (option A)) (Q : res error A → db → Prop) w :
  (∀ w1, wp begin (λ r w', w_db w' = w_db w1 ∧
    match r with Ok h => pending h (eq id) w' | Fail _ => True | Panic _ => False end) w1) →
  (∀ e, Q (Fail e) (w_db w)) → (∀ s, Q (Panic s) (w_db w)) →
  (∀ h, ends h (w_db w) (w_db w) (body h) (λ r d',
     match r with Ok None => d' = w_db w | Ok (Some a) => Q (Ok a) d' | Fail e => Q (Fail e) d' | Panic s => Q (Panic s) d' end)) →
  wp (retrying (with_tx begin body)) (λ r w', Q r (w_db w')) w.
Proof.
  intros Hb He HP Hbody. apply (wp_retrying_any _ (λ w1, w_db w1 = w_db w)); [done|by intros s w1 ->|].
  intros w1 Hd1. eapply wp_mono.
  - apply (wp_with_tx_ends _ _ (λ r d', match r with
      | Ok None => d' = w_db w | Ok (Some a) => Q (Ok a) d' | Fail e => Q (Fail e) d' | Panic s => Q (Panic s) d' end));
      rewrite ?Hd1; [by rewrite <- Hd1|auto|done].
  - by intros [[a|]|e|s] w2.
Qed.

Lemma wp_beginSerializableTx_wrap msg w :
  wp (wrap msg beginSerializableTx) (λ r w', w_db w' = w_db w ∧
    match r with Ok h => pending h (eq id) w' | Fail _ => True | Panic _ => False end) w.
Proof.
  apply wp_wrap, wp_bind, wp_wrap, wp_BeginTx; [|done]. intros fs _. apply wp_bind, wp_try.
  eapply wp_statement; [apply lookup_insert_eq|..]; intros.
  - apply wp_ret. split; [done|]. intros g Hg. simpl in Hg. rewrite lookup_insert_eq in Hg. congruence.
  - by apply wp_bind, wp_Rollback, wp_throw.
Qed.

(** ** Runs without faults *)

Section Succeeds.
Context (h : tx) (d : db).

(** Nothing fails any more, and [X] is what the open transaction sees. *)
Definition ready (rs : list nat) (X : db) (w : world) : Prop :=
  w_faults w = [] ∧ w_rand w = rs ∧ w_db w = d ∧ ∃ g, w_txs w !! h = Some (Some g) ∧ g d = X.

Definition succeeds {A} (rs : list nat) (X : db) (m : M A) (K : A → db → Prop) : Prop := ∀ w, ready rs X w →
  wp m (λ r w', ∃ a X', r = Ok a ∧ ready rs X' w' ∧ K a X') w.

Lemma succeeds_ret {A} rs X (a : A) (K : A → db → Prop) : K a X → succeeds rs X (mret a) K.
Proof. intros HK w Hw. apply wp_ret. eauto. Qed.

Lemma succeeds_bind {A B} rs X (m : M A) (f : A → M B) K K' :
  succeeds rs X m K → (∀ a X', K a X' → succeeds rs X' (f a) K') → succeeds rs X (m ≫= f) K'.
Proof.
  intros Hm Hf w Hw. apply wp_bind. eapply wp_mono; [by apply Hm|]. intros r w1 (a & X' & -> & Hr & HK). by apply (Hf a X').
Qed.

Lemma succeeds_wrap {A} rs X msg (m : M A) K : succeeds rs X m K → succeeds rs X (wrap msg m) K.
Proof. intros Hm w Hw. apply wp_wrap. eapply wp_mono; [by apply Hm|]. intros r w1 (a & X' & -> & Hr & HK). by exists a, X'. Qed.

Lemma succeeds_try {A} rs X (m : M A) K :
  succeeds rs X m K → succeeds rs X (try m) (λ r X', ∃ a, r = inr a ∧ K a X').
Proof. intros Hm w Hw. apply wp_try. eapply wp_mono; [by apply Hm|]. intros r w1 (a & X' & -> & Hr & HK). exists (inr a), X'. eauto. Qed.

Lemma succeeds_call ec2 {A : Set} rs X (c : ec2_call A) a :
  (∀ cs, ec2 A cs c = inr a) → succeeds rs X (call ec2 c) (λ a' X', a' = a ∧ X' = X).
Proof.
  intros Hc w Hw. apply wp_call; rewrite Hc; [|done]. intros a' [= <-]. by exists a, X.
Qed.

Lemma succeeds_tx_view rs X : succeeds rs X (tx_view h) (λ a X', X' = X ∧ a = X).
Proof.
  intros w (Hf & Hr & Hd & g & Hg & HX). unfold wp, tx_view, fault_point. rewrite Hg, Hf, Hd. simpl.
  exists X, X. rewrite HX. split_and!; [done| |done|done]. split_and!; [done|done|done|]. by exists g.
Qed.

Lemma succeeds_statement rs X : succeeds rs X (statement h) (λ _ X', X' = X).
Proof. eapply succeeds_bind; [apply succeeds_tx_view|]. intros ? ? [-> _]. by apply succeeds_ret. Qed.

Lemma succeeds_queryRow {A} rs X (f : db → option A) a :
  f X = Some a → succeeds rs X (queryRow h f) (λ a' X', a' = a ∧ X' = X).
Proof.
  intros Ha. eapply succeeds_bind; [eapply succeeds_bind; [apply succeeds_tx_view|]|].
  - intros ? ? [-> ->]. by apply (succeeds_ret _ _ _ (λ o X', o = f X ∧ X' = X)).
  - intros ? ? [-> ->]. rewrite Ha. by apply succeeds_ret.
Qed.

Lemma succeeds_exec rs X f : schema_ok (f X) → succeeds rs X (exec h f) (λ _ X', X' = f X).
Proof.
  intros Hs. eapply succeeds_bind; [apply succeeds_tx_view|]. intros ? ? [-> ->]. rewrite check_constraints_ok by done.
  intros w (Hf & Hr & Hd & g & Hg & HX). apply wp_act. exists tt, (f X). split_and!; [done| |done].
  split_and!; [done|done|done|]. eexists. simpl. rewrite lookup_alter_eq, Hg. split; [done|]. simpl. by rewrite HX.
Qed.

Lemma wp_Commit_ready rs X w : ready rs X w → schema_ok X → wp (Commit h) (λ r w', r = Ok tt ∧ w_db w' = X) w.
Proof.
  intros (Hf & Hr & Hd & g & Hg & HX) Hs. unfold wp, Commit, tx_view, fault_point. rewrite Hg, Hf, Hd, HX. simpl.
  by rewrite check_constraints_ok.
Qed.
End Succeeds.

Lemma wp_no_fault Q w : w_faults w = [] → Q (Ok tt) w → wp fault_point Q w.
Proof. intros Hf HQ. unfold wp, fault_point. by rewrite Hf. Qed.

(** A transaction whose deferred function commits *)
Lemma wp_with_commit_observes {A} {G : (db → db) → Prop} P begin (body : tx → M A) Q w :
  begins begin → G id → (∀ h, observes_in (G:=G) [h] P (w_db w) (w_now w) (body h) Q) →
  wp (with_commit begin body) (λ r w',
    (∃ es, w_calls w' = w_calls w ++ es ∧ Forall P es) ∧ (∃ g, G g ∧ w_db w' = g (w_db w)) ∧
    match r with Ok a => Q a ∧ schema_ok (w_db w') | Fail _ => w_db w' = w_db w | Panic _ => True end) w.
Proof.
  intros Hbegin HG Hbody. apply wp_bind. eapply wp_mono; [apply Hbegin|]. intros [h|e|s] w1; [| |done].
  2: { intros [fs ->]. split_and!; [exists []; by rewrite app_nil_r | by exists id | done]. }
  intros (fs & -> & ->). apply wp_act. set (h := w_next_tx w) in *. set (w1 := set_next_tx _ _).
  assert (clean (G:=G) [h] w1) as Hc.
  { intros h' ->%list_elem_of_singleton g Hg. simpl in Hg. rewrite lookup_insert_eq in Hg. by injection Hg as <-. }
  pose proof (Hbody h w1 eq_refl eq_refl Hc) as Hb. destruct (body h w1) as [r w2] eqn:E. eapply wp_elim in Hb; [|exact E].
  destruct Hb as [(Hd & _ & Hp & Hes) HQ]. specialize (Hp h ltac:(by left)). unfold wp.
  assert (∀ r' w', Commit h w2 = (r', w') →
    w_calls w' = w_calls w2 ∧ (∃ g, G g ∧ w_db w' = g (w_db w)) ∧
    match r' with Ok _ => schema_ok (w_db w') | Fail _ => w_db w' = w_db w | Panic _ => True end) as Hcommit.
  { intros r' w' Ec. pose proof (keeps_calls_Commit h w2) as Hk. pose proof (wp_Commit_any h w2) as Ha.
    unfold wp in Hk, Ha. rewrite Ec in Hk, Ha. simpl in Ha. split; [exact Hk|].
    destruct r' as [u|e|s]; [|rewrite Ha, Hd; split; [by exists id | done]..].
    destruct Ha as (g & Hg & Hdb & Hok). split; [|done]. exists g. split; [exact (Hp g Hg) | by rewrite Hdb, Hd]. }
  destruct r as [a|e|s].
  - destruct (Commit h w2) as [r' w'] eqn:Ec. destruct (Hcommit _ _ eq_refl) as (Hcs & Hg & Hr).
    destruct r' as [u|e|s]; simpl; rewrite Hcs; by split_and!.
  - split_and!; [done | by exists id | done].
  - destruct (Commit h w2) as [r' w'] eqn:Ec. destruct (Hcommit _ _ eq_refl) as (Hcs & Hg & _). simpl. rewrite Hcs. by split_and!.
Qed.

(** ** Transactions whose writes are followed

    [follows h P d t G m Q G']: like [observes_in], and when [m], started with pending writes that satisfy [G], answers [a],
    the pending writes of [h] satisfy [G' a]. *)
Section Follows.
Context (h : tx) (P : event → Prop) (d : db) (t : Z).

Definition follows {A} (G : (db → db) → Prop) (m : M A) (Q : A → Prop) (G' : A → (db → db) → Prop) : Prop := ∀ w,
  w_db w = d → w_now w = t → pending h G w →
  wp m (λ r w', (w_db w' = d ∧ w_now w' = t ∧ ∃ es, w_calls w' = w_calls w ++ es ∧ Forall P es) ∧
    match r with Ok a => Q a ∧ pending h (G' a) w' | _ => True end) w.

Lemma follows_observes {A} G (m : M A) Q : observes_in (G:=G) [h] P d t m Q → follows G m Q (λ _, G).
Proof.
  intros Hm w Hd Ht Hp. eapply wp_mono; [apply (Hm w Hd Ht)|]; [by intros h' ->%list_elem_of_singleton|].
  intros r w' [(? & ? & Hc & ?) HQ]. split; [done|]. destruct r; [|done|done]. split; [done|]. apply Hc. by left.
Qed.

Lemma follows_mono {A} G (m : M A) Q G1 Q' G2 :
  follows G m Q G1 → (∀ a, Q a → Q' a) → (∀ a g, Q a → G1 a g → G2 a g) → follows G m Q' G2.
Proof.
  intros Hm HQ HG w Hd Ht Hp. eapply wp_mono; [by apply Hm|]. intros [a|e|s] w' [Hw Ha]; (split; [done|]); [|done|done].
  destruct Ha as [Ha Hg]. split; [auto|]. intros g Hg'. by apply HG, Hg.
Qed.

Lemma follows_bind {A B} G (m : M A) (f : A → M B) Q G1 Q' G2 :
  follows G m Q G1 → (∀ a, Q a → follows (G1 a) (f a) Q' G2) → follows G (m ≫= f) Q' G2.
Proof.
  intros Hm Hf w Hd Ht Hp. apply wp_bind. eapply wp_mono; [by apply Hm|]. intros [a|e|s] w1 [Hw Ha]; [|done|done].
  destruct Hw as (Hd1 & Ht1 & es & He & Hes), Ha as [HQ Hp1]. eapply wp_mono; [by apply (Hf a HQ)|].
  intros r w2 [(? & ? & es' & He' & Hes') Hr]. split; [|done]. split_and!; try done. exists (es ++ es'). rewrite He', He, app_assoc.
  split; [done|]. by apply Forall_app.
Qed.

Lemma follows_ret {A} G (a : A) Q G' : Q a → (∀ g, G g → G' a g) → follows G (mret a) Q G'.
Proof.
  intros HQ HG w Hd Ht Hp. apply wp_ret. split; [split_and!; try done; exists []; by rewrite app_nil_r|]. split; [done|].
  intros g Hg. by apply HG, Hp.
Qed.

Lemma follows_throw {A} G e Q (G' : A → (db → db) → Prop) : follows G (throw e) Q G'.
Proof. intros w Hd Ht Hp. apply wp_throw. split; [split_and!; try done; exists []; by rewrite app_nil_r|done]. Qed.

Lemma follows_wrap {A} G msg (m : M A) Q G' : follows G m Q G' → follows G (wrap msg m) Q G'.
Proof. intros Hm w Hd Ht Hp. apply wp_wrap. eapply wp_mono; [by apply Hm|]. by intros [a|e|s] w' ?. Qed.

Lemma follows_exec G f : follows G (exec h f) (λ _, True) (λ _ g', ∃ g, G g ∧ g' = λ d', f (g d')).
Proof.
  intros w Hd Ht Hp. destruct (w_txs w !! h) as [[g|]|] eqn:E;
    [|unfold exec, exec_at; apply wp_bind; unfold wp, tx_view; rewrite E; (split; [split_and!; try done; exists []; by rewrite app_nil_r|done])..].
  eapply wp_exec_at; [done|..]; intros; (split; [split_and!; try done; exists []; by rewrite app_nil_r|]); [|done|done].
  split; [done|]. intros g' Hg'. simpl in Hg'. rewrite lookup_insert_eq in Hg'. injection Hg' as <-. exists g. split; [by apply Hp | done].
Qed.
End Follows.

Lemma Commit_now h w : w_now (Commit h w).2 = w_now w.
Proof.
  unfold Commit, tx_view, fault_point. destruct (w_txs w !! h) as [[g|]|]; [|done|done].
  destruct (w_faults w) as [|[e|] fs]; simpl; [|done|]; by destruct (check_constraints _).
Qed.

(** What is committed *)
Lemma wp_with_commit_follows {A} P begin (body : tx → M A) Q G' w :
  begins begin → (∀ h, follows h P (w_db w) (w_now w) (eq id) (body h) Q G') →
  wp (with_commit begin body) (λ r w',
    (∃ es, w_calls w' = w_calls w ++ es ∧ Forall P es) ∧
    match r with
    | Ok a => Q a ∧ w_now w' = w_now w ∧ (∃ g, G' a g ∧ w_db w' = g (w_db w)) ∧ schema_ok (w_db w')
    | Fail _ => w_db w' = w_db w
    | Panic _ => True
    end) w.
Proof.
  intros Hbegin Hbody. apply wp_bind. eapply wp_mono; [apply Hbegin|]. intros [h|e|s] w1; [| |done].
  2: { intros [fs ->]. split; [exists []; by rewrite app_nil_r | done]. }
  intros (fs & -> & ->). apply wp_act. set (h := w_next_tx w) in *. set (w1 := set_next_tx _ _).
  assert (pending h (eq id) w1) as Hp by (intros g Hg; simpl in Hg; rewrite lookup_insert_eq in Hg; by injection Hg).
  pose proof (Hbody h w1 eq_refl eq_refl Hp) as Hb. destruct (body h w1) as [r w2] eqn:E. eapply wp_elim in Hb; [|exact E].
  destruct Hb as [(Hd & Ht & Hes) Hr]. unfold wp. pose proof (keeps_calls_Commit h w2) as Hk. pose proof (wp_Commit_any h w2) as Hc.
  pose proof (Commit_now h w2) as Hn. unfold wp in Hc. destruct r as [a|e|s]; [|done|].
  - destruct (Commit h w2) as [r' w'] eqn:Ec. simpl in Hk, Hc. destruct r' as [u|e|s]; simpl; rewrite Hk; (split; [done|]); [|by rewrite Hc|done].
    destruct Hc as (g & Hg & Hdb & Hok), Hr as [HQ Hp2]. simpl in Hn. split_and!; [done|by rewrite Hn| |done]. exists g. split; [by apply Hp2 | by rewrite Hdb, Hd].
  - destruct (Commit h w2) as [r' w'] eqn:Ec. simpl in Hk |- *. by rewrite Hk.
Qed.

(** ** A commit that is deferred *)
Lemma wp_deferred_commit {A} h d X (m : M A) K w :
  sees h d X w → sequel h d X m K →
  wp (deferred_commit h m) (λ r w', match r with
    | Ok a => K a (w_db w') ∧ schema_ok (w_db w')
    | Fail _ => w_db w' = d
    | Panic _ => False
    end) w.
Proof.
  intros Hs Hm. apply wp_act. pose proof (Hm w Hs) as Hw. unfold wp in *. destruct (m w) as [[a|e|s] w1]; [| |done].
  - destruct Hw as (X' & Hs' & HK). pose proof (wp_Commit_sees h d X' (λ r w', match r with
      | Ok _ => K a (w_db w') ∧ schema_ok (w_db w') | Fail _ => w_db w' = d | Panic _ => False end) w1 Hs') as Hc.
    unfold wp in Hc. destruct (Commit h w1) as [[u|e|s] w2]; apply Hc; try done; by intros w' ->.
  - by destruct Hw as (X' & [Hd _]).
Qed.

Lemma sequel_call ec2 h d X {A : Set} (c : ec2_call A) :
  sequel h d X (call ec2 c) (λ a X', X' = X ∧ ∃ cs, ec2 A cs c = inr a).
Proof. intros w [Hd Hp]. apply wp_call; intros; exists X; [|by split]. split; [by split|]. split; [done|]. eauto. Qed.
