(* ===== verification/BranchEni.v ===== *)
(** * BranchEni: attaching and detaching branch ENIs

    Models [vpc/service/branch_enis.go].  A row of [branch_eni_attachments] is a
    work item: [startAssociation] and [startDissociation] write it,
    [finishAssociation] and [finishDisassociation] do the work in EC2 and write
    the outcome, called either by the request that started the work or by an
    [actionWorker] that is notified of the row.  A [*sql.Tx] is a handle; the
    "slow" transaction holds the advisory lock on the work item while the "fast"
    serializable ones change it.

    The handlers of the model run one after the other, so an advisory lock is
    always granted; [acquireLock] can fail as every statement can. *)
From S2P Require Import Prelude Errors Schema Service Logic.

Open Scope string_scope.
Open Scope Z_scope.
Open Scope list_scope.

(** ** SQL statements *)

(** [ORDER BY key ASC LIMIT 1] leaves the choice between the rows with the
    smallest key. *)
Definition order_by_limit_1 {A} (key : A → Z) (l : list A) : list A :=
  where_ (λ x, forallb (λ y, key x <=? key y) l) l.

Definition branch_eni_of (iface : network_interface) (now : Z) : branch_eni_row := {|
  be_branch_eni := NetworkInterfaceId iface;
  be_account_id := ni_OwnerId iface;
  be_subnet_id := ni_SubnetId iface;
  be_az := ni_AvailabilityZone iface;
  be_vpc_id := ni_VpcId iface;
  be_security_groups := sort_Strings (ni_Groups iface);
  be_dirty_security_groups := false;
  be_mac := Some (ni_MacAddress iface);
  be_last_assigned_to := None;
  be_created_at := now
|}.

(** [INSERT INTO branch_enis .. ON CONFLICT (branch_eni) DO NOTHING] *)
Definition insert_branch_eni (iface : network_interface) (now : Z) (d : db) : db :=
  if existsb (λ b, bool_decide (be_branch_eni b = NetworkInterfaceId iface)) (branch_enis d) then d
  else set_branch_enis (branch_enis d ++ [branch_eni_of iface now]) d.

(** [UPDATE branch_eni_attachments SET f WHERE p], for a statement that saw
    [d0]: the rows it updates are the ones it saw. *)
Definition update_attachments (p : attachment → bool) (f : attachment → attachment) (d0 d : db) : db :=
  set_branch_eni_attachments
    (update_where (λ a, p a && bool_decide (a ∈ branch_eni_attachments d0)) f (branch_eni_attachments d)) d.

(** [RowsAffected] of that *)
Definition attachments_affected (p : attachment → bool) (d0 : db) : nat :=
  count_where p (branch_eni_attachments d0).

(** [SET state = 'failed', attachment_completed_at = now(), error_code = .., error_message = ..] *)
Definition mark_failed (t : Z) (ecode msg : string) (a : attachment) : attachment :=
  Attachment (at_id a) (at_branch_eni a) (at_trunk_eni a) (at_idx a) (at_association_id a)
    (at_association_token a) (at_disassociation_token a) failed (at_force a) (Some ecode) (Some msg)
    (at_generation a) (at_created_at a) (Some t).

(** [SET state = 'attached', attachment_completed_at = now(), association_id = ..] *)
Definition mark_attached (t : Z) (assoc : string) (a : attachment) : attachment :=
  Attachment (at_id a) (at_branch_eni a) (at_trunk_eni a) (at_idx a) (Some assoc)
    (at_association_token a) (at_disassociation_token a) attached (at_force a) (at_error_code a)
    (at_error_message a) (at_generation a) (at_created_at a) (Some t).

(** [SET state = 'unattaching', disassociation_token = .., force = .., error_code = NULL, ..] *)
Definition mark_unattaching (token : string) (force : bool) (a : attachment) : attachment :=
  Attachment (at_id a) (at_branch_eni a) (at_trunk_eni a) (at_idx a) (at_association_id a)
    (at_association_token a) (Some token) unattaching (Some force) None None
    (at_generation a) (at_created_at a) (at_completed_at a).

(** [SET state = 'attached', error_code = .., error_message = ..], when the
    disassociation is given up *)
Definition mark_still_attached (ecode msg : string) (a : attachment) : attachment :=
  Attachment (at_id a) (at_branch_eni a) (at_trunk_eni a) (at_idx a) (at_association_id a)
    (at_association_token a) (at_disassociation_token a) attached (at_force a) (Some ecode) (Some msg)
    (at_generation a) (at_created_at a) (at_completed_at a).

(** [SET state = 'unattached'] *)
Definition mark_unattached (a : attachment) : attachment :=
  Attachment (at_id a) (at_branch_eni a) (at_trunk_eni a) (at_idx a) (at_association_id a)
    (at_association_token a) (at_disassociation_token a) unattached (at_force a) (at_error_code a)
    (at_error_message a) (at_generation a) (at_created_at a) (at_completed_at a).

Definition is_id (id : Z) (a : attachment) : bool := at_id a =? id.

Definition is_id_in (id : Z) (s : attachment_state) (a : attachment) : bool :=
  (at_id a =? id) && bool_decide (at_state a = s).

Definition has_association (assoc : string) (a : attachment) : bool := oeqb (at_association_id a) assoc.

(** [FROM branch_eni_attachments JOIN trunk_enis ON .. WHERE id = $1] *)
Definition attachment_trunk (id : Z) (d : db) : list (attachment * trunk_eni_row) :=
  join (where_ (is_id id) (branch_eni_attachments d)) (trunk_enis d)
       (λ a t, bool_decide (at_trunk_eni a = te_trunk_eni t)).

(** [.. JOIN branch_enis ON ..] *)
Definition attachment_trunk_branch (id : Z) (d : db) :
  list (attachment * trunk_eni_row * branch_eni_row) :=
  join (attachment_trunk id d) (branch_enis d)
       (λ '(a, _) b, bool_decide (at_branch_eni a = be_branch_eni b)).

(** ** Inserting a branch ENI *)

Definition insertBranchENIIntoDB (h : tx) (iface : network_interface) : M unit :=
  t ← now;
  exec h (insert_branch_eni iface t).

(** ** The advisory lock of a work item *)

Definition acquireLock (h : tx) (table : string) (id : Z) : M unit :=
  wrap ("Could not acquire advisory lock on table " +:+ table) (statement h).

(** ** Starting an association *)

Record association := Association { as_branchENI : string; as_trunkENI : string }.

Definition new_attachment (id : Z) (branchENI trunkENI : string) (idx : Z) (token : string) (now : Z) :
  attachment :=
  Attachment id branchENI trunkENI idx None (Some token) None attaching None None None None now None.

Definition start_constraints : list string :=
  ["branch_eni_attachments_branch_eni_trunk_eni_idx_uindex";
   "branch_eni_attachments_trunk_eni_idx_uindex";
   "branch_eni_attachments_branch_eni_uindex"].

(** [pqErr != nil && pqErr.Code.Name() == "unique_violation" && (pqErr.Constraint == .. || ..)] *)
Definition is_start_conflict (e : error) : bool :=
  match pqError e with
  | Some (name, c) => bool_decide (name = "unique_violation") && bool_decide (c ∈ start_constraints)
  | None => false
  end.

(** [startAssociation]: [fastTx] is nil for the callers that pass nil.  The
    final [select] either sees the advisory lock's result or the end of the
    context; the second returns 0 and the nil error of the commit. *)
Definition startAssociation (fastTx : option tx) (slowTx : tx) (branchENI trunkENI : string) (idx : Z) :
  M Z :=
  clientToken ← uuid_New;
  match fastTx with
  | None => go_panic "nil pointer dereference"
  | Some fastTx =>
      id ← nextval;
      t ← now;
      r ← try (exec fastTx (λ d, set_branch_eni_attachments
                 (branch_eni_attachments d ++ [new_attachment id branchENI trunkENI idx clientToken t]) d));
      match r with
      | inl e =>
          if is_start_conflict e then throw (EWithSleep (EConcurrency e))
          else throw (EWrap "Unable to insert and scan into branch_eni_attachments" e)
      | inr _ =>
          _ ← wrap "Unable to notify of branch_eni_attachments_created" (statement fastTx);
          _ ← wrap "Unable to commit transaction" (Commit fastTx);
          done ← try fault_point;
          match done with
          | inl _ => mret 0
          | inr _ =>
              _ ← wrap "Could not acquire advisory lock" (acquireLock slowTx "branch_eni_attachments" id);
              mret id
          end
      end
  end.

Section WithEC2.
Context (ec2 : ec2_oracle).

(** ** Finishing an association *)

Definition ensureBranchENIPermissionV3 (h : tx) (trunkENIAccountID accountID eni : string) : M unit :=
  if bool_decide (accountID = trunkENIAccountID) then mret tt
  else
    permissions ← wrap "Cannot retrieve from branch ENI permissions"
      (query h (λ d, count_where (λ p, bool_decide (p = (eni, trunkENIAccountID))) (eni_permissions d)));
    if (0 <? permissions)%nat then mret tt
    else
      _ ← wrap "Cannot create network interface permission"
            (call ec2 (CreateNetworkInterfacePermission trunkENIAccountID eni));
      wrap "Cannot insert network interface permission into database"
        (exec h (λ d, if existsb (λ p, bool_decide (p = (eni, trunkENIAccountID))) (eni_permissions d)
                      then d
                      else set_eni_permissions (eni_permissions d ++ [(eni, trunkENIAccountID)]) d)).

Record finishAssociationAWSArgs := FinishAssociationAWSArgs {
  fa_branchENIAccountID : string;
  fa_region : string;
  fa_trunkENIAccountID : string;
  fa_branch : string;
  fa_trunk : string;
  fa_idx : Z;
  fa_token : string
}.

(** [session] says whether the caller has a session of the trunk's account. *)
Definition finishAssociationAWS (slowTx : tx) (session : bool) (args : finishAssociationAWSArgs) : M string :=
  _ ← wrap "Cannot get session for branch ENI"
        (GetSessionFromAccountAndRegion ec2 (fa_branchENIAccountID args) (fa_region args));
  _ ← wrap "Cannot ensure permission to attach branch ENI"
        (ensureBranchENIPermissionV3 slowTx (fa_trunkENIAccountID args) (fa_branchENIAccountID args)
           (fa_branch args));
  _ ← (if session then mret tt
       else wrap "Could not get session"
              (GetSessionFromAccountAndRegion ec2 (fa_trunkENIAccountID args) (fa_region args)));
  r ← try (session_AssociateTrunkInterface ec2 (fa_trunk args) (fa_branch args) (fa_token args)
             (fa_idx args));
  match r with
  | inl e => throw (HandleEC2Error e)
  | inr assoc => mret assoc
  end.

(** [defer fastTx.Rollback()] is registered before the error of
    [beginSerializableTx] is looked at, and runs on a nil transaction then. *)
Definition beginOrPanic : M tx :=
  b ← try beginSerializableTx;
  match b with
  | inl _ => go_panic "nil pointer dereference"
  | inr fastTx => mret fastTx
  end.

(** The loop [insertFailure] of [finishAssociation]. *)
Definition finishAssociationPersistentError (id : Z) (state : attachment_state) (err : error) : M unit :=
  let '(ecode, msg) :=
    match RetrieveEC2Error err with
    | Some a => (aws_Code a, aws_Message a)
    | None => ("Unknown", Error err)
    end in
  t ← now;
  retrying
    (with_tx beginOrPanic (λ fastTx,
       or_retry (exec_at fastTx (update_attachments (is_id_in id state) (mark_failed t ecode msg))
                   (attachments_affected (is_id_in id state)))
         (EWrap "Unable to update branch_eni_attachments table to mark action as failed") (λ n,
       if negb (n =? 1)%nat
       then throw (ERetryable (EString "Unexpected number of database rows set to failed"))
       else
       or_retry (Commit fastTx)
         (EWrap "Unable to commit update to branch_eni_attachments table to mark action as failed") (λ _,
       mret (Some tt))))).

Definition finishAssociationInDB (assoc : string) (id : Z) (state : attachment_state) : M unit :=
  t ← now;
  retrying
    (with_tx (wrap "Unable to start serialized transaction" beginSerializableTx) (λ fastTx,
       or_retry (statement fastTx) (EWrap "Unable to notify of branch_eni_attachments_finished") (λ _,
       or_retry (exec_at fastTx (update_attachments (is_id_in id state) (mark_attached t assoc))
                   (attachments_affected (is_id_in id state)))
         (EWrap "Cannot update branch_eni_actions table to mark state as attached") (λ n,
       if negb (n =? 1)%nat
       then throw (ERetryable (EString "Unexpected number of database rows set to attached"))
       else
       or_retry (Commit fastTx) (EWrap "Unable to commit change to branch_eni_attachments") (λ _,
       mret (Some tt)))))).

Definition finishAssociation (slowTx : tx) (session : bool) (id : Z) : M string :=
  _ ← wrap "Failed to acquire lock" (acquireLock slowTx "branch_eni_attachments" id);
  r ← try (x ← queryRow slowTx (λ d, head (attachment_trunk_branch id d));
           token ← scan (at_association_token x.1.1);
           mret (x, token));
  match r with
  | inl ENoRows => throw (EIrrecoverable (EString "Work item not found"))
  | inl e => throw (EWrap "Cannot scan attachment" e)
  | inr (a, t, b, token) =>
      match at_state a with
      | attached =>
          match at_association_id a with
          | Some assoc => mret assoc
          | None => throw (EString "State is completed, but associationID is null")
          end
      | failed =>
          match at_error_code a, at_error_message a with
          | None, _ => throw (EString "state of association failed, but errorCode is null")
          | _, None => throw (EString "state of association failed, but errorMessage is null")
          | Some c, Some m => throw (EString ("Request failed with code: " +:+ c +:+ ", message: " +:+ m))
          end
      | unattaching | unattached => throw (EString "cannot make progress in finishAssocation")
      | attaching =>
          r ← try (finishAssociationAWS slowTx session
                     (FinishAssociationAWSArgs (be_account_id b) (te_region t) (te_account_id t)
                        (be_branch_eni b) (at_trunk_eni a) (at_idx a) token));
          match r with
          | inl e =>
              if IsRetryable e
              then throw (EWrap "Could not associate interface to AWS, temporary error" e)
              else if IsPersistentError e then
                let err := EWrap "Could not associate interface to AWS, unknown error" e in
                _ ← finishAssociationPersistentError id attaching err;
                throw err
              else throw (EWrap "Unexpected error trying to create association" e)
          | inr assoc =>
              _ ← wrap "Could not store finished association in the database"
                    (finishAssociationInDB assoc id attaching);
              mret assoc
          end
      end
  end.

(** [associateNetworkInterface] passes a nil [fastTx]. *)
Definition associateNetworkInterface (h : tx) (session : bool) (assoc : association) (idx : Z) : M string :=
  id ← retrying (or_retry (startAssociation None h (as_branchENI assoc) (as_trunkENI assoc) idx)
                   (EWrap "Unable to start association") (λ id, mret (Some id)));
  _ ← fault_point;
  wrap "Unable to finish association" (finishAssociation h session id).

(** ** Disassociation *)

Definition hasAssignments (h : tx) (associationID : string) : M unit :=
  l ← wrap "error querying assignments to check if assignments exists"
        (query h (λ d, as_assignment_id <$> where_ (λ r, bool_decide (as_association r = associationID))
                                              (assignments d)));
  if (0 <? length l)%nat then throw (EString "assignments still assigned to table") else mret tt.

(** What [startDissociation] does from its label [retry] on, up to the advisory
    lock: the work item and, if its lock is to be taken, what becomes of an
    error of that. *)
Definition startDissociationTx (associationID : string) (force : bool) :
  M (option (Z * option (error → error))) :=
  with_tx (wrap "Could not start database transaction" beginSerializableTx) (λ fastTx,
    or_retry (queryRow fastTx (λ d, head (where_ (has_association associationID) (branch_eni_attachments d))))
      (EWrap "Could not query branch_eni_actions_disassociate for existing requests to disassociate") (λ a,
    let id := at_id a in
    match at_state a with
    | unattaching =>
        or_retry (Commit fastTx) (EWrap "Could not commit transaction") (λ _, mret (Some (id, Some (λ e, e))))
    | unattached =>
        or_retry (Commit fastTx) (EWrap "Could not commit transaction") (λ _, mret (Some (id, None)))
    | _ =>
        or_retry (if force then mret tt else hasAssignments fastTx associationID)
          (EWrap "Unable to determine if association has assignments") (λ _,
        clientToken ← uuid_New;
        _ ← wrap "Cannot update branch eni attachments to set status to unattaching"
              (exec_at fastTx (update_attachments (has_association associationID)
                                 (mark_unattaching clientToken force)) (λ _, tt));
        or_retry (statement fastTx) (EWrap "Unable to notify of branch_eni_unattachments_created") (λ _,
        or_retry (Commit fastTx) (EWrap "Unable to commit transaction") (λ _,
        mret (Some (id, Some (EWrap "Unable to acquire lock in branch_eni_attachments"))))))
    end)).

Definition startDissociation (slowTx : tx) (associationID : string) (force : bool) : M Z :=
  r ← retrying (startDissociationTx associationID force);
  match r with
  | (id, None) => mret id
  | (id, Some fail) =>
      l ← try (acquireLock slowTx "branch_eni_attachments" id);
      match l with inl e => throw (fail e) | inr _ => mret id end
  end.

Definition finishDisassociationDoUpdate (id : Z) : M unit :=
  retrying
    (with_tx (wrap "Cannot start serializable transaction to update state to unattached"
                beginSerializableTx) (λ fastTx,
       or_retry (exec_at fastTx (update_attachments (is_id id) mark_unattached) (λ _, tt))
         (EWrap "Cannot update branch_eni_actions_disassociate table to mark action as completed") (λ _,
       or_retry (statement fastTx) (EWrap "Unable to notify of branch_eni_unattachments_finished") (λ _,
       or_retry (Commit fastTx)
         (EWrap "Cannot commit serializable transaction to update state to unattached") (λ _,
       mret (Some tt)))))).

(** The check of [finishDisassociation] for assignments, when it is not
    forced.  Any error of [hasAssignments] counts as "has assignments". *)
Definition finishDisassociationCheck (slowTx : tx) (id : Z) (associationID : string) : M unit :=
  retrying
    (with_tx (wrap "Cannot start serializable transaction" beginSerializableTx) (λ fastTx,
       r ← try (hasAssignments fastTx associationID);
       match r with
       | inr _ => mret (Some tt)
       | inl err =>
           or_retry (exec_at slowTx (update_attachments (is_id id)
                                       (mark_still_attached "hasAssignments" (Error err))) (λ _, tt))
             (EWrap "Unable to update branch_eni_actions_disassociate table to mark action as failed") (λ _,
           or_retry (Commit fastTx)
             (EWrap "Unable to commit to branch_eni_actions_disassociate table to mark action as failed") (λ _,
           throw (EIrrecoverable err)))
       end)).

(** The calls to EC2 of [finishDisassociation]: an association EC2 does not know
    counts as removed. *)
Definition finishDisassociationAWS (session : bool) (accountID region associationID token : string) : M unit :=
  _ ← (if session then mret tt
       else wrap "Could not get session" (GetSessionFromAccountAndRegion ec2 accountID region));
  r ← try (session_DisassociateTrunkInterface ec2 associationID token);
  match r with
  | inr _ => mret tt
  | inl e =>
      match RetrieveEC2Error e with
      | None => throw (EWrap "Unable to disassociate network interface due to non-AWS issues" e)
      | Some awsErr =>
          if IsRetryable e then throw (HandleEC2Error e)
          else if bool_decide (aws_Code awsErr = InvalidAssociationIDNotFound) then mret tt
          else throw (HandleEC2Error e)
      end
  end.

(** [finishDisassociation] once it has read the work item. *)
Definition finishDisassociationItem (slowTx : tx) (session : bool) (id : Z) (a : attachment)
    (t : trunk_eni_row) (token associationID : string) : M unit :=
  _ ← fault_point;
  match at_state a with
  | unattached => mret tt
  | unattaching =>
      _ ← (if bool_decide (at_force a = Some true) then mret tt
           else finishDisassociationCheck slowTx id associationID);
      _ ← finishDisassociationAWS session (te_account_id t) (te_region t) associationID token;
      _ ← try (finishDisassociationDoUpdate id);
      mret tt
  | _ => throw (EString "branch ENI disassociation in unknown state")
  end.

Definition finishDisassociation (slowTx : tx) (session : bool) (id : Z) : M unit :=
  _ ← fault_point;
  _ ← wrap "Unable to acquire lock on branch_eni_attachments table"
        (acquireLock slowTx "branch_eni_attachments" id);
  r ← try (x ← queryRow slowTx (λ d, head (attachment_trunk id d));
           token ← scan (at_disassociation_token x.1);
           associationID ← scan (at_association_id x.1);
           mret (x, token, associationID));
  match r with
  | inl ENoRows => mret tt
  | inl e => throw (EWrap "Cannot scan association action" e)
  | inr (a, t, token, associationID) => finishDisassociationItem slowTx session id a t token associationID
  end.

Definition disassociateNetworkInterface (h : tx) (session : bool) (associationID : string) (force : bool) :
  M unit :=
  id ← wrap "Unable to start disassociation" (startDissociation h associationID force);
  _ ← fault_point;
  wrap "Unable to finish disassociation" (finishDisassociation h session id).

Definition errAllENIsInUse : error := EString "All ENIs in use, cannot deallocate any ENIs".

Definition eni_last_used (d : db) (eni : string) : Z :=
  match List.find (λ r, bool_decide (r.1 = eni)) (branch_eni_last_used d) with
  | Some (_, t) => t
  | None => 0
  end.

(** [association_id NOT IN (SELECT branch_eni_association FROM assignments)] *)
Definition not_assigned (d : db) (a : attachment) : bool :=
  match at_association_id a with
  | Some assoc => negb (existsb (λ r, bool_decide (as_association r = assoc)) (assignments d))
  | None => match assignments d with [] => true | _ => false end
  end.

Definition detach_candidates (trunkENI : string) (d : db) : list attachment :=
  order_by_limit_1 (λ a, eni_last_used d (at_branch_eni a))
    (where_ (λ a, bool_decide (at_trunk_eni a = trunkENI) && not_assigned d a
                  && bool_decide (at_state a = attached)) (branch_eni_attachments d)).

Definition detachBranchENI (h : tx) (session : bool) (trunkENI : string) : M (Z * string * string) :=
  r ← try (a ← queryRowAny h (detach_candidates trunkENI);
           assoc ← scan (at_association_id a);
           mret (at_idx a, at_branch_eni a, assoc));
  match r with
  | inl ENoRows => throw errAllENIsInUse
  | inl e => throw (EWrap "Cannot get unused branch ENI to detach" e)
  | inr (idx, branchENI, associationID) =>
      _ ← wrap "Cannot disassociate network interface"
            (disassociateNetworkInterface h session associationID false);
      mret (idx, branchENI, associationID)
  end.

Definition createBranchENI (h : tx) (subnetID : string) (securityGroups : list string) : M network_interface :=
  r ← try (session_CreateNetworkInterface ec2 subnetID securityGroups);
  match r with
  | inl e => throw (HandleEC2Error (EWrap "Cannot create branch network interface" e))
  | inr iface =>
      _ ← wrap "Cannot insert branch ENI into database" (insertBranchENIIntoDB h iface);
      mret iface
  end.

(** ** Action workers *)

(** The calls a worker makes on its work queue
    ([k8s.io/client-go/util/workqueue]). *)
Inductive wq_op : Type :=
| wq_Add (item : string)
| wq_AddRateLimited (item : string)
| wq_Forget (item : string)
| wq_Done (item : string).

Record actionWorker := ActionWorker {
  aw_cb : tx → Z → M unit;
  creationChannel : string;
  finishedChanel : string;
  aw_name : string;
  aw_table : string;
  pendingState : attachment_state
}.

Definition associateActionWorker : actionWorker := {|
  aw_cb := λ h id, _ ← finishAssociation h false id; mret tt;
  creationChannel := "branch_eni_attachments_created";
  finishedChanel := "branch_eni_attachments_finished";
  aw_name := "associateWorker2";
  aw_table := "branch_eni_attachments";
  pendingState := attaching
|}.

Definition disassociateActionWorker : actionWorker := {|
  aw_cb := λ h id, finishDisassociation h false id;
  creationChannel := "branch_eni_unattachments_created";
  finishedChanel := "branch_eni_unattachments_finished";
  aw_name := "disassociateWorker2";
  aw_table := "branch_eni_attachments";
  pendingState := unattaching
|}.

(** [doWorkItem] of [worker]: the error it returns, and what it did to the
    queue; [defer wq.Done(item)] comes last on every path. *)
Definition doWorkItem (aw : actionWorker) (item : string) : M (option error * list wq_op) :=
  let finish (e : option error) (ops : list wq_op) := mret (e, (ops ++ [wq_Done item])%list) in
  match Atoi item with
  | None => finish (Some (EWrap "Unable to parse key into id" (EString "strconv.Atoi: invalid syntax"))) []
  | Some id =>
      b ← try BeginTx;
      match b with
      | inl e => finish (Some (EWrap "Could not start database transaction" e)) []
      | inr h =>
          with_tx (mret h) (λ h,
            r ← try (_ ← statement h;
                     _ ← acquireLock h (aw_table aw) id;
                     statement h);
            match r with
            | inl _ => finish None []
            | inr _ =>
                r ← try (aw_cb aw h id);
                let again := match r with
                               | inl err => negb (IsPersistentError err) && negb (isIrrecoverableError err)
                               | inr _ => false
                               end in
                if again then finish None [wq_AddRateLimited item]
                else
                  c ← try (Commit h);
                  match c with
                  | inl _ => finish None [wq_AddRateLimited item]
                  | inr _ => finish None [wq_Forget item]
                  end
            end)
      end
  end.

(** [worker] over the items the queue hands out until it is shut down. *)
Fixpoint worker (aw : actionWorker) (items : list string) : M (option error * list wq_op) :=
  match items with
  | [] => mret (None, [])
  | item :: rest =>
      c ← try fault_point;
      match c with
      | inl e => mret (Some e, [])
      | inr _ =>
          r ← doWorkItem aw item;
          match r with
          | (Some e, ops) => mret (Some e, ops)
          | (None, ops) =>
              r' ← worker aw rest;
              mret (r'.1, (ops ++ r'.2)%list)
          end
      end
  end.

Definition retrieveAllWorkItems (aw : actionWorker) : M (list wq_op) :=
  with_tx (wrap "Could not start database transaction" BeginTx) (λ h,
    ids ← wrap "Could not query table for pending work items"
            (query h (λ d, at_id <$> where_ (λ a, bool_decide (at_state a = pendingState aw))
                                       (branch_eni_attachments d)));
    _ ← wrap "Could not commit transaction" (Commit h);
    mret (wq_Add ∘ Itoa <$> ids)).

(** What the [select] of [loop] can receive. *)
Inductive loop_event : Type :=
| ev_ctx_done (e : error)
| ev_worker_exit (e : option error)
| ev_ping_timer
| ev_ping_result (e : option error)
| ev_notify (n : option (string * string))
| ev_connected
| ev_disconnected
| ev_reconnected
| ev_connection_attempt_failed.

(** One turn of [loop]: [inl] is what it returns, [inr] the queue operations
    after which it goes on, with [readyCh] closed or not. *)
Definition loop_turn (aw : actionWorker) (ready : bool) (ev : loop_event) :
  M (option error + bool * list wq_op) :=
  match ev with
  | ev_ctx_done e => mret (inl (Some e))
  | ev_worker_exit e => mret (inl e)
  | ev_notify None =>
      r ← try (retrieveAllWorkItems aw);
      match r with
      | inl e => mret (inl (Some (EWrap "Could not retrieve all work items after reconnecting to postgres" e)))
      | inr ops => mret (inr (ready, ops))
      end
  | ev_notify (Some (channel, extra)) =>
      if bool_decide (channel = creationChannel aw) then mret (inr (ready, [wq_Add extra]))
      else if bool_decide (channel = finishedChanel aw) then mret (inr (ready, [wq_Forget extra]))
      else mret (inr (ready, []))
  | ev_connected =>
      r ← try (retrieveAllWorkItems aw);
      match r with
      | inl e => mret (inl (Some (EWrap "Could not retrieve all work items" e)))
      | inr ops => if ready then go_panic "close of closed channel" else mret (inr (true, ops))
      end
  | ev_ping_timer | ev_ping_result _ | ev_disconnected | ev_reconnected | ev_connection_attempt_failed =>
      mret (inr (ready, []))
  end.
End WithEC2.

(** ** The life of an attachment

    The specification the handlers implement: a row starts as [attaching] and
    moves by these steps.  [att_step] is what the comment "Valid state
    transitions" of [branch_enis.go] says, and the step back to [attached] of a
    disassociation that is given up (which a retried statement can record
    again). *)

Definition initial (a : attachment) : Prop :=
  at_state a = attaching ∧ at_association_id a = None ∧ is_Some (at_association_token a).

Inductive att_step : relation attachment :=
| step_failed a t c m : at_state a = attaching → att_step a (mark_failed t c m a)
| step_attached a t assoc : at_state a = attaching → att_step a (mark_attached t assoc a)
| step_unattaching a token force : at_state a = attached → att_step a (mark_unattaching token force a)
| step_give_up a c m : at_state a = unattaching ∨ at_state a = attached →
    att_step a (mark_still_attached c m a)
| step_unattached a : at_state a = unattaching → att_step a (mark_unattached a).

Definition reachable (a : attachment) : Prop := ∃ a0, initial a0 ∧ rtc att_step a0 a.

(** What every reachable row satisfies. *)
Definition att_wf (a : attachment) : Prop :=
  is_Some (at_association_token a) ∧
  match at_state a with
  | attaching => at_association_id a = None
  | failed => at_association_id a = None ∧ is_Some (at_error_code a) ∧ is_Some (at_error_message a)
  | attached => is_Some (at_association_id a)
  | unattaching | unattached =>
      is_Some (at_association_id a) ∧ is_Some (at_disassociation_token a) ∧ is_Some (at_force a)
  end.

Definition attachments_wf (d : db) : Prop := Forall att_wf (branch_eni_attachments d).

(** How the table may evolve: rows keep their place and move by steps, new rows
    come after them. *)
Definition attachments_evolve : relation db := λ d d',
  ∃ l1 l2, branch_eni_attachments d' = l1 ++ l2 ∧
           Forall2 (rtc att_step) (branch_eni_attachments d) l1 ∧ Forall reachable l2.

Lemma att_step_wf a a' : att_step a a' → att_wf a → att_wf a'.
Proof.
  unfold att_wf. destruct 1 as [? ? ? ? E|? ? ? E|? ? ? E|? ? ? [E|E]|? E]; simpl; rewrite E;
    intros (Ht & ?); (split; [exact Ht|]); naive_solver.
Qed.

Lemma rtc_att_step_wf a a' : rtc att_step a a' → att_wf a → att_wf a'.
Proof. induction 1; eauto using att_step_wf. Qed.

Lemma reachable_wf a : reachable a → att_wf a.
Proof.
  intros (a0 & (H1 & H2 & H3) & Hs). apply (rtc_att_step_wf _ _ Hs). unfold att_wf. by rewrite H1.
Qed.

#[export] Instance attachments_evolve_preorder : PreOrder attachments_evolve.
Proof.
  split.
  - intros d. exists (branch_eni_attachments d), []. rewrite app_nil_r. split; [done|].
    split; [|constructor]. apply Forall_Forall2_diag, Forall_true. done.
  - intros d1 d2 d3 (l1 & l2 & E & H1 & H2) (k1 & k2 & E' & K1 & K2).
    rewrite E in K1. apply Forall2_app_inv_l in K1 as (m1 & m2 & K1 & K1' & ->).
    exists m1, (m2 ++ k2). rewrite E', app_assoc. split; [done|]. split.
    + by etrans.
    + apply Forall_app. split; [|done]. clear -H2 K1'.
      induction K1' as [|a b l l' Hab _ IH]; inversion H2 as [|? ? (a0 & Ha0 & Hs)]; constructor; auto.
      exists a0. split; [done|]. by etrans.
Qed.

#[export] Instance attachments_invariant : Invariant attachments_evolve attachments_wf.
Proof.
  split; [apply _|]. intros d d' Hd (l1 & l2 & E & H1 & H2). unfold attachments_wf in *. rewrite E.
  apply Forall_app. split; [|by eapply Forall_impl; [|apply reachable_wf]].
  clear E H2. induction H1; inversion Hd; constructor; eauto using rtc_att_step_wf.
Qed.

(** *** Statements follow the specification *)

Lemma evolve_frame d d' :
  branch_eni_attachments d' = branch_eni_attachments d → attachments_evolve d d'.
Proof. intros E. destruct (reflexivity d : attachments_evolve d d) as (l1 & l2 & H). exists l1, l2. by rewrite E. Qed.

Lemma update_attachments_evolve p f d0 d :
  (∀ a, a ∈ branch_eni_attachments d0 → p a = true → rtc att_step a (f a)) →
  attachments_evolve d (update_attachments p f d0 d).
Proof.
  intros H. eexists _, []. rewrite app_nil_r. split; [done|]. split; [|constructor].
  simpl. unfold update_where. apply Forall2_fmap_r, Forall_Forall2_diag, Forall_forall.
  intros a _. simpl. destruct (p a) eqn:E; simpl; [|done].
  case_bool_decide; [by apply H | done].
Qed.

Lemma insert_attachment_evolve id branch trunk idx token t d :
  attachments_evolve d
    (set_branch_eni_attachments (branch_eni_attachments d ++ [new_attachment id branch trunk idx token t]) d).
Proof.
  eexists _, _. split; [done|]. split.
  - apply Forall_Forall2_diag, Forall_true. done.
  - constructor; [|constructor]. eexists. split; [|done]. by split_and!; eexists.
Qed.

Lemma is_id_in_true id s a : is_id_in id s a = true → at_id a = id ∧ at_state a = s.
Proof. unfold is_id_in. rewrite andb_true_iff, bool_decide_eq_true, Z.eqb_eq. done. Qed.

Lemma step_once a a' : att_step a a' → rtc att_step a a'.
Proof. apply rtc_once. Qed.

Create HintDb attachments.
#[export] Hint Constructors att_step : attachments.
#[export] Hint Resolve step_once evolve_frame insert_attachment_evolve : attachments.

Abbreviation keeps_machine m := (preserves attachments_evolve attachments_wf m).
Abbreviation machine_sane w := (sane attachments_evolve attachments_wf w).
Abbreviation machine_evolves w w' := (evolves attachments_evolve attachments_wf w w').

Section Follows.
Context (ec2 : ec2_oracle).

Lemma acquireLock_serial R I `{!Invariant R I} h table id : serial R I (acquireLock h table id).
Proof. unfold acquireLock. preserves_walk. Qed.
Hint Resolve acquireLock_serial : preserves.

Lemma startAssociation_follows fastTx slowTx branch trunk idx :
  keeps_machine (startAssociation fastTx slowTx branch trunk idx).
Proof. unfold startAssociation. preserves_walk; auto with attachments. Qed.

Lemma ensureBranchENIPermissionV3_follows h acc acc' eni :
  keeps_machine (ensureBranchENIPermissionV3 ec2 h acc acc' eni).
Proof.
  unfold ensureBranchENIPermissionV3. preserves_walk. apply evolve_frame. by destruct (existsb _ _).
Qed.

Lemma finishAssociationAWS_follows slowTx session args :
  keeps_machine (finishAssociationAWS ec2 slowTx session args).
Proof.
  unfold finishAssociationAWS, GetSessionFromAccountAndRegion, session_AssociateTrunkInterface.
  preserves_walk. apply ensureBranchENIPermissionV3_follows.
Qed.

Lemma finishAssociationPersistentError_follows id err :
  keeps_machine (finishAssociationPersistentError id attaching err).
Proof.
  unfold finishAssociationPersistentError, beginOrPanic. preserves_walk;
    apply update_attachments_evolve; intros b _ [_ ?]%is_id_in_true; auto with attachments.
Qed.

Lemma finishAssociationInDB_follows assoc id :
  keeps_machine (finishAssociationInDB assoc id attaching).
Proof.
  unfold finishAssociationInDB. preserves_walk;
    apply update_attachments_evolve; intros b _ [_ ?]%is_id_in_true; auto with attachments.
Qed.

Hint Resolve finishAssociationPersistentError_follows finishAssociationInDB_follows
  finishAssociationAWS_follows : preserves.

Lemma finishAssociation_follows slowTx session id :
  keeps_machine (finishAssociation ec2 slowTx session id).
Proof. unfold finishAssociation. preserves_walk. Qed.

Lemma hasAssignments_serial R I `{!Invariant R I} h assoc : serial R I (hasAssignments h assoc).
Proof. unfold hasAssignments. preserves_walk. Qed.
Hint Resolve hasAssignments_serial : preserves.

Lemma wp_hasAssignments h assoc g Q w :
  w_txs w !! h = Some (Some g) →
  (∀ fs, (length fs ≤ length (w_faults w))%nat →
     (∀ r, r ∈ assignments (g (w_db w)) → as_association r ≠ assoc) →
     Q (Ok tt) (set_faults fs w)) →
  (∀ e fs r, (length fs ≤ length (w_faults w))%nat → r ∈ assignments (g (w_db w)) →
     as_association r = assoc → isSerializationFailure e = false → Q (Fail e) (set_faults fs w)) →
  (∀ e fs, (length fs < length (w_faults w))%nat → Q (Fail e) (abort h (set_faults fs w))) →
  wp (hasAssignments h assoc) Q w.
Proof.
  intros Hh HOk HHas HFail. unfold hasAssignments. apply wp_bind, wp_wrap.
  eapply wp_query; [done| |by auto]. intros fs Hfs. rewrite length_fmap.
  destruct (where_ _ _) as [|r l] eqn:E; simpl.
  - apply wp_ret, HOk; [done|]. intros r Hr Ha.
    assert (r ∈ @nil assignment_row) as Hin by (rewrite <- E; apply elem_of_where; by rewrite bool_decide_eq_true).
    inversion Hin.
  - assert (r ∈ where_ (λ r, bool_decide (as_association r = assoc)) (assignments (g (w_db w)))) as Hin
      by (rewrite E; by left).
    apply elem_of_where in Hin as [Hin Ha]. apply bool_decide_eq_true in Ha.
    by eapply wp_throw, HHas.
Qed.

Lemma stmt_hasAssignments R I `{!Invariant R I} h d g assoc :
  stmt R I h d g (hasAssignments h assoc)
    (λ _ g', g' = g ∧ ∀ r, r ∈ assignments (g d) → as_association r ≠ assoc).
Proof.
  intros w0 w Hw. pose proof (it_db _ _ _ _ _ _ _ Hw) as Hd.
  eapply wp_hasAssignments; [apply Hw|..]; rewrite ?Hd; intros.
  - eauto using in_tx_faults.
  - split; [|congruence]. eauto using in_tx_undone, in_tx_faults.
  - edestruct (in_tx_abort R I); eauto.
Qed.

(** The check that is skipped for a forced disassociation. *)
Lemma stmt_check R I `{!Invariant R I} h d g assoc (force : bool) :
  stmt R I h d g (if force then mret tt else hasAssignments h assoc)
    (λ _ g', g' = g ∧ (force = false → ∀ r, r ∈ assignments (g d) → as_association r ≠ assoc)).
Proof.
  intros w0 w Hw. destruct force; [apply wp_ret; eauto|].
  eapply wp_mono; [by apply (stmt_hasAssignments R I)|]. intros [] ?; naive_solver.
Qed.
Hint Resolve stmt_hasAssignments : stmt.
Hint Extern 5 (stmt _ _ _ _ _ _ _) => apply (stmt_check _ _) : stmt.

Lemma association_unique d assoc a b :
  schema_ok d → a ∈ branch_eni_attachments d → b ∈ branch_eni_attachments d →
  has_association assoc a = true → has_association assoc b = true → a = b.
Proof.
  intros Hs Ha Hb Ea Eb. constraint_of Hs "branch_eni_attachments_association_id_uindex" C.
  constraint_of Hs "branch_eni_attachments_pk" C0.
  unfold has_association, oeqb in *. apply bool_decide_eq_true in Ea, Eb.
  by eapply (unique_nullable_key at_id at_association_id).
Qed.

(** With the association's row in a state other than [unattaching] and
    [unattached], the update of [startDissociation] is a step. *)
Lemma mark_unattaching_evolve d0 a assoc token force d :
  schema_ok d0 → attachments_wf d0 →
  head (where_ (has_association assoc) (branch_eni_attachments d0)) = Some a →
  at_state a ≠ unattaching → at_state a ≠ unattached →
  attachments_evolve d (update_attachments (has_association assoc) (mark_unattaching token force) d0 d).
Proof.
  intros Hs Hwf [Ha Ea]%head_where H1 H2. apply update_attachments_evolve. intros b Hb Eb.
  rewrite (association_unique d0 assoc b a) by done. apply step_once, step_unattaching.
  unfold attachments_wf in Hwf. rewrite Forall_forall in Hwf. destruct (Hwf a Ha) as [_ Hst].
  unfold has_association, oeqb in Ea. apply bool_decide_eq_true in Ea.
  destruct (at_state a); naive_solver.
Qed.
(** What the transaction of [startDissociation] commits, in each state. *)
Definition unattaching_committed (assoc : string) (force : bool) (a : attachment) (d d' : db) : Prop :=
  match at_state a with
  | unattaching | unattached => d' = d
  | _ => (force = false → ∀ r, r ∈ assignments d → as_association r ≠ assoc) ∧
         ∃ token, d' = update_attachments (has_association assoc) (mark_unattaching token force) d d
  end.

Lemma startDissociationTx_ok assoc force w :
  machine_sane w →
  wp (retrying (startDissociationTx assoc force))
    (λ r w', machine_evolves w w' ∧ w_txs w' = w_txs w ∧
       match r with
       | Ok (id, _) =>
           ∃ a, head (where_ (has_association assoc) (branch_eni_attachments (w_db w))) = Some a ∧
                at_id a = id ∧ unattaching_committed assoc force a (w_db w) (w_db w')
       | Fail _ => w_db w' = w_db w
       | Panic _ => False
       end) w.
Proof.
  intros Hw. apply (wp_retry_tx attachments_evolve attachments_wf); [done| by intros ???|].
  intros w0 h w1 Hev Hs Hd Ht -> Hf Hin. tx_step. destruct K as [Ha ->]. simpl.
  assert (at_state a ≠ unattaching → at_state a ≠ unattached → ∀ token d',
    attachments_evolve d' (update_attachments (has_association assoc) (mark_unattaching token force) (w_db w) d'))
    as Hstep by (intros; by eapply mark_unattaching_evolve; [apply Hw | apply Hw | ..]).
  destruct (at_state a) eqn:Est;
    try (eapply (tx_commit _ _); [eassumption..|]; intros w' _ Hev' Hd' Ht'; split; [by eapply (evolves_trans _ _)|];
         split; [by rewrite Ht'|]; exists a; unfold unattaching_committed; by rewrite Est).
  all: tx_step; destruct K as [-> Hno]; tx_step; destruct_and? K; subst.
  all: eapply (tx_bind _ _ _ _ _ id); [apply stmt_wrap, (stmt_exec_at _ _); by apply Hstep|done|done|].
  all: intros _ g w5 (_ & -> & Hsch) Hin3; tx_step; destruct_and? K; subst.
  all: eapply (tx_commit _ _); [eassumption..|]; intros w' _ Hev' Hd' Ht'; split; [by eapply (evolves_trans _ _)|];
         split; [by rewrite Ht'|]; exists a; unfold unattaching_committed; rewrite Est; split_and!; [done..|eexists; exact Hd'].
Qed.
(** The rows of work item [id] are being unattached. *)
Definition unattaching_item (id : Z) (d : db) : Prop :=
  ∀ a, a ∈ branch_eni_attachments d → at_id a = id → at_state a = unattaching.

Lemma is_id_true id a : is_id id a = true ↔ at_id a = id.
Proof. apply Z.eqb_eq. Qed.

Lemma finishDisassociationDoUpdate_ok id w :
  machine_sane w → unattaching_item id (w_db w) →
  wp (finishDisassociationDoUpdate id)
    (λ r w', machine_evolves w w' ∧ w_txs w' = w_txs w ∧
       match r with
       | Ok _ => w_db w' = update_attachments (is_id id) mark_unattached (w_db w) (w_db w)
       | Fail _ => w_db w' = w_db w
       | Panic _ => False
       end) w.
Proof.
  intros Hw Hid. apply (wp_retry_tx attachments_evolve attachments_wf); [done| by intros ???|].
  intros w0 h w1 Hev Hs Hd Ht -> Hf Hin.
  eapply (tx_or_retry _ _ _ _ _ Datatypes.id); [|done|done|].
  { apply (stmt_exec_at _ _). intros d'. apply update_attachments_evolve.
    intros a Ha Ea%is_id_true. apply step_once, step_unattached. by apply Hid. }
  intros _ g w2 (_ & -> & _) Hin2. tx_step. destruct_and? K; subst.
  eapply (tx_commit _ _); [eassumption..|]. intros w' _ Hev' Hd' Ht'.
  split; [by eapply (evolves_trans _ _)|]. split; [by rewrite Ht' | exact Hd'].
Qed.

(** What [slowTx] may hold of the work item while [finishDisassociation] runs. *)
Definition given_up_item (slowTx : tx) (id : Z) (w : world) : Prop :=
  ∀ g, w_txs w !! slowTx = Some (Some g) →
  ∀ a, a ∈ branch_eni_attachments (g (w_db w)) → at_id a = id → at_state a = unattaching ∨ at_state a = attached.

Lemma give_up_evolve slowTx id c m w g d :
  given_up_item slowTx id w → w_txs w !! slowTx = Some (Some g) →
  attachments_evolve d (update_attachments (is_id id) (mark_still_attached c m) (g (w_db w)) d).
Proof.
  intros Hg Ht. apply update_attachments_evolve. intros a Ha Ea%is_id_true.
  apply step_once, step_give_up. by eapply Hg.
Qed.

Lemma given_up_again slowTx id c m w w' g :
  w_db w' = w_db w → given_up_item slowTx id w → w_txs w !! slowTx = Some (Some g) →
  w_txs w' !! slowTx =
    Some (Some (λ d, update_attachments (is_id id) (mark_still_attached c m) (g (w_db w)) (g d))) →
  given_up_item slowTx id w'.
Proof.
  intros Hd Hg Ht Ht' g' Hg' a Ha Ea. rewrite Ht' in Hg'. simplify_eq. rewrite Hd in Ha. simpl in Ha.
  apply elem_of_update_where in Ha as [[Ha _]|(b & Hb & _ & ->)]; [by eapply Hg | by right].
Qed.

Definition has_assignments (assoc : string) (d : db) : Prop :=
  ∃ r, r ∈ assignments d ∧ as_association r = assoc.

(** The state in which [finishDisassociationCheck] jumps back. *)
Record check_again (slowTx : tx) (id : Z) (assoc : string) (w w1 : world) : Prop := CheckAgain {
  ca_evolves : machine_evolves w w1;
  ca_db : w_db w1 = w_db w;
  ca_item : given_up_item slowTx id w1;
  ca_slow : ∀ g, w_txs w1 !! slowTx = Some (Some g) →
    w_txs w !! slowTx = Some (Some g) ∨ has_assignments assoc (w_db w)
}.

(** The statements after a failed [hasAssignments]: they never return
    successfully, and only go back when there was an assignment. *)
Lemma give_up_ok slowTx fastTx id assoc err c w w0 w1 :
  check_again slowTx id assoc w w0 → machine_evolves w0 w1 → w_db w1 = w_db w →
  fastTx ≠ slowTx → given_up_item slowTx id w1 →
  (∀ g, w_txs w1 !! fastTx = Some (Some g) → g = Datatypes.id ∧ has_assignments assoc (w_db w)) →
  wp (or_retry (exec_at slowTx (update_attachments (is_id id) (mark_still_attached c (Error err))) (λ _, tt))
        (EWrap "Unable to update branch_eni_actions_disassociate table to mark action as failed") (λ _,
      or_retry (Commit fastTx)
        (EWrap "Unable to commit to branch_eni_actions_disassociate table to mark action as failed") (λ _,
      throw (EIrrecoverable err) : M (option unit))))
    (λ r w', match r with
             | Ok None => check_again slowTx id assoc w (close fastTx w') ∧
                          (length (w_faults w') < length (w_faults w0))%nat
             | Ok (Some _) => False
             | Fail _ => machine_evolves w w' ∧ w_db w' = w_db w
             | Panic _ => False
             end) w1.
Proof.
  intros Hca Hev Hd Hne Hg Hfast. apply wp_or_retry.
  eapply wp_mono; [apply (wp_exec_at_sane attachments_evolve attachments_wf); [apply Hev|intros g Hgt d; by eapply give_up_evolve]|].
  intros [[]|e|s] w2 (Hev2 & Hd2 & Ho & H); [| |done]; cycle 1.
  { destruct H as [H Hna]. split; intros He; [split|].
    - split; [|simpl; congruence|..].
      + eapply (evolves_trans _ _); [apply Hca|]. by eapply (evolves_close _ _), (evolves_trans _ _).
      + intros g Hl. simpl in Hl. rewrite lookup_delete_ne in Hl by done. naive_solver.
      + intros g Hl. simpl in Hl. rewrite lookup_delete_ne in Hl by done. naive_solver.
    - specialize (H He). destruct Hev. lia.
    - split; [|congruence]. eapply (evolves_trans _ _); [apply Hca|]. by eapply (evolves_trans _ _). }
  destruct H as (g & Hg1 & Hg2). apply wp_or_retry.
  assert (given_up_item slowTx id w2) as Hgi by by eapply given_up_again.
  assert (machine_evolves w w2) as Hevw.
  { eapply (evolves_trans _ _); [apply Hca|]. by eapply (evolves_trans _ _). }
  eapply wp_mono; [apply (wp_Commit_sane attachments_evolve attachments_wf), Hev2|].
  intros [[]|e|s] w3 (Hev3 & Ho3 & _ & H); [| |done].
  - destruct H as (gf & Hgf & Hd3). rewrite Ho in Hgf by done. destruct (Hfast gf Hgf) as [-> _].
    apply wp_throw. split; [by eapply (evolves_trans _ _) | simpl in Hd3; congruence].
  - destruct H as [Hd3 H]. split; intros He; [|split; [by eapply (evolves_trans _ _) | congruence]].
    destruct (H He) as [Hlt (gf & Hgf)]. rewrite Ho in Hgf by done.
    destruct (Hfast gf Hgf) as [_ Hhas]. split; [|destruct Hev, Hev2; lia].
    split; [by eapply (evolves_close _ _), (evolves_trans _ _)|simpl; congruence| |by right].
    intros g' Hl. simpl in Hl. rewrite lookup_delete_ne, Ho3 in Hl by done.
    specialize (Hgi g' Hl). simpl. by rewrite Hd3.
Qed.

Lemma finishDisassociationCheck_ok slowTx id assoc w :
  machine_sane w → (slowTx < w_next_tx w)%nat → given_up_item slowTx id w →
  wp (finishDisassociationCheck slowTx id assoc)
    (λ r w', machine_evolves w w' ∧ w_db w' = w_db w ∧
       match r with
       | Ok _ => ¬ has_assignments assoc (w_db w) ∧
                 ∀ g, w_txs w' !! slowTx = Some (Some g) → w_txs w !! slowTx = Some (Some g)
       | Fail _ => True
       | Panic _ => False
       end) w.
Proof.
  intros Hw Hlt Hg. apply (wp_retrying _ (check_again slowTx id assoc w)).
  { split; [by apply (evolves_refl _ _)|done|done|by left]. }
  intros w1 Hca. pose proof Hca as [Hev1 Hd1 Hg1 Hs1].
  apply wp_with_tx, wp_wrap, (wp_beginSerializableTx _ _ _ _ (ev_sane _ _ _ _ Hev1)); cycle 1.
  { intros e w' Hev' Hd' _. split_and!; [by eapply (evolves_trans _ _)|congruence|done]. }
  intros fs Hfs Hevb. assert (w_next_tx w1 ≠ slowTx) as Hne by (destruct Hev1; lia).
  assert (∀ fs', given_up_item slowTx id (set_faults fs' (begun fs w1))) as Hgb.
  { intros fs' g Hl. simpl in *. rewrite lookup_insert_ne in Hl by done. by apply Hg1. }
  apply wp_bind, wp_try. eapply wp_hasAssignments; [apply lookup_insert_eq|..].
  - intros fs' Hfs' Hno. apply wp_ret. split_and!.
    + eapply (evolves_trans _ _); [done|]. by apply (evolves_close _ _), (evolves_faults _ _).
    + done.
    + intros (r & Hr & Ha). apply (Hno r); [|done]. simpl. by rewrite Hd1.
    + intros g Hl. simpl in Hl. rewrite lookup_delete_ne, lookup_insert_ne in Hl by done.
      destruct (Hs1 g Hl) as [?|(r & Hr & Ha)]; [done|]. destruct (Hno r); [simpl; by rewrite Hd1|done].
  - intros e fs' r Hfs' Hr Ha Hse.
    eapply wp_mono; [eapply (give_up_ok _ _ _ _ _ _ w w1); [done| |done|done|apply Hgb|]|].
    + by apply (evolves_faults _ _).
    + simpl. rewrite lookup_insert_eq. intros g [= <-]. split; [done|]. exists r. split; [|done].
      simpl in Hr. by rewrite <- Hd1.
    + intros [[[]|]|e'|s] w'; try done. intros [H1 H2]. split_and!; [by apply (evolves_close _ _)|done..].
  - intros e fs' Hfs'.
    eapply wp_mono; [eapply (give_up_ok _ _ _ _ _ _ w w1); [done| |done|done| |]|].
    + apply (evolves_abort _ _); [|eexists; apply lookup_insert_eq]. apply (evolves_faults _ _); [done|lia].
    + intros g Hl. simpl in Hl. rewrite insert_insert_eq, lookup_insert_ne in Hl by done. by apply Hg1.
    + simpl. by rewrite lookup_insert_eq.
    + intros [[[]|]|e'|s] w'; try done. intros [H1 H2]. split_and!; [by apply (evolves_close _ _)|done..].
Qed.

(** [h] has no pending write to the table of attachments. *)
Definition quiet_tx (h : tx) (w : world) : Prop :=
  ∀ g, w_txs w !! h = Some (Some g) → ∀ d, branch_eni_attachments (g d) = branch_eni_attachments d.

(** What [finishDisassociation] commits for work item [id]: nothing, or the end
    of a disassociation that was forced or whose association is not in use. *)
Definition disassociated (id : Z) (d d' : db) : Prop :=
  d' = d ∨
  ∃ a assoc, a ∈ branch_eni_attachments d ∧ at_id a = id ∧ at_state a = unattaching ∧
    at_association_id a = Some assoc ∧ (at_force a = Some true ∨ ¬ has_assignments assoc d) ∧
    d' = update_attachments (is_id id) mark_unattached d d.

Lemma attachment_trunk_item id d a t :
  head (attachment_trunk id d) = Some (a, t) → a ∈ branch_eni_attachments d ∧ at_id a = id.
Proof.
  intros H%head_Some_elem_of. apply elem_of_join in H as ([Ha Hid]%elem_of_where & _ & _).
  by apply is_id_true in Hid.
Qed.

Lemma item_unique d a b :
  schema_ok d → a ∈ branch_eni_attachments d → b ∈ branch_eni_attachments d → at_id a = at_id b → a = b.
Proof. intros Hs. constraint_of Hs "branch_eni_attachments_pk" C. by apply unique_key. Qed.

Lemma unattaching_item_of a d :
  schema_ok d → a ∈ branch_eni_attachments d → at_state a = unattaching → unattaching_item (at_id a) d.
Proof. intros Hs Ha Hst b Hb Hid. by rewrite (item_unique d b a). Qed.

(** The calls leave the database and the transactions alone. *)
Lemma finishDisassociationAWS_calls session acc region assoc token :
  calls_only (finishDisassociationAWS ec2 session acc region assoc token).
Proof.
  unfold finishDisassociationAWS, session_DisassociateTrunkInterface, session_call,
    GetSessionFromAccountAndRegion. auto 12 with calls_only.
Qed.

Abbreviation finished w id r w' := (machine_evolves w w' ∧
   match r with
   | Ok _ => disassociated id (w_db w) (w_db w')
   | Fail _ => w_db w' = w_db w
   | Panic _ => False
   end) (only parsing).

(** The rest of [finishDisassociation] once the checks have passed. *)
Lemma finish_in_aws_ok session a assoc token acc region w0 w :
  machine_evolves w0 w → w_db w = w_db w0 → a ∈ branch_eni_attachments (w_db w0) →
  at_state a = unattaching → at_association_id a = Some assoc →
  (at_force a = Some true ∨ ¬ has_assignments assoc (w_db w0)) →
  wp (_ ← finishDisassociationAWS ec2 session acc region assoc token;
      _ ← try (finishDisassociationDoUpdate (at_id a));
      mret tt)
    (λ r w', finished w0 (at_id a) r w' ∧ w_txs w' = w_txs w) w.
Proof.
  intros Hev Hd Ha Hst Hassoc Hforce. apply wp_bind.
  eapply wp_mono; [apply finishDisassociationAWS_calls|].
  intros [[]|e|s] w1 [[cs ->] ?]; [| |done]; cycle 1.
  { split; [|done]. split; [by apply (evolves_calls _ _)|done]. }
  apply wp_bind, wp_try. eapply wp_mono; [apply finishDisassociationDoUpdate_ok; simpl|].
  { apply (ev_sane _ _ w0). by apply (evolves_calls _ _). }
  { apply unattaching_item_of; [apply Hev|by rewrite Hd|done]. }
  intros [[]|e|s] w2 (Hev2 & Ht2 & Hd2); [| |done]; apply wp_ret; simpl in *;
    (split; [split; [eapply (evolves_trans _ _); [|done]; by apply (evolves_calls _ _)|]|congruence]).
  - right. exists a, assoc. rewrite Hd in Hd2. split_and!; done.
  - left. congruence.
Qed.

Lemma finishDisassociationItem_ok h session a t token assoc w w1 :
  machine_evolves w w1 → w_db w1 = w_db w → w_txs w1 = w_txs w → quiet_tx h w → is_Some (w_txs w !! h) →
  a ∈ branch_eni_attachments (w_db w) → at_association_id a = Some assoc →
  wp (finishDisassociationItem ec2 h session (at_id a) a t token assoc)
    (λ r w', finished w (at_id a) r w' ∧ (is_ok r = true → quiet_tx h w')) w1.
Proof.
  intros Hev Hd Ht Hq [o Ho] Ha Hassoc. unfold finishDisassociationItem.
  apply wp_bind, wp_fault_point; cycle 1.
  { intros e fs Hfs. split; [|done]. split; [apply (evolves_faults _ _); [done|lia]|done]. }
  intros fs Hfs. set (w2 := set_faults fs w1).
  assert (machine_evolves w w2) as Hev2 by by apply (evolves_faults _ _).
  assert (w_db w2 = w_db w) as Hd2 by done.
  assert (quiet_tx h w2) as Hq2 by (intros g; unfold w2; simpl; rewrite Ht; apply Hq).
  destruct (at_state a) eqn:Hst; try (apply wp_throw; split; [split; [done|done]|done]).
  - assert (∀ w3, machine_evolves w w3 → w_db w3 = w_db w → quiet_tx h w3 →
      (at_force a = Some true ∨ ¬ has_assignments assoc (w_db w)) →
      wp (_ ← finishDisassociationAWS ec2 session (te_account_id t) (te_region t) assoc token;
          _ ← try (finishDisassociationDoUpdate (at_id a)); mret tt)
        (λ r w', finished w (at_id a) r w' ∧ (is_ok r = true → quiet_tx h w')) w3) as Hend.
    { intros w3 Hev3 Hd3 Hq3 Hf. eapply wp_mono; [by eapply finish_in_aws_ok|].
      intros r w' [Hfin Ht']. split; [done|]. intros _ g. rewrite Ht'. apply Hq3. }
    apply wp_bind. case_bool_decide as Hforce; [apply wp_ret, Hend; auto|].
    eapply wp_mono; [apply finishDisassociationCheck_ok|].
    + apply Hev2.
    + unfold w2. simpl. apply (sane_fresh _ _ _ (ev_sane _ _ _ _ Hev) h o). by rewrite Ht.
    + intros g Hg b Hb Hid. left. rewrite (Hq2 g Hg) in Hb.
      rewrite (item_unique (w_db w2) b a); [done|apply Hev2|done|by unfold w2; simpl; rewrite Hd|done].
    + intros [[]|e|s] w3 (Hev3 & Hd3 & H); [| |done].
      * destruct H as [Hno Hsl]. apply Hend; [by eapply (evolves_trans _ _)|congruence| |].
        -- intros g Hg. by apply Hq2, Hsl.
        -- right. by rewrite Hd2 in Hno.
      * split; [|done]. split; [by eapply (evolves_trans _ _)|congruence].
  - apply wp_ret. split; [split; [done|by left]|done].
Qed.

Lemma finishDisassociation_ok h session id w :
  machine_sane w → quiet_tx h w →
  wp (finishDisassociation ec2 h session id)
    (λ r w', finished w id r w' ∧ (is_ok r = true → quiet_tx h w')) w.
Proof.
  intros Hw Hq. unfold finishDisassociation. apply wp_bind, wp_fault_point; cycle 1.
  { intros e fs Hfs. split; [|done]. split; [|done]. apply (evolves_faults _ _); [by apply (evolves_refl _ _)|lia]. }
  intros fs Hfs. set (w1 := set_faults fs w).
  assert (machine_evolves w w1) as Hev1 by (apply (evolves_faults _ _); [by apply (evolves_refl _ _)|lia]).
  destruct (w_txs w !! h) as [[g|]|] eqn:Hh; cycle 1.
  { apply wp_bind, wp_wrap, wp_wrap, wp_bind, wp_tx_view_closed; [unfold w1; simpl; naive_solver|]. done. }
  { apply wp_bind, wp_wrap, wp_wrap, wp_bind, wp_tx_view_closed; [unfold w1; simpl; naive_solver|]. done. }
  assert (∀ fs', (length fs' ≤ length fs)%nat → machine_evolves w (set_faults fs' w1)) as Hevf.
  { intros fs' Hfs'. by apply (evolves_faults _ _). }
  assert (∀ fs', (length fs' < length fs)%nat → machine_evolves w (abort h (set_faults fs' w1))) as Heva.
  { intros fs' Hfs'. apply (evolves_abort _ _); [apply Hevf; lia|]. by eexists. }
  apply wp_bind, wp_wrap, wp_wrap. eapply wp_statement; [done| |]; cycle 1.
  { intros e fs' Hfs'. split; [|done]. split; [by apply Heva|done]. }
  intros fs2 Hfs2. apply wp_bind, wp_try, wp_bind. eapply wp_queryRow; [done|..]; simpl; cycle 1.
  { intros fs' Hfs' _. apply wp_ret. split; [split; [apply (evolves_faults _ _); [by apply Hevf|done]|by left]|].
    done. }
  { intros e fs' Hfs'. assert (machine_evolves w (abort h (set_faults fs' (set_faults fs2 w1)))) as Hab.
    { apply (Heva fs'). simpl in *. lia. }
    assert (quiet_tx h (abort h (set_faults fs' (set_faults fs2 w1)))) as Hqa.
    { intros g'. simpl. by rewrite lookup_insert_eq. }
    destruct e; (apply wp_throw || apply wp_ret); (split; [split; [done|by (done || left)]|done]). }
  intros [a t] fs3 Hfs3 Hrow. apply attachment_trunk_item in Hrow as [Ha Hid].
  rewrite (Hq g Hh) in Ha. simpl in Ha.
  assert (machine_evolves w (set_faults fs3 (set_faults fs2 w1))) as Hev3 by (apply (Hevf fs3); simpl in *; lia).
  apply wp_bind, wp_scan; simpl; [|by intros; apply wp_throw].
  intros token _. apply wp_bind, wp_scan; simpl; [|by intros; apply wp_throw].
  intros assoc Hassoc. apply wp_ret. rewrite <- Hid. by apply finishDisassociationItem_ok.
Qed.

Definition dissociation_started (assoc : string) (force : bool) (id : Z) (d d' : db) : Prop :=
  ∃ a, head (where_ (has_association assoc) (branch_eni_attachments d)) = Some a ∧
       at_id a = id ∧ unattaching_committed assoc force a d d'.

Lemma startDissociation_ok h assoc force w :
  machine_sane w →
  wp (startDissociation h assoc force)
    (λ r w', machine_evolves w w' ∧
       (∀ g, w_txs w' !! h = Some (Some g) → w_txs w !! h = Some (Some g)) ∧
       match r with
       | Ok id => dissociation_started assoc force id (w_db w) (w_db w')
       | Fail _ => w_db w' = w_db w ∨ ∃ id, dissociation_started assoc force id (w_db w) (w_db w')
       | Panic _ => False
       end) w.
Proof.
  intros Hw. unfold startDissociation. apply wp_bind. eapply wp_mono; [by apply startDissociationTx_ok|].
  intros [[id lock]|e|s] w1 (Hev & Ht & H); [| |done]; cycle 1.
  { split_and!; [done|by rewrite Ht|by left]. }
  destruct lock as [fail|]; [|apply wp_ret; by split_and!; [|rewrite Ht|]].
  apply wp_bind, wp_try, wp_wrap.
  eapply wp_mono; [apply (wp_statement_sane attachments_evolve attachments_wf), Hev|].
  intros r w2 (Hev2 & Hd2 & _ & Hg2 & Hr). rewrite <- Ht.
  assert (machine_evolves w w2) by by eapply (evolves_trans _ _).
  destruct r as [[]|e|s]; [apply wp_ret|apply wp_throw|done]; rewrite Hd2; split_and!; eauto.
Qed.

Lemma disassociateNetworkInterface_ok h session assoc force w :
  machine_sane w → quiet_tx h w →
  wp (disassociateNetworkInterface ec2 h session assoc force)
    (λ r w', machine_evolves w w' ∧ (is_ok r = true → quiet_tx h w') ∧
             match r with Panic _ => False | _ => True end) w.
Proof.
  intros Hw Hq. unfold disassociateNetworkInterface. apply wp_bind, wp_wrap.
  eapply wp_mono; [by apply startDissociation_ok|]. intros [id|e|s] w1 (Hev & Ht & H); [|done|done].
  apply wp_bind, wp_fault_point; cycle 1.
  { intros e fs Hfs. split_and!; [apply (evolves_faults _ _); [done|lia]|done|done]. }
  intros fs Hfs. assert (machine_evolves w (set_faults fs w1)) as Hev1 by by apply (evolves_faults _ _).
  apply wp_wrap. eapply wp_mono; [apply finishDisassociation_ok; [apply Hev1|]|].
  { intros g Hg. by apply Hq, Ht. }
  intros [[]|e|s] w2 [[Hev2 H2] Hq2]; [| |done];
    (split_and!; [by eapply (evolves_trans _ _)|done|done]).
Qed.

Lemma detachBranchENI_ok h session trunk w :
  machine_sane w → quiet_tx h w →
  wp (detachBranchENI ec2 h session trunk)
    (λ r w', machine_evolves w w' ∧
       match r with
       | Ok (idx, branch, assoc) =>
           quiet_tx h w' ∧
           ∃ g a, w_txs w !! h = Some (Some g) ∧ a ∈ detach_candidates trunk (g (w_db w)) ∧
                  at_idx a = idx ∧ at_branch_eni a = branch ∧ at_association_id a = Some assoc
       | Fail _ => True
       | Panic _ => False
       end) w.
Proof.
  intros Hw Hq. unfold detachBranchENI.
  assert (∀ w1 e, machine_evolves w w1 →
    wp match e with
       | ENoRows => throw errAllENIsInUse
       | _ => throw (EWrap "Cannot get unused branch ENI to detach" e)
       end (λ (r : res error (Z * string * string)) w', machine_evolves w w' ∧ match r with Fail _ => True | _ => False end) w1) as Herr.
  { intros w1 e He. destruct e; by apply wp_throw. }
  destruct (w_txs w !! h) as [[g|]|] eqn:Hh; cycle 1.
  { apply wp_bind, wp_try, wp_bind, wp_bind, wp_bind, wp_tx_view_closed; [naive_solver|]. intros e _.
    eapply wp_mono; [by apply Herr, (evolves_refl _ _)|]. by intros [] ? []. }
  { apply wp_bind, wp_try, wp_bind, wp_bind, wp_bind, wp_tx_view_closed; [naive_solver|]. intros e _.
    eapply wp_mono; [by apply Herr, (evolves_refl _ _)|]. by intros [] ? []. }
  apply wp_bind, wp_try, wp_bind. eapply wp_queryRowAny; [done|..]; cycle 1.
  { intros fs ns Hfs _. apply wp_throw. split; [|done].
    by apply (evolves_rand _ _), (evolves_faults _ _); [apply (evolves_refl _ _)|]. }
  { intros e fs Hfs. eapply wp_mono; [apply Herr|by intros [] ? []].
    apply (evolves_abort _ _); [|by eexists]. apply (evolves_faults _ _); [by apply (evolves_refl _ _)|lia]. }
  intros a fs ns Hfs Ha.
  assert (machine_evolves w (set_rand ns (set_faults fs w))) as Hev.
  { by apply (evolves_rand _ _), (evolves_faults _ _); [apply (evolves_refl _ _)|]. }
  apply wp_bind, wp_scan.
  - intros assoc Hassoc. apply wp_ret, wp_bind, wp_wrap.
    eapply wp_mono; [apply disassociateNetworkInterface_ok; [apply Hev|by intros g'; apply Hq]|].
    intros [[]|e|s] w2 (Hev2 & Hq2 & ?); [apply wp_ret| |done]; (split; [by eapply (evolves_trans _ _)|]); [|done].
    split; [by apply Hq2|]. exists g, a. done.
  - intros _. by apply wp_throw.
Qed.

(** *** Action workers *)

(** What a worker's callback has to promise. *)
Definition cb_follows (aw : actionWorker) : Prop := ∀ h id w,
  machine_sane w → quiet_tx h w → wp (aw_cb aw h id) (λ _ w', machine_evolves w w') w.

Lemma associate_cb_follows : cb_follows (associateActionWorker ec2).
Proof.
  intros h id w Hw _. simpl. apply wp_bind. eapply wp_mono; [by apply finishAssociation_follows|].
  intros [] w' ?; [by apply wp_ret|done|done].
Qed.

Lemma disassociate_cb_follows : cb_follows (disassociateActionWorker ec2).
Proof.
  intros h id w Hw Hq. simpl. eapply wp_mono; [by apply finishDisassociation_ok|].
  by intros r w' [[? _] _].
Qed.

(** What [doWorkItem] does to the queue: it is done with the item in every case,
    and at most one of forgetting and re-adding it comes before. *)
Definition item_ops (item : string) (ops : list wq_op) : Prop :=
  ops = [wq_Done item] ∨ ops = [wq_AddRateLimited item; wq_Done item] ∨
  ops = [wq_Forget item; wq_Done item].

Lemma quiet_statement h w :
  machine_sane w → quiet_tx h w →
  wp (statement h) (λ r w', machine_evolves w w' ∧ quiet_tx h w' ∧ match r with Panic _ => False | _ => True end) w.
Proof.
  intros Hw Hq. eapply wp_mono; [by apply (wp_statement_sane attachments_evolve attachments_wf)|].
  intros r w' (Hev & _ & _ & Hg & Hr). split_and!; [done| |done]. intros g Hl. by apply Hq, Hg.
Qed.

(** The statements of [doWorkItem] before the callback. *)
Lemma lock_item_ok aw h id w :
  machine_sane w → quiet_tx h w →
  wp (_ ← statement h; _ ← acquireLock h (aw_table aw) id; statement h)
    (λ r w', machine_evolves w w' ∧ quiet_tx h w' ∧ match r with Panic _ => False | _ => True end) w.
Proof.
  intros Hw Hq. apply wp_bind. eapply wp_mono; [by apply quiet_statement|].
  intros [[]|e|s] w1 (Hev1 & Hq1 & ?); [|done|done]. apply wp_bind, wp_wrap.
  eapply wp_mono; [apply quiet_statement; [apply Hev1|done]|].
  intros [[]|e|s] w2 (Hev2 & Hq2 & ?); [| |done].
  - eapply wp_mono; [apply quiet_statement; [apply Hev2|done]|]. intros r w3 (Hev3 & Hq3 & ?).
    split_and!; [|done|done]. eapply (evolves_trans _ _); [done|]. by eapply (evolves_trans _ _).
  - split_and!; [by eapply (evolves_trans _ _)|done|done].
Qed.

Lemma doWorkItem_ok aw item w :
  cb_follows aw → machine_sane w →
  wp (doWorkItem aw item) (λ r w', machine_evolves w w' ∧
    match r with Ok (_, ops) => item_ops item ops | _ => True end) w.
Proof.
  intros Hcb Hw. unfold doWorkItem.
  destruct (Atoi item) as [id|]; [|apply wp_ret; split; [by apply (evolves_refl _ _)|by left]].
  apply wp_bind, wp_try, wp_BeginTx; cycle 1.
  { intros e fs Hfs. apply wp_ret. split; [|by left].
    apply (evolves_faults _ _); [by apply (evolves_refl _ _)|lia]. }
  intros fs Hfs. fold (begun fs w). set (h := w_next_tx w).
  assert (machine_evolves w (begun fs w)) as Hev.
  { by apply (evolves_begun _ _). }
  apply wp_with_tx, wp_ret, wp_bind, wp_try.
  eapply wp_mono; [apply lock_item_ok; [apply Hev|]|].
  { intros g. unfold h. simpl. rewrite lookup_insert_eq. by intros [= <-]. }
  intros [[]|e|s] w1 (Hev1 & Hq1 & ?); [| |done]; cycle 1.
  { apply wp_ret. split; [|by left]. by eapply (evolves_close _ _), (evolves_trans _ _). }
  apply wp_bind, wp_try. eapply wp_mono; [apply Hcb; [apply Hev1|done]|].
  intros r w2 Hev2. assert (machine_evolves w w2) as Hev02.
  { eapply (evolves_trans _ _); [done|]. by eapply (evolves_trans _ _). }
  assert (∀ r, wp (if r : bool then mret (None, [wq_AddRateLimited item] ++ [wq_Done item])
    else c ← try (Commit h);
         match c with
         | inl _ => mret (None, [wq_AddRateLimited item] ++ [wq_Done item])
         | inr _ => mret (None, [wq_Forget item] ++ [wq_Done item])
         end) (λ (r0 : res error (option error * list wq_op)) w', machine_evolves w (close h w') ∧
           match r0 with Ok (_, ops) => item_ops item ops | _ => True end) w2) as Hend.
  { intros [|].
    - apply wp_ret. split; [by apply (evolves_close _ _)|unfold item_ops; auto].
    - apply wp_bind, wp_try. eapply wp_mono; [apply (serial_Commit attachments_evolve attachments_wf), Hev02|].
      intros r' w3 [Hev3 _]. assert (machine_evolves w (close h w3)).
      { by eapply (evolves_close _ _), (evolves_trans _ _). }
      destruct r' as [[]|e|s]; [apply wp_ret|apply wp_ret|]; split; unfold item_ops; auto. }
  destruct r as [[]|e|s]; [apply (Hend false)|apply Hend|split; [by apply (evolves_close _ _)|done]].
Qed.

Lemma worker_follows aw items : cb_follows aw → keeps_machine (worker aw items).
Proof.
  intros Hcb. induction items as [|item items IH]; [apply (preserves_ret _ _)|].
  cbn [worker]. preserves_walk. intros w Hw. eapply wp_mono; [by apply doWorkItem_ok|]. by intros r w' [].
Qed.

Lemma retrieveAllWorkItems_follows aw : keeps_machine (retrieveAllWorkItems aw).
Proof. unfold retrieveAllWorkItems. preserves_walk. Qed.
(** *** Outcomes of [finishAssociation] *)

(** Work item [id] has a row in state [s] with property [P]. *)
Definition item_in (id : Z) (s : attachment_state) (P : attachment → Prop) (d : db) : Prop :=
  ∃ a, a ∈ branch_eni_attachments d ∧ at_id a = id ∧ at_state a = s ∧ P a.

Lemma attachments_affected_one p d :
  attachments_affected p d = 1%nat → ∃ a, a ∈ branch_eni_attachments d ∧ p a = true.
Proof.
  unfold attachments_affected, count_where. destruct (where_ p _) as [|a l] eqn:E; [done|]. intros _.
  exists a. apply elem_of_where. rewrite E. by left.
Qed.

Lemma item_updated id s s' f (P : attachment → Prop) d :
  (∀ a, at_id (f a) = at_id a ∧ at_state (f a) = s' ∧ P (f a)) →
  attachments_affected (is_id_in id s) d = 1%nat →
  item_in id s' P (update_attachments (is_id_in id s) f d d).
Proof.
  intros Hf (a & Ha & Hp)%attachments_affected_one. exists (f a). destruct (Hf a) as (Hid & Hst & HP).
  split_and!; [|rewrite Hid; by apply is_id_in_true in Hp as []|done|done].
  apply elem_of_update_where. right. exists a. split_and!; [done| |done].
  by rewrite Hp, bool_decide_eq_true_2.
Qed.

Lemma finishAssociationInDB_ok assoc id w :
  machine_sane w →
  wp (finishAssociationInDB assoc id attaching)
    (λ r w', machine_evolves w w' ∧
       match r with
       | Ok _ => item_in id attached (λ a, at_association_id a = Some assoc) (w_db w')
       | Fail _ => w_db w' = w_db w
       | Panic _ => False
       end) w.
Proof.
  intros Hw. apply wp_bind, wp_now. apply (wp_retry_tx attachments_evolve attachments_wf); [done| by intros ???|].
  intros w0 h w1 Hev Hs Hd Ht -> Hf Hin. tx_step. destruct_and? K; subst.
  eapply (tx_or_retry _ _ _ _ _ Datatypes.id); [|done|done|].
  { apply (stmt_exec_at _ _). intros d'. apply update_attachments_evolve.
    intros a0 _ [_ ?]%is_id_in_true. auto with attachments. }
  intros n g w3 (Hn & -> & _) Hin3. destruct (n =? 1)%nat eqn:En; [|by eapply (tx_throw _ _)]. simpl.
  apply Nat.eqb_eq in En. subst. eapply (tx_commit _ _); [eassumption..|]. intros w' _ Hev' Hd' Ht'.
  split; [by eapply (evolves_trans _ _)|]. rewrite Hd'. apply item_updated; done.
Qed.

Definition failure_recorded (id : Z) (err : error) (d : db) : Prop :=
  item_in id failed
    (λ a, match RetrieveEC2Error err with
          | Some e => at_error_code a = Some (aws_Code e) ∧ at_error_message a = Some (aws_Message e)
          | None => at_error_code a = Some "Unknown" ∧ at_error_message a = Some (Error err)
          end) d.

Lemma begins_beginOrPanic : begins attachments_evolve attachments_wf True beginOrPanic.
Proof.
  intros w Hw. apply wp_bind, wp_try, (wp_beginSerializableTx _ _ _ _ Hw); intros.
  - apply wp_ret. eauto 6.
  - by apply wp_panic.
Qed.

Lemma finishAssociationPersistentError_ok id err w :
  machine_sane w →
  wp (finishAssociationPersistentError id attaching err)
    (λ r w', machine_evolves w w' ∧
       match r with Ok _ => failure_recorded id err (w_db w') | _ => w_db w' = w_db w end) w.
Proof.
  intros Hw. unfold finishAssociationPersistentError.
  destruct (match RetrieveEC2Error err with Some a => _ | None => _ end) as [ecode msg] eqn:Ecode.
  apply wp_bind, wp_now.
  apply (wp_retry_begin_tx attachments_evolve attachments_wf True);
    [apply begins_beginOrPanic|done|by intros ???|done|].
  intros w0 h w1 Hev Hs Hd Ht -> Hf Hin.
  eapply (tx_or_retry _ _ _ _ _ Datatypes.id); [|done|done|].
  { apply (stmt_exec_at _ _). intros d'. apply update_attachments_evolve.
    intros a0 _ [_ ?]%is_id_in_true. auto with attachments. }
  intros n g w3 (Hn & -> & _) Hin3. destruct (n =? 1)%nat eqn:En; [|by eapply (tx_throw _ _)]. simpl.
  apply Nat.eqb_eq in En. subst. eapply (tx_commit _ _); [eassumption..|]. intros w' _ Hev' Hd' Ht'.
  split; [by eapply (evolves_trans _ _)|]. rewrite Hd'. apply item_updated; [|done].
  intros a. destruct (RetrieveEC2Error err); by simplify_eq.
Qed.

Lemma finishAssociation_ok h session id w :
  machine_sane w → quiet_tx h w →
  wp (finishAssociation ec2 h session id)
    (λ r w', machine_evolves w w' ∧
       match r with
       | Ok assoc => item_in id attached (λ a, at_association_id a = Some assoc) (w_db w')
       | _ => True
       end) w.
Proof.
  intros Hw Hq. unfold finishAssociation.
  apply wp_bind, wp_wrap, wp_wrap. eapply wp_mono; [by apply quiet_statement|].
  intros [[]|e|s] w1 (Hev1 & Hq1 & ?); [|done|done].
  apply wp_bind, wp_try, wp_bind, wp_bind, wp_bind.
  eapply wp_mono; [apply (wp_tx_view_sane attachments_evolve attachments_wf), Hev1|].
  intros [d|e|s] w2 (Hev2 & Hd2 & _ & Hg2 & H2); [| |done]; cycle 1.
  { assert (machine_evolves w w2) by by eapply (evolves_trans _ _). destruct e; by apply wp_throw. }
  destruct H2 as (g & Hg & ->). assert (machine_evolves w w2) as Hev by by eapply (evolves_trans _ _).
  apply wp_ret. destruct (head _) as [[[a t] b]|] eqn:Hrow; [apply wp_ret|by apply wp_throw].
  apply wp_bind, wp_scan; simpl; [|by intros; apply wp_throw]. intros token _. apply wp_ret.
  assert (a ∈ branch_eni_attachments (w_db w2) ∧ at_id a = id) as [Ha Hid].
  { apply head_Some_elem_of, elem_of_join in Hrow as (Hat & _ & _).
    apply elem_of_join in Hat as ([Ha Hid]%elem_of_where & _ & _).
    rewrite (Hq1 g (Hg2 g Hg)) in Ha. rewrite Hd2. by apply is_id_true in Hid. }
  destruct (at_state a) eqn:Hst; try (by apply wp_throw); cycle 1.
  { destruct (at_association_id a) eqn:Hassoc; [apply wp_ret|by apply wp_throw].
    split; [done|]. by exists a. }
  { by destruct (at_error_code a), (at_error_message a); apply wp_throw. }
  apply wp_bind, wp_try.
  eapply wp_mono; [apply finishAssociationAWS_follows, Hev|]. intros r w3 Hev3.
  assert (machine_evolves w w3) as Hev03 by by eapply (evolves_trans _ _).
  destruct r as [assoc|e|s]; [| |done].
  - apply wp_bind, wp_wrap. eapply wp_mono; [apply finishAssociationInDB_ok, Hev3|].
    intros [[]|e|s] w4 [Hev4 H4]; [apply wp_ret| |done];
      (split; [by eapply (evolves_trans _ _)|]); done.
  - destruct (IsRetryable e); [by apply wp_throw|]. destruct (IsPersistentError e); [|by apply wp_throw].
    apply wp_bind. eapply wp_mono; [apply finishAssociationPersistentError_ok, Hev3|].
    intros [[]|e'|s] w4 [Hev4 H4]; [apply wp_throw|..]; (split; [by eapply (evolves_trans _ _)|done]).
Qed.
End Follows.

(** ** Theorems *)

Section Theorems.
Context (ec2 : ec2_oracle).

(** C1: Whatever work items the queue hands to
    one of the two action workers, whatever EC2 answers and whatever statements
    fail, every row of [branch_eni_attachments] moves only along the state
    machine (attaching to attached or failed, attached to unattaching,
    unattaching to unattached or back to attached), rows are never removed,
    every row stays well-formed, and the constraints of the schema hold. *)
Theorem workers_follow_state_machine aw items w r w' :
  aw = associateActionWorker ec2 ∨ aw = disassociateActionWorker ec2 →
  machine_sane w → worker aw items w = (r, w') →
  attachments_evolve (w_db w) (w_db w') ∧ attachments_wf (w_db w') ∧ schema_ok (w_db w').
Proof.
  intros Haw Hw E. assert (cb_follows aw) as Hcb.
  { destruct Haw as [->| ->]; [apply associate_cb_follows|apply disassociate_cb_follows]. }
  destruct (wp_elim _ _ _ _ _ (worker_follows aw items Hcb w Hw) E) as [? [] ? ?]. done.
Qed.

(** [doWorkItem] is done with its item on every path that
    returns, as the last operation on the queue, after at most one of
    forgetting it and adding it again. *)
Theorem doWorkItem_queue aw item w e ops w' :
  aw = associateActionWorker ec2 ∨ aw = disassociateActionWorker ec2 →
  machine_sane w → doWorkItem aw item w = (Ok (e, ops), w') → item_ops item ops.
Proof.
  intros Haw Hw E. assert (cb_follows aw) as Hcb.
  { destruct Haw as [->| ->]; [apply associate_cb_follows|apply disassociate_cb_follows]. }
  apply (wp_elim _ _ _ _ _ (doWorkItem_ok aw item w Hcb Hw) E).
Qed.

(** [startDissociation] finds the attachment of
    the association and answers its work item.  When the attachment was already
    being unattached it commits nothing; otherwise it moves the row to
    unattaching, and unless it was forced it only does so when no assignment
    uses the association.  It never panics, and an error commits nothing
    but such a start. *)
Theorem startDissociation_starts h assoc force w r w' :
  machine_sane w → startDissociation h assoc force w = (r, w') →
  match r with
  | Ok id => dissociation_started assoc force id (w_db w) (w_db w')
  | Fail _ => w_db w' = w_db w ∨ ∃ id, dissociation_started assoc force id (w_db w) (w_db w')
  | Panic _ => False
  end.
Proof. intros Hw E. by destruct (wp_elim _ _ _ _ _ (startDissociation_ok h assoc force w Hw) E) as (_ & _ & ?). Qed.

(** C8: [finishDisassociation] marks an attachment
    as unattached only when it was unattaching and either the disassociation
    was forced or no assignment uses its association; in every other case, all
    errors included, it commits nothing.  It never panics. *)
Theorem finishDisassociation_safe h session id w r w' :
  machine_sane w → quiet_tx h w → finishDisassociation ec2 h session id w = (r, w') →
  disassociated id (w_db w) (w_db w') ∧ (∀ s, r ≠ Panic s) ∧ (is_ok r = false → w_db w' = w_db w).
Proof.
  intros Hw Hq E. destruct (wp_elim _ _ _ _ _ (finishDisassociation_ok ec2 h session id w Hw Hq) E) as [[_ H] _].
  destruct r; [|split_and!; [by left|done|done]|done]. by split_and!.
Qed.

(** When [finishAssociation] returns an
    association ID, the row of the work item is attached with that ID. *)
Theorem finishAssociation_attached h session id w assoc w' :
  machine_sane w → quiet_tx h w → finishAssociation ec2 h session id w = (Ok assoc, w') →
  item_in id attached (λ a, at_association_id a = Some assoc) (w_db w').
Proof. intros Hw Hq E. apply (wp_elim _ _ _ _ _ (finishAssociation_ok ec2 h session id w Hw Hq) E). Qed.

(** A persistent error of EC2 is
    recorded: when the transaction that does so succeeds, the row of the work
    item is failed, with the code and message of the AWS error in the chain if
    there is one and else with the text of the error; otherwise nothing is
    committed. *)
Theorem finishAssociation_records_failure id err w r w' :
  machine_sane w → finishAssociationPersistentError id attaching err w = (r, w') →
  match r with Ok _ => failure_recorded id err (w_db w') | _ => w_db w' = w_db w end.
Proof. intros Hw E. apply (wp_elim _ _ _ _ _ (finishAssociationPersistentError_ok id err w Hw) E). Qed.

(** The row is attached to the trunk, no assignment uses it, and no such row was
    unused for longer. *)
Definition least_recently_used_eni (trunk : string) (a : attachment) (d : db) : Prop :=
  let unused b := b ∈ branch_eni_attachments d ∧ at_trunk_eni b = trunk ∧ at_state b = attached ∧
                  not_assigned d b = true in
  unused a ∧ ∀ b, unused b → eni_last_used d (at_branch_eni a) ≤ eni_last_used d (at_branch_eni b).

Lemma detach_candidates_lru trunk a d : a ∈ detach_candidates trunk d → least_recently_used_eni trunk a d.
Proof.
  intros [Ha Hle]%elem_of_where. rewrite List.forallb_forall in Hle.
  apply elem_of_where in Ha as (Ha & Hc). rewrite !andb_true_iff, !bool_decide_eq_true in Hc.
  split; [naive_solver|]. intros b (Hb & Ht & Hs & Hn). apply Z.leb_le, Hle, list_elem_of_In, elem_of_where.
  by rewrite Hn, !bool_decide_eq_true_2.
Qed.

(** The branch ENI that
    [detachBranchENI] reports as detached is attached to the trunk ENI, used by
    no assignment, and of those one that was unused for the longest time. *)
Theorem detachBranchENI_least_recently_used h session trunk w idx branch assoc w' :
  machine_sane w → quiet_tx h w →
  detachBranchENI ec2 h session trunk w = (Ok (idx, branch, assoc), w') →
  ∃ g a, w_txs w !! h = Some (Some g) ∧ least_recently_used_eni trunk a (g (w_db w)) ∧
         at_idx a = idx ∧ at_branch_eni a = branch ∧ at_association_id a = Some assoc.
Proof.
  intros Hw Hq E. destruct (wp_elim _ _ _ _ _ (detachBranchENI_ok ec2 h session trunk w Hw Hq) E)
    as (_ & _ & g & a & Hg & Ha & H). exists g, a. split_and!; [done|by apply detach_candidates_lru|apply H..].
Qed.

Lemma retrieveAllWorkItems_ok aw w :
  wp (retrieveAllWorkItems aw)
    (λ r w', match r with
      | Ok ops => w_db w' = w_db w ∧ ops = wq_Add ∘ Itoa <$>
          (at_id <$> where_ (λ a, bool_decide (at_state a = pendingState aw)) (branch_eni_attachments (w_db w)))
      | _ => w_db w' = w_db w
      end) w.
Proof.
  apply wp_with_tx, wp_wrap. eapply wp_mono; [apply wp_BeginTx_id|].
  intros [h|e|s] w0 [Hd0 Hp0]; [|done|done]. cbn [w_db close set_txs].
  apply wp_bind, wp_wrap. eapply wp_mono; [by apply wp_query_id|].
  intros [ids|e|s] w1 [[Hd1 Hp1] Hids]; [|same_db..]. subst ids.
  apply wp_bind, wp_wrap. eapply wp_mono; [by apply wp_Commit_id|]. intros [[]|e|s] w2 Hd2; [|same_db..].
  apply wp_ret. split; [same_db|]. by rewrite Hd0.
Qed.

(** [retrieveAllWorkItems] adds to the queue
    exactly the keys of the rows in the worker's pending state, and
    [doWorkItem] reads the ID of the row back from each key. *)
Theorem retrieveAllWorkItems_complete aw w ops w' :
  Forall (λ a, is_int (at_id a) = true) (branch_eni_attachments (w_db w)) →
  retrieveAllWorkItems aw w = (Ok ops, w') →
  w_db w' = w_db w ∧
  (∀ a, a ∈ branch_eni_attachments (w_db w) → at_state a = pendingState aw → wq_Add (Itoa (at_id a)) ∈ ops) ∧
  ∀ op, op ∈ ops → ∃ a item, a ∈ branch_eni_attachments (w_db w) ∧ at_state a = pendingState aw ∧
                             op = wq_Add item ∧ Atoi item = Some (at_id a).
Proof.
  intros Hid E. destruct (wp_elim _ _ _ _ _ (retrieveAllWorkItems_ok aw w) E) as [Hd ->]. split; [done|].
  pose proof (proj1 (Forall_forall _ _) Hid) as Hid'. split.
  - intros a Ha Hs. apply list_elem_of_fmap. exists (at_id a). split; [done|]. apply list_elem_of_fmap.
    exists a. split; [done|]. apply elem_of_where. by rewrite bool_decide_eq_true_2.
  - intros op (id & -> & Hin)%list_elem_of_fmap.
    apply list_elem_of_fmap in Hin as (a & -> & [Ha Hs%bool_decide_eq_true]%elem_of_where).
    exists a, (Itoa (at_id a)). split_and!; [done..|]. by apply Atoi_Itoa, Hid'.
Qed.
End Theorems.
