(* ===== verification/GenerateAssignment.v ===== *)
(** * GenerateAssignment: finding an ENI for a new assignment

    Models [vpc/service/generate_assignment_id.go].  [generateAssignmentID] puts a
    container on a branch ENI that is attached to the instance's trunk ENI: one
    that already has the security groups and room for another address, else one
    that is not in use (whose security groups are then changed), else it
    attaches another ENI and starts over.

    The in-memory semaphore of the trunk ENI only orders requests for the same
    trunk; taking it can fail with the context.  The loop of
    [generateAssignmentID2] ends at the latest when its context of 30 seconds
    expires, which the next [BeginTx] reports: [fuel] is how many rounds fit. *)
From S2P Require Import Prelude Errors Schema Service Logic TxLogic BranchEni.

Open Scope string_scope.
Open Scope Z_scope.
Open Scope list_scope.

(** ** Data *)

Record subnet := Subnet {
  su_az : string;
  su_vpcID : string;
  su_accountID : string;
  su_subnetID : string;
  su_cidr : string;
  su_region : string
}.

Record branchENI := BranchENI {
  eni_id : string;
  eni_az : string;
  eni_associationID : string;
  eni_accountID : string;
  eni_idx : Z
}.

(** The two sessions are only asked whether they are there. *)
Record getENIRequest := GetENIRequest {
  rq_region : string;
  rq_trunkENI : string;
  rq_trunkENIAccount : string;
  rq_trunkENISession : bool;
  rq_branchENIAccount : string;
  rq_branchENISession : bool;
  rq_assignmentID : string;
  rq_subnet : subnet;
  rq_securityGroups : list string;
  rq_maxBranchENIs : Z;
  rq_maxIPAddresses : Z
}.

Record getENIResponse := GetENIResponse {
  rs_assignmentID : Z;
  rs_dirtySecurityGroups : bool;
  rs_eni : branchENI
}.

Record assignment := Assignment {
  assignmentName : string;
  assignmentID : Z;
  assigned_branch : branchENI;
  assigned_securityGroups : list string;
  assigned_subnet : subnet
}.

(** ** The queries *)

(** [(SELECT count( * ) FROM assignments WHERE branch_eni_association = association_id) AS c] *)
Definition association_count (d : db) (a : attachment) : Z :=
  Z.of_nat (count_where (λ r, oeqb (at_association_id a) (as_association r)) (assignments d)).

(** [ORDER BY k1 ASC, k2 ASC LIMIT 1] leaves the choice between the rows with the
    smallest keys. *)
Definition order_by_2_limit_1 {A} (k1 k2 : A → Z) (l : list A) : list A :=
  where_ (λ x, forallb (λ y, (k1 x <? k1 y) || ((k1 x =? k1 y) && (k2 x <=? k2 y))) l) l.

(** [FROM branch_enis JOIN branch_eni_attachments ON .. WHERE subnet_id = .. AND trunk_eni = ..
    AND state = 'attached'] and the further conditions [p] *)
Definition attached_enis (subnet trunk : string) (p : branch_eni_row → attachment → bool) (d : db) :
  list (branch_eni_row * attachment) :=
  where_ (λ '(b, a), bool_decide (be_subnet_id b = subnet) && bool_decide (at_trunk_eni a = trunk)
                     && bool_decide (at_state a = attached) && p b a)
    (join (branch_enis d) (branch_eni_attachments d) (λ b a, bool_decide (be_branch_eni b = at_branch_eni a))).

(** [ORDER BY c DESC, branch_eni_attached_at ASC LIMIT 1] *)
Definition best_eni (d : db) (l : list (branch_eni_row * attachment)) : list (branch_eni_row * attachment) :=
  order_by_2_limit_1 (λ x, - association_count d x.2) (λ x, at_created_at x.2) l.

Definition shared_enis (req : getENIRequest) (d : db) : list (branch_eni_row * attachment) :=
  best_eni d
    (attached_enis (su_subnetID (rq_subnet req)) (rq_trunkENI req)
       (λ b a, bool_decide (be_security_groups b = rq_securityGroups req)
               && (association_count d a <? rq_maxIPAddresses req)) d).

Definition unused_enis (req : getENIRequest) (d : db) : list (branch_eni_row * attachment) :=
  best_eni d
    (attached_enis (su_subnetID (rq_subnet req)) (rq_trunkENI req)
       (λ b a, association_count d a =? 0) d).

Definition scan_eni (x : branch_eni_row * attachment) : M branchENI :=
  assoc ← scan (at_association_id x.2);
  mret (BranchENI (be_branch_eni x.1) (be_az x.1) assoc (be_account_id x.1) (at_idx x.2)).

Definition set_security_groups (sgs : list string) (dirty : bool) (b : branch_eni_row) : branch_eni_row :=
  BranchEniRow (be_branch_eni b) (be_account_id b) (be_subnet_id b) (be_az b) (be_vpc_id b) sgs dirty
    (be_mac b) (be_last_assigned_to b) (be_created_at b).

Definition update_branch_eni (eni : string) (f : branch_eni_row → branch_eni_row) (d : db) : db :=
  set_branch_enis (update_where (λ b, bool_decide (be_branch_eni b = eni)) f (branch_enis d)) d.

(** ** Using an ENI that is attached *)

Definition insert_assignment_row (id : Z) (assoc name : string) (d : db) : db :=
  set_assignments (assignments d ++ [AssignmentRow id assoc name None None false]) d.

Definition insertAssignment (req : getENIRequest) (fastTx : tx) (eni : branchENI) : M Z :=
  id ← nextval;
  _ ← wrap "Cannot scan row / insert into assignments"
        (exec fastTx (insert_assignment_row id (eni_associationID eni) (rq_assignmentID req)));
  mret id.

(** The security groups of a shared ENI are the requested ones already; an unused
    ENI gets them, to be applied in EC2 later. *)
Definition useENI (req : getENIRequest) (fastTx : tx) (dirty : bool) (eni : branchENI) : M getENIResponse :=
  id ← wrap "Cannot insert assignment ID" (insertAssignment req fastTx eni);
  mret (GetENIResponse id dirty eni).

Definition getAlreadyAttachedENI (req : getENIRequest) (fastTx : tx) : M getENIResponse :=
  r ← try (x ← queryRowAny fastTx (shared_enis req);
           eni ← scan_eni x;
           mret (eni, be_dirty_security_groups x.1));
  match r with
  | inr (eni, dirty) => useENI req fastTx dirty eni
  | inl ENoRows =>
      r ← try (x ← queryRowAny fastTx (unused_enis req); scan_eni x);
      match r with
      | inl ENoRows => throw (EMethodNotPossible "getAlreadyAttachedENI")
      | inl e => throw (EWrap "Cannot scan branch ENIs" e)
      | inr eni =>
          _ ← wrap "Could not update branch ENI security groups / dirty security groups"
                (exec fastTx (update_branch_eni (eni_id eni) (set_security_groups (rq_securityGroups req) true)));
          useENI req fastTx true eni
      end
  | inl e => throw (EWrap "Cannot scan branch ENIs" e)
  end.

(** ** Attaching another ENI *)

Definition unattached_branch_enis (subnet : string) (d : db) : list branch_eni_row :=
  where_ (λ b, bool_decide (be_subnet_id b = subnet)
               && negb (existsb (λ a, bool_decide (at_branch_eni a = be_branch_eni b) && active (at_state a))
                          (branch_eni_attachments d)))
    (branch_enis d).

Definition attaching_count (trunk : string) (d : db) : nat :=
  count_where (λ a, bool_decide (at_state a = attaching) && bool_decide (at_trunk_eni a = trunk))
    (branch_eni_attachments d).

Definition used_indexes (trunk : string) (d : db) : list Z :=
  at_idx <$> where_ (λ a, bool_decide (at_trunk_eni a = trunk) && active (at_state a)) (branch_eni_attachments d).

(** [possibleIndexes.Difference(usedIndexes)] *)
Definition available_indexes (maxBranchENIs : Z) (used : list Z) : list Z :=
  List.filter (λ i, negb (bool_decide (i ∈ used))) (seqZ 1 maxBranchENIs).

(** A serialization failure is returned as it is, another error wrapped. *)
Definition wrap_unless_serialization {A} (msg : string) (m : M A) : M A :=
  r ← try m;
  match r with
  | inl e => if isSerializationFailure e then throw e else throw (EWrap msg e)
  | inr a => mret a
  end.

Definition attachENI (req : getENIRequest) (eni : string) (fastTx slowTx : tx) : M Z :=
  count ← wrap_unless_serialization
            "Unable to determine how many branch_eni_attachments are attaching to ENI"
            (query fastTx (attaching_count (rq_trunkENI req)));
  if (0 <? count)%nat
  then throw (EWithSleep (ERetryable (EString "There are currently ongoing attachments, should sleep and retry")))
  else
    used ← wrap_unless_serialization "Unable to scan used indexes for trunk ENI"
             (query fastTx (used_indexes (rq_trunkENI req)));
    idx ← choose (available_indexes (rq_maxBranchENIs req) used);
    match idx with
    | None => throw (EString "Solution not yet implemented to detach existing ENIs (required when switching subnets)")
    | Some idx =>
        wrap "Could not start association" (startAssociation (Some fastTx) slowTx eni (rq_trunkENI req) idx)
    end.

Definition backOff (err : error) : M unit :=
  if negb (IsSleep err) then mret tt
  else
    _ ← random;
    wrap "Context expired while backing off" fault_point.

Section WithEC2.
Context (ec2 : ec2_oracle).

Definition getUnattachedBranchENIV3 (req : getENIRequest) (fastTx slowTx : tx) : M string :=
  r ← try (queryRowAny fastTx (unattached_branch_enis (su_subnetID (rq_subnet req))));
  match r with
  | inr b => mret (be_branch_eni b)
  | inl ENoRows =>
      _ ← Rollback fastTx;
      _ ← createBranchENI ec2 slowTx (su_subnetID (rq_subnet req)) (rq_securityGroups req);
      _ ← wrap "Cannot commit slowTx" (Commit slowTx);
      throw (ERetryable (EString "Had to rollback fast TX, and create ENI 'manually'"))
  | inl e => throw e
  end.

Definition getENIAndAttach (req : getENIRequest) (fastTx slowTx : tx) : M unit :=
  eni ← getUnattachedBranchENIV3 req fastTx slowTx;
  workItem ← attachENI req eni fastTx slowTx;
  _ ← fault_point;
  _ ← wrap "Unable to finish association" (finishAssociation ec2 slowTx true workItem);
  wrap "Cannot commit slowTx" (Commit slowTx).

Definition try_again (err : error) : bool :=
  isSerializationFailure err || IsRetryable err || isConcurrencyError err.

(** One round of [generateAssignmentID2], from its label [retry]; [None] is
    [goto retry]. *)
Definition generateAssignmentID2_round (req : getENIRequest) : M (option getENIResponse) :=
  with_tx (wrap "Unable to start traditional transaction" BeginTx) (λ slowTx,
  with_tx (wrap "Unable to begin serializable transaction" beginSerializableTx) (λ fastTx,
    r ← try (getAlreadyAttachedENI req fastTx);
    match r with
    | inr resp => or_retry (Commit fastTx) (EWrap "Could not commit fastTx") (λ _, mret (Some resp))
    | inl err =>
        if try_again err then
          _ ← Rollback fastTx;
          b ← try (backOff err);
          match b with inl err2 => throw (EMulti [err; err2]) | inr _ => mret None end
        else if isMethodNotPossible err then
          r2 ← try (getENIAndAttach req fastTx slowTx);
          match r2 with
          | inr _ => mret None
          | inl err2 =>
              if try_again err2 then
                _ ← Rollback fastTx;
                b ← try (backOff err2);
                match b with inl err3 => throw (EMulti [err; err2; err3]) | inr _ => mret None end
              else throw (EWrap "Could not get ENI and attach" err2)
          end
        else throw (EWrap "Could not get assignment using already attached ENI" err)
    end)).

Fixpoint generateAssignmentID2_loop (fuel : nat) (req : getENIRequest) : M getENIResponse :=
  match fuel with
  | O => throw (EWrap "Unable to start traditional transaction" (ECtx true))
  | S n =>
      r ← generateAssignmentID2_round req;
      match r with Some resp => mret resp | None => generateAssignmentID2_loop n req end
  end.

Definition generateAssignmentID2 (fuel : nat) (req : getENIRequest) : M getENIResponse :=
  _ ← wrap "Could not acquire semaphore waiting on trunk ENI" fault_point;
  generateAssignmentID2_loop fuel req.

(** *** The cache of security groups EC2 did not know *)

Definition securityGroupBlockTimeout : Z := 15 * 60.

Definition securityGroupsKey (req : getENIRequest) : string :=
  su_vpcID (rq_subnet req) +:+ "-" +:+ String.concat "," (rq_securityGroups req).

Definition cached_invalid (key : string) : M (option string) := λ w,
  (Ok (match List.find (λ e, bool_decide (e.1 = key)) (w_sg_cache w) with
       | Some (_, (msg, expires)) => if w_now w <? expires then Some msg else None
       | None => None
       end), w).

Definition cache_invalid (key msg : string) : M unit := λ w,
  (Ok tt, set_sg_cache ((key, (msg, w_now w + securityGroupBlockTimeout)) :: w_sg_cache w) w).

(** [sets.NewString(a...).Equal(sets.NewString(b...))] *)
Definition same_set (a b : list string) : bool :=
  forallb (λ x, bool_decide (x ∈ b)) a && forallb (λ x, bool_decide (x ∈ a)) b.

Definition delete_assignment_id (id : Z) : db → db := delete_assignments (λ r, as_id r =? id).

(** The slow transaction of [generateAssignmentID] that applies dirty security
    groups in EC2.  A changed set of security groups deletes the assignment in a
    transaction that is then rolled back.  An error of EC2 that is not an AWS
    error makes [awsErr.Code()] dereference nil. *)
Definition applySecurityGroups (req : getENIRequest) (response : getENIResponse) (a : assignment) : M assignment :=
  let eni := eni_id (rs_eni response) in
  with_tx (wrap "Cannot begin Tx" BeginTx) (λ slowTx,
    b ← wrap "Unable to scan branch_enis for dirty_security_groups"
          (queryRow slowTx (λ d, head (where_ (λ b, bool_decide (be_branch_eni b = eni)) (branch_enis d))));
    if negb (same_set (be_security_groups b) (rq_securityGroups req)) then
      let changed := EString "Security groups changed while running" in
      r ← try (query slowTx (λ d, count_where (λ r, bool_decide (as_assignment_id r = rq_assignmentID req))
                                    (assignments d)));
      match r with
      | inl e => throw (EMulti [changed; EWrap "Cannot query database for assignment" e])
      | inr O => throw (EMulti [changed; EString "Assignment ID not found in database"])
      | inr (S _) =>
          x ← try (exec slowTx (delete_assignment_id (rs_assignmentID response)));
          match x with
          | inl e => throw (EMulti [changed; EWrap "Unable to delete assignment" e])
          | inr _ => throw (EMulti [changed])
          end
      end
    else if negb (be_dirty_security_groups b) then
      _ ← wrap "Cannot commit transaction" (Commit slowTx);
      mret a
    else
      m ← try (session_ModifyNetworkInterfaceAttribute ec2 eni (rq_securityGroups req));
      match m with
      | inl e =>
          match RetrieveEC2Error e with
          | None => go_panic "nil pointer dereference"
          | Some awsErr =>
              _ ← (if bool_decide (aws_Code awsErr = InvalidGroupNotFound)
                   then cache_invalid (securityGroupsKey req) (aws_Message awsErr) else mret tt);
              let err := EWrap "Unable to modify security groups" e in
              x ← try (exec slowTx (delete_assignment_id (rs_assignmentID response)));
              match x with
              | inl e2 => throw (EMulti [err; EWrap "Unable to delete assignment" e2])
              | inr _ =>
                  c ← try (Commit slowTx);
                  match c with
                  | inl e2 => throw (EMulti [err; EWrap "Unable to perform commit" e2])
                  | inr _ => throw (HandleEC2Error err)
                  end
              end
          end
      | inr _ =>
          _ ← wrap "Unable to update database to set security groups to non-dirty"
                (exec slowTx (update_branch_eni eni (λ b, set_security_groups (be_security_groups b) false b)));
          _ ← wrap "Unable to commit transaction" (Commit slowTx);
          mret a
      end).

Definition with_sorted_groups (req : getENIRequest) : getENIRequest :=
  GetENIRequest (rq_region req) (rq_trunkENI req) (rq_trunkENIAccount req) (rq_trunkENISession req)
    (rq_branchENIAccount req) (rq_branchENISession req) (rq_assignmentID req) (rq_subnet req)
    (sort_Strings (rq_securityGroups req)) (rq_maxBranchENIs req) (rq_maxIPAddresses req).

Definition generateAssignmentID (fuel : nat) (req : getENIRequest) : M assignment :=
  _ ← (if rq_trunkENISession req then mret tt
       else wrap "Could not get trunk ENI session"
              (GetSessionFromAccountAndRegion ec2 (rq_trunkENIAccount req) (rq_region req)));
  _ ← (if rq_branchENISession req then mret tt
       else wrap "Could not get branch ENI session"
              (GetSessionFromAccountAndRegion ec2 (rq_branchENIAccount req) (rq_region req)));
  if bool_decide (rq_assignmentID req = "") then throw (EString "invalid assignment ID")
  else
    let req := with_sorted_groups req in
    cached ← cached_invalid (securityGroupsKey req);
    match cached with
    | Some msg => throw (EStatus NotFound ("Security groups not found: " +:+ msg))
    | None =>
        response ← wrap "Could not generate assignment ID with already attached ENI"
                     (generateAssignmentID2 fuel req);
        let a := Assignment (rq_assignmentID req) (rs_assignmentID response) (rs_eni response)
                   (rq_securityGroups req) (rq_subnet req) in
        if negb (rs_dirtySecurityGroups response) then mret a
        else applySecurityGroups req response a
    end.
End WithEC2.

(** ** Every handler follows the attachment's life cycle *)

Section Follows.
Context (ec2 : ec2_oracle).

Lemma preserves_cached_invalid R I `{!Invariant R I} key : preserves R I (cached_invalid key).
Proof. intros w Hw. by apply (evolves_refl _ _). Qed.

Lemma preserves_cache_invalid R I `{!Invariant R I} key msg : preserves R I (cache_invalid key msg).
Proof. intros w [? ? ? ?]. by split. Qed.
Hint Resolve preserves_cached_invalid preserves_cache_invalid acquireLock_serial : preserves.

Lemma insert_branch_eni_evolve iface t d : attachments_evolve d (insert_branch_eni iface t d).
Proof. apply evolve_frame. unfold insert_branch_eni. by destruct (existsb _ _). Qed.

Lemma createBranchENI_follows h subnet sgs : keeps_machine (createBranchENI ec2 h subnet sgs).
Proof.
  unfold createBranchENI, insertBranchENIIntoDB, session_CreateNetworkInterface.
  preserves_walk; apply insert_branch_eni_evolve.
Qed.

Lemma attachENI_follows req eni fastTx slowTx : keeps_machine (attachENI req eni fastTx slowTx).
Proof. unfold attachENI, wrap_unless_serialization. preserves_walk; apply startAssociation_follows. Qed.
Hint Resolve createBranchENI_follows attachENI_follows finishAssociation_follows : preserves.

Lemma getAlreadyAttachedENI_follows req fastTx : keeps_machine (getAlreadyAttachedENI req fastTx).
Proof.
  unfold getAlreadyAttachedENI, scan_eni, useENI, insertAssignment.
  preserves_walk; by apply evolve_frame.
Qed.

Lemma getENIAndAttach_follows req fastTx slowTx : keeps_machine (getENIAndAttach ec2 req fastTx slowTx).
Proof. unfold getENIAndAttach, getUnattachedBranchENIV3. preserves_walk. Qed.
Hint Resolve getAlreadyAttachedENI_follows getENIAndAttach_follows : preserves.

Lemma generateAssignmentID2_follows fuel req : keeps_machine (generateAssignmentID2 ec2 fuel req).
Proof.
  unfold generateAssignmentID2. preserves_walk. induction fuel as [|n IH]; cbn [generateAssignmentID2_loop];
    preserves_walk; unfold generateAssignmentID2_round, backOff, or_retry; preserves_walk.
Qed.

Lemma generateAssignmentID_follows fuel req : keeps_machine (generateAssignmentID ec2 fuel req).
Proof.
  unfold generateAssignmentID, applySecurityGroups, session_ModifyNetworkInterfaceAttribute,
    GetSessionFromAccountAndRegion.
  preserves_walk; try (by apply evolve_frame); apply generateAssignmentID2_follows.
Qed.
End Follows.

(** ** Where an assignment is put *)

Lemma count_where_app {A} (p : A → bool) l1 l2 :
  count_where p (l1 ++ l2) = (count_where p l1 + count_where p l2)%nat.
Proof. unfold count_where, where_. by rewrite List.filter_app, length_app. Qed.

(** What [getAlreadyAttachedENI] adds to the transaction's writes when it uses the
    attached ENI [(b, a)]. *)
Definition placed (req : getENIRequest) (id : Z) (assoc : string) (b : branch_eni_row) (shared : bool) (d : db) : db :=
  insert_assignment_row id assoc (rq_assignmentID req)
    (if shared then d
     else update_branch_eni (be_branch_eni b) (set_security_groups (rq_securityGroups req) true) d).

Definition resp_of (id : Z) (dirty : bool) (assoc : string) (x : branch_eni_row * attachment) : getENIResponse :=
  GetENIResponse id dirty (BranchENI (be_branch_eni x.1) (be_az x.1) assoc (be_account_id x.1) (at_idx x.2)).

Lemma wp_useENI req h dirty eni w :
  wp (useENI req h dirty eni) (λ r w', w_db w' = w_db w ∧
    match r with
    | Ok resp => ∃ g id, w_txs w !! h = Some (Some g) ∧ resp = GetENIResponse id dirty eni ∧
        w_txs w' !! h = Some (Some (λ d, insert_assignment_row id (eni_associationID eni) (rq_assignmentID req) (g d)))
    | _ => True
    end) w.
Proof.
  apply wp_bind, wp_wrap, wp_bind, wp_nextval, wp_bind, wp_wrap.
  eapply wp_mono; [apply wp_exec_any|]. intros [[]|e|s] w' [Hd H]; [|done|done].
  destruct H as (g & Hg & Hg'). apply wp_ret, wp_ret. split; [done|]. by eexists _, _.
Qed.

Lemma wp_scan_eni x Q w :
  (∀ assoc, at_association_id x.2 = Some assoc →
     Q (Ok (BranchENI (be_branch_eni x.1) (be_az x.1) assoc (be_account_id x.1) (at_idx x.2))) w) →
  (Q (Fail scan_error) w) → wp (scan_eni x) Q w.
Proof. intros HOk HF. apply wp_bind, wp_scan; [|done]. intros assoc Ha. apply wp_ret. auto. Qed.

Lemma getAlreadyAttachedENI_ok req h w :
  wp (getAlreadyAttachedENI req h) (λ r w', w_db w' = w_db w ∧
    match r with
    | Ok resp => ∃ g id assoc x shared,
        w_txs w !! h = Some (Some g) ∧ at_association_id x.2 = Some assoc ∧
        x ∈ (if shared : bool then shared_enis req (g (w_db w)) else unused_enis req (g (w_db w))) ∧
        resp = resp_of id (if shared then be_dirty_security_groups x.1 else true) assoc x ∧
        w_txs w' !! h = Some (Some (λ d, placed req id assoc x.1 shared (g d)))
    | _ => True
    end) w.
Proof.
  unfold getAlreadyAttachedENI. apply wp_bind, wp_try, wp_bind.
  eapply wp_mono; [apply wp_queryRowAny_any|].
  intros [x|e|s] w1 [Hu H].
  - destruct H as (g & Hg & Hx). apply wp_bind, wp_scan_eni.
    + intros assoc Hassoc. apply wp_ret. eapply wp_mono; [apply wp_useENI|].
      intros [resp|e|s] w2 [Hd H]; (split; [rewrite Hd; apply Hu|]); [|done|done].
      destruct H as (g' & id & Hg' & -> & Hg2). simplify_eq.
      exists g, id, assoc, x, true. split_and!; try done. by apply Hu.
    + apply wp_throw. split; [apply Hu|done].
  - destruct Hu as [Hd Ht]. destruct e; try (by apply wp_throw).
    apply wp_bind, wp_try, wp_bind. eapply wp_mono; [apply wp_queryRowAny_any|].
    intros [x|e|s] w2 [[Hd2 Ht2] H2]; [| |split; [congruence|done]]; cycle 1.
    { destruct e; apply wp_throw; (split; [congruence|done]). }
    destruct H2 as (g & Hg & Hx). apply wp_scan_eni; [|apply wp_throw; split; [congruence|done]].
    intros assoc Hassoc. apply wp_bind, wp_wrap. eapply wp_mono; [apply wp_exec_any|].
    intros [[]|e|s] w3 [Hd3 H3]; [|split; [congruence|done]..]. destruct H3 as (g3 & Hg3 & Hg3').
    eapply wp_mono; [apply wp_useENI|].
    intros [resp|e|s] w4 [Hd4 H4]; (split; [congruence|]); [|done|done].
    destruct H4 as (g4 & id & Hg4 & -> & Hg4'). simplify_eq.
    exists g, id, assoc, x, false. split_and!; try done; [by apply Ht, Ht2|].
    by rewrite <- Hd.
  - split; [apply Hu|done].
Qed.

(** Response [resp] to [req] is right in the database [d]: its ENI is attached to
    the trunk ENI and in the subnet of the request, the database gives it the
    requested security groups (and as applied in EC2, unless the response says
    otherwise), the assignment is on it, and it has room for it. *)
Record assignment_made (req : getENIRequest) (resp : getENIResponse) (d : db) : Prop := AssignmentMade {
  am_row : AssignmentRow (rs_assignmentID resp) (eni_associationID (rs_eni resp)) (rq_assignmentID req)
             None None false ∈ assignments d;
  am_eni : ∃ b a, b ∈ branch_enis d ∧ a ∈ branch_eni_attachments d ∧
    be_branch_eni b = eni_id (rs_eni resp) ∧ at_branch_eni a = eni_id (rs_eni resp) ∧
    at_association_id a = Some (eni_associationID (rs_eni resp)) ∧ at_state a = attached ∧
    at_trunk_eni a = rq_trunkENI req ∧ be_subnet_id b = su_subnetID (rq_subnet req) ∧
    be_security_groups b = rq_securityGroups req ∧
    be_dirty_security_groups b = rs_dirtySecurityGroups resp ∧ at_idx a = eni_idx (rs_eni resp) ∧
    association_count d a ≤ Z.max 1 (rq_maxIPAddresses req)
}.

Lemma elem_of_order_by_2 {A} (k1 k2 : A → Z) l x : x ∈ order_by_2_limit_1 k1 k2 l → x ∈ l.
Proof. by intros [? _]%elem_of_where. Qed.

Lemma elem_of_attached_enis subnet trunk p d b a :
  (b, a) ∈ attached_enis subnet trunk p d →
  b ∈ branch_enis d ∧ a ∈ branch_eni_attachments d ∧ be_branch_eni b = at_branch_eni a ∧
  be_subnet_id b = subnet ∧ at_trunk_eni a = trunk ∧ at_state a = attached ∧ p b a = true.
Proof.
  intros [(Hb & Ha & Hon)%elem_of_join Hp]%elem_of_where.
  rewrite !andb_true_iff, !bool_decide_eq_true in Hp. apply bool_decide_eq_true in Hon.
  destruct Hp as [[[? ?] ?] ?]. done.
Qed.

Lemma association_count_placed req id assoc b shared d a :
  at_association_id a = Some assoc →
  association_count (placed req id assoc b shared d) a = association_count d a + 1.
Proof.
  intros Ha. unfold association_count, placed. simpl.
  replace (assignments (if shared then d else _)) with (assignments d) by by destruct shared.
  rewrite count_where_app. replace (count_where _ [_]) with 1%nat; [lia|].
  unfold count_where. simpl. unfold oeqb. by rewrite Ha, bool_decide_eq_true_2.
Qed.

Lemma placed_made req id assoc x shared d :
  at_association_id x.2 = Some assoc →
  x ∈ (if shared : bool then shared_enis req d else unused_enis req d) →
  assignment_made req (resp_of id (if shared then be_dirty_security_groups x.1 else true) assoc x)
    (placed req id assoc x.1 shared d).
Proof.
  intros Hassoc Hx. destruct x as [b a]. simpl in *.
  assert (∃ p, (b, a) ∈ attached_enis (su_subnetID (rq_subnet req)) (rq_trunkENI req) p d ∧ p b a = true ∧
    association_count d a + 1 ≤ Z.max 1 (rq_maxIPAddresses req) ∧
    (shared = true → be_security_groups b = rq_securityGroups req)) as (p & Hin & Hp & Hc & Hsg).
  { destruct shared; apply elem_of_order_by_2 in Hx; eexists; (split; [done|]);
      apply elem_of_attached_enis in Hx as (_ & _ & _ & _ & _ & _ & Hp); (split; [done|]).
    - rewrite andb_true_iff, bool_decide_eq_true, Z.ltb_lt in Hp. destruct Hp. split; [lia|done].
    - apply Z.eqb_eq in Hp. split; [lia|done]. }
  apply elem_of_attached_enis in Hin as (Hb & Ha & Hon & Hsub & Htr & Hst & _).
  split; [simpl; apply elem_of_app; right; by left|].
  exists (if shared then b else set_security_groups (rq_securityGroups req) true b), a.
  pose proof (association_count_placed req id assoc b shared d a Hassoc) as Hcount.
  destruct shared; (split_and!; try done); [by apply Hsg | lia | | lia].
  apply elem_of_update_where. right. exists b. by rewrite bool_decide_eq_true_2.
Qed.

Section Places.
Context (ec2 : ec2_oracle).

Lemma generateAssignmentID2_round_ok req w :
  wp (generateAssignmentID2_round ec2 req)
    (λ r w', match r with
             | Ok (Some resp) => assignment_made req resp (w_db w') ∧ schema_ok (w_db w')
             | _ => True
             end) w.
Proof.
  unfold generateAssignmentID2_round. apply wp_with_tx, wp_wrap.
  eapply wp_mono; [apply wp_BeginTx_any|]. intros [slow|e|s] w1 _; [|done|done].
  apply wp_with_tx, wp_wrap. eapply wp_mono; [apply wp_beginSerializableTx_any|].
  intros [fast|e|s] w2 [Hd2 Ht2]; [|done|done]. apply wp_bind, wp_try.
  eapply wp_mono; [apply getAlreadyAttachedENI_ok|]. intros [resp|err|s] w3 [Hd3 H3]; [| |done].
  - destruct H3 as (g & id & assoc & x & shared & Hg & Hassoc & Hx & -> & Hg'). simplify_eq.
    apply wp_or_retry. eapply wp_mono; [apply wp_Commit_any|].
    intros [[]|e|s] w4 H4; [|done|done]. destruct H4 as (g4 & Hg4 & Hd4 & Hs4). simplify_eq.
    apply wp_ret. split; [|done]. simpl. rewrite Hd4, Hd3. by apply placed_made.
  - destruct (try_again err); [do 2 wp_skip; by case_match|].
    destruct (isMethodNotPossible err); [|by apply wp_throw].
    wp_skip. case_match; [|by apply wp_ret]. case_match; [do 2 wp_skip; by case_match | by apply wp_throw].
Qed.

Lemma generateAssignmentID2_ok fuel req w :
  wp (generateAssignmentID2 ec2 fuel req)
    (λ r w', match r with
             | Ok resp => assignment_made req resp (w_db w') ∧ schema_ok (w_db w')
             | _ => True
             end) w.
Proof.
  unfold generateAssignmentID2. wp_skip. revert w'. induction fuel as [|n IH]; intros w1; [done|].
  cbn [generateAssignmentID2_loop]. apply wp_bind. eapply wp_mono; [apply generateAssignmentID2_round_ok|].
  intros [[resp|]|e|s] w2 H; [by apply wp_ret|by apply IH|done|done].
Qed.
End Places.

Definition undirty (b : branch_eni_row) : branch_eni_row := set_security_groups (be_security_groups b) false b.

Definition eni_row (eni : string) (d : db) : option branch_eni_row :=
  head (where_ (λ b, bool_decide (be_branch_eni b = eni)) (branch_enis d)).

(** ** The groups that EC2 has

    The ENI has these groups and is not dirty in the database, or EC2 answered so when it created the ENI. *)
Definition groups_known (ec2 : ec2_oracle) (eni : string) (groups : list string) (d : db) : Prop :=
  (∃ b, b ∈ branch_enis d ∧ be_branch_eni b = eni ∧ be_security_groups b = groups ∧ be_dirty_security_groups b = false) ∨
  (∃ cs subnet asked iface, ec2 _ cs (CreateNetworkInterface subnet asked) = inr iface ∧ NetworkInterfaceId iface = eni ∧
     sort_Strings (ni_Groups iface) = groups).

(** The last call asked EC2 to give the ENI these groups, and EC2 did. *)
Definition groups_modified (ec2 : ec2_oracle) (eni : string) (groups : list string) (calls : list event) : Prop :=
  ∃ cs, calls = cs ++ [Event (ModifyNetworkInterfaceGroups eni groups)] ∧ ec2 _ cs (ModifyNetworkInterfaceGroups eni groups) = inr tt.

(** An ENI that is not dirty has groups that were known before. *)
Definition groups_follow (ec2 : ec2_oracle) (d d' : db) : Prop := ∀ b,
  b ∈ branch_enis d' → be_dirty_security_groups b = false → groups_known ec2 (be_branch_eni b) (be_security_groups b) d.

#[export] Instance groups_follow_invariant ec2 : Invariant (groups_follow ec2) (λ _, True).
Proof.
  split; [|done]. split.
  - intros d b Hb Hc. left. by exists b.
  - intros d1 d2 d3 H1 H2 b Hb Hc. destruct (H2 b Hb Hc) as [(b2 & Hb2 & <- & <- & Hc2)|?]; [|by right]. by apply H1.
Qed.

Section GroupsFollow.
Context (ec2 : ec2_oracle).
Abbreviation keeps_groups m := (preserves (groups_follow ec2) (λ _, True) m).

Lemma groups_follow_frame d d' : branch_enis d' = branch_enis d → groups_follow ec2 d d'.
Proof. intros E b Hb Hc. left. exists b. by rewrite <- E. Qed.

Lemma groups_follow_dirty eni groups d : groups_follow ec2 d (update_branch_eni eni (set_security_groups groups true) d).
Proof.
  intros b Hb Hc. apply elem_of_update_where in Hb as [[Hb _]|(b0 & _ & _ & ->)]; [|done]. left. by exists b.
Qed.

Lemma groups_follow_insert cs subnet asked iface t d :
  ec2 _ cs (CreateNetworkInterface subnet asked) = inr iface → groups_follow ec2 d (insert_branch_eni iface t d).
Proof.
  intros Hc b Hb Hclean. unfold insert_branch_eni in Hb. destruct (existsb _ _); [left; by exists b|].
  apply elem_of_app in Hb as [Hb|Hb]; [left; by exists b|]. apply list_elem_of_singleton in Hb as ->. right. by exists cs, subnet, asked, iface.
Qed.

(** What is done with what EC2 answered *)
Lemma preserves_call_answer R I `{!Invariant R I} {A B : Set} (c : ec2_call A) (f : error + A → M B) msg :
  (∀ e, preserves R I (f (inl e))) → (∀ a cs, ec2 A cs c = inr a → preserves R I (f (inr a))) →
  preserves R I (try (session_call ec2 msg c) ≫= f).
Proof.
  intros He Ha w Hw. apply wp_bind, wp_try, wp_wrap. assert (evolves R I w (set_calls (w_calls w ++ [Event c]) w)) as Hev.
  { pose proof (preserves_call R I ec2 c w Hw) as H. exact H. }
  apply wp_call; [intros a Hca|intros e _].
  - eapply wp_mono; [apply (Ha a _ Hca), Hev|]. intros r w' H. by eapply (evolves_trans R I).
  - eapply wp_mono; [apply He, Hev|]. intros r w' H. by eapply (evolves_trans R I).
Qed.

Lemma createBranchENI_groups h subnet sgs : keeps_groups (createBranchENI ec2 h subnet sgs).
Proof.
  apply (preserves_call_answer _ _); [intros e; preserves_walk|]. intros iface cs Hc. unfold insertBranchENIIntoDB.
  preserves_walk. by eapply groups_follow_insert.
Qed.

Lemma startAssociation_groups fastTx slowTx branch trunk idx : keeps_groups (startAssociation fastTx slowTx branch trunk idx).
Proof. unfold startAssociation, acquireLock. preserves_walk; by apply groups_follow_frame. Qed.

Lemma attachENI_groups req eni fastTx slowTx : keeps_groups (attachENI req eni fastTx slowTx).
Proof. unfold attachENI, wrap_unless_serialization. preserves_walk; apply startAssociation_groups. Qed.

Lemma finishAssociationAWS_groups slowTx session args : keeps_groups (finishAssociationAWS ec2 slowTx session args).
Proof.
  unfold finishAssociationAWS, GetSessionFromAccountAndRegion, session_AssociateTrunkInterface, ensureBranchENIPermissionV3.
  preserves_walk. apply groups_follow_frame. by destruct (existsb _ _).
Qed.

Lemma finishAssociation_groups slowTx session id : keeps_groups (finishAssociation ec2 slowTx session id).
Proof.
  unfold finishAssociation, finishAssociationPersistentError, finishAssociationInDB, beginOrPanic, acquireLock.
  preserves_walk; try (by apply groups_follow_frame); apply finishAssociationAWS_groups.
Qed.

Lemma getAlreadyAttachedENI_groups req fastTx : keeps_groups (getAlreadyAttachedENI req fastTx).
Proof.
  unfold getAlreadyAttachedENI, scan_eni, useENI, insertAssignment.
  preserves_walk; first [by apply groups_follow_frame | apply groups_follow_dirty].
Qed.
Hint Resolve createBranchENI_groups attachENI_groups finishAssociation_groups getAlreadyAttachedENI_groups : preserves.

Lemma getENIAndAttach_groups req fastTx slowTx : keeps_groups (getENIAndAttach ec2 req fastTx slowTx).
Proof. unfold getENIAndAttach, getUnattachedBranchENIV3. preserves_walk. Qed.
Hint Resolve getENIAndAttach_groups : preserves.

Lemma generateAssignmentID2_groups fuel req : keeps_groups (generateAssignmentID2 ec2 fuel req).
Proof.
  unfold generateAssignmentID2. preserves_walk. induction fuel as [|n IH]; cbn [generateAssignmentID2_loop];
    preserves_walk; unfold generateAssignmentID2_round, backOff, or_retry; preserves_walk.
Qed.

Lemma generateAssignmentID2_follow fuel req w :
  wp (generateAssignmentID2 ec2 fuel req) (λ _ w', schema_ok (w_db w) → w_txs w = ∅ → groups_follow ec2 (w_db w) (w_db w')) w.
Proof.
  unfold wp. intros Hs Ht. eapply (ev_related _ _ _ _ (generateAssignmentID2_groups fuel req w _)). Unshelve.
  split; [| |done|done]; rewrite Ht; by intros ? ? ?%lookup_empty_Some.
Qed.
End GroupsFollow.

Section Applies.
Context (ec2 : ec2_oracle).

Lemma applySecurityGroups_ok req response a w :
  wp (applySecurityGroups ec2 req response a) (λ r w',
    match r with
    | Ok a' => a' = a ∧
        (w_db w' = update_branch_eni (eni_id (rs_eni response)) undirty (w_db w) ∧
         groups_modified ec2 (eni_id (rs_eni response)) (rq_securityGroups req) (w_calls w') ∨
         w_db w' = w_db w ∧ ∃ b, eni_row (eni_id (rs_eni response)) (w_db w) = Some b ∧
                                 be_dirty_security_groups b = false)
    | _ => True
    end) w.
Proof.
  unfold applySecurityGroups. apply wp_with_tx, wp_wrap. eapply wp_mono; [apply wp_BeginTx_any|].
  intros [h|e|s] w1 [Hd1 Ht1]; [|done|done]. apply wp_bind, wp_wrap.
  eapply wp_mono; [apply wp_queryRow_any|]. intros [b|e|s] w2 [[Hd2 Ht2] H2]; [|done|done].
  destruct H2 as (g & Hg & Hb). pose proof (Ht2 g Hg) as Hg1. simplify_eq.
  case_match; [wp_skip; case_match; [by apply wp_throw|]; case_match; [by apply wp_throw|];
               wp_skip; by case_match|].
  case_match eqn:Hdirty.
  - apply wp_bind, wp_wrap. eapply wp_mono; [apply wp_Commit_any|]. intros [[]|e|s] w3 H3; [|done|done].
    destruct H3 as (g3 & Hg3 & Hd3 & _). simplify_eq. apply wp_ret. split; [done|]. right. simpl.
    split; [rewrite Hd3; simpl; congruence|]. exists b. unfold eni_row. rewrite <- Hd1.
    by apply negb_true_iff in Hdirty.
  - apply wp_bind, wp_try, wp_wrap, wp_call; [intros [] Hm|intros e _]; simpl.
    2:{ case_match; [|done]. wp_skip. wp_skip. case_match; [by apply wp_throw|]. wp_skip. by case_match. }
    set (w3 := set_calls _ w2). apply wp_bind, wp_wrap. eapply wp_mono; [apply wp_keeps_calls; [auto with keeps_calls|apply wp_exec_any]|].
    intros [[]|e|s] w4 [[Hd4 H4] Hc4]; [|done|done]. destruct H4 as (g4 & Hg4 & Hg4'). simpl in Hg4. simplify_eq.
    apply wp_bind, wp_wrap. eapply wp_mono; [apply wp_keeps_calls; [auto with keeps_calls|apply wp_Commit_any]|].
    intros [[]|e|s] w5 [H5 Hc5]; [|done|done]. destruct H5 as (g5 & Hg5 & Hd5 & _). simplify_eq. apply wp_ret.
    split; [done|]. left. simpl in *. split; [by rewrite Hd5, Hd4, Hd2, Hd1|]. exists (w_calls w2). by rewrite Hc5, Hc4.
Qed.

(** The assignment [generateAssignmentID] returns, in the database [d]. *)
Record assignment_ready (req : getENIRequest) (a : assignment) (d : db) : Prop := AssignmentReady {
  ar_name : assignmentName a = rq_assignmentID req;
  ar_groups : assigned_securityGroups a = sort_Strings (rq_securityGroups req);
  ar_row : AssignmentRow (assignmentID a) (eni_associationID (assigned_branch a)) (assignmentName a)
             None None false ∈ assignments d;
  ar_eni : ∃ b t, b ∈ branch_enis d ∧ t ∈ branch_eni_attachments d ∧
    be_branch_eni b = eni_id (assigned_branch a) ∧ at_branch_eni t = eni_id (assigned_branch a) ∧
    at_association_id t = Some (eni_associationID (assigned_branch a)) ∧ at_state t = attached ∧
    at_trunk_eni t = rq_trunkENI req ∧ be_subnet_id b = su_subnetID (rq_subnet req) ∧
    be_security_groups b = assigned_securityGroups a ∧ be_dirty_security_groups b = false ∧
    at_idx t = eni_idx (assigned_branch a) ∧
    association_count d t ≤ Z.max 1 (rq_maxIPAddresses req)
}.

Lemma undirty_ready req resp calls d d' :
  schema_ok d →
  assignment_made (with_sorted_groups req) resp d →
  (d' = update_branch_eni (eni_id (rs_eni resp)) undirty d ∧
     groups_modified ec2 (eni_id (rs_eni resp)) (sort_Strings (rq_securityGroups req)) calls ∨
   d' = d ∧ ∃ b, eni_row (eni_id (rs_eni resp)) d = Some b ∧ be_dirty_security_groups b = false) →
  assignment_ready req
    (Assignment (rq_assignmentID req) (rs_assignmentID resp) (rs_eni resp)
       (sort_Strings (rq_securityGroups req)) (rq_subnet req)) d' ∧
  (groups_modified ec2 (eni_id (rs_eni resp)) (sort_Strings (rq_securityGroups req)) calls ∨
   groups_known ec2 (eni_id (rs_eni resp)) (sort_Strings (rq_securityGroups req)) d).
Proof.
  intros Hs [Hrow (b & a & Hb & Ha & Hbe & Hae & Hassoc & Hst & Htr & Hsub & Hsg & Hdirty & Hidx & Hc)] Hd.
  destruct Hd as [[-> Hmod]|(-> & b' & Hb' & Hd')].
  - split; [|by left]. split; [done|done|done|]. exists (undirty b), a. split_and!; try done.
    apply elem_of_update_where. right. exists b. by rewrite bool_decide_eq_true_2.
  - apply head_where in Hb' as [Hin' Heq%bool_decide_eq_true]. constraint_of Hs "branch_enis_pkey" C.
    assert (b' = b) as -> by (apply (unique_key be_branch_eni (branch_enis d)); [done|done|done|congruence]).
    split; [split; [done|done|done|]; by exists b, a|]. right. left. by exists b.
Qed.

Lemma generateAssignmentID_ok fuel req w :
  wp (generateAssignmentID ec2 fuel req)
    (λ r w', match r with
             | Ok a => assignment_ready req a (w_db w') ∧
                 (schema_ok (w_db w) → w_txs w = ∅ →
                  groups_modified ec2 (eni_id (assigned_branch a)) (assigned_securityGroups a) (w_calls w') ∨
                  groups_known ec2 (eni_id (assigned_branch a)) (assigned_securityGroups a) (w_db w))
             | _ => True
             end) w.
Proof.
  unfold generateAssignmentID. assert (∀ (b : bool) msg account region, calls_only (if b then mret tt else wrap msg (GetSessionFromAccountAndRegion ec2 account region)))
    as Hsession by (intros []; unfold GetSessionFromAccountAndRegion; auto with calls_only).
  apply wp_bind. eapply wp_mono; [apply Hsession|]. intros [[]|e|s] w1 [[cs1 ->] _]; [|done|done].
  apply wp_bind. eapply wp_mono; [apply Hsession|]. intros [[]|e|s] w2 [[cs2 ->] _]; [|done|done].
  case_bool_decide; [done|]. apply wp_bind. unfold wp at 1, cached_invalid. simpl. case_match; [done|].
  set (w0 := set_calls cs2 _). apply wp_bind, wp_wrap.
  eapply wp_mono; [apply (wp_conj _ _ _ _ (generateAssignmentID2_ok ec2 fuel (with_sorted_groups req) w0)
    (generateAssignmentID2_follow ec2 fuel (with_sorted_groups req) w0))|].
  intros [resp|e|s] w3 H1; [|done|done]. destruct H1 as [[Hm Hs] Hfollow].
  destruct (rs_dirtySecurityGroups resp) eqn:Hdirty; simpl.
  - eapply wp_mono; [apply applySecurityGroups_ok|]. intros [a'|e|s] w4 H4; [|done|done].
    destruct H4 as [-> H4]. eapply undirty_ready in H4 as [Hr Hg]; [|done|done]. split; [done|]. intros Hsd Ht. simpl.
    destruct Hg as [?|[(b & Hb & <- & <- & Hc)|?]]; [by left|right|by right; right]. by apply Hfollow.
  - apply wp_ret. destruct Hm as [Hrow (b & t & Hb & ? & Hbe & ? & ? & ? & ? & ? & Hsg & Hd & ? & ?)]. rewrite Hdirty in Hd.
    split; [split; [done|done|done|]; by exists b, t|]. intros Hsd Ht. right. simpl. simpl in Hsg. rewrite <- Hbe, <- Hsg. by apply Hfollow.
Qed.
End Applies.

(** ** The index of a new attachment *)

Definition with_attachment (a : attachment) (d : db) : db :=
  set_branch_eni_attachments (branch_eni_attachments d ++ [a]) d.

Lemma startAssociation_ok fastTx slowTx branch trunk idx w :
  wp (startAssociation (Some fastTx) slowTx branch trunk idx)
    (λ r w', match r with
             | Ok item => ∃ g id token t,
                 w_txs w !! fastTx = Some (Some g) ∧ (item = id ∨ item = 0) ∧
                 w_db w' = with_attachment (new_attachment id branch trunk idx token t) (g (w_db w)) ∧
                 schema_ok (w_db w')
             | _ => True
             end) w.
Proof.
  unfold startAssociation. apply wp_bind, wp_uuid. intros token _. apply wp_bind, wp_nextval, wp_bind, wp_now.
  apply wp_bind, wp_try. eapply wp_mono; [apply wp_exec_any|].
  intros [[]|e|s] w1 [Hd1 H1]; [|by case_match|done]. destruct H1 as (g & Hg & Hg1). simpl in Hg.
  apply wp_bind, wp_wrap. eapply wp_mono; [apply wp_statement_any|]. intros [[]|e|s] w2 [Hd2 Ht2]; [|done|done].
  apply wp_bind, wp_wrap. eapply wp_mono; [apply wp_Commit_any|]. intros [[]|e|s] w3 H3; [|done|done].
  destruct H3 as (g3 & Hg3%Ht2 & Hd3 & Hs3). simplify_eq.
  assert (w_db w3 = with_attachment (new_attachment (w_seq w) branch trunk idx token (w_now w)) (g (w_db w))) as Hd.
  { rewrite Hd3, Hd2, Hd1. done. }
  apply wp_bind, wp_try, wp_fault_point; intros; [|apply wp_ret; eauto 12].
  apply wp_bind, wp_wrap, wp_wrap. eapply wp_mono; [apply wp_statement_any|].
  intros [[]|e|s] w4 [Hd4 _]; [|done|done]. apply wp_ret. simpl in Hd4. rewrite Hd4. eauto 12.
Qed.

Lemma elem_of_available max used i : i ∈ available_indexes max used → 1 ≤ i ≤ max ∧ i ∉ used.
Proof.
  intros Hi. apply list_elem_of_In, List.filter_In in Hi as [Hi Hu]. apply list_elem_of_In, elem_of_seqZ in Hi.
  apply negb_true_iff, bool_decide_eq_false in Hu. split; [lia|done].
Qed.

(** The new row of a successful [attachENI] has an index of the trunk ENI that was
    free, at a time when no other ENI was attaching. *)
Definition attached_at_free_index (req : getENIRequest) (eni : string) (d d' : db) : Prop :=
  ∃ id idx token t, 1 ≤ idx ≤ rq_maxBranchENIs req ∧ (idx ∉ used_indexes (rq_trunkENI req) d) ∧
    attaching_count (rq_trunkENI req) d = O ∧
    d' = with_attachment (new_attachment id eni (rq_trunkENI req) idx token t) d ∧ schema_ok d'.

Lemma wp_wrap_unless_serialization {A} msg (m : M A) (Q : A → world → Prop) w :
  wp m (λ r w', match r with Ok a => Q a w' | _ => True end) w →
  wp (wrap_unless_serialization msg m) (λ r w', match r with Ok a => Q a w' | _ => True end) w.
Proof.
  intros H. apply wp_bind, wp_try. eapply wp_mono; [exact H|]. intros [a|e|s] w'; try done. by case_match.
Qed.

Lemma attachENI_ok req eni fastTx slowTx w :
  wp (attachENI req eni fastTx slowTx)
    (λ r w', match r with
             | Ok _ => ∃ g, w_txs w !! fastTx = Some (Some g) ∧
                            attached_at_free_index req eni (g (w_db w)) (w_db w')
             | _ => True
             end) w.
Proof.
  unfold attachENI. apply wp_bind. eapply wp_mono.
  { apply (wp_wrap_unless_serialization _ _ (λ c w', unchanged fastTx w w' ∧
      ∃ g, w_txs w' !! fastTx = Some (Some g) ∧ c = attaching_count (rq_trunkENI req) (g (w_db w)))).
    eapply wp_mono; [apply wp_query_any|]. by intros [] ? []. }
  intros [c|e|s] w1 H1; [|done|done]. destruct H1 as ([Hd1 Ht1] & g & Hg & ->).
  destruct (0 <? _)%nat eqn:Hc; [done|]. apply Nat.ltb_ge in Hc.
  apply wp_bind. eapply wp_mono.
  { apply (wp_wrap_unless_serialization _ _ (λ c w', unchanged fastTx w1 w' ∧
      ∃ g, w_txs w' !! fastTx = Some (Some g) ∧ c = used_indexes (rq_trunkENI req) (g (w_db w1)))).
    eapply wp_mono; [apply wp_query_any|]. by intros [] ? []. }
  intros [u|e|s] w2 H2; [|done|done]. destruct H2 as ([Hd2 Ht2] & g2 & Hg2 & ->).
  pose proof (Ht2 g2 Hg2). simplify_eq. apply wp_bind, wp_choose; [|by intros; apply wp_throw].
  intros idx ns [Hidx Hu]%elem_of_available. apply wp_wrap.
  eapply wp_mono; [apply startAssociation_ok|]. intros [item|e|s] w3 H3; [|done|done].
  destruct H3 as (g3 & id & token & t & Hg3 & _ & Hd3 & Hs3). simpl in *. simplify_eq.
  exists g. split; [by apply Ht1|]. rewrite Hd1 in Hu. rewrite Hd2, Hd1 in Hd3.
  exists id, idx, token, t. split_and!; try done; lia.
Qed.

(** ** Theorems *)

(** C24: When [generateAssignmentID] returns, the
    committed database has the incomplete row of the assignment, on an
    association of a branch ENI that is attached to the requested trunk ENI and in
    the requested subnet, whose security groups are the requested ones and not dirty,
    and that has no more assignments than addresses.  And EC2 has these groups for
    the ENI: they were not dirty in the database before, EC2 answered with them when it created
    the ENI, or the last call asked EC2 to set them and EC2 did. *)
Theorem generateAssignmentID_places ec2 fuel req w a w' :
  schema_ok (w_db w) → w_txs w = ∅ → generateAssignmentID ec2 fuel req w = (Ok a, w') →
  assignment_ready req a (w_db w') ∧
  (groups_modified ec2 (eni_id (assigned_branch a)) (assigned_securityGroups a) (w_calls w') ∨
   groups_known ec2 (eni_id (assigned_branch a)) (assigned_securityGroups a) (w_db w)).
Proof.
  intros Hs Ht E. destruct (wp_elim _ _ _ _ _ (generateAssignmentID_ok ec2 fuel req w) E) as [Hr Hg]. split; [done|by apply Hg].
Qed.

(** [attachENI] only commits when no other ENI is
    attaching to the trunk, and what it commits is what its transaction saw with
    one more row: the ENI attaching at an index between 1 and the maximum that no
    active attachment of the trunk has. *)
Theorem attachENI_free_index req eni fastTx slowTx w item w' :
  attachENI req eni fastTx slowTx w = (Ok item, w') →
  ∃ g, w_txs w !! fastTx = Some (Some g) ∧ attached_at_free_index req eni (g (w_db w)) (w_db w').
Proof. intros E. apply (wp_elim _ _ _ _ _ (attachENI_ok req eni fastTx slowTx w) E). Qed.
