(* ===== verification/AssignV3.v ===== *)
(** * AssignV3: giving a container its addresses

    Models [AssignIPV3] and what it calls in [vpc/service/assign_addresses_v3.go],
    with [GetAssignment].  After [generateAssignmentID] has put the assignment on
    a branch ENI, [assignIPsToENI] picks its addresses in one transaction: an IPv4
    address of the ENI that no other assignment has and that is not statically
    allocated, the one unused for longest first; more addresses are requested
    from EC2 when there is none; then elastic IP, IPv6 address, the HTB class of
    the trunk ENI, and the flag that the assignment is complete.

    A Go set of strings is a list without duplicates.  [sort.Slice] is not stable:
    which of several addresses last used at the same time comes first is left
    open.  The UUID of an allocation in a request is taken to be written the way
    PostgreSQL prints it. *)
From S2P Require Import Prelude Errors Limits Schema Service Logic BranchEni GenerateAssignment.

Open Scope string_scope.
Open Scope Z_scope.
Open Scope list_scope.

(** ** Requests and responses *)

Inductive ipv4_request :=
| Ipv4SignedAddressAllocation (uuid : string)
| Ipv4AddressRequested (requested : bool)
| Ipv4None.

Inductive elastic_request :=
| ElasticAddresses (ids : list string)
| GroupName (name : string)
| ElasticEmpty.

Record AssignIPRequestV3 := AssignIPRequest {
  InstanceIdentity : option (string * string * string);
  TaskId : string;
  SecurityGroupIds : list string;
  Idempotent : bool;
  req_Subnets : list string;
  req_AccountID : string;
  req_Ipv4 : ipv4_request;
  req_Ipv6AddressRequested : bool;
  req_ElasticAddress : elastic_request
}.

Record UsableAddress := MkUsableAddress { ua_Address : string; PrefixLength : Z }.

Record ElasticAddress := MkElasticAddress {
  el_Ip : string;
  el_AllocationId : string;
  el_AssociationdId : string
}.

Record NetworkInterfaceV3 := MkNetworkInterfaceV3 {
  n3_SubnetId : string;
  n3_AvailabilityZone : string;
  n3_MacAddress : string;
  n3_NetworkInterfaceId : string;
  n3_OwnerAccountId : string;
  n3_VpcId : string;
  n3_DeviceIndex : option Z
}.

Record AssignIPResponseV3 := AssignIPResponse {
  rp_Ipv4Address : option UsableAddress;
  rp_ElasticAddress : option ElasticAddress;
  rp_Ipv6Address : option UsableAddress;
  rp_Branch : NetworkInterfaceV3;
  rp_Trunk : NetworkInterfaceV3;
  rp_VlanId : Z;
  rp_ClassId : Z
}.

(** ** Text *)

Definition octet (s : string) : option Z :=
  match s with
  | EmptyString => None
  | _ => match digits 0 s with Some n => if (n <=? 255)%N then Some (Z.of_N n) else None | None => None end
  end.

(** [_, ipnet, err := net.ParseCIDR(s); ones, _ := ipnet.Mask.Size()] for the IPv4
    networks that [subnets.cidr] holds *)
Definition ParseCIDR (s : string) : option Z :=
  match strings_Split s "/" with
  | [addr; bits] =>
      match octet <$> strings_Split addr ".", digits 0 bits with
      | [Some _; Some _; Some _; Some _], Some n =>
          if (n <=? 32)%N && negb (bool_decide (bits = "")) then Some (Z.of_N n) else None
      | _, _ => None
      end
  | _ => None
  end.

Definition is_lower (c : ascii) : bool :=
  let n := N_of_ascii c in (97 <=? n)%N && (n <=? 122)%N.
Definition is_digit (c : ascii) : bool := match digit c with Some _ => true | None => false end.

(** The longest prefix of characters satisfying [p], and the rest. *)
Fixpoint span_string (p : ascii → bool) (s : string) : string * string :=
  match s with
  | EmptyString => ("", "")
  | String c s' =>
      if p c then let '(a, b) := span_string p s' in (String c a, b) else ("", s)
  end.

Definition region_at (s : string) : option string :=
  match span_string is_lower s with
  | (String _ _ as a, String "-" r) =>
      match span_string is_lower r with
      | (String _ _ as b, String "-" r) =>
          match span_string is_digit r with
          | (String _ _ as n, _) => Some (a +:+ "-" +:+ b +:+ "-" +:+ n)
          | _ => None
          end
      | _ => None
      end
  | _ => None
  end.

(** [azToRegionRegexp.FindString(az)] for [[a-z]+-[a-z]+-[0-9]+]: the leftmost
    match, the empty string if there is none. *)
Fixpoint azToRegion (s : string) : string :=
  match region_at s with
  | Some r => r
  | None => match s with EmptyString => "" | String _ s' => azToRegion s' end
  end.

Definition uint32 (n : Z) : Z := n mod 2 ^ 32.

(** ** The instance and its trunk ENI *)

Definition getTrunkENI (i : instance) : option instance_eni :=
  List.find (λ iface, bool_decide (in_InterfaceType iface = "trunk")) (inst_NetworkInterfaces i).

Definition instanceNetworkInterface (i : instance) (ni : instance_eni) : NetworkInterfaceV3 :=
  MkNetworkInterfaceV3 (in_SubnetId ni) (inst_AvailabilityZone i) (in_MacAddress ni)
    (in_NetworkInterfaceId ni) (in_OwnerId ni) "" (Some (uint32 (in_DeviceIndex ni))).

(** ** Subnets *)

(** [FROM subnets JOIN availability_zones ON az = zone_name AND account_id = account_id] *)
Definition subnets_azs (p : subnet_row → bool) (d : db) : list (subnet_row * az_row) :=
  join (where_ p (subnets d)) (availability_zones d)
    (λ s z, bool_decide (sn_az s = az_zone_name z) && bool_decide (sn_account_id s = az_account_id z)).

Definition account_subnets (az accountID : string) (d : db) : list (subnet_row * az_row) :=
  subnets_azs (λ s, bool_decide (sn_account_id s = accountID) && bool_decide (sn_az s = az)
                    && bool_decide (sn_subnet_id s ∈ am_subnet_id <$> account_mapping d)) d.

Definition listed_subnets (az : string) (subnetIDs : list string) (d : db) : list (subnet_row * az_row) :=
  subnets_azs (λ s, bool_decide (sn_az s = az) && bool_decide (sn_subnet_id s ∈ subnetIDs)) d.

(** The two texts are given to the wrong cases, as in the source. *)
Definition getSubnet (az accountID : string) (subnetIDs : list string) : M subnet :=
  with_tx (wrap_status Unknown "Could not start database transaction" BeginTx) (λ h,
    r ← try (queryRowAny h (match subnetIDs with
                            | [] => account_subnets az accountID
                            | _ => listed_subnets az subnetIDs
                            end));
    match r with
    | inl ENoRows =>
        match subnetIDs with
        | [] => throw (EString "No subnet found matching IDs in az")
        | _ => throw (EString "No subnet found in account in az")
        end
    | inl e => throw (EWrap "Cannot fetch subnet ID from database" e)
    | inr (s, z) =>
        mret (Subnet (sn_az s) (sn_vpc_id s) (sn_account_id s) (sn_subnet_id s) (sn_cidr s) (az_region z))
    end).

Definition getStaticAllocation (uuid : string) : M ip_address_row :=
  with_tx (wrap_status Unknown "Could not start database transaction" BeginTx) (λ h,
    wrap_status Unknown "Cannot read static allocation"
      (queryRow h (λ d, head (where_ (λ r, bool_decide (ip_id r = uuid)) (ip_addresses d))))).

(** ** An assignment that is there already *)

Definition assignment_attachment (name : string) (d : db) : list (assignment_row * attachment) :=
  join (where_ (λ r, bool_decide (as_assignment_id r = name)) (assignments d)) (branch_eni_attachments d)
    (λ r a, oeqb (at_association_id a) (as_association r)).

Definition elastic_of (name : string) (d : db) : list (elastic_ip_attachment * elastic_ip_row) :=
  join (where_ (λ r, bool_decide (ea_assignment_id r = name)) (elastic_ip_attachments d)) (elastic_ips d)
    (λ r e, bool_decide (ea_allocation_id r = ei_allocation_id e)).

Definition delete_assignment_name (name : string) : db → db :=
  delete_assignments (λ r, bool_decide (as_assignment_id r = name)).

(** The subnet of the trunk ENI is scanned into the branch ENI's, and the prefix
    length comes from it. *)
Definition fetchCompletedAssignment (h : tx) (r : assignment_row) (a : attachment) : M AssignIPResponseV3 :=
  _ ← wrap "Could not set transaction read only" (statement h);
  b ← wrap "Cannot select branch_eni"
        (b ← queryRow h (λ d, head (where_ (λ b, bool_decide (be_branch_eni b = at_branch_eni a)) (branch_enis d)));
         mac ← scan (be_mac b); mret (b, mac));
  t ← wrap "Cannot select trunk_eni"
        (t ← queryRow h (λ d, head (where_ (λ t, bool_decide (te_trunk_eni t = at_trunk_eni a)) (trunk_enis d)));
         mac ← scan (te_mac t); mret (t, mac));
  let subnetID := te_subnet_id t.1 in
  v4 ← match as_ipv4addr r with
       | None => mret None
       | Some ip =>
           c ← try (queryRow h (λ d, head (where_ (λ s, bool_decide (sn_subnet_id s = subnetID)) (subnets d))));
           let cidr := match c with inr s => sn_cidr s | inl _ => "" end in
           match ParseCIDR cidr with
           | None => throw (EWrap "Could not parse subnet CIDR" (EString "invalid CIDR address"))
           | Some ones => mret (Some (MkUsableAddress ip (uint32 ones)))
           end
       end;
  e ← try (x ← queryRow h (λ d, head (elastic_of (as_assignment_id r) d));
           assoc ← scan (ea_association_id x.1);
           mret (MkElasticAddress (ei_public_ip x.2) (ea_allocation_id x.1) assoc));
  elastic ← match e with
            | inr el => mret (Some el)
            | inl ENoRows => mret None
            | inl err => throw (EWrap "Could not select from elastic IP allocations table" err)
            end;
  class ← wrap "Cannot get HTB class ID for assignment"
            (queryRow h (λ d, hc_class_id <$> head (where_ (λ c, bool_decide (hc_assignment_id c = Some (as_id r)))
                                                      (htb_classid d))));
  _ ← wrap "Cannot commit transaction after reading assignment" (Commit h);
  mret (AssignIPResponse v4 elastic ((λ ip, MkUsableAddress ip 128) <$> as_ipv6addr r)
          (MkNetworkInterfaceV3 subnetID (be_az b.1) b.2 (be_branch_eni b.1) (be_account_id b.1) (be_vpc_id b.1) None)
          (MkNetworkInterfaceV3 "" (te_az t.1) t.2 (te_trunk_eni t.1) (te_account_id t.1) (te_vpc_id t.1) None)
          (uint32 (at_idx a)) class).

Definition fetchIdempotentAssignment (assignmentID : string) (deleteUnfinishedAssignment : bool) :
  M (option AssignIPResponseV3) :=
  with_tx (wrap "Cannot start transaction" BeginTx) (λ h,
    r ← try (queryRow h (λ d, head (assignment_attachment assignmentID d)));
    match r with
    | inl ENoRows => mret None
    | inl e => throw (EWrap "Unable to query assignments" e)
    | inr (row, a) =>
        if negb (as_completed row) then
          if deleteUnfinishedAssignment then
            _ ← wrap "Cannot delete incomplete assignment" (exec h (delete_assignment_name assignmentID));
            _ ← wrap "Cannot commit transaction after deleting assignment" (Commit h);
            mret None
          else mret None
        else
          resp ← fetchCompletedAssignment h row a;
          mret (Some resp)
    end).

Definition GetAssignment (taskId : string) : M AssignIPResponseV3 :=
  r ← wrap "Cannot fetch previous assignment" (fetchIdempotentAssignment taskId false);
  match r with
  | None => throw (EStatus NotFound "Could not find previous assignment")
  | Some resp => mret resp
  end.

(** ** Choosing an address *)

Definition batchSize : Z := 4.

Definition used_ipv4 (association : string) (d : db) : list string :=
  omap as_ipv4addr (where_ (λ r, bool_decide (as_association r = association)) (assignments d)).

Definition used_ipv6 (association : string) (d : db) : list string :=
  omap as_ipv6addr (where_ (λ r, bool_decide (as_association r = association)) (assignments d)).

(** [a.Difference(b)] *)
Definition difference_strings (a b : list string) : list string :=
  List.filter (λ x, negb (bool_decide (x ∈ b))) a.

(** [SELECT ip_address FROM ip_addresses WHERE host(ip_address) = any(..) AND subnet_id = ..] *)
Definition static_addresses (subnet : string) (ips : list string) (d : db) : list string :=
  ip_ip_address <$> where_ (λ r, bool_decide (ip_ip_address r ∈ ips) && bool_decide (ip_subnet_id r = subnet))
                      (ip_addresses d).

(** [SELECT ip_address, last_seen FROM ip_last_used_v3 WHERE host(ip_address) = any(..) AND vpc_id = ..] *)
Definition last_used_of (vpc : string) (ips : list string) (d : db) : list (string * Z) :=
  (λ r, (lu_ip_address r, lu_last_seen r)) <$>
    where_ (λ r, bool_decide (lu_ip_address r ∈ ips) && bool_decide (lu_vpc_id r = vpc)) (ip_last_used_v3 d).

Definition last_seen (used : list (string * Z)) (ip : string) : option Z :=
  snd <$> List.find (λ e, bool_decide (e.1 = ip)) used.

(** [Time.Before] or equal, where an address never used has the zero time. *)
Definition time_le (a b : option Z) : bool :=
  match a, b with
  | None, _ => true
  | Some _, None => false
  | Some x, Some y => x <=? y
  end.

(** The candidates for the first place after [sort.Slice]. *)
Definition least_recently_used (used : list (string * Z)) (ips : list string) : list string :=
  where_ (λ x, forallb (λ y, time_le (last_seen used x) (last_seen used y)) ips) ips.

Definition first_address (l : list string) (prefix : Z) : M UsableAddress :=
  match l with
  | [] => go_panic "index out of range"
  | ip :: _ => mret (MkUsableAddress ip prefix)
  end.

Section WithEC2.
Context (ec2 : ec2_oracle).

(** How many addresses to request from EC2. *)
Definition ips_to_assign (maxIPAddresses : Z) (all : list string) : Z :=
  Z.min batchSize (maxIPAddresses - Z.of_nat (length all)).

Definition assignArbitraryIPv4AddressV3 (h : tx) (eni : network_interface) (maxIPAddresses : Z)
    (ass : assignment) : M UsableAddress :=
  match ParseCIDR (su_cidr (assigned_subnet ass)) with
  | None => throw (EWrap "Cannot parse cidr" (EString "invalid CIDR address"))
  | Some prefixlength =>
      used ← wrap "Cannot query ipv4addrs already assigned to interface"
               (query h (used_ipv4 (eni_associationID (assigned_branch ass))));
      let used := remove_dups used in
      let all := remove_dups (pi_address <$> ni_PrivateIpAddresses eni) in
      if maxIPAddresses <=? Z.of_nat (length used)
      then throw (EStatus FailedPrecondition "IPv4 addresses already in-use")
      else
        let unused := difference_strings all used in
        unused ← match unused with
                 | [] => mret []
                 | _ => static ← wrap "Cannot fetch statically assigned IP addresses"
                                   (query h (static_addresses (ni_SubnetId eni) unused));
                        mret (difference_strings unused static)
                 end;
        match unused with
        | _ :: _ =>
            lastUsed ← wrap_status Unknown "Could not fetch utilized IPv4 addresses from the database"
                         (query h (last_used_of (ni_VpcId eni) unused));
            ip ← choose (least_recently_used lastUsed unused);
            match ip with
            | None => go_panic "index out of range"
            | Some ip => mret (MkUsableAddress ip (uint32 prefixlength))
            end
        | [] =>
            if maxIPAddresses - Z.of_nat (length all) <=? 0
            then throw (EStatus FailedPrecondition "IPv4 addresses already assigned to interface")
            else
              r ← try (session_AssignPrivateIPAddresses ec2
                         (AssignPrivateIpCount (NetworkInterfaceId eni) (ips_to_assign maxIPAddresses all)));
              match r with
              | inl e => throw (HandleEC2Error e)
              | inr new =>
                  t ← now;
                  _ ← wrap "Cannot update ip_last_used_v3 table"
                        (exec h (λ d, set_ip_last_used_v3
                           (foldr (upsert_last_used t (ni_VpcId eni)) (ip_last_used_v3 d) new) d));
                  static ← wrap "Cannot fetch statically assigned IP addresses"
                             (query h (static_addresses (ni_SubnetId eni) new));
                  ip ← choose (difference_strings (remove_dups new) static);
                  match ip with
                  | None => throw (EString "We only found static IP addresses on this interface, and there are no free dynamic IPs")
                  | Some ip => mret (MkUsableAddress ip (uint32 prefixlength))
                  end
              end
        end
  end.

(** The prefix length is 128 for an address the ENI has and 64 for a new one. *)
Definition assignArbitraryIPv6AddressV3 (h : tx) (eni : network_interface) (maxIPAddresses : Z)
    (ass : assignment) : M UsableAddress :=
  used ← wrap "Cannot query ipv6addrs already assigned to interface"
           (query h (used_ipv6 (eni_associationID (assigned_branch ass))));
  let used := remove_dups used in
  let all := remove_dups (ni_Ipv6Addresses eni) in
  if maxIPAddresses <=? Z.of_nat (length used)
  then throw (EStatus FailedPrecondition "IPv6 addresses already in-use")
  else
    let unused := difference_strings all used in
    match unused with
    | _ :: _ =>
        lastUsed ← wrap_status Unknown "Could not fetch utilized IPv4 addresses from the database"
                     (query h (last_used_of (ni_VpcId eni) unused));
        ip ← choose (least_recently_used lastUsed unused);
        match ip with
        | None => go_panic "index out of range"
        | Some ip => mret (MkUsableAddress ip 128)
        end
    | [] =>
        if maxIPAddresses - Z.of_nat (length all) <=? 0
        then throw (EStatus FailedPrecondition "IPv4 addresses already assigned to interface")
        else
          r ← try (session_AssignIPv6Addresses ec2
                     (AssignIpv6Count (NetworkInterfaceId eni) (ips_to_assign maxIPAddresses all)));
          match r with
          | inl e => throw (HandleEC2Error e)
          | inr new => first_address new 64
          end
    end.

Definition assignSpecificIPv4AddressV3 (h : tx) (eni : network_interface) (uuid : string)
    (ass : assignment) : M UsableAddress :=
  match ParseCIDR (su_cidr (assigned_subnet ass)) with
  | None => throw (EWrap "Cannot parse cidr" (EString "invalid CIDR address"))
  | Some prefixlength =>
      r ← try (queryRow h (λ d, head (where_ (λ r, bool_decide (ip_id r = uuid)) (ip_addresses d))));
      match r with
      | inl ENoRows => throw (EStatus NotFound "Could not find allocation")
      | inl e => throw (EWrap "Could not fetch allocations from database" e)
      | inr alloc =>
          if negb (bool_decide (ip_subnet_id alloc = ni_SubnetId eni))
          then throw (EString "Branch ENI in subnet, but IP allocation in other subnet")
          else
            _ ← wrap "Could not insert ip address attachment into database"
                  (exec h (λ d, set_ip_address_attachments
                     (ip_address_attachments d ++ [IpAddressAttachment (ip_id alloc) (assignmentName ass)]) d));
            r ← try (session_AssignPrivateIPAddresses ec2
                       (AssignPrivateIps (NetworkInterfaceId eni) [ip_ip_address alloc] true));
            match r with
            | inl e => throw (HandleEC2Error e)
            | inr new => first_address new (uint32 prefixlength)
            end
      end
  end.

(** *** Elastic IPs *)

Definition getBorderGroupForENI (h : tx) (eni : network_interface) : M string :=
  wrap "Cannot get border group for AZ"
    (queryRow h (λ d, az_network_border_group <$>
       head (where_ (λ z, bool_decide (az_zone_name z = ni_AvailabilityZone eni)
                          && bool_decide (az_account_id z = ni_OwnerId eni)) (availability_zones d)))).

Definition free_elastic_ips (account borderGroup : string) (p : elastic_ip_row → bool) (d : db) :
  list elastic_ip_row :=
  where_ (λ e, bool_decide (ei_account_id e = account)
               && negb (existsb (λ a, bool_decide (ea_allocation_id a = ei_allocation_id e))
                          (elastic_ip_attachments d))
               && bool_decide (ei_network_border_group e = borderGroup) && p e) (elastic_ips d).

Definition update_elastic_association (id : Z) (assoc : string) (d : db) : db :=
  set_elastic_ip_attachments
    (update_where (λ r, ea_id r =? id)
       (λ r, ElasticIpAttachment (ea_id r) (ea_allocation_id r) (ea_assignment_id r) (Some assoc))
       (elastic_ip_attachments d)) d.

(** What the two functions that assign an elastic IP have in common. *)
Definition assignElasticAddress (h : tx) (eni : network_interface) (ipv4Address : string)
    (free : db → list elastic_ip_row) (none : error) (assignmentID : string) : M ElasticAddress :=
  r ← try (queryRowAny h free);
  match r with
  | inl ENoRows => throw none
  | inl e => throw (EWrap "Cannot query for free elastic IPs" e)
  | inr eip =>
      id ← nextval;
      _ ← wrap "Cannot insert into elastic_ip_attachments"
            (exec h (λ d, set_elastic_ip_attachments
               (elastic_ip_attachments d ++
                  [ElasticIpAttachment id (ei_allocation_id eip) assignmentID None]) d));
      r ← try (call ec2 (AssociateAddress (ei_allocation_id eip) (NetworkInterfaceId eni) ipv4Address));
      match r with
      | inl e => throw (HandleEC2Error e)
      | inr assoc =>
          _ ← wrap "Unable to update elastic_ip_attachments table" (exec h (update_elastic_association id assoc));
          mret (MkElasticAddress (ei_public_ip eip) (ei_allocation_id eip) assoc)
      end
  end.

Definition assignElasticAddressesBasedOnIDs (h : tx) (eni : network_interface) (ipv4Address : string)
    (addresses : list string) (assignmentID : string) : M ElasticAddress :=
  borderGroup ← getBorderGroupForENI h eni;
  match addresses with
  | [] => throw (EString "Zero addresses in Elastic IP list")
  | _ =>
      assignElasticAddress h eni ipv4Address
        (free_elastic_ips (ni_OwnerId eni) borderGroup (λ e, bool_decide (ei_allocation_id e ∈ addresses)))
        (EString "No EIP in list free") assignmentID
  end.

Definition assignElasticAddressesBasedOnGroupName (h : tx) (eni : network_interface) (ipv4Address : string)
    (groupName assignmentID : string) : M ElasticAddress :=
  borderGroup ← getBorderGroupForENI h eni;
  assignElasticAddress h eni ipv4Address
    (free_elastic_ips (ni_OwnerId eni) borderGroup (λ e, oeqb (ei_pool e) groupName))
    (EString "No EIP in group free in network border group") assignmentID.

(** *** The transaction that completes an assignment *)

Definition update_assignment (id : Z) (f : assignment_row → assignment_row) (d : db) : db :=
  set_assignments (update_where (λ r, as_id r =? id) f (assignments d)) d.

Definition with_ipv4 (ip : string) (r : assignment_row) : assignment_row :=
  AssignmentRow (as_id r) (as_association r) (as_assignment_id r) (Some ip) (as_ipv6addr r) (as_completed r).
Definition with_ipv6 (ip : string) (r : assignment_row) : assignment_row :=
  AssignmentRow (as_id r) (as_association r) (as_assignment_id r) (as_ipv4addr r) (Some ip) (as_completed r).
Definition completed (r : assignment_row) : assignment_row :=
  AssignmentRow (as_id r) (as_association r) (as_assignment_id r) (as_ipv4addr r) (as_ipv6addr r) true.

Definition set_last_assigned_to (t : Z) (b : branch_eni_row) : branch_eni_row :=
  BranchEniRow (be_branch_eni b) (be_account_id b) (be_subnet_id b) (be_az b) (be_vpc_id b)
    (be_security_groups b) (be_dirty_security_groups b) (be_mac b) (Some t) (be_created_at b).

(** [SELECT FROM assignments WHERE id = $1 FOR NO KEY UPDATE] *)
Definition lockAssignment (h : tx) (assignmentID : Z) : M unit :=
  n ← wrap "Cannot select assignment for no key update"
        (query h (λ d, count_where (λ r, as_id r =? assignmentID) (assignments d)));
  if (n =? 1)%nat then mret tt
  else throw (EString "Unexpected number of rows affected by select assignment for no key update").

(** The free HTB classes of a trunk ENI. *)
Definition free_classes (trunk : string) (d : db) : list htb_class_row :=
  where_ (λ c, match hc_assignment_id c with Some _ => false | None => true end
               && existsb (λ t, bool_decide (te_trunk_eni t = trunk) && (te_id t =? hc_trunk_eni c)) (trunk_enis d))
    (htb_classid d).

Definition take_class (id class : Z) (d : db) : db :=
  set_htb_classid
    (update_where (λ c, hc_id c =? class)
       (λ c, HtbClassRow (hc_id c) (hc_trunk_eni c) (Some id) (hc_class_id c)) (htb_classid d)) d.

Definition nth_mod {A} (n : nat) (l : list A) : option A := l !! (n mod length l)%nat.

(** [UPDATE htb_classid SET assignment_id = .. WHERE id = (SELECT .. ORDER BY RANDOM() LIMIT 1)
    RETURNING class_id] *)
Definition assignHTBClass (h : tx) (id : Z) (trunk : string) : M Z :=
  n ← random;
  c ← exec_at h
        (λ d0 d, match nth_mod n (free_classes trunk d0) with Some c => take_class id (hc_id c) d | None => d end)
        (λ d0, hc_class_id <$> nth_mod n (free_classes trunk d0));
  match c with Some class => mret class | None => throw ENoRows end.

Definition some {A} (m : M A) : M (option A) := a ← m; mret (Some a).

Definition assignIPv4 (h : tx) (req : AssignIPRequestV3) (eni : network_interface) (maxIPAddresses : Z)
    (ass : assignment) : M (option UsableAddress) :=
  match req_Ipv4 req with
  | Ipv4SignedAddressAllocation uuid => some (assignSpecificIPv4AddressV3 h eni uuid ass)
  | Ipv4AddressRequested true => some (assignArbitraryIPv4AddressV3 h eni maxIPAddresses ass)
  | _ => mret None
  end.

Definition assignElastic (h : tx) (req : AssignIPRequestV3) (eni : network_interface) (ip : string) :
  M (option ElasticAddress) :=
  match req_ElasticAddress req with
  | ElasticAddresses ids => some (assignElasticAddressesBasedOnIDs h eni ip ids (TaskId req))
  | GroupName g => some (assignElasticAddressesBasedOnGroupName h eni ip g (TaskId req))
  | ElasticEmpty => mret None
  end.

Definition assignIPsToENI (req : AssignIPRequestV3) (ass : assignment) (maxIPAddresses : Z) (i : instance)
    (trunk : instance_eni) : M AssignIPResponseV3 :=
  with_tx (wrap "Cannot start transaction" BeginTx) (λ h,
    _ ← wrap "Cannot lock assignment" (lockAssignment h (assignmentID ass));
    sgs ← wrap "Cannot query assigned SGs to ENI in database"
            (queryRow h (λ d, be_security_groups <$> eni_row (eni_id (assigned_branch ass)) d));
    if negb (same_set sgs (SecurityGroupIds req)) then throw (EString "Database has security groups, when expected")
    else
    iface ← wrap "Cannot get branch ENI" (session_GetNetworkInterfaceByID ec2 (eni_id (assigned_branch ass)));
    if negb (same_set (ni_Groups iface) (SecurityGroupIds req))
    then throw (EString "Branch ENI has security groups, when expected")
    else if negb (bool_decide (ni_Status iface = "in-use"))
    then throw (EString "Branch ENI not in expected status")
    else
    v4 ← assignIPv4 h req iface maxIPAddresses ass;
    elastic ← match v4 with
              | None => mret None
              | Some ip =>
                  _ ← wrap "Cannot update assignment with v4 addr"
                        (exec h (update_assignment (assignmentID ass) (with_ipv4 (ua_Address ip))));
                  assignElastic h req iface (ua_Address ip)
              end;
    v6 ← (if req_Ipv6AddressRequested req
          then some (assignArbitraryIPv6AddressV3 h iface maxIPAddresses ass) else mret None);
    _ ← match v6 with
        | None => mret tt
        | Some ip => wrap "Cannot update assignment with v6 addr"
                       (exec h (update_assignment (assignmentID ass) (with_ipv6 (ua_Address ip))))
        end;
    t ← now;
    _ ← wrap "Cannot update last_assigned_to"
          (exec h (update_branch_eni (NetworkInterfaceId iface) (set_last_assigned_to t)));
    class ← wrap "Unable to update / set class id for allocation"
              (assignHTBClass h (assignmentID ass) (in_NetworkInterfaceId trunk));
    _ ← wrap "Cannot update completed" (exec h (update_assignment (assignmentID ass) completed));
    _ ← wrap "Could not commit transaction" (Commit h);
    mret (AssignIPResponse v4 elastic v6
            (MkNetworkInterfaceV3 (su_subnetID (assigned_subnet ass)) (eni_az (assigned_branch ass))
               (ni_MacAddress iface) (eni_id (assigned_branch ass)) (eni_accountID (assigned_branch ass))
               (su_vpcID (assigned_subnet ass)) None)
            (instanceNetworkInterface i trunk) (uint32 (eni_idx (assigned_branch ass))) class)).

(** *** The request *)

Definition getSessionAndTrunkInterface (instanceID region account : string) : M (instance * instance_eni) :=
  _ ← GetSessionFromAccountAndRegion ec2 account region;
  i ← session_GetInstance ec2 instanceID false;
  match getTrunkENI i with
  | Some t => mret (i, t)
  | None =>
      i ← session_GetInstance ec2 instanceID true;
      match getTrunkENI i with
      | Some t => mret (i, t)
      | None => throw (EStatus FailedPrecondition "Instance does not have trunk ENI")
      end
  end.

Definition of_res {A} (r : res error A) : M A :=
  match r with Ok a => mret a | Fail e => throw e | Panic s => go_panic s end.

(** The subnets the request may go to: a static allocation decides it. *)
Definition request_subnets (req : AssignIPRequestV3) : M (list string) :=
  match req_Ipv4 req with
  | Ipv4SignedAddressAllocation uuid =>
      alloc ← getStaticAllocation uuid;
      match req_Subnets req with
      | [] => mret [ip_subnet_id alloc]
      | l => if bool_decide (ip_subnet_id alloc ∈ l) then mret [ip_subnet_id alloc]
             else throw (EString "Allocation in subnet, but request asked for in subnet ids")
      end
  | _ => mret (req_Subnets req)
  end.

Definition AssignNewIPV3 (fuel : nat) (req : AssignIPRequestV3) (instanceID region account : string) :
  M AssignIPResponseV3 :=
  x ← getSessionAndTrunkInterface instanceID region account;
  let '(i, trunk) := x : instance * instance_eni in
  subnets ← request_subnets req;
  let accountID := if bool_decide (req_AccountID req = "") then in_OwnerId trunk else req_AccountID req in
  subnet ← getSubnet (inst_AvailabilityZone i) accountID subnets;
  maxIPAddresses ← of_res (GetMaxIPAddresses (InstanceType i));
  maxBranchENIs ← of_res (GetMaxBranchENIs (InstanceType i));
  ass ← generateAssignmentID ec2 fuel
          (GetENIRequest (su_region subnet) (in_NetworkInterfaceId trunk) (in_OwnerId trunk) true
             (su_accountID subnet) false (TaskId req) subnet (SecurityGroupIds req) maxBranchENIs maxIPAddresses);
  assignIPsToENI req ass maxIPAddresses i trunk.

Definition AssignIPV3 (fuel : nat) (req : AssignIPRequestV3) : M AssignIPResponseV3 :=
  match InstanceIdentity req with
  | None => throw (EStatus InvalidArgument "Instance ID is not specified")
  | Some (instanceID, region, account) =>
      if bool_decide (instanceID = "") then throw (EStatus InvalidArgument "Instance ID is not specified")
      else if bool_decide (TaskId req = "") then throw (EStatus InvalidArgument "Task ID is not specified")
      else match SecurityGroupIds req with
      | [] => throw (EStatus InvalidArgument "No security groups specified")
      | _ =>
          val ← (if Idempotent req
                 then wrap "Cannot fetch idempotent assignment" (fetchIdempotentAssignment (TaskId req) true)
                 else mret None);
          match val with
          | Some v => mret v
          | None => AssignNewIPV3 fuel req instanceID region account
          end
      end
  end.
End WithEC2.

(** ** Nothing here changes the attachments *)

Section Follows.
Context (ec2 : ec2_oracle).

Lemma preserves_GetInstance R I `{!Invariant R I} id c : preserves R I (session_GetInstance ec2 id c).
Proof.
  intros w Hw. unfold wp, session_GetInstance.
  pose proof (preserves_call R I ec2 (DescribeInstance id c) w Hw) as H. unfold wp in H.
  by destruct (call ec2 _ w) as [[] ?].
Qed.

Lemma preserves_GetNetworkInterface R I `{!Invariant R I} id :
  preserves R I (session_GetNetworkInterfaceByID ec2 id).
Proof.
  intros w Hw. unfold wp, session_GetNetworkInterfaceByID.
  pose proof (preserves_call R I ec2 (DescribeNetworkInterface id) w Hw) as H. unfold wp in H.
  by destruct (call ec2 _ w) as [[] ?].
Qed.
Hint Resolve preserves_GetInstance preserves_GetNetworkInterface : preserves.

Lemma assignIPsToENI_follows req ass max i trunk : keeps_machine (assignIPsToENI ec2 req ass max i trunk).
Proof.
  unfold assignIPsToENI, lockAssignment, assignIPv4, assignElastic, some, assignSpecificIPv4AddressV3,
    assignArbitraryIPv4AddressV3, assignArbitraryIPv6AddressV3, assignElasticAddressesBasedOnIDs,
    assignElasticAddressesBasedOnGroupName, getBorderGroupForENI, assignElasticAddress, assignHTBClass,
    first_address, session_AssignPrivateIPAddresses, session_AssignIPv6Addresses.
  preserves_walk; apply evolve_frame; try done. by destruct (nth_mod _ _).
Qed.

Lemma fetchIdempotentAssignment_follows id del : keeps_machine (fetchIdempotentAssignment id del).
Proof.
  unfold fetchIdempotentAssignment, fetchCompletedAssignment. preserves_walk; by apply evolve_frame.
Qed.
Hint Resolve assignIPsToENI_follows fetchIdempotentAssignment_follows generateAssignmentID_follows : preserves.

Lemma AssignIPV3_follows fuel req : keeps_machine (AssignIPV3 ec2 fuel req).
Proof.
  unfold AssignIPV3, AssignNewIPV3, getSessionAndTrunkInterface, GetSessionFromAccountAndRegion, request_subnets,
    getStaticAllocation, getSubnet, of_res. preserves_walk.
Qed.
End Follows.

Lemma getSessionAndTrunkInterface_calls ec2 id region account :
  calls_only (getSessionAndTrunkInterface ec2 id region account).
Proof.
  unfold getSessionAndTrunkInterface, GetSessionFromAccountAndRegion.
  assert (∀ b, calls_only (session_GetInstance ec2 id b)) as Hget.
  { intros b w. unfold session_GetInstance, wp. destruct (call ec2 (DescribeInstance id b) w) as [r w'] eqn:E.
    pose proof (calls_only_call ec2 (DescribeInstance id b) w) as H. unfold wp in H. rewrite E in H. by destruct r. }
  apply calls_only_bind; [apply calls_only_call|]. intros _. apply calls_only_bind; [done|]. intros i.
  destruct (getTrunkENI i); [apply calls_only_ret|]. apply calls_only_bind; [done|]. intros i'.
  destruct (getTrunkENI i'); [apply calls_only_ret | apply calls_only_throw].
Qed.

(** ** The address that is chosen *)

Lemma elem_of_difference a b x : x ∈ difference_strings a b ↔ x ∈ a ∧ x ∉ b.
Proof.
  unfold difference_strings. rewrite (list_elem_of_In (List.filter _ _)), List.filter_In, <- list_elem_of_In.
  by rewrite negb_true_iff, bool_decide_eq_false.
Qed.

(** The addresses of the ENI that could be given to an assignment on
    [association], in the database [d]. *)
Definition candidate_addresses (eni : network_interface) (association : string) (d : db) : list string :=
  let unused := difference_strings (remove_dups (pi_address <$> ni_PrivateIpAddresses eni))
                  (remove_dups (used_ipv4 association d)) in
  difference_strings unused (static_addresses (ni_SubnetId eni) unused d).

Definition statically_allocated (subnet ip : string) (d : db) : Prop :=
  ∃ r, r ∈ ip_addresses d ∧ ip_ip_address r = ip ∧ ip_subnet_id r = subnet.

Lemma not_static subnet ips ip d :
  ip ∈ ips → ip ∉ static_addresses subnet ips d → ¬ statically_allocated subnet ip d.
Proof.
  intros Hip Hns (r & Hr & <- & Hs). apply Hns. apply list_elem_of_fmap. exists r. split; [done|].
  apply elem_of_where. split; [done|]. by rewrite !bool_decide_eq_true_2.
Qed.

Lemma candidate_addresses_ok eni assoc d ip :
  ip ∈ candidate_addresses eni assoc d →
  ip ∈ (pi_address <$> ni_PrivateIpAddresses eni) ∧ (ip ∉ used_ipv4 assoc d) ∧
  ¬ statically_allocated (ni_SubnetId eni) ip d.
Proof.
  unfold candidate_addresses. intros [Hu Hs]%elem_of_difference.
  pose proof (not_static _ _ _ _ Hu Hs). apply elem_of_difference in Hu as [Ha Hn].
  rewrite elem_of_remove_dups in Ha, Hn. done.
Qed.

Definition number_of_addresses (eni : network_interface) : Z :=
  Z.of_nat (length (remove_dups (pi_address <$> ni_PrivateIpAddresses eni))).

(** Where the chosen address comes from: the candidate that was unused for the
    longest time, or EC2 when there is no candidate and the ENI may get more. *)
Inductive address_choice (ec2 : ec2_oracle) (eni : network_interface) (max : Z) (assoc : string) (d : db)
    (ip : string) : Prop :=
| choice_candidate :
    ip ∈ candidate_addresses eni assoc d →
    (∀ ip', ip' ∈ candidate_addresses eni assoc d →
       time_le (last_seen (last_used_of (ni_VpcId eni) (candidate_addresses eni assoc d) d) ip)
               (last_seen (last_used_of (ni_VpcId eni) (candidate_addresses eni assoc d) d) ip') = true) →
    address_choice ec2 eni max assoc d ip
| choice_new n calls new :
    candidate_addresses eni assoc d = [] →
    1 ≤ n ≤ batchSize → number_of_addresses eni + n ≤ max →
    ec2 _ calls (AssignPrivateIpCount (NetworkInterfaceId eni) n) = inr new → ip ∈ new →
    (¬ statically_allocated (ni_SubnetId eni) ip d) →
    address_choice ec2 eni max assoc d ip.

Section Choice.
Context (ec2 : ec2_oracle).

Lemma candidates_cases eni assoc d :
  (difference_strings (remove_dups (pi_address <$> ni_PrivateIpAddresses eni)) (remove_dups (used_ipv4 assoc d)) = [] ∧
   candidate_addresses eni assoc d = []) ∨
  (∃ x l, difference_strings (remove_dups (pi_address <$> ni_PrivateIpAddresses eni))
            (remove_dups (used_ipv4 assoc d)) = x :: l).
Proof.
  unfold candidate_addresses. destruct (difference_strings _ _) as [|x l]; [by left | right; by eexists _, _].
Qed.

(** What the part after the candidates are known answers. *)
Lemma pick_candidate_ok h eni prefix (cands : list string) w :
  wp (lastUsed ← wrap_status Unknown "Could not fetch utilized IPv4 addresses from the database"
                   (query h (last_used_of (ni_VpcId eni) cands));
      ip ← choose (least_recently_used lastUsed cands);
      match ip with
      | None => go_panic "index out of range"
      | Some ip => mret (MkUsableAddress ip prefix)
      end) (λ r w', match r with
        | Ok ua => PrefixLength ua = prefix ∧ ∃ g, w_txs w !! h = Some (Some g) ∧ ua_Address ua ∈ cands ∧
            ∀ ip', ip' ∈ cands →
              time_le (last_seen (last_used_of (ni_VpcId eni) cands (g (w_db w))) (ua_Address ua))
                      (last_seen (last_used_of (ni_VpcId eni) cands (g (w_db w))) ip') = true
        | _ => True end) w.
Proof.
  apply wp_bind, wp_wrap_status. eapply wp_mono; [apply wp_query_any|].
  intros [used|e|s] w1 [[Hd Ht] H]; [|done|done]. destruct H as (g & Hg & ->).
  apply wp_bind, wp_choose; [|by intros; apply wp_panic]. intros ip ns [Hip Hle]%elem_of_where.
  apply wp_ret. split; [done|]. exists g. split_and!; [by apply Ht|done|]. intros ip' Hip'.
  rewrite List.forallb_forall in Hle. apply Hle. by apply list_elem_of_In.
Qed.

Lemma assignArbitraryIPv4AddressV3_ok h eni max ass w :
  wp (assignArbitraryIPv4AddressV3 ec2 h eni max ass)
    (λ r w', match r with
      | Ok ua => ∃ g prefix, w_txs w !! h = Some (Some g) ∧
          ParseCIDR (su_cidr (assigned_subnet ass)) = Some prefix ∧ PrefixLength ua = uint32 prefix ∧
          address_choice ec2 eni max (eni_associationID (assigned_branch ass)) (g (w_db w)) (ua_Address ua)
      | _ => True end) w.
Proof.
  unfold assignArbitraryIPv4AddressV3.
  destruct (ParseCIDR _) as [prefix|] eqn:Hcidr; [|by apply wp_throw].
  apply wp_bind, wp_wrap. eapply wp_mono; [apply wp_query_any|].
  intros [used|e|s] w1 [[Hd1 Ht1] H1]; [|done|done]. destruct H1 as (g & Hg & ->).
  set (assoc := eni_associationID (assigned_branch ass)) in *. set (d := g (w_db w)).
  case_match eqn:Hmax; [by apply wp_throw|]. apply wp_bind.
  apply (wp_mono _ (λ r w', match r with
     | Ok c => c = candidate_addresses eni assoc d ∧ unchanged h w w' | _ => True end)).
  { destruct (candidates_cases eni assoc d) as [[E Ec]|(x & l & E)]; subst d; rewrite E.
    - apply wp_ret. by rewrite Ec.
    - apply wp_bind, wp_wrap. eapply wp_mono; [apply wp_query_any|].
      intros [st|e|s] w2 [[Hd2 Ht2] H2]; [|done|done]. destruct H2 as (g2 & Hg2 & ->).
      apply wp_ret. pose proof (Ht2 g2 Hg2). simplify_eq. rewrite Hd1. split.
      + unfold candidate_addresses. by rewrite E.
      + split; [congruence|]. intros g' Hg'. by apply Ht1, Ht2. }
  intros [c|e|s] w2 H2; [|done|done]. destruct H2 as (-> & Hd2 & Ht2).
  destruct (candidate_addresses eni assoc d) as [|c cs] eqn:Ec.
  - destruct (_ <=? 0) eqn:Hn; [by apply wp_throw|]. apply Z.leb_gt in Hn.
    apply wp_bind, wp_try, wp_wrap_status, wp_call; [|by intros; apply wp_throw]. intros new Hnew.
    apply wp_bind, wp_now, wp_bind, wp_wrap. eapply wp_mono; [apply wp_exec_any|].
    intros [[]|e|s] w3 [Hd3 H3]; [|done|done]. destruct H3 as (g3 & Hg3 & Hg3'). simpl in Hg3.
    apply Ht2 in Hg3. pose proof (Ht1 g Hg). assert (g3 = g) as -> by congruence.
    apply wp_bind, wp_wrap. eapply wp_mono; [apply wp_query_any|].
    intros [st|e|s] w4 [[Hd4 Ht4] H4]; [|done|done]. destruct H4 as (g4 & Hg4%Ht4 & ->). simplify_eq.
    apply wp_bind, wp_choose; [|by intros; apply wp_throw]. intros ip ns [Hip Hns]%elem_of_difference.
    rewrite elem_of_remove_dups in Hip. apply wp_ret. exists g, prefix. split_and!; [by apply Ht1|done|done|].
    eapply choice_new; [done| | |exact Hnew|exact Hip|].
    + unfold ips_to_assign, batchSize. lia.
    + unfold ips_to_assign, number_of_addresses. lia.
    + rewrite Hd3 in Hns. simpl in Hns. rewrite Hd2 in Hns. by eapply not_static.
  - eapply wp_mono; [apply pick_candidate_ok|]. intros [ua|e|s] w3 H3; [|done|done].
    destruct H3 as (Hp & g3 & Hg3%Ht2 & Hin & Hle). pose proof (Ht1 g Hg).
    assert (g3 = g) as -> by congruence.
    exists g, prefix. split_and!; [by apply Ht1|done|done|]. rewrite Hd2 in Hle. subst d. rewrite <- Ec in Hin, Hle.
    by apply choice_candidate.
Qed.
End Choice.

(** ** The transaction that completes an assignment *)

Lemma update_where_id {A} (p : A → bool) l : update_where p id l = l.
Proof. unfold update_where. rewrite <- (list_fmap_id l) at 2. apply list_fmap_ext. intros _ x _. by destruct (p x). Qed.

Lemma update_where_compose {A} (p : A → bool) f1 f2 l :
  (∀ x, p (f1 x) = p x) → update_where p f2 (update_where p f1 l) = update_where p (f2 ∘ f1) l.
Proof.
  intros H. unfold update_where. rewrite <- list_fmap_compose. apply list_fmap_ext. intros _ x _. simpl.
  destruct (p x) eqn:E; [by rewrite H, E | by rewrite E].
Qed.

(** What the response says of the row of the assignment. *)
Definition completed_with (resp : AssignIPResponseV3) (r : assignment_row) : assignment_row :=
  AssignmentRow (as_id r) (as_association r) (as_assignment_id r)
    (match rp_Ipv4Address resp with Some ip => Some (ua_Address ip) | None => as_ipv4addr r end)
    (match rp_Ipv6Address resp with Some ip => Some (ua_Address ip) | None => as_ipv6addr r end) true.

(** The one row of the assignment is completed as the response says, a class of
    the trunk that was free is taken for it, and neither the other assignments
    nor the attachments are touched. *)
Record assignment_completed (id : Z) (trunk : string) (resp : AssignIPResponseV3) (d d' : db) : Prop :=
  AssignmentCompleted {
    ac_one : count_where (λ r, as_id r =? id) (assignments d) = 1%nat;
    ac_assignments : assignments d' = update_where (λ r, as_id r =? id) (completed_with resp) (assignments d);
    ac_class : ∃ c, c ∈ free_classes trunk d ∧ hc_class_id c = rp_ClassId resp ∧
                    htb_classid d' = htb_classid (take_class id (hc_id c) d);
    ac_attachments : branch_eni_attachments d' = branch_eni_attachments d;
    ac_schema : schema_ok d'
  }.

Section Completed.
Context (ec2 : ec2_oracle) (id : Z).

(** The pending writes have rewritten the assignment by [f] and the tables
    around it not at all. *)
Definition rewritten (f : assignment_row → assignment_row) (g : db → db) : Prop := ∀ d,
  assignments (g d) = update_where (λ r, as_id r =? id) f (assignments d) ∧
  htb_classid (g d) = htb_classid d ∧ trunk_enis (g d) = trunk_enis d ∧
  branch_eni_attachments (g d) = branch_eni_attachments d.

(** The same after a class was taken. *)
Definition classified (f : assignment_row → assignment_row) (class : Z) (g : db → db) : Prop := ∀ d,
  assignments (g d) = update_where (λ r, as_id r =? id) f (assignments d) ∧
  htb_classid (g d) = htb_classid (take_class id class d) ∧
  branch_eni_attachments (g d) = branch_eni_attachments d.

Lemma rewritten_refl : rewritten Datatypes.id Datatypes.id.
Proof. intros d. by rewrite update_where_id. Qed.

Lemma rewritten_update f f' g :
  (∀ r, as_id (f r) = as_id r) → rewritten f g → rewritten (f' ∘ f) (λ d, update_assignment id f' (g d)).
Proof.
  intros Hf Hg d. destruct (Hg d) as (Ha & Hh & Ht & Hb). split_and!; try done. simpl. rewrite Ha.
  apply update_where_compose. intros x. by rewrite Hf.
Qed.

Lemma classified_update f f' c g :
  (∀ r, as_id (f r) = as_id r) → classified f c g → classified (f' ∘ f) c (λ d, update_assignment id f' (g d)).
Proof.
  intros Hf Hg d. destruct (Hg d) as (Ha & Hh & Hb). split_and!; try done. simpl. rewrite Ha.
  apply update_where_compose. intros x. by rewrite Hf.
Qed.

Lemma keeps_GetNetworkInterface h Φ eni : keeps_tx h Φ (session_GetNetworkInterfaceByID ec2 eni).
Proof.
  intros w Hw. unfold wp, session_GetNetworkInterfaceByID.
  pose proof (keeps_tx_call h Φ ec2 (DescribeNetworkInterface eni) w Hw) as H. unfold wp in H.
  by destruct (call ec2 _ w) as [[] ?].
Qed.

Lemma assignIPv4_keeps h f req eni max ass : keeps_tx h (rewritten f) (assignIPv4 ec2 h req eni max ass).
Proof.
  unfold assignIPv4, some, assignSpecificIPv4AddressV3, assignArbitraryIPv4AddressV3, first_address,
    session_AssignPrivateIPAddresses. keeps_walk; done.
Qed.

Lemma assignElastic_keeps h f req eni ip : keeps_tx h (rewritten f) (assignElastic ec2 h req eni ip).
Proof.
  unfold assignElastic, some, assignElasticAddressesBasedOnIDs, assignElasticAddressesBasedOnGroupName,
    getBorderGroupForENI, assignElasticAddress. keeps_walk; done.
Qed.

Lemma assignIPv6_keeps h f eni max ass : keeps_tx h (rewritten f) (assignArbitraryIPv6AddressV3 ec2 h eni max ass).
Proof. unfold assignArbitraryIPv6AddressV3, first_address, session_AssignIPv6Addresses. keeps_walk; done. Qed.

(** A free class is taken, if there is one. *)
Lemma assignHTBClass_ok h f trunk w :
  pending h (rewritten f) w →
  wp (assignHTBClass h id trunk) (λ r w', w_db w' = w_db w ∧
    match r with
    | Ok class => ∃ c, c ∈ free_classes trunk (w_db w) ∧ hc_class_id c = class ∧ pending h (classified f (hc_id c)) w'
    | _ => True
    end) w.
Proof.
  intros Hp. apply wp_bind, wp_random. intros n ns. apply wp_bind.
  eapply wp_mono; [apply wp_exec_at_any|]. intros [o|e|s] w' [Hd H]; [|done|done].
  destruct H as (g & Hg & -> & Hg'). destruct (Hp g Hg (w_db w)) as (_ & Hh & Ht & _).
  assert (free_classes trunk (g (w_db w)) = free_classes trunk (w_db w)) as E
    by (unfold free_classes; by rewrite Hh, Ht).
  change (w_db (set_rand ns w)) with (w_db w) in *. rewrite E. rewrite E in Hg'.
  destruct (nth_mod n (free_classes trunk (w_db w))) as [c|] eqn:En;
    [apply wp_ret | by apply wp_throw]. split; [done|]. exists c. split_and!; [|done|].
  - by eapply list_elem_of_lookup_2.
  - intros g2 Hg2. rewrite Hg' in Hg2. injection Hg2 as <-. intros d.
    destruct (Hp g Hg d) as (Ha & Hh' & _ & Hb). by rewrite <- Ha; simpl; rewrite Hh'.
Qed.
End Completed.

Lemma lockAssignment_ok h i w :
  pending h (eq id) w →
  wp (lockAssignment h i) (λ r w', (w_db w' = w_db w ∧ pending h (eq id) w') ∧
    match r with Ok _ => count_where (λ r, as_id r =? i) (assignments (w_db w)) = 1%nat | _ => True end) w.
Proof.
  intros Hp. apply wp_bind, wp_wrap. eapply wp_mono; [by apply wp_query_id|].
  intros [n|e|s] w' [H1 H2]; [|done|done]. subst n.
  case_match eqn:E; [apply wp_ret | by apply wp_throw]. split; [done|]. by apply Nat.eqb_eq.
Qed.

Definition v4_row (v4 : option UsableAddress) : assignment_row → assignment_row :=
  match v4 with Some ip => with_ipv4 (ua_Address ip) | None => id end.
Definition v6_row (v6 : option UsableAddress) : assignment_row → assignment_row :=
  match v6 with Some ip => with_ipv6 (ua_Address ip) | None => id end.

(** A requested IPv4 address is one of those the ENI may use. *)
Definition ipv4_granted (ec2 : ec2_oracle) (req : AssignIPRequestV3) (ass : assignment) (max : Z)
    (resp : AssignIPResponseV3) (d : db) : Prop :=
  req_Ipv4 req = Ipv4AddressRequested true →
  ∃ ua iface calls, rp_Ipv4Address resp = Some ua ∧
    ec2 _ calls (DescribeNetworkInterface (eni_id (assigned_branch ass))) = inr iface ∧
    address_choice ec2 iface max (eni_associationID (assigned_branch ass)) d (ua_Address ua).

Section Assigned.
Context (ec2 : ec2_oracle).

Lemma wp_GetNetworkInterface h Φ eni w :
  pending h Φ w →
  wp (session_GetNetworkInterfaceByID ec2 eni) (λ r w', (w_db w' = w_db w ∧ pending h Φ w') ∧
    match r with Ok iface => ∃ calls, ec2 _ calls (DescribeNetworkInterface eni) = inr iface | _ => True end) w.
Proof.
  intros Hp. apply wp_conj; [by apply keeps_GetNetworkInterface|].
  unfold wp, session_GetNetworkInterfaceByID, call. destruct (ec2 _ (w_calls w) _) eqn:E; simpl; eauto.
Qed.

(** The addresses, with what is known of an IPv4 address that was requested. *)
Lemma assignIPv4_ok h req iface max ass w :
  pending h (eq id) w →
  wp (assignIPv4 ec2 h req iface max ass)
    (λ r w', (w_db w' = w_db w ∧ pending h (rewritten (assignmentID ass) id) w') ∧
      match r with
      | Ok v4 => req_Ipv4 req = Ipv4AddressRequested true → ∃ ua, v4 = Some ua ∧
          address_choice ec2 iface max (eni_associationID (assigned_branch ass)) (w_db w) (ua_Address ua)
      | _ => True
      end) w.
Proof.
  intros Hp. apply wp_conj.
  - apply assignIPv4_keeps. eapply pending_mono; [done|]. intros g <-. apply rewritten_refl.
  - unfold assignIPv4. destruct (req_Ipv4 req) as [uuid|[]|]; try (eapply wp_mono; [apply wp_true|]; by intros []).
    apply wp_bind. eapply wp_mono; [apply assignArbitraryIPv4AddressV3_ok|].
    intros [ua|e|s] w' H; [|done|done]. destruct H as (g & prefix & Hg & _ & _ & Hc).
    apply wp_ret. intros _. exists ua. split; [done|]. by rewrite <- (Hp g Hg) in Hc.
Qed.

(** From the addresses to the commit. *)
Lemma complete_ok h id v4 elastic v6 branch tni vlan iface trunk d0 w :
  count_where (λ r, as_id r =? id) (assignments d0) = 1%nat →
  w_db w = d0 → pending h (rewritten id (v6_row v6 ∘ v4_row v4)) w →
  wp (t ← now;
      _ ← wrap "Cannot update last_assigned_to"
            (exec h (update_branch_eni (NetworkInterfaceId iface) (set_last_assigned_to t)));
      class ← wrap "Unable to update / set class id for allocation"
                (assignHTBClass h id (in_NetworkInterfaceId trunk));
      _ ← wrap "Cannot update completed" (exec h (update_assignment id completed));
      _ ← wrap "Could not commit transaction" (Commit h);
      mret (AssignIPResponse v4 elastic v6 branch tni vlan class))
    (λ r w', match r with
      | Ok resp => rp_Ipv4Address resp = v4 ∧
                   assignment_completed id (in_NetworkInterfaceId trunk) resp d0 (w_db w')
      | _ => w_db w' = d0 end) w.
Proof.
  intros Hone Hd Hp. apply wp_bind, wp_now.
  keep_step. { by keeps_walk. } intros _ w1 Hd1 Hp1.
  apply wp_bind, wp_wrap. eapply wp_mono; [by eapply assignHTBClass_ok|].
  intros [class|e|s] w2 [Hd2 H2]; [|congruence|congruence]. destruct H2 as (c & Hc & <- & Hp2).
  apply wp_bind, wp_wrap. eapply wp_mono.
  { eapply (wp_exec_pending _ _ (classified id (completed ∘ (v6_row v6 ∘ v4_row v4)) (hc_id c))); [done|].
    intros g. apply classified_update. by destruct v4, v6. }
  intros [[]|e|s] w3 [Hd3 Hp3]; [|congruence|congruence].
  apply wp_bind, wp_wrap. eapply wp_mono; [apply wp_Commit_any|].
  intros [[]|e|s] w4 H4; [|congruence|congruence]. destruct H4 as (g & Hg & Hdb & Hs).
  apply wp_ret. split; [done|]. assert (w_db w3 = d0) as E by congruence. rewrite E in Hdb.
  destruct (Hp3 g Hg d0) as (Ha & Hh & Hb). rewrite <- Hdb in Ha, Hh, Hb. split; try done.
  - rewrite Ha. apply list_fmap_ext. intros _ r _. by destruct (_ =? _), v4, v6.
  - exists c. split_and!; [congruence | done | done].
Qed.

(** The addresses are written to the row of the assignment. *)
Lemma record_v4_ok h req iface ass v4 d0 w :
  w_db w = d0 → pending h (rewritten (assignmentID ass) id) w →
  wp (match v4 with
      | None => mret None
      | Some ip =>
          _ ← wrap "Cannot update assignment with v4 addr"
                (exec h (update_assignment (assignmentID ass) (with_ipv4 (ua_Address ip))));
          assignElastic ec2 h req iface (ua_Address ip)
      end)
    (λ r w', w_db w' = d0 ∧
      match r with Ok _ => pending h (rewritten (assignmentID ass) (v4_row v4)) w' | _ => True end) w.
Proof.
  intros <- Hp. destruct v4 as [ip|]; [|by apply wp_ret]. apply wp_bind, wp_wrap. eapply wp_mono.
  { eapply (wp_exec_pending _ _ (rewritten (assignmentID ass) (with_ipv4 (ua_Address ip)))); [done|].
    intros g. by apply rewritten_update. }
  intros [[]|e|s] w1 [Hd1 Hp1]; [|done..].
  eapply wp_mono; [by apply assignElastic_keeps|]. intros [] w2 [Hd2 Hp2]; (split; [congruence|done]).
Qed.

Lemma record_v6_ok h id f v6 d0 w :
  (∀ r, as_id (f r) = as_id r) → w_db w = d0 → pending h (rewritten id f) w →
  wp (match v6 with
      | None => mret tt
      | Some ip => wrap "Cannot update assignment with v6 addr"
                     (exec h (update_assignment id (with_ipv6 (ua_Address ip))))
      end)
    (λ r w', w_db w' = d0 ∧
      match r with Ok _ => pending h (rewritten id (v6_row v6 ∘ f)) w' | _ => True end) w.
Proof.
  intros Hf <- Hp. destruct v6 as [ip|]; [|by apply wp_ret]. apply wp_wrap. eapply wp_mono.
  { eapply (wp_exec_pending _ _ (rewritten id (with_ipv6 (ua_Address ip) ∘ f))); [done|].
    intros g. by apply rewritten_update. }
  by intros [] w1 [Hd1 Hp1].
Qed.

(** All or nothing: an error leaves the database as it was. *)
Lemma assignIPsToENI_ok req ass max i trunk w :
  wp (assignIPsToENI ec2 req ass max i trunk)
    (λ r w', match r with
      | Ok resp =>
          assignment_completed (assignmentID ass) (in_NetworkInterfaceId trunk) resp (w_db w) (w_db w') ∧
          (∃ b, eni_row (eni_id (assigned_branch ass)) (w_db w) = Some b ∧
                same_set (be_security_groups b) (SecurityGroupIds req) = true) ∧
          ipv4_granted ec2 req ass max resp (w_db w)
      | _ => w_db w' = w_db w
      end) w.
Proof.
  apply wp_with_tx, wp_wrap. eapply wp_mono; [apply wp_BeginTx_id|].
  intros [h|e|s] w0 [Hd0 Hp0]; [|done|done]. cbn [w_db close set_txs].
  apply wp_bind, wp_wrap. eapply wp_mono; [by apply lockAssignment_ok|].
  intros [[]|e|s] w1 [[Hd1 Hp1] Hone]; [|simpl; congruence..].
  apply wp_bind, wp_wrap. eapply wp_mono; [by apply wp_queryRow_id|].
  intros [sgs|e|s] w2 [[Hd2 Hp2] Hsg]; [|simpl; congruence..].
  destruct (same_set sgs _) eqn:Hsgs; [simpl negb; cbv iota | apply wp_throw; simpl; congruence].
  apply wp_bind, wp_wrap. eapply wp_mono; [by apply wp_GetNetworkInterface|].
  intros [iface|e|s] w3 [[Hd3 Hp3] Hif]; [|simpl; congruence..]. destruct Hif as [calls Hif].
  destruct (negb (same_set (ni_Groups iface) _)); [apply wp_throw; simpl; congruence|].
  destruct (negb _); [apply wp_throw; simpl; congruence|].
  apply wp_bind. eapply wp_mono; [by apply assignIPv4_ok|].
  intros [v4|e|s] w4 [[Hd4 Hp4] H4]; [|simpl; congruence..]. assert (w_db w4 = w_db w) as E4 by congruence.
  apply wp_bind. eapply wp_mono; [by apply record_v4_ok|].
  intros [elastic|e|s] w5 [Hd5 Hp5]; [|done..].
  keep_step. { unfold some. keeps_step; [|apply keeps_tx_ret]. keeps_step; [apply assignIPv6_keeps|apply keeps_tx_ret]. } intros v6 w6 Hd6 Hp6.
  apply wp_bind. eapply wp_mono; [eapply (record_v6_ok _ _ (v4_row v4) _ (w_db w)); [by destruct v4|congruence|done]|].
  intros [[]|e|s] w7 [Hd7 Hp7]; [|done..].
  rewrite Hd0 in Hone. eapply wp_mono; [by apply complete_ok|].
  intros [resp|e|s] w8 H8; [|done..]. destruct H8 as [Hv4 H8]. split_and!; [done| |].
  - replace (w_db w1) with (w_db w) in Hsg by congruence.
    destruct (eni_row _ _) as [b|]; [|done]. injection Hsg as <-. eauto.
  - intros [ua [-> Hc]]%H4. exists ua, iface, calls. replace (w_db w) with (w_db w3) by congruence. done.
Qed.
End Assigned.

(** ** Asking for an assignment again *)

(** The response describes the completed assignment [row], on the attachment [a]. *)
Record describes_row (name : string) (resp : AssignIPResponseV3) (row : assignment_row) (a : attachment) (d : db) :
    Prop := DescribesRow {
  ds_in : row ∈ assignments d;
  ds_name : as_assignment_id row = name;
  ds_completed : as_completed row = true;
  ds_attached : a ∈ branch_eni_attachments d;
  ds_association : at_association_id a = Some (as_association row);
  ds_ipv4 : ua_Address <$> rp_Ipv4Address resp = as_ipv4addr row;
  ds_ipv6 : ua_Address <$> rp_Ipv6Address resp = as_ipv6addr row;
  ds_branch : n3_NetworkInterfaceId (rp_Branch resp) = at_branch_eni a;
  ds_trunk : n3_NetworkInterfaceId (rp_Trunk resp) = at_trunk_eni a;
  ds_vlan : rp_VlanId resp = uint32 (at_idx a);
  ds_class : ∃ c, c ∈ htb_classid d ∧ hc_assignment_id c = Some (as_id row) ∧ hc_class_id c = rp_ClassId resp
}.

Definition describes (name : string) (resp : AssignIPResponseV3) (d : db) : Prop :=
  ∃ row a, describes_row name resp row a d.

(** What the fetch may do to the database: it only deletes what is incomplete. *)
Definition fetched (name : string) (del : bool) (d : db) (o : option AssignIPResponseV3) (d' : db) : Prop :=
  match o with
  | Some resp => d' = d ∧ describes name resp d
  | None => d' = d ∨
      (del = true ∧ d' = delete_assignment_name name d ∧
       ∃ r, r ∈ assignments d ∧ as_assignment_id r = name ∧ as_completed r = false)
  end.

Lemma fetched_v4_ok h row subnetID w :
  pending h (eq id) w →
  wp (match as_ipv4addr row with
      | None => mret None
      | Some ip =>
          c ← try (queryRow h (λ d, head (where_ (λ s, bool_decide (sn_subnet_id s = subnetID)) (subnets d))));
          let cidr := match c with inr s => sn_cidr s | inl _ => "" end in
          match ParseCIDR cidr with
          | None => throw (EWrap "Could not parse subnet CIDR" (EString "invalid CIDR address"))
          | Some ones => mret (Some (MkUsableAddress ip (uint32 ones)))
          end
      end)
    (λ r w', (w_db w' = w_db w ∧ pending h (eq id) w') ∧
       match r with Ok v4 => ua_Address <$> v4 = as_ipv4addr row | _ => True end) w.
Proof.
  intros Hp. destruct (as_ipv4addr row) as [ip|]; [|by apply wp_ret].
  apply wp_bind. eapply wp_mono; [by apply wp_try_queryRow_id|]. intros [c|e|s] w1 [[Hd1 Hp1] _]; [|done..].
  simpl. destruct (ParseCIDR _); [by apply wp_ret | by apply wp_throw].
Qed.

Lemma fetchCompletedAssignment_ok h row a w :
  pending h (eq id) w → row ∈ assignments (w_db w) → a ∈ branch_eni_attachments (w_db w) →
  at_association_id a = Some (as_association row) → as_completed row = true →
  wp (fetchCompletedAssignment h row a) (λ r w', w_db w' = w_db w ∧
    match r with Ok resp => describes_row (as_assignment_id row) resp row a (w_db w) | _ => True end) w.
Proof.
  intros Hp Hrow Ha Hassoc Hc.
  keep_step. { by keeps_walk. } intros _ w1 Hd1 Hp1.
  apply wp_bind, wp_wrap, wp_bind. eapply wp_mono; [by apply wp_queryRow_id|].
  intros [b|e|s] w2 [[Hd2 Hp2] Hb]; [|same_db..]. apply wp_bind, wp_scan; [|same_db]. intros bmac _. apply wp_ret.
  apply wp_bind, wp_wrap, wp_bind. eapply wp_mono; [by apply wp_queryRow_id|].
  intros [t|e|s] w3 [[Hd3 Hp3] Ht]; [|same_db..]. apply wp_bind, wp_scan; [|same_db]. intros tmac _. apply wp_ret.
  apply wp_bind. eapply wp_mono; [by apply fetched_v4_ok|]. intros [v4|e|s] w4 [[Hd4 Hp4] H4]; [|same_db..].
  keep_step. { by keeps_walk. } intros e w5 Hd5 Hp5.
  keep_step. { by keeps_walk. } intros elastic w6 Hd6 Hp6.
  apply wp_bind, wp_wrap. eapply wp_mono; [by apply wp_queryRow_id|].
  intros [class|?|?] w7 [[Hd7 Hp7] H7]; [|same_db..].
  apply wp_bind, wp_wrap. eapply wp_mono; [by apply wp_Commit_id|]. intros [[]|?|?] w8 Hd8; [|same_db..].
  apply wp_ret. split; [congruence|].
  apply head_where in Hb as [_ Hb%bool_decide_eq_true], Ht as [_ Ht%bool_decide_eq_true].
  split; simpl; try done.
  - by destruct (as_ipv6addr row).
  - replace (w_db w6) with (w_db w) in H7 by congruence.
    destruct (head _) as [c|] eqn:Ec; [|done]. injection H7 as <-.
    apply head_where in Ec as [? ?%bool_decide_eq_true]. by exists c.
Qed.

Lemma fetchIdempotentAssignment_ok name del w :
  wp (fetchIdempotentAssignment name del)
    (λ r w', match r with Ok o => fetched name del (w_db w) o (w_db w') | _ => w_db w' = w_db w end) w.
Proof.
  apply wp_with_tx, wp_wrap. eapply wp_mono; [apply wp_BeginTx_id|].
  intros [h|e|s] w0 [Hd0 Hp0]; [|done|done]. cbn [w_db close set_txs].
  apply wp_bind. eapply wp_mono; [by apply wp_try_queryRow_id|].
  intros [[e|[row a]]|e|s] w1 [[Hd1 Hp1] H1]; [|rewrite Hd0 in H1|same_db..].
  { destruct e; try (apply wp_throw; same_db). apply wp_ret. left. same_db. }
  apply head_Some_elem_of, elem_of_join in H1 as (Hr & Ha & Hon%bool_decide_eq_true).
  apply elem_of_where in Hr as [Hr Hname%bool_decide_eq_true].
  destruct (as_completed row) eqn:Hc; simpl negb; cbv iota.
  - assert (w_db w1 = w_db w) as E by congruence. rewrite <- E in Hr, Ha.
    apply wp_bind. eapply wp_mono; [by apply (fetchCompletedAssignment_ok h row a)|].
    intros [resp|e|s] w2 [Hd2 H2]; [|same_db..]. apply wp_ret. rewrite Hname, E in *. split; [done|]. by exists row, a.
  - destruct del; [|apply wp_ret; left; same_db].
    apply wp_bind, wp_wrap. eapply wp_mono; [by apply wp_exec_eq|]. intros [[]|e|s] w2 [Hd2 Hp2]; [|same_db..].
    apply wp_bind, wp_wrap. eapply wp_mono; [by apply wp_Commit_eq|]. intros [[]|e|s] w3 Hd3; [|same_db..].
    apply wp_ret. right. split_and!; [done | congruence | by exists row].
Qed.

(** *** The response is the one that was given *)

Lemma count_one {A} (p : A → bool) l : count_where p l = 1%nat → ∃ x, x ∈ l ∧ p x = true.
Proof.
  unfold count_where. intros H. destruct (where_ p l) as [|x l'] eqn:E; [done|]. exists x.
  apply elem_of_where. rewrite E. by left.
Qed.

(** What describes a just completed assignment says what its response said. *)
Lemma describes_completed id trunk resp resp' d d' r :
  assignment_completed id trunk resp d d' →
  r ∈ assignments d → as_id r = id → as_ipv4addr r = None → as_ipv6addr r = None →
  describes (as_assignment_id r) resp' d' →
  ua_Address <$> rp_Ipv4Address resp' = ua_Address <$> rp_Ipv4Address resp ∧
  ua_Address <$> rp_Ipv6Address resp' = ua_Address <$> rp_Ipv6Address resp ∧
  rp_ClassId resp' = rp_ClassId resp.
Proof.
  intros [Hone Has (c & Hc & Hcid & Htb) _ Hs] Hr Hid H4 H6 (row & a & D).
  constraint_of Hs "assignments_allocation_id_uindex" C1.
  constraint_of Hs "htb_classid_assignment_id_uindex" C2.
  constraint_of Hs "htb_classid_trunk_eni_class_id_uindex" C3.
  assert (completed_with resp r ∈ assignments d') as Hin.
  { rewrite Has. apply elem_of_update_where. right. exists r. by rewrite Hid, Z.eqb_refl. }
  assert (row = completed_with resp r) as ->.
  { apply (unique_key as_assignment_id (assignments d')); [done|by destruct D|done|]. by rewrite (ds_name _ _ _ _ _ D). }
  destruct D as [_ _ _ _ _ D4 D6 _ _ _ (c' & Hc' & Ha' & Hcid')]. simpl in *. rewrite H4 in D4. rewrite H6 in D6.
  rewrite Hid in Ha'. split_and!.
  - rewrite D4. by destruct (rp_Ipv4Address resp).
  - rewrite D6. by destruct (rp_Ipv6Address resp).
  - rewrite <- Hcid', <- Hcid. apply elem_of_where in Hc as [Hc _].
    replace (hc_class_id c) with (hc_class_id (HtbClassRow (hc_id c) (hc_trunk_eni c) (Some id) (hc_class_id c))) by done.
    f_equal. apply (unique_nullable_key (λ r, (hc_trunk_eni r, hc_class_id r)) hc_assignment_id (htb_classid d') _ _ id);
      [done|done|done| |done|done].
    rewrite Htb. apply elem_of_update_where. right. exists c. by rewrite Z.eqb_refl.
Qed.

(** ** A request from beginning to end *)

Section Request.
Context (ec2 : ec2_oracle).

(** An assignment that was ready and is completed is described by the response. *)
Lemma completed_describes greq ass trunk resp d d' :
  assignment_ready greq ass d → rq_trunkENI greq = trunk →
  n3_NetworkInterfaceId (rp_Branch resp) = eni_id (assigned_branch ass) →
  n3_NetworkInterfaceId (rp_Trunk resp) = trunk → rp_VlanId resp = uint32 (eni_idx (assigned_branch ass)) →
  assignment_completed (assignmentID ass) trunk resp d d' →
  describes (rq_assignmentID greq) resp d'.
Proof.
  intros [Hn _ Hrow (b & t & _ & Ht & _ & Hbe & Hassoc & _ & Htr & _ & _ & _ & Hidx & _)] <- Hbr Htk Hv
    [_ Has (c & Hc & Hcid & Htb) Hat _].
  set (row := AssignmentRow _ _ _ _ _ _) in Hrow. exists (completed_with resp row), t.
  split; simpl; try done; try congruence.
  - rewrite Has. apply elem_of_update_where. right. eexists. split; [exact Hrow|]. by rewrite Z.eqb_refl.
  - apply elem_of_where in Hc as [Hc _].
    exists (HtbClassRow (hc_id c) (hc_trunk_eni c) (Some (assignmentID ass)) (hc_class_id c)). split_and!; [|done|done].
    rewrite Htb. apply elem_of_update_where. right. exists c. by rewrite Z.eqb_refl.
Qed.

(** What [assignIPsToENI] answers of the ENIs does not depend on the run. *)
Lemma assignIPsToENI_enis req ass max i trunk w :
  wp (assignIPsToENI ec2 req ass max i trunk)
    (λ r _, match r with
      | Ok resp => n3_NetworkInterfaceId (rp_Branch resp) = eni_id (assigned_branch ass) ∧
                   n3_NetworkInterfaceId (rp_Trunk resp) = in_NetworkInterfaceId trunk ∧
                   rp_VlanId resp = uint32 (eni_idx (assigned_branch ass))
      | _ => True end) w.
Proof.
  apply wp_with_tx. eapply wp_mono; [apply wp_true|]. intros [h|e|s] w0 _; [|done..].
  do 2 wp_skip. case_match; [done|]. wp_skip. case_match; [done|]. case_match; [done|].
  do 9 wp_skip. done.
Qed.

Lemma AssignNewIPV3_ok fuel req id region account w :
  wp (AssignNewIPV3 ec2 fuel req id region account)
    (λ r w', match r with
      | Ok resp => describes (TaskId req) resp (w_db w') ∧ schema_ok (w_db w')
      | _ => True end) w.
Proof.
  unfold AssignNewIPV3. apply wp_bind. eapply wp_mono; [apply wp_true|].
  intros [[i trunk]|e|s] w1 _; [|done..]. do 4 wp_skip.
  apply wp_bind. eapply wp_mono; [apply generateAssignmentID_ok|]. intros [ass|e|s] w2 H2; [|done..]. destruct H2 as [H2 _].
  eapply wp_mono; [apply wp_conj; [apply assignIPsToENI_ok|apply assignIPsToENI_enis]|].
  intros [resp|e|s] w3 H3; [|done..]. destruct H3 as [(Hc & _ & _) (Hb & Ht & Hv)]. split; [|apply Hc].
  exact (completed_describes _ ass (in_NetworkInterfaceId trunk) resp _ _ H2 eq_refl Hb Ht Hv Hc).
Qed.

Lemma AssignIPV3_ok fuel req w :
  schema_ok (w_db w) →
  wp (AssignIPV3 ec2 fuel req)
    (λ r w', match r with
      | Ok resp => describes (TaskId req) resp (w_db w') ∧ schema_ok (w_db w')
      | _ => True end) w.
Proof.
  intros Hs. unfold AssignIPV3. destruct (InstanceIdentity req) as [[[id region] account]|]; [|done].
  do 2 (case_bool_decide; [done|]). destruct (SecurityGroupIds req); [done|]. apply wp_bind.
  destruct (Idempotent req); [apply wp_wrap|apply wp_ret, AssignNewIPV3_ok].
  eapply wp_mono; [apply fetchIdempotentAssignment_ok|]. intros [[resp|]|e|msg] w1 H1; [|apply AssignNewIPV3_ok|done..].
  apply wp_ret. destruct H1 as [-> H1]. done.
Qed.
End Request.

(** ** Theorems *)

(** C2: The response of a successful [AssignIPV3],
    idempotent or not, describes the committed database: there is a completed
    assignment of the task, on an attachment of the reported branch ENI to the
    reported trunk ENI at the reported VLAN, with the reported addresses, and the
    reported HTB class is the one taken for it.  The constraints of the schema
    hold, so no other assignment of that ENI has one of the addresses. *)
Theorem AssignIPV3_describes ec2 fuel req w resp w' :
  schema_ok (w_db w) → AssignIPV3 ec2 fuel req w = (Ok resp, w') →
  describes (TaskId req) resp (w_db w') ∧ schema_ok (w_db w').
Proof. intros Hs E. apply (wp_elim _ _ _ _ _ (AssignIPV3_ok ec2 fuel req w Hs) E). Qed.

(** A whole [AssignIPV3] request moves the
    attachments only along their state machine, whatever EC2 answers, whatever
    fails, and also when it ends in an error. *)
Theorem AssignIPV3_follows_state_machine ec2 fuel req w r w' :
  machine_sane w → AssignIPV3 ec2 fuel req w = (r, w') →
  attachments_evolve (w_db w) (w_db w') ∧ attachments_wf (w_db w') ∧ schema_ok (w_db w').
Proof.
  intros Hw E. destruct (wp_elim _ _ _ _ _ (AssignIPV3_follows ec2 fuel req w Hw) E) as [? [] ? ?]. done.
Qed.

(** C22: [assignIPsToENI] is all or nothing.  On success
    the one row of the assignment is completed with the addresses of the
    response, a free HTB class of the trunk is taken, the other assignments and
    the attachments are as before, and the ENI had the requested security groups.
    On an error or a panic the database is as before, although addresses may have
    been requested from EC2. *)
Theorem assignIPsToENI_atomic ec2 req ass max i trunk w r w' :
  assignIPsToENI ec2 req ass max i trunk w = (r, w') →
  match r with
  | Ok resp =>
      assignment_completed (assignmentID ass) (in_NetworkInterfaceId trunk) resp (w_db w) (w_db w') ∧
      ∃ b, eni_row (eni_id (assigned_branch ass)) (w_db w) = Some b ∧
           same_set (be_security_groups b) (SecurityGroupIds req) = true
  | _ => w_db w' = w_db w
  end.
Proof.
  intros E. pose proof (wp_elim _ _ _ _ _ (assignIPsToENI_ok ec2 req ass max i trunk w) E) as H.
  destruct r; [|done..]. by destruct H as (? & ? & _).
Qed.

(** C28: The dynamic IPv4 address that is
    picked is an address of the ENI that no assignment of its association has and
    that is not statically allocated in its subnet, and of those one that was
    unused for the longest time; or there is no such address, and it is one that
    EC2 answered with to a request for at most four addresses that keeps the ENI
    within its maximum, and not statically allocated either.  Its prefix length
    is that of the subnet. *)
Theorem assignArbitraryIPv4AddressV3_choice ec2 h eni max ass w ua w' :
  assignArbitraryIPv4AddressV3 ec2 h eni max ass w = (Ok ua, w') →
  ∃ g prefix, w_txs w !! h = Some (Some g) ∧
    ParseCIDR (su_cidr (assigned_subnet ass)) = Some prefix ∧ PrefixLength ua = uint32 prefix ∧
    address_choice ec2 eni max (eni_associationID (assigned_branch ass)) (g (w_db w)) (ua_Address ua).
Proof. intros E. apply (wp_elim _ _ _ _ _ (assignArbitraryIPv4AddressV3_ok ec2 h eni max ass w) E). Qed.

(** [fetchIdempotentAssignment] answers
    with a description of a completed assignment and changes nothing, or answers
    that there is none, having deleted the assignment only when asked to and only
    when it was not completed; an error changes nothing. *)
Theorem fetchIdempotentAssignment_fetches name del w r w' :
  fetchIdempotentAssignment name del w = (r, w') →
  match r with Ok o => fetched name del (w_db w) o (w_db w') | _ => w_db w' = w_db w end.
Proof. intros E. apply (wp_elim _ _ _ _ _ (fetchIdempotentAssignment_ok name del w) E). Qed.

(** Asking again for an assignment that was just
    completed gives back the same addresses and the same HTB class. *)
Theorem assign_fetch_round_trip ec2 req ass max i trunk w resp w' r del v resp' v' :
  assignIPsToENI ec2 req ass max i trunk w = (Ok resp, w') →
  r ∈ assignments (w_db w) → as_id r = assignmentID ass → as_ipv4addr r = None → as_ipv6addr r = None →
  w_db v = w_db w' → fetchIdempotentAssignment (as_assignment_id r) del v = (Ok (Some resp'), v') →
  ua_Address <$> rp_Ipv4Address resp' = ua_Address <$> rp_Ipv4Address resp ∧
  ua_Address <$> rp_Ipv6Address resp' = ua_Address <$> rp_Ipv6Address resp ∧
  rp_ClassId resp' = rp_ClassId resp.
Proof.
  intros E Hr Hid H4 H6 Hv E'.
  destruct (wp_elim _ _ _ _ _ (assignIPsToENI_ok ec2 req ass max i trunk w) E) as (Hc & _).
  destruct (wp_elim _ _ _ _ _ (fetchIdempotentAssignment_ok _ del v) E') as [_ Hd]. rewrite Hv in Hd.
  by eapply describes_completed.
Qed.

(** A request without an instance, a task or security
    groups is answered with [InvalidArgument], and neither the database nor EC2 is
    touched. *)
Theorem AssignIPV3_validates ec2 fuel req w :
  (∀ id region account, InstanceIdentity req = Some (id, region, account) → id = "") ∨
  TaskId req = "" ∨ SecurityGroupIds req = [] →
  ∃ msg, AssignIPV3 ec2 fuel req w = (Fail (EStatus InvalidArgument msg), w).
Proof.
  intros H. unfold AssignIPV3. destruct (InstanceIdentity req) as [[[id region] account]|]; [|by eexists].
  destruct (decide (id = "")) as [->|Hid]; [by eexists|]. rewrite bool_decide_eq_false_2 by done.
  destruct (decide (TaskId req = "")) as [->|Ht]; [by eexists|]. rewrite bool_decide_eq_false_2 by done.
  destruct (SecurityGroupIds req); [by eexists|]. destruct H as [H|[H|H]]; [|done|done].
  by destruct Hid; eapply H.
Qed.
