(* ===== verification/UnassignV3.v ===== *)
(** * UnassignV3: taking a container's addresses back

    Models [UnassignIPV3] of [vpc/service/assign_addresses_v3.go] with
    [unassignStaticAddress] and [unassignElasticAddress].  Each of the three runs
    a transaction of its own, so an error of the last one leaves what the
    second one committed. *)
From S2P Require Import Prelude Errors Schema Service Logic BranchEni GenerateAssignment AssignV3.

Open Scope string_scope.
Open Scope Z_scope.
Open Scope list_scope.

(** ** Operations *)

(** [FROM ip_address_attachments JOIN ip_addresses .. JOIN assignments .. JOIN branch_eni_attachments ..
    JOIN branch_enis .. WHERE assignment_id = $1] *)
Definition static_attachments (name : string) (d : db) : list (branch_eni_row * ip_address_row) :=
  ia ← where_ (λ r, bool_decide (ia_assignment_id r = name)) (ip_address_attachments d);
  ip ← where_ (λ r, bool_decide (ia_ip_address_uuid ia = ip_id r)) (ip_addresses d);
  r ← where_ (λ r, bool_decide (ia_assignment_id ia = as_assignment_id r)) (assignments d);
  a ← where_ (λ a, oeqb (at_association_id a) (as_association r)) (branch_eni_attachments d);
  b ← where_ (λ b, bool_decide (at_branch_eni a = be_branch_eni b)) (branch_enis d);
  [(b, ip)].

(** [FROM branch_enis JOIN branch_eni_attachments ON .. WHERE association_id = $1] *)
Definition association_enis (association : string) (d : db) : list (branch_eni_row * attachment) :=
  join (branch_enis d) (where_ (λ a, oeqb (at_association_id a) association) (branch_eni_attachments d))
    (λ b a, bool_decide (at_branch_eni a = be_branch_eni b)).

Definition delete_elastic_attachment (id : Z) (d : db) : db :=
  set_elastic_ip_attachments (where_ (λ r, negb (ea_id r =? id)) (elastic_ip_attachments d)) d.

Definition record_last_used (t : Z) (vpc ip : string) (d : db) : db :=
  set_ip_last_used_v3 (upsert_last_used t vpc ip (ip_last_used_v3 d)) d.

(** The ENI of an association, for the subquery of an [INSERT]. *)
Definition association_eni (association : string) (d : db) : option string :=
  at_branch_eni <$> head (where_ (λ a, oeqb (at_association_id a) association) (branch_eni_attachments d)).

Section WithEC2.
Context (ec2 : ec2_oracle).

(** The address is moved to the branch ENI it was assigned to, although the
    query also reads the home ENI of the allocation. *)
Definition unassignStaticAddress (assignmentID : string) : M bool :=
  with_tx (wrap_status Unknown "Could not start database transaction" BeginTx) (λ h,
    r ← try (queryRow h (λ d, head (static_attachments assignmentID d)));
    match r with
    | inl ENoRows => mret false
    | inl e => throw (EWrap "Cannot query assignment for static addresses" e)
    | inr (b, ip) =>
        _ ← wrap "Cannot get AWS session"
              (GetSessionFromAccountAndRegion ec2 (be_account_id b) (azToRegion (be_az b)));
        r ← try (session_AssignPrivateIPAddresses ec2
                   (AssignPrivateIps (be_branch_eni b) [ip_ip_address ip] true));
        match r with
        | inl e => throw (HandleEC2Error e)
        | inr _ =>
            _ ← wrap "Cannot delete assignment from assignments table"
                  (exec h (delete_assignment_name assignmentID));
            _ ← wrap "Could not commit transaction" (Commit h);
            mret true
        end
    end).

(** [err.(awserr.Error)] of the error of [DisassociateAddress] *)
Definition tolerated (e : error) : bool :=
  match e with EAws a => bool_decide (aws_Code a = InvalidAssociationIDNotFound) | _ => false end.

Definition unassignElasticAddress (assignmentID : string) : M unit :=
  with_tx (wrap_status Unknown "Could not start database transaction" BeginTx) (λ h,
    r ← try (x ← queryRow h (λ d, head (elastic_of assignmentID d));
             assoc ← scan (ea_association_id x.1);
             mret (x.1, x.2, assoc));
    match r with
    | inl ENoRows => mret tt
    | inl e => throw (EWrap "Could not scan elastic IP associations" e)
    | inr (ea, ei, assoc) =>
        _ ← wrap "Cannot get AWS session" (GetSessionFromAccountAndRegion ec2 (ei_account_id ei) (ei_region ei));
        r ← try (session_DisassociateAddress ec2 assoc);
        _ ← match r with
            | inl e => if tolerated e then mret tt else throw (HandleEC2Error e)
            | inr _ => mret tt
            end;
        _ ← wrap "Cannot delete elastic ip attachment from elastic ip attachments table"
              (exec h (delete_elastic_attachment (ea_id ea)));
        wrap "Could not commit transaction" (Commit h)
    end).

Definition record_address (h : tx) (t : Z) (vpc msg : string) (ip : option string) : M unit :=
  match ip with
  | Some ip => wrap_status Unknown msg (exec h (record_last_used t vpc ip))
  | None => mret tt
  end.

Definition deleteAssignment (taskId : string) : M unit :=
  with_tx (wrap_status Unknown "Could not start database transaction" BeginTx) (λ h,
    r ← try (exec_at h (λ _, delete_assignment_name taskId)
               (λ d0, head (where_ (λ r, bool_decide (as_assignment_id r = taskId)) (assignments d0))));
    match r with
    | inl ENoRows | inr None =>
        throw (EStatus NotFound ("Could not find assignment ID " +:+ taskId +:+ " in the database"))
    | inl _ => throw (EStatus Unknown "Could not delete assignment from database")
    | inr (Some r) =>
        x ← wrap_status Unknown "Could not get VPC ID from database"
              (queryRow h (λ d, head (association_enis (as_association r) d)));
        t ← now;
        _ ← record_address h t (be_vpc_id x.1) "Could not update IPv4 last used in database" (as_ipv4addr r);
        _ ← record_address h t (be_vpc_id x.1) "Could not update IPv6 last used in database" (as_ipv6addr r);
        _ ← wrap_status Unknown "Could not update branch eni last used in database"
              (o ← exec_at h
                 (λ d0 d, match association_eni (as_association r) d0 with
                          | Some eni => set_branch_eni_last_used
                                          (upsert_eni_last_used t eni (branch_eni_last_used d)) d
                          | None => d
                          end)
                 (association_eni (as_association r));
               match o with Some _ => mret tt | None => throw (EPq "not_null_violation" "") end);
        wrap_status Unknown "Could not commit" (Commit h)
    end).

Definition UnassignIPV3 (taskId : string) : M unit :=
  unassigned ← unassignStaticAddress taskId;
  if unassigned : bool then mret tt
  else
    _ ← unassignElasticAddress taskId;
    deleteAssignment taskId.
End WithEC2.

(** ** The attachments stay as they are *)

Section Follows.
Context (ec2 : ec2_oracle).

Lemma UnassignIPV3_follows taskId : keeps_machine (UnassignIPV3 ec2 taskId).
Proof.
  unfold UnassignIPV3, unassignStaticAddress, unassignElasticAddress, deleteAssignment, record_address,
    GetSessionFromAccountAndRegion, session_AssignPrivateIPAddresses, session_DisassociateAddress.
  preserves_walk; apply evolve_frame; try done. by destruct (association_eni _ _).
Qed.
End Follows.

(** ** What is released *)

Definition other {A} (f : A → string) (name : string) (x : A) : bool := negb (bool_decide (f x = name)).

(** Nothing of the assignment [name] is left, and everything of the others is. *)
Record released (name : string) (d d' : db) : Prop := Released {
  rl_was : ∃ r, r ∈ assignments d ∧ as_assignment_id r = name;
  rl_assignments : assignments d' = where_ (other as_assignment_id name) (assignments d);
  rl_static : ip_address_attachments d' = where_ (other ia_assignment_id name) (ip_address_attachments d);
  rl_elastic : elastic_ip_attachments d' = where_ (other ea_assignment_id name) (elastic_ip_attachments d);
  rl_classes : ∀ r c, r ∈ assignments d → as_assignment_id r = name → c ∈ htb_classid d' →
                 hc_assignment_id c ≠ Some (as_id r);
  rl_attachments : branch_eni_attachments d' = branch_eni_attachments d
}.

Lemma where_ext {A} (p q : A → bool) l : (∀ x, x ∈ l → p x = q x) → where_ p l = where_ q l.
Proof.
  intros H. apply List.filter_ext_in. intros x Hx. apply H. by apply list_elem_of_In.
Qed.

Lemma where_where {A} (p q : A → bool) l :
  (∀ x, x ∈ l → p x = true → q x = true) → where_ p (where_ q l) = where_ p l.
Proof.
  intros H. induction l as [|a l IH]; [done|]. assert (∀ x, x ∈ l → p x = true → q x = true) as Hl
    by (intros; apply H; [by right|done]). simpl. destruct (q a) eqn:Eq; simpl; rewrite IH by done; [done|].
  destruct (p a) eqn:Ep; [|done]. by rewrite H in Eq by (done || by left).
Qed.

Lemma names_of_deleted name x d :
  (∃ r, r ∈ assignments d ∧ as_assignment_id r = name) →
  x ∈ as_assignment_id <$> where_ (λ r, bool_decide (as_assignment_id r = name)) (assignments d) ↔ x = name.
Proof.
  intros (r & Hr & Hn). rewrite list_elem_of_fmap. split.
  - by intros (r' & -> & [_ ?%bool_decide_eq_true]%elem_of_where).
  - intros ->. exists r. split; [done|]. apply elem_of_where. by rewrite bool_decide_eq_true_2.
Qed.

Lemma delete_assignment_released name d :
  (∃ r, r ∈ assignments d ∧ as_assignment_id r = name) → released name d (delete_assignment_name name d).
Proof.
  intros Hex. split; [done|done| | | |done].
  - apply where_ext. intros x _. unfold other. f_equal. apply bool_decide_ext. by apply names_of_deleted.
  - apply where_ext. intros x _. unfold other. f_equal. apply bool_decide_ext. by apply names_of_deleted.
  - intros r c Hr Hn Hc Ha. simpl in Hc. apply elem_of_update_where in Hc as [[_ Hc]|(c' & _ & _ & ->)]; [|done].
    rewrite Ha, bool_decide_eq_false in Hc. apply Hc. apply list_elem_of_fmap. exists r. split; [done|].
    apply elem_of_where. by rewrite bool_decide_eq_true_2.
Qed.

(** The same when the elastic IP was disassociated before. *)
Lemma released_elastic name ea d d' :
  schema_ok d → ea ∈ elastic_ip_attachments d → ea_assignment_id ea = name →
  released name (delete_elastic_attachment (ea_id ea) d) d' → released name d d'.
Proof.
  intros Hs Hea Hn [Hw Ha Hst He Hc Hat]. split; try done.
  rewrite He. simpl. apply where_where. intros x Hx Ho. rewrite negb_true_iff, Z.eqb_neq. intros E.
  constraint_of Hs "elastic_ip_attachments_pk" C. apply (unique_key ea_id _ x ea) in C; [|done..].
  subst x. unfold other in Ho. by rewrite bool_decide_eq_true_2 in Ho.
Qed.

Lemma upsert_last_used_in t vpc ip l : IpLastUsedRow ip vpc t ∈ upsert_last_used t vpc ip l.
Proof.
  unfold upsert_last_used. destruct (existsb _ l) eqn:E.
  - apply existsb_exists in E as (x & Hx%list_elem_of_In & Hs). apply elem_of_update_where. right. eauto.
  - apply elem_of_app. right. by left.
Qed.

Lemma upsert_last_used_keeps t vpc ip ip' l :
  IpLastUsedRow ip vpc t ∈ l → IpLastUsedRow ip vpc t ∈ upsert_last_used t vpc ip' l.
Proof.
  intros H. unfold upsert_last_used. destruct (existsb _ l); [|apply elem_of_app; by left].
  apply elem_of_update_where. destruct (decide (ip = ip')) as [<-|].
  - right. exists (IpLastUsedRow ip vpc t). by rewrite bool_decide_eq_true_2.
  - left. split; [done|]. apply bool_decide_eq_false. by intros [? ?].
Qed.

Definition last_used_now (vpc : string) (t : Z) (ip : option string) (d : db) : Prop :=
  ∀ a, ip = Some a → IpLastUsedRow a vpc t ∈ ip_last_used_v3 d.

(** The pending writes of [deleteAssignment] once the row is gone. *)
Record deleted (name : string) (g : db → db) : Prop := Deleted {
  dl_assignments d : assignments (g d) = assignments (delete_assignment_name name d);
  dl_static d : ip_address_attachments (g d) = ip_address_attachments (delete_assignment_name name d);
  dl_elastic d : elastic_ip_attachments (g d) = elastic_ip_attachments (delete_assignment_name name d);
  dl_classes d : htb_classid (g d) = htb_classid (delete_assignment_name name d);
  dl_attachments d : branch_eni_attachments (g d) = branch_eni_attachments d
}.

Lemma deleted_released name g d :
  deleted name g → (∃ r, r ∈ assignments d ∧ as_assignment_id r = name) → released name d (g d).
Proof.
  intros [H1 H2 H3 H4 H5] Hex. destruct (delete_assignment_released name d Hex) as [? ? ? ? Hc ?].
  split; [done|congruence|congruence|congruence| |done]. intros r c Hr Hn. rewrite H4. by apply Hc.
Qed.

Lemma record_address_ok h name t vpc msg ip (P : db → Prop) w :
  (∀ d a, P d → P (record_last_used t vpc a d)) →
  pending h (λ g, deleted name g ∧ ∀ d, P (g d)) w →
  wp (record_address h t vpc msg ip) (λ r w', w_db w' = w_db w ∧
    match r with
    | Ok _ => pending h (λ g, deleted name g ∧ ∀ d, P (g d) ∧ last_used_now vpc t ip (g d)) w'
    | _ => True
    end) w.
Proof.
  intros HP Hp. unfold record_address. destruct ip as [a|].
  - apply wp_wrap_status. eapply wp_mono; [eapply wp_exec_pending; [done|]|].
    + intros g [[? ? ? ? ?] Hg]. instantiate (1 := λ g, deleted name g ∧ ∀ d, P (g d) ∧ last_used_now vpc t (Some a) (g d)).
      split; [done|]. intros d. split; [by apply HP|]. intros a' [= <-]. apply upsert_last_used_in.
    + by intros [] w' [].
  - apply wp_ret. split; [done|]. eapply pending_mono; [done|]. intros g [Hg HP']. split; [done|]. intros d. by split.
Qed.

(** The addresses of the assignment are recorded as used now, in the VPC of
    its ENI, so that they are the last ones to be given out again. *)
Definition addresses_recorded (name : string) (d d' : db) : Prop :=
  ∃ r vpc t, r ∈ assignments d ∧ as_assignment_id r = name ∧
    last_used_now vpc t (as_ipv4addr r) d' ∧ last_used_now vpc t (as_ipv6addr r) d'.

Lemma deleteAssignment_ok taskId w :
  wp (deleteAssignment taskId)
    (λ r w', match r with
      | Ok _ => released taskId (w_db w) (w_db w') ∧ addresses_recorded taskId (w_db w) (w_db w')
      | _ => w_db w' = w_db w
      end) w.
Proof.
  apply wp_with_tx, wp_wrap_status. eapply wp_mono; [apply wp_BeginTx_id|].
  intros [h|e|s] w0 [Hd0 Hp0]; [|done|done]. cbn [w_db close set_txs].
  apply wp_bind, wp_try. eapply wp_mono; [apply wp_exec_at_any|].
  intros [o|e|s] w1 [Hd1 H1]; [|destruct e; apply wp_throw; same_db|done].
  destruct H1 as (g & Hg & -> & Hg1). rewrite <- (Hp0 g Hg) in *. unfold id in *. rewrite Hd0 in *.
  destruct (head _) as [r|] eqn:Hr; [|apply wp_throw; same_db].
  apply head_where in Hr as [Hr Hn%bool_decide_eq_true].
  assert (pending h (λ g, deleted taskId g ∧ ∀ d : db, True) w1) as Hp1 by (intros g2 Hg2; by simplify_eq).
  apply wp_bind, wp_wrap_status. eapply wp_mono; [apply keeps_tx_queryRow, Hp1|].
  intros [x|e|s] w2 [Hd2 Hp2]; [|same_db..]. apply wp_bind, wp_now.
  apply wp_bind. eapply wp_mono; [by eapply (record_address_ok _ _ _ _ _ _ (λ _, True))|].
  intros [[]|e|s] w3 [Hd3 Hp3]; [|same_db..].
  apply wp_bind. eapply wp_mono.
  { eapply (record_address_ok _ _ _ _ _ _ (λ d, True ∧ last_used_now _ _ (as_ipv4addr r) d)); [|exact Hp3].
    intros d a [_ H]. split; [done|]. intros a' Ha'. by apply upsert_last_used_keeps, H. }
  intros [[]|e|s] w4 [Hd4 Hp4]; [|same_db..].
  eapply wp_keeps; [|exact Hp4|same_db|same_db|].
  { keeps_walk; cbn beta; destruct (association_eni _ _); try done;
      match goal with H : deleted _ _ ∧ _ |- _ => destruct H as [[]] end; done. }
  intros _ w5 Hd5 Hp5. apply wp_wrap_status. eapply wp_mono; [apply wp_Commit_any|].
  intros [[]|e|s] w6 H6; [|same_db..]. destruct H6 as (g6 & Hg6 & Hd6 & _).
  destruct (Hp5 _ Hg6) as [Hdel Hlast]. assert (w_db w5 = w_db w) as E by same_db. rewrite E in Hd6. split.
  - rewrite Hd6. apply deleted_released; [done|]. by exists r.
  - destruct (Hlast (w_db w)) as [[_ H4] H6]. rewrite <- Hd6 in *. by eexists r, _, _.
Qed.

Section Unassign.
Context (ec2 : ec2_oracle).

Lemma unassignStaticAddress_ok name w :
  wp (unassignStaticAddress ec2 name)
    (λ r w', match r with
      | Ok true => released name (w_db w) (w_db w') ∧ static_attachments name (w_db w) ≠ []
      | _ => w_db w' = w_db w
      end) w.
Proof.
  apply wp_with_tx, wp_wrap_status. eapply wp_mono; [apply wp_BeginTx_id|].
  intros [h|e|s] w0 [Hd0 Hp0]; [|done|done]. cbn [w_db close set_txs].
  apply wp_bind. eapply wp_mono; [by apply wp_try_queryRow_id|].
  intros [[e|[b ip]]|e|s] w1 [[Hd1 Hp1] H1]; [|rewrite Hd0 in H1|same_db..].
  { destruct e; first [apply wp_throw; same_db | apply wp_ret; same_db]. }
  keep_step. { by keeps_walk. } intros _ w2 Hd2 Hp2.
  keep_step. { unfold session_AssignPrivateIPAddresses. by keeps_walk. } intros [e|l] w3 Hd3 Hp3.
  { apply wp_throw. same_db. }
  apply wp_bind, wp_wrap. eapply wp_mono; [by apply wp_exec_eq|]. intros [[]|e|s] w4 [Hd4 Hp4]; [|same_db..].
  apply wp_bind, wp_wrap. eapply wp_mono; [by apply wp_Commit_eq|]. intros [[]|e|s] w5 Hd5; [|same_db..].
  apply wp_ret. assert (w_db w4 = w_db w) as E by same_db. rewrite Hd5, E. split.
  - apply delete_assignment_released. apply head_Some_elem_of in H1. unfold static_attachments in H1.
    repeat match type of H1 with
    | _ ∈ _ ≫= _ => let x := fresh "x" in let Hx := fresh "Hx" in apply list_elem_of_bind in H1 as (x & H1 & Hx);
                      apply elem_of_where in Hx as [Hx ?%bool_decide_eq_true]
    end. exists x1. split; [done|congruence].
  - by destruct (static_attachments name (w_db w)).
Qed.

Lemma unassignElasticAddress_ok name w :
  wp (unassignElasticAddress ec2 name)
    (λ r w', w_db w' = w_db w ∨
       ∃ ea, ea ∈ elastic_ip_attachments (w_db w) ∧ ea_assignment_id ea = name ∧
             w_db w' = delete_elastic_attachment (ea_id ea) (w_db w)) w.
Proof.
  apply wp_with_tx, wp_wrap_status. eapply wp_mono; [apply wp_BeginTx_id|].
  intros [h|e|s] w0 [Hd0 Hp0]; [|by left|by left]. cbn [w_db close set_txs].
  apply wp_bind, wp_try, wp_bind. eapply wp_mono; [by apply wp_queryRow_id|].
  intros [[ea ei]|e|s] w1 [[Hd1 Hp1] H1]; [|destruct e; first [apply wp_throw | apply wp_ret]; left; same_db|left; same_db].
  apply wp_bind, wp_scan; [|intros _; apply wp_throw; left; same_db]. intros assoc _. apply wp_ret.
  apply head_Some_elem_of, elem_of_join in H1 as (Hea & _ & _). rewrite Hd0 in Hea.
  apply elem_of_where in Hea as [Hea Hn%bool_decide_eq_true].
  eapply wp_keeps; [|exact Hp1|left; same_db|left; same_db|]. { by keeps_walk. } intros _ w2 Hd2 Hp2.
  eapply wp_keeps; [|exact Hp2|left; same_db|left; same_db|].
  { unfold session_DisassociateAddress. by keeps_walk. } intros r w3 Hd3 Hp3.
  eapply wp_keeps; [|exact Hp3|left; same_db|left; same_db|]. { by keeps_walk. } intros _ w4 Hd4 Hp4.
  apply wp_bind, wp_wrap. eapply wp_mono; [by apply wp_exec_eq|]. intros [[]|e|s] w5 [Hd5 Hp5]; [|left; same_db..].
  apply wp_wrap. eapply wp_mono; [by apply wp_Commit_eq|]. intros [[]|e|s] w6 Hd6; [|left; same_db..].
  right. exists ea. split_and!; [done|done|]. simpl in Hd6. rewrite Hd6. f_equal. same_db.
Qed.

(** What is left of an assignment after an error: at most its elastic IP is gone. *)
Definition assignment_left (name : string) (d d' : db) : Prop :=
  d' = d ∨ ∃ ea, ea ∈ elastic_ip_attachments d ∧ ea_assignment_id ea = name ∧
                 d' = delete_elastic_attachment (ea_id ea) d.

Lemma UnassignIPV3_ok taskId w :
  schema_ok (w_db w) →
  wp (UnassignIPV3 ec2 taskId)
    (λ r w', match r with
      | Ok _ => released taskId (w_db w) (w_db w') ∧
                (static_attachments taskId (w_db w) ≠ [] ∨ addresses_recorded taskId (w_db w) (w_db w'))
      | _ => assignment_left taskId (w_db w) (w_db w')
      end) w.
Proof.
  intros Hs. apply wp_bind. eapply wp_mono; [apply unassignStaticAddress_ok|].
  intros [[]|e|s] w1 H1; [|simpl in H1|by left|by left].
  { apply wp_ret. naive_solver. }
  apply wp_bind. eapply wp_mono; [apply unassignElasticAddress_ok|]. rewrite H1.
  intros [[]|e|s] w2 H2; [|done|done]. eapply wp_mono; [apply deleteAssignment_ok|].
  destruct H2 as [->|(ea & Hea & Hn & ->)].
  - intros [[]|e|s] w3 H3; [|by left|by left]. naive_solver.
  - intros [[]|e|s] w3 H3; [|right; by exists ea..]. destruct H3 as [H3 H4]. split.
    + by eapply released_elastic.
    + right. done.
Qed.
End Unassign.

(** ** Theorems *)


(** When [UnassignIPV3] fails, at most
    the elastic IP of the task was taken back: every assignment, its addresses
    and its HTB class are as before, so the request can be made again. *)
Theorem UnassignIPV3_error_keeps_assignment ec2 taskId w e w' :
  schema_ok (w_db w) → UnassignIPV3 ec2 taskId w = (Fail e, w') →
  assignment_left taskId (w_db w) (w_db w').
Proof. intros Hs E. apply (wp_elim _ _ _ _ _ (UnassignIPV3_ok ec2 taskId w Hs) E). Qed.

(** [UnassignIPV3] keeps the attachments
    of ENIs within their state machine and the constraints of the schema. *)
Theorem UnassignIPV3_follows_state_machine ec2 taskId w r w' :
  machine_sane w → UnassignIPV3 ec2 taskId w = (r, w') →
  attachments_evolve (w_db w) (w_db w') ∧ attachments_wf (w_db w') ∧ schema_ok (w_db w').
Proof.
  intros Hw E. destruct (wp_elim _ _ _ _ _ (UnassignIPV3_follows ec2 taskId w Hw) E) as [? [] ? ?]. done.
Qed.
