(* ===== verification/LongLivedLock.v ===== *)
(** * LongLivedLock: leases for the background tasks

    Models [vpc/service/long_lived_lock.go].  A background task of the service runs
    on one host at a time, the one that holds the row of the task in
    [long_lived_locks]: [tryToAcquireLock] takes a row whose time is over,
    [tryToHoldLock] prolongs it, [PreemptLock] and [DeleteLock] are for operators.

    Several hosts run these operations against the same database; [system_step]
    interleaves them, each being one atomic statement of the database.  Time is
    in seconds and only passes between the operations. *)
From S2P Require Import Prelude Errors Schema Service Logic.

Open Scope string_scope.
Open Scope Z_scope.
Open Scope list_scope.

(** ** Operations *)

Definition lockTime : Z := 30.

Record Lock := MkLock { lock_Id : Z; lock_LockName : string; lock_HeldBy : string; lock_HeldUntil : Z }.

(** [held_by] is scanned into a Go string. *)
Definition scanLock (l : lock_row) : M Lock :=
  held_by ← scan (lk_held_by l);
  mret (MkLock (lk_id l) (lk_name l) held_by (lk_held_until l)).

Fixpoint scanLocks (ls : list lock_row) : M (list Lock) :=
  match ls with
  | [] => mret []
  | l :: ls =>
      lock ← scanLock l;
      locks ← scanLocks ls;
      mret (lock :: locks)
  end.

Definition GetLocks : M (list Lock) :=
  with_tx (wrap "Could not start database transaction" BeginTx) (λ h,
    rows ← query h (λ d, take 1000 (long_lived_locks d));
    scanLocks rows).

Definition GetLock (id : Z) : M Lock :=
  r ← try (l ← db_queryRow (λ d, head (where_ (λ l, lk_id l =? id) (long_lived_locks d))); scanLock l);
  match r with
  | inl ENoRows => throw (EStatus NotFound "lock not found")
  | inl e => throw e
  | inr lock => mret lock
  end.

Definition delete_lock (id : Z) (d : db) : db :=
  set_long_lived_locks (where_ (λ l, negb (lk_id l =? id)) (long_lived_locks d)) d.

Definition DeleteLock (id : Z) : M unit :=
  affected ← db_exec (delete_lock id) (λ d, count_where (λ l, lk_id l =? id) (long_lived_locks d));
  if (affected =? 0)%nat then throw (EStatus NotFound "lock not found") else mret tt.

Definition is_name (name : string) (l : lock_row) : bool := bool_decide (lk_name l = name).

(** [SET held_by = null, held_until = now() - (30 * interval '1 sec')] *)
Definition preempt_lock (t : Z) (name : string) (d : db) : db :=
  set_long_lived_locks
    (update_where (is_name name) (λ l, LockRow (lk_id l) (lk_name l) None (t - 30)) (long_lived_locks d)) d.

Definition PreemptLock (name : string) : M unit :=
  t ← now;
  affected ← db_exec (preempt_lock t name) (λ d, count_where (is_name name) (long_lived_locks d));
  if (affected =? 0)%nat then throw (EStatus NotFound "lock not found") else mret tt.

(** [INSERT .. ON CONFLICT (lock_name) DO UPDATE SET .. WHERE held_until < now() RETURNING id] *)
Definition upsert_lock (t id : Z) (name host : string) (d : db) : db :=
  set_long_lived_locks
    (if existsb (is_name name) (long_lived_locks d)
     then update_where (λ l, is_name name l && (lk_held_until l <? t))
            (λ l, LockRow (lk_id l) (lk_name l) (Some host) (t + lockTime)) (long_lived_locks d)
     else long_lived_locks d ++ [LockRow id name (Some host) (t + lockTime)]) d.

Definition upserted_lock (t id : Z) (name : string) (d0 : db) : option Z :=
  if existsb (is_name name) (long_lived_locks d0)
  then lk_id <$> head (where_ (λ l, is_name name l && (lk_held_until l <? t)) (long_lived_locks d0))
  else Some id.

Definition tryToAcquireLock (hostname lockName : string) : M (bool * Z) :=
  with_tx (wrap "Could not start database transaction" BeginTx) (λ h,
    new ← nextval;
    t ← now;
    r ← try (o ← exec_at h (λ _, upsert_lock t new lockName hostname) (upserted_lock t new lockName);
             match o with Some id => mret id | None => throw ENoRows end);
    match r with
    | inl ENoRows => mret (false, 0)
    | inl e => throw (EWrap "Could not insert into long lived locks" e)
    | inr id =>
        _ ← wrap "Could not commit transaction" (Commit h);
        mret (true, id)
    end).

Definition holds (id : Z) (host : string) (l : lock_row) : bool := (lk_id l =? id) && oeqb (lk_held_by l) host.

Definition prolong_lock (t id : Z) (host : string) (d : db) : db :=
  set_long_lived_locks
    (update_where (holds id host) (λ l, LockRow (lk_id l) (lk_name l) (lk_held_by l) (t + lockTime))
       (long_lived_locks d)) d.

Definition tryToHoldLock (hostname : string) (id : Z) : M unit :=
  with_tx (wrap "Could not start database transaction" BeginTx) (λ h,
    t ← now;
    n ← wrap "Could update lock time"
          (exec_at h (λ _, prolong_lock t id hostname) (λ d0, count_where (holds id hostname) (long_lived_locks d0)));
    if negb (n =? 1)%nat then throw (EString "Unexpected number of rows updated")
    else wrap "Could not commit transaction" (Commit h)).

(** What the [select] of [holdLock] receives. *)
Inductive hold_event : Type :=
| worker_ended (err : option error)
| hold_ctx_done (err : error)
| hold_tick (seconds : nat).

Definition pass (seconds : nat) : M unit := λ w, (Ok tt, set_now (w_now w + Z.of_nat seconds) w).

(** [None]: still holding the lock when the events are over.  [errors.Wrap] of a
    nil error is nil. *)
Fixpoint holdLock (hostname : string) (id : Z) (events : list hold_event) : M (option unit) :=
  _ ← tryToHoldLock hostname id;
  match events with
  | [] => mret None
  | worker_ended None :: _ => mret (Some tt)
  | worker_ended (Some e) :: _ => throw (EWrap "Worker encountered error" e)
  | hold_ctx_done e :: _ => throw e
  | hold_tick s :: events => _ ← pass s; holdLock hostname id events
  end.

(** One turn of [waitToAcquireLongLivedLock], before it waits. *)
Definition waitToAcquireLongLivedLock_turn (hostname lockName : string) (events : list hold_event) : M unit :=
  r ← try (tryToAcquireLock hostname lockName);
  match r with
  | inr (true, id) => _ ← try (holdLock hostname id events); mret tt
  | _ => mret tt
  end.

Definition generateLockName (taskName key : string) : string := taskName +:+ "_" +:+ key.

(** The [for] over the listed items of one turn of [runFunctionUnderLongLivedLock]:
    the keys that have a locker, and the locks for which one is started. *)
Fixpoint start_lockers (taskName : string) (started : list string) (keys : list string) :
  list string * list string :=
  match keys with
  | [] => (started, [])
  | k :: ks =>
      if bool_decide (k ∈ started) then start_lockers taskName started ks
      else let '(s, l) := start_lockers taskName (k :: started) ks in (s, generateLockName taskName k :: l)
  end.

(** The turns of [runFunctionUnderLongLivedLock]: each listing answers with keys or fails. *)
Fixpoint runFunctionUnderLongLivedLock (taskName : string) (started : list string)
    (listings : list (error + list string)) : list string :=
  match listings with
  | [] => []
  | inl _ :: ls => runFunctionUnderLongLivedLock taskName started ls
  | inr keys :: ls =>
      let '(s, l) := start_lockers taskName started keys in
      l ++ runFunctionUnderLongLivedLock taskName s ls
  end.

(** ** What an operation does *)

(** The database changes by [f], or not at all; the clock does not move. *)
Definition changes_by {A} (f : A → db → db → Prop) (r : res error A) (w w' : world) : Prop :=
  w_now w' = w_now w ∧ match r with Ok a => f a (w_db w) (w_db w') | _ => w_db w' = w_db w end.

(** The lock [id], named [name], was free at [t] and is [host]'s afterwards. *)
Definition acquired (t : Z) (host name : string) (r : bool * Z) (d d' : db) : Prop :=
  if r.1 then ∃ new, upserted_lock t new name d = Some r.2 ∧ d' = upsert_lock t new name host d ∧ schema_ok d'
  else d' = d.

Lemma tryToAcquireLock_ok host name w :
  wp (tryToAcquireLock host name) (λ r w', changes_by (acquired (w_now w) host name) r w w') w.
Proof.
  apply wp_with_tx, wp_wrap, wp_BeginTx; [|done]. intros fs _. apply wp_bind, wp_nextval, wp_bind, wp_now.
  apply wp_bind, wp_try, wp_bind. eapply wp_exec_at; [apply lookup_insert_eq|..]; simpl.
  - intros fs' _ _. destruct (upserted_lock _ _ _ _) as [id|] eqn:E; [|done]. apply wp_ret, wp_bind, wp_wrap.
    eapply wp_Commit; [apply lookup_insert_eq|..]; simpl; [|done|done]. intros fs2 _ Hs. apply wp_ret. split; [done|].
    by eexists.
  - done.
  - intros e fs' _. by destruct e.
Qed.

Definition prolonged (t : Z) (host : string) (id : Z) (_ : unit) (d d' : db) : Prop :=
  count_where (holds id host) (long_lived_locks d) = 1%nat ∧ d' = prolong_lock t id host d ∧ schema_ok d'.

Lemma tryToHoldLock_ok host id w :
  wp (tryToHoldLock host id) (λ r w', changes_by (prolonged (w_now w) host id) r w w') w.
Proof.
  apply wp_with_tx, wp_wrap, wp_BeginTx; [|done]. intros fs _. apply wp_bind, wp_now.
  apply wp_bind, wp_wrap. eapply wp_exec_at; [apply lookup_insert_eq|..]; simpl; [|done|done].
  intros fs' _ _. destruct (_ =? 1)%nat eqn:E; [|done]. simpl. apply wp_wrap.
  eapply wp_Commit; [apply lookup_insert_eq|..]; simpl; [|done|done]. intros fs2 _ Hs. split; [done|].
  split; [|done]. by apply Nat.eqb_eq.
Qed.

Lemma wp_db_exec {A} F (r : db → A) Q w :
  (∀ fs, schema_ok (F (w_db w)) → Q (Ok (r (w_db w))) (set_db (F (w_db w)) (set_faults fs w))) →
  (∀ e fs, Q (Fail e) (set_faults fs w)) →
  wp (db_exec F r) Q w.
Proof.
  intros HOk HF. apply wp_bind, wp_fault_point; [|by intros]. intros fs _. apply wp_act. simpl.
  destruct (check_constraints _) as [e|d] eqn:E; [apply HF|]. apply check_constraints_inr in E as [-> E]. by apply HOk.
Qed.

(** ** One host at a time *)

(** What a host may rely on after a successful operation. *)
Record lease := Lease { ls_host : string; ls_lock : Z; ls_until : Z }.

Definition system : Type := world * list lease.

Inductive system_step : relation system :=
| step_acquired host name w id w' ls :
    tryToAcquireLock host name w = (Ok (true, id), w') →
    system_step (w, ls) (w', Lease host id (w_now w + lockTime) :: ls)
| step_not_acquired host name w r w' ls :
    tryToAcquireLock host name w = (r, w') → (∀ id, r ≠ Ok (true, id)) → system_step (w, ls) (w', ls)
| step_held host id w w' ls :
    tryToHoldLock host id w = (Ok tt, w') → system_step (w, ls) (w', Lease host id (w_now w + lockTime) :: ls)
| step_not_held host id w r w' ls :
    tryToHoldLock host id w = (r, w') → r ≠ Ok tt → system_step (w, ls) (w', ls)
| step_pass w δ ls : 0 ≤ δ → system_step (w, ls) (set_now (w_now w + δ) w, ls).

(** The lock of a lease that is not over is held by its host, and not for less. *)
Definition lease_ok (w : world) (l : lease) : Prop :=
  ls_until l ≤ w_now w + lockTime ∧
  (w_now w ≤ ls_until l → ∃ r, r ∈ long_lived_locks (w_db w) ∧ lk_id r = ls_lock l ∧
     lk_held_by r = Some (ls_host l) ∧ ls_until l ≤ lk_held_until r).

Definition leases_ok (s : system) : Prop := schema_ok (w_db s.1) ∧ Forall (lease_ok s.1) s.2.

Lemma leases_mono w w' ls :
  w_now w' = w_now w →
  (∀ r, r ∈ long_lived_locks (w_db w) → w_now w ≤ lk_held_until r →
     ∃ r', r' ∈ long_lived_locks (w_db w') ∧ lk_id r' = lk_id r ∧ lk_held_by r' = lk_held_by r ∧
           (lk_held_until r ≤ lk_held_until r' ∨ w_now w + lockTime ≤ lk_held_until r')) →
  Forall (lease_ok w) ls → Forall (lease_ok w') ls.
Proof.
  intros Hn Hr Hls. eapply Forall_impl; [exact Hls|]. intros l [Hu Hl]. split; [by rewrite Hn|]. rewrite Hn. intros Hle.
  destruct (Hl Hle) as (r & Hin & Hid & Hby & Hun). destruct (Hr r) as (r' & ? & ? & ? & Hun'); [done|lia|].
  exists r'. split_and!; [done|congruence|congruence|]. destruct Hun'; lia.
Qed.

Lemma leases_same w w' ls :
  w_now w' = w_now w → w_db w' = w_db w → Forall (lease_ok w) ls → Forall (lease_ok w') ls.
Proof. intros Hn Hd. apply leases_mono; [done|]. intros r Hr _. exists r. rewrite Hd. naive_solver. Qed.

(** A lock whose time is not over stays with its host when another one is acquired. *)
Lemma upsert_lock_keeps t id name host d r :
  r ∈ long_lived_locks d → t ≤ lk_held_until r → r ∈ long_lived_locks (upsert_lock t id name host d).
Proof.
  intros Hr Ht. simpl. destruct (existsb _ _); [|apply elem_of_app; by left].
  apply elem_of_update_where. left. split; [done|]. apply andb_false_iff. right. apply Z.ltb_ge. lia.
Qed.

Lemma upsert_lock_in t new name host d id :
  upserted_lock t new name d = Some id →
  LockRow id name (Some host) (t + lockTime) ∈ long_lived_locks (upsert_lock t new name host d).
Proof.
  unfold upserted_lock. simpl. destruct (existsb _ _).
  - destruct (head _) as [r|] eqn:E; [|done]. intros [= <-]. apply head_where in E as [Hr Hp].
    apply elem_of_update_where. right. exists r. split_and!; [done|done|].
    apply andb_true_iff in Hp as [Hn%bool_decide_eq_true _]. by rewrite Hn.
  - intros [= ->]. apply elem_of_app. right. by left.
Qed.

Lemma holds_true id host l : holds id host l = true ↔ lk_id l = id ∧ lk_held_by l = Some host.
Proof. unfold holds, oeqb. by rewrite andb_true_iff, Z.eqb_eq, bool_decide_eq_true. Qed.

Lemma prolong_lock_keeps t id host d r :
  r ∈ long_lived_locks d →
  ∃ r', r' ∈ long_lived_locks (prolong_lock t id host d) ∧ lk_id r' = lk_id r ∧ lk_held_by r' = lk_held_by r ∧
        (lk_held_until r ≤ lk_held_until r' ∨ t + lockTime ≤ lk_held_until r').
Proof.
  intros Hr. simpl. setoid_rewrite elem_of_update_where. destruct (holds id host r) eqn:E.
  - eexists. split; [right; exists r; by split_and!|]. simpl. split_and!; [done|done|by right].
  - exists r. split_and!; [by left|done|done|by left].
Qed.

Lemma lease_new w w' host id :
  w_now w' = w_now w →
  (∃ r, r ∈ long_lived_locks (w_db w') ∧ lk_id r = id ∧ lk_held_by r = Some host ∧ w_now w + lockTime ≤ lk_held_until r) →
  lease_ok w' (Lease host id (w_now w + lockTime)).
Proof. intros Hn Hr. split; simpl; [by rewrite Hn|]. by intros _. Qed.

Lemma system_step_ok s s' : leases_ok s → system_step s s' → leases_ok s'.
Proof.
  intros [Hs Hls] Hstep.
  destruct Hstep as [host name w id w' ls E|host name w r w' ls E Hr|host id w w' ls E|host id w r w' ls E Hr|w δ ls Hδ];
    simpl in *.
  - destruct (wp_elim _ _ _ _ _ (tryToAcquireLock_ok host name w) E) as [Hn (new & Hup & Hd & Hs')].
    split; [done|]. simpl. constructor.
    + apply lease_new; [done|]. rewrite Hd. eexists. split; [by eapply upsert_lock_in|]. done.
    + apply (leases_mono w); [done| |done]. intros r Hr Ht. exists r. rewrite Hd.
      split_and!; [by apply upsert_lock_keeps|done|done|by left].
  - destruct (wp_elim _ _ _ _ _ (tryToAcquireLock_ok host name w) E) as [Hn H].
    assert (w_db w' = w_db w) as Hd. { destruct r as [[[] id]|e|m]; [by destruct (Hr id)|done..]. }
    split; [simpl; by rewrite Hd|]. by apply (leases_same w).
  - destruct (wp_elim _ _ _ _ _ (tryToHoldLock_ok host id w) E) as [Hn (Hone & Hd & Hs')].
    split; [done|]. simpl. constructor.
    + apply lease_new; [done|]. assert (∃ r, r ∈ long_lived_locks (w_db w) ∧ holds id host r = true) as (r & Hr & Hh).
      { unfold count_where in Hone. destruct (where_ _ _) as [|r rs] eqn:Ew; [done|]. exists r.
        apply elem_of_where. rewrite Ew. by left. }
      rewrite Hd. eexists. split; [apply elem_of_update_where; right; exists r; by split_and!|].
      apply holds_true in Hh as [Hid Hby]. by rewrite <- Hid, <- Hby.
    + apply (leases_mono w); [done| |done]. intros r Hr _. rewrite Hd. by apply prolong_lock_keeps.
  - destruct (wp_elim _ _ _ _ _ (tryToHoldLock_ok host id w) E) as [Hn H].
    assert (w_db w' = w_db w) as Hd. { by destruct r as [[]|e|m]. }
    split; [simpl; by rewrite Hd|]. by apply (leases_same w).
  - split; [done|]. simpl. eapply Forall_impl; [done|]. intros l [Hu Hl]. split; simpl; [lia|]. intros Hle. apply Hl. lia.
Qed.

Lemma system_steps_ok s s' : leases_ok s → rtc system_step s s' → leases_ok s'.
Proof. intros Hs Hsteps. induction Hsteps; eauto using system_step_ok. Qed.

(** ** A free lock can be acquired *)

Definition free_lock (name : string) (t : Z) (d : db) : Prop :=
  ∀ r, r ∈ long_lived_locks d → lk_name r = name → lk_held_until r < t.

Lemma set_long_lived_locks_schema l d :
  schema_ok d → unique (Some ∘ lk_id) l = true → unique (Some ∘ lk_name) l = true →
  schema_ok (set_long_lived_locks l d).
Proof. intros Hs H1 H2. keeps_schema Hs. Qed.

Lemma upsert_lock_schema t new name host d :
  schema_ok d → (new ∉ lk_id <$> long_lived_locks d) → schema_ok (upsert_lock t new name host d).
Proof.
  intros Hs Hnew. constraint_of Hs "long_lived_locks_pk" C1. constraint_of Hs "long_lived_locks_lock_name_uindex" C2.
  apply unique_fmap in C1, C2. apply set_long_lived_locks_schema; [done| |]; apply unique_fmap.
  - destruct (existsb _ _); [by rewrite update_where_fmap|]. rewrite fmap_app. apply NoDup_app.
    split_and!; [done| |apply NoDup_singleton]. by intros x Hx ->%list_elem_of_singleton.
  - destruct (existsb _ _) eqn:E; [by rewrite update_where_fmap|]. rewrite fmap_app. apply NoDup_app.
    split_and!; [done| |apply NoDup_singleton]. intros x Hx ->%list_elem_of_singleton.
    apply list_elem_of_fmap in Hx as (r & Hn & Hr).
    assert (existsb (is_name name) (long_lived_locks d) = true) as E'; [|congruence].
    apply existsb_true. exists r. split; [done|]. by apply bool_decide_eq_true_2.
Qed.

Lemma upserted_lock_free t new name d :
  free_lock name t d → is_Some (upserted_lock t new name d).
Proof.
  intros Hf. unfold upserted_lock. destruct (existsb _ _) eqn:E; [|done].
  apply existsb_true in E as (r & Hr & Hn). assert (r ∈ where_ (λ l, is_name name l && (lk_held_until l <? t)) (long_lived_locks d)) as Hin.
  { apply elem_of_where. split; [done|]. rewrite Hn. apply Z.ltb_lt, Hf; [done|]. by apply bool_decide_eq_true in Hn. }
  destruct (where_ _ _); [inversion Hin|done].
Qed.

Lemma upserted_lock_held t new name d r :
  schema_ok d → r ∈ long_lived_locks d → lk_name r = name → t ≤ lk_held_until r → upserted_lock t new name d = None.
Proof.
  intros Hs Hr Hn Ht. constraint_of Hs "long_lived_locks_lock_name_uindex" C. unfold upserted_lock.
  assert (existsb (is_name name) (long_lived_locks d) = true) as ->.
  { apply existsb_true. exists r. split; [done|]. by apply bool_decide_eq_true_2. }
  rewrite where_nil; [done|]. intros x Hx. apply andb_false_iff.
  destruct (is_name name x) eqn:E; [right|by left]. apply bool_decide_eq_true in E.
  rewrite (unique_key lk_name _ x r C Hx Hr) by congruence. apply Z.ltb_ge. lia.
Qed.

Lemma tryToAcquireLock_free host name w :
  schema_ok (w_db w) → w_faults w = [] → (w_seq w ∉ lk_id <$> long_lived_locks (w_db w)) →
  free_lock name (w_now w) (w_db w) →
  wp (tryToAcquireLock host name) (λ r _, ∃ id, r = Ok (true, id)) w.
Proof.
  intros Hs Hnf Hseq Hfree.
  apply wp_with_tx, wp_wrap, wp_BeginTx; rewrite Hnf; [|simpl; lia]. intros [|] Hfs; [|simpl in Hfs; lia].
  apply wp_bind, wp_nextval, wp_bind, wp_now. apply wp_bind, wp_try, wp_bind.
  pose proof (upsert_lock_schema (w_now w) (w_seq w) name host (w_db w) Hs Hseq) as Hs'.
  eapply wp_exec_at; [apply lookup_insert_eq|..]; simpl; [|intros ? k c _|simpl; lia].
  - intros [|] Hfs' _; [|simpl in Hfs'; lia].
    destruct (upserted_lock_free (w_now w) (w_seq w) name (w_db w) Hfree) as [id Hid]. unfold Datatypes.id. rewrite Hid.
    apply wp_ret, wp_bind, wp_wrap.
    eapply wp_Commit; [apply lookup_insert_eq|..]; simpl; [|intros ? k c _|simpl; lia].
    + intros. apply wp_ret. by exists id.
    + unfold Datatypes.id. by rewrite check_constraints_ok.
  - unfold Datatypes.id. by rewrite check_constraints_ok.
Qed.

(** ** Preemption *)

Lemma PreemptLock_ok name w :
  wp (PreemptLock name)
    (λ r w', w_now w' = w_now w ∧
      match r with
      | Ok _ => (∃ l, l ∈ long_lived_locks (w_db w) ∧ lk_name l = name) ∧ w_db w' = preempt_lock (w_now w) name (w_db w)
      | _ => w_db w' = w_db w ∨ (∀ l, l ∈ long_lived_locks (w_db w) → lk_name l ≠ name)
      end) w.
Proof.
  apply wp_bind, wp_now, wp_bind, wp_db_exec; [|intros; split; [done|by left]]. intros fs _. unfold count_where.
  destruct (where_ _ _) as [|l ls] eqn:E; simpl.
  - split; [done|]. right. intros l Hl Hn. assert (l ∈ where_ (is_name name) (long_lived_locks (w_db w))) as Hin.
    { apply elem_of_where. split; [done|]. by apply bool_decide_eq_true_2. }
    rewrite E in Hin. inversion Hin.
  - split; [done|]. split; [|done]. exists l. assert (l ∈ where_ (is_name name) (long_lived_locks (w_db w))) as Hin
      by (rewrite E; by left). by apply elem_of_where in Hin as [? ?%bool_decide_eq_true].
Qed.

Lemma preempted_rows t name d l :
  l ∈ long_lived_locks (preempt_lock t name d) → lk_name l = name → lk_held_by l = None ∧ lk_held_until l = t - 30.
Proof.
  intros [[_ Hn]|(l' & _ & _ & ->)]%elem_of_update_where Hname; [|done].
  unfold is_name in Hn. by rewrite bool_decide_eq_true_2 in Hn.
Qed.

(** A scan of the rows fails at the first one without a holder. *)
Lemma scanLocks_null ls l w : l ∈ ls → lk_held_by l = None → wp (scanLocks ls) (λ r _, is_ok r = false) w.
Proof.
  intros Hl Hnone. induction ls as [|l' ls IH]; [inversion Hl|]. simpl. apply wp_bind. unfold scanLock.
  apply elem_of_cons in Hl as [<-|Hl].
  - rewrite Hnone. done.
  - apply wp_bind, wp_scan; [|done]. intros. apply wp_ret, wp_bind. eapply wp_mono; [by apply IH|]. by intros [].
Qed.

(** ** Lockers *)

Lemma start_lockers_ok task started keys :
  let '(s, l) := start_lockers task started keys in
  (∀ k, k ∈ s ↔ k ∈ started ∨ k ∈ keys) ∧
  ∃ new, l = generateLockName task <$> new ∧ NoDup new ∧ (∀ k, k ∈ new ↔ k ∈ keys ∧ k ∉ started).
Proof.
  revert started. induction keys as [|k ks IH]; intros started; simpl.
  { split; [set_solver|]. exists []. split_and!; [done|constructor|set_solver]. }
  case_bool_decide as Hk; [specialize (IH started)|specialize (IH (k :: started))];
    destruct (start_lockers task _ ks) as [s l]; destruct IH as (Hs & new & -> & Hnd & Hnew).
  - split; [set_solver|]. exists new. split_and!; [done|done|set_solver].
  - split; [set_solver|]. exists (k :: new). split_and!; [done| |].
    + constructor; [|done]. rewrite Hnew. set_solver.
    + intros k'. rewrite elem_of_cons, Hnew. destruct (decide (k' = k)) as [->|]; set_solver.
Qed.

(** The keys of the listings that did not fail. *)
Definition listed (listings : list (error + list string)) (k : string) : Prop :=
  ∃ keys, inr keys ∈ listings ∧ k ∈ keys.

Lemma lockers_ok task started listings :
  ∃ new, runFunctionUnderLongLivedLock task started listings = generateLockName task <$> new ∧
         NoDup new ∧ (∀ k, k ∈ new ↔ listed listings k ∧ k ∉ started).
Proof.
  revert started. induction listings as [|[e|keys] ls IH]; intros started; simpl.
  - exists []. split_and!; [done|constructor|]. intros k. split; [inversion 1|]. intros [(keys & Hin & _) _]. inversion Hin.
  - destruct (IH started) as (new & -> & Hnd & Hnew). exists new. split_and!; [done|done|]. intros k. rewrite Hnew.
    unfold listed. set_solver.
  - pose proof (start_lockers_ok task started keys) as H. destruct (start_lockers _ _ _) as [s l].
    destruct H as (Hs & new1 & -> & Hnd1 & Hnew1). destruct (IH s) as (new2 & -> & Hnd2 & Hnew2).
    exists (new1 ++ new2). rewrite fmap_app. split_and!; [done| |].
    + apply NoDup_app. split_and!; [done| |done]. intros k Hk1 Hk2. set_solver.
    + intros k. rewrite elem_of_app, Hnew1, Hnew2, Hs. unfold listed. destruct (decide (k ∈ keys)); set_solver.
Qed.

(** ** Theorems *)

(** C7: However the hosts interleave their attempts to acquire
    and to prolong locks, whatever fails, and however time passes: as long as no
    operator preempts or deletes locks, two hosts never hold unexpired leases on
    the same lock. *)
Theorem lock_exclusive w0 w ls l1 l2 :
  schema_ok (w_db w0) → rtc system_step (w0, []) (w, ls) →
  l1 ∈ ls → l2 ∈ ls → ls_lock l1 = ls_lock l2 → w_now w ≤ ls_until l1 → w_now w ≤ ls_until l2 →
  ls_host l1 = ls_host l2.
Proof.
  intros Hs Hsteps H1 H2 Hlock Hu1 Hu2.
  destruct (system_steps_ok _ _ (conj Hs (List.Forall_nil _) : leases_ok (w0, [])) Hsteps) as [Hs' Hls]. simpl in *.
  rewrite Forall_forall in Hls. destruct (Hls l1 H1) as [_ (r1 & Hr1 & Hid1 & Hby1 & _)]; [done|].
  destruct (Hls l2 H2) as [_ (r2 & Hr2 & Hid2 & Hby2 & _)]; [done|].
  constraint_of Hs' "long_lived_locks_pk" C. assert (r1 = r2) as -> by (by apply (unique_key lk_id _ _ _ C); [..|congruence]).
  congruence.
Qed.

(** When nothing fails, [tryToAcquireLock]
    acquires the lock exactly when no row of that name has time left; then the row
    is the host's for another 30 seconds, and otherwise nothing changes. *)
Theorem tryToAcquireLock_iff_free host name w r w' :
  schema_ok (w_db w) → w_faults w = [] → (w_seq w ∉ lk_id <$> long_lived_locks (w_db w)) →
  tryToAcquireLock host name w = (r, w') →
  (free_lock name (w_now w) (w_db w) →
     ∃ id, r = Ok (true, id) ∧ LockRow id name (Some host) (w_now w + lockTime) ∈ long_lived_locks (w_db w')) ∧
  (¬ free_lock name (w_now w) (w_db w) → (∀ id, r ≠ Ok (true, id)) ∧ w_db w' = w_db w).
Proof.
  intros Hs Hnf Hseq E. pose proof (wp_elim _ _ _ _ _ (tryToAcquireLock_ok host name w) E) as [Hn Ha]. split.
  - intros Hfree. destruct (wp_elim _ _ _ _ _ (tryToAcquireLock_free host name w Hs Hnf Hseq Hfree) E) as [id ->].
    exists id. split; [done|]. destruct Ha as (new & Hup & -> & _). by apply upsert_lock_in.
  - intros Hheld. assert (∀ id, r ≠ Ok (true, id)) as Hr.
    { intros id ->. destruct Ha as (new & Hup & _). apply Hheld. intros l Hl Hname.
      destruct (decide (lk_held_until l < w_now w)) as [|Hge]; [done|].
      erewrite upserted_lock_held in Hup; [done|done|exact Hl|done|lia]. }
    split; [done|]. by destruct r as [[[] id]|e|m]; [destruct (Hr id)|..].
Qed.

(** After [PreemptLock], until the lock is acquired
    again, no host can prolong it, and any host may acquire it. *)
Theorem PreemptLock_ends_lease name w w' host id l v r v' :
  PreemptLock name w = (Ok tt, w') → w_db v = w_db w' → w_now w ≤ w_now v →
  l ∈ long_lived_locks (w_db v) → lk_name l = name → lk_id l = id → schema_ok (w_db v) →
  tryToHoldLock host id v = (r, v') →
  (r ≠ Ok tt ∧ w_db v' = w_db v) ∧ free_lock name (w_now v) (w_db v).
Proof.
  intros E Hd Ht Hl Hn Hid Hs E'. destruct (wp_elim _ _ _ _ _ (PreemptLock_ok name w) E) as (_ & _ & Hp).
  rewrite Hp in Hd. split.
  - assert (r ≠ Ok tt) as Hr.
    { intros ->. destruct (wp_elim _ _ _ _ _ (tryToHoldLock_ok host id v) E') as [_ (Hone & _)].
      unfold count_where in Hone. destruct (where_ _ _) as [|x xs] eqn:Ew; [done|].
      assert (x ∈ long_lived_locks (w_db v) ∧ holds id host x = true) as [Hx [Hxid Hby]%holds_true].
      { apply elem_of_where. rewrite Ew. by left. }
      constraint_of Hs "long_lived_locks_pk" C. assert (x = l) as -> by (apply (unique_key lk_id _ _ _ C); [done|done|congruence]).
      rewrite Hd in Hl. destruct (preempted_rows _ _ _ _ Hl Hn) as [Hnone _]. congruence. }
    split; [done|]. destruct (wp_elim _ _ _ _ _ (tryToHoldLock_ok host id v) E') as [_ H].
    by destruct r as [[]|e|m].
  - intros x Hx Hxn. rewrite Hd in Hx. destruct (preempted_rows _ _ _ _ Hx Hxn) as [_ ->]. lia.
Qed.

(** [GetLocks] cannot list a lock that was
    preempted and not acquired since: the holder is NULL, which the scan refuses,
    so while there are at most 1000 locks the whole listing fails. *)
Theorem GetLocks_fails_after_preemption name w w' v :
  PreemptLock name w = (Ok tt, w') → w_db v = w_db w' → (length (long_lived_locks (w_db v)) ≤ 1000)%nat →
  is_ok (GetLocks v).1 = false.
Proof.
  intros E Hd Hlen. destruct (wp_elim _ _ _ _ _ (PreemptLock_ok name w) E) as (_ & (l & Hl & Hn) & Hp).
  change (wp GetLocks (λ r _, is_ok r = false) v).
  apply wp_with_tx, wp_wrap. eapply wp_mono; [apply wp_BeginTx_id|]. intros [h|e|s] v0 [Hd0 Hp0]; [|done..].
  apply wp_bind. eapply wp_mono; [by apply wp_query_id|]. intros [rows|e|s] v1 [_ Hrows]; [|done..].
  rewrite Hrows, Hd0, take_ge by done. apply (scanLocks_null _ (LockRow (lk_id l) (lk_name l) None (w_now w - 30))); [|done].
  rewrite Hd, Hp. apply elem_of_update_where. right. exists l. split_and!; [done|by apply bool_decide_eq_true_2|done].
Qed.

(** Over any sequence of listings, failed ones
    included, [runFunctionUnderLongLivedLock] starts exactly one locker for every
    key that was ever listed. *)
Theorem lockers_started_once task listings :
  ∃ keys, runFunctionUnderLongLivedLock task [] listings = generateLockName task <$> keys ∧
          NoDup keys ∧ (∀ k, k ∈ keys ↔ listed listings k).
Proof.
  destruct (lockers_ok task [] listings) as (keys & ? & ? & Hk). exists keys. split_and!; [done|done|].
  intros k. rewrite Hk. set_solver.
Qed.
