(* ===== verification/ExcessBranches.v ===== *)
(** * ExcessBranches: detaching and deleting branch ENIs nobody uses

    Models [vpc/service/detach_unused_branch_eni.go] and
    [vpc/service/delete_excess_branches.go], two background tasks.  The first
    detaches attached ENIs that were not assigned to for an hour, the second
    deletes unattached ENIs of a subnet beyond a warm pool.

    Times are in seconds.  The rows of [branch_enis] are in the order of their
    serial [id]. *)
From S2P Require Import Prelude Errors Schema Service Logic TxLogic BranchEni GenerateAssignment AssignV3 UnassignV3.

Open Scope string_scope.
Open Scope Z_scope.
Open Scope list_scope.

Definition timeBetweenErrors : Z := 10.
Definition timeBetweenDetaches : Z := 5.
Definition timeBetweenNoDetatches : Z := 60.
Definition minTimeUnused : Z := 3600.
Definition assignTimeout : Z := 300.
Definition minTimeAttached : Z := assignTimeout.
Definition warmPoolPerSubnet : nat := 50.
Definition minTimeExisting : Z := assignTimeout.

(** ** Detaching *)

(** A comparison with a NULL column is not true. *)
Definition older (o : option Z) (t : Z) : bool := match o with Some x => x <? t | None => false end.

(** The joins and the [WHERE] of the query. *)
Definition unused_attachments (t : Z) (d : db) : list (attachment * branch_eni_row * trunk_eni_row * az_row) :=
  a ← where_ (λ a, not_assigned d a && older (at_completed_at a) (t - minTimeAttached)
                   && bool_decide (at_state a = attached)) (branch_eni_attachments d);
  b ← where_ (λ b, bool_decide (be_branch_eni b = at_branch_eni a)
                   && older (be_last_assigned_to b) (t - minTimeUnused)) (branch_enis d);
  tr ← where_ (λ tr, bool_decide (at_trunk_eni a = te_trunk_eni tr)) (trunk_enis d);
  z ← where_ (λ z, bool_decide (te_account_id tr = az_account_id z) && bool_decide (te_az tr = az_zone_name z))
        (availability_zones d);
  [(a, b, tr, z)].

(** [ORDER BY COALESCE(branch_enis.last_assigned_to, TIMESTAMP 'EPOCH') ASC LIMIT 1] *)
Definition longest_unused (t : Z) (d : db) : list (attachment * branch_eni_row * trunk_eni_row * az_row) :=
  order_by_limit_1 (λ '(a, b, tr, z), match be_last_assigned_to b with Some t => t | None => 0 end)
    (unused_attachments t d).

Section WithEC2.
Context (ec2 : ec2_oracle).

(** The time to wait before the next attempt, and the error. *)
Definition doDetatchUnusedBranchENI : M (Z * option error) :=
  r ← try (with_tx (wrap "Could not start database transaction" BeginTx) (λ h,
    t ← now;
    r ← try (x ← queryRowAny h (longest_unused t);
             let '(a, b, tr, z) := x : attachment * branch_eni_row * trunk_eni_row * az_row in
             assoc ← scan (at_association_id a);
             mret (assoc, az_region z, te_account_id tr));
    match r with
    | inl ENoRows => mret timeBetweenNoDetatches
    | inl e => throw (EWrap "Cannot scan branch ENI to delete" e)
    | inr (associationID, region, accountID) =>
        _ ← wrap "Could not get AWS session" (GetSessionFromAccountAndRegion ec2 accountID region);
        r ← try (disassociateNetworkInterface ec2 h true associationID false);
        match r with
        | inl err =>
            _ ← (if isIrrecoverableError err || IsPersistentError err
                 then wrap "Could not commit transaction during irrecoverableError / persistentError" (Commit h)
                 else mret tt);
            throw (EWrap "Cannot disassociate network interface" err)
        | inr _ =>
            _ ← wrap "Could not commit transaction" (Commit h);
            mret timeBetweenDetaches
        end
    end));
  match r with
  | inl e => mret (timeBetweenErrors, Some e)
  | inr t => mret (t, None)
  end.

(** ** Deleting *)

Definition getSubnets : M (list subnet) :=
  with_tx BeginTx (λ h,
    rows ← query h (subnets_azs (λ _, true));
    _ ← wrap "Cannot commit transaction" (Commit h);
    mret ((λ x : subnet_row * az_row, Subnet (sn_az x.1) (sn_vpc_id x.1) (sn_account_id x.1) (sn_subnet_id x.1)
                                        (sn_cidr x.1) (az_region x.2)) <$> rows)).

(** [branch_eni NOT IN (SELECT branch_eni FROM branch_eni_attachments WHERE state = .. OR ..)] *)
Definition not_attached (d : db) (eni : string) : bool :=
  negb (existsb (λ a, bool_decide (at_branch_eni a = eni) && active (at_state a)) (branch_eni_attachments d)).

(** The unattached ENIs of the subnet that exist for some time, oldest first. *)
Definition excess_pool (subnetID : string) (t : Z) (d : db) : list branch_eni_row :=
  where_ (λ b, not_attached d (be_branch_eni b) && bool_decide (be_subnet_id b = subnetID)
               && (be_created_at b <? t - minTimeExisting)) (branch_enis d).

(** [ORDER BY id DESC LIMIT 1 OFFSET warmPoolPerSubnet] *)
Definition excess_eni (subnetID : string) (t : Z) (d : db) : option branch_eni_row :=
  reverse (excess_pool subnetID t d) !! warmPoolPerSubnet.

(** [DELETE FROM branch_enis WHERE branch_eni = $1]: ON DELETE CASCADE removes the attachments of the
    ENI, their assignments, its permissions and when it was used. *)
Definition remove_branch_eni (eni : string) (d : db) : db :=
  let gone a := bool_decide (at_branch_eni a = eni) in
  let assocs := omap at_association_id (where_ gone (branch_eni_attachments d)) in
  set_branch_enis (where_ (λ b, negb (bool_decide (be_branch_eni b = eni))) (branch_enis d))
    (set_branch_eni_attachments (where_ (negb ∘ gone) (branch_eni_attachments d))
      (set_eni_permissions (where_ (λ p, negb (bool_decide (p.1 = eni))) (eni_permissions d))
        (set_branch_eni_last_used (where_ (λ p, negb (bool_decide (p.1 = eni))) (branch_eni_last_used d))
          (delete_assignments (λ r, bool_decide (as_association r ∈ assocs)) d)))).

(** [AND branch_eni NOT IN (SELECT branch_eni FROM branch_eni_attachments ..)] *)
Definition delete_branch_eni (eni : string) (d0 d : db) : db :=
  if not_attached d0 eni then remove_branch_eni eni d else d.

Definition branch_enis_deleted (eni : string) (d0 : db) : nat :=
  count_where (λ b, bool_decide (be_branch_eni b = eni) && not_attached d0 eni) (branch_enis d0).

(** The transaction [get_eni] of [doDeleteExcessBranches].  As in
    [finishAssociation], [defer] comes before the error of [BeginTx] is looked at. *)
Definition getExcessENI (subnetID : string) : M (option string) :=
  t ← now;
  retrying
    (with_tx (b ← try BeginTx;
              match b with inl _ => go_panic "nil pointer dereference" | inr h => mret h end) (λ fastTx,
       or_retry (queryRowOpt fastTx (excess_eni subnetID t)) (EWrap "Cannot scan branch ENI to delete") (λ o,
       match o with
       | None => mret (Some None)
       | Some b =>
           or_retry (Commit fastTx) (EWrap "Cannot commit read only transaction to get ENI to delete") (λ _,
             mret (Some (Some (be_branch_eni b))))
       end))).

(** The transaction [delete_eni]. *)
Definition deleteENIFromDB (eni : string) : M unit :=
  retrying
    (with_tx (wrap "Unable to start transaction to delete branch ENI from table" beginSerializableTx) (λ fastTx,
       or_retry (exec_at fastTx (delete_branch_eni eni) (branch_enis_deleted eni))
         (EWrap "Could not delete ENI from database") (λ n,
       if negb (n =? 1)%nat then throw (EString "Unexpected number of rows deleted")
       else or_retry (Commit fastTx) (EWrap "Could not commit transaction deleting ENIs") (λ _, mret (Some tt))))).

Definition doDeleteExcessBranches (s : subnet) : M bool :=
  _ ← wrap "Cannot get EC2 session" (GetSessionFromAccountAndRegion ec2 (su_accountID s) (su_region s));
  o ← getExcessENI (su_subnetID s);
  match o with
  | None => mret false
  | Some eni =>
      iface ← wrap "Could not describe network interface" (session_GetNetworkInterfaceByID ec2 eni);
      match ni_Ipv6Addresses iface with
      | _ :: _ => throw (EString "Could not GC interface, had IPv6 addresses still assigned")
      | [] =>
          if (1 <? length (ni_PrivateIpAddresses iface))%nat
          then throw (EString "Could not GC interface, had IPv4 addresses still assigned")
          else
            _ ← deleteENIFromDB eni;
            r ← try (session_DeleteNetworkInterface ec2 eni);
            match r with
            | inr _ => mret true
            | inl e =>
                match RetrieveEC2Error e with
                | Some a => if bool_decide (aws_Code a = InvalidNetworkInterfaceIDNotFound) then mret true
                            else throw (HandleEC2Error e)
                | None => throw (HandleEC2Error e)
                end
            end
      end
  end.
End WithEC2.

(** ** Deleting only what is in excess *)

(** For code that is not bound to the state machine of the attachments. *)
Definition any_change : relation db := λ _ _, True.
Definition any_db : db → Prop := λ _, True.

#[export] Instance any_invariant : Invariant any_change any_db.
Proof. by repeat split. Qed.

Lemma machine_any w : machine_sane w → sane any_change any_db w.
Proof. intros [? ? ? ?]. by split. Qed.

Lemma deleteENIFromDB_ok eni w :
  sane any_change any_db w →
  wp (deleteENIFromDB eni)
    (λ r w', match r with
      | Ok _ => branch_enis_deleted eni (w_db w) = 1%nat ∧ w_db w' = delete_branch_eni eni (w_db w) (w_db w) ∧
                schema_ok (w_db w')
      | Fail _ => w_db w' = w_db w
      | Panic _ => False
      end) w.
Proof.
  intros Hw. apply (wp_retry_tx any_change any_db); [done|by intros ???|].
  intros w0 h w1 Hev Hs Hd Ht -> Hf Hin.
  eapply (tx_or_retry _ _ _ _ _ Datatypes.id); [by apply (stmt_exec_at _ _)|done|done|].
  intros n g w2 (-> & -> & _) Hin2. destruct (_ =? 1)%nat eqn:En; [|by eapply (tx_throw _ _)].
  apply Nat.eqb_eq in En. simpl.
  eapply (tx_commit _ _); [eassumption..|]. intros w' Hsch Hev' Hd' Ht'. split_and!; [done|exact Hd'|].
  apply (sane_schema _ _ _ (ev_sane _ _ _ _ Hev')).
Qed.

(** The query found the ENI. *)
Definition in_excess (subnetID : string) (t : Z) (d : db) (eni : string) : Prop :=
  ∃ b, excess_eni subnetID t d = Some b ∧ be_branch_eni b = eni.

Lemma serial_queryRowOpt R I `{!Invariant R I} {A} h (f : db → option A) : serial R I (queryRowOpt h f).
Proof.
  intros w Hw. apply wp_bind, wp_try. eapply wp_mono; [by apply (serial_queryRow R I)|].
  intros [a|e|s] w' [Hev H]; [by apply wp_ret| |done].
  destruct e; (apply wp_throw || apply wp_ret); (split; [done|]); intros ? [= <-]; by apply H.
Qed.
#[local] Hint Resolve serial_queryRowOpt : preserves.

Lemma getExcessENI_sane subnetID : preserves any_change any_db (getExcessENI subnetID).
Proof. unfold getExcessENI. preserves_walk. Qed.

Lemma getExcessENI_ok subnetID w :
  wp (getExcessENI subnetID)
    (λ r w', w_db w' = w_db w ∧
      match r with Ok (Some eni) => in_excess subnetID (w_now w) (w_db w) eni | _ => True end) w.
Proof.
  apply wp_bind, wp_now. eapply (wp_retrying _ (λ w1, w_db w1 = w_db w)); [done|]. intros w1 Hd.
  apply wp_with_tx, wp_bind, wp_try, wp_BeginTx; [|done]. intros fs Hfs. apply wp_ret.
  apply wp_or_retry, wp_bind, wp_try. eapply wp_queryRow; [apply lookup_insert_eq|..]; simpl.
  - intros b fs' Hfs' Hb. apply wp_ret, wp_or_retry. rewrite Hd in Hb.
    eapply wp_Commit; [apply lookup_insert_eq|..]; simpl.
    + intros. apply wp_ret. split; [by rewrite Hd|]. by exists b.
    + intros fs2 k c Hfs2 _. split; [by rewrite violation_not_serialization|done].
    + intros e fs2 Hfs2. split; [|done]. intros _. split; [done|simpl in *; lia].
  - intros fs' Hfs' _. by apply wp_ret, wp_ret.
  - intros e fs' Hfs'. destruct e; (apply wp_throw || apply wp_ret); try (by apply wp_ret);
      (split; [|done]); intros _; (split; [done|simpl in *; lia]).
Qed.

Lemma where_and {A} (p q : A → bool) l : where_ p (where_ q l) = where_ (λ x, q x && p x) l.
Proof. induction l as [|a l IH]; [done|]. simpl. destruct (q a); simpl; [destruct (p a)|]; by rewrite IH. Qed.

Section Deleted.
Context (eni : string) (d : db) (Hfree : not_attached d eni = true).

Abbreviation d' := (delete_branch_eni eni d d).

Lemma deleted_attachments :
  branch_eni_attachments d' = where_ (λ a, negb (bool_decide (at_branch_eni a = eni))) (branch_eni_attachments d).
Proof. unfold delete_branch_eni. by rewrite Hfree. Qed.

Lemma deleted_enis :
  branch_enis d' = where_ (λ b, negb (bool_decide (be_branch_eni b = eni))) (branch_enis d).
Proof. unfold delete_branch_eni. by rewrite Hfree. Qed.

(** An active attachment is of another ENI. *)
Lemma active_elsewhere a : a ∈ branch_eni_attachments d → active (at_state a) = true → at_branch_eni a ≠ eni.
Proof.
  intros Ha Hact E. unfold not_attached in Hfree. rewrite negb_true_iff in Hfree.
  assert (existsb (λ a, bool_decide (at_branch_eni a = eni) && active (at_state a)) (branch_eni_attachments d) = true)
    as E'; [|congruence].
  apply existsb_true. exists a. split; [done|]. by rewrite Hact, bool_decide_eq_true_2.
Qed.

Lemma active_attachments_kept a :
  a ∈ branch_eni_attachments d → active (at_state a) = true → a ∈ branch_eni_attachments d'.
Proof.
  intros Ha Hact. rewrite deleted_attachments. apply elem_of_where. split; [done|].
  apply negb_true_iff, bool_decide_eq_false. by apply active_elsewhere.
Qed.

Lemma active_assignments_kept a r :
  schema_ok d → a ∈ branch_eni_attachments d → active (at_state a) = true → r ∈ assignments d →
  at_association_id a = Some (as_association r) → r ∈ assignments d'.
Proof.
  intros Hs Ha Hact Hr Hassoc. unfold delete_branch_eni. rewrite Hfree. simpl. apply elem_of_where. split; [done|].
  apply negb_true_iff, bool_decide_eq_false. intros (b & Hb & Hbassoc)%list_elem_of_omap.
  apply elem_of_where in Hb as [Hb Heq%bool_decide_eq_true].
  constraint_of Hs "branch_eni_attachments_pk" C1. constraint_of Hs "branch_eni_attachments_association_id_uindex" C2.
  apply (active_elsewhere a Ha Hact). rewrite <- Heq. f_equal.
  by apply (unique_nullable_key at_id at_association_id (branch_eni_attachments d) a b (as_association r)).
Qed.

End Deleted.

(** An ENI of the subnet that exists for five minutes, and that no active attachment attaches *)
Definition idle (subnetID : string) (t : Z) (d : db) (b : branch_eni_row) : Prop :=
  be_subnet_id b = subnetID ∧ be_created_at b < t - 300 ∧
  ∀ a, a ∈ branch_eni_attachments d → at_branch_eni a = be_branch_eni b → active (at_state a) = false.

(** Exactly one ENI is gone, an idle one.  At least 50 newer ones that are idle are left; every active
    attachment and the assignments on it stay. *)
Record excess_deleted (subnetID : string) (t : Z) (d d' : db) (eni : string) : Prop := ExcessDeleted {
  ed_enis : ∃ older b newer, be_branch_eni b = eni ∧ branch_enis d = older ++ b :: newer ∧ branch_enis d' = older ++ newer ∧
              idle subnetID t d b ∧
              ∃ pool, pool `sublist_of` newer ∧ length pool = 50%nat ∧ ∀ x, x ∈ pool → idle subnetID t d' x;
  ed_attachments : ∀ a, a ∈ branch_eni_attachments d → active (at_state a) = true → a ∈ branch_eni_attachments d';
  ed_assignments : ∀ a r, a ∈ branch_eni_attachments d → active (at_state a) = true → r ∈ assignments d →
                     at_association_id a = Some (as_association r) → r ∈ assignments d';
  ed_schema : schema_ok d'
}.

Lemma idle_pool subnetID t d b : b ∈ excess_pool subnetID t d → b ∈ branch_enis d ∧ idle subnetID t d b ∧ not_attached d (be_branch_eni b) = true.
Proof.
  intros [Hin Hc]%elem_of_where. rewrite !andb_true_iff in Hc. destruct Hc as [[Hfree Hsn%bool_decide_eq_true] Ht%Z.ltb_lt].
  split_and!; [done| |done]. split_and!; [done|exact Ht|]. intros a Ha Heq. destruct (active (at_state a)) eqn:Hact; [|done].
  by destruct (active_elsewhere _ _ Hfree a Ha Hact).
Qed.

(** The row at an offset from the end of the rows that satisfy a condition *)
Lemma where_offset {A} (p : A → bool) l n x :
  reverse (where_ p l) !! n = Some x →
  ∃ l1 l2, l = l1 ++ x :: l2 ∧ p x = true ∧ length (where_ p l2) = n.
Proof.
  revert n. induction l as [|a l IH]; intros n; [done|]. simpl. destruct (p a) eqn:E.
  - rewrite reverse_cons. intros [H|[Hn H]]%lookup_app_Some.
    + destruct (IH _ H) as (l1 & l2 & -> & Hx & Hl). by exists (a :: l1), l2.
    + rewrite length_reverse in Hn, H. apply list_lookup_singleton_Some in H as [H0 <-]. exists [], l. split_and!; [done|done|lia].
  - intros H. destruct (IH _ H) as (l1 & l2 & -> & Hx & Hl). by exists (a :: l1), l2.
Qed.

Lemma sublist_where {A} (p : A → bool) l : where_ p l `sublist_of` l.
Proof. induction l as [|a l IH]; simpl; [done|]. destruct (p a); by constructor. Qed.

Lemma where_drop_one {A} (f : A → string) l1 x l2 :
  NoDup (f <$> l1 ++ x :: l2) → where_ (λ y, negb (bool_decide (f y = f x))) (l1 ++ x :: l2) = l1 ++ l2.
Proof.
  rewrite fmap_app, fmap_cons. intros (_ & H1 & [H2 _]%NoDup_cons)%NoDup_app.
  unfold where_. rewrite List.filter_app. simpl. rewrite bool_decide_eq_true_2 by done. simpl.
  f_equal; apply where_all; intros y Hy; apply negb_true_iff, bool_decide_eq_false; intros E.
  - apply (H1 (f x)); [|by left]. rewrite <- E. by apply list_elem_of_fmap_2.
  - apply H2. rewrite <- E. by apply list_elem_of_fmap_2.
Qed.

Lemma delete_excess subnetID t d eni d' :
  schema_ok d → in_excess subnetID t d eni → d' = delete_branch_eni eni d d → schema_ok d' →
  excess_deleted subnetID t d d' eni.
Proof.
  intros Hs (b & Hb & <-) -> Hs'. unfold excess_eni in Hb.
  destruct (idle_pool subnetID t d b) as (_ & Hidle & Hfree).
  { apply elem_of_reverse. by eapply list_elem_of_lookup_2. }
  apply where_offset in Hb as (l1 & l2 & Hl & _ & Hlen). constraint_of Hs "branch_enis_pkey" C. apply unique_fmap in C.
  split; [|intros a; by apply active_attachments_kept|intros a r Ha Hact Hr Hassoc; by apply (active_assignments_kept _ _ Hfree a)|done].
  exists l1, b, l2. split_and!; [done|done| |done|].
  - rewrite deleted_enis by done. rewrite Hl in C |- *. by apply where_drop_one.
  - eexists. split_and!; [|exact Hlen|]; [apply sublist_where|]. intros x Hx.
    destruct (idle_pool subnetID t d x) as (_ & (Hsn & Ht & Hx2) & _).
    { unfold excess_pool. rewrite Hl. apply elem_of_where in Hx as [Hx1 Hx2]. apply elem_of_where. split; [|done].
      apply elem_of_app. right. by right. }
    split_and!; [done|done|]. intros a. rewrite deleted_attachments by done. intros [Ha _]%elem_of_where. by apply Hx2.
Qed.

(** The ENIs that EC2 is asked to delete *)
Definition deletes_asked (es : list event) : list string :=
  omap (λ ev, match ev_call ev with DeleteNetworkInterface eni => Some eni | _ => None end) es.

Section Deletes.
Context (ec2 : ec2_oracle).

Lemma described_call eni w :
  wp (session_GetNetworkInterfaceByID ec2 eni) (λ _ w', w_db w' = w_db w ∧ w_calls w' = w_calls w ++ [Event (DescribeNetworkInterface eni)]) w.
Proof. unfold wp, session_GetNetworkInterfaceByID, call. by destruct (ec2 _ _ _). Qed.

Lemma getExcessENI_calls subnetID : keeps_calls (getExcessENI subnetID).
Proof. unfold getExcessENI. keeps_calls_walk. Qed.

Lemma deleteENIFromDB_calls eni : keeps_calls (deleteENIFromDB eni).
Proof. unfold deleteENIFromDB. keeps_calls_walk. Qed.

(** Nothing happens, or an ENI in excess is deleted, in the database and then in EC2. *)
Definition nothing_deleted (w w' : world) : Prop :=
  w_db w' = w_db w ∧ ∃ es, w_calls w' = w_calls w ++ es ∧ deletes_asked es = [].

Definition one_deleted (subnetID : string) (w w' : world) : Prop :=
  ∃ eni es, excess_deleted subnetID (w_now w) (w_db w) (w_db w') eni ∧ w_calls w' = w_calls w ++ es ∧ deletes_asked es = [eni].

Lemma doDeleteExcessBranches_ok s w :
  sane any_change any_db w →
  wp (doDeleteExcessBranches ec2 s)
    (λ r w', match r with
      | Ok true => one_deleted (su_subnetID s) w w'
      | Fail _ => nothing_deleted w w' ∨ one_deleted (su_subnetID s) w w'
      | _ => nothing_deleted w w'
      end) w.
Proof.
  intros Hw. assert (∀ w', w_db w' = w_db w → w_calls w' = w_calls w ++ [Event (GetSession (su_accountID s) (su_region s))] →
    nothing_deleted w w') as Hnone by (intros w' Hd Hc; split; [done|eauto]).
  apply wp_bind, wp_wrap, wp_call; [|intros e _; left; by apply Hnone]. intros _ _.
  apply wp_bind. eapply wp_mono; [apply wp_keeps_calls; [apply getExcessENI_calls|apply wp_conj; [apply getExcessENI_sane|apply getExcessENI_ok]]|].
  { by apply (evolves_calls _ _ _ w w), (evolves_refl _ _). }
  simpl. intros [[eni|]|e|m] w1 [(Hev & Hd1 & H1) Hc1]; [|apply wp_ret; by apply Hnone|left; by apply Hnone|by apply Hnone].
  assert (∀ w', w_db w' = w_db w → w_calls w' = w_calls w1 ++ [Event (DescribeNetworkInterface eni)] →
    nothing_deleted w w') as Hnone2.
  { intros w' Hd Hc. split; [done|]. rewrite Hc, Hc1, <- app_assoc. eauto. }
  apply wp_bind, wp_wrap. eapply wp_mono; [apply wp_conj; [apply (preserves_GetNetworkInterface ec2 any_change any_db), Hev|apply described_call]|].
  intros [iface|e|m] w2 (Hev2 & Hd2 & Hc2); [|left; apply Hnone2; congruence|apply Hnone2; congruence].
  destruct (ni_Ipv6Addresses iface); [|apply wp_throw; left; apply Hnone2; congruence].
  case_match; [apply wp_throw; left; apply Hnone2; congruence|].
  apply wp_bind. eapply wp_mono; [apply wp_keeps_calls; [apply deleteENIFromDB_calls|apply deleteENIFromDB_ok, Hev2]|].
  intros [[]|e|m] w3 [H3 Hc3]; [|left; apply Hnone2; congruence|done]. destruct H3 as (_ & Hd3 & Hs3).
  assert (∀ w', w_db w' = w_db w3 → w_calls w' = w_calls w3 ++ [Event (DeleteNetworkInterface eni)] → one_deleted (su_subnetID s) w w') as Hdel.
  { intros w' Hd' Hc'. exists eni. eexists. rewrite Hd', Hc', Hc3, Hc2, Hc1, <- !app_assoc. split_and!; [|done|done].
    apply delete_excess; [apply Hw|done| |done]. by rewrite Hd3, Hd2, Hd1. }
  apply wp_bind, wp_try, wp_wrap, wp_call; intros; simpl; [apply wp_ret; by apply Hdel|].
  case_match; [case_bool_decide; [apply wp_ret; by apply Hdel|apply wp_throw; right; by apply Hdel]|apply wp_throw; right; by apply Hdel].
Qed.
End Deletes.

(** ** Detaching only what is unused *)

Definition detached (assoc : string) (d : db) : Prop :=
  ∃ a, a ∈ branch_eni_attachments d ∧ at_association_id a = Some assoc ∧
       (at_state a = unattaching ∨ at_state a = unattached).

Lemma detached_frame assoc d d' :
  branch_eni_attachments d' = branch_eni_attachments d → detached assoc d → detached assoc d'.
Proof. intros E (a & Ha & H). exists a. by rewrite E. Qed.

Lemma dissociation_started_detached assoc force id d d' : dissociation_started assoc force id d d' → detached assoc d'.
Proof.
  intros (a & [Ha Hassoc%bool_decide_eq_true]%head_where & _ & Hc). unfold unattaching_committed in Hc.
  assert (∀ token, d' = update_attachments (has_association assoc) (mark_unattaching token force) d d → detached assoc d') as Hmark.
  { intros token ->. exists (mark_unattaching token force a). split_and!; [|done|by left].
    apply elem_of_update_where. right. exists a. split_and!; [done| |done].
    unfold has_association, oeqb. by rewrite !bool_decide_eq_true_2. }
  destruct (at_state a) eqn:E; try (destruct Hc as (_ & token & Hc); by eapply Hmark); subst d'; exists a; by auto.
Qed.

Lemma disassociated_detached assoc id d d' : detached assoc d → disassociated id d d' → detached assoc d'.
Proof.
  intros (a & Ha & Hassoc & Hst) [->|(b & assoc' & _ & _ & _ & _ & _ & ->)]; [by exists a|].
  destruct (is_id id a) eqn:E.
  - exists (mark_unattached a). split_and!; [|done|by right]. apply elem_of_update_where. right. exists a.
    split_and!; [done| |done]. by rewrite E, bool_decide_eq_true_2.
  - exists a. split_and!; [|done|done]. apply elem_of_update_where. left. by rewrite E.
Qed.

Section Detaches.
Context (ec2 : ec2_oracle).

Lemma disassociate_detaches h session assoc force w :
  machine_sane w → quiet_tx h w →
  wp (disassociateNetworkInterface ec2 h session assoc force)
    (λ r w', match r with Ok _ => detached assoc (w_db w') | _ => True end) w.
Proof.
  intros Hw Hq. unfold disassociateNetworkInterface. apply wp_bind, wp_wrap.
  eapply wp_mono; [by apply startDissociation_ok|]. intros [id|e|s] w1 (Hev & Ht & H); [|done..].
  apply wp_bind, wp_fault_point; [|done]. intros fs Hfs.
  assert (machine_evolves w (set_faults fs w1)) as Hev1 by by apply (evolves_faults _ _).
  apply wp_wrap. eapply wp_mono; [apply finishDisassociation_ok; [apply Hev1|intros g Hg; by apply Hq, Ht]|].
  intros [[]|e|s] w2 [[_ H2] _]; [|done..]. eapply disassociated_detached; [|done].
  by eapply dissociation_started_detached.
Qed.

(** The outcome: nothing to do, an error, or an ENI that was unused is detached. *)
Definition detach_outcome (t : Z) (d : db) (r : Z * option error) (d' : db) : Prop :=
  match r.2 with
  | Some _ => r.1 = timeBetweenErrors
  | None =>
      (r.1 = timeBetweenNoDetatches ∧ d' = d) ∨
      (r.1 = timeBetweenDetaches ∧
       ∃ a b tr z assoc, (a, b, tr, z) ∈ longest_unused t d ∧ at_association_id a = Some assoc ∧ detached assoc d')
  end.

(** From the choice of the ENI to the commit. *)
Lemma detach_one_ok h a b tr z assoc w :
  machine_sane w → quiet_tx h w → (a, b, tr, z) ∈ longest_unused (w_now w) (w_db w) → at_association_id a = Some assoc →
  wp (_ ← wrap "Could not get AWS session" (GetSessionFromAccountAndRegion ec2 (te_account_id tr) (az_region z));
      r ← try (disassociateNetworkInterface ec2 h true assoc false);
      match r with
      | inl err =>
          _ ← (if isIrrecoverableError err || IsPersistentError err
               then wrap "Could not commit transaction during irrecoverableError / persistentError" (Commit h)
               else mret tt);
          throw (EWrap "Cannot disassociate network interface" err)
      | inr _ =>
          _ ← wrap "Could not commit transaction" (Commit h);
          mret timeBetweenDetaches
      end)
    (λ r w', machine_evolves w w' ∧
      match r with Ok d => detach_outcome (w_now w) (w_db w) (d, None) (w_db w') | Fail _ => True | Panic _ => False end) w.
Proof.
  intros Hw Hq Hx Hassoc. apply wp_bind, wp_wrap, wp_call; [|intros e _; split; [by apply (evolves_calls _ _), (evolves_refl _ _)|done]].
  intros _ _. set (w1 := set_calls _ w). assert (machine_evolves w w1) as Hev1 by by apply (evolves_calls _ _), (evolves_refl _ _).
  apply wp_bind, wp_try. eapply wp_mono; [apply wp_conj;
    [apply (disassociateNetworkInterface_ok ec2 h true assoc false w1 (ev_sane _ _ _ _ Hev1) Hq)
    |apply (disassociate_detaches h true assoc false w1 (ev_sane _ _ _ _ Hev1) Hq)]|].
  assert (∀ w2, machine_evolves w1 w2 → machine_evolves w w2) as Htr by (intros; by eapply (evolves_trans _ _)).
  intros [[]|e|s] w2 [(Hev2 & Hq2 & ?) Hdet]; [| |done].
  - apply wp_bind, wp_wrap. eapply wp_mono; [apply wp_conj;
      [apply (wp_Commit_sane attachments_evolve attachments_wf), Hev2|apply wp_Commit_any]|].
    intros [[]|e|s] w3 [(Hev3 & _ & _ & Hp) H3]; (split; [eapply (evolves_trans _ _); [by apply Htr|done]|]); [|done|done].
    right. split; [done|]. destruct H3 as (g & Hg & Hd3 & _). exists a, b, tr, z, assoc. split_and!; [done|done|].
    eapply detached_frame; [|exact Hdet]. simpl. rewrite Hd3. by apply (Hq2 eq_refl).
  - destruct (_ || _); apply wp_bind.
    + apply wp_wrap. eapply wp_mono; [apply (wp_Commit_sane attachments_evolve attachments_wf), Hev2|].
      intros [[]|e'|s] w3 (Hev3 & _ & _ & Hp); (split; [eapply (evolves_trans _ _); [by apply Htr|done]|]); done.
    + apply wp_ret. split; [by apply Htr|done].
Qed.

Lemma doDetatchUnusedBranchENI_ok w :
  machine_sane w →
  wp (doDetatchUnusedBranchENI ec2)
    (λ r w', machine_evolves w w' ∧
      match r with Ok x => detach_outcome (w_now w) (w_db w) x (w_db w') | _ => False end) w.
Proof.
  intros Hw. apply wp_bind, wp_try, wp_with_tx, wp_wrap, wp_BeginTx; cycle 1.
  { intros e fs Hfs. apply wp_ret. split; [|done]. apply (evolves_faults _ _); [by apply (evolves_refl _ _)|lia]. }
  intros fs Hfs. fold (begun fs w). set (h := w_next_tx w).
  assert (∀ fs' ns, (length fs' ≤ length fs)%nat → machine_evolves w (set_rand ns (set_faults fs' (begun fs w)))) as Hev.
  { intros fs' ns Hfs'. apply (evolves_rand _ _), (evolves_faults _ _); [by apply (evolves_begun _ _)|simpl in *; lia]. }
  assert (∀ fs', (length fs' < length fs)%nat → machine_evolves w (close h (abort h (set_faults fs' (begun fs w))))) as Heva.
  { intros fs' Hfs'. apply (evolves_close _ _), (evolves_abort _ _); [|eexists; apply lookup_insert_eq].
    apply (evolves_faults _ _); [by apply (evolves_begun _ _)|simpl in *; lia]. }
  apply wp_bind, wp_now. apply wp_bind, wp_try, wp_bind.
  eapply wp_queryRowAny; [apply lookup_insert_eq|..]; simpl; unfold Datatypes.id.
  - intros [[[a b] tr] z] fs' ns Hfs' Hx. apply wp_bind, wp_scan; simpl.
    + intros assoc Hassoc. apply wp_ret. set (w1 := set_rand ns _). specialize (Hev fs' ns Hfs').
      eapply wp_mono; [apply (detach_one_ok h a b tr z assoc w1); [apply Hev| |done|done]|].
      { intros g. unfold w1, h. simpl. rewrite lookup_insert_eq. by intros [= <-]. }
      intros [t|e|s] w2 [Hev2 H2]; [| |done]; apply wp_ret;
        (split; [by apply (evolves_close _ _); eapply (evolves_trans _ _)|]); [done|done].
    + intros _. apply wp_throw, wp_ret. split; [|done]. apply (evolves_close _ _), Hev. done.
  - intros fs' ns Hfs' _. apply wp_ret, wp_ret. split; [apply (evolves_close _ _), Hev; done|]. by left.
  - intros e fs' Hfs'. specialize (Heva fs' Hfs').
    destruct e; (apply wp_throw || apply wp_ret); apply wp_ret; (split; [done|]); by (done || left).
Qed.
End Detaches.

(** ** Theorems *)

(** The background task that detaches ENIs
    never panics, keeps the attachments within their state machine and waits the
    time that fits its outcome: after an error, after finding nothing (and changing
    nothing), or after detaching an attached ENI that no assignment uses, was
    attached for five minutes and was not assigned to for an hour, one of those
    that were not assigned to for longest. *)
Theorem doDetatchUnusedBranchENI_unused ec2 w r w' :
  machine_sane w → doDetatchUnusedBranchENI ec2 w = (r, w') →
  attachments_evolve (w_db w) (w_db w') ∧ attachments_wf (w_db w') ∧
  match r with Ok x => detach_outcome (w_now w) (w_db w) x (w_db w') | _ => False end.
Proof.
  intros Hw E. destruct (wp_elim _ _ _ _ _ (doDetatchUnusedBranchENI_ok ec2 w Hw) E) as [[? [] ? ?] H]. done.
Qed.

(** C38: [doDeleteExcessBranches] deletes at
    most one ENI: one of the subnet that is not attached, exists for more than five minutes
    and is older than at least 50 such ENIs, which are left; every active
    attachment and every assignment on one stays.  EC2 is asked to delete that ENI, once,
    and no other; if the database keeps all, EC2 is not asked to delete any.
    The answer says that something was deleted exactly when it was, unless it is an error. *)
Theorem doDeleteExcessBranches_keeps_pool ec2 s w r w' :
  machine_sane w → doDeleteExcessBranches ec2 s w = (r, w') →
  match r with
  | Ok true => one_deleted (su_subnetID s) w w'
  | Fail _ => nothing_deleted w w' ∨ one_deleted (su_subnetID s) w w'
  | _ => nothing_deleted w w'
  end.
Proof.
  intros Hw E. apply (wp_elim _ _ _ _ _ (doDeleteExcessBranches_ok ec2 s w (machine_any w Hw)) E).
Qed.
