(* ===== verification/GcV3.v ===== *)
(** * GcV3: collecting what containers have left behind

    Models [vpc/service/gc_v3.go] and [errgroupish.go].  [GCV3] is called by an
    instance with the tasks it runs, and removes the assignments of all others on
    its trunk ENI.  [doGCENIs] is a background task that asks EC2 about ENIs and
    takes away the addresses that no assignment uses.

    A Go set of strings is a list without duplicates.  An [errGroupish] runs its
    functions as goroutines; the model runs each when it is dispatched, in this
    order, and keeps the errors.  [doGCENIs] connects its stages by channels; the
    model runs them one after the other. *)
From S2P Require Import Prelude Errors Schema Service Logic TxLogic BranchEni GenerateAssignment AssignV3.

Open Scope string_scope.
Open Scope Z_scope.
Open Scope list_scope.

Definition gcBatchSize : nat := 100.
Definition inUse : string := "in-use".
Definition available : string := "available".
Definition associated : string := "associated".
Definition invalidParameterValue : string := "InvalidParameterValue".

(** ** [GCV3] *)

Record GCRequestV3 := GCRequest {
  gc_InstanceIdentity : option (string * string * string);
  gc_Soft : bool;
  RunningTaskIDs : list string
}.

(** [FROM branch_eni_attachments JOIN assignments ON .. WHERE trunk_eni = $1 AND assignment_id NOT IN $2] *)
Definition stale (trunk : string) (running : list string) (d : db) : list (attachment * assignment_row) :=
  where_ (λ x, bool_decide (at_trunk_eni x.1 = trunk) && negb (bool_decide (as_assignment_id x.2 ∈ running)))
    (join (branch_eni_attachments d) (assignments d) (λ a r, oeqb (at_association_id a) (as_association r))).

(** The stale assignments with a static address. *)
Definition stale_static (trunk : string) (running : list string) (d : db)
    : list (assignment_row * branch_eni_row * ip_address_row) :=
  x ← stale trunk running d;
  b ← where_ (λ b, bool_decide (at_branch_eni x.1 = be_branch_eni b)) (branch_enis d);
  ip ← where_ (λ ip, bool_decide (as_ipv4addr x.2 = Some (ip_ip_address ip)) &&
                     bool_decide (be_subnet_id b = ip_subnet_id ip)) (ip_addresses d);
  [(x.2, b, ip)].

(** [strings.HasSuffix] *)
Definition HasSuffix (s suffix : string) : bool :=
  let n := String.length suffix in
  (n <=? String.length s)%nat && bool_decide (String.substring (String.length s - n) n s = suffix).

(** The addresses of stale assignments, with the VPC of their ENI. *)
Definition stale_addresses (trunk : string) (running : list string) (d : db) : list (string * string) :=
  x ← stale trunk running d;
  b ← where_ (λ b, bool_decide (at_branch_eni x.1 = be_branch_eni b)) (branch_enis d);
  ip ← option_list (as_ipv4addr x.2) ++ option_list (as_ipv6addr x.2);
  [(ip, be_vpc_id b)].

Definition touch_enis (t : Z) (enis : list string) (d : db) : db :=
  set_branch_eni_last_used (foldl (λ l eni, upsert_eni_last_used t eni l) (branch_eni_last_used d) enis) d.

Definition touch_addresses (t : Z) (ips : list (string * string)) (d : db) : db :=
  set_ip_last_used_v3 (foldl (λ l x, upsert_last_used t x.2 x.1 l) (ip_last_used_v3 d) ips) d.

(** [ON CONFLICT DO UPDATE] refuses a statement that inserts a key twice. *)
Definition exec_upsert (h : tx) (keys : db → list (string * string)) (f : list (string * string) → db → db) : M unit :=
  d ← tx_view h;
  if bool_decide (NoDup (keys d)) then
    match check_constraints (f (keys d) d) with
    | inl e => act (λ w, (Fail e, abort h w))
    | inr _ => act (λ w, (Ok tt, set_txs (alter (fmap (λ (g : db → db) d', f (keys d) (g d'))) h (w_txs w)) w))
    end
  else act (λ w, (Fail (EPq "cardinality_violation" ""), abort h w)).

Definition stale_ids (trunk : string) (running : list string) (d : db) : list string :=
  (as_assignment_id ∘ snd) <$> stale trunk running d.

(** [DELETE FROM assignments WHERE assignment_id IN (SELECT ..)] *)
Definition delete_stale (trunk : string) (running : list string) (d0 : db) : db → db :=
  delete_assignments (λ r, bool_decide (as_assignment_id r ∈ stale_ids trunk running d0)).

(** [RETURNING assignment_id] *)
Definition deleted_stale (trunk : string) (running : list string) (d0 : db) : list string :=
  as_assignment_id <$> where_ (λ r, bool_decide (as_assignment_id r ∈ stale_ids trunk running d0)) (assignments d0).

(** [UPDATE trunk_enis SET generation = 3 WHERE trunk_eni = $1 AND generation != 3]:
    the comparison of NULL is not true. *)
Definition mark_generation (trunk : string) (d : db) : db :=
  set_trunk_enis
    (update_where
       (λ t, bool_decide (te_trunk_eni t = trunk) && match te_generation t with Some g => negb (g =? 3) | None => false end)
       (λ t, TrunkEniRow (te_id t) (te_trunk_eni t) (te_account_id t) (te_az t) (te_subnet_id t) (te_vpc_id t) (te_region t)
               (te_mac t) (Some 3) (te_deleted_at t)) (trunk_enis d)) d.

Section WithEC2.
Context (ec2 : ec2_oracle).

(** The condition on the AWS error lets every error pass but one: an AWS error
    that has another code and yet this message. *)
Definition unassign_failed (e : error) : bool :=
  match e with
  | EAws a => negb (bool_decide (aws_Code a = invalidParameterValue)) &&
              HasSuffix (aws_Message a) "Some of the specified addresses are not assigned to interface"
  | _ => true
  end.

Definition tryReallocateStaticAssignment (running : list string) (trunk : string) : M bool :=
  with_tx (wrap_status Unknown "Could not start database transaction" BeginTx) (λ h,
    r ← try (queryRowAny h (stale_static trunk running));
    match r with
    | inl ENoRows => mret false
    | inl e => throw (EWrap "Cannot scan static IP adddresses" e)
    | inr (r, b, ip) =>
        _ ← wrap "Cannot get AWS session"
              (GetSessionFromAccountAndRegion ec2 (be_account_id b) (azToRegion (be_az b)));
        u ← try (session_UnassignPrivateIPAddresses ec2 (be_branch_eni b) [ip_ip_address ip]);
        _ ← match u with
            | inl e => if unassign_failed e then throw (HandleEC2Error e) else mret tt
            | inr _ => mret tt
            end;
        _ ← wrap "Could not delete assignment" (exec h (delete_assignment_name (as_assignment_id r)));
        _ ← wrap "Could not commit transaction" (Commit h);
        u ← try (session_AssignPrivateIPAddresses ec2 (AssignPrivateIps (ip_home_eni ip) [ip_ip_address ip] false));
        match u with
        | inl (EAws a) => if bool_decide (aws_Code a = invalidParameterValue) then mret true else throw (HandleEC2Error (EAws a))
        | _ => mret true
        end
    end).

Fixpoint reallocateStaticAssignments_loop (fuel : nat) (running : list string) (trunk : string) : M unit :=
  match fuel with
  | O => go_panic "reallocateStaticAssignments: out of fuel"
  | S n =>
      reassigned ← tryReallocateStaticAssignment running trunk;
      if reassigned : bool then reallocateStaticAssignments_loop n running trunk else mret tt
  end.

(** Every round deletes an assignment. *)
Definition reallocateStaticAssignments (running : list string) (trunk : string) : M unit := λ w,
  reallocateStaticAssignments_loop (S (length (assignments (w_db w)))) running trunk w.

Definition softGC (running : list string) (trunk : string) : M (list string) :=
  with_tx (wrap_status Unknown "Could not start database transaction" BeginTx) (λ h,
    wrap "Could not fetch assignments" (query h (stale_ids trunk running))).

Definition hardGC (running : list string) (trunk : string) : M (list string) :=
  _ ← reallocateStaticAssignments running trunk;
  with_tx (wrap_status Unknown "Could not start database transaction" BeginTx) (λ h,
    t ← now;
    _ ← wrap "Could update branch eni last used times"
          (exec_at h (λ d0, touch_enis t (remove_dups ((at_branch_eni ∘ fst) <$> stale trunk running d0))) (λ _, tt));
    _ ← wrap "Could update ip last used times" (exec_upsert h (stale_addresses trunk running) (touch_addresses t));
    removed ← wrap "Could not delete assignments" (exec_at h (delete_stale trunk running) (deleted_stale trunk running));
    _ ← wrap "Could not update attachment generations" (exec h (mark_generation trunk));
    _ ← wrap "Unable to commit transaction" (Commit h);
    mret removed).

Definition GCV3 (req : GCRequestV3) : M (list string) :=
  match gc_InstanceIdentity req with
  | None => go_panic "nil pointer dereference"
  | Some (instanceID, region, account) =>
      x ← getSessionAndTrunkInterface ec2 instanceID region account;
      let trunk := in_NetworkInterfaceId (x : instance * instance_eni).2 in
      if gc_Soft req then softGC (RunningTaskIDs req) trunk else hardGC (RunningTaskIDs req) trunk
  end.

(** ** Addresses EC2 has and no assignment uses *)

(** [errGroupish]: the errors of the functions run so far. *)
Abbreviation group := (list error) (only parsing).

Definition group_run (g : group) (f : M unit) : M group :=
  r ← try f;
  mret (match r with inl e => g ++ [e] | inr _ => g end).

(** [wait] also ends with the context. *)
Definition group_wait (g : group) : M group :=
  r ← try fault_point;
  mret (match r with inl e => g ++ [e] | inr _ => g end).

(** [multierror.Append(result, err).ErrorOrNil()] of the errors so far *)
Definition error_or_nil (errs : list error) : M unit :=
  match errs with [] => mret tt | _ => throw (EMulti errs) end.

Definition relocateIPAddress (eni ipAddress homeENI : string) : M unit :=
  _ ← wrap "Cannot unassign static address" (call ec2 (UnassignPrivateIps eni [ipAddress]));
  _ ← call ec2 (AssignPrivateIps homeENI [ipAddress] false);
  mret tt.

Definition removeAssociation (association : string) : M unit := call ec2 (DisassociateAddress association).

(** [FROM interface_v4_addresses JOIN ip_addresses ON .. WHERE ip_addresses.id NOT IN
    (SELECT ip_address_uuid FROM ip_address_attachments)] *)
Definition unattached_static (subnet : string) (ips : list string) (d : db) : list ip_address_row :=
  where_ (λ ip, bool_decide (ip_ip_address ip ∈ ips) && bool_decide (ip_subnet_id ip = subnet) &&
                negb (bool_decide (ip_id ip ∈ ia_ip_address_uuid <$> ip_address_attachments d))) (ip_addresses d).

Fixpoint relocate_all (eni : string) (l : list ip_address_row) (g : group) : M group :=
  match l with
  | [] => mret g
  | ip :: l =>
      g ← group_run g (relocateIPAddress eni (ip_ip_address ip) (ip_home_eni ip));
      relocate_all eni l g
  end.

Definition removeStaticAddresses (h : tx) (iface : network_interface) (v4 : list string) (g : group) : M (list string * group) :=
  match v4 with
  | [] => mret ([], g)
  | _ =>
      l ← wrap "Cannot query for unused static IPv4 addresses" (query h (unattached_static (ni_SubnetId iface) v4));
      g ← relocate_all (NetworkInterfaceId iface) l g;
      mret (ip_ip_address <$> l, g)
  end.

(** [SELECT count(..) FROM assignments JOIN .. WHERE ipv4addr = any($1) AND branch_eni = $2] *)
Definition assigned_count (eni : string) (ips : list string) (d : db) : nat :=
  length (where_ (λ x, bool_decide (at_branch_eni x.1 = eni) && bool_decide (eni ∈ be_branch_eni <$> branch_enis d) &&
                       match as_ipv4addr x.2 with Some ip => bool_decide (ip ∈ ips) | None => false end)
            (join (branch_eni_attachments d) (assignments d) (λ a r, oeqb (at_association_id a) (as_association r)))).

(** The check both removals make; the one of IPv6 addresses looks at [ipv4addr] too. *)
Definition check_unassigned (h : tx) (iface : network_interface) (ips : list string) : M unit :=
  if bool_decide (ni_Status iface = inUse) then
    n ← wrap "Cannot query / scan assigned IPs" (query h (assigned_count (NetworkInterfaceId iface) ips));
    if (0 <? n)%nat then throw (EString "Consistency violation detected, trying to unassign assigned IP addresses") else mret tt
  else mret tt.

(** The error, if any, and the group. *)
Definition removeAddresses (h : tx) (iface : network_interface) (ips : list string) (c : ec2_call unit) (g : group)
    : M (list error * group) :=
  r ← try (check_unassigned h iface ips);
  match r with
  | inl e => mret ([e], g)
  | inr _ =>
      g ← group_run g (call ec2 c);
      mret ([], g)
  end.

Definition removeIPv4Addresses (h : tx) (iface : network_interface) (ips : list string) (g : group) : M (list error * group) :=
  removeAddresses h iface ips (UnassignPrivateIps (NetworkInterfaceId iface) ips) g.

Definition removeIPv6Addresses (h : tx) (iface : network_interface) (ips : list string) (g : group) : M (list error * group) :=
  removeAddresses h iface ips (UnassignIpv6s (NetworkInterfaceId iface) ips) g.

Fixpoint remove_associations (l : list string) (g : group) : M group :=
  match l with
  | [] => mret g
  | a :: l =>
      g ← group_run g (removeAssociation a);
      remove_associations l g
  end.

(** Whether an attachment of the ENI is active. *)
Definition actively_attached (eni : string) (d : db) : bool :=
  existsb (λ a, bool_decide (at_branch_eni a = eni) && active (at_state a)) (branch_eni_attachments d).

Definition unattached_rows (eni : string) (d : db) : nat :=
  count_where (λ b, bool_decide (be_branch_eni b = eni) && negb (actively_attached eni d)) (branch_enis d).

Definition primary_associations (iface : network_interface) : list string :=
  omap (λ ip, if pi_primary ip then pi_association ip else None) (ni_PrivateIpAddresses iface).

(** [if set.Len() > 0 { result = multierror.Append(result, remove(..)) }] *)
Definition when_any (ips : list string) (g : group) (m : M (list error * group)) : M (list error * group) :=
  match ips with [] => mret ([], g) | _ => m end.

Definition doGCUnattachedENI (h : tx) (iface : network_interface) (v4 v6 : list string) : M unit :=
  n ← wrap "Cannot query branch ENI" (query h (unattached_rows (NetworkInterfaceId iface)));
  if (n =? 0)%nat then throw (EString "ENI was not found in unattached ENIs")
  else
    x ← wrap "Cannot remove static addresses" (removeStaticAddresses h iface v4 []);
    let '(static, g) := x : list string * group in
    g ← remove_associations (primary_associations iface) g;
    let v4 := difference_strings v4 static in
    x ← when_any v4 g (removeIPv4Addresses h iface v4 g);
    let '(e4, g) := x : list error * group in
    y ← when_any v6 g (removeIPv6Addresses h iface v6 g);
    let '(e6, g) := y : list error * group in
    g ← group_wait g;
    error_or_nil (e4 ++ e6 ++ g).

(** *** Attached ENIs *)

Definition attached_v3 (eni : string) (d : db) : list attachment :=
  where_ (λ a, bool_decide (at_branch_eni a = eni) && bool_decide (eni ∈ be_branch_eni <$> branch_enis d) &&
               bool_decide (at_generation a = Some 3) && bool_decide (at_state a = attached)) (branch_eni_attachments d).

Definition gc_grace : Z := 120.

(** [last_seen < now() - INTERVAL '2 minutes' OR last_seen IS NULL] *)
Definition long_unused (t : Z) (vpc ip : string) (d : db) : bool :=
  match where_ (λ r, bool_decide (lu_ip_address r = ip) && bool_decide (lu_vpc_id r = vpc)) (ip_last_used_v3 d) with
  | [] => true
  | l => existsb (λ r, lu_last_seen r <? t - gc_grace) l
  end.

(** [addr] is the column of [assignments] the address is compared with. *)
Definition unused_addresses (addr : assignment_row → option string) (t : Z) (assoc vpc : string) (ips : list string) (d : db)
    : list string :=
  where_ (λ ip, negb (existsb (λ r, bool_decide (addr r = Some ip) && bool_decide (as_association r = assoc)) (assignments d)) &&
                long_unused t vpc ip d) ips.

(** The associations of addresses that stay and that no elastic IP attachment explains. *)
Fixpoint remove_unknown_associations (h : tx) (gone : list string) (l : list private_ip) (g : group) : M group :=
  match l with
  | [] => mret g
  | ip :: l =>
      if bool_decide (pi_address ip ∈ gone) then remove_unknown_associations h gone l g
      else match pi_association ip with
           | None => remove_unknown_associations h gone l g
           | Some assoc =>
               n ← wrap "Cannot scan row" (query h (λ d, count_where (λ r, oeqb (ea_association_id r) assoc) (elastic_ip_attachments d)));
               g ← (if (n =? 0)%nat then group_run g (removeAssociation assoc) else mret g);
               remove_unknown_associations h gone l g
           end
  end.

(** [result] is overwritten by the outcome for IPv6 addresses. *)
Definition doGCAttachedENI (h : tx) (iface : network_interface) (v4 v6 : list string) : M unit :=
  r ← try (a ← queryRow h (λ d, head (attached_v3 (NetworkInterfaceId iface) d));
           scan (at_association_id a));
  match r with
  | inl ENoRows => throw (EString "ENI was not in v3 attachments")
  | inl e => throw (EWrap "Cannot scan row" e)
  | inr assoc =>
      t ← now;
      x ← wrap "Cannot remove static addresses" (removeStaticAddresses h iface v4 []);
      let '(static, g) := x : list string * group in
      let v4 := difference_strings v4 static in
      gone4 ← match v4 with
              | [] => mret []
              | _ => wrap "Cannot query for unused IPv4 addresses"
                       (query h (unused_addresses as_ipv4addr t assoc (ni_VpcId iface) v4))
              end;
      x ← when_any gone4 g (removeIPv4Addresses h iface gone4 g);
      let '(e4, g) := x : list error * group in
      g ← remove_unknown_associations h (static ++ gone4) (ni_PrivateIpAddresses iface) g;
      gone6 ← match v6 with
              | [] => mret []
              | _ => wrap "Cannot query for unused IPv6 addresses"
                       (query h (unused_addresses as_ipv6addr t assoc (ni_VpcId iface) v6))
              end;
      y ← when_any gone6 g (removeIPv6Addresses h iface gone6 g);
      let '(e6, g) := y : list error * group in
      g ← group_wait g;
      error_or_nil ((match gone6 with [] => e4 | _ => e6 end) ++ g)
  end.

Definition secondary_addresses (iface : network_interface) : list string :=
  remove_dups (pi_address <$> where_ (λ ip, negb (pi_primary ip)) (ni_PrivateIpAddresses iface)).

Definition doGCENI (iface : network_interface) : M unit :=
  _ ← wrap "Unable to pass database rate limiter" fault_point;
  with_tx (wrap "Could not start database transaction" BeginTx) (λ h,
    let v4 := secondary_addresses iface in
    let v6 := remove_dups (ni_Ipv6Addresses iface) in
    _ ← (if bool_decide (ni_Status iface = available) then doGCUnattachedENI h iface v4 v6
         else if bool_decide (ni_Status iface = inUse) then doGCAttachedENI h iface v4 v6
         else if bool_decide (ni_Status iface = associated) then mret tt
         else throw (EString ("AWS returned unknown ENI status: " +:+ ni_Status iface)));
    Commit h).

(** ** The background task *)

(** The ENIs of the account in the region that are not attached, or attached to a
    trunk ENI of generation 3. *)
Definition gcable (region account : string) (d : db) : list string :=
  be_branch_eni <$> where_ (λ b,
    (negb (actively_attached (be_branch_eni b) d) ||
     existsb (λ a, bool_decide (at_branch_eni a = be_branch_eni b) && active (at_state a) &&
                   existsb (λ t, bool_decide (te_trunk_eni t = at_trunk_eni a) && bool_decide (te_generation t = Some 3)) (trunk_enis d))
             (branch_eni_attachments d)) &&
    bool_decide (be_account_id b = account) &&
    existsb (λ s, bool_decide (sn_subnet_id s = be_subnet_id b) &&
                  existsb (λ z, bool_decide (az_account_id z = sn_account_id s) && bool_decide (az_zone_name z = sn_az s) &&
                                bool_decide (az_region z = region)) (availability_zones d)) (subnets d)) (branch_enis d).

(** [defer tx.Rollback()] is registered before the error of [BeginTx] is looked at. *)
Definition getGCableENIs (region account : string) : M (list string) :=
  with_tx (b ← try BeginTx; match b with inl _ => go_panic "nil pointer dereference" | inr h => mret h end) (λ h,
    l ← wrap "Could not start database query to enumerate attached ENIs" (query h (gcable region account));
    l ← shuffle l;
    _ ← wrap "Could not commit db txn" (Commit h);
    mret l).

(** What [describeCollector] sends, with what it has collected. *)
Fixpoint describeCollector (enis : list string) (eniWQ : list string) : list (list string) :=
  match eniWQ with
  | [] => match enis with [] => [] | _ => [enis] end
  | eni :: rest =>
      let enis := enis ++ [eni] in
      if (gcBatchSize <? length enis)%nat then enis :: describeCollector [] rest else describeCollector enis rest
  end.

(** [fuel] bounds the pages EC2 answers with. *)
Fixpoint describeENIsFoGC (fuel : nat) (eniList : list string) (token : option string) : M (list network_interface) :=
  match fuel with
  | O => throw (ECtx true)
  | S n =>
      x ← wrap "Cannot describe ENIs" (call ec2 (DescribeNetworkInterfaces eniList token));
      match (x : list network_interface * option string).2 with
      | None => mret x.1
      | Some token =>
          rest ← describeENIsFoGC n eniList (Some token);
          mret (x.1 ++ rest)
      end
  end.

Fixpoint describeENIsFoGCWorker (fuel : nat) (describeWQ : list (list string)) : M (list network_interface) :=
  match describeWQ with
  | [] => mret []
  | enis :: rest =>
      l ← describeENIsFoGC fuel enis None;
      ls ← describeENIsFoGCWorker fuel rest;
      mret (l ++ ls)
  end.

(** An error is only logged. *)
Fixpoint gcWorker (wq : list network_interface) : M unit :=
  match wq with
  | [] => mret tt
  | eni :: rest =>
      _ ← try (doGCENI eni);
      gcWorker rest
  end.

Definition doGCENIs (fuel : nat) (region account : string) : M unit :=
  _ ← wrap "Cannot get EC2 session" (GetSessionFromAccountAndRegion ec2 account region);
  enis ← getGCableENIs region account;
  ifaces ← describeENIsFoGCWorker fuel (describeCollector [] enis);
  gcWorker ifaces.
End WithEC2.

(** ** What is taken away is not in use *)

(** A static address without an attachment, which goes back to its home ENI. *)
Definition free_static (d : db) (iface : network_interface) (row : ip_address_row) : Prop :=
  row ∈ ip_addresses d ∧ ip_subnet_id row = ni_SubnetId iface ∧
  (ip_id row ∉ ia_ip_address_uuid <$> ip_address_attachments d) ∧ ip_ip_address row ∈ secondary_addresses iface.

(** An address that no assignment of the ENI has, in the column [addr]: the ENI is not attached, or
    it is, and the address was not seen for two minutes. *)
Definition removable (d : db) (t : Z) (iface : network_interface) (addr : assignment_row → option string) (ip : string) : Prop :=
  (ni_Status iface = available ∧ actively_attached (NetworkInterfaceId iface) d = false) ∨
  (∃ a assoc, a ∈ branch_eni_attachments d ∧ at_branch_eni a = NetworkInterfaceId iface ∧ at_state a = attached ∧
     at_association_id a = Some assoc ∧
     (∀ r, r ∈ assignments d → as_association r = assoc → addr r ≠ Some ip) ∧ long_unused t (ni_VpcId iface) ip d = true).

(** The calls the collection of one ENI may make. *)
Definition gc_call (d : db) (t : Z) (iface : network_interface) (e : event) : Prop :=
  match ev_call e with
  | UnassignPrivateIps eni ips =>
      eni = NetworkInterfaceId iface ∧
      ∀ ip, ip ∈ ips → ip ∈ secondary_addresses iface ∧
        (removable d t iface as_ipv4addr ip ∨ ∃ row, free_static d iface row ∧ ip = ip_ip_address row)
  | UnassignIpv6s eni ips =>
      eni = NetworkInterfaceId iface ∧
      ∀ ip, ip ∈ ips → ip ∈ ni_Ipv6Addresses iface ∧ removable d t iface as_ipv6addr ip
  | AssignPrivateIps eni ips allowReassignment =>
      allowReassignment = false ∧ ∃ row, free_static d iface row ∧ eni = ip_home_eni row ∧ ips = [ip_ip_address row]
  | DisassociateAddress association =>
      association ∈ omap pi_association (ni_PrivateIpAddresses iface) ∧
      (ni_Status iface = available ∧ actively_attached (NetworkInterfaceId iface) d = false ∨
       ∀ r, r ∈ elastic_ip_attachments d → ea_association_id r ≠ Some association)
  | _ => False
  end.

(** EC2 was asked to take a static address from [eni], and then to give it to its home ENI. *)
Definition relocated (eni : string) (row : ip_address_row) (es : list event) : Prop :=
  ∃ es1 es2, es = es1 ++ [Event (UnassignPrivateIps eni [ip_ip_address row]);
                          Event (AssignPrivateIps (ip_home_eni row) [ip_ip_address row] false)] ++ es2.

Lemma relocated_l eni row es es' : relocated eni row es → relocated eni row (es ++ es').
Proof. intros (es1 & es2 & ->). exists es1, (es2 ++ es'). by rewrite <- !app_assoc. Qed.

Lemma relocated_r eni row es es' : relocated eni row es → relocated eni row (es' ++ es).
Proof. intros (es1 & es2 & ->). exists (es' ++ es1), es2. by rewrite <- !app_assoc. Qed.

Section Safe.
Context (ec2 : ec2_oracle) (h : tx) (d : db) (t : Z) (iface : network_interface).

Abbreviation P := (gc_call d t iface).
Abbreviation observes := (observes [h] P d t).
Abbreviation traces := (traces (G:=eq id) [h] P d t).
Abbreviation moved := (relocated (NetworkInterfaceId iface)).

(** A group without errors had none before. *)
Definition no_less (g g' : list error) : Prop := g' = [] → g = [].

Lemma observes_group_run g f : observes f (λ _, True) → observes (group_run g f) (no_less g).
Proof.
  intros Hf. unfold group_run. eapply observes_bind; [by apply observes_try|]. intros [e|u] _; apply observes_ret; [|by intros ?].
  intros H. by apply app_nil in H as [_ ?].
Qed.

Lemma traces_group_run g f (Q : list event → Prop) :
  traces f (λ _, Q) → traces (group_run g f) (λ g' es, g' = [] → g = [] ∧ Q es).
Proof.
  intros Hf. unfold group_run. eapply traces_bind; [by apply traces_try|]. intros [e|u] es HQ; apply traces_ret.
  - intros H. by apply app_nil in H as [_ ?].
  - rewrite app_nil_r. done.
Qed.

Lemma observes_group_wait g : observes (group_wait g) (no_less g).
Proof.
  unfold group_wait. eapply observes_bind; [apply observes_try, observes_fault_point|]. intros [e|u] _; apply observes_ret; [|by intros ?].
  intros H. by apply app_nil in H as [_ ?].
Qed.

Lemma observes_error_or_nil errs : observes (error_or_nil errs) (λ _, errs = []).
Proof. destruct errs; [by apply observes_ret | apply observes_throw]. Qed.

Lemma relocateIPAddress_safe row :
  free_static d iface row →
  traces (relocateIPAddress ec2 (NetworkInterfaceId iface) (ip_ip_address row) (ip_home_eni row)) (λ _ es, moved row es).
Proof.
  intros Hf. unfold relocateIPAddress. eapply traces_bind; [apply traces_wrap, traces_call|].
  - split; [done|]. intros ip ->%list_elem_of_singleton. split; [apply Hf | eauto].
  - intros _ es ->. eapply traces_bind; [apply traces_call; split; [done|]; eauto|].
    intros _ es ->. apply traces_ret. by exists [], [].
Qed.

Lemma relocate_all_safe l g :
  Forall (free_static d iface) l →
  traces (relocate_all ec2 (NetworkInterfaceId iface) l g) (λ g' es, g' = [] → g = [] ∧ ∀ row, row ∈ l → moved row es).
Proof.
  intros Hl. revert g. induction Hl as [|row l Hrow Hl IH]; intros g; simpl.
  - apply traces_ret. intros ->. split; [done|]. by intros row ?%not_elem_of_nil.
  - eapply traces_bind; [by apply traces_group_run, relocateIPAddress_safe|]. intros g1 es H1.
    eapply traces_mono; [apply IH|]. intros g' es' H2 Hg'. destruct (H2 Hg') as [Hg1 Hall]. destruct (H1 Hg1) as [Hg Hmv].
    split; [done|]. intros row' [->|Hrow']%elem_of_cons; [by apply relocated_l | by apply relocated_r, Hall].
Qed.

Lemma removeStaticAddresses_safe v4 g :
  (∀ ip, ip ∈ v4 → ip ∈ secondary_addresses iface) →
  traces (removeStaticAddresses ec2 h iface v4 g)
    (λ x es, x.2 = [] → g = [] ∧ ∀ row, row ∈ unattached_static (ni_SubnetId iface) v4 d → moved row es).
Proof.
  intros Hv. unfold removeStaticAddresses. destruct v4 as [|ip v4].
  { apply traces_ret. intros ?. split; [done|]. intros row [_ Hrow]%elem_of_where.
    rewrite !andb_true_iff, !bool_decide_eq_true in Hrow. destruct Hrow as [[Hrow _] _]. by apply not_elem_of_nil in Hrow. }
  set (ips := ip :: v4) in *.
  eapply traces_bind; [by apply traces_wrap, traces_observes, (observes_query _ _ _ _ _ (λ l, l = unattached_static (ni_SubnetId iface) ips d))|].
  intros l es ->. eapply traces_bind; [apply relocate_all_safe|].
  - apply Forall_forall. intros row [Hrow Hc]%elem_of_where. rewrite !andb_true_iff, !bool_decide_eq_true, negb_true_iff, bool_decide_eq_false in Hc.
    destruct Hc as [[Hip Hsub] Hfree]. split_and!; auto.
  - intros g' es' H. apply traces_ret. intros Hg. destruct (H Hg) as [? Hall]. split; [done|]. intros row Hrow.
    by apply relocated_r, relocated_l, Hall.
Qed.

Lemma removeAddresses_safe ips c g : P (Event c) → observes (removeAddresses ec2 h iface ips c g) (λ x, no_less g x.2).
Proof.
  intros Hc. unfold removeAddresses, check_unassigned. eapply observes_bind.
  - apply observes_try with (Q := λ _, True). case_bool_decide; [|by apply observes_ret].
    eapply observes_bind; [by apply observes_wrap, (observes_query _ _ _ _ _ (λ _, True))|].
    intros n _. case_match; [apply observes_throw | by apply observes_ret].
  - intros [e|u] _; [apply observes_ret; by intros ?|]. eapply observes_bind; [by apply observes_group_run, observes_call|].
    intros g' Hg'. by apply observes_ret.
Qed.

Lemma when_any_safe ips g m :
  (ips ≠ [] → observes m (λ x, no_less g x.2)) → observes (when_any ips g m) (λ x, no_less g x.2).
Proof. intros H. unfold when_any. destruct ips; [apply observes_ret; by intros ? | by apply H]. Qed.

Lemma remove_associations_safe l g :
  Forall (λ a, P (Event (DisassociateAddress a))) l → observes (remove_associations ec2 l g) (no_less g).
Proof.
  intros Hl. revert g. induction Hl as [|a l Ha Hl IH]; intros g; simpl; [apply observes_ret; by intros ?|].
  eapply observes_bind; [by apply observes_group_run, observes_call|]. intros g1 H1.
  eapply observes_mono; [apply IH|]. intros g' H2 Hg'. auto.
Qed.

Lemma doGCUnattachedENI_safe v4 v6 :
  ni_Status iface = available → (∀ ip, ip ∈ v4 → ip ∈ secondary_addresses iface) → (∀ ip, ip ∈ v6 → ip ∈ ni_Ipv6Addresses iface) →
  traces (doGCUnattachedENI ec2 h iface v4 v6) (λ _ es, ∀ row, row ∈ unattached_static (ni_SubnetId iface) v4 d → moved row es).
Proof.
  intros Hst H4 H6. unfold doGCUnattachedENI.
  eapply traces_bind; [by apply traces_wrap, traces_observes, (observes_query _ _ _ _ _ (λ n, n = unattached_rows (NetworkInterfaceId iface) d))|].
  intros n es0 ->. destruct (unattached_rows (NetworkInterfaceId iface) d =? 0)%nat eqn:En; [apply traces_throw|].
  assert (actively_attached (NetworkInterfaceId iface) d = false) as Hfree.
  { apply Nat.eqb_neq in En. destruct (actively_attached _ d) eqn:E; [|done]. exfalso. apply En.
    unfold unattached_rows, count_where. rewrite E. rewrite where_nil; [done|]. intros b _. by rewrite andb_false_r. }
  eapply traces_bind; [by apply traces_wrap, removeStaticAddresses_safe|]. intros [static g] es1 Hmv.
  eapply traces_bind; [apply traces_observes, remove_associations_safe|].
  { apply Forall_forall. intros a (ip & Hip & Ha)%list_elem_of_omap. split; [|by left].
    apply list_elem_of_omap. exists ip. split; [done|]. by destruct (pi_primary ip). }
  intros g1 es2 Hg1. eapply traces_bind; [apply traces_observes, when_any_safe; intros _; apply removeAddresses_safe|].
  { split; [done|]. intros ip [Hip _]%elem_of_difference. split; [auto|]. left. by left. }
  intros [e4 g2] es3 Hg2. eapply traces_bind; [apply traces_observes, when_any_safe; intros _; apply removeAddresses_safe|].
  { split; [done|]. intros ip Hip. split; [auto|]. by left. }
  intros [e6 g3] es4 Hg3. eapply traces_bind; [apply traces_observes, observes_group_wait|]. intros g4 es5 Hg4.
  eapply traces_mono; [apply traces_observes, observes_error_or_nil|]. intros _ es6 [_ [_ ->]%app_nil]%app_nil row Hrow.
  apply relocated_r, relocated_l, Hmv; [|done]. apply Hg1, Hg2, Hg3, Hg4. done.
Qed.

Lemma remove_unknown_associations_safe gone l g :
  (∀ ip, ip ∈ l → ip ∈ ni_PrivateIpAddresses iface) →
  observes (remove_unknown_associations ec2 h gone l g) (no_less g).
Proof.
  revert g. induction l as [|ip l IH]; intros g Hl; simpl; [apply observes_ret; by intros ?|].
  assert (∀ g, observes (remove_unknown_associations ec2 h gone l g) (no_less g)) as Hrest.
  { intros g'. apply IH. intros. apply Hl. by right. }
  case_bool_decide; [done|]. destruct (pi_association ip) as [assoc|] eqn:Ea; [|done].
  eapply observes_bind; [by apply observes_wrap,
    (observes_query _ _ _ _ _ (λ n, n = count_where (λ r, oeqb (ea_association_id r) assoc) (elastic_ip_attachments d)))|].
  intros n ->. eapply (observes_bind _ _ _ _ _ _ (no_less g)); [|intros g1 H1; eapply observes_mono; [apply Hrest|]; intros g' H2 ?; auto].
  case_match eqn:En; [|apply observes_ret; by intros ?]. apply observes_group_run, observes_call; [|done]. split.
  - apply list_elem_of_omap. exists ip. split; [|done]. apply Hl. by left.
  - right. intros r Hr Hra. apply Nat.eqb_eq in En. unfold count_where in En. apply length_zero_iff_nil in En.
    assert (r ∈ where_ (λ r, oeqb (ea_association_id r) assoc) (elastic_ip_attachments d)) as Hin.
    { apply elem_of_where. split; [done|]. by apply bool_decide_eq_true. }
    rewrite En in Hin. by apply not_elem_of_nil in Hin.
Qed.

(** The addresses an attached ENI loses. *)
Lemma unused_removable addr a assoc ips ip :
  head (attached_v3 (NetworkInterfaceId iface) d) = Some a → at_association_id a = Some assoc →
  ip ∈ unused_addresses addr t assoc (ni_VpcId iface) ips d → ip ∈ ips ∧ removable d t iface addr ip.
Proof.
  intros Ha%head_Some_elem_of Has [Hip Hc]%elem_of_where. apply elem_of_where in Ha as [Ha Hb].
  rewrite !andb_true_iff, !bool_decide_eq_true in Hb. apply andb_true_iff in Hc as [Hn Hl].
  split; [done|]. right. exists a, assoc. split_and!; try done; try naive_solver.
  intros r Hr Hra Hrip. rewrite negb_true_iff, <- not_true_iff_false, existsb_exists in Hn. apply Hn.
  exists r. split; [by apply list_elem_of_In|]. by rewrite Hrip, Hra, !bool_decide_eq_true_2.
Qed.

Lemma observes_query_or_nil {A B} (l : list A) msg (f : db → list B) :
  observes (match l with [] => mret [] | _ => wrap msg (query h f) end) (λ a, a = [] ∨ a = f d).
Proof.
  destruct l; [by apply observes_ret; left|]. apply observes_wrap, observes_query. by right.
Qed.

Lemma doGCAttachedENI_safe v4 v6 :
  (∀ ip, ip ∈ v4 → ip ∈ secondary_addresses iface) → (∀ ip, ip ∈ v6 → ip ∈ ni_Ipv6Addresses iface) →
  traces (doGCAttachedENI ec2 h iface v4 v6) (λ _ es, ∀ row, row ∈ unattached_static (ni_SubnetId iface) v4 d → moved row es).
Proof.
  intros H4 H6. unfold doGCAttachedENI. eapply traces_bind.
  { apply traces_observes, (observes_try _ _ _ _ _ (λ assoc, ∃ a,
      head (attached_v3 (NetworkInterfaceId iface) d) = Some a ∧ at_association_id a = Some assoc)).
    eapply observes_bind; [apply observes_queryRow|]. intros a Ha. eapply observes_mono; [apply observes_scan|]. intros assoc Hassoc. by exists a. }
  intros [e|assoc] es0; [intros _; case_match; apply traces_throw|]. intros (a & Ha & Has).
  eapply traces_bind; [by apply traces_observes, (observes_now _ _ _ _ (λ t', t' = t))|]. intros ? es1 ->.
  eapply traces_bind; [by apply traces_wrap, removeStaticAddresses_safe|]. intros [static g] es2 Hmv.
  set (v4' := difference_strings v4 static).
  assert (∀ ip, ip ∈ v4' → ip ∈ secondary_addresses iface) as H4' by (intros ip [? _]%elem_of_difference; auto).
  eapply traces_bind; [apply traces_observes, observes_query_or_nil|]. intros gone4 es3 Hg4.
  assert (∀ ip, ip ∈ gone4 → ip ∈ v4' ∧ removable d t iface as_ipv4addr ip) as Hgone4.
  { intros ip. destruct Hg4 as [->| ->]; [by intros ?%not_elem_of_nil | by apply (unused_removable _ a)]. }
  eapply traces_bind; [apply traces_observes, when_any_safe; intros _; apply removeAddresses_safe|].
  { split; [done|]. intros ip []%Hgone4. auto. }
  intros [e4 g1] es4 Hg1. eapply traces_bind; [by apply traces_observes, remove_unknown_associations_safe|]. intros g2 es5 Hg2.
  eapply traces_bind; [apply traces_observes, observes_query_or_nil|]. intros gone6 es6 Hg6.
  eapply traces_bind; [apply traces_observes, when_any_safe; intros _; apply removeAddresses_safe|].
  { split; [done|]. intros ip Hip. destruct Hg6 as [->| ->]; [by apply not_elem_of_nil in Hip|].
    apply (unused_removable _ a) in Hip as []; auto. }
  intros [e6 g3] es7 Hg3. eapply traces_bind; [apply traces_observes, observes_group_wait|]. intros g4 es8 Hg4'.
  eapply traces_mono; [apply traces_observes, observes_error_or_nil|]. intros _ es9 [_ ->]%app_nil row Hrow.
  do 2 apply relocated_r. apply relocated_l, Hmv; [|done]. apply Hg1, Hg2, Hg3, Hg4'. done.
Qed.
End Safe.

(** C9: The collection of one ENI changes nothing in the database, and whatever fails, EC2 is only
    asked to take away what nothing uses: private addresses of the ENI that either no assignment of
    its association has and that were not seen for two minutes, or that belong to an ENI that is not
    attached, or that are static addresses without an attachment.  If it succeeds, EC2 was asked to give each
    of the latter to its home ENI right after it was taken away.  Elastic IPs are only disassociated when the
    ENI is not attached or no elastic IP attachment has the association. *)
Theorem doGCENI_safe ec2 iface w :
  wp (doGCENI ec2 iface) (λ r w', w_db w' = w_db w ∧
    ∃ es, w_calls w' = w_calls w ++ es ∧ Forall (gc_call (w_db w) (w_now w) iface) es ∧
      (r = Ok tt → ni_Status iface ≠ associated →
       ∀ row, free_static (w_db w) iface row → relocated (NetworkInterfaceId iface) row es)) w.
Proof.
  apply wp_bind, wp_wrap. apply wp_fault_point; [|intros e fs _; split; [done|]; exists []; by rewrite app_nil_r].
  intros fs _. set (w0 := set_faults fs w).
  assert (Hrows : ∀ row, free_static (w_db w) iface row →
    row ∈ unattached_static (ni_SubnetId iface) (secondary_addresses iface) (w_db w)).
  { intros row (? & ? & ? & ?). apply elem_of_where. split; [done|].
    by rewrite !andb_true_iff, !bool_decide_eq_true, negb_true_iff, bool_decide_eq_false. }
  eapply wp_mono; [eapply (traces_with_tx [] (gc_call (w_db w) (w_now w) iface) (w_db w) (w_now w) _ _ (λ _ es,
    ni_Status iface ≠ associated → ∀ row, free_static (w_db w) iface row → relocated (NetworkInterfaceId iface) row es));
    [auto with observes| |done|done|by intros h ?%elem_of_nil]|].
  - intros h. eapply (traces_bind _ _ _ _ _ _ (λ _ es,
      ni_Status iface ≠ associated → ∀ row, free_static (w_db w) iface row → relocated (NetworkInterfaceId iface) row es)).
    + assert (∀ ip, ip ∈ remove_dups (ni_Ipv6Addresses iface) → ip ∈ ni_Ipv6Addresses iface) by (intros ip; apply elem_of_remove_dups).
      case_bool_decide; [eapply traces_mono; [by apply doGCUnattachedENI_safe|]; by eauto|].
      case_bool_decide; [eapply traces_mono; [by apply doGCAttachedENI_safe|]; by eauto|].
      case_bool_decide; [by apply traces_ret | apply traces_throw].
    + intros _ es Hes. eapply traces_mono; [apply traces_observes, observes_Commit; by left|]. intros _ es' _ Hst row Hrow.
      by apply relocated_l, Hes.
  - intros r w' [(Hd & _ & _ & es & Hes & Hall) Hr]. split; [done|]. exists es. split_and!; [done..|]. intros -> Hst row Hrow.
    destruct Hr as (es' & Hes' & HQ). rewrite Hes in Hes'. apply app_inv_head in Hes' as ->. by apply HQ.
Qed.

(** ** What [GCV3] does to the database *)

Section Evolution.
Context (trunk : string) (running : list string).

Abbreviation stale_here := (stale_ids trunk running).

(** Assignments only disappear, with what is attached to them, and only stale ones. *)
Record gc_evolution (d d' : db) : Prop := GcEvolution {
  ge_attachments : branch_eni_attachments d' = branch_eni_attachments d;
  ge_branch_enis : branch_enis d' = branch_enis d;
  ge_addresses : ip_addresses d' = ip_addresses d;
  ge_elastic_ips : elastic_ips d' = elastic_ips d;
  ge_assignments r : r ∈ assignments d' → r ∈ assignments d;
  ge_kept r : r ∈ assignments d → r ∈ assignments d' ∨ as_assignment_id r ∈ stale_here d;
  ge_static a : a ∈ ip_address_attachments d → a ∈ ip_address_attachments d' ∨ ia_assignment_id a ∈ stale_here d;
  ge_elastic a : a ∈ elastic_ip_attachments d → a ∈ elastic_ip_attachments d' ∨ ea_assignment_id a ∈ stale_here d
}.

Lemma elem_of_stale_ids d id :
  id ∈ stale_here d ↔
  (∃ a r, a ∈ branch_eni_attachments d ∧ r ∈ assignments d ∧ at_association_id a = Some (as_association r) ∧
          at_trunk_eni a = trunk ∧ as_assignment_id r = id) ∧ id ∉ running.
Proof.
  unfold stale_ids, stale. rewrite list_elem_of_fmap. split.
  - intros ([a r] & -> & [Hj Hc]%elem_of_where). apply elem_of_join in Hj as (Ha & Hr & Hon). simpl in *.
    rewrite andb_true_iff, bool_decide_eq_true, negb_true_iff, bool_decide_eq_false in Hc.
    apply bool_decide_eq_true in Hon. destruct Hc as [Ht Hc]. split; [|done]. by exists a, r.
  - intros ((a & r & Ha & Hr & Hon & Ht & <-) & Hn). exists (a, r). split; [done|]. apply elem_of_where. split.
    + apply elem_of_join. split_and!; [done|done|]. by apply bool_decide_eq_true.
    + simpl. by rewrite andb_true_iff, bool_decide_eq_true, negb_true_iff, bool_decide_eq_false.
Qed.

Lemma stale_ids_mono d d' id :
  branch_eni_attachments d' = branch_eni_attachments d → (∀ r, r ∈ assignments d' → r ∈ assignments d) →
  id ∈ stale_here d' → id ∈ stale_here d.
Proof.
  intros Ha Has. rewrite !elem_of_stale_ids. intros [(a & r & H) Hn]. split; [|done].
  exists a, r. rewrite <- Ha. naive_solver.
Qed.

#[export] Instance gc_evolution_preorder : PreOrder gc_evolution.
Proof.
  split; [by split; auto|]. intros d1 d2 d3 [A1 B1 C1 D1 E1 F1 G1 H1] [A2 B2 C2 D2 E2 F2 G2 H2].
  assert (∀ id, id ∈ stale_here d2 → id ∈ stale_here d1) as Hmono by (intros id; by apply stale_ids_mono).
  split; try congruence; auto.
  - intros r [Hr|]%F1; [|by right]. apply F2 in Hr as []; auto.
  - intros a [Ha|]%G1; [|by right]. apply G2 in Ha as []; auto.
  - intros a [Ha|]%H1; [|by right]. apply H2 in Ha as []; auto.
Qed.

(** A [DELETE] of stale assignments. *)
Lemma delete_assignments_evolution p d :
  (∀ r, r ∈ assignments d → p r = true → as_assignment_id r ∈ stale_here d) → gc_evolution d (delete_assignments p d).
Proof.
  intros Hp. set (gone := where_ p (assignments d)).
  assert (∀ id, id ∈ as_assignment_id <$> gone → id ∈ stale_here d) as Hgone.
  { intros id (r & -> & [Hr Hpr]%elem_of_where)%list_elem_of_fmap. auto. }
  split; try done; simpl.
  - by intros r [Hr _]%elem_of_where.
  - intros r Hr. destruct (p r) eqn:E; [right; auto|]. left. apply elem_of_where. simpl. by rewrite E.
  - intros a Ha. destruct (decide (ia_assignment_id a ∈ as_assignment_id <$> gone)); [right; auto|]. left.
    apply elem_of_where. split; [done|]. by rewrite bool_decide_eq_false_2.
  - intros a Ha. destruct (decide (ea_assignment_id a ∈ as_assignment_id <$> gone)); [right; auto|]. left.
    apply elem_of_where. split; [done|]. by rewrite bool_decide_eq_false_2.
Qed.

Lemma delete_assignment_name_evolution id d : id ∈ stale_here d → gc_evolution d (delete_assignment_name id d).
Proof. intros Hid. apply delete_assignments_evolution. by intros r _ ->%bool_decide_eq_true. Qed.

Lemma delete_stale_evolution d : gc_evolution d (delete_stale trunk running d d).
Proof. apply delete_assignments_evolution. by intros r _ ?%bool_decide_eq_true. Qed.

Lemma delete_stale_none d : stale_here (delete_stale trunk running d d) = [].
Proof.
  apply elem_of_nil_inv. intros id Hid. pose proof Hid as Hd.
  apply (stale_ids_mono d) in Hd; [|done|apply delete_stale_evolution].
  apply elem_of_stale_ids in Hid as [(a & r & _ & Hr & _ & _ & <-) _].
  apply elem_of_where in Hr as [_ Hr]. simpl in Hr. by rewrite bool_decide_eq_true_2 in Hr.
Qed.

(** The statements that leave the assignments alone. *)
Lemma touch_enis_evolution t enis d : gc_evolution d (touch_enis t enis d).
Proof. by split; auto. Qed.

Lemma touch_addresses_evolution t ips d : gc_evolution d (touch_addresses t ips d).
Proof. by split; auto. Qed.

Lemma mark_generation_evolution d : gc_evolution d (mark_generation trunk d).
Proof. by split; auto. Qed.

Lemma stale_static_stale d r b ip : (r, b, ip) ∈ stale_static trunk running d → as_assignment_id r ∈ stale_here d.
Proof.
  unfold stale_static. rewrite list_elem_of_bind. intros ([a r'] & (b' & H & _)%list_elem_of_bind & Hs).
  apply list_elem_of_bind in H as (ip' & H%list_elem_of_singleton & _). simplify_eq/=.
  apply list_elem_of_fmap. by exists (a, r').
Qed.

Lemma sequel_exec_upsert h d X keys f :
  sequel h d X (exec_upsert h keys f) (λ _ X', X' = f (keys X) X ∧ schema_ok X').
Proof.
  eapply sequel_bind; [apply sequel_tx_view|]. intros ? ? [-> ->]. case_bool_decide; [|apply sequel_aborts].
  destruct (check_constraints (f (keys X) X)) eqn:E; [apply sequel_aborts|]. apply check_constraints_inr in E as [_ E].
  eapply sequel_mono; [apply sequel_write|]. by intros ? ? [-> _].
Qed.
End Evolution.

#[export] Hint Resolve sequel_exec_upsert : sequel.

(** Code after the commit that only talks to EC2. *)
Lemma wp_calls_db {A} (m : M A) (Q : res error A → db → Prop) w :
  calls_only m → (∀ r, (∀ s, r ≠ Panic s) → Q r (w_db w)) → wp m (λ r w', Q r (w_db w')) w.
Proof.
  intros Hm HQ. eapply wp_mono; [apply Hm|]. intros [a|e|s] w' [[cs ->] Hp]; simpl; try done; by apply HQ.
Qed.

(** The assignment has a static address. *)
Definition static_task (d : db) (id : string) : Prop :=
  ∃ r ip, r ∈ assignments d ∧ as_assignment_id r = id ∧ ip ∈ ip_addresses d ∧ as_ipv4addr r = Some (ip_ip_address ip).

Section Collect.
Context (ec2 : ec2_oracle) (trunk : string) (running : list string).

Abbreviation stale_here := (stale_ids trunk running).

(** What is not stale any more had a static address. *)
Definition gc_static (d d' : db) : Prop :=
  gc_evolution trunk running d d' ∧ ∀ id, id ∈ stale_here d → id ∈ stale_here d' ∨ static_task d id.

Lemma gc_static_refl d : gc_static d d.
Proof. split; [done|]. auto. Qed.

Lemma gc_static_trans d1 d2 d3 : gc_static d1 d2 → gc_static d2 d3 → gc_static d1 d3.
Proof.
  intros [E1 S1] [E2 S2]. split; [by etrans|]. intros id [H|]%S1; [|by right]. apply S2 in H as [|(r & ip & Hr & ? & Hip & ?)]; [by left|right].
  exists r, ip. rewrite (ge_addresses _ _ _ _ E1) in Hip. split_and!; try done. by apply (ge_assignments _ _ _ _ E1).
Qed.

Lemma delete_assignment_name_static r b ip d :
  (r, b, ip) ∈ stale_static trunk running d → gc_static d (delete_assignment_name (as_assignment_id r) d).
Proof.
  intros Hst. split; [apply delete_assignment_name_evolution; by eapply stale_static_stale|].
  unfold stale_static in Hst. apply list_elem_of_bind in Hst as ([a r'] & (b' & H & _)%list_elem_of_bind & Hs).
  apply list_elem_of_bind in H as (ip' & H%list_elem_of_singleton & [Hip Hc]%elem_of_where). simplify_eq/=.
  rewrite andb_true_iff, !bool_decide_eq_true in Hc. apply elem_of_where in Hs as [(_ & Hr & _)%elem_of_join _].
  intros id Hid. destruct (decide (id = as_assignment_id r')) as [->|Hne].
  - right. exists r', ip'. naive_solver.
  - left. apply elem_of_stale_ids in Hid as [(a' & r1 & ? & Hr1 & ? & ? & <-) Hn]. apply elem_of_stale_ids. split; [|done].
    exists a', r1. split_and!; try done. apply elem_of_where. split; [done|]. simpl. by rewrite bool_decide_eq_false_2.
Qed.

Lemma delete_assignment_name_shorter id d :
  id ∈ stale_here d → (length (assignments (delete_assignment_name id d)) < length (assignments d))%nat.
Proof.
  intros [(a & r & _ & Hr & _ & _ & Hid) _]%elem_of_stale_ids. simpl.
  pose proof (List.filter_length (λ r, bool_decide (as_assignment_id r = id)) (assignments d)) as Hl.
  assert (0 < count_where (λ r, bool_decide (as_assignment_id r = id)) (assignments d))%nat as Hpos.
  { apply (count_where_pos _ _ r); [done|]. by apply bool_decide_eq_true. }
  unfold count_where, where_ in *. unfold compose. lia.
Qed.

Lemma tryReallocateStaticAssignment_spec w :
  wp (tryReallocateStaticAssignment ec2 running trunk) (λ r w',
    gc_static (w_db w) (w_db w') ∧
    match r with
    | Ok true => (length (assignments (w_db w')) < length (assignments (w_db w)))%nat
    | Panic _ => False
    | _ => True
    end) w.
Proof.
  pose proof (gc_static_refl (w_db w)) as Hrefl.
  eapply (wp_with_tx_ends _ _ (λ r d', gc_static (w_db w) d' ∧
    match r with Ok true => (length (assignments d') < length (assignments (w_db w)))%nat | Panic _ => False | _ => True end));
    [apply wp_BeginTx_status|done|]. intros h. set (d := w_db w) in *.
  eapply ends_bind; [by apply sequel_try, sequel_queryRowAny|done|].
  intros [e|[[r b] ip]] X HK; [destruct e; first [by apply ends_ret | by apply ends_throw]|].
  destruct HK as [-> Hrow]. pose proof (stale_static_stale _ _ _ _ _ _ Hrow) as Hst. unfold GetSessionFromAccountAndRegion, session_UnassignPrivateIPAddresses.
  ends_step. subst X. ends_step. subst X.
  eapply (ends_bind _ _ _ _ _ (λ _ X, X = d)); [|done|].
  { destruct a0 as [e|]; [destruct (unassign_failed e)|]; first [apply sequel_throw | by apply sequel_ret]. }
  intros [] X ->. ends_step. destruct K as [-> _]. apply ends_commit; [done|]. intros w1 Hd1 _.
  apply (wp_calls_db _ (λ r d', gc_static d d' ∧
    match r with Ok true => (length (assignments d') < length (assignments d))%nat | Panic _ => False | _ => True end)).
  - unfold session_AssignPrivateIPAddresses. intros w2. apply wp_bind, wp_try, wp_wrap_status, wp_call; intros.
    + apply wp_ret. split; [by eexists | done].
    + apply wp_ret. split; [by eexists | done].
  - intros r' Hr'. rewrite Hd1. split; [by eapply delete_assignment_name_static|].
    destruct r' as [[]|?|s]; [by apply delete_assignment_name_shorter | done | done | by destruct (Hr' s)].
Qed.

Lemma reallocateStaticAssignments_spec w :
  wp (reallocateStaticAssignments ec2 running trunk) (λ r w', gc_static (w_db w) (w_db w') ∧ ∀ s, r ≠ Panic s) w.
Proof.
  unfold reallocateStaticAssignments.
  assert (∀ n w, (length (assignments (w_db w)) < n)%nat →
    wp (reallocateStaticAssignments_loop ec2 n running trunk) (λ r w', gc_static (w_db w) (w_db w') ∧ ∀ s, r ≠ Panic s) w) as H;
    [|apply H; lia].
  clear w. induction n as [|n IH]; intros w Hn; [lia|]. apply wp_bind.
  eapply wp_mono; [apply tryReallocateStaticAssignment_spec|].
  intros [[]|e|s] w1 [Hev Hlt]; [|by apply wp_ret|done|done].
  eapply wp_mono; [apply IH; lia|]. intros r w2 [Hev2 Hnp]. split; [by eapply gc_static_trans | done].
Qed.

Lemma hardGC_spec w :
  wp (hardGC ec2 running trunk) (λ r w',
    gc_evolution trunk running (w_db w) (w_db w') ∧
    match r with
    | Ok removed => stale_here (w_db w') = [] ∧ (∀ id, id ∈ removed → id ∈ stale_here (w_db w)) ∧
        ∀ id, id ∈ stale_here (w_db w) → id ∈ removed ∨ static_task (w_db w) id
    | Fail _ => True
    | Panic _ => False
    end) w.
Proof.
  apply wp_bind. eapply wp_mono; [apply reallocateStaticAssignments_spec|].
  intros [[]|e|s] w1 [[Hev Hstat] Hnp]; [|done|by destruct (Hnp s)].
  eapply wp_mono; [eapply (wp_with_tx_ends _ _ (λ r d', gc_evolution trunk running (w_db w1) d' ∧
    match r with
    | Ok removed => stale_here d' = [] ∧ ∀ id, id ∈ removed ↔ id ∈ stale_here (w_db w1)
    | Fail _ => True
    | Panic _ => False
    end)); [apply wp_BeginTx_status|done|]|].
  - intros h. set (d := w_db w1). ends_step. subst X. ends_step. destruct K as (-> & _ & _). set (d1 := touch_enis _ _ d).
    ends_step. destruct K as [-> _]. set (d2 := touch_addresses _ _ d1). ends_step. destruct K as (-> & -> & _).
    ends_step. destruct K as [-> _]. apply ends_commit; [done|]. intros w2 Hd2 _. apply wp_ret. rewrite Hd2. split_and!.
    + trans d1; [apply touch_enis_evolution|]. trans d2; [apply touch_addresses_evolution|].
      etrans; [apply delete_stale_evolution | apply mark_generation_evolution].
    + apply delete_stale_none.
    + intros id. split.
      * intros (r & -> & [_ Hr]%elem_of_where)%list_elem_of_fmap. by apply bool_decide_eq_true in Hr.
      * intros Hid. change (stale_here d) with (stale_here d2) in Hid. pose proof Hid as (att & r & _ & Hr & _ & _ & <-)%elem_of_stale_ids%proj1.
        apply list_elem_of_fmap. exists r. split; [done|]. apply elem_of_where. split; [done|]. by apply bool_decide_eq_true.
  - intros [removed|e|s] w2 [Hev2 H]; [|by split; [etrans|]|done]. destruct H as [Hnone Hrem].
    split; [by etrans|]. split_and!; [done| |].
    + intros id Hid%Hrem. eapply stale_ids_mono; [apply Hev|apply Hev|done].
    + intros id [Hid|]%Hstat; [|by right]. left. by apply Hrem.
Qed.

Lemma softGC_spec w :
  wp (softGC running trunk) (λ r w', w_db w' = w_db w ∧
    match r with Ok removed => removed = stale_here (w_db w) | Fail _ => True | Panic _ => False end) w.
Proof.
  eapply (wp_with_tx_ends _ _ (λ r d', d' = w_db w ∧
    match r with Ok removed => removed = stale_here (w_db w) | Fail _ => True | Panic _ => False end));
    [apply wp_BeginTx_status|done|]. intros h.
  eapply ends_sequel; [eauto with sequel| |done]. by intros a X [_ ->].
Qed.
End Collect.

Lemma gc_evolution_running trunk running d d' r :
  gc_evolution trunk running d d' → r ∈ assignments d → as_assignment_id r ∈ running → r ∈ assignments d'.
Proof. intros Hev Hr Hrun. by apply (ge_kept _ _ _ _ Hev) in Hr as [|[_ ?]%elem_of_stale_ids]. Qed.

Lemma GCV3_evolution ec2 req w :
  ∃ trunk, wp (GCV3 ec2 req) (λ r w',
    gc_evolution trunk (RunningTaskIDs req) (w_db w) (w_db w') ∧ ∀ s, r = Panic s → gc_InstanceIdentity req = None) w.
Proof.
  unfold GCV3. destruct (gc_InstanceIdentity req) as [[[id region] account]|]; [|exists ""; by apply wp_panic].
  pose proof (getSessionAndTrunkInterface_calls ec2 id region account w) as H. unfold wp in H |- *.
  destruct (getSessionAndTrunkInterface ec2 id region account w) as [r w1] eqn:E. simpl in H. destruct H as [[cs ->] Hp].
  unfold mbind, M_bind. rewrite E. destruct r as [[i t]|e|s]; [|by exists ""; simpl|done].
  exists (in_NetworkInterfaceId t). simpl. destruct (gc_Soft req).
  - eapply wp_mono; [apply (softGC_spec _ _ (set_calls cs w))|]. intros [a|e|s] w' [-> H]; done.
  - eapply wp_mono; [apply (hardGC_spec _ _ _ (set_calls cs w))|]. intros [a|e|s] w' [Hev H]; done.
Qed.

(** A task that has an assignment on the trunk and is not running *)
Definition abandoned (trunk : string) (running : list string) (d : db) (id : string) : Prop :=
  id ∉ running ∧
  ∃ a r, a ∈ branch_eni_attachments d ∧ at_trunk_eni a = trunk ∧ at_association_id a = Some (as_association r) ∧
         r ∈ assignments d ∧ as_assignment_id r = id.

Lemma stale_abandoned trunk running d id : id ∈ stale_ids trunk running d ↔ abandoned trunk running d id.
Proof. rewrite elem_of_stale_ids. unfold abandoned. naive_solver. Qed.

(** C11: Whatever happens during a call of [GCV3], it only panics if the request has no identity, every assignment of a running
    task stays, and all that the database loses are assignments, with their attached static and elastic
    addresses, that are on an ENI of one trunk and whose task is not among the running ones. *)
Theorem GCV3_keeps_running ec2 req w :
  ∃ trunk, wp (GCV3 ec2 req) (λ r w',
    (∀ s, r = Panic s → gc_InstanceIdentity req = None) ∧ gc_evolution trunk (RunningTaskIDs req) (w_db w) (w_db w') ∧
    ∀ r, r ∈ assignments (w_db w) → as_assignment_id r ∈ RunningTaskIDs req → r ∈ assignments (w_db w')) w.
Proof.
  destruct (GCV3_evolution ec2 req w) as [trunk H]. exists trunk. eapply wp_mono; [exact H|].
  intros r w' [Hev Hp]. split_and!; [done|done|]. intros r'. by apply (gc_evolution_running trunk).
Qed.

(** C27: A call of [GCV3] that succeeds and is not soft leaves no assignment on the trunk ENI of the
    instance whose task is not running, removes no other assignment, answers with tasks that are gone, and with all
    of them but those with a static address.  A soft one changes nothing and answers with exactly the tasks that are not running and have
    an assignment on the trunk ENI. *)
Theorem GCV3_collects ec2 req instanceID region account w i t cs :
  gc_InstanceIdentity req = Some (instanceID, region, account) →
  getSessionAndTrunkInterface ec2 instanceID region account w = (Ok (i, t), set_calls cs w) →
  let gone := abandoned (in_NetworkInterfaceId t) (RunningTaskIDs req) in
  wp (GCV3 ec2 req) (λ r w', ∀ removed, r = Ok removed →
    if gc_Soft req then w_db w' = w_db w ∧ ∀ id, id ∈ removed ↔ gone (w_db w) id
    else (∀ id, ¬ gone (w_db w') id) ∧
         (∀ r, r ∈ assignments (w_db w) → r ∈ assignments (w_db w') ∨ gone (w_db w) (as_assignment_id r)) ∧
         (∀ id, id ∈ removed → gone (w_db w) id) ∧
         (∀ id, gone (w_db w) id → id ∈ removed ∨ static_task (w_db w) id)) w.
Proof.
  intros Hid E gone. unfold GCV3. rewrite Hid. unfold wp, mbind, M_bind. rewrite E. simpl. destruct (gc_Soft req).
  - eapply wp_mono; [apply (softGC_spec _ _ (set_calls cs w))|]. intros r w' [-> H] removed ->. split; [done|]. subst removed.
    intros id. apply stale_abandoned.
  - eapply wp_mono; [apply (hardGC_spec _ _ _ (set_calls cs w))|]. intros r w' [Hev H] removed ->. destruct H as (Hn & Hr & Hs).
    split_and!.
    + intros id Hg%stale_abandoned. rewrite Hn in Hg. by apply not_elem_of_nil in Hg.
    + intros r Hin. destruct (ge_kept _ _ _ _ Hev r Hin); [by left|right]. by apply stale_abandoned.
    + intros id Hin. by apply stale_abandoned, Hr.
    + intros id Hg. by apply Hs, stale_abandoned.
Qed.

(** ** The batches *)

Lemma describeCollector_spec enis wq :
  (length enis ≤ gcBatchSize)%nat →
  concat (describeCollector enis wq) = enis ++ wq ∧
  Forall (λ b, b ≠ [] ∧ (length b ≤ S gcBatchSize)%nat) (describeCollector enis wq).
Proof.
  revert enis. induction wq as [|eni wq IH]; intros enis Hn; cbn [describeCollector].
  - destruct enis as [|e enis]; [done|]. simpl. rewrite !app_nil_r. split; [done|]. apply Forall_singleton.
    split; [done|]. lia.
  - case_match eqn:E.
    + destruct (IH []) as [IHc IHf]; [simpl; lia|]. simpl. rewrite IHc, <- app_assoc. split; [done|].
      constructor; [|done]. split; [by destruct enis|]. rewrite length_app. simpl. lia.
    + apply Nat.ltb_ge in E. destruct (IH (enis ++ [eni])) as [IHc IHf]; [done|]. by rewrite IHc, <- app_assoc.
Qed.

(** The collector hands every ENI on exactly once and in order, in batches that are not empty
    and hold at most one more than [gcBatchSize]. *)
Theorem describeCollector_batches enis :
  concat (describeCollector [] enis) = enis ∧
  Forall (λ b, b ≠ [] ∧ (length b ≤ S gcBatchSize)%nat) (describeCollector [] enis).
Proof. apply (describeCollector_spec []). simpl. lia. Qed.
