(* ===== verification/Gc.v ===== *)
(** * Gc: the garbage collection of the first two generations

    Models [vpc/service/gc.go] and [vpc/service/ec2wrapper/ec2_helper.go].  An agent of the
    first generation asks with the addresses it has allocated and those it has not
    ([GC]); one of the second generation asks for a branch ENI ([GCV2]).  The service
    takes addresses from the ENI that were not used for long, sends static ones back
    to their home ENI, and answers with those the agent should forget.

    Go sets and maps of strings are [gset] and [gmap]; a set whose order is not fixed is
    handed on in an order of the world's choice.  Addresses in the table
    ip_addresses are taken to be in canonical form.  Times are seconds. *)
From S2P Require Import Prelude Errors NetIP Schema Service Logic TxLogic BranchEni GenerateAssignment AssignV3.

Open Scope string_scope.
Open Scope Z_scope.
Open Scope list_scope.

(** ** Requests *)

(** [LastUsedTime] is None when [ptypes.Timestamp] refuses it. *)
Record UtilizedAddress := MkUtilizedAddress { uz_Address : string; uz_LastUsedTime : option Z }.

Record GCRequest := MkGCRequest {
  gq_InstanceID : string;
  gq_Region : string;
  gq_AccountID : string;
  gq_DeviceIndex : Z;
  gq_AllocatedAddresses : list UtilizedAddress;
  gq_UnallocatedAddresses : list UtilizedAddress
}.

Record GCResponse := MkGCResponse { gs_AddressToDelete : list string; gs_AddressToBump : list string }.

(** ** The calculation *)

Definition five_minutes : Z := 300.

(** [time.Time{}] in seconds of Unix time *)
Definition time_zero : Z := -62135596800.

Definition ipsToFree (now : Z) (privateIPAddress : string) (currentAddresses : gset string)
    (unallocatedAddressesMap : gmap string Z) (gcTimeout : Z) : gset string :=
  list_to_set (fst <$> where_ (λ x,
    is_v4 (ParseIP x.1) && negb (bool_decide (canonical x.1 = privateIPAddress)) &&
    bool_decide (canonical x.1 ∈ currentAddresses) && (gcTimeout <? now - x.2)) (map_to_list unallocatedAddressesMap)).

Definition ifaceIPv4Set (iface : network_interface) : gset string :=
  {[canonical (ni_PrivateIpAddress iface)]} ∪ list_to_set (canonical ∘ pi_address <$> ni_PrivateIpAddresses iface).

Definition utilizedAddressesToIPSet (ips : list UtilizedAddress) : gset string := list_to_set (canonical ∘ uz_Address <$> ips).

(** A later entry for the same address replaces an earlier one. *)
Fixpoint to_ip_map (ips : list UtilizedAddress) (m : gmap string Z) : error + gmap string Z :=
  match ips with
  | [] => inr m
  | u :: ips =>
      match uz_LastUsedTime u with
      | None => inl (EString "timestamp: nil Timestamp")
      | Some ts => to_ip_map ips (<[canonical (uz_Address u) := ts]> m)
      end
  end.

Definition utilizedAddressesToIPMap (ips : list UtilizedAddress) : error + gmap string Z := to_ip_map ips ∅.

Record gcCalculation := MkGcCalculation {
  ipsToFreeSet : gset string;
  allocatedAddressesSet : gset string;
  unallocatedAddressesSet : gset string;
  newCurrentIPAddressesSet : gset string;
  addressesToDeleteSet : gset string;
  addressesToBumpSet : gset string
}.

(** The elements that satisfy a test *)
Definition set_where (p : string → bool) (X : gset string) : gset string := list_to_set (where_ p (elements X)).

Definition calculateGcInterface (now : Z) (iface : network_interface) (req : GCRequest) (gcTimeout : Z) : error + gcCalculation :=
  let current := ifaceIPv4Set iface in
  let unallocated := utilizedAddressesToIPSet (gq_UnallocatedAddresses req) in
  match utilizedAddressesToIPMap (gq_UnallocatedAddresses req) with
  | inl e => inl e
  | inr m =>
      let allocated := utilizedAddressesToIPSet (gq_AllocatedAddresses req) in
      if (1 <? size (allocated ∩ unallocated))%nat
      then inl (EStatus InvalidArgument "The allocated address set, and unallocated set range overlap")
      else
        let free := ipsToFree now (ni_PrivateIpAddress iface) current m gcTimeout in
        if (0 <? size (free ∩ allocated))%nat then inl (EStatus Internal "Attempted to free IPs, that overlap with allocated set")
        else if bool_decide (ni_PrivateIpAddress iface ∈ free)
        then inl (EStatus Internal "Attempted to free primary IPs, that includes primary IP")
        else
          let newCurrent := current ∖ free in
          let forgotten := set_where (λ addr, let ip := canonical addr in
            negb (now - default time_zero (m !! ip) <? five_minutes) && negb (bool_decide (ip ∈ current))) unallocated in
          let toDelete := free ∪ (set_map canonical forgotten : gset string) in
          let unknown := set_where (λ addr, let ip := canonical addr in
            negb (bool_decide (ip ∈ allocated)) && negb (bool_decide (ip ∈ unallocated)) && negb (bool_decide (ip ∈ toDelete))) newCurrent in
          inr (MkGcCalculation free allocated unallocated newCurrent toDelete (set_map canonical unknown))
  end.

(** ** Interfaces by index *)

Definition interface_at (i : instance) (deviceIdx : Z) : option instance_eni :=
  List.find (λ ni, in_DeviceIndex ni =? deviceIdx) (inst_NetworkInterfaces i).

(** [strings.Contains] *)
Fixpoint strings_Contains (s sub : string) : bool :=
  String.prefix sub s || match s with EmptyString => false | String _ s => strings_Contains s sub end.

(** [az[:len(az)-1]] *)
Definition RegionFromAZ (az : string) : M string :=
  if (String.length az =? 0)%nat then go_panic "slice bounds out of range"
  else mret (String.substring 0 (String.length az - 1) az).

(** The rows of a query [SELECT .. FROM ip_addresses WHERE host(ip_address) = any($1)] *)
Definition static_rows (addrs : gset string) (d : db) : list ip_address_row :=
  where_ (λ r, bool_decide (ip_ip_address r ∈ addrs)) (ip_addresses d).

Section WithEC2.
Context (ec2 : ec2_oracle).

(** The left side is [ErrInterfaceByIdxNotFound], with its instance. *)
Definition GetInterfaceByIdxWithRetries (i : instance) (deviceIdx : Z) : M (instance + instance_eni) :=
  match interface_at i deviceIdx with
  | Some ni => mret (inr ni)
  | None =>
      i ← session_GetInstance ec2 (InstanceId i) true;
      mret (match interface_at i deviceIdx with Some ni => inr ni | None => inl i end)
  end.

(** *** Taking addresses away *)

(** [GROUP BY home_eni], row by row: static addresses go back to their home. *)
Fixpoint relocate (enis : list string) (rows : list ip_address_row) : M unit :=
  match enis with
  | [] => mret tt
  | eni :: enis =>
      let ips := ip_ip_address <$> where_ (λ r, bool_decide (ip_home_eni r = eni)) rows in
      _ ← wrap "Unable to relocate IP addresses" (session_AssignPrivateIPAddresses ec2 (AssignPrivateIps eni ips true));
      relocate enis rows
  end.

(** Whether the error of EC2 may be due to a stale description *)
Definition too_many (e : error) : bool :=
  match e with
  | EAws a => bool_decide (aws_Code a = "InvalidParameterValue") &&
              strings_Contains (aws_Message a) "Some of the specified addresses are not assigned"
  | _ => false
  end.

(** [again] is the call of itself with [retryAllowed] false. *)
Definition unassign_once (again : option (gset string → M unit)) (eni : string) (addrs : gset string) : M unit :=
  if bool_decide (addrs = ∅) then mret tt
  else
    with_tx (wrap_status Unknown "Could not start database transaction" BeginTx) (λ h,
      rows ← query h (static_rows addrs);
      enis ← shuffle (remove_dups (ip_home_eni <$> rows));
      _ ← relocate enis rows;
      _ ← try (Commit h);
      let remaining := addrs ∖ list_to_set (ip_ip_address <$> rows) in
      if bool_decide (remaining = ∅) then mret tt
      else
        ips ← shuffle (elements remaining);
        r ← try (session_UnassignPrivateIPAddresses ec2 eni ips);
        match r, again with
        | inr _, _ => mret tt
        | inl e, None => throw e
        | inl e, Some again =>
            if too_many e then
              iface ← session_GetNetworkInterfaceByID ec2 eni;
              again (ifaceIPv4Set iface ∩ remaining)
            else throw e
        end).

Definition unassignAddresses (eni : string) (addrs : gset string) (retryAllowed : bool) : M unit :=
  unassign_once (if retryAllowed then Some (unassign_once None eni) else None) eni addrs.

Definition gcInterface (instanceNetworkInterface : instance_eni) (req : GCRequest) (gcTimeout : Z) : M GCResponse :=
  iface ← session_GetNetworkInterfaceByID ec2 (in_NetworkInterfaceId instanceNetworkInterface);
  t ← now;
  c ← lift (calculateGcInterface t iface req gcTimeout);
  _ ← unassignAddresses (in_NetworkInterfaceId instanceNetworkInterface) (ipsToFreeSet c) true;
  delete ← shuffle (elements (addressesToDeleteSet c));
  bump ← shuffle (elements (addressesToBumpSet c));
  mret (MkGCResponse delete bump).

Definition interface_not_at (deviceIdx : Z) (instanceID : string) : error :=
  EStatus NotFound ("Interface at index " +:+ pretty deviceIdx +:+ " not found on instance " +:+ instanceID).

Definition GC (gcTimeout : Z) (req : GCRequest) : M GCResponse :=
  _ ← GetSessionFromAccountAndRegion ec2 (gq_AccountID req) (gq_Region req);
  i ← session_GetInstance ec2 (gq_InstanceID req) false;
  o ← GetInterfaceByIdxWithRetries i (gq_DeviceIndex req);
  match o with
  | inl i => throw (interface_not_at (gq_DeviceIndex req) (InstanceId i))
  | inr instanceIface =>
      iface ← session_GetNetworkInterfaceByID ec2 (in_NetworkInterfaceId instanceIface);
      _ ← (if bool_decide (ni_OwnerId iface = inst_OwnerId i) then mret tt
           else region ← RegionFromAZ (inst_AvailabilityZone i);
                GetSessionFromAccountAndRegion ec2 (ni_OwnerId iface) region);
      gcInterface instanceIface req gcTimeout
  end.
End WithEC2.

(** ** Sets of addresses *)

Lemma elem_of_set_where p X x : x ∈ set_where p X ↔ x ∈ X ∧ p x = true.
Proof. unfold set_where. rewrite elem_of_list_to_set, elem_of_where, elem_of_elements. done. Qed.

Definition all_canonical (X : gset string) : Prop := ∀ x, x ∈ X → canonical x = x.

Lemma map_canonical X : all_canonical X → (set_map canonical X : gset string) = X.
Proof.
  intros HX. apply set_eq. intros x. rewrite elem_of_map. split.
  - intros (y & -> & Hy). by rewrite (HX y Hy).
  - intros Hx. exists x. by rewrite (HX x Hx).
Qed.

Lemma canonical_fmap {A} (f : A → string) l : all_canonical (list_to_set (canonical ∘ f <$> l)).
Proof. intros x (a & -> & _)%elem_of_list_to_set%list_elem_of_fmap. apply canonical_idem. Qed.

Lemma ifaceIPv4Set_canonical iface : all_canonical (ifaceIPv4Set iface).
Proof.
  intros x [->%elem_of_singleton|Hx]%elem_of_union; [apply canonical_idem | by eapply canonical_fmap].
Qed.

Lemma to_ip_map_lookup ips m m' k t :
  to_ip_map ips m = inr m' → m' !! k = Some t →
  m !! k = Some t ∨ ∃ u, u ∈ ips ∧ canonical (uz_Address u) = k ∧ uz_LastUsedTime u = Some t.
Proof.
  revert m. induction ips as [|u ips IH]; intros m H Hk; simpl in H; [simplify_eq; by left|].
  destruct (uz_LastUsedTime u) as [ts|] eqn:E; [|done]. destruct (IH _ H Hk) as [Hm|(v & Hv & Hc & Ht)].
  - apply lookup_insert_Some in Hm as [[<- <-]|[_ Hm]]; [right | by left]. exists u. split; [by left | done].
  - right. exists v. split; [by right | done].
Qed.

(** ** What the calculation promises *)

(** An address that may be taken away: the agent says that it is not allocated and was not used
    for longer than the timeout; it is an IPv4 address of the interface and not its first. *)
Record freeable (now gcTimeout : Z) (iface : network_interface) (req : GCRequest) (ip : string) : Prop := {
  fr_old : ∃ u ts, u ∈ gq_UnallocatedAddresses req ∧ canonical (uz_Address u) = ip ∧ uz_LastUsedTime u = Some ts ∧ gcTimeout < now - ts;
  fr_unallocated : ∀ u, u ∈ gq_AllocatedAddresses req → canonical (uz_Address u) ≠ ip;
  fr_primary : ip ≠ ni_PrivateIpAddress iface;
  fr_interface : ip ∈ ifaceIPv4Set iface;
  fr_v4 : is_v4 (ParseIP ip) = true
}.

Lemma size_pos_nonempty (X : gset string) : (0 <? size X)%nat = false → X = ∅.
Proof. intros H%Nat.ltb_ge. apply leibniz_equiv, size_empty_inv. lia. Qed.

Lemma elem_of_utilized ips ip : ip ∈ utilizedAddressesToIPSet ips ↔ ∃ u, u ∈ ips ∧ canonical (uz_Address u) = ip.
Proof.
  unfold utilizedAddressesToIPSet. rewrite elem_of_list_to_set, list_elem_of_fmap. naive_solver.
Qed.

Lemma elem_of_ipsToFree now priv current m timeout ip :
  ip ∈ ipsToFree now priv current m timeout ↔
  ∃ ts, m !! ip = Some ts ∧ is_v4 (ParseIP ip) = true ∧ canonical ip ≠ priv ∧ canonical ip ∈ current ∧ timeout < now - ts.
Proof.
  unfold ipsToFree. rewrite elem_of_list_to_set, list_elem_of_fmap. split.
  - intros ([k ts] & -> & [Hk H]%elem_of_where). apply elem_of_map_to_list in Hk. simpl in *.
    rewrite !andb_true_iff, negb_true_iff, bool_decide_eq_false, bool_decide_eq_true, Z.ltb_lt in H. exists ts. tauto.
  - intros (ts & Hk & H1 & H2 & H3 & H4). exists (ip, ts). split; [done|]. apply elem_of_where.
    split; [by apply elem_of_map_to_list|]. simpl.
    rewrite !andb_true_iff, negb_true_iff, bool_decide_eq_false, bool_decide_eq_true, Z.ltb_lt. tauto.
Qed.

Lemma calculate_inv now iface req timeout c :
  calculateGcInterface now iface req timeout = inr c →
  ∃ m, utilizedAddressesToIPMap (gq_UnallocatedAddresses req) = inr m ∧
    let current := ifaceIPv4Set iface in
    let unallocated := utilizedAddressesToIPSet (gq_UnallocatedAddresses req) in
    let allocated := utilizedAddressesToIPSet (gq_AllocatedAddresses req) in
    let free := ipsToFree now (ni_PrivateIpAddress iface) current m timeout in
    (size (allocated ∩ unallocated) ≤ 1)%nat ∧ free ∩ allocated = ∅ ∧ (ni_PrivateIpAddress iface ∉ free) ∧
    ipsToFreeSet c = free ∧ allocatedAddressesSet c = allocated ∧ unallocatedAddressesSet c = unallocated ∧
    newCurrentIPAddressesSet c = current ∖ free ∧
    (∀ ip, ip ∈ addressesToDeleteSet c ↔ ip ∈ free ∨ ip ∈ unallocated ∧ (ip ∉ current) ∧ five_minutes ≤ now - default time_zero (m !! ip)) ∧
    (∀ ip, ip ∈ addressesToBumpSet c ↔ ip ∈ current ∖ free ∧ (ip ∉ allocated) ∧ (ip ∉ unallocated) ∧ ip ∉ addressesToDeleteSet c).
Proof.
  unfold calculateGcInterface. destruct (utilizedAddressesToIPMap _) as [e|m] eqn:Em; [done|]. intros H. exists m. split; [done|].
  cbv zeta in *. set (current := ifaceIPv4Set iface) in *. set (unallocated := utilizedAddressesToIPSet (gq_UnallocatedAddresses req)) in *.
  set (allocated := utilizedAddressesToIPSet (gq_AllocatedAddresses req)) in *.
  destruct (Nat.ltb_spec 1 (size (allocated ∩ unallocated))) as [|Hsize]; [done|].
  set (free := ipsToFree now (ni_PrivateIpAddress iface) current m timeout) in *.
  destruct (0 <? size (free ∩ allocated))%nat eqn:E1; [done|]. apply size_pos_nonempty in E1.
  case_bool_decide as E2; [done|]. injection H as <-. simpl.
  assert (all_canonical unallocated) as Hu by apply canonical_fmap.
  assert (all_canonical (current ∖ free)) as Hcur by (intros x Hx; apply (ifaceIPv4Set_canonical iface); set_solver).
  assert (∀ p X, all_canonical X → all_canonical (set_where p X)) as Hw by (intros p X HX x [Hx _]%elem_of_set_where; auto).
  rewrite !map_canonical by auto.
  split_and!; [done..| |].
  - intros ip. rewrite elem_of_union, elem_of_set_where, andb_true_iff, !negb_true_iff, bool_decide_eq_false, Z.ltb_ge. split.
    + intros [|(Hip & Ht & Hn)]; [by left | right]. rewrite (Hu ip Hip) in *. done.
    + intros [|(Hip & Hn & Ht)]; [by left | right]. rewrite (Hu ip Hip). done.
  - intros ip. rewrite elem_of_set_where, !andb_true_iff, !negb_true_iff, !bool_decide_eq_false. split.
    + intros (Hip & [H1 H2] & H3). rewrite (Hcur ip Hip) in *. done.
    + intros (Hip & H1 & H2 & H3). rewrite (Hcur ip Hip). done.
Qed.

(** What is freed may be freed. *)
Lemma calculate_freeable now iface req timeout c ip :
  calculateGcInterface now iface req timeout = inr c → ip ∈ ipsToFreeSet c → freeable now timeout iface req ip.
Proof.
  intros (m & Hm & H)%calculate_inv Hip. cbv zeta in H. destruct H as (_ & Hdisj & Hprim & Hfree & _). rewrite Hfree in Hip.
  pose proof Hip as (ts & Hts & Hv4 & Hpriv & Hcur & Hlt)%elem_of_ipsToFree.
  destruct (to_ip_map_lookup _ _ _ _ _ Hm Hts) as [?|(u & Hu & Hc & Hu2)]; [by rewrite lookup_empty in *|].
  rewrite <- Hc, canonical_idem, Hc in Hcur. split; [by exists u, ts| | |done|done].
  - intros v Hv Heq. assert (ip ∈ utilizedAddressesToIPSet (gq_AllocatedAddresses req)) by (apply elem_of_utilized; eauto). set_solver.
  - intros ->. done.
Qed.

(** ** What EC2 is asked *)

Definition describing {A} (c : ec2_call A) : bool :=
  match c with
  | GetSession _ _ | DescribeInstance _ _ | DescribeNetworkInterface _ | DescribeSubnetsByID _ | DescribeSecurityGroups _ _ => true
  | _ => false
  end.

(** Static addresses go home; what is taken away is not static.  [free] says what may be taken from an ENI. *)
Definition gc_asks (d : db) (free : string → string → Prop) (ev : event) : Prop :=
  match ev_call ev with
  | UnassignPrivateIps eni ips => ∀ ip, ip ∈ ips → free eni ip ∧ (ip ∉ ip_ip_address <$> ip_addresses d)
  | AssignPrivateIps home ips _ =>
      ∀ ip, ip ∈ ips → ∃ row, row ∈ ip_addresses d ∧ ip_ip_address row = ip ∧ ip_home_eni row = home ∧ ∃ eni, free eni ip
  | c => describing c = true
  end.

Section Asking.
Context (ec2 : ec2_oracle) (d : db) (t : Z) (free : string → string → Prop).

Abbreviation P := (gc_asks d free).

Lemma relocate_asks hs enis rows eni :
  (∀ row, row ∈ rows → row ∈ ip_addresses d ∧ free eni (ip_ip_address row)) →
  observes hs P d t (relocate ec2 enis rows) (λ _, True).
Proof.
  intros Hrows. induction enis as [|home enis IH]; simpl; [by apply observes_ret|].
  eapply observes_bind; [apply observes_wrap, observes_wrap_status, (observes_call _ _ _ _ _ _ (λ _, True)); [|done]|by intros].
  intros ip (row & -> & [Hrow Hhome%bool_decide_eq_true]%elem_of_where)%list_elem_of_fmap. destruct (Hrows row Hrow) as [Hd Hf].
  exists row. split_and!; [done|done|done|by exists eni].
Qed.

Lemma unassign_once_asks hs again eni addrs :
  (∀ ip, ip ∈ addrs → free eni ip) →
  (∀ again', again = Some again' → ∀ hs X, X ⊆ addrs → observes hs P d t (again' X) (λ _, True)) →
  observes hs P d t (unassign_once ec2 again eni addrs) (λ _, True).
Proof.
  intros Hfree Hagain. unfold unassign_once. case_bool_decide; [by apply observes_ret|].
  apply observes_with_tx; [auto with observes|]. intros h.
  eapply observes_bind; [apply (observes_query_of _ _ _ _ h _ (λ rows, rows = static_rows addrs d)); [by left|done]|]. intros rows ->.
  eapply observes_bind; [apply observes_shuffle|]. intros enis _.
  eapply observes_bind.
  { apply (relocate_asks _ _ _ eni). intros row [Hrow Hip%bool_decide_eq_true]%elem_of_where. auto. }
  intros _ _. eapply observes_bind; [apply observes_try, observes_Commit; by left|]. intros _ _. cbv zeta.
  set (remaining := addrs ∖ _). case_bool_decide; [by apply observes_ret|].
  eapply observes_bind; [apply observes_shuffle|]. intros ips Hips.
  eapply observes_bind; [apply observes_try, (observes_call _ _ _ _ _ _ (λ _, True)); [|done]|].
  { intros ip Hip. assert (ip ∈ remaining) as Hr by (rewrite <- elem_of_elements, <- Hips; done).
    subst remaining. apply base.elem_of_difference in Hr as [Ha Hn]. split; [auto|]. intros (row & -> & Hrow)%list_elem_of_fmap.
    apply Hn, elem_of_list_to_set, list_elem_of_fmap. exists row. split; [done|]. apply elem_of_where.
    split; [done|]. by apply bool_decide_eq_true_2. }
  intros [e|u] _; [|by apply observes_ret]. destruct again as [again|]; [|apply observes_throw].
  case_match; [|apply observes_throw]. eapply observes_bind; [by apply observes_GetNetworkInterfaceByID|]. intros iface _.
  apply (Hagain again); [done|]. set_solver.
Qed.

Lemma unassignAddresses_asks hs eni addrs retry :
  (∀ ip, ip ∈ addrs → free eni ip) → observes hs P d t (unassignAddresses ec2 eni addrs retry) (λ _, True).
Proof.
  intros Hfree. apply unassign_once_asks; [done|]. intros again Ha hs' X HX. destruct retry; [|done]. injection Ha as <-.
  apply unassign_once_asks; [|done]. intros ip Hip. apply Hfree. set_solver.
Qed.

Lemma observes_lift {A} hs (r : error + A) : observes hs P d t (lift r) (λ a, r = inr a).
Proof. destruct r; [apply observes_throw | by apply observes_ret]. Qed.
End Asking.

(** Shared by the handlers of the first generation *)
Section Interfaces.
Context (ec2 : ec2_oracle) (hs : list tx) (P : event → Prop) (d : db) (t : Z).

Lemma observes_panic {A G} s (Q : A → Prop) : observes_in (G:=G) hs P d t (go_panic s) Q.
Proof. intros w Hd Ht Hp. apply wp_panic. split; [by apply observed_refl | done]. Qed.

Lemma observes_GetInterfaceByIdx i idx :
  (∀ b, P (Event (DescribeInstance (InstanceId i) b))) → observes hs P d t (GetInterfaceByIdxWithRetries ec2 i idx) (λ _, True).
Proof.
  intros HP. unfold GetInterfaceByIdxWithRetries. case_match; [by apply observes_ret|].
  eapply observes_bind; [by apply observes_GetInstance|]. intros. by apply observes_ret.
Qed.

Lemma observes_RegionFromAZ az : observes hs P d t (RegionFromAZ az) (λ _, True).
Proof. unfold RegionFromAZ. case_match; [apply observes_panic | by apply observes_ret]. Qed.
End Interfaces.

(** The response to a calculation, in some order *)
Definition answers_gc (c : gcCalculation) (resp : GCResponse) : Prop :=
  gs_AddressToDelete resp ≡ₚ elements (addressesToDeleteSet c) ∧ gs_AddressToBump resp ≡ₚ elements (addressesToBumpSet c).

(** An ENI as EC2 described it *)
Definition is_described (ec2 : ec2_oracle) (eni : string) (iface : network_interface) : Prop :=
  ∃ cs, ec2 _ cs (DescribeNetworkInterface eni) = inr iface.

Definition free_for (ec2 : ec2_oracle) (now gcTimeout : Z) (req : GCRequest) (eni ip : string) : Prop :=
  ∃ iface, is_described ec2 eni iface ∧ freeable now gcTimeout iface req ip.

Lemma GC_observes ec2 gcTimeout req d t hs :
  observes hs (gc_asks d (free_for ec2 t gcTimeout req)) d t (GC ec2 gcTimeout req)
    (λ resp, ∃ eni iface c, is_described ec2 eni iface ∧ calculateGcInterface t iface req gcTimeout = inr c ∧ answers_gc c resp).
Proof.
  unfold GC. eapply observes_bind; [by apply (observes_call _ _ _ _ _ _ (λ _, True))|]. intros _ _.
  eapply observes_bind; [by apply observes_GetInstance|]. intros i _.
  eapply observes_bind; [by apply observes_GetInterfaceByIdx|].
  intros [i'|ni] _; [apply observes_throw|].
  eapply observes_bind; [by apply observes_GetNetworkInterfaceByID|]. intros iface0 _.
  eapply (observes_bind _ _ _ _ _ _ (λ _, True)).
  { case_bool_decide; [by apply observes_ret|]. eapply (observes_bind _ _ _ _ _ _ (λ _, True)).
    - apply observes_RegionFromAZ.
    - intros region _. by apply (observes_call _ _ _ _ _ _ (λ _, True)). }
  intros _ _. unfold gcInterface.
  eapply observes_bind; [by apply observes_GetNetworkInterfaceByID|]. intros iface Hiface.
  eapply observes_bind; [by apply (observes_now _ _ _ _ (λ t', t' = t))|]. intros ? ->.
  eapply observes_bind; [apply observes_lift|]. intros c Hc.
  eapply observes_bind; [apply unassignAddresses_asks|].
  { intros ip Hip. exists iface. split; [done|]. exact (calculate_freeable _ _ _ _ _ _ Hc Hip). }
  intros _ _. eapply observes_bind; [apply observes_shuffle|]. intros del Hdel.
  eapply observes_bind; [apply observes_shuffle|]. intros bump Hbump. apply observes_ret.
  exists (in_NetworkInterfaceId ni), iface, c. by split_and!.
Qed.

(** ** Claims *)

(** [GC] changes nothing in the database, and whatever fails EC2 is only asked to take
    away addresses that the agent reports as not allocated and not used for longer than the timeout, that are
    IPv4 addresses of the interface other than its first, and that are not static; static ones go back
    to their home ENI.  An answer tells the agent what the calculation says. *)
Theorem GC_safe ec2 gcTimeout req w :
  wp (GC ec2 gcTimeout req) (λ r w',
    quiet (gc_asks (w_db w) (free_for ec2 (w_now w) gcTimeout req)) w w' ∧
    match r with
    | Ok resp => ∃ eni iface c, is_described ec2 eni iface ∧ calculateGcInterface (w_now w) iface req gcTimeout = inr c ∧ answers_gc c resp
    | _ => True
    end) w.
Proof. apply observes_quiet, GC_observes. Qed.

(** The calculation of [GC] divides the addresses of the interface: each is taken away, or
    allocated, or unallocated and kept, or unknown to the agent, which is then told of it.  None that
    is allocated is taken away, and the agent is told to forget what was taken away and what it does not have on the
    interface any more, which is never an address that stays there. *)
Theorem calculateGcInterface_partition now iface req timeout c :
  calculateGcInterface now iface req timeout = inr c →
  let current := ifaceIPv4Set iface in
  (∀ ip, ip ∈ ipsToFreeSet c → freeable now timeout iface req ip) ∧
  newCurrentIPAddressesSet c = current ∖ ipsToFreeSet c ∧
  current = ipsToFreeSet c ∪ (current ∩ allocatedAddressesSet c) ∪ ((current ∩ unallocatedAddressesSet c) ∖ ipsToFreeSet c) ∪ addressesToBumpSet c ∧
  addressesToBumpSet c ## ipsToFreeSet c ∪ allocatedAddressesSet c ∪ unallocatedAddressesSet c ∧
  ipsToFreeSet c ⊆ addressesToDeleteSet c ∧ addressesToDeleteSet c ⊆ unallocatedAddressesSet c ∧
  addressesToDeleteSet c ## newCurrentIPAddressesSet c ∧
  (size (addressesToDeleteSet c ∩ allocatedAddressesSet c) ≤ 1)%nat.
Proof.
  intros H. cbv zeta. pose proof (λ ip, calculate_freeable now iface req timeout c ip H) as Hfr.
  destruct (calculate_inv _ _ _ _ _ H) as (m & Hm & Hinv). cbv zeta in Hinv.
  destruct Hinv as (Hsize & Hdisj & Hprim & Hfree & Halloc & Hun & Hnew & Hdel & Hbump).
  assert (ipsToFreeSet c ⊆ ifaceIPv4Set iface) as Hsub1 by (intros ip Hip; by apply (Hfr ip Hip)).
  assert (ipsToFreeSet c ⊆ unallocatedAddressesSet c) as Hsub2.
  { intros ip Hip. destruct (fr_old _ _ _ _ _ (Hfr ip Hip)) as (u & ts & Hu & Hc & _). rewrite Hun. apply elem_of_utilized. eauto. }
  rewrite <- Hfree, <- Halloc, <- Hun in *.
  assert (∀ ip, ip ∈ addressesToBumpSet c ↔ ip ∈ ifaceIPv4Set iface ∧ (ip ∉ allocatedAddressesSet c) ∧ ip ∉ unallocatedAddressesSet c) as Hb.
  { intros ip. rewrite Hbump, Hdel. set_solver. }
  assert (addressesToDeleteSet c ⊆ unallocatedAddressesSet c) as Hsub3 by (intros ip [?|[? _]]%Hdel; auto).
  split_and!; [done|done| | | |done| |].
  - apply set_eq. intros ip. rewrite !elem_of_union, base.elem_of_difference, !elem_of_intersection, Hb.
    destruct (decide (ip ∈ allocatedAddressesSet c)), (decide (ip ∈ unallocatedAddressesSet c)), (decide (ip ∈ ipsToFreeSet c)); set_solver.
  - intros ip Hip%Hb. set_solver.
  - intros ip Hip. apply Hdel. by left.
  - rewrite Hnew. intros ip [?|(_ & ? & _)]%Hdel; set_solver.
  - etrans; [|exact Hsize]. apply subseteq_size. set_solver.
Qed.

(** ** An example: two addresses of the agent were not used for long, and one of them is on the interface. *)
Definition example_interface : network_interface :=
  NetworkInterface "eni-5" "subnet-1" "acc-1" "us-east-1a" "vpc-1" "" "in-use" [] "10.0.0.1"
    [PrivateIp "10.0.0.1" true None; PrivateIp "10.0.0.2" false None; PrivateIp "10.0.0.3" false None] [] None.

Definition example_request : GCRequest :=
  MkGCRequest "i-1" "us-east-1" "acc-1" 1 [MkUtilizedAddress "10.0.0.3" (Some 990)]
    [MkUtilizedAddress "10.0.0.2" (Some 10); MkUtilizedAddress "10.0.0.9" (Some 10)].

Definition example_calculation : gcCalculation :=
  MkGcCalculation {["10.0.0.2"]} {["10.0.0.3"]} {["10.0.0.2"; "10.0.0.9"]} {["10.0.0.1"; "10.0.0.3"]} {["10.0.0.2"; "10.0.0.9"]} {["10.0.0.1"]}.

Lemma example_calculates : calculateGcInterface 1000 example_interface example_request 600 = inr example_calculation.
Proof. vm_compute. reflexivity. Qed.

Lemma calculateGcInterface_partition_witness :
  calculateGcInterface 1000 example_interface example_request 600 = inr example_calculation ∧
  freeable 1000 600 example_interface example_request "10.0.0.2".
Proof.
  split; [exact example_calculates|].
  apply (proj1 (calculateGcInterface_partition 1000 example_interface example_request 600 example_calculation example_calculates)).
  vm_compute. reflexivity.
Defined.
