(* ===== verification/GcV2.v ===== *)
(** * GcV2: the garbage collection of the second generation

    Models [GCV2], [GCSetupLegacy], [GCSetup], [reassignAddresses] and [unassignAddressesV2] of
    [vpc/service/gc.go].  An agent asks which ENIs of its instance to collect ([GCSetup]), and then for each branch
    ENI with the addresses it has allocated and those it has not ([GCV2]).  The service decides by its own
    records of when an address was used.

    PostgreSQL is taken to print an inet as Go prints an IP. *)
From S2P Require Import Prelude Errors NetIP Schema Service Logic TxLogic BranchEni GenerateAssignment AssignV3 UnassignV3 Gc.

Open Scope string_scope.
Open Scope Z_scope.
Open Scope list_scope.

(** ** Requests *)

Record GCRequestV2 := MkGCRequestV2 {
  g2_NetworkInterfaceAttachment_Id : string;
  g2_AllocatedAddresses : list string;
  g2_UnallocatedAddresses : list string
}.

(** A [NetworkInterfaceAttachment]: its id and device index *)
Record ni_attachment := MkNiAttachment { na_Id : string; na_DeviceIndex : Z }.

(** [vpc.NetworkInterfaceDescription] *)
Definition NetworkInterfaceDescription : string := "titus-managed".

(** ** The addresses of an ENI *)

Definition request_addresses (l : list string) : gset string := list_to_set l.

Definition assigned_removable (eni : network_interface) : gset string :=
  list_to_set (canonical ∘ pi_address <$> where_ (λ a, negb (pi_primary a)) (ni_PrivateIpAddresses eni)) ∪
  list_to_set (canonical <$> ni_Ipv6Addresses eni).

Definition assigned (eni : network_interface) : gset string :=
  list_to_set (canonical ∘ pi_address <$> ni_PrivateIpAddresses eni) ∪ list_to_set (canonical <$> ni_Ipv6Addresses eni).

(** [staticAddressesToENI]: a later row replaces an earlier one. *)
Definition static_homes (rows : list ip_address_row) : gmap string string :=
  foldl (λ m r, <[canonical (ip_ip_address r) := ip_home_eni r]> m) ∅ rows.

(** [COALESCE(last_used, 'epoch') < $2 AND COALESCE(last_allocated, 'epoch') < $2] of the [LEFT JOIN] *)
Definition old_row (timeout : Z) (used allocated : option Z) : bool := (default 0 used <? timeout) && (default 0 allocated <? timeout).

Definition unused_since (timeout : Z) (d : db) (ip : string) : bool :=
  match where_ (λ r, bool_decide (ul_ip_address r = ip)) (ip_last_used d) with
  | [] => old_row timeout None None
  | rows => existsb (λ r, old_row timeout (ul_last_used r) (ul_last_allocated r)) rows
  end.

(** [unnest($1::text[])::inet] *)
Definition castable (ips : list string) : bool := forallb (λ ip, bool_decide (is_Some (ParseIP ip))) ips.

Section WithEC2.
Context (ec2 : ec2_oracle).

(** ** Taking addresses away *)

(** The range over the map *)
Fixpoint reassign_each (l : list (string * string)) : M unit :=
  match l with
  | [] => mret tt
  | (ip, eni) :: l =>
      r ← try (session_AssignPrivateIPAddresses ec2 (AssignPrivateIps eni [ip] true));
      match r with
      | inr _ => reassign_each l
      | inl e =>
          if match e with EAws a => bool_decide (aws_Code a = "InvalidParameterValue") | _ => false end
          then reassign_each l
          else throw (EWrap "Unable to relocate IP addresses" e)
      end
  end.

Definition reassignAddresses (ipToENIMap : gmap string string) : M unit :=
  l ← shuffle (map_to_list ipToENIMap);
  reassign_each l.

Definition unassignAddressesV2 (eni : string) (addrs : gset string) : M unit :=
  if bool_decide (addrs = ∅) then mret tt
  else
    let v6 := sort_Strings (elements (set_where (λ a, negb (is_v4 (ParseIP a))) addrs)) in
    let v4 := sort_Strings (elements (set_where (λ a, is_v4 (ParseIP a)) addrs)) in
    _ ← (if (0 <? length v4)%nat then session_UnassignPrivateIPAddresses ec2 eni v4 else mret tt);
    if (0 <? length v6)%nat then call ec2 (UnassignIpv6s eni v6) else mret tt.

(** ** Collecting an ENI *)

(** An ENI without removable addresses that no task uses *)
Definition note_unused (h : tx) (eni : string) : M unit :=
  r ← try (queryRow h (λ d, snd <$> List.find (λ x, bool_decide (x.1 = eni)) (branch_eni_last_used d)));
  match r with
  | inl ENoRows =>
      t ← now;
      _ ← try (exec h (λ d, set_branch_eni_last_used (upsert_eni_last_used t eni (branch_eni_last_used d)) d));
      mret tt
  | inl e => throw (EWrap "Unable to fetch when ENI was last used" e)
  | inr _ => mret tt
  end.

(** The addresses that were not used since the timeout *)
Definition not_used_since (h : tx) (timeout : Z) (candidates : gset string) : M (list string) :=
  wrap_status Unknown "Could not fetch addresses from the database"
    (if castable (elements candidates) then query h (λ d, where_ (unused_since timeout d) (sort_Strings (elements candidates)))
     else throw (EPq "invalid_text_representation" "")).

Definition GCV2 (gcTimeout : Z) (req : GCRequestV2) : M (list string) :=
  let id := g2_NetworkInterfaceAttachment_Id req in
  with_commit (wrap_status Unknown "Could not start database transaction" BeginTx) (λ h,
    _ ← statement h;
    b ← queryRow h (λ d, List.find (λ b, bool_decide (be_branch_eni b = id)) (branch_enis d));
    _ ← GetSessionFromAccountAndRegion ec2 (be_account_id b) (azToRegion (be_az b));
    r ← try (session_GetNetworkInterfaceByID ec2 id);
    match r with
    | inl e => throw (HandleEC2Error e)
    | inr eni =>
        let allocated := request_addresses (g2_AllocatedAddresses req) in
        let unallocated := request_addresses (g2_UnallocatedAddresses req) in
        _ ← (if bool_decide (allocated = ∅) && bool_decide (assigned_removable eni = ∅) then note_unused h id else mret tt);
        let candidates := assigned_removable eni ∖ allocated in
        rows ← wrap "Could not query database for statically assigned addresses" (query h (static_rows candidates));
        rows ← shuffle rows;
        let homes := static_homes rows in
        let candidates := candidates ∖ dom homes in
        _ ← reassignAddresses homes;
        t ← now;
        old ← not_used_since h (t - gcTimeout) candidates;
        _ ← unassignAddressesV2 id (list_to_set old);
        mret (sort_Strings (elements ((unallocated ∖ assigned eni) ∪ list_to_set old)))
    end).

(** ** What to collect *)

Definition GCSetupLegacy (instanceID region account : string) : M (list ni_attachment) :=
  _ ← GetSessionFromAccountAndRegion ec2 account region;
  i ← session_GetInstance ec2 instanceID false;
  mret ((λ ni, MkNiAttachment (in_NetworkInterfaceId ni) (uint32 (in_DeviceIndex ni))) <$>
        where_ (λ ni, bool_decide (in_Description ni = NetworkInterfaceDescription)) (inst_NetworkInterfaces i)).

(** The context of the transaction ends with the call, which rolls it back. *)
Definition GCSetup (instanceID region account : string) : M (list ni_attachment) :=
  _ ← GetSessionFromAccountAndRegion ec2 account region;
  i ← session_GetInstance ec2 instanceID false;
  match getTrunkENI i with
  | None => throw (EStatus FailedPrecondition "Instance does not have trunk ENI")
  | Some trunkENI =>
      with_tx (wrap_status Unknown "Could not start database transaction" BeginTx) (λ h,
        rows ← wrap_status Unknown "Could not run database query"
                 (query h (λ d, where_ (λ a, bool_decide (at_trunk_eni a = in_NetworkInterfaceId trunkENI)) (branch_eni_attachments d)));
        mret ((λ a, MkNiAttachment (at_branch_eni a) (uint32 (at_idx a))) <$> rows))
  end.
End WithEC2.

(** ** Records of use *)

Definition touch (t : Z) (eni : string) (d : db) : db := set_branch_eni_last_used (upsert_eni_last_used t eni (branch_eni_last_used d)) d.

Lemma upsert_idem t eni l : upsert_eni_last_used t eni (upsert_eni_last_used t eni l) = upsert_eni_last_used t eni l.
Proof.
  set (same := λ r : string * Z, bool_decide (r.1 = eni)). set (new := λ _ : string * Z, (eni, t)).
  assert (∀ r, same (new r) = true) as Hnew by (intros; by apply bool_decide_eq_true_2).
  assert (∀ r l', update_where same new (r :: l') = (if same r then new r else r) :: update_where same new l') as Hcons by done.
  assert (∀ l', update_where same new (update_where same new l') = update_where same new l') as Hidem.
  { induction l' as [|r l' IH]; [done|]. rewrite Hcons, Hcons, IH. destruct (same r) eqn:E; by rewrite ?Hnew, ?E. }
  assert (∀ l', existsb same l' = false → update_where same new l' = l') as Hnone.
  { induction l' as [|r l' IH]; [done|]. cbn [existsb]. intros [H1 H2]%orb_false_iff. by rewrite Hcons, H1, IH. }
  assert (∀ l', existsb same (update_where same new l') = existsb same l') as Hex.
  { induction l' as [|r l' IH]; [done|]. rewrite Hcons. cbn [existsb]. rewrite IH. destruct (same r) eqn:E; by rewrite ?Hnew, ?E. }
  assert (∀ l', upsert_eni_last_used t eni l' = if existsb same l' then update_where same new l' else l' ++ [new (eni, t)]) as Hu by done.
  rewrite !Hu. destruct (existsb same l) eqn:E; [by rewrite Hex, E, Hidem|].
  rewrite existsb_app, E. simpl existsb. rewrite Hnew. simpl. unfold update_where. rewrite fmap_app.
  fold (update_where same new l). rewrite Hnone by done. simpl. by rewrite Hnew.
Qed.

Lemma touch_idem t eni d : touch t eni (touch t eni d) = touch t eni d.
Proof. unfold touch. simpl. by rewrite upsert_idem. Qed.

(** ** The addresses *)

Lemma assigned_removable_canonical eni : all_canonical (assigned_removable eni).
Proof.
  intros x [Hx|(y & -> & _)%elem_of_list_to_set%list_elem_of_fmap]%elem_of_union; [by eapply canonical_fmap | apply canonical_idem].
Qed.

Lemma elem_of_assigned_removable eni ip :
  ip ∈ assigned_removable eni ↔
  (∃ a, a ∈ ni_PrivateIpAddresses eni ∧ pi_primary a = false ∧ canonical (pi_address a) = ip) ∨
  (∃ a, a ∈ ni_Ipv6Addresses eni ∧ canonical a = ip).
Proof.
  unfold assigned_removable. rewrite elem_of_union, !elem_of_list_to_set, !list_elem_of_fmap.
  setoid_rewrite elem_of_where. setoid_rewrite negb_true_iff. split; intros [(a & H)|(a & H)]; [left|right|left|right]; exists a; naive_solver.
Qed.

(** The record of the use of an address, if there is one, is older than the timeout. *)
Definition used_before (timeout : Z) (d : db) (ip : string) : Prop :=
  (∃ row, row ∈ ip_last_used d ∧ ul_ip_address row = ip ∧
     default 0 (ul_last_used row) < timeout ∧ default 0 (ul_last_allocated row) < timeout) ∨
  (ip ∉ ul_ip_address <$> ip_last_used d) ∧ 0 < timeout.

Lemma unused_since_spec timeout d ip : unused_since timeout d ip = true ↔ used_before timeout d ip.
Proof.
  unfold unused_since, used_before. assert (∀ row, row ∈ where_ (λ r, bool_decide (ul_ip_address r = ip)) (ip_last_used d) ↔
    row ∈ ip_last_used d ∧ ul_ip_address row = ip) as Hrows by (intros; by rewrite elem_of_where, bool_decide_eq_true).
  unfold old_row. destruct (where_ _ (ip_last_used d)) as [|r rows] eqn:E.
  - rewrite andb_true_iff, Z.ltb_lt. simpl. split.
    + intros [? _]. right. split; [|done]. intros (row & -> & Hrow)%list_elem_of_fmap.
      apply (elem_of_nil row), Hrows. done.
    + intros [(row & Hrow & Hip & _)|[_ ?]]; [|done]. exfalso. by apply (elem_of_nil row), Hrows.
  - rewrite existsb_exists. setoid_rewrite andb_true_iff. setoid_rewrite Z.ltb_lt. setoid_rewrite <- list_elem_of_In. split.
    + intros (row & [Hrow Hip]%Hrows & Ha & Hb). left. by exists row.
    + intros [(row & Hrow & Hip & Ha & Hb)|[Hn _]]; [exists row; split; [by apply Hrows | done]|].
      destruct Hn. apply list_elem_of_fmap. exists r. pose proof (proj1 (Hrows r) ltac:(by left)) as [? ?]. done.
Qed.

Lemma elem_of_static_homes rows ip :
  ip ∈ dom (static_homes rows) ↔ ∃ row, row ∈ rows ∧ canonical (ip_ip_address row) = ip.
Proof.
  unfold static_homes. assert (∀ m : gmap string string, ip ∈ dom (foldl (λ m r, <[canonical (ip_ip_address r) := ip_home_eni r]> m) m rows) ↔
    ip ∈ dom m ∨ ∃ row, row ∈ rows ∧ canonical (ip_ip_address row) = ip) as H; [|rewrite H; set_solver].
  induction rows as [|r rows IH]; intros m; simpl; [set_solver|]. rewrite IH, dom_insert. set_solver.
Qed.

Lemma static_homes_lookup rows ip home :
  static_homes rows !! ip = Some home → ∃ row, row ∈ rows ∧ canonical (ip_ip_address row) = ip ∧ ip_home_eni row = home.
Proof.
  unfold static_homes. assert (∀ m : gmap string string, foldl (λ m r, <[canonical (ip_ip_address r) := ip_home_eni r]> m) m rows !! ip = Some home →
    m !! ip = Some home ∨ ∃ row, row ∈ rows ∧ canonical (ip_ip_address row) = ip ∧ ip_home_eni row = home) as H;
    [|intros Hl; apply H in Hl as [Hl|]; [by rewrite lookup_empty in Hl | done]].
  induction rows as [|r rows IH]; intros m; simpl; [by left|]. intros [Hm|(row & ? & ?)]%IH; [|right; exists row; split; [by right | done]].
  apply lookup_insert_Some in Hm as [[<- <-]|[_ Hm]]; [right; exists r; split; [by left | done] | by left].
Qed.

(** ** What the collection may do *)

Section Collecting.
Context (ec2 : ec2_oracle) (gcTimeout : Z) (req : GCRequestV2) (d : db) (t : Z).

Abbreviation eni := (g2_NetworkInterfaceAttachment_Id req).

(** No task uses the address, it is not static, and there is no record of its use since the timeout. *)
Record may_unassign (iface : network_interface) (ip : string) : Prop := {
  mu_removable : (∃ a, a ∈ ni_PrivateIpAddresses iface ∧ pi_primary a = false ∧ canonical (pi_address a) = ip) ∨
                 (∃ a, a ∈ ni_Ipv6Addresses iface ∧ canonical a = ip);
  mu_allocated : ip ∉ g2_AllocatedAddresses req;
  mu_static : ip ∉ ip_ip_address <$> ip_addresses d;
  mu_unused : used_before (t - gcTimeout) d ip
}.

Definition gc2_asks (ev : event) : Prop :=
  match ev_call ev with
  | UnassignPrivateIps e ips =>
      e = eni ∧ ∃ iface, is_described ec2 eni iface ∧ ∀ ip, ip ∈ ips → is_v4 (ParseIP ip) = true ∧ may_unassign iface ip
  | UnassignIpv6s e ips =>
      e = eni ∧ ∃ iface, is_described ec2 eni iface ∧ ∀ ip, ip ∈ ips → is_v4 (ParseIP ip) = false ∧ may_unassign iface ip
  | AssignPrivateIps home ips _ =>
      ∃ row iface, row ∈ ip_addresses d ∧ ips = [ip_ip_address row] ∧ ip_home_eni row = home ∧ is_described ec2 eni iface ∧
        ip_ip_address row ∈ assigned_removable iface ∧ ip_ip_address row ∉ g2_AllocatedAddresses req
  | c => describing c = true
  end.

(** Nothing is allocated, and there is nothing to take away. *)
Definition idle : Prop :=
  g2_AllocatedAddresses req = [] ∧ ∃ iface, is_described ec2 eni iface ∧ assigned_removable iface = ∅.

(** What a transaction of [GCV2] writes *)
Definition notes (g : db → db) : Prop := ∀ d', g d' = d' ∨ idle ∧ g d' = touch t eni d'.

Lemma notes_view {A} (f : db → A) : (∀ l d', f (set_branch_eni_last_used l d') = f d') → ∀ g, notes g → f (g d) = f d.
Proof. intros Hf g Hg. destruct (Hg d) as [->|[_ ->]]; [done|]. apply Hf. Qed.

Lemma note_unused_asks h : idle → observes_in (G:=notes) [h] gc2_asks d t (note_unused h eni) (λ _, True).
Proof.
  intros Hidle. unfold note_unused. eapply (observes_bind _ _ _ _ _ _ (λ _, True)).
  - eapply observes_mono; [apply (observes_try _ _ _ _ _ (λ _, True))|done]. unfold queryRow.
    eapply (observes_bind _ _ _ _ _ _ (λ _, True)); [apply observes_query_in; [by left | done]|].
    intros [a|] _; [by apply observes_ret | apply observes_throw].
  - intros [e|u] _; [|by apply observes_ret]. destruct e; try apply observes_throw.
    eapply observes_bind; [by apply (observes_now _ _ _ _ (λ t', t' = t))|]. intros ? ->.
    eapply (observes_bind _ _ _ _ _ _ (λ _, True)); [|by intros; apply observes_ret].
    eapply observes_mono; [apply observes_try, observes_exec_in; [by left|]|done].
    intros g Hg d'. right. split; [done|]. destruct (Hg d') as [->|[_ ->]]; [done | apply touch_idem].
Qed.

Lemma reassignAddresses_asks h homes :
  (∀ ip home, homes !! ip = Some home → gc2_asks (Event (AssignPrivateIps home [ip] true))) →
  observes_in (G:=notes) [h] gc2_asks d t (reassignAddresses ec2 homes) (λ _, True).
Proof.
  intros Hhomes. unfold reassignAddresses. eapply observes_bind; [apply observes_shuffle|]. intros l Hl.
  assert (∀ x, x ∈ l → gc2_asks (Event (AssignPrivateIps x.2 [x.1] true))) as Hall.
  { intros [ip home] Hx. apply Hhomes, elem_of_map_to_list. by rewrite <- Hl. }
  clear Hl. induction l as [|[ip home] l IH]; simpl; [by apply observes_ret|].
  assert (observes_in (G:=notes) [h] gc2_asks d t (reassign_each ec2 l) (λ _, True)) as Hrest by (apply IH; intros x Hx; apply Hall; by right).
  eapply observes_bind.
  - apply observes_try, observes_wrap_status, (observes_call _ _ _ _ _ _ (λ _, True)); [apply (Hall (ip, home)); by left | done].
  - intros [e|u] _; [|done]. case_match; [done | apply observes_throw].
Qed.

Lemma unassignAddressesV2_asks h iface addrs :
  is_described ec2 eni iface → (∀ ip, ip ∈ addrs → may_unassign iface ip) →
  observes_in (G:=notes) [h] gc2_asks d t (unassignAddressesV2 ec2 eni addrs) (λ _, True).
Proof.
  intros Hiface Hall. unfold unassignAddressesV2. case_bool_decide; [by apply observes_ret|]. cbv zeta.
  assert (∀ p ip, ip ∈ sort_Strings (elements (set_where p addrs)) → p ip = true ∧ may_unassign iface ip) as Hs.
  { intros p ip Hip. unfold sort_Strings in Hip. rewrite (merge_sort_Permutation String.le), elem_of_elements, elem_of_set_where in Hip.
    destruct Hip. auto. }
  eapply (observes_bind _ _ _ _ _ _ (λ _, True)).
  - case_match; [|by apply observes_ret]. apply observes_call; [|done]. split; [done|]. exists iface. split; [done|]. apply Hs.
  - intros _ _. case_match; [|by apply observes_ret]. apply observes_call; [|done]. split; [done|]. exists iface. split; [done|].
    intros ip Hip. destruct (Hs _ _ Hip) as [Hn%negb_true_iff Hm]. done.
Qed.

(** The candidates without the static ones *)
Lemma candidate_not_static iface ip :
  let candidates := assigned_removable iface ∖ request_addresses (g2_AllocatedAddresses req) in
  ∀ rows, rows ≡ₚ static_rows candidates d →
  ip ∈ candidates ∖ dom (static_homes rows) ↔
  ip ∈ assigned_removable iface ∧ (ip ∉ g2_AllocatedAddresses req) ∧ ip ∉ ip_ip_address <$> ip_addresses d.
Proof.
  intros candidates rows Hrows. subst candidates. unfold request_addresses in *.
  rewrite !base.elem_of_difference, elem_of_list_to_set, elem_of_static_homes. split.
  - intros [[Hip Ha] Hn]. split_and!; [done|done|]. intros (row & -> & Hrow)%list_elem_of_fmap. apply Hn. exists row.
    split; [|by apply (assigned_removable_canonical iface)]. rewrite Hrows. apply elem_of_where. split; [done|].
    apply bool_decide_eq_true_2. set_solver.
  - intros (Hip & Ha & Hs). split_and!; [done|done|]. intros (row & Hrow & Hc). rewrite Hrows in Hrow.
    apply elem_of_where in Hrow as [Hrow Hin%bool_decide_eq_true]. apply Hs, list_elem_of_fmap. exists row. split; [|done].
    rewrite <- Hc. apply (assigned_removable_canonical iface). set_solver.
Qed.
End Collecting.

(** ** Claims *)

(** What the agent is told to forget: what it does not have on the ENI any more, and what was taken away. *)
Definition to_forget (gcTimeout : Z) (req : GCRequestV2) (d : db) (t : Z) (iface : network_interface) (ip : string) : Prop :=
  ip ∈ g2_UnallocatedAddresses req ∧ ip ∉ assigned iface ∨ may_unassign gcTimeout req d t iface ip.

Lemma collects ec2 gcTimeout req d t h iface :
  is_described ec2 (g2_NetworkInterfaceAttachment_Id req) iface →
  let allocated := request_addresses (g2_AllocatedAddresses req) in
  let id := g2_NetworkInterfaceAttachment_Id req in
  let candidates := assigned_removable iface ∖ allocated in
  observes_in (G:=notes ec2 req t) [h] (gc2_asks ec2 gcTimeout req d t) d t
    (rows ← wrap "Could not query database for statically assigned addresses" (query h (static_rows candidates));
     rows ← shuffle rows;
     let homes := static_homes rows in
     let candidates := candidates ∖ dom homes in
     _ ← reassignAddresses ec2 homes;
     t ← now;
     old ← not_used_since h (t - gcTimeout) candidates;
     _ ← unassignAddressesV2 ec2 id (list_to_set old);
     mret (sort_Strings (elements ((request_addresses (g2_UnallocatedAddresses req) ∖ assigned iface) ∪ list_to_set old))))
    (λ l, NoDup l ∧ ∀ ip, ip ∈ l ↔ to_forget gcTimeout req d t iface ip).
Proof.
  intros Hiface allocated id candidates.
  eapply observes_bind; [apply observes_wrap, (observes_query_in _ _ _ _ _ _ (λ rows, rows = static_rows candidates d)); [by left|]|].
  { intros g Hg. by apply (notes_view ec2 req d t). }
  intros ? ->. eapply observes_bind; [apply observes_shuffle|]. intros rows Hrows. cbv zeta.
  eapply observes_bind; [apply reassignAddresses_asks|].
  { intros ip home (row & Hrow & Hc & Hh)%static_homes_lookup. rewrite Hrows in Hrow.
    apply elem_of_where in Hrow as [Hrow [Hr Ha]%bool_decide_eq_true%base.elem_of_difference].
    exists row, iface. rewrite <- Hc, (assigned_removable_canonical iface) by done. split_and!; try done.
    intros Hin. by apply Ha, elem_of_list_to_set. }
  intros _ _. eapply observes_bind; [by apply (observes_now _ _ _ _ (λ t', t' = t))|]. intros ? ->.
  eapply (observes_bind _ _ _ _ _ _ (λ old, ∀ ip, ip ∈ old ↔ may_unassign gcTimeout req d t iface ip)).
  { apply observes_wrap_status. case_match; [|apply observes_throw]. apply observes_query_in; [by left|]. intros g Hg ip.
    rewrite (notes_view ec2 req d t (λ d', where_ (unused_since (t - gcTimeout) d') _)) by done.
    rewrite elem_of_where. unfold sort_Strings. rewrite (merge_sort_Permutation String.le), elem_of_elements.
    unfold candidates, allocated. rewrite (candidate_not_static req d iface ip rows Hrows), unused_since_spec, elem_of_assigned_removable. split.
    - intros [(H1 & H2 & H3) H4]. by split.
    - intros [H1 H2 H3 H4]. by split_and!. }
  intros old Hold. eapply observes_bind; [apply (unassignAddressesV2_asks _ _ _ _ _ _ iface); [done|]|].
  { intros ip Hip%elem_of_list_to_set. by apply Hold. }
  intros _ _. apply observes_ret. unfold sort_Strings. split; [rewrite (merge_sort_Permutation String.le); apply NoDup_elements|].
  intros ip. rewrite (merge_sort_Permutation String.le), elem_of_elements, elem_of_union, base.elem_of_difference.
  unfold request_addresses, to_forget. by rewrite !elem_of_list_to_set, Hold.
Qed.

Lemma GCV2_spec ec2 gcTimeout req w :
  let id := g2_NetworkInterfaceAttachment_Id req in
  wp (GCV2 ec2 gcTimeout req) (λ r w',
    (∃ es, w_calls w' = w_calls w ++ es ∧ Forall (gc2_asks ec2 gcTimeout req (w_db w) (w_now w)) es) ∧
    (w_db w' = w_db w ∨ idle ec2 req ∧ w_db w' = touch (w_now w) id (w_db w)) ∧
    match r with
    | Ok l => (∃ iface, is_described ec2 id iface ∧ NoDup l ∧ ∀ ip, ip ∈ l ↔ to_forget gcTimeout req (w_db w) (w_now w) iface ip) ∧ schema_ok (w_db w')
    | Fail _ => w_db w' = w_db w
    | Panic _ => True
    end) w.
Proof.
  intros id. eapply wp_mono; [apply (wp_with_commit_observes (G:=notes ec2 req (w_now w)) (gc2_asks ec2 gcTimeout req (w_db w) (w_now w)) _ _
    (λ l, ∃ iface, is_described ec2 id iface ∧ NoDup l ∧ ∀ ip, ip ∈ l ↔ to_forget gcTimeout req (w_db w) (w_now w) iface ip));
    [auto with observes | by left |]|].
  2: { intros r w' (Hes & (g & Hg & ->) & Hr). split_and!; [done | apply Hg | done]. }
  intros h. eapply observes_bind; [apply observes_statement; by left|]. intros _ _.
  eapply (observes_bind _ _ _ _ _ _ (λ _, True)).
  { unfold queryRow. eapply (observes_bind _ _ _ _ _ _ (λ _, True)); [apply observes_query_in; [by left | done]|].
    intros [b|] _; [by apply observes_ret | apply observes_throw]. }
  intros b _. eapply observes_bind; [by apply (observes_call _ _ _ _ _ _ (λ _, True))|]. intros _ _.
  eapply observes_bind; [by apply observes_try, observes_GetNetworkInterfaceByID|]. intros [e|iface] Hiface; [apply observes_throw|].
  cbv zeta. eapply (observes_bind _ _ _ _ _ _ (λ _, True)).
  { destruct (bool_decide _) eqn:E1; [|by apply observes_ret]. destruct (bool_decide (assigned_removable iface = ∅)) eqn:E2; [|by apply observes_ret].
    apply bool_decide_eq_true in E1, E2. apply note_unused_asks. split; [|by exists iface].
    unfold request_addresses in E1. destruct (g2_AllocatedAddresses req); [done|]. set_solver. }
  intros _ _. eapply observes_mono; [by apply collects|]. intros l Hl. by exists iface.
Qed.

(** C33: Whatever fails, [GCV2] asks EC2 to take only such addresses from the ENI as EC2 describes there and no
    task has, that are neither the first of the ENI nor static, and of which there is no record of use since
    the timeout; IPv4 and IPv6 ones apart.  Static addresses go to their home ENI.  The answer lists
    exactly the addresses that were taken away and those the agent has no longer on the ENI.  In the database
    at most the time of use of an ENI changes on which there is nothing to collect. *)
Theorem GCV2_safe ec2 gcTimeout req w :
  let id := g2_NetworkInterfaceAttachment_Id req in
  wp (GCV2 ec2 gcTimeout req) (λ r w',
    (∃ es, w_calls w' = w_calls w ++ es ∧ Forall (gc2_asks ec2 gcTimeout req (w_db w) (w_now w)) es) ∧
    (w_db w' = w_db w ∨ idle ec2 req ∧ w_db w' = touch (w_now w) id (w_db w)) ∧
    match r with
    | Ok l => (∃ iface, is_described ec2 id iface ∧ NoDup l ∧ ∀ ip, ip ∈ l ↔ to_forget gcTimeout req (w_db w) (w_now w) iface ip) ∧ schema_ok (w_db w')
    | Fail _ => w_db w' = w_db w
    | Panic _ => True
    end) w.
Proof. apply GCV2_spec. Qed.

(** [GCSetup] changes nothing and lists, for an instance with a trunk ENI, the ENI and the index of each of its
    attachments, in whatever state they are. *)
Lemma GCSetup_lists ec2 instanceID region account w :
  wp (GCSetup ec2 instanceID region account) (λ r w',
    quiet (λ ev, describing (ev_call ev) = true) w w' ∧
    match r with
    | Ok l => ∃ i trunk, (∃ cs, ec2 _ cs (DescribeInstance instanceID false) = inr i) ∧ getTrunkENI i = Some trunk ∧
        ∀ id idx, MkNiAttachment id idx ∈ l ↔
          ∃ a, a ∈ branch_eni_attachments (w_db w) ∧ at_trunk_eni a = in_NetworkInterfaceId trunk ∧ at_branch_eni a = id ∧ uint32 (at_idx a) = idx
    | _ => True
    end) w.
Proof.
  apply observes_quiet. unfold GCSetup.
  eapply observes_bind; [by apply (observes_call _ _ _ _ _ _ (λ _, True))|]. intros _ _.
  eapply observes_bind; [by apply observes_GetInstance|]. intros i Hi. destruct (getTrunkENI i) as [trunk|] eqn:Et; [|apply observes_throw].
  apply observes_with_tx; [auto with observes|]. intros h.
  eapply observes_bind; [apply observes_wrap_status, (observes_query_of _ _ _ _ h _ (λ rows, rows = where_ (λ a, bool_decide (at_trunk_eni a = in_NetworkInterfaceId trunk)) (branch_eni_attachments (w_db w)))); [by left | done]|].
  intros ? ->. apply observes_ret. exists i, trunk. split_and!; [done|done|]. intros id idx. rewrite list_elem_of_fmap. split.
  - intros (a & [= -> ->] & [Ha Hk%bool_decide_eq_true]%elem_of_where). by exists a.
  - intros (a & Ha & Hk & <- & <-). exists a. split; [done|]. apply elem_of_where. split; [done|]. by apply bool_decide_eq_true_2.
Qed.
