(* ===== verification/TrunkEnis.v ===== *)
(** * TrunkEnis: the trunk ENIs of instances

    Models [vpc/service/trunk_enis.go], [eni.go], [aws_types.go] and the part of
    [provision_instance.go] that gives an instance its trunk ENI.  A trunk ENI is
    deleted in steps: its row gets a tombstone ([deleted_at]), EC2 deletes it, then
    the row goes, with everything attached to it. *)
From S2P Require Import Prelude Errors Schema Service Logic TxLogic BranchEni GenerateAssignment AssignV3.

Open Scope string_scope.
Open Scope Z_scope.
Open Scope list_scope.

Definition is_trunk (eni : string) (t : trunk_eni_row) : bool := bool_decide (te_trunk_eni t = eni).

(** ** Statements *)

(** [SELECT deleted_at FROM trunk_enis WHERE trunk_eni = $1] *)
Definition tombstone_of (eni : string) (d : db) : option (option Z) :=
  te_deleted_at <$> head (where_ (is_trunk eni) (trunk_enis d)).

Definition with_deleted_at (t : option Z) (r : trunk_eni_row) : trunk_eni_row :=
  TrunkEniRow (te_id r) (te_trunk_eni r) (te_account_id r) (te_az r) (te_subnet_id r) (te_vpc_id r) (te_region r)
    (te_mac r) (te_generation r) t.

(** [UPDATE trunk_enis SET deleted_at = .. WHERE trunk_eni = $1] *)
Definition set_tombstone (eni : string) (t : option Z) (d : db) : db :=
  set_trunk_enis (update_where (is_trunk eni) (with_deleted_at t) (trunk_enis d)) d.

(** [DELETE FROM trunk_enis WHERE trunk_eni = $1]: ON DELETE CASCADE removes the HTB classes. *)
Definition delete_trunk_row (eni : string) (d : db) : db :=
  let ids := te_id <$> where_ (is_trunk eni) (trunk_enis d) in
  set_trunk_enis (where_ (negb ∘ is_trunk eni) (trunk_enis d))
    (set_htb_classid (where_ (λ c, negb (bool_decide (hc_trunk_eni c ∈ ids))) (htb_classid d)) d).

(** [DELETE FROM branch_eni_attachments WHERE ..]: ON DELETE CASCADE removes the assignments. *)
Definition delete_attachments (gone : attachment → bool) (d : db) : db :=
  let assocs := omap at_association_id (where_ gone (branch_eni_attachments d)) in
  set_branch_eni_attachments (where_ (negb ∘ gone) (branch_eni_attachments d))
    (delete_assignments (λ r, bool_decide (as_association r ∈ assocs)) d).

Definition on_trunk (eni : string) (a : attachment) : bool := bool_decide (at_trunk_eni a = eni).

(** [INSERT INTO trunk_enis .. ON CONFLICT (trunk_eni) DO UPDATE SET deleted_at = NULL, mac = $7] *)
Definition upsert_trunk (id : Z) (eni : network_interface) (generation : Z) (d0 d : db) : db :=
  if existsb (is_trunk (NetworkInterfaceId eni)) (trunk_enis d0) then
    set_trunk_enis
      (update_where (is_trunk (NetworkInterfaceId eni))
         (λ r, TrunkEniRow (te_id r) (te_trunk_eni r) (te_account_id r) (te_az r) (te_subnet_id r) (te_vpc_id r)
                 (te_region r) (Some (ni_MacAddress eni)) (te_generation r) None) (trunk_enis d)) d
  else
    set_trunk_enis
      (trunk_enis d ++ [TrunkEniRow id (NetworkInterfaceId eni) (ni_OwnerId eni) (ni_AvailabilityZone eni)
         (ni_SubnetId eni) (ni_VpcId eni) (azToRegion (ni_AvailabilityZone eni)) (Some (ni_MacAddress eni))
         (Some generation) None]) d.

(** [RETURNING id] *)
Definition upserted_id (id : Z) (eni : string) (d0 : db) : Z :=
  match head (where_ (is_trunk eni) (trunk_enis d0)) with Some r => te_id r | None => id end.

(** The ID comes from the sequence also when the row exists. *)
Definition insertTrunkENIIntoDB (h : tx) (eni : network_interface) (generation : Z) : M Z :=
  id ← nextval;
  exec_at h (upsert_trunk id eni generation) (upserted_id id (NetworkInterfaceId eni)).

(** [generate_series(a, b)] *)
Definition generate_series (a b : Z) : list Z := seqZ a (b - a + 1).

(** [INSERT INTO htb_classid(trunk_eni, class_id) SELECT $1, generate_series(10010, 15000)],
    whose IDs come from a sequence. *)
Definition insert_classes (trunk first : Z) (classes : list Z) (d : db) : db :=
  set_htb_classid (htb_classid d ++ zip_with (λ id c, HtbClassRow id trunk None c) (seqZ first (Z.of_nat (length classes))) classes) d.

Definition htb_classes : list Z := generate_series 10010 15000.

(** ** Operations *)

Section WithEC2.
Context (ec2 : ec2_oracle).

(** [if err != nil { return HandleEC2Error(errors.Wrap(err, msg)) }] *)
Definition handle {A} (msg : string) (m : M A) : M A := λ w,
  match m w with (Fail e, w') => (Fail (HandleEC2Error (EWrap msg e)), w') | r => r end.

Definition session_Modify (c : ec2_call unit) : M unit := session_call ec2 "Cannot modify network interface" c.

(** Whether EC2 knows the ENI, found out by modifying its description. *)
Definition doesENIExist (networkInterfaceID originalDescription : string) : M bool :=
  r ← try (session_Modify (ModifyNetworkInterfaceDescription networkInterfaceID originalDescription));
  match r with
  | inr _ => mret true
  | inl e =>
      match RetrieveEC2Error e with
      | None => throw e
      | Some a => if bool_decide (aws_Code a = InvalidNetworkInterfaceIDNotFound) then mret false else throw e
      end
  end.

Definition hardDeleteTrunkInterface (eni : string) : M unit :=
  with_tx (wrap "Could not start database transaction" BeginTx) (λ h,
    _ ← wrap "Could delete trunk ENI" (exec h (delete_trunk_row eni));
    _ ← wrap "Could branch ENI attachments for trunk ENI" (exec h (delete_attachments (on_trunk eni)));
    _ ← wrap "Cannot commit transaction, after hard deleting trunk interface" (Commit h);
    mret tt).

Definition untombstoneTrunkNetworkInterface (eni : string) : M unit :=
  with_tx (wrap "Could not start database transaction" BeginTx) (λ h,
    _ ← wrap "Could unset tombstone on ENI" (exec h (set_tombstone eni None));
    _ ← wrap "Cannot commit transaction, after untombstoning ENI" (Commit h);
    mret tt).

(** An error of the query other than [sql.ErrNoRows] only goes to the trace. *)
Definition getTrunkNetworkInterfaceTombstone (eni : string) : M (bool * option Z) :=
  with_tx (wrap "Could not start database transaction" BeginTx) (λ h,
    r ← try (queryRow h (tombstone_of eni));
    match r with
    | inl ENoRows =>
        _ ← wrap "Cannot commit transaction, after found non-existent trunk ENI" (Commit h);
        mret (false, None)
    | _ =>
        _ ← wrap "Cannot commit transaction" (Commit h);
        mret (true, match r with inr (Some t) => Some t | _ => None end)
    end).

Definition tombstoneTrunkNetworkInterface (eni : string) : M (bool * option Z) :=
  with_tx (wrap "Could not start database transaction" BeginTx) (λ h,
    r ← try (queryRow h (tombstone_of eni));
    match r with
    | inl ENoRows =>
        _ ← wrap "Cannot commit transaction, after found non-existent trunk ENI" (Commit h);
        mret (false, None)
    | inr (Some t) =>
        _ ← wrap "Cannot commit transaction, after already tombstoned ENI" (Commit h);
        mret (true, Some t)
    | _ =>
        t ← now;
        _ ← wrap "Could not update tombstone on ENI" (exec h (set_tombstone eni (Some t)));
        _ ← wrap "Cannot commit transaction, after tombstoning ENI" (Commit h);
        mret (true, None)
    end).

(** The type assertion on the error of [DeleteNetworkInterface]. *)
Definition deleteInterfaceInEC2 (eni : string) : M unit :=
  r ← try (session_DeleteNetworkInterface ec2 eni);
  match r with
  | inr _ => mret tt
  | inl (EAws a) =>
      if bool_decide (aws_Code a = InvalidNetworkInterfaceIDNotFound) then mret tt
      else
        r2 ← try (untombstoneTrunkNetworkInterface eni);
        match r2 with
        | inl e2 => throw (EMulti [EAws a; e2])
        | inr _ => throw (HandleEC2Error (EAws a))
        end
  | inl e => throw e
  end.

Definition deleteTrunkInterface (eni : string) : M unit :=
  x ← tombstoneTrunkNetworkInterface eni;
  _ ← (if (x : bool * option Z).1 then deleteInterfaceInEC2 eni else mret tt);
  hardDeleteTrunkInterface eni.

(** [vpcService.trunkNetworkInterfaceDescription] *)
Context (trunkDescription : string).

Definition createNewTrunkENI (subnetID : string) (generation : Z) : M network_interface :=
  iface ← handle "Cannot create network interface"
            (session_call ec2 "Cannot create network interface" (CreateTrunkNetworkInterface subnetID trunkDescription));
  _ ← handle "Could not configure network interface to disable source / dest check"
        (session_Modify (ModifyNetworkInterfaceSourceDestCheck (NetworkInterfaceId iface) false));
  with_tx (wrap "Could not start database transaction" BeginTx) (λ h,
    id ← wrap "Cannot update trunk enis" (insertTrunkENIIntoDB h iface generation);
    _ ← (if generation =? 3 then
           first ← nextval;
           _ ← act (λ w, (Ok tt, set_seq (first + Z.of_nat (length htb_classes)) w));
           wrap "Cannot get generate HTB class ID slots" (exec h (insert_classes id first htb_classes))
         else mret tt);
    _ ← wrap "Cannot commit transaction" (Commit h);
    mret iface).

(** *** [provision_instance.go] *)

Definition networkInterface (ni : network_interface) : NetworkInterfaceV3 :=
  MkNetworkInterfaceV3 "" (ni_AvailabilityZone ni) (ni_MacAddress ni) (NetworkInterfaceId ni) (ni_OwnerId ni) (ni_VpcId ni)
    ((λ a, uint32 (nia_DeviceIndex a)) <$> ni_Attachment ni).

Definition provisionInstanceShared (instanceID region account : string) (generation : Z) : M NetworkInterfaceV3 :=
  _ ← GetSessionFromAccountAndRegion ec2 account region;
  i ← session_GetInstance ec2 instanceID true;
  match getTrunkENI i with
  | Some eni => mret (instanceNetworkInterface i eni)
  | None =>
      iface ← createNewTrunkENI (inst_SubnetId i) generation;
      r ← try (session_call ec2 "Cannot attach network interface"
                 (AttachNetworkInterface 1 (InstanceId i) (NetworkInterfaceId iface)));
      match r with
      | inl e => throw (HandleEC2Error e)
      | inr _ => mret (networkInterface iface)
      end
  end.

Definition ProvisionInstanceV2 (instanceID region account : string) : M NetworkInterfaceV3 :=
  provisionInstanceShared instanceID region account 2.

Definition ProvisionInstanceV3 (instanceID region account : string) : M NetworkInterfaceV3 :=
  provisionInstanceShared instanceID region account 3.

(** [SELECT region, account_id FROM trunk_enis GROUP BY region, account_id]; the error of the commit
    is ignored. *)
Definition getTrunkENIRegionAccounts : M (list (string * string)) :=
  with_tx BeginTx (λ h,
    l ← query h (λ d, remove_dups ((λ t, (te_region t, te_account_id t)) <$> trunk_enis d));
    _ ← try (Commit h);
    mret l).
End WithEC2.

(** ** What the operations do *)

Definition hard_deleted (eni : string) (d : db) : db := delete_attachments (on_trunk eni) (delete_trunk_row eni d).

Lemma hardDeleteTrunkInterface_spec eni w :
  wp (hardDeleteTrunkInterface eni) (λ r w',
    match r with Ok _ => w_db w' = hard_deleted eni (w_db w) | Fail _ => w_db w' = w_db w | Panic _ => False end) w.
Proof.
  apply (wp_with_tx_ends _ _ (λ r d', match r with Ok _ => d' = hard_deleted eni (w_db w) | Fail _ => d' = w_db w | Panic _ => False end));
    [apply wp_BeginTx_wrap|done|]. intros h. ends_step. destruct K as [-> _]. ends_step. destruct K as [-> _].
  apply ends_commit; [done|]. intros w1 Hd1 _. apply wp_ret. by rewrite Hd1.
Qed.

Lemma getTrunkNetworkInterfaceTombstone_spec eni w :
  wp (getTrunkNetworkInterfaceTombstone eni) (λ r w', w_db w' = w_db w ∧
    match r with
    | Ok (exists_, t) => tombstone_of eni (w_db w) = if exists_ : bool then Some t else None
    | Fail _ => True
    | Panic _ => False
    end) w.
Proof.
  apply (wp_with_tx_ends _ _ (λ r d', d' = w_db w ∧
    match r with Ok (x, t) => tombstone_of eni (w_db w) = if x : bool then Some t else None | Fail _ => True | Panic _ => False end));
    [apply wp_BeginTx_wrap|done|]. intros h. apply ends_try_queryRow.
  - intros a Ha. apply ends_commit; [done|]. intros w1 Hd1 _. apply wp_ret. rewrite Hd1. by destruct a.
  - intros Ha. apply ends_commit; [done|]. intros w1 Hd1 _. apply wp_ret. by rewrite Hd1.
  - intros e w1 Hab. by destruct e; apply (wp_commit_aborted h (w_db w)).
Qed.

Lemma tombstoneTrunkNetworkInterface_spec eni w :
  wp (tombstoneTrunkNetworkInterface eni) (λ r w',
    match r with
    | Ok (false, _) => w_db w' = w_db w ∧ tombstone_of eni (w_db w) = None
    | Ok (true, Some t) => w_db w' = w_db w ∧ tombstone_of eni (w_db w) = Some (Some t)
    | Ok (true, None) => tombstone_of eni (w_db w) = Some None ∧ ∃ t, w_db w' = set_tombstone eni (Some t) (w_db w)
    | Fail _ => w_db w' = w_db w
    | Panic _ => False
    end) w.
Proof.
  apply (wp_with_tx_ends _ _ (λ r d',
    match r with
    | Ok (false, _) => d' = w_db w ∧ tombstone_of eni (w_db w) = None
    | Ok (true, Some t) => d' = w_db w ∧ tombstone_of eni (w_db w) = Some (Some t)
    | Ok (true, None) => tombstone_of eni (w_db w) = Some None ∧ ∃ t, d' = set_tombstone eni (Some t) (w_db w)
    | Fail _ => d' = w_db w
    | Panic _ => False
    end)); [apply wp_BeginTx_wrap|done|]. intros h. apply ends_try_queryRow.
  - intros [t|] Ha.
    + apply ends_commit; [done|]. intros w1 Hd1 _. apply wp_ret. by rewrite Hd1.
    + ends_step. subst X. ends_step. destruct K as [-> _]. apply ends_commit; [done|]. intros w1 Hd1 _. apply wp_ret. rewrite Hd1. eauto.
  - intros Ha. apply ends_commit; [done|]. intros w1 Hd1 _. apply wp_ret. by rewrite Hd1.
  - intros e w1 Hab. destruct e; first [by apply (wp_commit_aborted h (w_db w)) | apply wp_bind, wp_now; by apply (wp_exec_then_aborted h (w_db w))].
Qed.

Lemma tombstone_of_set eni t d : tombstone_of eni (set_tombstone eni (Some t) d) = (λ _, Some t) <$> tombstone_of eni d.
Proof.
  unfold tombstone_of, set_tombstone, update_where. simpl. induction (trunk_enis d) as [|r l IH]; [done|]. simpl.
  destruct (is_trunk eni r) eqn:E; [|by rewrite E].
  assert (is_trunk eni (with_deleted_at (Some t) r) = true) as -> by exact E. done.
Qed.

(** The trunk ENI is gone, with its attachments and the assignments on them, and nothing else of these. *)
Record trunk_gone (eni : string) (d d' : db) : Prop := TrunkGone {
  tg_rows : ∀ t, t ∈ trunk_enis d' ↔ t ∈ trunk_enis d ∧ te_trunk_eni t ≠ eni;
  tg_attachments : ∀ a, a ∈ branch_eni_attachments d' ↔ a ∈ branch_eni_attachments d ∧ at_trunk_eni a ≠ eni;
  tg_assignments : ∀ r, r ∈ assignments d' ↔ r ∈ assignments d ∧
    ∀ a, a ∈ branch_eni_attachments d → at_trunk_eni a = eni → at_association_id a ≠ Some (as_association r)
}.

Lemma trunk_gone_hard_deleted eni d : trunk_gone eni d (hard_deleted eni d).
Proof.
  split; simpl.
  - intros t. rewrite elem_of_where. unfold is_trunk. simpl. by rewrite negb_true_iff, bool_decide_eq_false.
  - intros a. rewrite elem_of_where. unfold on_trunk. simpl. by rewrite negb_true_iff, bool_decide_eq_false.
  - intros r. rewrite elem_of_where. simpl. rewrite negb_true_iff, bool_decide_eq_false.
    enough (as_association r ∈ omap at_association_id (where_ (on_trunk eni) (branch_eni_attachments d)) ↔
      ∃ a, a ∈ branch_eni_attachments d ∧ at_trunk_eni a = eni ∧ at_association_id a = Some (as_association r)) as -> by naive_solver.
    rewrite list_elem_of_omap. split.
    + intros (a & [Ha E%bool_decide_eq_true]%elem_of_where & H). eauto.
    + intros (a & Ha & E & H). exists a. rewrite elem_of_where. split_and!; [done|by apply bool_decide_eq_true_2|done].
Qed.

Lemma trunk_gone_tombstoned eni t d : trunk_gone eni d (hard_deleted eni (set_tombstone eni t d)).
Proof.
  destruct (trunk_gone_hard_deleted eni (set_tombstone eni t d)) as [H1 H2 H3]. split; [|done|done]. intros r. rewrite H1.
  unfold set_tombstone. simpl. rewrite elem_of_update_where. unfold is_trunk. split.
  - intros [[[Hr _]|(x & Hx & E%bool_decide_eq_true & ->)] Hne]; [done|]. by destruct Hne.
  - intros [Hr Hne]. split; [|done]. left. split; [done|]. by apply bool_decide_eq_false_2.
Qed.

Section WithEC2Proofs.
Context (ec2 : ec2_oracle).

(** The type assertion on the wrapped error does not succeed. *)
Lemma deleteInterfaceInEC2_spec eni w :
  wp (deleteInterfaceInEC2 ec2 eni) (λ r w', w_db w' = w_db w ∧
    w_calls w' = w_calls w ++ [Event (DeleteNetworkInterface eni)] ∧
    match r with
    | Ok _ => ec2 unit (w_calls w) (DeleteNetworkInterface eni) = inr tt
    | Fail _ => ∃ e, ec2 unit (w_calls w) (DeleteNetworkInterface eni) = inl e
    | Panic _ => False
    end) w.
Proof.
  apply wp_bind, wp_try. unfold session_DeleteNetworkInterface, session_call. apply wp_wrap. unfold wp, call. simpl.
  destruct (ec2 unit (w_calls w) (DeleteNetworkInterface eni)) as [e|[]] eqn:E; simpl; split_and!; eauto.
Qed.

Lemma keeps_calls_hardDelete eni : keeps_calls (hardDeleteTrunkInterface eni).
Proof. unfold hardDeleteTrunkInterface. keeps_calls_walk. Qed.

Lemma keeps_calls_tombstone eni : keeps_calls (tombstoneTrunkNetworkInterface eni).
Proof. unfold tombstoneTrunkNetworkInterface. keeps_calls_walk. Qed.

Lemma keeps_calls_getTombstone eni : keeps_calls (getTrunkNetworkInterfaceTombstone eni).
Proof. unfold getTrunkNetworkInterfaceTombstone. keeps_calls_walk. Qed.

(** The row has a tombstone, the one that it had or else a new one, and nothing else is changed. *)
Definition tombstoned (eni : string) (d d' : db) : Prop :=
  ∃ t, tombstone_of eni d' = Some (Some t) ∧ (d' = d ∨ tombstone_of eni d = Some None ∧ d' = set_tombstone eni (Some t) d).

(** How far a deletion of the trunk ENI [eni] came. *)
Inductive trunk_deletion (eni : string) (w w' : world) : res error unit → Prop :=
| td_unknown :
    tombstone_of eni (w_db w) = None → w_calls w' = w_calls w → w_db w' = hard_deleted eni (w_db w) →
    trunk_deletion eni w w' (Ok tt)
| td_deleted d1 :
    tombstoned eni (w_db w) d1 →
    ec2 unit (w_calls w) (DeleteNetworkInterface eni) = inr tt →
    w_calls w' = w_calls w ++ [Event (DeleteNetworkInterface eni)] → w_db w' = hard_deleted eni d1 →
    trunk_deletion eni w w' (Ok tt)
| td_untouched e : w_calls w' = w_calls w → w_db w' = w_db w → trunk_deletion eni w w' (Fail e)
| td_tombstoned e :
    w_calls w' = w_calls w ++ [Event (DeleteNetworkInterface eni)] →
    tombstoned eni (w_db w) (w_db w') → trunk_deletion eni w w' (Fail e).

Lemma deleteTrunkInterface_spec eni w : wp (deleteTrunkInterface ec2 eni) (λ r w', trunk_deletion eni w w' r) w.
Proof.
  apply wp_bind. eapply wp_mono; [apply wp_keeps_calls; [apply keeps_calls_tombstone | apply tombstoneTrunkNetworkInterface_spec]|].
  intros [[existed tomb]|e|s] w1 [Hd Hc]; [|by apply td_untouched|done].
  assert (existed = true → tombstoned eni (w_db w) (w_db w1)) as Hex.
  { intros ->. destruct tomb as [t|]; [destruct Hd as [-> Ht]; exists t; by auto|]. destruct Hd as (Ht & t & ->).
    exists t. rewrite tombstone_of_set, Ht. by auto. }
  destruct existed; simpl.
  - apply wp_bind. pose proof (Hex eq_refl) as Hd1. eapply wp_mono; [apply deleteInterfaceInEC2_spec|].
    rewrite Hc. intros [[]|e|s] w2 (Hd2 & Hc2 & Hr); [|apply td_tombstoned; [done|by rewrite Hd2]|done].
    eapply wp_mono; [apply wp_keeps_calls; [apply keeps_calls_hardDelete | apply hardDeleteTrunkInterface_spec]|].
    intros [[]|e|s] w3 [Hd3 Hc3]; [| |done].
    + eapply td_deleted; [exact Hd1|done|by rewrite Hc3|by rewrite Hd3, Hd2].
    + apply td_tombstoned; [by rewrite Hc3|by rewrite Hd3, Hd2].
  - destruct Hd as [Hd Hnone]. apply wp_bind, wp_ret.
    eapply wp_mono; [apply wp_keeps_calls; [apply keeps_calls_hardDelete | apply hardDeleteTrunkInterface_spec]|].
    intros [[]|e|s] w3 [Hd3 Hc3]; [| |done].
    + apply td_unknown; [done|by rewrite Hc3|by rewrite Hd3, Hd].
    + apply td_untouched; [by rewrite Hc3|by rewrite Hd3, Hd].
Qed.

End WithEC2Proofs.

(** ** Probing EC2 *)

(** [ec2] answered, after the calls [cs], that it does not know the ENI. *)
Definition not_found (ec2 : ec2_oracle) {A : Set} (cs : list event) (c : ec2_call A) : Prop :=
  ∃ e a, ec2 A cs c = inl e ∧ RetrieveEC2Error e = Some a ∧ aws_Code a = InvalidNetworkInterfaceIDNotFound.

Lemma RetrieveEC2Error_Wrap msg e : RetrieveEC2Error (EWrap msg e) = RetrieveEC2Error e.
Proof. done. Qed.

Lemma doesENIExist_spec ec2 eni description w :
  wp (doesENIExist ec2 eni description) (λ r w', w_db w' = w_db w ∧
    w_calls w' = w_calls w ++ [Event (ModifyNetworkInterfaceDescription eni description)] ∧
    match r with
    | Ok false => not_found ec2 (w_calls w) (ModifyNetworkInterfaceDescription eni description)
    | Ok true => ec2 unit (w_calls w) (ModifyNetworkInterfaceDescription eni description) = inr tt
    | Fail _ => True
    | Panic _ => False
    end) w.
Proof.
  apply wp_bind, wp_try. unfold session_Modify, session_call. apply wp_wrap. unfold wp, call. simpl.
  destruct (ec2 unit (w_calls w) (ModifyNetworkInterfaceDescription eni description)) as [e|[]] eqn:E; simpl; [|done].
  rewrite RetrieveEC2Error_Wrap. destruct (RetrieveEC2Error e) as [a|] eqn:Ea; [|done]. case_bool_decide; [|done].
  split_and!; [done|done|]. by exists e, a.
Qed.

(** ** Provisioning *)

Lemma wp_handle {A} msg (m : M A) Q w :
  wp m (λ r w', match r with Fail e => Q (Fail (HandleEC2Error (EWrap msg e))) w' | _ => Q r w' end) w →
  wp (handle msg m) Q w.
Proof. unfold wp, handle. by destruct (m w) as [[a|e|s] w']. Qed.

Lemma elem_of_classes trunk first classes c :
  c ∈ classes → ∃ id, HtbClassRow id trunk None c ∈
    zip_with (λ id c, HtbClassRow id trunk None c) (seqZ first (Z.of_nat (length classes))) classes.
Proof.
  intros Hc. revert first. induction Hc as [c classes|c c' classes Hc IH]; intros first;
    cbn [length]; rewrite seqZ_cons by lia; cbn [zip_with].
  - exists first. by left.
  - destruct (IH (Z.succ first)) as [id Hid]. exists id. right. by rewrite Nat2Z.inj_succ, Z.pred_succ.
Qed.

(** The trunk ENI is known, without tombstone, and has the HTB classes of its generation. *)
Definition provisioned (generation : Z) (ni : network_interface) (d : db) : Prop :=
  ∃ t, t ∈ trunk_enis d ∧ te_trunk_eni t = NetworkInterfaceId ni ∧ te_deleted_at t = None ∧
       te_mac t = Some (ni_MacAddress ni) ∧
       (generation = 3 → ∀ c, 10010 ≤ c ≤ 15000 → ∃ id, HtbClassRow id (te_id t) None c ∈ htb_classid d).

Lemma upsert_trunk_row id ni generation d :
  let d' := upsert_trunk id ni generation d d in
  ∃ t, t ∈ trunk_enis d' ∧ te_id t = upserted_id id (NetworkInterfaceId ni) d ∧
       te_trunk_eni t = NetworkInterfaceId ni ∧ te_deleted_at t = None ∧ te_mac t = Some (ni_MacAddress ni).
Proof.
  cbv zeta. unfold upsert_trunk, upserted_id. destruct (existsb _ _) eqn:E.
  - destruct (head (where_ (is_trunk (NetworkInterfaceId ni)) (trunk_enis d))) as [r|] eqn:Hr.
    + apply head_where in Hr as [Hin Hr]. eexists. split; [apply elem_of_update_where; right; exists r; by split_and!|].
      by apply bool_decide_eq_true in Hr.
    + apply existsb_true in E as (r & Hin & Hr2).
      assert (r ∈ where_ (is_trunk (NetworkInterfaceId ni)) (trunk_enis d)) as Hw by by apply elem_of_where.
      destruct (where_ _ _); [by apply not_elem_of_nil in Hw | done].
  - rewrite where_nil.
    + eexists. split; [apply elem_of_app; right; by left|]. done.
    + intros r Hr. destruct (is_trunk _ r) eqn:Er; [|done]. rewrite <- E. symmetry. apply existsb_true. eauto.
Qed.

Lemma sequel_insertTrunkENIIntoDB h d X ni generation :
  sequel h d X (insertTrunkENIIntoDB h ni generation) (λ id X', ∃ t, t ∈ trunk_enis X' ∧ te_id t = id ∧
    te_trunk_eni t = NetworkInterfaceId ni ∧ te_deleted_at t = None ∧ te_mac t = Some (ni_MacAddress ni)).
Proof.
  unfold insertTrunkENIIntoDB. ends_step. subst. eapply sequel_mono; [apply sequel_exec_at|].
  intros id X' (-> & -> & _). apply upsert_trunk_row.
Qed.

Section Provision.
Context (ec2 : ec2_oracle) (trunkDescription : string).

Lemma createNewTrunkENI_spec subnetID generation w :
  wp (createNewTrunkENI ec2 trunkDescription subnetID generation) (λ r w',
    match r with Ok ni => provisioned generation ni (w_db w') | Fail _ => w_db w' = w_db w | Panic _ => False end) w.
Proof.
  apply wp_bind, wp_handle, wp_wrap, wp_call; [|done]. intros ni _.
  apply wp_bind, wp_handle, wp_wrap, wp_call; [|done]. intros _ _.
  set (w1 := set_calls _ _). change (w_db w) with (w_db w1). clearbody w1.
  apply (wp_with_tx_ends _ _ (λ r d', match r with Ok ni => provisioned generation ni d' | Fail _ => d' = w_db w1 | Panic _ => False end));
    [apply wp_BeginTx_wrap|done|]. intros h.
  eapply ends_bind; [apply sequel_wrap, sequel_insertTrunkENIIntoDB|done|]. intros id X (t & Ht & <- & Hname & Hdel & Hmac).
  eapply (ends_bind _ _ _ _ _ (λ _ X', provisioned generation ni X')); [|done|].
  - destruct (generation =? 3) eqn:E.
    + ends_step. subst. eapply (sequel_bind _ _ _ _ _ (λ _ X', X' = X)).
      { intros w2 Hw2. apply wp_act. exists X. by split. }
      intros [] ? ->. eapply sequel_mono; [apply sequel_wrap, sequel_exec|]. intros _ X' [-> _].
      exists t. split_and!; try done. intros _ c Hc.
      destruct (elem_of_classes (te_id t) a htb_classes c) as [id Hid].
      { unfold htb_classes, generate_series. apply elem_of_seqZ. lia. }
      exists id. apply elem_of_app. by right.
    + apply sequel_ret. exists t. split_and!; try done. intros ->. done.
  - intros [] X' HX'. apply ends_commit; [done|]. intros w2 Hd2 _. apply wp_ret. by rewrite Hd2.
Qed.

(** Provisioning an instance that has a trunk ENI changes nothing and answers with it.  Otherwise
    the answer is a trunk ENI that the service knows, without tombstone, with a free HTB class for every
    class ID when the generation is 3, and that EC2 was asked to attach at device index 1.  It does not
    panic, and when it fails either nothing changed or such a trunk ENI was created. *)
Theorem provisionInstance_provisions instanceID region account generation w :
  wp (provisionInstanceShared ec2 trunkDescription instanceID region account generation) (λ r w',
    match r with
    | Ok ni =>
        w_db w' = w_db w ∧ (∃ i eni, getTrunkENI i = Some eni ∧ ni = instanceNetworkInterface i eni) ∨
        (∃ iface i, provisioned generation iface (w_db w') ∧ ni = networkInterface iface ∧ getTrunkENI i = None ∧
           last (w_calls w') = Some (Event (AttachNetworkInterface 1 (InstanceId i) (NetworkInterfaceId iface))))
    | Fail _ => w_db w' = w_db w ∨ ∃ iface, provisioned generation iface (w_db w')
    | Panic _ => False
    end) w.
Proof.
  apply wp_bind, wp_call; [|by left]. intros _ _. apply wp_bind. unfold session_GetInstance, wp, call. simpl.
  destruct (ec2 instance _ _) as [e|i] eqn:Ei; simpl; [by left|]. destruct (getTrunkENI i) as [eni|] eqn:Et.
  { left. split; [done|]. by exists i, eni. }
  set (w1 := set_calls _ _). change (w_db w) with (w_db w1). clearbody w1. apply wp_bind.
  eapply wp_mono; [apply createNewTrunkENI_spec|]. intros [iface|e|s] w2 H; [|by left|done].
  apply wp_bind, wp_try. unfold session_call. apply wp_wrap, wp_call.
  - intros [] _. apply wp_ret. right. exists iface, i. split_and!; [done|done|done|]. simpl. by rewrite last_snoc.
  - intros e _. apply wp_throw. right. by exists iface.
Qed.
End Provision.
