(* ===== verification/AssignV1.v ===== *)
(** * AssignV1: assignment of the first generation

    Models [AssignIP], [assignAddresses], [assignAddressesFromAllocations] and [RefreshIP] of
    [vpc/service/assign_address.go].  An agent of the first generation asks for the addresses of an interface of
    its instance, and says which of them it uses; the service sees to it that one is free, by asking EC2 for
    more.  The agent also reports when addresses were used ([RefreshIP]).

    PostgreSQL is taken to print an inet as Go prints an IP; the UUID of an allocation in a request is taken to be
    written the way PostgreSQL prints it. *)
From S2P Require Import Prelude Errors Limits NetIP GoSlice Schema Service Logic TxLogic BranchEni GenerateAssignment AssignV3 Gc TrunkEnis.

Open Scope string_scope.
Open Scope Z_scope.
Open Scope list_scope.

(** ** Requests *)

(** The identity is the instance, its region and its account.  [UtilizedAddresses] are the addresses, and
    [SignedAddressAllocations] the UUIDs; the messages that hold them can be missing. *)
Record AssignIPRequest := MkAssignIPRequest {
  a1_InstanceIdentity : option (string * string * string);
  a1_NetworkInterfaceAttachment : option Z;
  a1_SecurityGroupIds : list string;
  a1_AllowSecurityGroupChange : bool;
  a1_Ipv6AddressRequested : bool;
  a1_UtilizedAddresses : list (option string);
  a1_SignedAddressAllocations : list (option string)
}.

(** Those that are not missing *)
Definition a1_utilized (req : AssignIPRequest) : list string := omap id (a1_UtilizedAddresses req).
Definition a1_uuids (req : AssignIPRequest) : list string := omap id (a1_SignedAddressAllocations req).

Record AssignIPResponse := MkAssignIPResponse {
  r1_UsableAddresses : list UsableAddress;
  r1_NetworkInterface : NetworkInterfaceV3;
  r1_SecurityGroupIds : list string
}.

Definition isAssignIPRequestValid (req : AssignIPRequest) : M Z :=
  match a1_NetworkInterfaceAttachment req with
  | None => go_panic "nil pointer dereference"
  | Some idx => if idx =? 0 then throw (EStatus InvalidArgument "Device index 0 not allowed") else mret idx
  end.

(** ** Addresses *)

Definition assigned_v4 (ni : network_interface) : gset string :=
  {[canonical (ni_PrivateIpAddress ni)]} ∪ list_to_set (canonical ∘ pi_address <$> ni_PrivateIpAddresses ni).

Definition assigned_v6 (ni : network_interface) : gset string := list_to_set (canonical <$> ni_Ipv6Addresses ni).

Definition utilized_v4 (l : list string) : gset string := list_to_set (canonical <$> where_ (λ a, is_v4 (ParseIP a)) l).
Definition utilized_v6 (l : list string) : gset string := list_to_set (canonical <$> where_ (λ a, negb (is_v4 (ParseIP a))) l).

Definition cidr_error : error := EWrap "Cannot parse CIDR block" (EString "invalid CIDR address").

(** What the context of a request fails with when its time is over *)
Definition context_done : error := HandleEC2Error (ECtx true).

Definition usable (prefix : Z) (l : list string) : list UsableAddress := (λ ip, MkUsableAddress ip prefix) <$> l.

(** How many addresses to ask for, given how many there are: [counted] is compared with the maximum, [taken] subtracted from it. *)
Definition want_to_assign (maxIPAddresses counted taken : Z) : Z :=
  if maxIPAddresses <? counted + 4 then maxIPAddresses - taken else 4.

(** ** Addresses that were allocated beforehand *)

(** The slices of [assignAddressesFromAllocations]; the two of addresses to assign may share an array. *)
Record alloc_state := MkAllocState {
  al_heap : list (list (option string));
  al_v6_to_assign : slice;
  al_v4_to_assign : slice;
  al_v6 : list string;
  al_v4 : list string
}.

Definition alloc_init : alloc_state :=
  let '(h, v6) := empty_slice [] in
  let '(h, v4) := empty_slice h in
  MkAllocState h v6 v4 [] [].

(** One turn of the loop over the allocations *)
Definition alloc_turn (ni : network_interface) (s : alloc_state) (ipAddress : string) : alloc_state :=
  let ip := canonical ipAddress in
  if is_v4 (ParseIP ipAddress) then
    let '(h, v4) := if bool_decide (ip ∈ assigned_v4 ni) then (al_heap s, al_v4_to_assign s)
                    else append (al_heap s) (al_v6_to_assign s) ip in
    MkAllocState h (al_v6_to_assign s) v4 (al_v6 s) (al_v4 s ++ [ip])
  else
    let '(h, v6) := if bool_decide (ip ∈ assigned_v6 ni) then (al_heap s, al_v6_to_assign s)
                    else append (al_heap s) (al_v6_to_assign s) ip in
    MkAllocState h v6 (al_v4_to_assign s) (al_v6 s ++ [ip]) (al_v4 s).

(** [SELECT ip_address, subnet_id FROM ip_addresses WHERE id = $1] *)
Definition allocation_ip (uuid : string) (d : db) : option string :=
  ip_ip_address <$> head (where_ (λ r, bool_decide (ip_id r = uuid)) (ip_addresses d)).

Fixpoint alloc_loop (h : tx) (ni : network_interface) (uuids : list (option string)) (s : alloc_state) : M alloc_state :=
  match uuids with
  | [] => mret s
  | None :: _ => go_panic "nil pointer dereference"
  | Some uuid :: uuids =>
      ip ← wrap_status Unknown "Could not perform db query" (queryRow h (allocation_ip uuid));
      alloc_loop h ni uuids (alloc_turn ni s ip)
  end.

(** ** Reports of use *)

(** [INSERT INTO ip_last_used .. ON CONFLICT(ip_address) DO UPDATE SET ..] *)
Definition upsert_use (ip : string) (update : ip_used_row → ip_used_row) (new : ip_used_row) (l : list ip_used_row) : list ip_used_row :=
  if existsb (λ r, bool_decide (ul_ip_address r = ip)) l then update_where (λ r, bool_decide (ul_ip_address r = ip)) update l else l ++ [new].

(** [.. (ip_address, last_used) VALUES($1, $2) .. SET last_used = $2] *)
Definition report_used (ip : string) (t : Z) (d : db) : db :=
  set_ip_last_used
    (upsert_use ip (λ r, IpUsedRow (ul_ip_address r) (Some t) (ul_last_allocated r)) (IpUsedRow ip (Some t) None) (ip_last_used d)) d.

(** The inet of an address *)
Definition inet (ip : string) : M string :=
  if bool_decide (is_Some (ParseIP ip)) then mret (canonical ip) else throw (EPq "invalid_text_representation" "").

Record RefreshIPRequest := MkRefreshIPRequest {
  rq_UtilizedAddress : list UtilizedAddress;
  rq_BranchNetworkInterface : option string
}.

Fixpoint refresh_addresses (h : tx) (l : list UtilizedAddress) : M unit :=
  match l with
  | [] => mret tt
  | u :: l =>
      match uz_LastUsedTime u with
      | None => refresh_addresses h l
      | Some ts =>
          _ ← wrap "Could not update ip_last_used table" (ip ← inet (uz_Address u); exec h (report_used ip ts));
          refresh_addresses h l
      end
  end.

Definition RefreshIP (request : RefreshIPRequest) : M unit :=
  with_tx (wrap_status Unknown "Could not start database transaction" BeginTx) (λ h,
    _ ← refresh_addresses h (rq_UtilizedAddress request);
    _ ← match rq_BranchNetworkInterface request with
        | None | Some "" => mret tt
        | Some eni =>
            t ← now;
            wrap "Could not update branch_eni_last_used table"
              (exec h (λ d, set_branch_eni_last_used (upsert_eni_last_used t eni (branch_eni_last_used d)) d))
        end;
    wrap "Could not commit refresh" (Commit h)).

Section WithEC2.
Context (ec2 : ec2_oracle).

Definition assignAddressesFromAllocations (ni : network_interface) (subnet : ec2_subnet) (req : AssignIPRequest) : M AssignIPResponse :=
  match ParseCIDR (es_CidrBlock subnet) with
  | None => throw cidr_error
  | Some prefixlength =>
      with_tx (wrap_status Unknown "Could not start database transaction" BeginTx) (λ h,
        s ← alloc_loop h ni (a1_SignedAddressAllocations req) alloc_init;
        let v4 := contents (al_heap s) (al_v4_to_assign s) in
        let v6 := contents (al_heap s) (al_v6_to_assign s) in
        _ ← (if (0 <? length v4)%nat then
               r ← try (session_AssignPrivateIPAddresses ec2 (AssignPrivateIps (NetworkInterfaceId ni) v4 true));
               match r with inl e => throw (HandleEC2Error e) | inr _ => mret tt end
             else mret tt);
        _ ← (if (0 <? length v6)%nat then
               r ← try (session_AssignIPv6Addresses ec2 (AssignIpv6s (NetworkInterfaceId ni) v6));
               match r with inl e => throw (HandleEC2Error e) | inr _ => mret tt end
             else mret tt);
        ni ← session_GetNetworkInterfaceByID ec2 (NetworkInterfaceId ni);
        mret (MkAssignIPResponse (usable (uint32 prefixlength) (al_v4 s) ++ usable 128 (al_v6 s)) (networkInterface ni) []))
  end.

(** *** Addresses from EC2 *)

Definition ask_v4 (ni : network_interface) (maxIPAddresses : Z) : M unit :=
  let n := Z.of_nat (size (assigned_v4 ni)) in
  let want := want_to_assign maxIPAddresses n n in
  if want <=? 0 then throw (EString "Invalid number of IPv4 addresses to assign to interface")
  else _ ← session_AssignPrivateIPAddresses ec2 (AssignPrivateIpCount (NetworkInterfaceId ni) want); mret tt.

Definition ask_v6 (ni : network_interface) (maxIPAddresses : Z) : M unit :=
  let want := want_to_assign maxIPAddresses (Z.of_nat (size (assigned_v6 ni))) (Z.of_nat (size (assigned_v4 ni))) in
  if want <=? 0 then throw (EString "Invalid number of IPv4 addresses to assign to interface")
  else _ ← wrap_status Unknown "Cannot assign IPv6 addresses" (session_AssignIPv6Addresses ec2 (AssignIpv6Count (NetworkInterfaceId ni) want)); mret tt.

(** One call of [assignAddresses]; [again] is the call of itself. *)
Definition assign_round (again : M AssignIPResponse) (ni : network_interface) (req : AssignIPRequest) (subnet : ec2_subnet) (maxIPAddresses : Z)
    (allowAssignment : bool) : M AssignIPResponse :=
  let utilized4 := utilized_v4 (a1_utilized req) in
  let utilized6 := utilized_v6 (a1_utilized req) in
  if bool_decide (None ∈ a1_UtilizedAddresses req) then go_panic "nil pointer dereference"
  else if maxIPAddresses <=? Z.of_nat (size utilized4) then throw (EStatus FailedPrecondition "IPv4 addresses assigned, interface can only handle fewer IPs")
  else if maxIPAddresses <=? Z.of_nat (size utilized6) then throw (EStatus FailedPrecondition "IPv6 addresses assigned, interface can only handle fewer IPs")
  else
    with_tx (wrap_status Unknown "Could not start database transaction" BeginTx) (λ h,
      rows ← query h (static_rows (assigned_v4 ni ∪ assigned_v6 ni));
      _ ← try (Commit h);
      let static : gset string := list_to_set (canonical ∘ ip_ip_address <$> rows) in
      let need4 := bool_decide ((assigned_v4 ni ∖ utilized4) ∖ static = ∅) in
      let need6 := a1_Ipv6AddressRequested req && bool_decide ((assigned_v6 ni ∖ utilized6) ∖ static = ∅) in
      if negb need4 && negb need6 then
        match ParseCIDR (es_CidrBlock subnet) with
        | None => throw cidr_error
        | Some prefixlength =>
            l4 ← shuffle (elements (assigned_v4 ni ∖ static));
            l6 ← shuffle (elements (assigned_v6 ni ∖ static));
            mret (MkAssignIPResponse (usable (uint32 prefixlength) l4 ++ usable 128 l6) (networkInterface ni) ((λ _, "") <$> ni_Groups ni))
        end
      else
        _ ← (if allowAssignment then
               _ ← (if need4 then ask_v4 ni maxIPAddresses else mret tt);
               if need6 then ask_v6 ni maxIPAddresses else mret tt
             else mret tt);
        again).

(** The code calls itself until the interface has what is needed, or the context is done: after [fuel] calls. *)
Fixpoint assignAddresses (fuel : nat) (ni : network_interface) (req : AssignIPRequest) (subnet : ec2_subnet) (maxIPAddresses : Z)
    (allowAssignment : bool) : M AssignIPResponse :=
  assign_round
    (match fuel with
     | O => throw context_done
     | S fuel =>
         ni ← session_GetNetworkInterfaceByID ec2 (NetworkInterfaceId ni);
         assignAddresses fuel ni req subnet maxIPAddresses false
     end) ni req subnet maxIPAddresses allowAssignment.

(** *** The request *)

Definition AssignIP (fuel : nat) (req : AssignIPRequest) : M AssignIPResponse :=
  match a1_InstanceIdentity req with
  | None => go_panic "nil pointer dereference"
  | Some (instanceID, region, account) =>
      idx ← isAssignIPRequestValid req;
      _ ← GetSessionFromAccountAndRegion ec2 account region;
      i ← session_GetInstance ec2 instanceID false;
      maxIPAddresses ← match GetMaxIPAddresses (InstanceType i) with
                       | Ok n => mret n
                       | Fail _ => throw (EStatus InvalidArgument "Unknown instance type")
                       | Panic s => go_panic s
                       end;
      o ← GetInterfaceByIdxWithRetries ec2 i idx;
      match o with
      | inl i => throw (interface_not_at idx (InstanceId i))
      | inr instanceIface =>
          let eni := in_NetworkInterfaceId instanceIface in
          iface ← session_GetNetworkInterfaceByID ec2 eni;
          iface ← (if bool_decide (ni_OwnerId iface = inst_OwnerId i) then mret iface
                   else region ← RegionFromAZ (inst_AvailabilityZone i);
                        _ ← GetSessionFromAccountAndRegion ec2 (ni_OwnerId iface) region;
                        session_GetNetworkInterfaceByID ec2 eni);
          subnet ← session_GetSubnetByID ec2 (ni_SubnetId iface);
          wanted ← match a1_SecurityGroupIds req with
                   | [] => wrap_status NotFound "Could not fetch default security groups"
                             (session_GetDefaultSecurityGroups ec2 (in_VpcId instanceIface))
                   | groups => mret groups
                   end;
          _ ← (if bool_decide (list_to_set wanted = (list_to_set (ni_Groups iface) : gset string)) then mret tt
               else if negb (a1_AllowSecurityGroupChange req) then throw (EStatus FailedPrecondition "Security group change required, but not allowed")
               else session_ModifySecurityGroups ec2 eni wanted);
          match a1_SignedAddressAllocations req with
          | [] => assignAddresses fuel iface req subnet maxIPAddresses true
          | _ => assignAddressesFromAllocations iface subnet req
          end
      end
  end.
End WithEC2.

(** ** The slices of [assignAddressesFromAllocations] *)

Section Allocations.
Context (ni : network_interface).

Definition new_v6 (ips : list string) : list string :=
  canonical <$> where_ (λ ip, negb (is_v4 (ParseIP ip)) && negb (bool_decide (canonical ip ∈ assigned_v6 ni))) ips.

Definition new_v4 (ips : list string) : list string :=
  canonical <$> where_ (λ ip, is_v4 (ParseIP ip) && negb (bool_decide (canonical ip ∈ assigned_v4 ni))) ips.

Definition alloc_run (ips : list string) : alloc_state := foldl (alloc_turn ni) alloc_init ips.

(** All that was written *)
Definition written (h : list (list (option string))) (ips : list string) : Prop :=
  ∀ a x, a ∈ h → Some x ∈ a → x ∈ canonical <$> ips.

(** What holds after the allocations [ips] *)
Record alloc_ok (ips : list string) (s : alloc_state) : Prop := {
  ak_slice : slice_ok (al_heap s) (al_v6_to_assign s);
  ak_v6_new : contents (al_heap s) (al_v6_to_assign s) = new_v6 ips;
  ak_written : written (al_heap s) ips;
  ak_v6 : al_v6 s = canonical <$> where_ (λ ip, negb (is_v4 (ParseIP ip))) ips;
  ak_v4 : al_v4 s = canonical <$> where_ (λ ip, is_v4 (ParseIP ip)) ips;
  ak_v4_new : new_v6 ips = [] → contents (al_heap s) (al_v4_to_assign s) = option_list (last (new_v4 ips))
}.

Lemma where_snoc {A} (p : A → bool) l x : where_ p (l ++ [x]) = where_ p l ++ (if p x then [x] else []).
Proof. unfold where_. rewrite List.filter_app. simpl. by destruct (p x). Qed.

Lemma elem_of_insert_inv {A} (l : list A) i x y : y ∈ <[i := x]> l → y = x ∨ y ∈ l.
Proof.
  intros [j Hj]%list_elem_of_lookup_1. destruct (decide (i = j)) as [->|Hne].
  - apply list_lookup_insert_Some in Hj as [(_ & <- & _)|[? _]]; [by left | done].
  - rewrite list_lookup_insert_ne in Hj by done. right. by eapply list_elem_of_lookup_2.
Qed.

Lemma written_append h s x h' s' ips ip :
  written h ips → append h s x = (h', s') → x = canonical ip → written h' (ips ++ [ip]).
Proof.
  intros Hw Happ -> a y Ha Hy. rewrite fmap_app, elem_of_app. simpl.
  assert (∀ a', a' ∈ h → Some y ∈ a' → y ∈ canonical <$> ips) as Hw' by (intros a'; apply Hw).
  assert (Some y ∈ array h s → y ∈ canonical <$> ips) as Harr.
  { unfold array. destruct (h !! sl_array s) as [a'|] eqn:E; simpl; [|by intros ?%elem_of_nil]. intros Hin. apply (Hw' a'); [|done].
    by eapply list_elem_of_lookup_2. }
  unfold append in Happ. destruct (sl_len s <? length (array h s))%nat; injection Happ as <- <-.
  - apply elem_of_insert_inv in Ha as [->|Ha]; [|left; by apply (Hw' a)].
    apply elem_of_insert_inv in Hy as [[= ->]|Hy]; [right; by left | left; auto].
  - apply elem_of_app in Ha as [Ha| ->%list_elem_of_singleton]; [left; by apply (Hw' a)|]. unfold grown in Hy.
    rewrite !elem_of_app, list_elem_of_singleton in Hy. destruct Hy as [Hy|[[= ->]|Hy]]; [left; apply Harr; apply elem_of_take in Hy as (i & Hi & _); by eapply list_elem_of_lookup_2|right; by left|].
    apply elem_of_replicate in Hy as [? _]. done.
Qed.

Lemma alloc_turn_ok ips s ip : alloc_ok ips s → alloc_ok (ips ++ [ip]) (alloc_turn ni s ip).
Proof.
  intros [Hs Hc Hw H6 H4 Hn]. unfold alloc_turn.
  assert (∀ h, written h ips → written h (ips ++ [ip])) as Hgrow.
  { intros h Hh a x Ha Hx. rewrite fmap_app. apply elem_of_app. left. by apply (Hh a). }
  assert (new_v6 (ips ++ [ip]) = new_v6 ips ++ (if negb (is_v4 (ParseIP ip)) && negb (bool_decide (canonical ip ∈ assigned_v6 ni)) then [canonical ip] else [])) as E6.
  { unfold new_v6. rewrite where_snoc, fmap_app. apply (f_equal (app _)). by match goal with |- context [if ?b then [ip] else []] => destruct b end. }
  assert (new_v4 (ips ++ [ip]) = new_v4 ips ++ (if is_v4 (ParseIP ip) && negb (bool_decide (canonical ip ∈ assigned_v4 ni)) then [canonical ip] else [])) as E4.
  { unfold new_v4. rewrite where_snoc, fmap_app. apply (f_equal (app _)). by match goal with |- context [if ?b then [ip] else []] => destruct b end. }
  destruct (is_v4 (ParseIP ip)) eqn:Ev; simpl in E6, E4.
  - rewrite app_nil_r in E6. destruct (bool_decide (canonical ip ∈ assigned_v4 ni)) eqn:Ea; simpl in E4.
    + rewrite app_nil_r in E4. split; simpl; rewrite ?where_snoc, ?Ev, ?fmap_app, ?E6, ?E4, ?app_nil_r; auto. by rewrite H4.
    + destruct (append _ _ _) as [h' v4'] eqn:Happ. destruct (append_contents _ _ _ _ _ Hs Happ) as [Hs4 Hc4].
      destruct (append_other _ _ _ _ _ (al_v6_to_assign s) Happ Hs (or_intror (Nat.le_refl _))) as [Hs' Hc'].
      split; simpl; rewrite ?where_snoc, ?Ev, ?fmap_app, ?E6, ?E4, ?app_nil_r; auto.
      * by rewrite Hc'.
      * by eapply written_append.
      * by rewrite H4.
      * intros Hnil. rewrite Hc4, Hc, Hnil, last_snoc. done.
  - rewrite app_nil_r in E4. destruct (bool_decide (canonical ip ∈ assigned_v6 ni)) eqn:Ea; simpl in E6.
    + rewrite app_nil_r in E6. split; simpl; rewrite ?where_snoc, ?Ev, ?fmap_app, ?E6, ?E4, ?app_nil_r; auto. by rewrite H6.
    + destruct (append _ _ _) as [h' v6'] eqn:Happ. destruct (append_contents _ _ _ _ _ Hs Happ) as [Hs6 Hc6].
      split; simpl; rewrite ?where_snoc, ?Ev, ?fmap_app, ?E6, ?E4, ?app_nil_r; auto.
      * by rewrite Hc6, Hc.
      * by eapply written_append.
      * by rewrite H6.
      * intros Hnil. by destruct (new_v6 ips).
Qed.

Lemma alloc_run_ok ips : alloc_ok ips (alloc_run ips).
Proof.
  induction ips as [|ip ips IH] using rev_ind.
  - split; try done; [split_and!; simpl; [lia|lia|constructor] | intros a x Ha Hx]. unfold alloc_init in Ha. simpl in Ha.
    apply elem_of_cons in Ha as [->|Ha]; [|apply list_elem_of_singleton in Ha as ->]; by apply elem_of_nil in Hx.
  - unfold alloc_run. rewrite foldl_app. simpl. by apply alloc_turn_ok.
Qed.

Lemma contents_written h s ips ip : written h ips → ip ∈ contents h s → ip ∈ canonical <$> ips.
Proof.
  intros Hw (o & Ho & Hs)%list_elem_of_omap. simpl in Hs. subst o. unfold array in Ho.
  destruct (h !! sl_array s) as [a|] eqn:E; simpl in Ho; [|by rewrite take_nil in Ho; apply elem_of_nil in Ho].
  apply (Hw a); [by eapply list_elem_of_lookup_2|]. apply elem_of_take in Ho as (i & Hi & _). by eapply list_elem_of_lookup_2.
Qed.
End Allocations.

(** ** What is answered *)

(** The static addresses among those of an interface *)
Lemma elem_of_static X d ip :
  all_canonical X → ip ∈ X →
  ip ∈ (list_to_set (canonical ∘ ip_ip_address <$> static_rows X d) : gset string) ↔ ip ∈ ip_ip_address <$> ip_addresses d.
Proof.
  intros HX Hip. rewrite elem_of_list_to_set, !list_elem_of_fmap. split.
  - intros (row & -> & [Hrow Hin%bool_decide_eq_true]%elem_of_where). exists row. split; [|done]. by apply HX.
  - intros (row & -> & Hrow). exists row. split; [symmetry; by apply HX|]. apply elem_of_where. split; [done|]. by apply bool_decide_eq_true_2.
Qed.

Lemma assigned_canonical ni : all_canonical (assigned_v4 ni ∪ assigned_v6 ni).
Proof.
  intros x [Hx|Hx]%elem_of_union; [by apply (ifaceIPv4Set_canonical ni)|].
  apply elem_of_list_to_set, list_elem_of_fmap in Hx as (y & -> & _). apply canonical_idem.
Qed.

(** [resp] lists exactly the addresses of the interface that are not static, at least one of them is free, also of IPv6 if asked for. *)
Record provides (d : db) (req : AssignIPRequest) (subnet : ec2_subnet) (ni : network_interface) (resp : AssignIPResponse) : Prop := {
  pv_interface : r1_NetworkInterface resp = networkInterface ni;
  pv_usable : ∃ prefix, ParseCIDR (es_CidrBlock subnet) = Some prefix ∧ ∀ ip len, MkUsableAddress ip len ∈ r1_UsableAddresses resp ↔
    (ip ∉ ip_ip_address <$> ip_addresses d) ∧ (ip ∈ assigned_v4 ni ∧ len = uint32 prefix ∨ ip ∈ assigned_v6 ni ∧ len = 128);
  pv_free4 : ∃ ip, ip ∈ assigned_v4 ni ∧ (ip ∉ ip_ip_address <$> ip_addresses d) ∧ ip ∉ utilized_v4 (a1_utilized req);
  pv_free6 : a1_Ipv6AddressRequested req = true →
    ∃ ip, ip ∈ assigned_v6 ni ∧ (ip ∉ ip_ip_address <$> ip_addresses d) ∧ ip ∉ utilized_v6 (a1_utilized req)
}.

(** What EC2 may be asked for an interface: more IPv4 addresses within its limit, and IPv6 addresses *)
Definition asks_more (maxIPAddresses : Z) (ni : network_interface) (ev : event) : Prop :=
  match ev_call ev with
  | AssignPrivateIpCount eni n => eni = NetworkInterfaceId ni ∧ 1 ≤ n ≤ 4 ∧ Z.of_nat (size (assigned_v4 ni)) + n ≤ maxIPAddresses
  | AssignIpv6Count eni n => eni = NetworkInterfaceId ni ∧ 1 ≤ n ≤ maxIPAddresses
  | c => describing c = true
  end.

Section Assigning.
Context (ec2 : ec2_oracle) (d : db) (t : Z) (req : AssignIPRequest) (subnet : ec2_subnet) (max : Z).

Lemma ask_v4_asks hs ni : observes hs (asks_more max ni) d t (ask_v4 ec2 ni max) (λ _, True).
Proof.
  unfold ask_v4. cbv zeta. destruct (Z.leb_spec (want_to_assign max (Z.of_nat (size (assigned_v4 ni))) (Z.of_nat (size (assigned_v4 ni)))) 0) as [|Hpos];
    [apply observes_throw|].
  eapply observes_bind; [apply observes_wrap_status, (observes_call _ _ _ _ _ _ (λ _, True)); [|done]|by intros; apply observes_ret].
  split; [done|]. unfold want_to_assign in *. destruct (Z.ltb_spec max (Z.of_nat (size (assigned_v4 ni)) + 4)); lia.
Qed.

Lemma ask_v6_asks hs ni : observes hs (asks_more max ni) d t (ask_v6 ec2 ni max) (λ _, True).
Proof.
  unfold ask_v6. cbv zeta. set (want := want_to_assign _ _ _). destruct (Z.leb_spec want 0) as [|Hpos]; [apply observes_throw|].
  eapply observes_bind; [apply observes_wrap_status, observes_wrap_status, (observes_call _ _ _ _ _ _ (λ _, True)); [|done]|by intros; apply observes_ret].
  split; [done|]. unfold want, want_to_assign in *. destruct (Z.ltb_spec max (Z.of_nat (size (assigned_v6 ni)) + 4)); lia.
Qed.

(** The set is empty, or has an element *)
Lemma elem_of_free X Y Z' (d' : db) :
  (∀ ip, ip ∈ X → ip ∈ Z' ↔ ip ∈ ip_ip_address <$> ip_addresses d') → (X ∖ Y) ∖ Z' ≠ (∅ : gset string) →
  ∃ ip, ip ∈ X ∧ (ip ∉ ip_ip_address <$> ip_addresses d') ∧ ip ∉ Y.
Proof.
  intros HZ [ip Hip]%set_choose_L. rewrite !base.elem_of_difference in Hip. destruct Hip as [[HX HY] HZ']. exists ip.
  split_and!; [done| |done]. by rewrite <- (HZ ip HX).
Qed.

Lemma elem_of_usable prefix l ip len : MkUsableAddress ip len ∈ usable prefix l ↔ ip ∈ l ∧ len = prefix.
Proof. unfold usable. rewrite list_elem_of_fmap. naive_solver. Qed.

Lemma assign_round_observes hs P again ni allow (Q : AssignIPResponse → Prop) :
  (allow = true → ∀ ev, asks_more max ni ev → P ev) → (∀ resp, provides d req subnet ni resp → Q resp) →
  (∀ hs, observes hs P d t again Q) → observes hs P d t (assign_round ec2 again ni req subnet max allow) Q.
Proof.
  intros Hask HQ Hnext. unfold assign_round. cbv zeta. case_bool_decide; [apply observes_panic|]. case_match; [apply observes_throw|]. case_match; [apply observes_throw|].
  apply observes_with_tx; [auto with observes|]. intros h.
  eapply observes_bind; [apply (observes_query_of _ _ _ _ h _ (λ rows, rows = static_rows (assigned_v4 ni ∪ assigned_v6 ni) d)); [by left|done]|]. intros ? ->.
  eapply observes_bind; [apply observes_try, observes_Commit; by left|]. intros _ _.
  set (static := list_to_set _ : gset string).
  assert (∀ ip, ip ∈ assigned_v4 ni ∪ assigned_v6 ni → ip ∈ static ↔ ip ∈ ip_ip_address <$> ip_addresses d) as Hstatic
    by (intros ip Hip; apply elem_of_static; [apply assigned_canonical | done]).
  destruct (negb _ && negb _) eqn:En.
  - apply andb_true_iff in En as [E4%negb_true_iff%bool_decide_eq_false E6%negb_true_iff].
    destruct (ParseCIDR (es_CidrBlock subnet)) as [prefix|] eqn:Ep; [|apply observes_throw].
    eapply observes_bind; [apply observes_shuffle|]. intros l4 Hl4. eapply observes_bind; [apply observes_shuffle|]. intros l6 Hl6.
    apply observes_ret, HQ. split; [done| | |].
    + exists prefix. split; [done|]. intros ip len. simpl. rewrite elem_of_app, !elem_of_usable, Hl4, Hl6, !elem_of_elements, !base.elem_of_difference.
      pose proof (Hstatic ip) as Hs. set_solver.
    + apply (elem_of_free _ _ static); [|done]. intros ip Hip. apply Hstatic. set_solver.
    + intros H6. rewrite H6 in E6. apply bool_decide_eq_false in E6. apply (elem_of_free _ _ static); [|done]. intros ip Hip. apply Hstatic. set_solver.
  - eapply (observes_bind _ _ _ _ _ _ (λ _, True)); [|by intros].
    destruct allow; [|by apply observes_ret]. specialize (Hask eq_refl).
    eapply (observes_bind _ _ _ _ _ _ (λ _, True)); [case_match; [|by apply observes_ret] | intros _ _; case_match; [|by apply observes_ret]].
    all: eapply observes_asks; [apply ask_v4_asks || apply ask_v6_asks | exact Hask].
Qed.

Lemma assignAddresses_observes hs P fuel ni allow :
  (∀ ev, asks_more max ni ev → P ev) → (∀ e, P (Event (DescribeNetworkInterface e))) →
  observes hs P d t (assignAddresses ec2 fuel ni req subnet max allow)
    (λ resp, ∃ ni', (ni' = ni ∨ ∃ e, is_described ec2 e ni') ∧ provides d req subnet ni' resp).
Proof.
  intros Hask Hdesc.
  assert (∀ fuel hs ni, (∃ e, is_described ec2 e ni) → observes hs P d t (assignAddresses ec2 fuel ni req subnet max false)
    (λ resp, ∃ ni', (∃ e, is_described ec2 e ni') ∧ provides d req subnet ni' resp)) as Hrest.
  { clear Hask ni fuel allow hs. intros fuel. induction fuel as [|fuel IH]; intros hs ni Hni; cbn [assignAddresses]; apply assign_round_observes; [done|by eauto| |done|by eauto|].
    - intros. apply observes_throw.
    - intros hs'. eapply observes_bind; [by apply observes_GetNetworkInterfaceByID|]. intros ni' Hni'. apply IH. by exists (NetworkInterfaceId ni). }
  destruct fuel as [|fuel]; cbn [assignAddresses]; apply assign_round_observes; [done|by eauto| |done|by eauto|].
  - intros. apply observes_throw.
  - intros hs'. eapply observes_bind; [by apply observes_GetNetworkInterfaceByID|]. intros ni' Hni'.
    eapply observes_mono; [apply Hrest; by exists (NetworkInterfaceId ni)|]. intros resp (ni2 & He & Hp). exists ni2. eauto.
Qed.
End Assigning.

(** ** Allocations *)

Section FromAllocations.
Context (ec2 : ec2_oracle) (d : db) (t : Z).

(** The addresses of the allocations *)
Definition allocated (uuids ips : list string) : Prop := Forall2 (λ uuid ip, allocation_ip uuid d = Some ip) uuids ips.

(** The answer to allocations lists each of them. *)
Definition answers_allocations (subnet : ec2_subnet) (ips : list string) (resp : AssignIPResponse) : Prop :=
  ∃ prefix e ni, ParseCIDR (es_CidrBlock subnet) = Some prefix ∧ is_described ec2 e ni ∧ r1_NetworkInterface resp = networkInterface ni ∧
    r1_UsableAddresses resp = usable (uint32 prefix) (canonical <$> where_ (λ ip, is_v4 (ParseIP ip)) ips) ++
                              usable 128 (canonical <$> where_ (λ ip, negb (is_v4 (ParseIP ip))) ips).

(** What EC2 is asked: every IPv6 address that the interface does not have; of IPv4 addresses only the last, at least when
    there is no such IPv6 address. *)
Definition asks_allocated (ni : network_interface) (ips : list string) (ev : event) : Prop :=
  match ev_call ev with
  | AssignPrivateIps e l _ => e = NetworkInterfaceId ni ∧ l ⊆ canonical <$> ips ∧ (new_v6 ni ips = [] → l = option_list (last (new_v4 ni ips)))
  | AssignIpv6s e l => e = NetworkInterfaceId ni ∧ l = new_v6 ni ips
  | c => describing c = true
  end.

Lemma alloc_loop_observes hs P h ni uuids s :
  h ∈ hs → observes hs P d t (alloc_loop h ni uuids s) (λ s', ∃ ips, allocated (omap id uuids) ips ∧ s' = foldl (alloc_turn ni) s ips).
Proof.
  intros Hh. revert s. induction uuids as [|[uuid|] uuids IH]; intros s; simpl; [apply observes_ret; exists []; by split; [constructor|]| |apply observes_panic].
  eapply observes_bind; [apply observes_wrap_status, observes_queryRow_of; done|]. intros ip Hip. simpl in Hip.
  eapply observes_mono; [apply IH|]. intros s' (ips & Hips & ->). exists (ip :: ips). split; [by constructor | done].
Qed.

Lemma assignAddressesFromAllocations_observes hs P ni subnet req :
  (∀ ips, allocated (a1_uuids req) ips → ∀ ev, asks_allocated ni ips ev → P ev) →
  (∀ e, P (Event (DescribeNetworkInterface e))) →
  observes hs P d t (assignAddressesFromAllocations ec2 ni subnet req)
    (λ resp, ∃ ips, allocated (a1_uuids req) ips ∧ answers_allocations subnet ips resp).
Proof.
  intros HP Hdesc. unfold assignAddressesFromAllocations. destruct (ParseCIDR (es_CidrBlock subnet)) as [prefix|] eqn:Ep; [|apply observes_throw].
  apply observes_with_tx; [auto with observes|]. intros h.
  eapply observes_bind; [apply alloc_loop_observes; by left|]. intros ? (ips & Hips & ->). specialize (HP ips Hips).
  pose proof (alloc_run_ok ni ips) as [_ Hc6 Hw H6 H4 Hc4]. unfold alloc_run in *. cbv zeta. set (s := foldl _ _ _) in *.
  eapply (observes_bind _ _ _ _ _ _ (λ _, True)).
  { case_match; [|by apply observes_ret]. eapply (observes_bind _ _ _ _ _ _ (λ _, True)).
    - eapply observes_mono; [apply observes_try, observes_wrap_status, (observes_call _ _ _ _ _ _ (λ _, True)); [|done]|done].
      apply HP. split_and!; [done|intros ip Hip; by eapply contents_written|done].
    - intros [e|u] _; [apply observes_throw | by apply observes_ret]. }
  intros _ _. eapply (observes_bind _ _ _ _ _ _ (λ _, True)).
  { case_match; [|by apply observes_ret]. eapply (observes_bind _ _ _ _ _ _ (λ _, True)).
    - eapply observes_mono; [apply observes_try, observes_wrap_status, (observes_call _ _ _ _ _ _ (λ _, True)); [|done]|done].
      apply HP. by split.
    - intros [e|u] _; [apply observes_throw | by apply observes_ret]. }
  intros _ _. eapply observes_bind; [by apply observes_GetNetworkInterfaceByID|]. intros ni' Hni'. apply observes_ret.
  exists ips. split; [done|]. exists prefix, (NetworkInterfaceId ni), ni'. simpl. by rewrite H4, H6.
Qed.
End FromAllocations.

(** ** Claims *)

(** How many addresses an interface of the instance of the request may have *)
Definition instance_limit (ec2 : ec2_oracle) (req : AssignIPRequest) (max : Z) : Prop :=
  ∃ id region account cs i, a1_InstanceIdentity req = Some (id, region, account) ∧ ec2 _ cs (DescribeInstance id false) = inr i ∧
    GetMaxIPAddresses (InstanceType i) = Ok max.

(** What [AssignIP] may ask EC2 for *)
Definition asks_assign (ec2 : ec2_oracle) (req : AssignIPRequest) (d : db) (ev : event) : Prop :=
  match ev_call ev with
  | ModifyNetworkInterfaceGroups _ groups =>
      a1_AllowSecurityGroupChange req = true ∧ (a1_SecurityGroupIds req ≠ [] → groups = a1_SecurityGroupIds req)
  | AssignPrivateIps _ _ _ | AssignIpv6s _ _ =>
      ∃ e ni ips, is_described ec2 e ni ∧ allocated d (a1_uuids req) ips ∧ asks_allocated ni ips ev
  | AssignPrivateIpCount _ _ | AssignIpv6Count _ _ =>
      a1_SignedAddressAllocations req = [] ∧ ∃ e ni max, is_described ec2 e ni ∧ instance_limit ec2 req max ∧ asks_more max ni ev
  | c => describing c = true
  end.

Lemma observes_GetSubnetByID {G} ec2 hs P d t id :
  P (Event (DescribeSubnetsByID [id])) → observes_in (G:=G) hs P d t (session_GetSubnetByID ec2 id) (λ _, True).
Proof.
  intros HP w Hd Ht Hp. pose proof (observes_call_answer hs P d t ec2 _ HP w Hd Ht Hp) as H. unfold wp in *. unfold session_GetSubnetByID.
  destruct (call ec2 (DescribeSubnetsByID [id]) w) as [[[|s l]|e|m] w']; destruct H as [Hob _]; by split.
Qed.

Lemma observes_ModifySecurityGroups ec2 hs P d t eni groups :
  P (Event (ModifyNetworkInterfaceGroups eni groups)) → observes hs P d t (session_ModifySecurityGroups ec2 eni groups) (λ _, True).
Proof.
  intros HP w Hd Ht Hp. pose proof (observes_call_answer hs P d t ec2 _ HP w Hd Ht Hp) as H. unfold wp in *. unfold session_ModifySecurityGroups.
  destruct (call ec2 (ModifyNetworkInterfaceGroups eni groups) w) as [[u|e|m] w']; destruct H as [Hob _]; by split.
Qed.

(** ** How often more addresses are asked for *)

Definition asks_count (v6 : bool) (ev : event) : bool :=
  match ev_call ev with AssignPrivateIpCount _ _ => negb v6 | AssignIpv6Count _ _ => v6 | _ => false end.

Section Budgets.
Context (ec2 : ec2_oracle) (v6 : bool).
Abbreviation spends k m := (budget (asks_count v6) k m).

Lemma spends_quiet {A} k (m : M A) : keeps_calls m → spends k m.
Proof. apply budget_keeps_calls. Qed.

Lemma spends_GetNetworkInterfaceByID eni : spends 0%nat (session_GetNetworkInterfaceByID ec2 eni).
Proof.
  intros w. unfold session_GetNetworkInterfaceByID. pose proof (budget_call (asks_count v6) ec2 (DescribeNetworkInterface eni) w) as H.
  by destruct (call ec2 (DescribeNetworkInterface eni) w) as [[]].
Qed.

Lemma spends_GetInstance id b : spends 0%nat (session_GetInstance ec2 id b).
Proof.
  intros w. unfold session_GetInstance. pose proof (budget_call (asks_count v6) ec2 (DescribeInstance id b) w) as H.
  by destruct (call ec2 (DescribeInstance id b) w) as [[]].
Qed.

Lemma spends_GetSubnetByID id : spends 0%nat (session_GetSubnetByID ec2 id).
Proof.
  intros w. unfold session_GetSubnetByID. pose proof (budget_call (asks_count v6) ec2 (DescribeSubnetsByID [id]) w) as H.
  by destruct (call ec2 (DescribeSubnetsByID [id]) w) as [[[]| |]].
Qed.

Lemma spends_ModifySecurityGroups eni groups : spends 0%nat (session_ModifySecurityGroups ec2 eni groups).
Proof.
  intros w. unfold session_ModifySecurityGroups. pose proof (budget_call (asks_count v6) ec2 (ModifyNetworkInterfaceGroups eni groups) w) as H.
  by destruct (call ec2 (ModifyNetworkInterfaceGroups eni groups) w) as [[]].
Qed.

Lemma spends_then {A B} k (m : M A) (f : A → M B) : spends 0%nat m → (∀ a, spends k (f a)) → spends k (m ≫= f).
Proof. apply (budget_bind _ 0). Qed.

Lemma spends_ask_v4 ni max : spends (if v6 then 0 else 1)%nat (ask_v4 ec2 ni max).
Proof.
  unfold ask_v4. cbv zeta. destruct (_ <=? 0); [by apply spends_quiet|].
  replace (if v6 then 0 else 1)%nat with ((if v6 then 0 else 1) + 0)%nat by lia.
  apply (budget_bind _ _ 0); [|intros _; by apply spends_quiet]. apply budget_wrap_status.
  pose proof (budget_call (asks_count v6) ec2 (AssignPrivateIpCount (NetworkInterfaceId ni)
    (want_to_assign max (Z.of_nat (size (assigned_v4 ni))) (Z.of_nat (size (assigned_v4 ni)))))) as H.
  unfold asks_count in H at 2. simpl in H. by destruct v6.
Qed.

Lemma spends_ask_v6 ni max : spends (if v6 then 1 else 0)%nat (ask_v6 ec2 ni max).
Proof.
  unfold ask_v6. cbv zeta. set (want := want_to_assign _ _ _). destruct (_ <=? 0); [by apply spends_quiet|].
  replace (if v6 then 1 else 0)%nat with ((if v6 then 1 else 0) + 0)%nat by lia.
  apply (budget_bind _ _ 0); [|intros _; by apply spends_quiet]. do 2 apply budget_wrap_status.
  pose proof (budget_call (asks_count v6) ec2 (AssignIpv6Count (NetworkInterfaceId ni) want)) as H.
  unfold asks_count in H at 2. simpl in H. by destruct v6.
Qed.

(** A round asks when it may, and then goes on. *)
Lemma spends_round k again ni req subnet max (allow : bool) :
  spends k again → spends ((if allow then 1 else 0) + k)%nat (assign_round ec2 again ni req subnet max allow).
Proof.
  intros Hagain. unfold assign_round. cbv zeta. case_bool_decide; [by apply spends_quiet|]. destruct (_ <=? _); [by apply spends_quiet|].
  destruct (_ <=? _); [by apply spends_quiet|]. apply budget_with_tx; [auto with keeps_calls|]. intros h.
  apply spends_then; [apply spends_quiet; auto with keeps_calls|]. intros rows. apply spends_then; [apply spends_quiet; auto with keeps_calls|]. intros _.
  assert (∀ A (l : list A), keeps_calls (shuffle l)) as Hsh.
  { intros A l. induction l as [|x l IH]; simpl; [done|]. apply keeps_calls_bind; [done|]. intros s.
    apply keeps_calls_bind; [apply keeps_calls_random | done]. }
  destruct (negb _ && negb _).
  - destruct (ParseCIDR _); [|by apply spends_quiet]. apply spends_quiet. apply keeps_calls_bind; [apply Hsh|]. intros l4. apply keeps_calls_bind; [apply Hsh|]. done.
  - apply budget_bind; [|done]. destruct allow; [|by apply spends_quiet].
    replace 1%nat with ((if v6 then 0 else 1) + (if v6 then 1 else 0))%nat by (by destruct v6).
    apply budget_bind; [destruct (bool_decide _); [apply spends_ask_v4 | by apply spends_quiet] | intros _; destruct (_ && _); [apply spends_ask_v6 | by apply spends_quiet]].
Qed.

Lemma spends_assignAddresses fuel ni req subnet max (allow : bool) :
  spends (if allow then 1 else 0)%nat (assignAddresses ec2 fuel ni req subnet max allow).
Proof.
  induction fuel as [|fuel IH] in ni, allow |- *; cbn [assignAddresses]; (replace (if allow then 1 else 0)%nat with ((if allow then 1 else 0) + 0)%nat by lia);
    apply spends_round; [by apply spends_quiet|]. apply spends_then; [apply spends_GetNetworkInterfaceByID|]. intros ni'. apply (IH ni' false).
Qed.

Lemma spends_assignAddressesFromAllocations ni subnet req : spends 0%nat (assignAddressesFromAllocations ec2 ni subnet req).
Proof.
  unfold assignAddressesFromAllocations. case_match; [|by apply spends_quiet]. apply budget_with_tx; [auto with keeps_calls|]. intros h.
  apply spends_then.
  { apply spends_quiet. generalize alloc_init. induction (a1_SignedAddressAllocations req) as [|[uuid|] uuids IH]; intros s; simpl; auto with keeps_calls. }
  intros s. cbv zeta.
  apply spends_then.
  { case_match; [|by apply spends_quiet]. apply spends_then; [apply budget_try, budget_wrap_status, (budget_call (asks_count v6))|].
    intros [e|u]; by apply spends_quiet. }
  intros _. apply spends_then.
  { case_match; [|by apply spends_quiet]. apply spends_then; [apply budget_try, budget_wrap_status, (budget_call (asks_count v6))|].
    intros [e|u]; by apply spends_quiet. }
  intros _. apply spends_then; [apply spends_GetNetworkInterfaceByID|]. intros ni'. by apply spends_quiet.
Qed.

Lemma spends_AssignIP fuel req : spends 1%nat (AssignIP ec2 fuel req).
Proof.
  unfold AssignIP. destruct (a1_InstanceIdentity req) as [[[id region] account]|]; [|by apply spends_quiet].
  apply spends_then; [unfold isAssignIPRequestValid; apply spends_quiet; repeat case_match; auto with keeps_calls|]. intros idx.
  apply spends_then; [apply (budget_call (asks_count v6))|]. intros _. apply spends_then; [apply spends_GetInstance|]. intros i.
  apply spends_then; [apply spends_quiet; destruct (GetMaxIPAddresses _); auto with keeps_calls|]. intros max.
  apply spends_then.
  { unfold GetInterfaceByIdxWithRetries. case_match; [by apply spends_quiet|]. apply spends_then; [apply spends_GetInstance|]. intros i'. by apply spends_quiet. }
  intros [i'|ni]; [by apply spends_quiet|]. cbv zeta. apply spends_then; [apply spends_GetNetworkInterfaceByID|]. intros iface0.
  apply spends_then.
  { case_bool_decide; [by apply spends_quiet|]. apply spends_then; [apply spends_quiet; unfold RegionFromAZ; case_match; auto with keeps_calls|].
    intros r. apply spends_then; [apply (budget_call (asks_count v6))|]. intros _. apply spends_GetNetworkInterfaceByID. }
  intros iface. apply spends_then; [apply spends_GetSubnetByID|]. intros subnet. apply spends_then.
  { destruct (a1_SecurityGroupIds req); [|by apply spends_quiet]. apply budget_wrap_status. unfold session_GetDefaultSecurityGroups.
    apply spends_then; [apply budget_wrap, (budget_call (asks_count v6))|]. intros l. apply spends_quiet. repeat case_match; auto with keeps_calls. }
  intros wanted. apply spends_then.
  { case_bool_decide; [by apply spends_quiet|]. case_match; [by apply spends_quiet | apply spends_ModifySecurityGroups]. }
  intros _. destruct (a1_SignedAddressAllocations req); [apply (spends_assignAddresses fuel iface req subnet max true)|].
  intros w. destruct (spends_assignAddressesFromAllocations iface subnet req w) as (es & ? & ?). exists es. split; [done|lia].
Qed.
End Budgets.

Lemma AssignIP_spec ec2 fuel req w :
  wp (AssignIP ec2 fuel req) (λ r w',
    quiet (asks_assign ec2 req (w_db w)) w w' ∧
    match r with
    | Ok resp => ∃ subnet,
        (a1_SignedAddressAllocations req = [] ∧ ∃ e ni, is_described ec2 e ni ∧ provides (w_db w) req subnet ni resp) ∨
        (∃ ips, a1_SignedAddressAllocations req ≠ [] ∧ allocated (w_db w) (a1_uuids req) ips ∧ answers_allocations ec2 subnet ips resp)
    | _ => True
    end) w.
Proof.
  apply observes_quiet. unfold AssignIP. destruct (a1_InstanceIdentity req) as [[[id region] account]|] eqn:Eid; [|apply observes_panic].
  eapply (observes_bind _ _ _ _ _ _ (λ _, True)).
  { unfold isAssignIPRequestValid. case_match; [|apply observes_panic]. case_match; [apply observes_throw | by apply observes_ret]. }
  intros idx _. eapply observes_bind; [by apply (observes_call _ _ _ _ _ _ (λ _, True))|]. intros _ _.
  eapply observes_bind; [by apply observes_GetInstance|]. intros i [cs Hi].
  eapply (observes_bind _ _ _ _ _ _ (instance_limit ec2 req)).
  { destruct (GetMaxIPAddresses (InstanceType i)) as [max|e|s] eqn:Emax; [apply observes_ret; by exists id, region, account, cs, i | apply observes_throw | apply observes_panic]. }
  intros max Hmax. eapply (observes_bind _ _ _ _ _ _ (λ _, True)); [by apply observes_GetInterfaceByIdx|].
  intros [i'|ni] _; [apply observes_throw|]. cbv zeta.
  eapply observes_bind; [by apply observes_GetNetworkInterfaceByID|]. intros iface0 H0.
  eapply (observes_bind _ _ _ _ _ _ (is_described ec2 (in_NetworkInterfaceId ni))).
  { case_bool_decide; [by apply observes_ret|]. eapply (observes_bind _ _ _ _ _ _ (λ _, True)); [apply observes_RegionFromAZ|]. intros r _.
    eapply observes_bind; [by apply (observes_call _ _ _ _ _ _ (λ _, True))|]. intros _ _. by apply observes_GetNetworkInterfaceByID. }
  intros iface Hiface. eapply observes_bind; [by apply observes_GetSubnetByID|]. intros subnet _.
  eapply (observes_bind _ _ _ _ _ _ (λ wanted, a1_SecurityGroupIds req ≠ [] → wanted = a1_SecurityGroupIds req)).
  { destruct (a1_SecurityGroupIds req) as [|g groups]; [|by apply observes_ret]. apply (observes_mono _ _ _ _ _ (λ _, True)); [|by intros].
    apply observes_wrap_status. eapply observes_bind; [by apply observes_wrap, (observes_call _ _ _ _ _ _ (λ _, True))|].
    intros l _. destruct l as [|sg [|]]; [apply observes_throw | by apply observes_ret | apply observes_throw]. }
  intros wanted Hwanted. eapply (observes_bind _ _ _ _ _ _ (λ _, True)).
  { case_bool_decide; [by apply observes_ret|]. destruct (a1_AllowSecurityGroupChange req) eqn:Ea; [|apply observes_throw].
    by apply observes_ModifySecurityGroups. }
  intros _ _. destruct (a1_SignedAddressAllocations req) as [|uuid uuids] eqn:Es.
  - eapply observes_mono; [apply assignAddresses_observes|].
    + intros ev Hev. unfold asks_assign, asks_more in *. destruct ev as [A c]. simpl in *. destruct c; try done; (split; [done|]); by exists (in_NetworkInterfaceId ni), iface, max.
    + done.
    + intros resp (ni' & Hd & Hp). exists subnet. left. split; [done|]. destruct Hd as [->|[e Hd]]; eauto.
  - eapply observes_mono; [apply assignAddressesFromAllocations_observes|].
    + intros ips Hips ev Hev. unfold asks_assign, asks_allocated in *. destruct ev as [A c]. simpl in *.
      destruct c; try done; exists (in_NetworkInterfaceId ni), iface, ips; (split; [exact Hiface | split; [exact Hips | exact Hev]]).
    + done.
    + intros resp (ips & Hips & Ha). exists subnet. right. by exists ips.
Qed.


(** ** Reports *)

Definition used_row (d : db) (ip : string) : option ip_used_row := List.find (λ r, bool_decide (ul_ip_address r = ip)) (ip_last_used d).

Definition used_at (d : db) (ip : string) : option Z := r ← used_row d ip; ul_last_used r.
Definition allocated_at (d : db) (ip : string) : option Z := r ← used_row d ip; ul_last_allocated r.

Lemma find_upsert_use ip update new l ip' :
  (∀ r, ul_ip_address (update r) = ul_ip_address r) → ul_ip_address new = ip →
  List.find (λ r, bool_decide (ul_ip_address r = ip')) (upsert_use ip update new l) =
  if bool_decide (ip = ip') then Some (match List.find (λ r, bool_decide (ul_ip_address r = ip)) l with Some r => update r | None => new end)
  else List.find (λ r, bool_decide (ul_ip_address r = ip')) l.
Proof.
  intros Hu Hnew. unfold upsert_use.
  assert (∀ l, existsb (λ r, bool_decide (ul_ip_address r = ip)) l = bool_decide (is_Some (List.find (λ r, bool_decide (ul_ip_address r = ip)) l))) as Hex.
  { clear. induction l as [|r l IH]; [done|]. simpl. by destruct (bool_decide (ul_ip_address r = ip)). }
  rewrite Hex. clear Hex. case_bool_decide as Hs.
  - destruct (decide (ip = ip')) as [<-|Hne]; [rewrite (bool_decide_eq_true_2 (ip = ip)) by done | rewrite (bool_decide_eq_false_2 (ip = ip')) by done].
    + induction l as [|r l IH]; simpl in *; [by destruct Hs|]. case_bool_decide as Hr; simpl.
      * by rewrite bool_decide_eq_true_2 by (by rewrite Hu).
      * rewrite bool_decide_eq_false_2 by done. auto.
    + clear Hs. induction l as [|r l IH]; simpl in *; [done|]. destruct (decide (ul_ip_address r = ip)) as [Hr|Hr].
      * rewrite (bool_decide_eq_true_2 _ Hr), Hu. rewrite bool_decide_eq_false_2 by congruence. done.
      * rewrite (bool_decide_eq_false_2 _ Hr). by destruct (bool_decide (ul_ip_address r = ip')).
  - destruct (decide (ip = ip')) as [<-|Hne]; [rewrite (bool_decide_eq_true_2 (ip = ip)) by done | rewrite (bool_decide_eq_false_2 (ip = ip')) by done].
    + induction l as [|r l IH]; simpl in *; [by rewrite bool_decide_eq_true_2|]. destruct (bool_decide (ul_ip_address r = ip)); [by destruct Hs; eauto|]. auto.
    + clear Hs. induction l as [|r l IH]; simpl in *; [by rewrite bool_decide_eq_false_2 by congruence|]. by destruct (bool_decide (ul_ip_address r = ip')).
Qed.

Lemma used_row_report ip t d ip' :
  used_row (report_used ip t d) ip' =
  if bool_decide (ip = ip') then Some (IpUsedRow ip' (Some t) (allocated_at d ip')) else used_row d ip'.
Proof.
  unfold used_row, report_used, allocated_at, used_row. simpl. rewrite find_upsert_use by done. case_bool_decide as Hip; [subst ip' | done].
  destruct (List.find _ _) as [r|] eqn:E; [|done]. apply List.find_some in E as [_ E%bool_decide_eq_true]. simpl. by rewrite E.
Qed.

(** Reports one after the other; those without a time are passed over. *)
Definition reported (l : list UtilizedAddress) (d : db) : db :=
  foldl (λ d u, match uz_LastUsedTime u with Some ts => report_used (canonical (uz_Address u)) ts d | None => d end) d l.

(** The last report of an address *)
Definition last_report (l : list UtilizedAddress) (ip : string) : option Z :=
  last (omap (λ u, if bool_decide (canonical (uz_Address u) = ip) then uz_LastUsedTime u else None) l).

Lemma reported_at l d ip :
  used_at (reported l d) ip = match last_report l ip with Some ts => Some ts | None => used_at d ip end ∧
  allocated_at (reported l d) ip = allocated_at d ip.
Proof.
  unfold reported, last_report. induction l as [|u l [IH1 IH2]] using rev_ind; [done|].
  rewrite foldl_app, omap_app. simpl. destruct (uz_LastUsedTime u) as [ts|] eqn:E; [|case_bool_decide; by rewrite app_nil_r].
  unfold used_at, allocated_at in *. rewrite used_row_report. case_bool_decide as Hip; simpl.
  - rewrite last_snoc. split; [done|]. exact IH2.
  - by rewrite app_nil_r.
Qed.

Lemma refresh_addresses_sequel h d X l :
  sequel h d X (refresh_addresses h l) (λ _ X', X' = reported l X ∧
    ∀ u, u ∈ l → is_Some (uz_LastUsedTime u) → is_Some (ParseIP (uz_Address u))).
Proof.
  revert X. induction l as [|u l IH]; intros X; simpl; [apply sequel_ret; split; [done|]; by intros u ?%elem_of_nil|].
  destruct (uz_LastUsedTime u) as [ts|] eqn:E.
  - eapply (sequel_bind _ _ _ _ _ (λ _ X', X' = report_used (canonical (uz_Address u)) ts X ∧ is_Some (ParseIP (uz_Address u)))).
    + apply sequel_wrap. unfold inet. case_bool_decide as Hp; [|apply (sequel_bind _ _ _ _ _ (λ _ _, False)); [apply sequel_throw | done]].
      eapply sequel_bind; [by apply (sequel_ret _ _ _ _ (λ a X', a = canonical (uz_Address u) ∧ X' = X))|]. intros ? ? [-> ->].
      eapply sequel_mono; [apply sequel_exec|]. by intros ? ? [-> _].
    + intros _ ? [-> Hp]. eapply sequel_mono; [apply IH|]. intros _ X' [-> Hl]. unfold reported. simpl. rewrite ?E. split; [done|].
      intros v [->|Hv]%elem_of_cons Hts; auto.
  - eapply sequel_mono; [apply IH|]. intros _ X' [-> Hl]. unfold reported. simpl. rewrite ?E. split; [done|].
    intros v [->|Hv]%elem_of_cons Hts; [by rewrite E in Hts; destruct Hts | auto].
Qed.

(** What a report leaves behind *)
Record refreshed (request : RefreshIPRequest) (d d' : db) : Prop := {
  rf_used : ∀ ip, used_at d' ip = match last_report (rq_UtilizedAddress request) ip with Some ts => Some ts | None => used_at d ip end;
  rf_allocated : ∀ ip, allocated_at d' ip = allocated_at d ip;
  rf_parsed : ∀ u, u ∈ rq_UtilizedAddress request → is_Some (uz_LastUsedTime u) → is_Some (ParseIP (uz_Address u));
  rf_eni : match rq_BranchNetworkInterface request with
           | None | Some "" => branch_eni_last_used d' = branch_eni_last_used d
           | Some eni => ∃ t, branch_eni_last_used d' = upsert_eni_last_used t eni (branch_eni_last_used d)
           end;
  rf_frame : ∃ used enis, d' = set_branch_eni_last_used enis (set_ip_last_used used d)
}.

Lemma reported_frame l d : ∃ used, reported l d = set_ip_last_used used d.
Proof.
  unfold reported. induction l as [|u l [used IH]] using rev_ind; [exists (ip_last_used d); by destruct d|].
  rewrite foldl_app. simpl. rewrite IH. destruct (uz_LastUsedTime u); [|by exists used]. by eexists.
Qed.

Lemma refresh_eni_sequel h d X o :
  sequel h d X
    match o with
    | None | Some "" => mret tt
    | Some eni => t ← now; wrap "Could not update branch_eni_last_used table"
        (exec h (λ d, set_branch_eni_last_used (upsert_eni_last_used t eni (branch_eni_last_used d)) d))
    end
    (λ _ X', ∃ enis, X' = set_branch_eni_last_used enis X ∧ match o with
      | None | Some "" => enis = branch_eni_last_used X
      | Some eni => ∃ t, enis = upsert_eni_last_used t eni (branch_eni_last_used X) end).
Proof.
  assert (sequel h d X (mret tt) (λ _ X', ∃ enis, X' = set_branch_eni_last_used enis X ∧ enis = branch_eni_last_used X)) as Hret.
  { apply sequel_ret. exists (branch_eni_last_used X). by destruct X. }
  destruct o as [[|c s]|]; [exact Hret| |exact Hret].
  eapply sequel_bind; [apply sequel_now|]. intros t ? ->. apply sequel_wrap. eapply sequel_mono; [apply sequel_exec|].
  intros _ ? [-> _]. eexists. split; [done|]. by exists t.
Qed.

(** [RefreshIP] does not panic and changes nothing when it fails.  When it succeeds, every address was last used at the time of
    its last report that has one, when it was allocated stays as it was, the ENI of the request, if there is one, has
    a new time of use, and nothing else changes. *)
Theorem RefreshIP_records request w :
  wp (RefreshIP request) (λ r w',
    match r with
    | Ok _ => refreshed request (w_db w) (w_db w') ∧ schema_ok (w_db w')
    | Fail _ => w_db w' = w_db w
    | Panic _ => False
    end) w.
Proof.
  apply (wp_with_tx_ends _ _ (λ r d', match r with
    | Ok _ => refreshed request (w_db w) d' ∧ schema_ok d' | Fail _ => d' = w_db w | Panic _ => False end)); [apply wp_BeginTx_status | done|].
  intros h. eapply ends_bind; [apply refresh_addresses_sequel|done|]. intros _ ? [-> Hp].
  eapply ends_bind; [apply refresh_eni_sequel|done|]. intros _ ? (enis & -> & Heni) w1 Hw1.
  apply wp_wrap. eapply wp_Commit_sees; [done| |by intros ? ? ->]. intros w2 -> Hok. split; [|done].
  pose proof (reported_at (rq_UtilizedAddress request) (w_db w)) as Hat.
  destruct (reported_frame (rq_UtilizedAddress request) (w_db w)) as [used EX]. rewrite EX in *. simpl in Heni.
  split; [intros ip; apply (Hat ip) | intros ip; apply (Hat ip) | done | | by exists used, enis].
  simpl. by destruct (rq_BranchNetworkInterface request) as [[|c s]|].
Qed.
