(* ===== verification/AgentAllocate.v ===== *)
(** * AgentAllocate: the allocation of an address on an agent

    Models [vpc/tool/allocate/allocate_network.go] and [vpc/utilities/utilities.go].  Every container of the first
    generation has a process of the tool, which runs as long as the container: it asks the VPC service for
    usable addresses, takes an exclusive lock on the path of one of them, prints the allocation, refreshes
    it until a signal comes, and unlocks.  The processes of one interface only meet in the locker ([FsLocker.v]).

    What the tool asks others is the [World]: its identity, [AssignIP] of the service ([AssignV1.v]), what it prints,
    the next signal or tick, and the random times of [populateAlloc]. *)
From ITree Require Import ITree.
From S2P Require Import Prelude Errors NetIP Schema Service AssignV3 AssignV1 Host FsLocker LockUsers.

Open Scope string_scope.
Open Scope Z_scope.
Open Scope list_scope.

(** ** Paths of locks *)

Definition GetLockPath (idx : Z) : path := ["interfaces"; Itoa idx].
Definition GetConfigurationLockPath (idx : Z) : path := GetLockPath idx ++ ["configuration"].
Definition GetSecurityGroupLockPath (idx : Z) : path := GetLockPath idx ++ ["sg"].
Definition GetAddressesLockPath (idx : Z) : path := GetLockPath idx ++ ["addresses"].

(** ** What the tool asks *)

(** [types.LegacyAllocation]; a failure has no addresses. *)
Record LegacyAllocation := MkLegacyAllocation {
  la_IPV4Address : option UsableAddress;
  la_IPV6Address : option UsableAddress;
  la_DeviceIndex : Z;
  la_Success : bool;
  la_Error : string;
  la_ENI : string;
  la_VPC : string;
  la_MAC : string
}.

(** [CallAssignIP] has the times the utilized addresses were last used next to the request.
    [NextEvent] is a signal or a tick, and [RandomTime] the time of an address without a record. *)
Inductive agent_question : Type :=
| GetIdentity
| CallAssignIP (req : AssignIPRequest) (lastUsed : list Z)
| Encode (a : LegacyAllocation)
| NextEvent
| RandomTime (ip : string)
| SortSlice (l : list UsableAddress).

Definition agent_answer (q : agent_question) : Type :=
  match q with
  | GetIdentity => error + (string * string * string)
  | CallAssignIP _ _ => error + AssignIPResponse
  | Encode _ => option error
  | NextEvent => bool
  | RandomTime _ => Z
  | SortSlice _ => list UsableAddress
  end.

#[export] Instance agent_world : World := {| question := agent_question; answer := agent_answer |}.

Definition ask (q : agent_question) : prog (agent_answer q) := sys (Ask (q : question)).

(** ** The allocation *)

Record allocation := MkAllocation {
  sharedSGLock : option ref;
  exclusiveIP4Lock : option ref;
  exclusiveIP6Lock : option ref;
  ip4Address : option UsableAddress;
  ip6Address : option UsableAddress;
  networkInterface : NetworkInterfaceV3
}.

(** The methods of a nil lock fail on its file. *)
Definition refresh (a : allocation) : prog unit :=
  _ ← match exclusiveIP4Lock a with Some l => Bump l | None => FsLocker.go_panic end;
  match exclusiveIP6Lock a with Some l => Bump l | None => mret tt end.

Definition deallocate (a : allocation) : prog unit :=
  _ ← match exclusiveIP4Lock a with Some l => Unlock l | None => mret tt end;
  match exclusiveIP6Lock a with Some l => Unlock l | None => mret tt end.

(** The records whose lock is taken are in use. *)
Fixpoint probe (locker : FSLocker) (c : ctx) (dir : path) (records : list (string * Z)) (known : gset string) (utilized : list (string * Z)) :
    prog (gset string * list (string * Z)) :=
  match records with
  | [] => mret (known, utilized)
  | (name, bumpTime) :: records =>
      let ip := canonical name in
      tmpLock ← ExclusiveLock locker c (dir ++ [name]) (Some 0);
      match tmpLock with
      | inr l => _ ← Unlock l; probe locker c dir records ({[ip]} ∪ known) utilized
      | inl _ => probe locker c dir records ({[ip]} ∪ known) (utilized ++ [(ip, bumpTime)])
      end
  end.

Fixpoint bumpUsableAddresses (locker : FSLocker) (c : ctx) (dir : path) (known : gset string) (usableAddresses : list UsableAddress) : prog unit :=
  match usableAddresses with
  | [] => mret tt
  | addr :: rest =>
      let ip := canonical (ua_Address addr) in
      _ ← (if bool_decide (ip ∈ known) then mret tt
           else
             lock ← ExclusiveLock locker c (dir ++ [ip]) (Some 0);
             match lock with
             | inr l => _ ← Bump l; Unlock l
             | inl _ => mret tt
             end);
      bumpUsableAddresses locker c dir known rest
  end.

(** The times of the addresses: those of the records, and random ones for the others, drawn when an address is first compared *)
Fixpoint draw_times (usable : list UsableAddress) (timestamps : gmap string Z) : prog (gmap string Z) :=
  match usable with
  | [] => mret timestamps
  | addr :: rest =>
      let ip := canonical (ua_Address addr) in
      match timestamps !! ip with
      | Some _ => draw_times rest timestamps
      | None => t ← ask (RandomTime ip); draw_times rest (<[ip := t]> timestamps)
      end
  end.

Definition not_after (timestamps : gmap string Z) (a b : UsableAddress) : Prop :=
  default 0 (timestamps !! canonical (ua_Address a)) <= default 0 (timestamps !! canonical (ua_Address b)).

#[export] Instance not_after_dec ts a b : Decision (not_after ts a b).
Proof. unfold not_after. apply _. Defined.

#[export] Instance UsableAddress_eq_dec : EqDecision UsableAddress.
Proof. solve_decision. Defined.

Fixpoint in_order (timestamps : gmap string Z) (l : list UsableAddress) : bool :=
  match l with
  | a :: (b :: _) as rest => bool_decide (not_after timestamps a b) && in_order timestamps rest
  | _ => true
  end.

(** [sort.Slice] need not keep the order of equal elements: any sorted permutation will do. *)
Definition sort_Slice (timestamps : gmap string Z) (l : list UsableAddress) : prog (list UsableAddress) :=
  choice ← ask (SortSlice l);
  mret (if bool_decide (Permutation choice l) && in_order timestamps choice then choice else merge_sort (not_after timestamps) l).

(** The first address of a family whose lock is free; an error other than that it is taken ends the search. *)
Fixpoint take_first (locker : FSLocker) (c : ctx) (dir : path) (v4 : bool) (usable : list UsableAddress) : prog (error + option (UsableAddress * ref)) :=
  match usable with
  | [] => mret (inr None)
  | addr :: rest =>
      let ip := ParseIP (ua_Address addr) in
      if Bool.eqb (is_v4 ip) v4 then
        lock ← ExclusiveLock locker c (dir ++ [IP_String ip]) (Some 0);
        match lock with
        | inr l => mret (inr (Some (addr, l)))
        | inl (EErrno EWOULDBLOCK) => take_first locker c dir v4 rest
        | inl e => mret (inl e)
        end
      else take_first locker c dir v4 rest
  end.

Definition populateAlloc (locker : FSLocker) (c : ctx) (alloc : allocation) (allocateIPv6Address : bool) (usableAddresses : list UsableAddress) (dir : path) :
    prog (error + allocation) :=
  listed ← ListFiles locker dir;
  let timestamps := match listed with
                    | inr records => foldl (λ ts r, <[canonical r.1 := r.2]> ts) ∅ records
                    | inl _ => ∅
                    end in
  timestamps ← (if (length usableAddresses <? 2)%nat then mret timestamps else draw_times usableAddresses timestamps);
  usableAddresses ← sort_Slice timestamps usableAddresses;
  found4 ← take_first locker c dir true usableAddresses;
  match found4 with
  | inl e => mret (inl e)
  | inr None => mret (inl (EString "Cannot allocate IPv4 address"))
  | inr (Some (addr4, l4)) =>
      let alloc := MkAllocation (sharedSGLock alloc) (Some l4) (exclusiveIP6Lock alloc) (Some addr4) (ip6Address alloc) (networkInterface alloc) in
      if allocateIPv6Address then
        found6 ← take_first locker c dir false usableAddresses;
        match found6 with
        | inl e => _ ← Unlock l4; mret (inl e)
        | inr None => _ ← Unlock l4; mret (inl (EString "Cannot allocate IPv6 address"))
        | inr (Some (addr6, l6)) =>
            mret (inr (MkAllocation (sharedSGLock alloc) (Some l4) (Some l6) (Some addr4) (Some addr6) (networkInterface alloc)))
        end
      else mret (inr alloc)
  end.

(** The arguments of the command *)
Record allocate_args := MkArgs {
  ar_securityGroups : list string;
  ar_deviceIdx : Z;
  ar_allocateIPv6Address : bool;
  ar_allocationUUID : string
}.

Definition reconfigurationTimeout : Z := 10 * second.

Definition assign_request (args : allocate_args) (identity : string * string * string) (allowSecurityGroupChange : bool) (utilized : list (string * Z)) : AssignIPRequest :=
  MkAssignIPRequest (Some identity) (Some (ar_deviceIdx args mod 2 ^ 32)) (ar_securityGroups args) allowSecurityGroupChange (ar_allocateIPv6Address args)
    (Some <$> utilized.*1) (if bool_decide (ar_allocationUUID args = "") then [] else [Some (ar_allocationUUID args)]).

(** What is done under the lock of the configuration *)
Definition allocate_configured (locker : FSLocker) (c : ctx) (args : allocate_args) (identity : string * string * string) (allowSecurityGroupChange : bool) :
    prog (error + allocation) :=
  let dir := GetAddressesLockPath (ar_deviceIdx args) in
  listed ← ListFiles locker dir;
  match listed with
  | inl e => mret (inl e)
  | inr records =>
      '(known, utilized) ← probe locker c dir records ∅ [];
      response ← ask (CallAssignIP (assign_request args identity allowSecurityGroupChange utilized) utilized.*2);
      match response with
      | inl e => mret (inl (EWrap "Error received from VPC Assign Private IP Server" e))
      | inr response =>
          _ ← bumpUsableAddresses locker c dir known (r1_UsableAddresses response);
          populateAlloc locker c (MkAllocation None None None None None (r1_NetworkInterface response))
            (ar_allocateIPv6Address args) (r1_UsableAddresses response) dir
      end
  end.

Definition doAllocateNetworkAddress (locker : FSLocker) (c : ctx) (args : allocate_args) (allowSecurityGroupChange : bool) : prog (error + allocation) :=
  identity ← ask GetIdentity;
  match identity with
  | inl e => mret (inl (EWrap "Cannot retrieve instance identity" e))
  | inr identity =>
      lock ← ExclusiveLock locker c (GetConfigurationLockPath (ar_deviceIdx args)) (Some reconfigurationTimeout);
      match lock with
      | inl e => mret (inl e)
      | inr lock =>
          r ← allocate_configured locker c args identity allowSecurityGroupChange;
          _ ← Unlock lock;
          mret r
      end
  end.

Definition with_sg_lock (a : allocation) (l : ref) : allocation :=
  MkAllocation (Some l) (exclusiveIP4Lock a) (exclusiveIP6Lock a) (ip4Address a) (ip6Address a) (networkInterface a).

Definition doAllocateNetwork (locker : FSLocker) (c : ctx) (args : allocate_args) : prog (error + allocation) :=
  let securityGroupLockPath := GetSecurityGroupLockPath (ar_deviceIdx args) in
  exclusiveSGLock ← ExclusiveLock locker c securityGroupLockPath (Some 0);
  match exclusiveSGLock with
  | inr l =>
      alloc ← doAllocateNetworkAddress locker c args true;
      match alloc with
      | inl e => _ ← Unlock l; mret (inl (EWrap "Cannot get shared SG lock" e))
      | inr alloc => l ← ToSharedLock l; mret (inr (with_sg_lock alloc l))
      end
  | inl (EErrno EWOULDBLOCK) =>
      sharedSGLock ← SharedLock locker c securityGroupLockPath (Some reconfigurationTimeout);
      match sharedSGLock with
      | inl e => mret (inl e)
      | inr l =>
          alloc ← doAllocateNetworkAddress locker c args false;
          match alloc with
          | inl e => _ ← Unlock l; mret (inl e)
          | inr alloc => mret (inr (with_sg_lock alloc l))
          end
      end
  | inl e => mret (inl (EWrap "Cannot get exclusive SG Lock" e))
  end.

(** Until the signal *)
Definition refresh_loop (a : allocation) : prog unit :=
  ITree.iter (λ _ : unit,
    signalled ← ask NextEvent;
    if (signalled : bool) then mret (inr tt) else _ ← refresh a; mret (inl tt)) tt.

Definition printed (args : allocate_args) (a : allocation) : LegacyAllocation :=
  MkLegacyAllocation (ip4Address a) (ip6Address a) (ar_deviceIdx args) true ""
    (n3_NetworkInterfaceId (networkInterface a)) (n3_VpcId (networkInterface a)) (n3_MacAddress (networkInterface a)).

(** The process: its exit code is not looked at. *)
Definition Allocate (locker : FSLocker) (c : ctx) (args : allocate_args) : prog unit :=
  r ← doAllocateNetwork locker c args;
  match r with
  | inl e =>
      _ ← ask (Encode (MkLegacyAllocation None None 0 false (Error (EWrap "Unable to perform network allocation" e)) "" "" ""));
      mret tt
  | inr a =>
      _ ← refresh a;
      e ← ask (Encode (printed args a));
      match e with
      | Some _ => mret tt
      | None => _ ← refresh_loop a; deallocate a
      end
  end.

(** * Two containers never have the same address *)

Section Agent.
Context (locker : FSLocker).

(** The path that is locked for an address of an interface *)
Definition address_path (idx : Z) (ip : string) : path := Join (locker_path locker) (GetAddressesLockPath idx ++ [ip]).

Definition alloc_ips (a : LegacyAllocation) : list string := canonical ∘ ua_Address <$> omap id [la_IPV4Address a; la_IPV6Address a].

(** An allocation that is printed announces its addresses; the signal to end ends their use. *)
#[local] Instance agent_user : LockUser agent_world := {|
  announces := λ q : question, match (q : agent_question) with Encode a => address_path (la_DeviceIndex a) <$> alloc_ips a | _ => [] end;
  ends := λ q : question, match (q : agent_question) as q return agent_answer q → bool with NextEvent => id | _ => λ _, false end
|}.

Definition has_printed (p : pid) (a : LegacyAllocation) (m : machine) : Prop := ∃ e : option error, (p, Asked (Encode a : question) e) ∈ m_trace m.
Definition signalled (p : pid) (m : machine) : Prop := (p, Asked (NextEvent : question) true) ∈ m_trace m.

Section One.
Context (p : pid).

Abbreviation WP := (wp p world (others locker false p) (promises locker false p) (keeps_locks p)).
Abbreviation lock := (has_lock false p).
Abbreviation above := (above locker p).
Abbreviation moved := (moves locker false p).

Lemma ask_rule n k0 C (q : agent_question) {B} (k : agent_answer q → prog B) Q m : above n C → C m → announces (q : question) = [] →
  (∀ a m', C m' → WP false k0 (k a) Q m') → WP false k0 (ask q ≫= k) Q m.
Proof. exact (ask_spec locker p n k0 C (q : question) k Q m). Qed.

Lemma probe_spec n k0 C c dir records known utilized m : above n C → C m → WP false k0 (probe locker c dir records known utilized) (λ _, C) m.
Proof.
  intros HC. revert known utilized m. induction records as [|[name t] records IH]; intros known utilized m Hm; cbn [probe].
  { by eapply (above_ret locker p n). }
  apply prog_bind; [apply others_refl|]. eapply prog_mono; [|by apply (Lock_spec locker p n)]. intros [e|l] m1 [Hm1 Hr]; [by apply IH|].
  destruct Hr as (f & i & Hl & Hf & _ & Hlk). apply prog_bind; [apply others_refl|].
  eapply prog_mono; [|eapply (Unlock_above locker p n _ C l f); [done | done | lia | lia | done]]. intros [] m2 Hm2. by apply IH.
Qed.

Lemma bumpUsableAddresses_spec n k0 C c dir known l m : above n C → C m → WP false k0 (bumpUsableAddresses locker c dir known l) (λ _, C) m.
Proof.
  intros HC. revert m. induction l as [|addr l IH]; intros m Hm; cbn [bumpUsableAddresses]; [by eapply (above_ret locker p n)|].
  apply prog_bind; [apply others_refl|]. case_bool_decide; [by eapply (above_ret locker p n); [..|intros; apply IH]|].
  apply prog_bind; [apply others_refl|]. eapply prog_mono; [|by apply (Lock_spec locker p n)]. intros [e|r] m1 [Hm1 Hr]; [by eapply (above_ret locker p n); [..|intros; apply IH]|].
  destruct Hr as (f & i & Hl & Hf & Hne & Hlk). apply prog_bind; [apply others_refl|].
  destruct (keep_lock locker p n C r f i _ _ m1 HC Hm1 (proj2 Hl) (proj2 Hf) Hlk) as [HC' Hm1'].
  eapply prog_mono; [|apply Bump_spec; [by eapply (above_quiet locker p (m_next m1)) | exact Hm1']].
  intros [] m2 [[Hm2 Hlk2] _]. eapply prog_mono; [|eapply (Unlock_above locker p n _ C r f); [done | done | lia | lia | done]]. intros [] m3 Hm3. by apply IH.
Qed.

Lemma draw_times_spec n k0 C l ts m : above n C → C m → WP false k0 (draw_times l ts) (λ _, C) m.
Proof.
  intros HC. revert ts m. induction l as [|addr l IH]; intros ts m Hm; cbn [draw_times]; [by eapply (above_ret locker p n)|].
  destruct (ts !! _); [by apply IH|]. eapply (ask_rule n); [done | done | done|]. intros t m1 Hm1. by apply IH.
Qed.

Lemma sort_Slice_spec n k0 C ts l m : above n C → C m → WP false k0 (sort_Slice ts l) (λ _, C) m.
Proof. intros HC Hm. unfold sort_Slice. eapply (ask_rule n _ C (SortSlice l)); [done | done | done|]. intros choice m1 Hm1. by eapply (above_ret locker p n). Qed.

Lemma take_first_spec n k0 C c dir v4 l m : above n C → C m →
  WP false k0 (take_first locker c dir v4 l) (λ r m', C m' ∧ match r with inr (Some (addr, r)) => taken p n (Join (locker_path locker) (dir ++ [canonical (ua_Address addr)])) r m' | _ => True end) m.
Proof.
  intros HC. revert m. induction l as [|addr l IH]; intros m Hm; cbn [take_first]; [by eapply (above_ret locker p n)|].
  destruct (Bool.eqb _ v4); [|by apply IH]. apply prog_bind; [apply others_refl|]. eapply prog_mono; [|by apply (Lock_spec locker p n)].
  intros [e|r] m1 [Hm1 Hr].
  - destruct e as [| | | | | | | | | | | | | | | |[]|]; try (by eapply (above_ret locker p n)). by apply IH.
  - destruct Hr as (f & i & Hl & Hf & _ & Hlk). eapply (above_ret locker p n); [done | done|]. intros m' Hm' [Hmv _]. split; [done|].
    pose proof (mv_next _ _ _ _ _ _ Hmv). exists f, i. split_and!; [lia..|]. by eapply has_lock_moves; [exact Hmv | tauto | tauto|].
Qed.

(** ** The allocation *)

(** An allocation with the locks of its addresses, all of them numbered from [n] *)
Definition alloc_good (n : N) (dir : path) (a : allocation) (m : machine) : Prop :=
  (∃ addr l, ip4Address a = Some addr ∧ exclusiveIP4Lock a = Some l ∧ taken p n (Join (locker_path locker) (dir ++ [canonical (ua_Address addr)])) l m) ∧
  match ip6Address a, exclusiveIP6Lock a with
  | None, None => True
  | Some addr, Some l => taken p n (Join (locker_path locker) (dir ++ [canonical (ua_Address addr)])) l m
  | _, _ => False
  end.

Lemma alloc_good_moves (S : N → Prop) n dir a m m' : moved S m m' → (∀ s, (n ≤ s)%N → ¬ S s) → alloc_good n dir a m → alloc_good n dir a m'.
Proof.
  intros Hm HS [(addr & l & E1 & E2 & Ht) H6]. split.
  - exists addr, l. split_and!; [done | done | by eapply taken_moves].
  - destruct (ip6Address a), (exclusiveIP6Lock a); try done. by eapply taken_moves.
Qed.

Lemma alloc_good_mono n n' dir a m : (n ≤ n')%N → alloc_good n' dir a m → alloc_good n dir a m.
Proof.
  intros Hn [(addr & l & E1 & E2 & Ht) H6]. split.
  - exists addr, l. split_and!; [done | done | by eapply taken_mono].
  - destruct (ip6Address a), (exclusiveIP6Lock a); try done. by eapply taken_mono.
Qed.

(** What does not touch the objects of an allocation keeps it. *)
Lemma frame_good (S : N → Prop) C n dir a : frame locker false p (keeps_locks p) S C → (∀ s, (n ≤ s)%N → ¬ S s) →
  frame locker false p (keeps_locks p) S (λ m, C m ∧ alloc_good n dir a m).
Proof.
  intros HF HS. apply frame_and; [done| |].
  - intros m1 m2 _ Hg HR. eapply alloc_good_moves; [apply HR | | done]. by intros s _ [].
  - intros m1 m2 _ Hg Hm _. by eapply alloc_good_moves.
Qed.

Definition allocated (n : N) (dir : path) (r : error + allocation) (m : machine) : Prop :=
  match r with inl _ => True | inr a => alloc_good n dir a m end.

(** Unlocking something older keeps the allocation. *)
Lemma Unlock_older k0 n C l f i how q r dir m {Q : unit → machine → Prop} : above n C → C m → (n ≤ l)%N → (n ≤ f)%N → lock l f i how q m →
  allocated (N.max l f + 1) dir r m → (∀ m', C m' → allocated (N.max l f + 1) dir r m' → Q tt m') → WP false k0 (Unlock l) Q m.
Proof.
  intros HC Hm Hl Hf Hlk Hr HQ. pose (S := λ s, s = l ∨ s = f).
  assert (frame locker false p (keeps_locks p) S C) as HF by (eapply frame_weaken, (ab_frame _ _ _ _ HC); intros s [->| ->]; done).
  eapply (prog_mono _ _ _ _ _ _ _ _ (λ _ m', C m' ∧ allocated (N.max l f + 1) dir r m')).
  { intros [] m' [HC' Hr']. by apply HQ. }
  eapply (Unlock_spec _ _ _ _ _ S (λ m', C m' ∧ allocated (N.max l f + 1) dir r m')); [|done | by left|].
  - destruct r as [e|a]; [by apply frame_and|]. apply frame_good; [done|]. intros s Hs [->| ->]; lia.
  - intros f' Hf'. destruct Hlk as (Hlk & _). right. congruence.
Qed.

Lemma populateAlloc_spec k0 n C c a0 v6 l dir m : above n C → C m → exclusiveIP6Lock a0 = None → ip6Address a0 = None →
  WP false k0 (populateAlloc locker c a0 v6 l dir) (λ r m', C m' ∧ allocated n dir r m') m.
Proof.
  intros HC Hm E1 E2. apply prog_bind; [apply others_refl|]. eapply prog_mono; [|by apply ListFiles_spec; [by eapply (above_quiet locker p n)|]].
  intros listed m1 Hm1. cbv zeta. apply prog_bind; [apply others_refl|].
  eapply (prog_mono _ _ _ _ _ _ _ _ (λ _, C)). 2: { destruct (_ <? 2)%nat; [by eapply (above_ret locker p n) | by apply (draw_times_spec n)]. }
  intros ts m2 Hm2. apply prog_bind; [apply others_refl|]. eapply prog_mono; [|by apply (sort_Slice_spec n)]. intros sorted m3 Hm3.
  apply prog_bind; [apply others_refl|]. eapply prog_mono; [|by apply (take_first_spec n)]. intros found m4 [Hm4 Ht4].
  destruct found as [e|[[addr4 l4]|]]; [by eapply (above_ret locker p n) | | by eapply (above_ret locker p n)].
  destruct v6.
  - pose proof Ht4 as (f4 & i4 & Hl4 & Hf4 & Hlk4).
    destruct (keep_lock locker p n C l4 f4 i4 _ _ m4 HC Hm4 (proj2 Hl4) (proj2 Hf4) Hlk4) as [HC4 Hm4'].
    apply prog_bind; [apply others_refl|]. eapply prog_mono; [|apply (take_first_spec (m_next m4)); [exact HC4 | exact Hm4']].
    intros found m5 [[[Hm5 Hlk5] Hn5] Ht5].
    assert (∀ e : error, WP false k0 (Unlock l4 ≫= λ _, mret (inl e)) (λ r m', C m' ∧ allocated n dir r m') m5) as Hfail.
    { intros e. apply prog_bind; [apply others_refl|]. eapply prog_mono; [|eapply (Unlock_above locker p n _ C l4 f4); [done | done | lia | lia | done]].
      intros [] m6 Hm6. by eapply (above_ret locker p n). }
    destruct found as [e|[[addr6 l6]|]]; [apply Hfail | | apply Hfail].
    eapply (above_ret locker p n); [done | done|]. intros m6 Hm6 HR. split; [done|]. split.
    + exists addr4, l4. split_and!; [done | done|]. eapply taken_moves; [apply HR | by intros s _ [] |]. exists f4, i4. split_and!; [lia.. | done].
    + cbn. eapply taken_moves; [apply HR | by intros s _ [] |]. eapply taken_mono; [|exact Ht5]. by apply (ab_next _ _ _ _ HC).
  - eapply (above_ret locker p n); [done | done|]. intros m6 Hm6 HR. split; [done|]. split.
    + exists addr4, l4. split_and!; [done | done|]. eapply taken_moves; [apply HR | by intros s _ [] | done].
    + cbn. by rewrite E1, E2.
Qed.

Lemma allocate_configured_spec k0 n C c args identity allow m : above n C → C m →
  WP false k0 (allocate_configured locker c args identity allow) (λ r m', C m' ∧ allocated n (GetAddressesLockPath (ar_deviceIdx args)) r m') m.
Proof.
  intros HC Hm. unfold allocate_configured. apply prog_bind; [apply others_refl|].
  eapply prog_mono; [|by apply ListFiles_spec; [by eapply (above_quiet locker p n)|]]. intros [e|records] m1 Hm1; [by eapply (above_ret locker p n)|].
  apply prog_bind; [apply others_refl|]. eapply prog_mono; [|by apply (probe_spec n)]. intros [known utilized] m2 Hm2.
  eapply (ask_rule n _ C (CallAssignIP _ _)); [done | done | done|]. intros [e|response] m3 Hm3; [by eapply (above_ret locker p n)|].
  apply prog_bind; [apply others_refl|]. eapply prog_mono; [|by apply (bumpUsableAddresses_spec n)]. intros [] m4 Hm4.
  by apply populateAlloc_spec.
Qed.

Lemma doAllocateNetworkAddress_spec k0 n C c args allow m : above n C → C m →
  WP false k0 (doAllocateNetworkAddress locker c args allow) (λ r m', C m' ∧ allocated n (GetAddressesLockPath (ar_deviceIdx args)) r m') m.
Proof.
  intros HC Hm. unfold doAllocateNetworkAddress. eapply (ask_rule n _ C GetIdentity); [done | done | done|]. intros [e|identity] m1 Hm1; [by eapply (above_ret locker p n)|].
  apply prog_bind; [apply others_refl|]. eapply prog_mono; [|by apply (Lock_spec locker p n)]. intros [e|l] m2 [Hm2 Hr]; [by eapply (above_ret locker p n)|].
  destruct Hr as (f & i & Hl & Hf & _ & Hlk).
  destruct (keep_lock locker p n C l f i _ _ m2 HC Hm2 (proj2 Hl) (proj2 Hf) Hlk) as [HC2 Hm2'].
  apply prog_bind; [apply others_refl|]. eapply prog_mono; [|apply (allocate_configured_spec _ (m_next m2)); [exact HC2 | exact Hm2']].
  intros r m3 [[[Hm3 Hlk3] _] Hr3]. apply prog_bind; [apply others_refl|].
  assert (∀ n' m', (n' ≤ m_next m2)%N → allocated (m_next m2) (GetAddressesLockPath (ar_deviceIdx args)) r m' → allocated n' (GetAddressesLockPath (ar_deviceIdx args)) r m') as Hmono.
  { intros n' m' Hn'. destruct r; [done|]. by apply alloc_good_mono. }
  eapply (Unlock_older _ n C l f _ _ _ r); [done | done | lia | lia | exact Hlk3 | apply Hmono; [lia | exact Hr3]|].
  intros m4 Hm4 Hr4. eapply (above_ret locker p n); [done | done|]. intros m5 Hm5 HR. split; [done|]. destruct r as [|a]; [done|]. cbn.
  eapply alloc_good_moves; [apply HR | by intros s _ [] |]. eapply alloc_good_mono; [|exact Hr4]. lia.
Qed.

Lemma alloc_good_sg n dir a l m : alloc_good n dir a m → alloc_good n dir (with_sg_lock a l) m.
Proof. by destruct a. Qed.

(** The allocation of an address while a lock is held; what follows still has the lock. *)
Lemma allocate_holding k0 n C c args allow l f i how q m Q (k : error + allocation → prog (error + allocation)) :
  above n C → C m → (l < m_next m)%N → (f < m_next m)%N → lock l f i how q m →
  (∀ r m', C m' → lock l f i how q m' → allocated (m_next m) (GetAddressesLockPath (ar_deviceIdx args)) r m' → WP false k0 (k r) Q m') →
  WP false k0 (doAllocateNetworkAddress locker c args allow ≫= k) Q m.
Proof.
  intros HC Hm Hl Hf Hlk Hk. destruct (keep_lock locker p n C l f i _ _ m HC Hm Hl Hf Hlk) as [HC' Hm'].
  apply prog_bind; [apply others_refl|]. eapply prog_mono; [|by apply (doAllocateNetworkAddress_spec _ (m_next m))].
  intros r m1 [[[Hm1 Hlk1] _] Hr]. by apply Hk.
Qed.

Lemma doAllocateNetwork_spec k0 n C c args m : above n C → C m →
  WP false k0 (doAllocateNetwork locker c args) (λ r m', C m' ∧ allocated n (GetAddressesLockPath (ar_deviceIdx args)) r m') m.
Proof.
  intros HC Hm. unfold doAllocateNetwork. set (dir := GetAddressesLockPath (ar_deviceIdx args)). cbv zeta.
  assert (∀ l f i how q e m', C m' → (n ≤ l)%N → (n ≤ f)%N → lock l f i how q m' →
    WP false k0 (Unlock l ≫= λ _, mret (inl e)) (λ r m', C m' ∧ allocated n dir r m') m') as Hfail.
  { intros l f i how q e m' Hm' Hl Hf Hlk. apply prog_bind; [apply others_refl|].
    eapply prog_mono; [|eapply (Unlock_above locker p n _ C l f); done]. intros [] m2 Hm2. by eapply (above_ret locker p n). }
  assert (∀ (a : allocation) l n' m', C m' → (n ≤ n')%N → alloc_good n' dir a m' →
    WP false k0 (mret (inr (with_sg_lock a l))) (λ r m', C m' ∧ allocated n dir r m') m') as Hok.
  { intros a l n' m' Hm' Hn' Hg. eapply (above_ret locker p n); [done | done|]. intros m2 Hm2 HR. split; [done|]. apply alloc_good_sg.
    eapply alloc_good_moves; [apply HR | by intros s _ [] |]. by eapply alloc_good_mono. }
  apply prog_bind; [apply others_refl|]. eapply prog_mono; [|by apply (Lock_spec locker p n)]. intros r m1 [Hm1 Hr].
  pose proof (ab_next _ _ _ _ HC _ Hm1) as Hn1. destruct r as [e|l].
  - destruct e as [| | | | | | | | | | | | | | | |[]|]; try (by eapply (above_ret locker p n)).
    apply prog_bind; [apply others_refl|]. eapply prog_mono; [|by apply (Lock_spec locker p n)]. intros [e|l] m2 [Hm2 Hr2]; [by eapply (above_ret locker p n)|].
    destruct Hr2 as (f & i & Hl & Hf & Hne & Hlk). eapply (allocate_holding _ n C c args _ l f); [done | done | lia | lia | done|].
    intros [e|a] m3 Hm3 Hlk3 Hr3; [by eapply (Hfail l f); try done; lia|]. eapply Hok; [done | |exact Hr3]. by apply (ab_next _ _ _ _ HC).
  - destruct Hr as (f & i & Hl & Hf & Hne & Hlk). eapply (allocate_holding _ n C c args _ l f); [done | done | lia | lia | done|].
    intros [e|a] m3 Hm3 Hlk3 Hr3; [by eapply (Hfail l f); try done; lia|]. apply prog_bind; [apply others_refl|].
    eapply prog_mono; [|eapply (ToSharedLock_spec _ _ _ _ _ (λ m', C m' ∧ alloc_good (m_next m1) dir a m') l f); [|done | done | done | done]].
    + intros l' m4 ([Hm4 Hg4] & _ & _). by eapply Hok.
    + apply frame_good; [|intros s Hs <-; lia]. eapply frame_weaken, (ab_frame _ _ _ _ HC). intros s <-. lia.
Qed.

(** ** The process *)

(** The allocation [a] is printed, and its locks are held. *)
Definition in_use (n : N) (args : allocate_args) (a : allocation) (m : machine) : Prop :=
  (∀ q, announced p q m → q ∈ announces (Encode (printed args a) : question)) ∧ alloc_good n (GetAddressesLockPath (ar_deviceIdx args)) a m.

Lemma alloc_good_keeps n args a q m : alloc_good n (GetAddressesLockPath (ar_deviceIdx args)) a m → q ∈ announces (Encode (printed args a) : question) →
  ∃ l f i, lock l f i LOCK_EX q m.
Proof.
  intros [(addr & l & E1 & E2 & Ht) H6] Hq. cbn in Hq. apply list_elem_of_fmap in Hq as (ip & -> & Hip). unfold alloc_ips, printed in Hip.
  cbn in Hip. rewrite E1 in Hip. cbn in Hip.
  apply elem_of_cons in Hip as [->|Hip]; [destruct Ht as (f & i & _ & _ & Hlk); by exists l, f, i|].
  destruct (ip6Address a) as [addr6|]; cbn in Hip; [|by apply elem_of_nil in Hip]. apply list_elem_of_singleton in Hip as ->.
  destruct (exclusiveIP6Lock a) as [l6|]; [|done]. destruct H6 as (f & i & _ & _ & Hlk). by exists l6, f, i.
Qed.

Lemma frame_in_use n args a : frame locker false p (keeps_locks p) (λ _, False) (in_use n args a).
Proof.
  assert (∀ m1 m2, in_use n args a m1 → moved (λ _, False) m1 m2 → in_use n args a m2) as Hmv.
  { intros m1 m2 [Ho Hg] Hm. split; [|by eapply alloc_good_moves; [done | by intros s _ []|]].
    intros q Hq. apply Ho. by eapply announced_moves. }
  split.
  - intros m1 m2 HC HR. eapply Hmv; [done | apply HR].
  - intros m1 m2 HC Hm _. by eapply Hmv.
  - intros m [Ho Hg] q Hq _. by eapply alloc_good_keeps, Ho.
Qed.

Lemma refresh_spec k0 C a m : frame locker false p (keeps_locks p) (λ _, False) C → C m → WP false k0 (refresh a) (λ _, C) m.
Proof.
  intros HF Hm. apply prog_bind; [apply others_refl|]. eapply (prog_mono _ _ _ _ _ _ _ _ (λ _, C)).
  - intros [] m1 Hm1. destruct (exclusiveIP6Lock a); [by apply Bump_spec | by eapply ret_spec].
  - destruct (exclusiveIP4Lock a); [by apply Bump_spec | by eapply panic_spec].
Qed.

Lemma deallocate_spec k0 a m : ended p m → WP false k0 (deallocate a) (λ _ _, True) m.
Proof.
  intros Hm. pose proof (frame_ended locker p (λ _, True)) as HF.
  assert (∀ (o : option ref) m', ended p m' → WP false k0 (match o with Some l => Unlock l | None => mret tt end) (λ _, ended p) m') as Ho.
  { intros [l|] m' Hm'; [by eapply Unlock_spec | by eapply ret_spec]. }
  apply prog_bind; [apply others_refl|]. eapply prog_mono; [|by apply Ho]. intros [] m1 Hm1.
  eapply prog_mono; [|by apply Ho]. done.
Qed.

Lemma refresh_loop_spec k0 n args a m : in_use n args a m → WP false k0 (refresh_loop a) (λ _, ended p) m.
Proof.
  intros Hm. pose proof (frame_in_use n args a) as HF.
  apply (wp_iter _ _ _ _ _ (others_refl _ _ _) (others_trans _ _ _) _ _ (λ _, in_use n args a)); [| | |done].
  - intros k1 [] m1 Hm1. apply wp_down, prog_call. intros m2 _ HR2. pose proof (fr_others _ _ _ _ _ _ HF _ _ Hm1 HR2) as Hm2.
    split_and!; [by apply (fr_I _ _ _ _ _ _ HF) | done|]. intros o b m3 Hh _. cbn in Hh. injection Hh as E <-. destruct b.
    + eapply (ret_spec _ _ _ _ _ (λ _, True) (ended p)); [apply frame_ended | | done]. exists NextEvent, true. rewrite E. split; [by left | done].
    + assert (in_use n args a (after p (NextEvent : question) (o_answer o NextEvent) m2)) as Hm3.
      { destruct Hm2 as [Ho Hg]. split; [|done]. intros q [Hq|Hq]%announced_after; [by apply elem_of_nil in Hq | by apply Ho]. }
      apply prog_bind; [apply others_refl|]. eapply prog_mono; [|by apply (refresh_spec _ (in_use n args a))].
      intros [] m4 Hm4. by eapply (ret_spec _ _ _ _ _ _ (in_use n args a)).
  - intros m1 m2 [] H1 _ HR. apply (fr_I _ _ _ _ _ _ HF). by eapply (fr_others _ _ _ _ _ _ HF).
  - intros m1 m2 [] H1 _ HR. pose proof (frame_ended locker p (λ _, True)) as HS.
    assert (ended p m2) by by eapply (fr_others _ _ _ _ _ _ HS). split; [by apply (fr_I _ _ _ _ _ _ HS) | done].
Qed.

Lemma Allocate_spec k0 c args m : calm p m → WP false k0 (Allocate locker c args) (λ _ _, True) m.
Proof.
  intros Hm. pose proof (above_calm locker p (m_next m)) as HC. unfold Allocate. apply prog_bind; [apply others_refl|].
  eapply prog_mono; [|apply (doAllocateNetwork_spec _ (m_next m)); [exact HC | split; [done | lia]]]. intros [e|a] m1 [Hm1 Hr].
  { eapply (ask_rule (m_next m) _ _ (Encode _)); [exact HC | done | done|]. intros x m2 Hm2. by eapply (above_ret locker p (m_next m)). }
  pose (D := λ m', calm p m' ∧ alloc_good (m_next m) (GetAddressesLockPath (ar_deviceIdx args)) a m').
  assert (frame locker false p (keeps_locks p) (λ _, False) D) as HD by (apply frame_good; [apply frame_calm | by intros s _ []]).
  apply prog_bind; [apply others_refl|]. eapply prog_mono; [|apply (refresh_spec _ D); [done | split; [apply Hm1 | done]]].
  intros [] m2 Hm2. apply wp_down, prog_call. intros m3 _ HR3. pose proof (fr_others _ _ _ _ _ _ HD _ _ Hm2 HR3) as Hm3.
  split_and!; [by apply (fr_I _ _ _ _ _ _ HD) | done|]. intros o x m4 Hh _. cbn in Hh. injection Hh as _ <-.
  assert (in_use (m_next m) args a (after p (Encode (printed args a) : question) (o_answer o (Encode (printed args a))) m3)) as Hm4.
  { destruct Hm3 as [Hc Hg]. split; [|done]. intros q [Hq|Hq]%announced_after; [done | by destruct (Hc q)]. }
  destruct x as [e|]; [by eapply (ret_spec _ _ _ _ _ _ (in_use (m_next m) args a)); [apply frame_in_use | |]|].
  apply prog_bind; [apply others_refl|]. eapply prog_mono; [|by apply (refresh_loop_spec _ (m_next m) args)]. intros [] m5 Hm5. by apply deallocate_spec.
Qed.
End One.
End Agent.

(** C5: Any number of allocation processes run on an agent, with any arguments, at any speed, and can be killed at any time; the VPC service may
    answer anything.  Two processes that are alive, have printed an allocation for the same interface and were not told to
    end yet have no address in common. *)
Theorem Allocate_exclusive locker m ps ls s p q a b ip :
  world m → m_trace m = [] → (∀ p t, (p, t) ∈ ps → ∃ c args, t = Allocate locker c args) → sys_run ls (boot m ps) = Some s →
  is_Some (sys_threads s !! p) → is_Some (sys_threads s !! q) → p ≠ q →
  has_printed p a (sys_m s) → has_printed q b (sys_m s) → ¬ signalled p (sys_m s) → ¬ signalled q (sys_m s) →
  la_DeviceIndex a = la_DeviceIndex b → ip ∈ alloc_ips a → ip ∉ alloc_ips b.
Proof.
  intros HW Htr Hps Hrun Hp Hq Hne [ea Ha] [eb Hb] Hsp Hsq Eidx Hia Hib.
  assert (∀ r, ended (U := agent_user locker) r (sys_m s) → signalled r (sys_m s)) as Hend.
  { intros r (x & y & Hx & Hy). destruct x; try done. cbn in y, Hy. by subst y. }
  eapply (users_exclusive (U := agent_user locker) locker m ps ls s p q (address_path locker (la_DeviceIndex a) ip)); try done.
  - intros p' t Hin m' Hm' n. destruct (Hps p' t Hin) as (c & args & ->). by apply Allocate_spec.
  - exists (Encode a), ea. split; [done|]. by apply list_elem_of_fmap_2.
  - exists (Encode b), eb. split; [done|]. rewrite Eidx. by apply list_elem_of_fmap_2.
  - intros Hr. by apply Hsp, Hend.
  - intros Hr. by apply Hsq, Hend.
Qed.
