(* ===== verification/Gpu.v ===== *)
(** * Gpu: the devices of a container

    Models [nvidia/nvidia.go].  The executors of an instance share its GPUs: an executor lists the devices
    once, and takes an exclusive lock on the name of each device it gives to a container ([FsLocker.v]).

    What an executor asks others is the [World]: the type of the instance, the output of [nvidia-smi], the order in which Go
    goes through a map, the start of the container, and what [DockerRuntime.Kill] asks Docker when the runner calls it. *)
From ITree Require Import ITree.
From S2P Require Import Prelude Errors Host FsLocker LockUsers.

Open Scope string_scope.
Open Scope Z_scope.
Open Scope list_scope.

(** ** What an executor asks *)

Inductive gpu_question : Type :=
| InstanceType
| NvidiaSmi
| MapOrder (keys : list string)
| ContainerStarted (devices : list string)
| KillRequested
| ContainerInspect
| ContainerStop
| ContainerKill.

(** What [ContainerInspect] answers: [docker.IsErrNotFound], another error, or whether the container runs *)
Inductive inspection : Type := InspectNotFound | InspectError (e : error) | Inspected (running : bool).

(** An error of [nvidia-smi] says whether its time was over. *)
Definition gpu_answer (q : gpu_question) : Type :=
  match q with
  | InstanceType => error + string
  | NvidiaSmi => (error * bool) + string
  | MapOrder _ => list string
  | ContainerStarted _ => unit
  | KillRequested => unit
  | ContainerInspect => inspection
  | ContainerStop => option error
  | ContainerKill => option error
  end.

#[export] Instance gpu_world : World := {| question := gpu_question; answer := gpu_answer |}.

Definition ask_gpu (q : gpu_question) : prog (gpu_answer q) := sys (Ask (q : question)).

(** ** Finding the devices *)

(** [\S] of a regular expression *)
Definition is_space (c : ascii) : bool :=
  existsb (Ascii.eqb c) [" "%char; ascii_of_N 9; ascii_of_N 10; ascii_of_N 12; ascii_of_N 13].

(** [AwsGpuInstanceRegex], [^([g2]|[p2]|[p3]|[g4dn]).[\S]+]: the brackets are sets of characters. *)
Definition gpu_instance (s : string) : bool :=
  match s with
  | String a (String b (String c _)) =>
      existsb (Ascii.eqb a) ["g"; "2"; "p"; "3"; "4"; "d"; "n"]%char && negb (Ascii.eqb b (ascii_of_N 10)) && negb (is_space c)
  | _ => false
  end.

Definition isGPUInstance : prog (error + bool) :=
  r ← ask_gpu InstanceType;
  match r with
  | inl e => mret (inl e)
  | inr t => mret (inr (gpu_instance t))
  end.

(** [strings.TrimSpace], which also takes a vertical tab for a space *)
Definition trimmed (c : ascii) : bool := is_space c || Ascii.eqb c (ascii_of_N 11).

Fixpoint trim_left (s : string) : string :=
  match s with
  | String c s' => if trimmed c then trim_left s' else s
  | "" => ""
  end.

Fixpoint trim_right (s : string) : string :=
  match s with
  | String c s' => match trim_right s' with "" => if trimmed c then "" else String c "" | t => String c t end
  | "" => ""
  end.

Definition TrimSpace (s : string) : string := trim_right (trim_left s).

Definition NoGpusFound : error := EString "no GPU devices found".
Definition GpuQueryTimeout : error := EString "timeout querying for GPUs".
Definition gpu_stateDir : path := ["run"; "titus-executor-nvidia"].

(** [PluginInfo]: without a GPU there are neither devices nor a locker. *)
Record PluginInfo := MkPluginInfo { gpuIds : list string; fsLocker : option FSLocker }.

(** The lines of the output *)
Definition gpu_ids (out : string) : list string := strings_Split (TrimSpace out) (ascii_of_N 10).

Definition initHostGpuInfo : prog (option error * PluginInfo) :=
  gpu ← isGPUInstance;
  match gpu with
  | inl e => mret (Some e, MkPluginInfo [] None)
  | inr false => mret (None, MkPluginInfo [] None)
  | inr true =>
      locker ← NewFSLocker gpu_stateDir;
      match locker with
      | inl e => mret (Some e, MkPluginInfo [] None)
      | inr locker =>
          r ← ask_gpu NvidiaSmi;
          match r with
          | inl (e, timeout) => mret (Some (if (timeout : bool) then GpuQueryTimeout else e), MkPluginInfo [] (Some locker))
          | inr stdout =>
              let ids := gpu_ids stdout in
              mret (if bool_decide (length ids = 0%nat) then Some NoGpusFound else None, MkPluginInfo ids (Some locker))
          end
      end
  end.

(** ** Giving them out *)

(** Go goes through a map in any order. *)
Definition in_map_order (devices : gmap string ref) : prog (list (string * ref)) :=
  let keys := (map_to_list devices).*1 in
  order ← ask_gpu (MapOrder keys);
  let order : list string := if bool_decide (Permutation order keys) then order else keys in
  mret (omap (λ k, l ← devices !! k; Some (k, l)) order).

Fixpoint unlock_all (locks : list (string * ref)) : prog unit :=
  match locks with
  | [] => mret tt
  | (_, l) :: locks => _ ← Unlock l; unlock_all locks
  end.

(** The loop of [AllocDevices]: whether there were enough, and the devices it has locked *)
Fixpoint alloc_loop (locker : FSLocker) (c : ctx) (numDevs : Z) (ids : list string) (allocated : gmap string ref) : prog (bool * gmap string ref) :=
  match ids with
  | [] => mret (false, allocated)
  | id :: ids =>
      lock ← ExclusiveLock locker c (strings_Split id "/") (Some 0);
      let allocated := match lock with inr l => <[id := l]> allocated | inl _ => allocated end in
      if bool_decide (Z.of_nat (size allocated) = numDevs) then mret (true, allocated) else alloc_loop locker c numDevs ids allocated
  end.

Definition AllocDevices (n : PluginInfo) (c : ctx) (numDevs : Z) : prog (error + gmap string ref) :=
  '(enough, allocated) ← match fsLocker n with
                         | Some locker => alloc_loop locker c numDevs (gpuIds n) ∅
                         | None => match gpuIds n with [] => mret (false, ∅) | _ => FsLocker.go_panic end
                         end;
  if (enough : bool) then mret (inr allocated)
  else
    locks ← in_map_order allocated;
    _ ← unlock_all locks;
    mret (inl (EString ("Unable able to allocate " +:+ Itoa numDevs +:+ " GPU devices. Not enough free GPU devices available"))).

Definition Devices (allocated : gmap string ref) : prog (list string) :=
  l ← in_map_order allocated; mret l.*1.

Definition Deallocate (allocated : gmap string ref) : prog Z :=
  l ← in_map_order allocated;
  _ ← unlock_all l;
  mret (Z.of_nat (size allocated)).

(** [DockerRuntime.setupGPU]: every container makes a [PluginInfo] of its own. *)
Definition setupGPU (c : ctx) (numGpus : Z) : prog (error + option (gmap string ref)) :=
  if numGpus <=? 0 then mret (inr None)
  else
    '(err, gpuInfo) ← initHostGpuInfo;
    match err with
    | Some e => mret (inl e)
    | None =>
        r ← AllocDevices gpuInfo c numGpus;
        match r with
        | inl e => mret (inl (EString ("Cannot allocate " +:+ Itoa numGpus +:+ " requested GPU device: " +:+ Error e)))
        | inr devices => mret (inr (Some devices))
        end
    end.

(** [DockerRuntime.Kill] from the label [stopped] *)
Definition Kill_stopped (numGpus : Z) (GPUInfo : option (gmap string ref)) (errs : list error) : prog (list error) :=
  match GPUInfo with
  | Some allocated => if 0 <? numGpus then _ ← Deallocate allocated; mret errs else mret errs
  | None => mret errs
  end.

(** [DockerRuntime.Kill]: also when neither stopping nor killing worked, the devices are given back. *)
Definition Kill (numGpus : Z) (GPUInfo : option (gmap string ref)) : prog (list error) :=
  containerJSON ← ask_gpu ContainerInspect;
  let stop (errs : list error) : prog (list error) :=
    err ← ask_gpu ContainerStop;
    match err with
    | None => Kill_stopped numGpus GPUInfo errs
    | Some e =>
        killed ← ask_gpu ContainerKill;
        Kill_stopped numGpus GPUInfo (errs ++ [e] ++ option_list killed)
    end in
  match containerJSON with
  | InspectNotFound => Kill_stopped numGpus GPUInfo []
  | InspectError e => stop [e]
  | Inspected false => Kill_stopped numGpus GPUInfo []
  | Inspected true => stop []
  end.

(** A container, from [setupGPU] to the end of [Kill], which the runner calls when it is to end or has ended *)
Definition gpu_container (c : ctx) (numGpus : Z) : prog unit :=
  r ← setupGPU c numGpus;
  match r with
  | inl _ | inr None => mret tt
  | inr (Some allocated) =>
      devices ← Devices allocated;
      _ ← ask_gpu (ContainerStarted devices);
      _ ← ask_gpu KillRequested;
      _ ← Kill numGpus (Some allocated);
      mret tt
  end.

(** * Two containers never share a device *)

Section Gpu.

(** The locker of all containers *)
Definition gpu_locker : FSLocker := MkFSLocker (Join gpu_stateDir [".pendingwork"]) (Join gpu_stateDir ["lockDir"]).

#[local] Abbreviation locker := gpu_locker.

Definition device_path (id : string) : path := Join (locker_path locker) (strings_Split id "/").

(** Docker says that the container does not run, or has answered, whatever that was, to the last attempt to kill it. *)
Definition given_up (q : gpu_question) : gpu_answer q → bool :=
  match q as q return gpu_answer q → bool with
  | ContainerInspect => λ a, match a with InspectNotFound | Inspected false => true | _ => false end
  | ContainerStop => λ a, match a with None => true | Some _ => false end
  | ContainerKill => λ _, true
  | _ => λ _, false
  end.

(** The start of a container announces its devices. *)
#[local] Instance gpu_user : LockUser gpu_world := {|
  announces := λ q : question, match (q : gpu_question) with ContainerStarted devices => device_path <$> devices | _ => [] end;
  ends := given_up
|}.

Section One.
Context (p : pid).

Abbreviation WP := (wp p world (others locker false p) (promises locker false p) (keeps_locks p)).
Abbreviation lock := (has_lock false p).
Abbreviation framed := (frame locker false p (keeps_locks p)).

(** The devices are locked, with objects whose numbers are below [n]. *)
Definition locked (n : N) (devices : gmap string ref) (m : machine) : Prop :=
  ∀ id l, devices !! id = Some l → ∃ f i, (l < n)%N ∧ (f < n)%N ∧ lock l f i LOCK_EX (device_path id) m.

Lemma frame_locked (S : N → Prop) C n devices : framed S C → (∀ s, (s < n)%N → ¬ S s) → framed S (λ m, C m ∧ locked n devices m).
Proof.
  intros HF HS.
  assert (∀ m1 m2 (S' : N → Prop), (∀ s, (s < n)%N → ¬ S' s) → locked n devices m1 → moves locker false p S' m1 m2 → locked n devices m2) as Hmv.
  { intros m1 m2 S' HS' Hl Hm id l Hid. destruct (Hl id l Hid) as (f & i & Hln & Hfn & Hlk). exists f, i. split_and!; [done | done|].
    eapply has_lock_moves; [done | by apply HS' | by apply HS' | done]. }
  apply frame_and; [done| |].
  - intros m1 m2 _ Hl HR. eapply Hmv; [|done | apply HR]. by intros s _ [].
  - intros m1 m2 _ Hl Hm _. by eapply Hmv.
Qed.

(** While devices are locked, nothing is announced yet. *)
Definition preparing (n : N) (devices : gmap string ref) (m : machine) : Prop := (calm p m ∧ locked n devices m) ∧ (n ≤ m_next m)%N.

Lemma above_preparing n devices : above locker p n (preparing n devices).
Proof.
  split.
  - apply frame_next, frame_locked; [apply frame_calm | lia].
  - intros x a m Hx [[Hc Hl] Hn]. split; [|done]. split; [|done].
    intros q [Hq|Hq]%announced_after; [rewrite Hx in Hq; by apply elem_of_nil in Hq | by apply (Hc q)].
  - by intros m [_ Hn].
Qed.

Lemma gpu_ask n k0 devices (q : gpu_question) {B} (k : gpu_answer q → prog B) Q m : preparing n devices m → announces (q : question) = [] →
  (∀ a m', preparing n devices m' → WP false k0 (k a) Q m') → WP false k0 (ask_gpu q ≫= k) Q m.
Proof. exact (ask_spec locker p n k0 (preparing n devices) q k Q m (above_preparing n devices)). Qed.

Lemma alloc_loop_spec k0 c numDevs ids n devices m : preparing n devices m →
  WP false k0 (alloc_loop locker c numDevs ids devices) (λ r m', ∃ n', preparing n' r.2 m') m.
Proof.
  revert n devices m. induction ids as [|id ids IH]; intros n devices m Hm; cbn [alloc_loop].
  { eapply (above_ret locker p n); [apply above_preparing | done|]. intros m' Hm' _. by exists n. }
  apply prog_bind; [apply others_refl|]. eapply prog_mono; [|apply (Lock_spec locker p n); [apply above_preparing | exact Hm]].
  intros r m1 [Hm1 Hr]. cbv zeta.
  assert (∃ n', preparing n' (match r with inr l => <[id := l]> devices | inl _ => devices end) m1) as [n' Hn'].
  { destruct r as [e|l]; [by exists n|]. destruct Hr as (f & i & Hl & Hf & _ & Hlk). exists (m_next m1). destruct Hm1 as [[Hc Hlo] Hn].
    split; [|lia]. split; [done|]. intros id' l' [[<- <-]|[_ Hid]]%lookup_insert_Some.
    - exists f, i. split_and!; [lia | lia | done].
    - destruct (Hlo id' l' Hid) as (f' & i' & Hl' & Hf' & Hlk'). exists f', i'. split_and!; [lia | lia | done]. }
  case_bool_decide; [|by eapply IH]. eapply (above_ret locker p n'); [apply above_preparing | done|]. intros m' Hm' _. by exists n'.
Qed.

Lemma unlock_all_spec k0 C locks m : framed (λ _, True) C → C m → WP false k0 (unlock_all locks) (λ _, C) m.
Proof.
  intros HF. revert m. induction locks as [|[id l] locks IH]; intros m Hm; cbn [unlock_all]; [by eapply ret_spec|].
  apply prog_bind; [apply others_refl|]. eapply prog_mono; [|by eapply Unlock_spec]. intros [] m1 Hm1. by apply IH.
Qed.

(** A question that announces nothing, under an assertion about the trace *)
Definition quiet_question (C : machine → Prop) (q : question) : Prop := ∀ a m, C m → C (after p q a m).

Lemma in_map_order_spec k0 C devices m : framed (λ _, False) C → (∀ q, announces q = [] → quiet_question C q) → C m →
  WP false k0 (in_map_order devices) (λ r m', C m' ∧ ∀ id l, (id, l) ∈ r → devices !! id = Some l) m.
Proof.
  intros HF Hq Hm. unfold in_map_order. cbv zeta. apply wp_down, prog_call. intros m1 _ HR1. pose proof (fr_others _ _ _ _ _ _ HF _ _ Hm HR1) as Hm1.
  split_and!; [by apply (fr_I _ _ _ _ _ _ HF) | done|]. intros o order m2 Hh _. cbn in Hh. injection Hh as _ <-.
  eapply ret_spec; [done | by apply (Hq (MapOrder (map_to_list devices).*1))|]. intros m' Hm' _. split; [done|].
  intros id l Hin. apply list_elem_of_omap in Hin as (k & _ & Hk). destruct (devices !! k) as [l'|] eqn:E; [|done]. by injection Hk as <- <-.
Qed.

Lemma calm_question q : announces q = [] → quiet_question (calm p) q.
Proof. intros Hx a m Hc q' [Hq|Hq]%announced_after; [rewrite Hx in Hq; by apply elem_of_nil in Hq | by apply (Hc q')]. Qed.

Lemma ended_question q : quiet_question (ended p) q.
Proof. intros a m (x & y & Hx & Hy). exists x, y. split; [by right | done]. Qed.

Lemma AllocDevices_spec k0 c numDevs info m : calm p m → fsLocker info = Some locker ∨ info = MkPluginInfo [] None →
  WP false k0 (AllocDevices info c numDevs)
    (λ r m', match r with inl _ => calm p m' | inr devices => ∃ n, preparing n devices m' end) m.
Proof.
  intros Hm Hinfo. unfold AllocDevices. apply prog_bind; [apply others_refl|].
  assert (preparing 0 ∅ m) as Hm0 by (split; [split; [done | by intros id l ?] | lia]).
  eapply (prog_mono _ _ _ _ _ _ _ _ (λ r m', ∃ n, preparing n r.2 m')).
  2: { destruct Hinfo as [->| ->]; [by apply (alloc_loop_spec _ _ _ _ 0%N)|].
       eapply (above_ret locker p 0); [apply above_preparing | done|]. intros m' Hm' _. by exists 0%N. }
  intros [enough devices] m1 [n Hm1]. cbn in Hm1. destruct enough.
  { eapply (above_ret locker p n); [apply above_preparing | done|]. intros m' Hm' _. by exists n. }
  apply prog_bind; [apply others_refl|]. eapply prog_mono; [|apply (in_map_order_spec _ (calm p)); [apply frame_calm | apply calm_question | apply Hm1]].
  intros locks m2 [Hm2 _]. apply prog_bind; [apply others_refl|]. eapply prog_mono; [|apply (unlock_all_spec _ (calm p)); [apply frame_calm | done]].
  intros [] m3 Hm3. eapply (ret_spec _ _ _ _ _ (λ _, True) (calm p)); [apply frame_calm | done | done].
Qed.

Ltac returns := eapply ret_spec; [eassumption | eassumption | intros ? ? _; split; [assumption | cbn; auto]].

(** Listing the devices, when nothing is announced *)
Lemma initHostGpuInfo_spec k0 m : calm p m →
  WP false k0 initHostGpuInfo (λ r m', calm p m' ∧ (fsLocker r.2 = Some locker ∨ r.2 = MkPluginInfo [] None)) m.
Proof.
  intros Hm. unfold initHostGpuInfo. pose proof (frame_calm locker p (λ _, False)) as HF.
  assert (∀ (q : gpu_question) B (k : gpu_answer q → prog B) Q m, announces (q : question) = [] → calm p m →
    (∀ a m', calm p m' → WP false k0 (k a) Q m') → WP false k0 (ask_gpu q ≫= k) Q m) as Hask.
  { intros q B k Q m' Hq Hm' Hk. apply (gpu_ask 0 k0 ∅ q k Q m'); [split; [split; [done | by intros id l ?] | lia] | done|].
    intros a m2 [[Hc _] _]. by apply Hk. }
  apply prog_bind; [apply others_refl|]. eapply (prog_mono _ _ _ _ _ _ _ _ (λ _, calm p)).
  2: { apply (Hask InstanceType); [done | done|]. intros [e|t] m1 Hm1; by eapply ret_spec. }
  intros [e|[]] m1 Hm1; [by returns | | by returns].
  apply prog_bind; [apply others_refl|]. eapply (prog_mono _ _ _ _ _ _ _ _ (λ r m', calm p m' ∧ match r with inl _ => True | inr lk => lk = locker end)).
  2: { apply (quiet_spec _ _ _ _ _ (calm p)); [done | done | done|]. intros o e m2 m3 _ _ _ _ Hm3 _. destruct (match e with Some (EErrno EEXIST) => None | _ => e end); [by eapply ret_spec|].
       apply (quiet_spec _ _ _ _ _ (calm p)); [done | done | done|]. intros o' e' m4 m5 _ _ _ _ Hm5 _.
       destruct (match e' with Some (EErrno EEXIST) => None | _ => e' end); by eapply ret_spec. }
  intros [e|lk] m2 [Hm2 Hlk]; [by returns|]. subst lk.
  apply (Hask NvidiaSmi); [done | done|]. intros [[e timeout]|out] m3 Hm3; by returns.
Qed.

Lemma setupGPU_spec k0 c numGpus m : calm p m →
  WP false k0 (setupGPU c numGpus) (λ r m', match r with inr (Some devices) => ∃ n, preparing n devices m' | _ => calm p m' end) m.
Proof.
  intros Hm. pose proof (frame_calm locker p (λ _, False)) as HF. unfold setupGPU. destruct (numGpus <=? 0); [by eapply ret_spec|].
  apply prog_bind; [apply others_refl|]. eapply prog_mono; [|by apply initHostGpuInfo_spec]. intros [[e|] n] m1 [Hm1 Hn]; [by eapply ret_spec|].
  apply prog_bind; [apply others_refl|]. eapply prog_mono; [|by apply AllocDevices_spec].
  intros [e|devices] m2 Hm2; [by eapply ret_spec|]. destruct Hm2 as [k Hk].
  eapply (above_ret locker p k); [apply above_preparing | done|]. intros m' Hm' _. by exists k.
Qed.

(** The container runs with its devices. *)
Definition running (n : N) (started : list string) (devices : gmap string ref) (m : machine) : Prop :=
  (∀ q, announced p q m → q ∈ device_path <$> started) ∧ (∀ id, id ∈ started → is_Some (devices !! id)) ∧ locked n devices m.

Lemma frame_running n started devices : framed (λ _, False) (running n started devices).
Proof.
  assert (∀ m1 m2, running n started devices m1 → moves locker false p (λ _, False) m1 m2 → running n started devices m2) as Hmv.
  { intros m1 m2 (Ha & Hs & Hl) Hm. split_and!; [|done|].
    - intros q Hq. apply Ha. by eapply announced_moves.
    - intros id l Hid. destruct (Hl id l Hid) as (f & i & Hln & Hfn & Hlk). exists f, i. split_and!; [done | done|].
      eapply has_lock_moves; [exact Hm | tauto | tauto | exact Hlk]. }
  split.
  - intros m1 m2 HC HR. eapply Hmv; [done | apply HR].
  - intros m1 m2 HC Hm _. by eapply Hmv.
  - intros m (Ha & Hs & Hl) q Hq _. apply Ha, list_elem_of_fmap in Hq as (id & -> & Hid). destruct (Hs id Hid) as [l El].
    destruct (Hl id l El) as (f & i & _ & _ & Hlk). by exists l, f, i.
Qed.

(** A question about the running container *)
Lemma running_ask k0 n started devices (q : gpu_question) {B} (k : gpu_answer q → prog B) Q m :
  running n started devices m → announces (q : question) = [] →
  (∀ a m', running n started devices m' → given_up q a = false → WP false k0 (k a) Q m') →
  (∀ a m', ended p m' → given_up q a = true → WP false k0 (k a) Q m') →
  WP false k0 (ask_gpu q ≫= k) Q m.
Proof.
  intros Hm Hq Hrun Hend. pose proof (frame_running n started devices) as HF.
  apply wp_down, prog_call. intros m1 _ HR1. pose proof (fr_others _ _ _ _ _ _ HF _ _ Hm HR1) as Hm1.
  split_and!; [by apply (fr_I _ _ _ _ _ _ HF) | done|]. intros o a m2 Hh _. cbn in Hh. injection Hh as <- <-.
  destruct (given_up q (o_answer o q)) eqn:E.
  - apply Hend; [|done]. exists q, (o_answer o q). split; [by left | done].
  - apply Hrun; [|done]. destruct Hm1 as (Ha & Hs & Hl). split_and!; [|done|done].
    intros q' [Hq'|Hq']%announced_after; [rewrite Hq in Hq'; by apply elem_of_nil in Hq' | by apply Ha].
Qed.

Lemma Deallocate_ended k0 devices m : ended p m → WP false k0 (Deallocate devices) (λ _, ended p) m.
Proof.
  intros Hm. pose proof (frame_ended locker p (λ _, False)) as HE. apply prog_bind; [apply others_refl|].
  eapply prog_mono; [|apply (in_map_order_spec _ (ended p)); [done | by intros q _; apply ended_question | exact Hm]]. intros l' m1 [Hm1 _].
  apply prog_bind; [apply others_refl|]. eapply prog_mono; [|apply (unlock_all_spec _ (ended p)); [apply frame_ended | done]]. intros [] m2 Hm2.
  by eapply ret_spec.
Qed.

Lemma Kill_stopped_ended k0 numGpus info errs m : ended p m → WP false k0 (Kill_stopped numGpus info errs) (λ _, ended p) m.
Proof.
  intros Hm. pose proof (frame_ended locker p (λ _, False)) as HE. unfold Kill_stopped. destruct info as [devices|]; [|by eapply ret_spec].
  destruct (0 <? numGpus); [|by eapply ret_spec]. apply prog_bind; [apply others_refl|].
  eapply prog_mono; [|by apply Deallocate_ended]. intros z m1 Hm1. by eapply ret_spec.
Qed.

(** The devices are given back only after the container is given up. *)
Lemma Kill_spec k0 numGpus info n started devices m : running n started devices m → WP false k0 (Kill numGpus info) (λ _, ended p) m.
Proof.
  intros Hm. unfold Kill. cbv zeta.
  assert (∀ errs m, running n started devices m →
    WP false k0 (err ← ask_gpu ContainerStop; match err with
      | None => Kill_stopped numGpus info errs
      | Some e => killed ← ask_gpu ContainerKill; Kill_stopped numGpus info (errs ++ [e] ++ option_list killed)
      end) (λ _, ended p) m) as Hstop.
  { clear m Hm. intros errs m Hm. apply (running_ask _ n started devices ContainerStop _ _ _ Hm eq_refl); intros [e|] m1 Hm1 E; try done; [|by apply Kill_stopped_ended].
    apply (running_ask _ n started devices ContainerKill _ _ _ Hm1 eq_refl); [by intros a m2 _ [=]|]. intros a m2 Hm2 _. by apply Kill_stopped_ended. }
  apply (running_ask _ n started devices ContainerInspect _ _ _ Hm eq_refl); intros [|e|[]] m1 Hm1 E; try done; by (apply Hstop || apply Kill_stopped_ended).
Qed.

Lemma gpu_container_spec k0 c numGpus m : calm p m → WP false k0 (gpu_container c numGpus) (λ _ _, True) m.
Proof.
  intros Hm. pose proof (frame_calm locker p (λ _, False)) as HF. unfold gpu_container. apply prog_bind; [apply others_refl|].
  eapply prog_mono; [|by apply setupGPU_spec]. intros [e|[devices|]] m1 Hm1; [by eapply ret_spec | | by eapply ret_spec]. destruct Hm1 as [n Hm1].
  pose proof (above_preparing n devices) as HP.
  apply prog_bind; [apply others_refl|]. apply prog_bind; [apply others_refl|].
  eapply prog_mono; [|apply (in_map_order_spec _ (preparing n devices)); [by eapply (above_quiet locker p n) | intros q Hq a m'; by apply (ab_ask _ _ _ _ HP) | done]].
  intros l m2 [Hm2 Hl]. eapply (above_ret locker p n); [done | done|]. intros m3 Hm3 _. clear m1 m2 Hm1 Hm2.
  apply wp_down, prog_call. intros m4 _ HR4. pose proof (fr_others _ _ _ _ _ _ (ab_frame _ _ _ _ HP) _ _ Hm3 HR4) as Hm4.
  split_and!; [by apply (fr_I _ _ _ _ _ _ (ab_frame _ _ _ _ HP)) | done|]. intros o u m5 Hh _. cbn in Hh. injection Hh as _ <-.
  assert (running n l.*1 devices (after p (ContainerStarted l.*1 : question) (o_answer o (ContainerStarted l.*1)) m4)) as Hm5.
  { destruct Hm4 as [[Hc Hlo] _]. split_and!; [|intros id ((id' & r) & -> & Hin)%list_elem_of_fmap; by eexists; apply Hl|done].
    intros q [Hq|Hq]%announced_after; [done | by destruct (Hc q)]. }
  apply (running_ask _ n l.*1 devices KillRequested _ _ _ Hm5 eq_refl); [|by intros a m6 _ [=]]. intros [] m6 Hm6 _.
  apply prog_bind; [apply others_refl|]. eapply prog_mono; [|by eapply Kill_spec]. intros errs m7 Hm7.
  eapply ret_spec; [apply (frame_ended locker p (λ _, False)) | done | done].
Qed.
End One.
End Gpu.

(** A container was started with a device. *)
Definition started_with (p : pid) (id : string) (m : machine) : Prop := ∃ devices a, (p, Asked (ContainerStarted devices : question) a) ∈ m_trace m ∧ id ∈ devices.

(** Docker has answered [Kill] that the container does not run, or the last attempt to kill it has been answered, be it with an error. *)
Definition container_given_up (p : pid) (m : machine) : Prop :=
  ∃ (q : gpu_question) (a : gpu_answer q), (p, Asked (q : question) a) ∈ m_trace m ∧ given_up q a = true.

(** C17: Executors that set up the GPUs of their containers at the same time, find whatever devices, and can be killed
    at any time, never start two containers with the same device, not while both executors are alive and neither container was given up:
    Docker did not answer [Kill] that it does not run, or that it is stopped, and the kill after a failed stop was not answered yet. *)
Theorem setupGPU_exclusive m ps ls s p q id :
  world m → m_trace m = [] → (∀ p t, (p, t) ∈ ps → ∃ c numGpus, t = gpu_container c numGpus) → sys_run ls (boot m ps) = Some s →
  is_Some (sys_threads s !! p) → is_Some (sys_threads s !! q) → p ≠ q →
  ¬ container_given_up p (sys_m s) → ¬ container_given_up q (sys_m s) → started_with p id (sys_m s) → ¬ started_with q id (sys_m s).
Proof.
  intros HW Htr Hps Hrun Hp Hq Hne Hdp Hdq (dp & ap & Hsp & Hidp) (dq & aq & Hsq & Hidq).
  eapply (users_exclusive (U := gpu_user) gpu_locker m ps ls s p q (device_path id)); try done.
  - intros p' t Hin m' Hm' n. destruct (Hps p' t Hin) as (c & numGpus & ->). by apply gpu_container_spec.
  - exists (ContainerStarted dp), ap. split; [done|]. by apply list_elem_of_fmap_2.
  - exists (ContainerStarted dq), aq. split; [done|]. by apply list_elem_of_fmap_2.
Qed.

(** The check for no devices in [initHostGpuInfo] never finds any missing: splitting gives at least one string. *)
Lemma gpu_ids_nonempty out : gpu_ids out ≠ [].
Proof.
  unfold gpu_ids. generalize (TrimSpace out) as s. induction s as [|c s IH]; cbn; [done|].
  destruct (ascii_dec c _); [done|]. by destruct (strings_Split s _).
Qed.
