(* ===== verification/AssignV2.v ===== *)
(** * AssignV2: assignment of the second generation

    Models [AssignIPV2] of [vpc/service/assign_address.go] and what it calls.  An agent of the second generation asks
    for an address on the branch ENI at an index of its trunk ENI, and says which addresses it uses.  The service
    attaches a branch ENI of the right subnet there ([ensureBranchENIAttached]), in transactions of its own, sees to
    its security groups, and picks addresses.

    PostgreSQL is taken to print an inet as Go prints an IP; the UUID of an allocation in a request is taken to be
    written the way PostgreSQL prints it. *)
From S2P Require Import Prelude Errors Limits NetIP Schema Service Logic TxLogic BranchEni GenerateAssignment AssignV3 UnassignV3 Gc GcV2 TrunkEnis AssignV1.

Open Scope string_scope.
Open Scope Z_scope.
Open Scope list_scope.

(** ** Requests *)

(** The field [Ipv4] is an allocation, a wish, or not set. *)
Inductive ipv4_request : Set :=
| Ipv4SignedAddressAllocation (uuid : string)
| Ipv4AddressRequested (b : bool)
| Ipv4NotSet.

(** The identity is the instance, its region and its account. *)
Record AssignIPRequestV2 := MkAssignIPRequestV2 {
  a2_InstanceIdentity : option (string * string * string);
  a2_NetworkInterfaceAttachment : option Z;
  a2_SecurityGroupIds : list string;
  a2_AllowSecurityGroupChange : bool;
  a2_AccountID : string;
  a2_UtilizedAddresses : list string;
  a2_Ipv4 : ipv4_request;
  a2_Ipv6AddressRequested : option bool
}.

Record AssignIPResponseV2 := MkAssignIPResponseV2 {
  r2_Ipv4Address : option UsableAddress;
  r2_Ipv6Address : option UsableAddress;
  r2_BranchNetworkInterface : NetworkInterfaceV3;
  r2_TrunkNetworkInterface : NetworkInterfaceV3;
  r2_VlanId : Z
}.

(** ** Queries *)

(** [SELECT subnet_id, vpc_id FROM account_mapping WHERE account = $1 AND availability_zone = $2] *)
Definition mapping_of (account az : string) (d : db) : option account_mapping_row :=
  List.find (λ m, bool_decide (am_account m = account) && bool_decide (am_availability_zone m = az)) (account_mapping d).

(** [FROM branch_enis JOIN branch_eni_attachments .. WHERE idx = $1 AND trunk_eni = $2] *)
Definition branches_at (idx : Z) (trunk : string) (d : db) : list (branch_eni_row * attachment) :=
  where_ (λ x, (at_idx x.2 =? idx) && bool_decide (at_trunk_eni x.2 = trunk))
    (join (branch_enis d) (branch_eni_attachments d) (λ b a, bool_decide (be_branch_eni b = at_branch_eni a))).

(** [WHERE branch_eni NOT IN (SELECT branch_eni FROM branch_eni_attachments) AND subnet_id = $1] *)
Definition never_attached (subnet : string) (d : db) : list string :=
  be_branch_eni <$> where_ (λ b, negb (bool_decide (be_branch_eni b ∈ at_branch_eni <$> branch_eni_attachments d)) &&
                                 bool_decide (be_subnet_id b = subnet)) (branch_enis d).

(** The columns that are not given have their defaults. *)
Definition insert_attachment (id t : Z) (branch trunk : string) (idx : Z) (association : string) (d : db) : db :=
  set_branch_eni_attachments
    (branch_eni_attachments d ++ [Attachment id branch trunk idx (Some association) None None attached (Some false) None None None t None]) d.

Definition insert_created (t : Z) (iface : network_interface) (d : db) : db :=
  set_branch_enis
    (branch_enis d ++ [BranchEniRow (NetworkInterfaceId iface) (ni_OwnerId iface) (ni_SubnetId iface) (ni_AvailabilityZone iface) (ni_VpcId iface)
       (sort_Strings (ni_Groups iface)) false None None t]) d.

Definition set_groups (eni : string) (groups : list string) (d : db) : db :=
  set_branch_enis (update_where (λ b, bool_decide (be_branch_eni b = eni))
    (λ b, BranchEniRow (be_branch_eni b) (be_account_id b) (be_subnet_id b) (be_az b) (be_vpc_id b) groups (be_dirty_security_groups b)
            (be_mac b) (be_last_assigned_to b) (be_created_at b)) (branch_enis d)) d.

(** [SELECT ip_address, last_used FROM ip_last_used WHERE host(ip_address) = any($1) AND last_used IS NOT NULL] *)
Definition recent_use (ips : gset string) (d : db) : list (string * Z) :=
  omap (λ r, if bool_decide (ul_ip_address r ∈ ips) then (λ t, (canonical (ul_ip_address r), t)) <$> ul_last_used r else None) (ip_last_used d).

(** [INSERT INTO ip_last_used (ip_address, last_allocated) .. ON CONFLICT (ip_address) DO UPDATE SET last_allocated] *)
Definition report_allocated (ip : string) (t : Z) (d : db) : db :=
  set_ip_last_used
    (upsert_use ip (λ r, IpUsedRow (ul_ip_address r) (ul_last_used r) (Some t)) (IpUsedRow ip None (Some t)) (ip_last_used d)) d.

Definition max_addresses (i : instance) : M Z :=
  match GetMaxIPAddresses (InstanceType i) with
  | Ok n => mret n
  | Fail _ => throw (EStatus InvalidArgument "Unknown instance type")
  | Panic s => go_panic s
  end.

Section WithEC2.
Context (ec2 : ec2_oracle).

(** [if err != nil { return ec2wrapper.HandleEC2Error(err, span) }] after a call of the client *)
Definition handled {A : Set} (c : ec2_call A) : M A :=
  r ← try (call ec2 c);
  match r with inl e => throw (HandleEC2Error e) | inr a => mret a end.

(** ** A branch ENI at an index *)

Definition ensureBranchENIPermission (account region branchENI ownerID : string) : M unit :=
  if bool_decide (account = ownerID) then mret tt
  else
    _ ← GetSessionFromAccountAndRegion ec2 account region;
    wrap "Cannot create network interface permission" (call ec2 (CreateNetworkInterfacePermission ownerID branchENI)).

(** Whatever the error of the query is, an ENI is created. *)
Definition getUnattachedBranchENI (h : tx) (account region subnetID : string) (securityGroups : list string) : M string :=
  r ← try (queryRowAny h (never_attached subnetID));
  match r with
  | inr branchENI => mret branchENI
  | inl _ =>
      _ ← GetSessionFromAccountAndRegion ec2 account region;
      iface ← call ec2 (CreateNetworkInterface subnetID securityGroups);
      t ← now;
      _ ← exec h (insert_created t iface);
      mret (NetworkInterfaceId iface)
  end.

(** What is at the index: an ENI of the subnet, nothing any more, or nothing *)
Inductive at_index : Set := Found (eni : string) | Detached | NotAttached.

(** From the start of the first transaction to the end of the branch that detaches *)
Definition look_at_index (h : tx) (trunk subnetID : string) (idx : Z) : M at_index :=
  r ← try (x ← queryRowAny h (branches_at idx trunk);
           association ← scan (at_association_id x.2);
           mret (x.1, association));
  match r with
  | inl ENoRows => mret NotAttached
  | inl e => throw e
  | inr (b, association) =>
      if bool_decide (be_subnet_id b = subnetID) then mret (Found (be_branch_eni b))
      else
        _ ← wrap "Unable to disassociate existing branch ENI" (call ec2 (DisassociateTrunkInterface association ""));
        _ ← wrap "Cannot mark existing ENI as disassociated"
              (exec h (delete_attachments (λ a, oeqb (at_association_id a) association)));
        _ ← wrap "Cannot commit transaction indicating ENI is detached" (Commit h);
        mret Detached
  end.

(** The rest, in the transaction that is then in force *)
Definition attach_at_index (h : tx) (trunk : instance_eni) (accountID region subnetID : string) (idx : Z) (securityGroupIds : list string) : M string :=
  branchENI ← getUnattachedBranchENI h accountID region subnetID securityGroupIds;
  _ ← ensureBranchENIPermission accountID region branchENI (in_OwnerId trunk);
  association ← handled (AssociateTrunkInterface (in_NetworkInterfaceId trunk) branchENI "" idx);
  _ ← wrap "Unable to delete existing branch eni attachments" (exec h (delete_attachments (λ a, bool_decide (at_branch_eni a = branchENI))));
  id ← nextval;
  t ← now;
  _ ← wrap "Unable to update branch_eni attachments" (exec h (insert_attachment id t branchENI (in_NetworkInterfaceId trunk) idx association));
  mret branchENI.

(** The deferred function ends the transaction that the variable [tx] holds; when the second one did not start it is nil. *)
Definition ensureBranchENIAttached (trunk : instance_eni) (accountID az : string) (idx : Z) (securityGroupIds : list string) : M string :=
  h ← wrap_status Unknown "Could not start database transaction" BeginTx;
  r ← try (m ← (r ← try (queryRow h (mapping_of accountID az));
                match r with
                | inl ENoRows => throw (EWrap "Not rows found in account mappings table" ENoRows)
                | inl e => throw (EWrap "Could not fetch account mappings" e)
                | inr m => mret m
                end);
           o ← look_at_index h (in_NetworkInterfaceId trunk) (am_subnet_id m) idx;
           mret (am_subnet_id m, o));
  match r with
  | inl e => _ ← Rollback h; throw e
  | inr (_, Found eni) => deferred_commit h (mret eni)
  | inr (subnetID, NotAttached) => deferred_commit h (attach_at_index h trunk accountID (azToRegion az) subnetID idx securityGroupIds)
  | inr (subnetID, Detached) =>
      r ← try (wrap_status Unknown "Could not restart database transaction after detaching ENI" BeginTx);
      match r with
      | inl _ => go_panic "nil pointer dereference"
      | inr h => deferred_commit h (attach_at_index h trunk accountID (azToRegion az) subnetID idx securityGroupIds)
      end
  end.

(** ** Security groups *)

Definition ensureSecurityGroups (h : tx) (eni : network_interface) (securityGroupIDs : list string) (allowSecurityGroupChange : bool) : M unit :=
  let wanted : gset string := list_to_set securityGroupIDs in
  if bool_decide (wanted = list_to_set (ni_Groups eni)) then mret tt
  else if negb allowSecurityGroupChange then throw (EStatus FailedPrecondition "Security group change required, but not allowed")
  else
    let groups := sort_Strings (elements wanted) in
    _ ← handled (ModifyNetworkInterfaceGroups (NetworkInterfaceId eni) groups);
    wrap "Could not update branch ENI security groups in database" (exec h (set_groups (NetworkInterfaceId eni) groups)).

(** ** Addresses *)

Definition assignSpecificIPv4Address (h : tx) (branchENI : network_interface) (prefixlength : Z) (uuid : string) : M UsableAddress :=
  r ← try (queryRow h (allocation_ip uuid));
  match r with
  | inl ENoRows => throw (EWrap "Could not find allocation" ENoRows)
  | inl e => throw (EWrap "Could not fetch allocations from database" e)
  | inr ip =>
      l ← handled (AssignPrivateIps (NetworkInterfaceId branchENI) [ip] true);
      first_address l (uint32 prefixlength)
  end.

(** The address of [unused] that was not used for longest *)
Definition oldest_address (h : tx) (unused : gset string) (prefix : Z) : M UsableAddress :=
  used ← wrap_status Unknown "Could not fetch utilized IPv4 addresses from the database" (query h (recent_use unused));
  ip ← choose (least_recently_used used (elements unused));
  match ip with
  | None => go_panic "index out of range"
  | Some ip => mret (MkUsableAddress ip prefix)
  end.

(** How many to ask for *)
Definition ipsToAssign (maxIPAddresses : Z) (used : gset string) : Z := Z.min 4 (maxIPAddresses - Z.of_nat (size used)).

Definition assignArbitraryIPv6Address (h : tx) (branchENI : network_interface) (i : instance) (utilizedAddresses : list string) : M UsableAddress :=
  maxIPAddresses ← max_addresses i;
  let used := utilized_v6 utilizedAddresses in
  if maxIPAddresses <=? Z.of_nat (size used) then throw (EStatus FailedPrecondition "IPv6 addresses already in-use")
  else
    let unused := assigned_v6 branchENI ∖ used in
    if bool_decide (unused = ∅) then
      if maxIPAddresses - Z.of_nat (size used) <=? 0 then throw (EStatus FailedPrecondition "IPv6 addresses already assigned")
      else
        l ← handled (AssignIpv6Count (NetworkInterfaceId branchENI) (ipsToAssign maxIPAddresses used));
        first_address l 64
    else oldest_address h unused 128.

Definition interface_v4 (ni : network_interface) : gset string := list_to_set (canonical ∘ pi_address <$> ni_PrivateIpAddresses ni).

Definition assignArbitraryIPv4Address (h : tx) (branchENI : network_interface) (prefixlength : Z) (i : instance) (utilizedAddresses : list string) : M UsableAddress :=
  maxIPAddresses ← max_addresses i;
  let used := utilized_v4 utilizedAddresses in
  if maxIPAddresses <=? Z.of_nat (size used) then throw (EStatus FailedPrecondition "IPv4 addresses already in-use")
  else
    let unused := interface_v4 branchENI ∖ used in
    unused ← (if bool_decide (unused = ∅) then mret unused
              else rows ← wrap_status Unknown "Could not fetch utilized IPv4 addresses from the database" (query h (static_rows unused));
                   mret (unused ∖ list_to_set (canonical ∘ ip_ip_address <$> rows)));
    if bool_decide (unused = ∅) then
      if maxIPAddresses - Z.of_nat (size used) <=? 0 then throw (EStatus FailedPrecondition "IPv4 addresses already assigned")
      else
        l ← handled (AssignPrivateIpCount (NetworkInterfaceId branchENI) (ipsToAssign maxIPAddresses used));
        first_address l (uint32 prefixlength)
    else oldest_address h unused (uint32 prefixlength).

Definition note_allocated (h : tx) (ua : UsableAddress) : M unit :=
  ip ← inet (ua_Address ua);
  t ← now;
  exec h (report_allocated ip t).

Definition assign_v4 (h : tx) (eni : network_interface) (prefixlength : Z) (i : instance) (req : AssignIPRequestV2) : M (option UsableAddress) :=
  match a2_Ipv4 req with
  | Ipv4SignedAddressAllocation uuid => ua ← assignSpecificIPv4Address h eni prefixlength uuid; mret (Some ua)
  | Ipv4AddressRequested true =>
      ua ← assignArbitraryIPv4Address h eni prefixlength i (a2_UtilizedAddresses req);
      _ ← note_allocated h ua;
      mret (Some ua)
  | _ => mret None
  end.

Definition assign_v6 (h : tx) (eni : network_interface) (i : instance) (req : AssignIPRequestV2) : M (option UsableAddress) :=
  match a2_Ipv6AddressRequested req with
  | Some true =>
      ua ← assignArbitraryIPv6Address h eni i (a2_UtilizedAddresses req);
      _ ← note_allocated h ua;
      mret (Some ua)
  | _ => mret None
  end.

(** ** The request *)

(** The session, the instance and its trunk ENI are found as in the third generation. *)
Definition AssignIPV2 (req : AssignIPRequestV2) : M AssignIPResponseV2 :=
  match a2_InstanceIdentity req, a2_NetworkInterfaceAttachment req with
  | Some (instanceID, region, account), Some deviceIndex =>
      x ← getSessionAndTrunkInterface ec2 instanceID region account;
      let '(i, trunk) := x in
      let accountID := if bool_decide (a2_AccountID req = "") then in_OwnerId trunk else a2_AccountID req in
      let az := inst_AvailabilityZone i in
      branchENI ← ensureBranchENIAttached trunk accountID az deviceIndex (a2_SecurityGroupIds req);
      _ ← wrap "Cannot get session for branch ENI" (GetSessionFromAccountAndRegion ec2 accountID (azToRegion az));
      with_commit (wrap_status Unknown "Could not start database transaction" BeginTx) (λ h,
        _ ← statement h;
        eni ← session_GetNetworkInterfaceByID ec2 branchENI;
        _ ← ensureSecurityGroups h eni (a2_SecurityGroupIds req) (a2_AllowSecurityGroupChange req);
        subnet ← session_GetSubnetByID ec2 (ni_SubnetId eni);
        match ParseCIDR (es_CidrBlock subnet) with
        | None => throw (EString "invalid CIDR address")
        | Some prefixlength =>
            v4 ← assign_v4 h eni prefixlength i req;
            v6 ← assign_v6 h eni i req;
            mret (MkAssignIPResponseV2 v4 v6 (networkInterface eni) (instanceNetworkInterface i trunk) deviceIndex)
        end)
  | _, _ => go_panic "nil pointer dereference"
  end.
End WithEC2.

(** ** The attachment at an index *)

Definition attached_at (trunk : string) (idx : Z) (eni : string) (d : db) : Prop :=
  ∃ a, a ∈ branch_eni_attachments d ∧ at_branch_eni a = eni ∧ at_trunk_eni a = trunk ∧ at_idx a = idx.

(** An attachment of the index was removed. *)
Definition detached_from (trunk : string) (idx : Z) (d d' : db) : Prop :=
  ∃ a association, a ∈ branch_eni_attachments d ∧ at_trunk_eni a = trunk ∧ at_idx a = idx ∧ at_association_id a = Some association ∧
    d' = delete_attachments (λ a, oeqb (at_association_id a) association) d.

(** Only such attachments are gone as [lost] says, and only assignments on those. *)
Definition spares (lost : attachment → Prop) (d d' : db) : Prop :=
  (∀ a, a ∈ branch_eni_attachments d → a ∈ branch_eni_attachments d' ∨ lost a) ∧
  (∀ r, r ∈ assignments d → r ∈ assignments d' ∨
     ∃ a, a ∈ branch_eni_attachments d ∧ at_association_id a = Some (as_association r) ∧ lost a).

Lemma spares_refl lost d : spares lost d d.
Proof. split; auto. Qed.

Lemma spares_mono (lost lost' : attachment → Prop) d d' :
  (∀ a, a ∈ branch_eni_attachments d → lost a → lost' a) → spares lost d d' → spares lost' d d'.
Proof.
  intros Hl [H1 H2]. split; [intros a Ha; destruct (H1 a Ha); auto|].
  intros r Hr. destruct (H2 r Hr) as [?|(a & Ha & ? & ?)]; [by left | right; eauto].
Qed.

Lemma spares_trans lost d1 d2 d3 :
  (∀ a, a ∈ branch_eni_attachments d2 → a ∈ branch_eni_attachments d1) → spares lost d1 d2 → spares lost d2 d3 → spares lost d1 d3.
Proof.
  intros Hsub [H1 H2] [K1 K2]. split.
  - intros a Ha. destruct (H1 a Ha) as [H|]; [|by right]. by apply K1.
  - intros r Hr. destruct (H2 r Hr) as [H|]; [|by right]. destruct (K2 r H) as [?|(a & Ha & ? & ?)]; [by left | right; eauto].
Qed.

Lemma elem_of_delete p d a : a ∈ branch_eni_attachments (delete_attachments p d) ↔ a ∈ branch_eni_attachments d ∧ p a = false.
Proof. simpl. rewrite elem_of_where. unfold compose. by rewrite negb_true_iff. Qed.

Lemma spares_delete (p : attachment → bool) d : spares (λ a, p a = true) d (delete_attachments p d).
Proof.
  split.
  - intros a Ha. rewrite elem_of_delete. destruct (p a) eqn:E; auto.
  - intros r Hr. simpl. rewrite elem_of_where. unfold compose. rewrite negb_true_iff, bool_decide_eq_false.
    destruct (decide (as_association r ∈ omap at_association_id (where_ p (branch_eni_attachments d)))) as [Hin|]; [right|by left].
    apply list_elem_of_omap in Hin as (a & [Ha Hp]%elem_of_where & Hassoc). by exists a.
Qed.

Section Attaching.
Context (ec2 : ec2_oracle).

(** Where the ENI comes from: it was known in the subnet and never attached, or EC2 created it there. *)
Definition unattached_in (subnet : string) (groups : list string) (X X0 : db) (eni : string) : Prop :=
  X0 = X ∧ eni ∈ never_attached subnet X ∨
  ∃ iface t cs, ec2 _ cs (CreateNetworkInterface subnet groups) = inr iface ∧ X0 = insert_created t iface X ∧ eni = NetworkInterfaceId iface.

Lemma getUnattachedBranchENI_sequel h d X account region subnet groups :
  sequel h d X (getUnattachedBranchENI ec2 h account region subnet groups) (λ eni X', unattached_in subnet groups X X' eni).
Proof.
  unfold getUnattachedBranchENI. eapply sequel_bind; [apply sequel_try_reads, reads_queryRowAny|]. intros [e|eni] X1 [-> Hr].
  - eapply sequel_bind; [apply sequel_call|]. intros _ ? [-> _]. eapply sequel_bind; [apply sequel_call|]. intros iface ? [-> [cs Hcs]].
    eapply sequel_bind; [apply sequel_now|]. intros t ? ->. eapply sequel_bind; [apply sequel_exec|]. intros _ ? [-> _].
    apply sequel_ret. right. by exists iface, t, cs.
  - apply sequel_ret. by left.
Qed.

Lemma handled_sequel h d X {A : Set} (c : ec2_call A) :
  sequel h d X (handled ec2 c) (λ a X', X' = X ∧ ∃ cs, ec2 A cs c = inr a).
Proof.
  intros w [Hd Hp]. unfold handled. apply wp_bind, wp_try, wp_call; intros.
  - apply wp_ret. exists X. split; [by split|]. eauto.
  - apply wp_throw. exists X. by split.
Qed.

(** The ENI is attached at the index with the association that EC2 answered. *)
Definition attaches (trunk : string) (idx : Z) (subnet : string) (groups : list string) (X X' : db) (eni : string) : Prop :=
  ∃ X0 id t association cs, unattached_in subnet groups X X0 eni ∧ ec2 _ cs (AssociateTrunkInterface trunk eni "" idx) = inr association ∧
    X' = insert_attachment id t eni trunk idx association (delete_attachments (λ a, bool_decide (at_branch_eni a = eni)) X0).

Lemma attach_at_index_sequel h d X trunk account region subnet idx groups :
  sequel h d X (attach_at_index ec2 h trunk account region subnet idx groups)
    (λ eni X', attaches (in_NetworkInterfaceId trunk) idx subnet groups X X' eni).
Proof.
  unfold attach_at_index. eapply sequel_bind; [apply getUnattachedBranchENI_sequel|]. intros eni X0 H0.
  eapply (sequel_bind _ _ _ _ _ (λ _ X', X' = X0)).
  { unfold ensureBranchENIPermission. case_bool_decide; [by apply sequel_ret|]. eapply sequel_bind; [apply sequel_call|]. intros _ ? [-> _].
    apply sequel_wrap. eapply sequel_mono; [apply sequel_call|]. by intros _ ? [-> _]. }
  intros _ ? ->. eapply sequel_bind; [apply handled_sequel|]. intros association ? [-> [cs Hcs]].
  eapply sequel_bind; [apply sequel_wrap, sequel_exec|]. intros _ ? [-> _]. eapply sequel_bind; [apply sequel_nextval|]. intros id ? ->.
  eapply sequel_bind; [apply sequel_now|]. intros t ? ->. eapply sequel_bind; [apply sequel_wrap, sequel_exec|]. intros _ ? [-> _].
  apply sequel_ret. by exists X0, id, t, association, cs.
Qed.

(** What is at the index *)
Lemma look_at_index_spec h d trunk subnet idx w :
  sees h d d w →
  wp (look_at_index ec2 h trunk subnet idx) (λ r w', match r with
    | Ok (Found eni) => sees h d d w' ∧ attached_at trunk idx eni d ∧ ∃ b, b ∈ branch_enis d ∧ be_branch_eni b = eni ∧ be_subnet_id b = subnet
    | Ok NotAttached => sees h d d w'
    | Ok Detached => detached_from trunk idx d (w_db w') ∧ schema_ok (w_db w')
    | Fail _ => w_db w' = d
    | Panic _ => False
    end) w.
Proof.
  intros Hs. unfold look_at_index. apply wp_bind.
  assert (reads h d d (x ← queryRowAny h (branches_at idx trunk); association ← scan (at_association_id x.2); mret (x.1, association))
    (λ x, ∃ a, (x.1, a) ∈ branches_at idx trunk d ∧ at_association_id a = Some x.2)) as Hr.
  { eapply reads_bind; [apply reads_queryRowAny|]. intros [b a] Hx. simpl. destruct (at_association_id a) as [association|] eqn:Ea; simpl.
    - eapply (reads_bind _ _ _ _ _ (λ x, x = association)); [by apply reads_ret|]. intros ? ->. apply reads_ret. by exists a.
    - eapply (reads_bind _ _ _ _ _ (λ x, False)); [apply reads_throw | done]. }
  eapply wp_mono; [apply (sequel_try_reads h d d _ _ Hr w Hs)|]. intros [[e|[b association]]|e|s] w1; [| |by intros (X' & ? & _)|done].
  - intros (X' & Hs1 & -> & _). destruct e; try (apply wp_throw; by destruct Hs1). by apply wp_ret.
  - intros (X' & Hs1 & -> & a & Hx & Ha). simpl in Hx, Ha. apply elem_of_where in Hx as [Hj Hat].
    apply elem_of_join in Hj as (Hb & Haa & Hon%bool_decide_eq_true). apply andb_true_iff in Hat as [Hidx%Z.eqb_eq Htrunk%bool_decide_eq_true]. simpl in *.
    case_bool_decide as Hsub.
    + apply wp_ret. split_and!; [done|by exists a|by exists b].
    + apply wp_bind, wp_wrap. eapply wp_mono; [apply (sequel_call ec2 h d d _ w1 Hs1)|].
      intros [u|e|s] w2; [|by intros (? & ? & _)|done]. intros (X' & Hs2 & -> & _).
      assert (ends h d d (wrap "Cannot mark existing ENI as disassociated" (exec h (delete_attachments (λ a, oeqb (at_association_id a) association))) ≫= λ _,
          wrap "Cannot commit transaction indicating ENI is detached" (Commit h) ≫= λ _, mret Detached)
        (λ r d', match r with Ok o => o = Detached ∧ detached_from trunk idx d d' ∧ schema_ok d' | Fail _ => d' = d | Panic _ => False end)) as He.
      { eapply ends_bind; [apply sequel_wrap, sequel_exec|done|]. intros _ ? [-> Hok]. apply ends_commit; [done|].
        intros w3 E3 _. apply wp_ret. rewrite E3. split_and!; [done|by exists a, association|done]. }
      eapply wp_mono; [apply (He w2 Hs2)|]. intros [o|e|s] w3; [|done|done]. by intros (-> & ? & ?).
Qed.
End Attaching.

Section Ensuring.
Context (ec2 : ec2_oracle) (trunk : instance_eni) (account az : string) (idx : Z) (groups : list string).

Abbreviation T := (in_NetworkInterfaceId trunk).

(** What has become of the database [d] when the call ended with [r] *)
Definition ensured (d : db) (r : res error string) (d' : db) : Prop :=
  spares (λ a, at_trunk_eni a = T ∧ at_idx a = idx ∨ r = Ok (at_branch_eni a)) d d' ∧
  match r with
  | Ok eni => schema_ok d' ∧ attached_at T idx eni d' ∧ ∃ m, mapping_of account az d = Some m ∧
      ((∃ b, b ∈ branch_enis d ∧ be_branch_eni b = eni ∧ be_subnet_id b = am_subnet_id m) ∨
       (∃ iface cs, ec2 _ cs (CreateNetworkInterface (am_subnet_id m) groups) = inr iface ∧ eni = NetworkInterfaceId iface))
  | Fail _ => d' = d ∨ detached_from T idx d d'
  | Panic _ => detached_from T idx d d'
  end.

Lemma attaches_spares subnet X X' eni : attaches ec2 T idx subnet groups X X' eni → spares (λ a, at_branch_eni a = eni) X X'.
Proof.
  intros (X0 & id & t & association & cs & H0 & _ & ->).
  assert (branch_eni_attachments X0 = branch_eni_attachments X ∧ assignments X0 = assignments X) as [E1 E2]
    by (by destruct H0 as [[-> _]|(iface & t0 & cs0 & _ & -> & _)]).
  destruct (spares_mono _ (λ a, at_branch_eni a = eni) X0 _ (λ a _ H, bool_decide_eq_true_1 _ H)
    (spares_delete (λ a, bool_decide (at_branch_eni a = eni)) X0)) as [H1 H2].
  rewrite E1 in H1, H2. rewrite E2 in H2. split; [|done]. intros a Ha. destruct (H1 a Ha) as [H|]; [left|by right].
  apply elem_of_app. by left.
Qed.

Lemma attaches_attached subnet X X' eni : attaches ec2 T idx subnet groups X X' eni → attached_at T idx eni X'.
Proof.
  intros (X0 & id & t & association & cs & H0 & _ & ->). eexists. simpl. split; [apply elem_of_app; right; apply list_elem_of_singleton; reflexivity|done].
Qed.

Lemma attaches_from subnet X X' eni :
  attaches ec2 T idx subnet groups X X' eni →
  (∃ b, b ∈ branch_enis X ∧ be_branch_eni b = eni ∧ be_subnet_id b = subnet) ∨
  (∃ iface cs, ec2 _ cs (CreateNetworkInterface subnet groups) = inr iface ∧ eni = NetworkInterfaceId iface).
Proof.
  intros (X0 & id & t & association & cs & H0 & _). destruct H0 as [[-> Hn]|(iface & t0 & cs0 & Hc & -> & ->)]; [left | right; eauto].
  apply list_elem_of_fmap in Hn as (b & -> & [Hb Hp]%elem_of_where). apply andb_true_iff in Hp as [_ Hs%bool_decide_eq_true]. by exists b.
Qed.

Lemma detached_spares d d' : schema_ok d → detached_from T idx d d' → spares (λ a, at_trunk_eni a = T ∧ at_idx a = idx) d d'.
Proof.
  intros Hs (a0 & association & H0 & Ht & Hi & Hassoc & ->). eapply spares_mono; [|apply spares_delete]. intros a Ha E%bool_decide_eq_true.
  constraint_of Hs "branch_eni_attachments_association_id_uindex" C. constraint_of Hs "branch_eni_attachments_pk" C0.
  by rewrite (unique_nullable_key at_id at_association_id _ a a0 association C0 C Ha H0 E Hassoc).
Qed.

(** The transaction that attaches, after what was done to [d] before *)
Lemma attach_ensures h d X m w :
  (X = d ∨ detached_from T idx d X) → schema_ok d → mapping_of account az d = Some m → sees h X X w →
  wp (deferred_commit h (attach_at_index ec2 h trunk account (azToRegion az) (am_subnet_id m) idx groups)) (λ r w', ensured d r (w_db w')) w.
Proof.
  intros HX Hs Hm Hw.
  assert (spares (λ a, at_trunk_eni a = T ∧ at_idx a = idx) d X) as Hkeep.
  { destruct HX as [->|HX]; [apply spares_refl | by apply detached_spares]. }
  assert (∀ a, a ∈ branch_eni_attachments X → a ∈ branch_eni_attachments d) as Hsub.
  { destruct HX as [->|(? & ? & _ & _ & _ & _ & ->)]; [done|]. by intros a [? _]%elem_of_delete. }
  assert (branch_enis X = branch_enis d) as Hb by (destruct HX as [->|(? & ? & _ & _ & _ & _ & ->)]; done).
  eapply wp_mono; [eapply wp_deferred_commit; [exact Hw | apply attach_at_index_sequel]|]. intros [eni|e|s] w'; [| |done].
  - intros [Hat Hok]. split.
    + eapply spares_trans; [done | eapply spares_mono, Hkeep; auto|]. eapply spares_mono; [|by eapply attaches_spares]. intros a _ <-. by right.
    + split_and!; [done|by eapply attaches_attached|]. exists m. split; [done|]. rewrite <- Hb. by eapply attaches_from.
  - intros ->. split; [eapply spares_mono, Hkeep; auto|]. destruct HX; [by left | by right].
Qed.

(** The first transaction, up to where it is decided what to do *)
Lemma ensure_first h d w :
  sees h d d w →
  wp (m ← (r ← try (queryRow h (mapping_of account az));
           match r with
           | inl ENoRows => throw (EWrap "Not rows found in account mappings table" ENoRows)
           | inl e => throw (EWrap "Could not fetch account mappings" e)
           | inr m => mret m
           end);
      o ← look_at_index ec2 h T (am_subnet_id m) idx;
      mret (am_subnet_id m, o)) (λ r w', match r with
    | Ok (subnet, o) => ∃ m, mapping_of account az d = Some m ∧ subnet = am_subnet_id m ∧ match o with
        | Found eni => sees h d d w' ∧ attached_at T idx eni d ∧ ∃ b, b ∈ branch_enis d ∧ be_branch_eni b = eni ∧ be_subnet_id b = subnet
        | NotAttached => sees h d d w'
        | Detached => detached_from T idx d (w_db w') ∧ schema_ok (w_db w')
        end
    | Fail _ => w_db w' = d
    | Panic _ => False
    end) w.
Proof.
  intros Hs. apply wp_bind.
  assert (sequel h d d (r ← try (queryRow h (mapping_of account az));
           match r with
           | inl ENoRows => throw (EWrap "Not rows found in account mappings table" ENoRows)
           | inl e => throw (EWrap "Could not fetch account mappings" e)
           | inr m => mret m
           end) (λ m X', X' = d ∧ mapping_of account az d = Some m)) as Hq.
  { eapply sequel_bind; [apply sequel_try_reads, reads_queryRow|]. intros [e|m] ? [-> Hm]; [destruct e; apply sequel_throw | by apply sequel_ret]. }
  eapply wp_mono; [apply (Hq w Hs)|]. intros [m|e|s] w1; [|by intros (? & ? & _)|done]. intros (X' & Hs1 & -> & Hm).
  apply wp_bind. eapply wp_mono; [by apply look_at_index_spec|]. intros [o|e|s] w2; [|done|done]. intros Ho. apply wp_ret. by exists m.
Qed.
End Ensuring.

(** When [ensureBranchENIAttached] answers an ENI, it is attached at the index of the trunk ENI, in the subnet that the account is
    mapped to in the zone: it was known there, or EC2 created it for this subnet.  Attachments elsewhere and their assignments
    are kept, and when it fails at most the attachment that was at the index is gone, with its assignments.  It panics only after that, when it
    cannot begin another transaction. *)
Lemma ensureBranchENIAttached_attaches ec2 trunk account az idx groups w :
  schema_ok (w_db w) →
  wp (ensureBranchENIAttached ec2 trunk account az idx groups) (λ r w', ensured ec2 trunk account az idx groups (w_db w) r (w_db w')) w.
Proof.
  intros Hs. set (d := w_db w). assert (∀ e, ensured ec2 trunk account az idx groups d (Fail e) d) as Hfail by (intros e; split; [apply spares_refl | by left]).
  apply wp_bind. eapply wp_mono; [apply wp_BeginTx_status|]. intros [h|e|s] w1 [Hd Hp]; [|by rewrite Hd|done].
  assert (sees h d d w1) as Hs1 by (split; [done|]; by intros g <-%Hp).
  apply wp_bind, wp_try. eapply wp_mono; [by apply ensure_first|]. intros [[subnet o]|e|s] w2; [| |done].
  2: { intros Hd2. apply wp_bind. unfold Rollback, wp. simpl. by rewrite Hd2. }
  intros (m & Hm & -> & Ho). destruct o as [eni| |].
  - destruct Ho as (Hs2 & Hat & Hb). eapply wp_mono.
    { apply (wp_deferred_commit h d d _ (λ a X', a = eni ∧ X' = d) w2 Hs2). by apply sequel_ret. }
    intros [a|e|s] w3; [|by intros ->|done]. intros [[-> E] Hok]. rewrite E in *. split; [apply spares_refl|]. split_and!; [done|done|]. exists m. auto.
  - destruct Ho as [Hdet Hok]. apply wp_bind, wp_try. eapply wp_mono; [apply wp_BeginTx_status|]. intros [h2|e|s] w3 [Hd3 Hp3]; [| |done].
    + apply (attach_ensures _ _ _ _ _ _ h2 d (w_db w2)); [by right|done|done|]. split; [done|]. by intros g <-%Hp3.
    + apply wp_panic. rewrite Hd3. split; [|done]. eapply spares_mono; [|by apply detached_spares]. auto.
  - by apply (attach_ensures _ _ _ _ _ _ h d d); [left|..].
Qed.

(** ** What is known of the use of addresses *)

Lemma used_row_allocated ip t d ip' :
  used_row (report_allocated ip t d) ip' =
  if bool_decide (ip = ip') then Some (IpUsedRow ip' (used_at d ip') (Some t)) else used_row d ip'.
Proof.
  unfold used_row, report_allocated, used_at, used_row. simpl. rewrite find_upsert_use by done. case_bool_decide as Hip; [subst ip' | done].
  destruct (List.find _ _) as [r|] eqn:E; [|done]. apply List.find_some in E as [_ E%bool_decide_eq_true]. simpl. by rewrite E.
Qed.

Lemma upsert_use_NoDup ip update new l :
  (∀ r, ul_ip_address (update r) = ul_ip_address r) → ul_ip_address new = ip →
  NoDup (ul_ip_address <$> l) → NoDup (ul_ip_address <$> upsert_use ip update new l).
Proof.
  intros Hu Hnew Hl. unfold upsert_use. destruct (existsb _ l) eqn:E.
  - unfold update_where. rewrite <- list_fmap_compose. erewrite list_fmap_ext; [exact Hl|]. intros _ r _. simpl. by case_match.
  - rewrite fmap_app. apply NoDup_app. split_and!; [done| |apply NoDup_singleton]. intros x Hx Hin.
    apply list_elem_of_singleton in Hin as ->. apply list_elem_of_fmap in Hx as (r & Hr & Hrl). rewrite Hnew in Hr.
    assert (existsb (λ r, bool_decide (ul_ip_address r = ip)) l = true) as Ht; [|congruence].
    apply existsb_exists. exists r. split; [by apply list_elem_of_In|]. by apply bool_decide_eq_true_2.
Qed.

(** Pending writes [g] that keep attachments, static addresses and the times of use *)
Record keeps_use (d : db) (g : db → db) : Prop := {
  ku_attachments : branch_eni_attachments (g d) = branch_eni_attachments d;
  ku_static : ip_addresses (g d) = ip_addresses d;
  ku_unique : NoDup (ul_ip_address <$> ip_last_used (g d));
  ku_used : ∀ ip, used_at (g d) ip = used_at d ip
}.

(** The addresses [ips] are noted as allocated at [t]. *)
Definition noted (d : db) (t : Z) (ips : list string) (g : db → db) : Prop :=
  keeps_use d g ∧ ∀ ip, ip ∈ ips → allocated_at (g d) ip = Some t.

Lemma report_allocated_noted d t ips ip g : noted d t ips g → noted d t (ip :: ips) (λ d', report_allocated ip t (g d')).
Proof.
  intros [[Ha Hs Hn Hu] Hips]. split; [split; simpl; [done|done| |]|].
  - by apply upsert_use_NoDup.
  - intros ip'. unfold used_at at 1. rewrite used_row_allocated. case_bool_decide as Hip; simpl; [by rewrite Hu | apply Hu].
  - intros ip' Hip'. unfold allocated_at. rewrite used_row_allocated. case_bool_decide as Hip; simpl; [done|].
    apply Hips. by apply elem_of_cons in Hip' as [?|?].
Qed.

(** What the query for the times of use answers *)
Lemma recent_use_spec X d ip :
  NoDup (ul_ip_address <$> ip_last_used d) → all_canonical X → ip ∈ X → last_seen (recent_use X d) ip = used_at d ip.
Proof.
  unfold last_seen, recent_use, used_at, used_row. generalize (ip_last_used d) as l. intros l Hn HX Hip.
  assert (∀ l, ip ∉ ul_ip_address <$> l → List.find (λ e : string * Z, bool_decide (e.1 = ip))
    (omap (λ r, if bool_decide (ul_ip_address r ∈ X) then (λ t, (canonical (ul_ip_address r), t)) <$> ul_last_used r else None) l) = None) as Hnone.
  { clear Hn l. induction l as [|r l IH]; [done|]. simpl. rewrite not_elem_of_cons. intros [Hr Hl]. specialize (IH Hl).
    case_bool_decide as Hx; [|exact IH]. destruct (ul_last_used r); [|exact IH]. simpl. rewrite (HX _ Hx). by rewrite bool_decide_eq_false_2. }
  induction l as [|r l IH]; [done|]. simpl. apply NoDup_cons in Hn as [Hr Hn]. specialize (IH Hn).
  destruct (decide (ul_ip_address r = ip)) as [Heq|Hne].
  - rewrite (bool_decide_eq_true_2 _ Heq), (bool_decide_eq_true_2 (ul_ip_address r ∈ X)) by by rewrite Heq. simpl.
    destruct (ul_last_used r) as [t|]; simpl.
    + rewrite (HX (ul_ip_address r)) by by rewrite Heq. by rewrite bool_decide_eq_true_2.
    + rewrite Hnone by by rewrite <- Heq. done.
  - rewrite (bool_decide_eq_false_2 _ Hne). case_bool_decide as Hx; [|exact IH]. destruct (ul_last_used r); [|exact IH]. simpl.
    rewrite (HX _ Hx). by rewrite bool_decide_eq_false_2.
Qed.

(** ** The choice of an address *)

(** The address that was not used for longest of those that are free; when there is none, the first of at most four new ones. *)
Definition picked (d : db) (free : string → Prop) (assigns : Z → list string → Prop) (old_prefix new_prefix : Z) (ua : UsableAddress) : Prop :=
  (∃ ip, ua = MkUsableAddress ip old_prefix ∧ free ip ∧ ∀ ip', free ip' → time_le (used_at d ip) (used_at d ip') = true) ∨
  ((∀ ip, ¬ free ip) ∧ ∃ n ip l, 1 ≤ n ≤ 4 ∧ assigns n (ip :: l) ∧ ua = MkUsableAddress ip new_prefix).

Section Picking.
Context (ec2 : ec2_oracle) (d : db) (t : Z) (h : tx) (eni : network_interface) (i : instance) (utilized : list string).

Definition free_v4 (ip : string) : Prop := ip ∈ interface_v4 eni ∧ (ip ∉ utilized_v4 utilized) ∧ (ip ∉ ip_ip_address <$> ip_addresses d).
Definition free_v6 (ip : string) : Prop := ip ∈ assigned_v6 eni ∧ ip ∉ utilized_v6 utilized.

(** EC2 was asked for [n] more addresses, which with those in use are not more than the interface may have. *)
Definition more_v4 (n : Z) (l : list string) : Prop :=
  (∃ max, GetMaxIPAddresses (InstanceType i) = Ok max ∧ Z.of_nat (size (utilized_v4 utilized)) + n ≤ max) ∧
  ∃ cs, ec2 _ cs (AssignPrivateIpCount (NetworkInterfaceId eni) n) = inr l.
Definition more_v6 (n : Z) (l : list string) : Prop :=
  (∃ max, GetMaxIPAddresses (InstanceType i) = Ok max ∧ Z.of_nat (size (utilized_v6 utilized)) + n ≤ max) ∧
  ∃ cs, ec2 _ cs (AssignIpv6Count (NetworkInterfaceId eni) n) = inr l.

Abbreviation any := (λ _ : event, True).

Context {G : (db → db) → Prop} (HG : ∀ g, G g → keeps_use d g).

Lemma observes_handled {A : Set} (c : ec2_call A) : observes_in (G:=G) [h] any d t (handled ec2 c) (λ a, ∃ cs, ec2 A cs c = inr a).
Proof.
  unfold handled. eapply observes_bind; [by apply observes_try, observes_call_answer|]. intros [e|a] Ha; [apply observes_throw | by apply observes_ret].
Qed.

Lemma observes_max : observes_in (G:=G) [h] any d t (max_addresses i) (λ max, GetMaxIPAddresses (InstanceType i) = Ok max).
Proof. unfold max_addresses. case_match; [by apply observes_ret | apply observes_throw | apply observes_panic]. Qed.

Lemma oldest_address_picks unused prefix :
  all_canonical unused →
  observes_in (G:=G) [h] any d t (oldest_address h unused prefix)
    (λ ua, ∃ ip, ua = MkUsableAddress ip prefix ∧ ip ∈ unused ∧ ∀ ip', ip' ∈ unused → time_le (used_at d ip) (used_at d ip') = true).
Proof.
  intros Hc. unfold oldest_address.
  eapply (observes_bind _ _ _ _ _ _ (λ used, ∀ ip, ip ∈ unused → last_seen used ip = used_at d ip)).
  { apply observes_wrap_status, observes_query_in; [by left|]. intros g Hg ip Hip. destruct (HG g Hg) as [_ _ Hn Hu].
    by rewrite recent_use_spec, Hu. }
  intros used Hused. eapply observes_bind; [apply observes_choose|]. intros [ip|] Hip; [|apply observes_panic].
  apply observes_ret. exists ip. apply elem_of_where in Hip as [Hin%elem_of_elements Hmin]. split_and!; [done|done|].
  intros ip' Hip'. rewrite forallb_forall in Hmin. specialize (Hmin ip'). rewrite (Hused ip Hin), (Hused ip' Hip') in Hmin.
  apply Hmin, list_elem_of_In, elem_of_elements, Hip'.
Qed.

Lemma ipsToAssign_bounds max used : Z.of_nat (size (used : gset string)) < max → 1 ≤ ipsToAssign max used ≤ 4 ∧ Z.of_nat (size used) + ipsToAssign max used ≤ max.
Proof. unfold ipsToAssign. lia. Qed.

Lemma first_address_observes l prefix : observes_in (G:=G) [h] any d t (first_address l prefix) (λ ua, ∃ ip l', l = ip :: l' ∧ ua = MkUsableAddress ip prefix).
Proof. destruct l as [|ip l]; [apply observes_panic | apply observes_ret; eauto]. Qed.

Lemma assignArbitraryIPv6Address_picks :
  observes_in (G:=G) [h] any d t (assignArbitraryIPv6Address ec2 h eni i utilized) (picked d free_v6 more_v6 128 64).
Proof.
  unfold assignArbitraryIPv6Address. eapply observes_bind; [apply observes_max|]. intros max Hmax. cbv zeta.
  destruct (Z.leb_spec max (Z.of_nat (size (utilized_v6 utilized)))) as [|Hlt]; [apply observes_throw|].
  case_bool_decide as Hu.
  - case_match; [apply observes_throw|]. eapply observes_bind; [apply observes_handled|]. intros l Hl.
    eapply observes_mono; [apply first_address_observes|]. intros ua (ip & l' & -> & ->). right.
    destruct (ipsToAssign_bounds max (utilized_v6 utilized) Hlt). split; [intros ip' [Ha Hb]; set_solver|]. exists (ipsToAssign max (utilized_v6 utilized)), ip, l'.
    split_and!; [lia|lia|split; [exists max; split; [done|lia] | exact Hl]|done].
  - eapply observes_mono; [apply oldest_address_picks|].
    + intros x [Hx _]%base.elem_of_difference. apply (assigned_canonical eni). set_solver.
    + intros ua (ip & -> & [H1 H2]%base.elem_of_difference & Hmin). left. exists ip. split_and!; [done|done|].
      intros ip' [H3 H4]. apply Hmin. by apply base.elem_of_difference.
Qed.

Lemma assignArbitraryIPv4Address_picks prefix :
  observes_in (G:=G) [h] any d t (assignArbitraryIPv4Address ec2 h eni prefix i utilized) (picked d free_v4 more_v4 (uint32 prefix) (uint32 prefix)).
Proof.
  unfold assignArbitraryIPv4Address. eapply observes_bind; [apply observes_max|]. intros max Hmax. cbv zeta.
  destruct (Z.leb_spec max (Z.of_nat (size (utilized_v4 utilized)))) as [|Hlt]; [apply observes_throw|].
  assert (all_canonical (interface_v4 eni)) as Hcan by apply canonical_fmap.
  eapply (observes_bind _ _ _ _ _ _ (λ unused, ∀ ip, ip ∈ unused ↔ free_v4 ip)).
  { case_bool_decide as Hu.
    - apply observes_ret. intros ip. rewrite Hu. split; [set_solver|]. intros (H1 & H2 & _). set_solver.
    - eapply (observes_bind _ _ _ _ _ _ (λ rows, rows = static_rows (interface_v4 eni ∖ utilized_v4 utilized) d)).
      + apply observes_wrap_status, observes_query_in; [by left|]. intros g Hg. destruct (HG g Hg) as [_ Hs _ _]. unfold static_rows. by rewrite Hs.
      + intros ? ->. apply observes_ret. intros ip. unfold free_v4. rewrite base.elem_of_difference.
        destruct (decide (ip ∈ interface_v4 eni ∖ utilized_v4 utilized)) as [Hin|Hout]; [|set_solver].
        rewrite elem_of_static; [set_solver| |done]. intros x [Hx _]%base.elem_of_difference. auto. }
  intros unused Hfree. case_bool_decide as Hu.
  - case_match; [apply observes_throw|]. eapply observes_bind; [apply observes_handled|]. intros l Hl.
    eapply observes_mono; [apply first_address_observes|]. intros ua (ip & l' & -> & ->). right.
    destruct (ipsToAssign_bounds max (utilized_v4 utilized) Hlt). split; [intros ip' Hip'%Hfree; set_solver|]. exists (ipsToAssign max (utilized_v4 utilized)), ip, l'.
    split_and!; [lia|lia|split; [exists max; split; [done|lia] | exact Hl]|done].
  - eapply observes_mono; [apply oldest_address_picks|].
    + intros x Hx%Hfree. destruct Hx. auto.
    + intros ua (ip & -> & Hip%Hfree & Hmin). left. exists ip. split_and!; [done|done|]. intros ip' Hip'%Hfree. auto.
Qed.
End Picking.

(** ** The answer *)

Definition v4_answer (ec2 : ec2_oracle) (d : db) (eni : network_interface) (prefix : Z) (i : instance) (req : AssignIPRequestV2) (o : option UsableAddress) : Prop :=
  match a2_Ipv4 req with
  | Ipv4SignedAddressAllocation uuid =>
      ∃ ip cs ip' l, allocation_ip uuid d = Some ip ∧ ec2 _ cs (AssignPrivateIps (NetworkInterfaceId eni) [ip] true) = inr (ip' :: l) ∧
        o = Some (MkUsableAddress ip' (uint32 prefix))
  | Ipv4AddressRequested true =>
      ∃ ua, o = Some ua ∧ picked d (free_v4 d eni (a2_UtilizedAddresses req)) (more_v4 ec2 eni i (a2_UtilizedAddresses req)) (uint32 prefix) (uint32 prefix) ua
  | _ => o = None
  end.

Definition v6_answer (ec2 : ec2_oracle) (d : db) (eni : network_interface) (i : instance) (req : AssignIPRequestV2) (o : option UsableAddress) : Prop :=
  match a2_Ipv6AddressRequested req with
  | Some true => ∃ ua, o = Some ua ∧ picked d (free_v6 eni (a2_UtilizedAddresses req)) (more_v6 ec2 eni i (a2_UtilizedAddresses req)) 128 64 ua
  | _ => o = None
  end.

(** The addresses whose allocation is noted *)
Definition picked_v4 (req : AssignIPRequestV2) (o : option UsableAddress) : list string :=
  match a2_Ipv4 req with Ipv4AddressRequested true => option_list ((canonical ∘ ua_Address) <$> o) | _ => [] end.

Definition picked_v6 (o : option UsableAddress) : list string := option_list ((canonical ∘ ua_Address) <$> o).

Section Answering.
Context (ec2 : ec2_oracle) (d : db) (t : Z) (h : tx) (eni : network_interface) (i : instance) (req : AssignIPRequestV2).

Abbreviation any := (λ _ : event, True).

Lemma note_allocated_follows ips ua :
  follows h any d t (noted d t ips) (note_allocated h ua) (λ _, True) (λ _, noted d t (canonical (ua_Address ua) :: ips)).
Proof.
  unfold note_allocated. eapply (follows_bind _ _ _ _ _ _ _ (λ ip, ip = canonical (ua_Address ua))).
  { apply follows_observes. unfold inet. case_match; [by apply observes_ret | apply observes_throw]. }
  intros ? ->. eapply follows_bind; [apply follows_observes; by apply (observes_now _ _ _ _ (λ t', t' = t))|]. intros ? ->.
  eapply follows_mono; [apply follows_exec|done|]. intros _ g' _ (g & Hg & ->). by apply report_allocated_noted.
Qed.

Lemma noted_keeps ips g : noted d t ips g → keeps_use d g.
Proof. by intros []. Qed.

Lemma assign_v4_follows prefix :
  follows h any d t (noted d t []) (assign_v4 ec2 h eni prefix i req) (v4_answer ec2 d eni prefix i req) (λ o, noted d t (picked_v4 req o)).
Proof.
  unfold assign_v4, v4_answer, picked_v4. destruct (a2_Ipv4 req) as [uuid|[]|]; [| |by apply follows_ret..].
  - eapply (follows_bind _ _ _ _ _ _ _ (λ ua, ∃ ip cs ip' l, allocation_ip uuid d = Some ip ∧
      ec2 _ cs (AssignPrivateIps (NetworkInterfaceId eni) [ip] true) = inr (ip' :: l) ∧ ua = MkUsableAddress ip' (uint32 prefix))).
    + apply follows_observes. unfold assignSpecificIPv4Address.
      eapply (observes_bind _ _ _ _ _ _ (λ r, match r with inr ip => allocation_ip uuid d = Some ip | _ => True end)).
      { apply observes_try. unfold queryRow. eapply (observes_bind _ _ _ _ _ _ (λ o, o = allocation_ip uuid d)).
        - apply observes_query_in; [by left|]. intros g Hg. destruct (noted_keeps _ _ Hg) as [_ Hs _ _]. unfold allocation_ip. by rewrite Hs.
        - intros ? ->. destruct (allocation_ip uuid d); [by apply observes_ret | apply observes_throw]. }
      intros [e|ip] Hip; [destruct e; apply observes_throw|]. eapply observes_bind; [apply observes_handled|]. intros l [cs Hl].
      eapply observes_mono; [apply first_address_observes|]. intros ua (ip' & l' & -> & ->). by exists ip, cs, ip', l'.
    + intros ua (ip & cs & ip' & l & H1 & H2 & ->). apply follows_ret; [by exists ip, cs, ip', l | done].
  - eapply follows_bind; [apply follows_observes, assignArbitraryIPv4Address_picks, noted_keeps|]. intros ua Hua. simpl.
    eapply follows_bind; [apply note_allocated_follows|]. intros u _. apply follows_ret; [by exists ua | done].
Qed.

Lemma assign_v6_follows ips :
  follows h any d t (noted d t ips) (assign_v6 ec2 h eni i req) (v6_answer ec2 d eni i req) (λ o, noted d t (picked_v6 o ++ ips)).
Proof.
  unfold assign_v6, v6_answer, picked_v6. destruct (a2_Ipv6AddressRequested req) as [[]|]; [|by apply follows_ret..].
  eapply follows_bind; [apply follows_observes, assignArbitraryIPv6Address_picks, noted_keeps|]. intros ua Hua. simpl.
  eapply follows_bind; [apply note_allocated_follows|]. intros u _. apply follows_ret; [by exists ua | done].
Qed.

Lemma ensureSecurityGroups_follows :
  NoDup (ul_ip_address <$> ip_last_used d) →
  follows h any d t (eq id) (ensureSecurityGroups ec2 h eni (a2_SecurityGroupIds req) (a2_AllowSecurityGroupChange req)) (λ _, True) (λ _, noted d t []).
Proof.
  intros Hn. assert (noted d t [] id) as Hid by (split; [by split | by intros ? ?%elem_of_nil]).
  unfold ensureSecurityGroups. cbv zeta. case_bool_decide; [apply follows_ret; [done|]; by intros g <-|].
  destruct (a2_AllowSecurityGroupChange req); [|apply follows_throw]. simpl.
  eapply follows_bind; [apply follows_observes, observes_handled|]. intros u _. apply follows_wrap.
  eapply follows_mono; [apply follows_exec|done|]. intros _ g' _ (g & <- & ->). split; [by split | by intros ? ?%elem_of_nil].
Qed.
End Answering.

Definition branch_account (req : AssignIPRequestV2) (trunk : instance_eni) : string :=
  if bool_decide (a2_AccountID req = "") then in_OwnerId trunk else a2_AccountID req.

(** A whole answer: the branch ENI is attached at the index, and [d1] is what the database was after that; the addresses are picked by
    what it says, and those that were not allocated beforehand are noted. *)
Record answered (ec2 : ec2_oracle) (req : AssignIPRequestV2) (d d' : db) (t : Z) (resp : AssignIPResponseV2) : Prop := {
  an_schema : schema_ok d';
  an_noted : ∀ ip, ip ∈ picked_v4 req (r2_Ipv4Address resp) ++ picked_v6 (r2_Ipv6Address resp) → allocated_at d' ip = Some t;
  an_picked : ∃ i trunk branch d1 eni prefix,
    getTrunkENI i = Some trunk ∧ a2_NetworkInterfaceAttachment req = Some (r2_VlanId resp) ∧
    ensured ec2 trunk (branch_account req trunk) (inst_AvailabilityZone i) (r2_VlanId resp) (a2_SecurityGroupIds req) d (Ok branch) d1 ∧
    attached_at (in_NetworkInterfaceId trunk) (r2_VlanId resp) branch d' ∧
    is_described ec2 branch eni ∧ r2_BranchNetworkInterface resp = networkInterface eni ∧
    r2_TrunkNetworkInterface resp = instanceNetworkInterface i trunk ∧
    v4_answer ec2 d1 eni prefix i req (r2_Ipv4Address resp) ∧ v6_answer ec2 d1 eni i req (r2_Ipv6Address resp)
}.

(** The part after [ensureBranchENIAttached] *)
Lemma assign_on_branch ec2 req i trunk branch deviceIndex w :
  schema_ok (w_db w) →
  wp (with_commit (wrap_status Unknown "Could not start database transaction" BeginTx) (λ h,
        _ ← statement h;
        eni ← session_GetNetworkInterfaceByID ec2 branch;
        _ ← ensureSecurityGroups ec2 h eni (a2_SecurityGroupIds req) (a2_AllowSecurityGroupChange req);
        subnet ← session_GetSubnetByID ec2 (ni_SubnetId eni);
        match ParseCIDR (es_CidrBlock subnet) with
        | None => throw (EString "invalid CIDR address")
        | Some prefixlength =>
            v4 ← assign_v4 ec2 h eni prefixlength i req;
            v6 ← assign_v6 ec2 h eni i req;
            mret (MkAssignIPResponseV2 v4 v6 (networkInterface eni) (instanceNetworkInterface i trunk) deviceIndex)
        end)) (λ r w', match r with
    | Ok resp => schema_ok (w_db w') ∧ w_now w' = w_now w ∧ branch_eni_attachments (w_db w') = branch_eni_attachments (w_db w) ∧
        (∀ ip, ip ∈ picked_v4 req (r2_Ipv4Address resp) ++ picked_v6 (r2_Ipv6Address resp) → allocated_at (w_db w') ip = Some (w_now w)) ∧
        ∃ eni prefix v4 v6, is_described ec2 branch eni ∧ v4_answer ec2 (w_db w) eni prefix i req v4 ∧ v6_answer ec2 (w_db w) eni i req v6 ∧
          resp = MkAssignIPResponseV2 v4 v6 (networkInterface eni) (instanceNetworkInterface i trunk) deviceIndex
    | Fail _ => w_db w' = w_db w
    | Panic _ => True
    end) w.
Proof.
  intros Hs. constraint_of Hs "ip_last_used_pk" C. apply unique_fmap in C. set (d := w_db w) in *. set (t := w_now w).
  eapply wp_mono; [apply (wp_with_commit_follows (λ _, True) _ _
    (λ resp, ∃ eni prefix v4 v6, is_described ec2 branch eni ∧ v4_answer ec2 d eni prefix i req v4 ∧ v6_answer ec2 d eni i req v6 ∧
          resp = MkAssignIPResponseV2 v4 v6 (networkInterface eni) (instanceNetworkInterface i trunk) deviceIndex)
    (λ resp, noted d t (picked_v6 (r2_Ipv6Address resp) ++ picked_v4 req (r2_Ipv4Address resp)))); [auto with observes|]|].
  2: { intros [resp|e|s] w' [_ Hr]; [|done|done]. destruct Hr as (HQ & Hn & (g & [Hk Hg] & Hd') & Hok). rewrite Hd'. split_and!; [by rewrite <- Hd'|done|by apply Hk| |done].
       intros ip Hip. apply Hg. rewrite elem_of_app in *. tauto. }
  intros h. eapply follows_bind; [apply follows_observes, observes_statement; by left|]. intros u0 _.
  eapply follows_bind; [apply follows_observes; by apply observes_GetNetworkInterfaceByID|]. intros eni Heni.
  eapply follows_bind; [by apply ensureSecurityGroups_follows|]. intros u1 _.
  eapply follows_bind; [apply follows_observes; by apply observes_GetSubnetByID|]. intros subnet _.
  destruct (ParseCIDR (es_CidrBlock subnet)) as [prefix|]; [|apply follows_throw].
  eapply follows_bind; [apply assign_v4_follows|]. intros v4 H4. eapply follows_bind; [apply assign_v6_follows|]. intros v6 H6.
  apply follows_ret; [by exists eni, prefix, v4, v6 | done].
Qed.

Lemma getSessionAndTrunkInterface_finds ec2 id region account w :
  wp (getSessionAndTrunkInterface ec2 id region account) (λ r w', w_db w' = w_db w ∧
    match r with Ok (i, trunk) => getTrunkENI i = Some trunk | _ => True end) w.
Proof.
  eapply wp_mono; [apply (observes_quiet (λ _, True) _ (λ x, getTrunkENI x.1 = Some x.2))|].
  2: { intros [[i trunk]|e|s] w' [[Hd _] Ht]; by split. }
  unfold getSessionAndTrunkInterface. eapply observes_bind; [by apply observes_call_answer|]. intros _ _.
  eapply observes_bind; [by apply observes_GetInstance|]. intros i _. destruct (getTrunkENI i) as [trunk|] eqn:E; [by apply observes_ret|].
  eapply observes_bind; [by apply observes_GetInstance|]. intros i' _. destruct (getTrunkENI i') as [trunk|] eqn:E'; [by apply observes_ret | apply observes_throw].
Qed.

Lemma AssignIPV2_spec ec2 req w :
  schema_ok (w_db w) →
  wp (AssignIPV2 ec2 req) (λ r w', match r with
    | Ok resp => answered ec2 req (w_db w) (w_db w') (w_now w') resp
    | Fail _ => w_db w' = w_db w ∨ ∃ i trunk idx r1,
        ensured ec2 trunk (branch_account req trunk) (inst_AvailabilityZone i) idx (a2_SecurityGroupIds req) (w_db w) r1 (w_db w')
    | Panic _ => True
    end) w.
Proof.
  intros Hs. unfold AssignIPV2. destruct (a2_InstanceIdentity req) as [[[id region] account]|]; [|by apply wp_panic].
  destruct (a2_NetworkInterfaceAttachment req) as [idx|] eqn:Eidx; [|by apply wp_panic].
  apply wp_bind. eapply wp_mono; [apply getSessionAndTrunkInterface_finds|]. intros [[i trunk]|e|s] w1 [Hd1 Ht]; [|by left|done].
  fold (branch_account req trunk). cbv zeta. apply wp_bind. rewrite <- Hd1 in Hs. eapply wp_mono; [by apply ensureBranchENIAttached_attaches|].
  intros [branch|e|s] w2 He; [| |done]; rewrite Hd1 in He; [|right; by exists i, trunk, idx, (Fail e)].
  pose proof He as (_ & Hok & Hat & _). apply wp_bind, wp_wrap, wp_call.
  2: { intros e. right. by exists i, trunk, idx, (Ok branch). }
  intros _ _. set (w3 := set_calls _ w2). eapply wp_mono; [by apply (assign_on_branch ec2 req i trunk branch idx w3)|].
  intros [resp|e|s] w4 Hr; [| |done]; simpl in Hr; [|right; exists i, trunk, idx, (Ok branch); by rewrite Hr].
  destruct Hr as (Hok4 & Hn & Hatt & Hnoted & eni & prefix & v4 & v6 & Hdesc & H4 & H6 & ->). split; simpl in *; [done|by rewrite Hn|].
  exists i, trunk, branch, (w_db w2), eni, prefix. split_and!; try done. destruct Hat as (a & Ha & ?). exists a. by rewrite Hatt.
Qed.

(** ** Claims *)


Lemma noted_not_used_before d ip t timeout :
  schema_ok d → allocated_at d ip = Some t → timeout ≤ t → ¬ used_before timeout d ip.
Proof.
  intros Hs Ha Ht. constraint_of Hs "ip_last_used_pk" C. unfold allocated_at, used_row in Ha.
  destruct (List.find _ _) as [r|] eqn:E; [|done]. simpl in Ha. apply List.find_some in E as [Hr%list_elem_of_In Hip%bool_decide_eq_true].
  intros [(row & Hrow & Hip' & _ & Hlt)|[Hn _]].
  - assert (row = r) as -> by (apply (unique_key ul_ip_address _ _ _ C); [done|done|congruence]). rewrite Ha in Hlt. simpl in Hlt. lia.
  - apply Hn, list_elem_of_fmap. by exists r.
Qed.

(** The call takes the address from the ENI. *)
Definition unassigns (ip : string) (ev : event) : Prop :=
  match ev_call ev with UnassignPrivateIps _ ips | UnassignIpv6s _ ips => ip ∈ ips | _ => False end.

(** [GCV2] and an address whose allocation was noted less than the time-out ago *)
Lemma GCV2_spares_noted ec2 gcTimeout gcreq ip t w :
  schema_ok (w_db w) → allocated_at (w_db w) ip = Some t → w_now w ≤ t + gcTimeout →
  wp (GCV2 ec2 gcTimeout gcreq) (λ r w',
    (∃ es, w_calls w' = w_calls w ++ es ∧ Forall (λ ev, ¬ unassigns ip ev) es) ∧
    match r with
    | Ok l => ip ∈ l → ∃ iface, is_described ec2 (g2_NetworkInterfaceAttachment_Id gcreq) iface ∧ ip ∉ assigned iface
    | _ => True
    end) w.
Proof.
  intros Hs Ha Ht. assert (∀ iface, ¬ may_unassign gcTimeout gcreq (w_db w) (w_now w) iface ip) as Hno.
  { intros iface [_ _ _ Hu]. apply (noted_not_used_before (w_db w) ip t (w_now w - gcTimeout)); [done|done|lia|done]. }
  eapply wp_mono; [apply GCV2_spec|]. intros r w' ((es & Hes & Hall) & _ & Hr). split.
  - exists es. split; [done|]. eapply Forall_impl; [exact Hall|]. intros [A c] Hc. unfold unassigns, gc2_asks in *. simpl in *.
    destruct c; try (by intros []); destruct Hc as (_ & iface & _ & Hc); intros Hip; by destruct (Hno iface), (Hc ip Hip).
  - destruct r as [l|e|s]; [|done|done]. intros Hip. destruct Hr as [(iface & Hiface & _ & Hl) _]. exists iface. split; [done|].
    apply Hl in Hip as [[_ ?]|Hm]; [done | by destruct (Hno iface)].
Qed.

(** C15: An address that [AssignIPV2] picked is safe from [GCV2] for as long as the time-out of the collection: as long as the record of
    the allocation is there, a collection that starts before then, for whatever ENI and with whatever the agent says of the address, asks EC2 to unassign
    other addresses only, and tells the agent to forget it only when EC2 does not have it on the ENI. *)
Theorem AssignIPV2_protects ec2 req w :
  schema_ok (w_db w) →
  wp (AssignIPV2 ec2 req) (λ r w', match r with
    | Ok resp => ∀ ip ec2' gcTimeout gcreq w1,
        ip ∈ picked_v4 req (r2_Ipv4Address resp) ++ picked_v6 (r2_Ipv6Address resp) →
        schema_ok (w_db w1) → allocated_at (w_db w1) ip = allocated_at (w_db w') ip → w_now w1 ≤ w_now w' + gcTimeout →
        wp (GCV2 ec2' gcTimeout gcreq) (λ r w2,
          (∃ es, w_calls w2 = w_calls w1 ++ es ∧ Forall (λ ev, ¬ unassigns ip ev) es) ∧
          match r with
          | Ok l => ip ∈ l → ∃ iface, is_described ec2' (g2_NetworkInterfaceAttachment_Id gcreq) iface ∧ ip ∉ assigned iface
          | _ => True
          end) w1
    | _ => True
    end) w.
Proof.
  intros Hs. eapply wp_mono; [by apply AssignIPV2_spec|]. intros [resp|e|s] w' Hr; [|done|done]. intros ip ec2' gcTimeout gcreq w1 Hip Hs1 Ha Ht.
  destruct Hr as [_ Hnoted _]. eapply GCV2_spares_noted; [done|rewrite Ha; by apply Hnoted|done].
Qed.
