(* ===== verification/InternalApis.v ===== *)
(** * InternalApis: the calls operators make

    Models [vpc/service/internal_apis.go]: associating, disassociating and
    detaching branch ENIs by hand, and describing a trunk ENI.  What happens to the
    attachments is done by [BranchEni]; here are the transactions around it and the
    requests that are refused. *)
From S2P Require Import Prelude Errors Schema Service Logic TxLogic BranchEni GenerateAssignment AssignV3 ExcessBranches TrunkEnis.

Open Scope string_scope.
Open Scope Z_scope.
Open Scope list_scope.

(** The oneof [TrunkNetworkInterfaceIdentifier]; an identity may be nil. *)
Inductive trunk_identifier :=
| ByInstanceIdentity (identity : option (string * string * string))
| ByTrunkENI (eni : string)
| NoIdentifier.

Definition branch_with_region (eni : string) (d : db) : option (option string * branch_eni_row) :=
  (λ b, (region_of_branch b d, b)) <$> head (where_ (branch_named eni) (branch_enis d)).

(** [err == sql.ErrNoRows] becomes a status of its own. *)
Definition not_found_or {A} (what msg : string) (m : M A) : M A :=
  r ← try m;
  match r with
  | inl ENoRows => throw (EStatus NotFound (what +:+ " not found in database"))
  | inl e => throw (EWrap msg e)
  | inr a => mret a
  end.

Record TrunkENI := MkTrunkENI {
  dt_Id : string;
  dt_AccountId : string;
  dt_Az : string;
  dt_SubnetId : string;
  dt_VpcId : string;
  dt_Region : string
}.

(** [branchENI.CreatedAt] is set from [last_assigned_to]; the column [modified_at] is not modelled. *)
Record TrunkNetworkInterfaceAssociation := MkTrunkNetworkInterfaceAssociation {
  ta_AssociationId : string;
  ta_VlanId : Z;
  ta_BranchENI : string;
  ta_AccountId : string;
  ta_CreatedAt : Z;
  ta_SubnetId : string;
  ta_VpcId : string;
  ta_LastAssignedTo : Z;
  ta_SecurityGroupIds : list string
}.

Section WithEC2.
Context (ec2 : ec2_oracle).

(** A persistent error commits what was written so far; the commit's own error is only logged. *)
Definition commit_if_persistent {A} (h : tx) (m : M A) : M A :=
  r ← try m;
  match r with
  | inl e =>
      _ ← (if IsPersistentError e then _ ← try (Commit h); mret tt else mret tt);
      throw e
  | inr a => mret a
  end.

Definition doAssociateTrunkNetworkInterface (trunk branch : string) (vlanID : Z) : M string :=
  if vlanID =? 0 then throw (EStatus Unimplemented "Automatic vlan selection is currently not implemented (one must be specified)")
  else
    with_tx (wrap "Cannot start database transaction" BeginTx) (λ h,
      x ← not_found_or "branch ENI" "Could not query branch ENI"
            (x ← queryRow h (branch_with_region branch);
             region ← scan x.1;
             mret (region, x.2));
      let '(branchENIRegion, b) := x : string * branch_eni_row in
      t ← not_found_or "trunk ENI" "Could not query trunk ENI" (queryRow h (λ d, head (where_ (is_trunk trunk) (trunk_enis d))));
      _ ← wrap "Could not get EC2 session for branch ENI" (GetSessionFromAccountAndRegion ec2 (be_account_id b) branchENIRegion);
      _ ← wrap "Could not get EC2 session for trunk ENI" (GetSessionFromAccountAndRegion ec2 (te_account_id t) (te_region t));
      _ ← ensureBranchENIPermissionV3 ec2 h (te_account_id t) (be_account_id b) branch;
      associationID ← commit_if_persistent h
        (associateNetworkInterface ec2 h true (Association branch trunk) vlanID);
      _ ← wrap "Could not commit transaction" (Commit h);
      mret associationID).

Definition trunk_of_identity (identity : option (string * string * string)) : M string :=
  match identity with
  | None => throw (EStatus InvalidArgument "instance id must be specified")
  | Some (instanceID, region, account) =>
      x ← getSessionAndTrunkInterface ec2 instanceID region account;
      mret (in_NetworkInterfaceId (x : instance * instance_eni).2)
  end.

(** [int(req.VlanId)] *)
Definition AssociateTrunkNetworkInterface (id : trunk_identifier) (branchENI : string) (vlanId : Z) : M string :=
  if bool_decide (branchENI = "") then throw (EStatus InvalidArgument "Branch ENI must be specified")
  else match id with
  | ByInstanceIdentity identity =>
      trunk ← trunk_of_identity identity;
      doAssociateTrunkNetworkInterface trunk branchENI vlanId
  | ByTrunkENI trunk => doAssociateTrunkNetworkInterface trunk branchENI vlanId
  | NoIdentifier => throw (EStatus InvalidArgument "Could not determine trunk ENI")
  end.

(** The session is nil. *)
Definition doDisassociateTrunkNetworkInterface (associationID : string) (force : bool) : M unit :=
  if bool_decide (associationID = "") then throw (EStatus InvalidArgument "associationID must be specified")
  else
    with_tx (wrap "Cannot start database transaction" BeginTx) (λ h,
      _ ← commit_if_persistent h (disassociateNetworkInterface ec2 h false associationID force);
      _ ← wrap "Could not commit transaction" (Commit h);
      mret tt).

(** The oneof [Key] of the request. *)
Definition DisassociateTrunkNetworkInterface (key : option string) (force : bool) : M unit :=
  match key with
  | Some associationID => doDisassociateTrunkNetworkInterface associationID force
  | None => throw (EStatus InvalidArgument "Could not determine associationID")
  end.

(** [FROM branch_eni_attachments JOIN branch_enis ON .. WHERE trunk_eni = $1] *)
Definition described_attachments (eni : string) (d : db) : list (attachment * branch_eni_row) :=
  where_ (λ x, on_trunk eni x.1)
    (join (branch_eni_attachments d) (branch_enis d) (λ a b, bool_decide (at_branch_eni a = be_branch_eni b))).

Definition described (assoc : string) (a : attachment) (b : branch_eni_row) : TrunkNetworkInterfaceAssociation :=
  let lastAssignedTo := default 0 (be_last_assigned_to b) in
  MkTrunkNetworkInterfaceAssociation assoc (at_idx a) (be_branch_eni b) (be_account_id b) lastAssignedTo (be_subnet_id b)
    (be_vpc_id b) lastAssignedTo (be_security_groups b).

(** [rows.Scan] into a string fails for a NULL [association_id]. *)
Fixpoint scan_associations (rows : list (attachment * branch_eni_row)) : M (list TrunkNetworkInterfaceAssociation) :=
  match rows with
  | [] => mret []
  | (a, b) :: rows =>
      assoc ← wrap "Cannot scan database row for branch ENI" (scan (at_association_id a));
      rest ← scan_associations rows;
      mret (described assoc a b :: rest)
  end.

Definition doDescribeTrunkNetworkInterface (eni : string) : M (TrunkENI * list TrunkNetworkInterfaceAssociation) :=
  with_tx (wrap "Cannot start database transaction" BeginTx) (λ h,
    t ← not_found_or "trunk ENI" "Could not query database for trunk ENI"
          (queryRow h (λ d, head (where_ (is_trunk eni) (trunk_enis d))));
    rows ← wrap "Could not query database for branch ENIs" (query h (described_attachments eni));
    associations ← scan_associations rows;
    _ ← wrap "Could not commit transaction" (Commit h);
    mret (MkTrunkENI eni (te_account_id t) (te_az t) (te_subnet_id t) (te_vpc_id t) (te_region t), associations)).

Definition DescribeTrunkNetworkInterface (id : trunk_identifier) : M (TrunkENI * list TrunkNetworkInterfaceAssociation) :=
  match id with
  | ByInstanceIdentity identity =>
      trunk ← trunk_of_identity identity;
      doDescribeTrunkNetworkInterface trunk
  | ByTrunkENI trunk => doDescribeTrunkNetworkInterface trunk
  | NoIdentifier => throw (EStatus InvalidArgument "Could not determine trunk ENI")
  end.

(** [VlanId: uint64(attachmentIdx)] *)
Definition doDetachBranchNetworkInterface (trunkENI : string) : M (Z * string * string) :=
  with_tx (wrap "Cannot start database transaction" BeginTx) (λ h,
    x ← commit_if_persistent h (detachBranchENI ec2 h true trunkENI);
    _ ← wrap "Could not commit transaction" (Commit h);
    mret (x : Z * string * string)).

Definition DetachBranchNetworkInterface (id : trunk_identifier) : M (Z * string * string) :=
  match id with
  | ByInstanceIdentity identity =>
      trunk ← trunk_of_identity identity;
      doDetachBranchNetworkInterface trunk
  | _ => throw (EStatus InvalidArgument "Could not determine trunk ENI")
  end.
End WithEC2.

(** ** Associating by hand *)

Definition never_ok {A} (m : M A) : Prop := ∀ w a, (m w).1 ≠ Ok a.

Lemma never_ok_bind_l {A B} (m : M A) (f : A → M B) : never_ok m → never_ok (m ≫= f).
Proof. intros Hm w b. unfold mbind, M_bind. specialize (Hm w). destruct (m w) as [[a|e|s] w']; [by destruct (Hm a)|done..]. Qed.

Lemma never_ok_bind_r {A B} (m : M A) (f : A → M B) : (∀ a, never_ok (f a)) → never_ok (m ≫= f).
Proof. intros Hf w b. unfold mbind, M_bind. destruct (m w) as [[a|e|s] w']; [apply Hf|done..]. Qed.

Lemma never_ok_with_tx {A} begin (body : tx → M A) : (∀ h, never_ok (body h)) → never_ok (with_tx begin body).
Proof. intros Hb. apply never_ok_bind_r. intros h w a. specialize (Hb h w a). unfold act. by destruct (body h w). Qed.

Lemma never_ok_commit_if_persistent {A} h (m : M A) : never_ok m → never_ok (commit_if_persistent h m).
Proof.
  intros Hm w a. unfold commit_if_persistent, try, mbind, M_bind. specialize (Hm w).
  destruct (m w) as [[a'|e|s] w']; [by destruct (Hm a')| |done].
  destruct (IsPersistentError e); simpl; [|done]. by destruct (Commit h w') as [[]].
Qed.

(** [startAssociation] gets no transaction. *)
Lemma associateNetworkInterface_panics ec2 h session assoc idx w :
  (associateNetworkInterface ec2 h session assoc idx w).1 = Panic "nil pointer dereference".
Proof. done. Qed.

(** ** Transactions around the state machine *)

Lemma machine_refl w : machine_sane w → machine_evolves w w.
Proof. apply (evolves_refl _ _). Qed.

Lemma machine_trans w1 w2 w3 : machine_evolves w1 w2 → machine_evolves w2 w3 → machine_evolves w1 w3.
Proof. apply (evolves_trans _ _). Qed.

(** The code between [BeginTx] and [Commit] keeps the state machine, writes nothing about
    attachments in this transaction, and establishes [Q], which is about attachments. *)
Lemma wp_persistent_section {A B} msg msg' (m : tx → M A) (f : A → B) (Q : B → db → Prop) w :
  machine_sane w →
  (∀ h w1, machine_evolves w w1 → w_db w1 = w_db w → w_txs w1 !! h = Some (Some id) →
     wp (m h) (λ r w', machine_evolves w1 w' ∧
       match r with Ok a => quiet_tx h w' ∧ Q (f a) (w_db w') | Fail _ => True | Panic _ => False end) w1) →
  (∀ b d d', branch_eni_attachments d' = branch_eni_attachments d → Q b d → Q b d') →
  wp (with_tx (wrap msg BeginTx) (λ h, x ← commit_if_persistent h (m h); _ ← wrap msg' (Commit h); mret (f x)))
    (λ r w', machine_evolves w w' ∧ match r with Ok a => Q a (w_db w') | Fail _ => True | Panic _ => False end) w.
Proof.
  intros Hw Hm HQ. apply wp_with_tx, wp_wrap, wp_BeginTx; cycle 1.
  { intros e fs Hfs. split; [|done]. apply (evolves_faults _ _); [by apply machine_refl|lia]. }
  intros fs Hfs. fold (begun fs w). set (h := w_next_tx w).
  assert (machine_evolves w (begun fs w)) as Hev by by apply (evolves_begun _ _).
  apply wp_bind, wp_bind, wp_try. eapply wp_mono; [apply (Hm h); [done|done|apply lookup_insert_eq]|].
  intros [a|e|s] w1 [Hev1 H]; [| |done]; (assert (machine_evolves w w1) as Hev1' by by eapply machine_trans).
  - destruct H as [Hq HQa]. apply wp_ret, wp_bind, wp_wrap.
    eapply wp_mono; [apply wp_conj; [apply (wp_Commit_sane attachments_evolve attachments_wf), Hev1|apply wp_Commit_any]|].
    intros [[]|e|s] w2 [(Hev2 & _ & _ & Hp) H2]; [| |done];
      (split; [by apply (evolves_close _ _); eapply machine_trans|]); [|done].
    destruct H2 as (g & Hg & Hd & _). eapply HQ; [|exact HQa]. simpl. rewrite Hd. by apply (Hq g).
  - destruct (IsPersistentError e); apply wp_bind; [|apply wp_ret, wp_throw; split; [by apply (evolves_close _ _)|done]].
    apply wp_bind, wp_try. eapply wp_mono; [apply (wp_Commit_sane attachments_evolve attachments_wf), Hev1|].
    intros [[]|e'|s] w2 (Hev2 & _ & _ & Hp); [| |done]; apply wp_ret, wp_throw;
      (split; [by apply (evolves_close _ _); eapply machine_trans|done]).
Qed.

Lemma id_quiet h w : w_txs w !! h = Some (Some id) → quiet_tx h w.
Proof. intros Hh g Hg d. rewrite Hh in Hg. by injection Hg as <-. Qed.

Lemma sequel_not_found_or {A} h d X what msg (m : M A) K : sequel h d X m K → sequel h d X (not_found_or what msg m) K.
Proof.
  intros Hm. eapply sequel_bind; [by apply sequel_try|]. intros [e|a] X' HK; [destruct e; apply sequel_throw | by apply sequel_ret].
Qed.

Lemma sequel_scan_associations h d X rows :
  sequel h d X (scan_associations rows) (λ l X', X' = X ∧
    Forall2 (λ x y, ∃ assoc, at_association_id x.1 = Some assoc ∧ y = described assoc x.1 x.2) rows l).
Proof.
  induction rows as [|[a b] rows IH]; simpl; [by apply sequel_ret|].
  eapply sequel_bind; [apply sequel_wrap, sequel_scan|]. intros assoc ? [-> Ha].
  eapply sequel_bind; [exact IH|]. intros l ? [-> Hl]. apply sequel_ret. split; [done|]. constructor; [|done]. by exists assoc.
Qed.

Section Internal.
Context (ec2 : ec2_oracle).

(** A call that associates a branch ENI by hand never answers with an association: it is refused,
    fails, or panics. *)
Theorem AssociateTrunkNetworkInterface_never_succeeds id branchENI vlanId w assoc :
  (AssociateTrunkNetworkInterface ec2 id branchENI vlanId w).1 ≠ Ok assoc.
Proof.
  assert (∀ trunk, never_ok (doAssociateTrunkNetworkInterface ec2 trunk branchENI vlanId)) as Hdo.
  { intros trunk. unfold doAssociateTrunkNetworkInterface. destruct (vlanId =? 0); [by intros ? ?|].
    apply never_ok_with_tx. intros h. apply never_ok_bind_r. intros [region b]. do 4 (apply never_ok_bind_r; intros).
    apply never_ok_bind_l, never_ok_commit_if_persistent. intros w' a'. by rewrite associateNetworkInterface_panics. }
  revert w assoc. change (never_ok (AssociateTrunkNetworkInterface ec2 id branchENI vlanId)).
  unfold AssociateTrunkNetworkInterface. case_bool_decide; [by intros ? ?|].
  destruct id; [by apply never_ok_bind_r | done | by intros ? ?].
Qed.

(** Disassociating by hand does not panic, keeps every attachment within its state machine, and
    after success the association is no longer attached or was found in use. *)
Theorem DisassociateTrunkNetworkInterface_detaches assoc force w r w' :
  machine_sane w → DisassociateTrunkNetworkInterface ec2 (Some assoc) force w = (r, w') →
  attachments_evolve (w_db w) (w_db w') ∧ attachments_wf (w_db w') ∧
  match r with Ok _ => detached assoc (w_db w') | Fail _ => True | Panic _ => False end.
Proof.
  intros Hw E. cut (wp (DisassociateTrunkNetworkInterface ec2 (Some assoc) force) (λ r w', machine_evolves w w' ∧
    match r with Ok _ => detached assoc (w_db w') | Fail _ => True | Panic _ => False end) w).
  { intros H. destruct (wp_elim _ _ _ _ _ H E) as [[? [] ? ?] ?]. done. }
  simpl. unfold doDisassociateTrunkNetworkInterface. case_bool_decide; [apply wp_throw; split; [by apply machine_refl|done]|].
  apply (wp_persistent_section _ _ (λ h, disassociateNetworkInterface ec2 h false assoc force) (λ _, tt) (λ _, detached assoc));
    [done| |intros _; apply detached_frame].
  intros h w1 Hev Hd Hh. pose proof (ev_sane _ _ _ _ Hev) as Hs. pose proof (id_quiet h w1 Hh) as Hq.
  eapply wp_mono; [apply wp_conj; [apply (disassociateNetworkInterface_ok ec2 h false assoc force w1 Hs Hq)
    | apply (disassociate_detaches ec2 h false assoc force w1 Hs Hq)]|].
  intros [[]|e|s] w2 [(Hev2 & Hq2 & ?) Hdet]; (split; [done|]); auto.
Qed.

(** Detaching by hand does not panic, keeps every attachment within its state machine, and when it
    succeeds it answers with an attachment of the trunk ENI that no assignment used. *)
Theorem DetachBranchNetworkInterface_unused identity w r w' :
  machine_sane w → DetachBranchNetworkInterface ec2 (ByInstanceIdentity identity) w = (r, w') →
  attachments_evolve (w_db w) (w_db w') ∧ attachments_wf (w_db w') ∧
  match r with
  | Ok (idx, branch, assoc) => ∃ trunk a, a ∈ detach_candidates trunk (w_db w) ∧ at_idx a = idx ∧
                                 at_branch_eni a = branch ∧ at_association_id a = Some assoc
  | Fail _ => True
  | Panic _ => False
  end.
Proof.
  intros Hw E. set (Q := λ (x : Z * string * string) (d' : db), let '(idx, branch, assoc) := x in
    ∃ trunk a, a ∈ detach_candidates trunk (w_db w) ∧ at_idx a = idx ∧ at_branch_eni a = branch ∧ at_association_id a = Some assoc).
  cut (wp (DetachBranchNetworkInterface ec2 (ByInstanceIdentity identity)) (λ r w', machine_evolves w w' ∧
    match r with Ok x => Q x (w_db w') | Fail _ => True | Panic _ => False end) w).
  { intros H. destruct (wp_elim _ _ _ _ _ H E) as [[? [] ? ?] ?]. done. }
  apply wp_bind. unfold trunk_of_identity. destruct identity as [[[id region] account]|]; cycle 1.
  { apply wp_throw. split; [by apply machine_refl|done]. }
  apply wp_bind. eapply wp_mono; [apply (getSessionAndTrunkInterface_calls ec2)|].
  intros [x|e|s] w1 [[cs ->] ?]; [apply wp_ret| |done]; cycle 1.
  { split; [by apply (evolves_calls _ _), machine_refl|done]. }
  assert (machine_evolves w (set_calls cs w)) as Hev0 by by apply (evolves_calls _ _), machine_refl.
  eapply wp_mono; [apply (wp_persistent_section _ _ (λ h, detachBranchENI ec2 h true (in_NetworkInterfaceId x.2)) (λ x, x) Q);
    [apply Hev0| |done]|].
  - intros h w1 Hev Hd Hh. eapply wp_mono; [apply (detachBranchENI_ok ec2 h true); [apply Hev | by apply id_quiet]|].
    intros [[[idx branch] assoc]|e|s] w2 [Hev2 H2]; (split; [done|]); [|done|done].
    destruct H2 as [Hq2 (g & a & Hg & Ha & H2)]. split; [done|]. rewrite Hh in Hg. injection Hg as <-.
    exists (in_NetworkInterfaceId x.2), a. rewrite Hd in Ha. done.
  - intros r2 w2 [Hev2 H2]. split; [by eapply machine_trans | done].
Qed.

(** Describing a trunk ENI changes nothing, and when it succeeds it lists every attachment of the
    trunk, the detached ones included, each with its association: it fails while one has none. *)
Theorem doDescribeTrunkNetworkInterface_lists eni w :
  wp (doDescribeTrunkNetworkInterface eni) (λ r w', w_db w' = w_db w ∧
    match r with
    | Ok (t, l) =>
        (∃ row, row ∈ trunk_enis (w_db w) ∧ te_trunk_eni row = eni ∧
           t = MkTrunkENI eni (te_account_id row) (te_az row) (te_subnet_id row) (te_vpc_id row) (te_region row)) ∧
        Forall2 (λ x y, ∃ assoc, at_association_id x.1 = Some assoc ∧ y = described assoc x.1 x.2)
          (described_attachments eni (w_db w)) l
    | Fail _ => True
    | Panic _ => False
    end) w.
Proof.
  apply (wp_with_tx_ends _ _ (λ r d', d' = w_db w ∧ match r with
    | Ok (t, l) =>
        (∃ row, row ∈ trunk_enis (w_db w) ∧ te_trunk_eni row = eni ∧
           t = MkTrunkENI eni (te_account_id row) (te_az row) (te_subnet_id row) (te_vpc_id row) (te_region row)) ∧
        Forall2 (λ x y, ∃ assoc, at_association_id x.1 = Some assoc ∧ y = described assoc x.1 x.2)
          (described_attachments eni (w_db w)) l
    | Fail _ => True
    | Panic _ => False
    end)); [apply wp_BeginTx_wrap|done|]. intros h. set (d := w_db w).
  eapply ends_bind; [apply sequel_not_found_or, sequel_queryRow|done|]. intros t X [-> Ht].
  ends_step. destruct K as [-> ->]. eapply ends_bind; [apply sequel_scan_associations|done|]. intros l X [-> Hl].
  apply ends_commit; [done|]. intros w1 Hd1 _. apply wp_ret. split; [done|]. split; [|done].
  exists t. apply head_where in Ht as [Hin Ht%bool_decide_eq_true]. by rewrite Ht.
Qed.
End Internal.
