(* ===== verification/Reconcile.v ===== *)
(** * Reconcile: comparing the database with EC2

    Models [vpc/service/reconcile_branch_enis.go], [reconcile_branch_eni_attachments.go]
    and [reconcile_trunk_enis.go]: background tasks that ask EC2 for all ENIs (or
    associations) of an account in a region, check each against the database, and
    then look at the rows EC2 did not mention.

    The workers that check branch ENIs run concurrently with the pages that arrive;
    the model checks the ENIs of a page before it asks for the next one.  [fuel]
    bounds the number of pages EC2 answers with. *)
From S2P Require Import Prelude Errors Schema Service Logic TxLogic BranchEni GenerateAssignment AssignV3 ExcessBranches GcV3 TrunkEnis.

Open Scope string_scope.
Open Scope Z_scope.
Open Scope list_scope.

Record regionAccount := RegionAccount { ra_region : string; ra_accountID : string }.

(** ** Statements on branch ENIs *)

Definition update_branch (eni : string) (f : branch_eni_row → branch_eni_row) (d : db) : db :=
  set_branch_enis (update_where (branch_named eni) f (branch_enis d)) d.

(** [SET mac = $1 .. AND mac IS NULL] *)
Definition fill_mac (mac : string) (b : branch_eni_row) : branch_eni_row :=
  BranchEniRow (be_branch_eni b) (be_account_id b) (be_subnet_id b) (be_az b) (be_vpc_id b) (be_security_groups b)
    (be_dirty_security_groups b) (Some (default mac (be_mac b))) (be_last_assigned_to b) (be_created_at b).

(** [SET security_groups = $1, dirty_security_groups = true] *)
Definition take_groups (groups : list string) (b : branch_eni_row) : branch_eni_row :=
  BranchEniRow (be_branch_eni b) (be_account_id b) (be_subnet_id b) (be_az b) (be_vpc_id b) groups true (be_mac b)
    (be_last_assigned_to b) (be_created_at b).

(** [SET dirty_security_groups = true] *)
Definition mark_dirty (b : branch_eni_row) : branch_eni_row := take_groups (be_security_groups b) b.

(** [sets.NewString(a...).Equal(sets.NewString(b...))] *)
Definition same_set (a b : list string) : bool :=
  forallb (λ x, bool_decide (x ∈ b)) a && forallb (λ x, bool_decide (x ∈ a)) b.

(** The region of the zone is a subquery, which may be NULL. *)
Definition orphaned_branches (account : regionAccount) (enis : list string) (d : db) : list string :=
  be_branch_eni <$> where_ (λ b, bool_decide (region_of_branch b d = Some (ra_region account)) &&
                                 bool_decide (be_account_id b = ra_accountID account) &&
                                 negb (bool_decide (be_branch_eni b ∈ enis))) (branch_enis d).

Definition active_attachment (eni : string) (d : db) : option attachment :=
  head (where_ (λ a, bool_decide (at_branch_eni a = eni) && active (at_state a)) (branch_eni_attachments d)).

Definition assignments_on (assoc : string) (d : db) : list string :=
  as_assignment_id <$> where_ (λ r, bool_decide (as_association r = assoc)) (assignments d).

(** ** Statements on trunk ENIs and attachments *)

Definition orphaned_trunks (account : regionAccount) (enis : list string) (d : db) : list string :=
  te_trunk_eni <$> where_ (λ t, negb (bool_decide (te_trunk_eni t ∈ enis)) && bool_decide (te_region t = ra_region account) &&
                                bool_decide (te_account_id t = ra_accountID account)) (trunk_enis d).

(** [association_id != all($3)] is not true for NULL. *)
Definition orphaned_attachments (accountID region : string) (ids : list string) (d : db) : list string :=
  x ← join (branch_eni_attachments d) (trunk_enis d) (λ a t, bool_decide (at_trunk_eni a = te_trunk_eni t));
  z ← where_ (λ z, bool_decide (te_account_id x.2 = az_account_id z) && bool_decide (te_az x.2 = az_zone_name z)) (availability_zones d);
  assoc ← option_list (at_association_id x.1);
  if bool_decide (te_account_id x.2 = accountID) && bool_decide (az_region z = region) &&
     negb (bool_decide (assoc ∈ ids)) && (bool_decide (at_state x.1 = attaching) || bool_decide (at_state x.1 = attached))
  then [assoc] else [].

(** [UPDATE branch_eni_attachments SET state = 'unattached' WHERE association_id = $1] *)
Definition force_unattached (assoc : string) (d : db) : db :=
  set_branch_eni_attachments (update_where (has_association assoc) mark_unattached (branch_eni_attachments d)) d.

(** [row.Scan] checks the number of destinations. *)
Definition scan_columns {A} (columns destinations : nat) (a : A) : M A :=
  if (columns =? destinations)%nat then mret a
  else throw (EString ("sql: expected " +:+ pretty columns +:+ " destination arguments in Scan, not " +:+ pretty destinations)).

Section WithEC2.
Context (ec2 : ec2_oracle) (branchDescription trunkDescription : string).

(** [session.DescribeNetworkInterfaces] with the filters of both tasks *)
Definition session_DescribeNetworkInterfaces (description account : string) (token : option string)
    : M (list network_interface * option string) :=
  session_call ec2 "Cannot describe network interfaces" (DescribeNetworkInterfacesByDescription description account token).

(** ** Branch ENIs *)

Definition reconcileOrphanedBranchENI (eni : string) : M unit :=
  eniExists ← handle "Could not find out if branch ENI exists" (doesENIExist ec2 eni branchDescription);
  if eniExists : bool then mret tt
  else
    with_tx (wrap "Could not start database transaction" BeginTx) (λ h,
      _ ← wrap "Could not delete branch ENI from database" (exec h (remove_branch_eni eni));
      _ ← wrap "Could commit transaction" (Commit h);
      mret tt).

Definition getDatabaseOrphanedBranchENIs (account : regionAccount) (enis : list string) : M (list string) :=
  with_tx (wrap "Could not start database transaction" BeginTx) (λ h,
    l ← wrap "Could not query for orphaned branch ENIs" (query h (orphaned_branches account enis));
    _ ← wrap "Could commit transaction" (Commit h);
    mret (remove_dups l)).

(** Marks that the groups differ, and reads the assignments for the log. *)
Definition checkDifferentGroups (h : tx) (eni : string) (b : branch_eni_row) : M (option bool) :=
  let rest :=
    or_retry (o ← queryRowOpt h (active_attachment eni);
              match o with
              | None => mret None
              | Some a => assoc ← scan (at_association_id a); mret (Some assoc)
              end) (EWrap "Cannot query state of branchENI") (λ o,
    or_retry (match o with None => mret [] | Some assoc => query h (assignments_on assoc) end)
      (EWrap "Cannot fetch current assignments on branch ENI") (λ _,
    or_retry (Commit h) (EWrap "Cannot commit current transaction") (λ _, mret (Some false)))) in
  if be_dirty_security_groups b then rest
  else or_retry (exec h (update_branch eni mark_dirty)) (EWrap "Cannot mark current security groups as dirty") (λ _, rest).

(** Whether the ENI is to be checked again. *)
Definition reconcileBranchENI (ni : network_interface) : M bool :=
  let branch := NetworkInterfaceId ni in
  let groups := sort_Strings (ni_Groups ni) in
  retrying
    (with_tx (wrap "Could not start database transaction" beginSerializableTx) (λ h,
       or_retry (queryRowOpt h (λ d, head (where_ (branch_named branch) (branch_enis d)))) (EWrap "Could not scan row") (λ o,
       match o with
       | None => or_retry (Commit h) (EWrap "Could not commit transaction") (λ _, mret (Some true))
       | Some b =>
           or_retry (exec h (update_branch branch (fill_mac (ni_MacAddress ni))))
             (EWrap "Cannot update branch ENI MAC address") (λ _,
           match be_security_groups b with
           | [] =>
               _ ← wrap "Could not update security groups in database" (exec h (update_branch branch (take_groups groups)));
               or_retry (Commit h) (EWrap "Cannot commit transaction") (λ _, mret (Some false))
           | _ =>
               if same_set (be_security_groups b) groups
               then or_retry (Commit h) (EWrap "Cannot commit transaction") (λ _, mret (Some false))
               else checkDifferentGroups h branch b
           end)
       end))).

Definition reconcileBranchENIMissingInDatabase (ni : network_interface) : M unit :=
  count ← retrying
    (with_tx (wrap "Unable to start serializable transaction" BeginTx) (λ h,
       or_retry (query h (λ d, count_where (branch_named (NetworkInterfaceId ni)) (branch_enis d)))
         (EWrap "Cannot query count of branch ENIs") (λ n,
       or_retry (Commit h) (EWrap "Cannot not commit read-only transaction to reconcile missing ENI in database") (λ _,
         mret (Some n)))));
  if (count =? 1)%nat then mret tt
  else if bool_decide (ni_Status ni = inUse)
  then throw (EString "Wanted to delete interface from EC2, but describe call says it is in use")
  else
    r ← try (session_DeleteNetworkInterface ec2 (NetworkInterfaceId ni));
    match r with
    | inr _ => mret tt
    | inl e =>
        match RetrieveEC2Error e with
        | Some a => if bool_decide (aws_Code a = InvalidNetworkInterfaceIDNotFound) then mret tt else throw (HandleEC2Error e)
        | None => throw (EWrap "Received 'generic' (non-AWS) error" e)
        end
    end.

(** Runs [f] on every element; errors are only logged. *)
Fixpoint for_each {A} (f : A → M unit) (l : list A) : M unit :=
  match l with
  | [] => mret tt
  | a :: l =>
      _ ← try (f a);
      for_each f l
  end.

(** The ENIs to check again. *)
Fixpoint check_branches (l : list network_interface) : M (list network_interface) :=
  match l with
  | [] => mret []
  | ni :: l =>
      r ← try (reconcileBranchENI ni);
      rest ← check_branches l;
      mret (match r with inr true => ni :: rest | _ => rest end)
  end.

(** The names of all ENIs and the ENIs to check again. *)
Fixpoint describe_branches (fuel : nat) (account : string) (token : option string)
    : M (list string * list network_interface) :=
  match fuel with
  | O => throw (ECtx true)
  | S n =>
      r ← try (session_DescribeNetworkInterfaces branchDescription account token);
      match r with
      | inl e => throw (HandleEC2Error e)
      | inr (page, next) =>
          recheck ← check_branches page;
          let enis := NetworkInterfaceId <$> page in
          match next with
          | None => mret (enis, recheck)
          | Some _ =>
              x ← describe_branches n account next;
              mret (enis ++ (x : list string * list network_interface).1, recheck ++ x.2)
          end
      end
  end.

Definition reconcileBranchENIsForRegionAccount (fuel : nat) (account : regionAccount) : M unit :=
  _ ← GetSessionFromAccountAndRegion ec2 (ra_accountID account) (ra_region account);
  x ← describe_branches fuel (ra_accountID account) None;
  let '(enis, recheck) := x : list string * list network_interface in
  _ ← wrap "Unable to check network interfaces" fault_point;
  orphans ← getDatabaseOrphanedBranchENIs account enis;
  orphans ← shuffle orphans;
  _ ← for_each reconcileOrphanedBranchENI orphans;
  match recheck with
  | [] => mret tt
  | _ =>
      _ ← fault_point;
      for_each reconcileBranchENIMissingInDatabase recheck
  end.

(** ** Attachments *)

Definition reconcileBranchENIAttachment (associationID : string) : M unit :=
  with_tx (wrap "Could not start database transaction" BeginTx) (λ h,
    r ← try (queryRow h (λ d, head (where_ (has_association associationID) (branch_eni_attachments d))));
    match r with
    | inl ENoRows => throw (EWrap "Could not reconcile eni attachment not found in database" ENoRows)
    | inl e => throw (EWrap "Could not scan branch ENI attachment row" e)
    | inr _ =>
        _ ← wrap "Could not commit transaction" (Commit h);
        mret tt
    end).

(** Five columns are scanned into six variables.  [awsErr.Code()] of no AWS error is a nil dereference. *)
Definition reconcileOrphanedBranchENIAttachment (associationID : string) : M unit :=
  with_tx (wrap "Could not start database transaction" BeginTx) (λ h,
    r ← try (a ← queryRow h (λ d, head (where_ (has_association associationID) (branch_eni_attachments d)));
             scan_columns 5 6 a);
    match r with
    | inl ENoRows => mret tt
    | inl e => throw (EWrap "Cannot query database for branch ENI attachment" e)
    | inr a =>
        match at_association_token a with
        | None => throw (EString "Association token unset, unable to reconcile")
        | Some token =>
            r ← (if bool_decide (at_state a = attaching) || bool_decide (at_state a = attached)
                 then try (session_AssociateTrunkInterface ec2 (at_trunk_eni a) (at_branch_eni a) token (at_idx a))
                 else go_panic "nil pointer dereference");
            match r with
            | inr _ => mret tt
            | inl e =>
                match RetrieveEC2Error e with
                | None => go_panic "nil pointer dereference"
                | Some awsErr =>
                    if bool_decide (aws_Code awsErr = "IdempotentParameterMismatch") then
                      _ ← exec h (force_unattached associationID);
                      _ ← try (Commit h);
                      mret tt
                    else throw e
                end
            end
        end
    end).

(** The arguments for the account and the region are swapped. *)
Definition getDatabaseOrphanedBranchENIAttachments (account : regionAccount) (ids : list string) : M (list string) :=
  with_tx (wrap "Could not start database transaction" BeginTx) (λ h,
    l ← wrap "Could not query for orphaned branch ENI attachments"
          (query h (orphaned_attachments (ra_region account) (ra_accountID account) ids));
    _ ← wrap "Could commit transaction" (Commit h);
    mret (remove_dups l)).

Fixpoint describe_associations (fuel : nat) (token : option string) : M (list string) :=
  match fuel with
  | O => throw (ECtx true)
  | S n =>
      r ← try (session_call ec2 "Cannot describe trunk interface associations" (DescribeTrunkInterfaceAssociations token));
      match r with
      | inl e => throw (HandleEC2Error e)
      | inr (page, None) => mret page
      | inr (page, next) =>
          rest ← describe_associations n next;
          mret (page ++ rest)
      end
  end.

Definition reconcileBranchAttachmentsENIsForRegionAccount (fuel : nat) (account : regionAccount) : M unit :=
  _ ← wrap "Could not get EC2 sesssion" (GetSessionFromAccountAndRegion ec2 (ra_accountID account) (ra_region account));
  associations ← describe_associations fuel None;
  _ ← for_each reconcileBranchENIAttachment associations;
  orphans ← wrap "Unable to get orphaned branch ENI attachments" (getDatabaseOrphanedBranchENIAttachments account associations);
  orphans ← shuffle orphans;
  for_each reconcileOrphanedBranchENIAttachment orphans.

Definition getBranchENIRegionAccounts : M (list regionAccount) :=
  with_tx BeginTx (λ h,
    l ← query h (λ d, x ← subnets_azs (λ _, true) d;
                      b ← where_ (λ b, bool_decide (be_subnet_id b = sn_subnet_id x.1)) (branch_enis d);
                      [(az_region x.2, be_account_id b)]);
    _ ← wrap "Cannot commit transaction" (Commit h);
    mret ((λ x, RegionAccount x.1 x.2) <$> remove_dups l)).

(** ** Trunk ENIs *)

Definition reconcileAttachedTrunkENI (ni : network_interface) (a : interface_attachment) : M unit :=
  _ ← (if nia_DeleteOnTermination a
       then wrap "Cannot turn delete on terminate off"
              (session_Modify ec2 (ModifyNetworkInterfaceDeleteOnTermination (NetworkInterfaceId ni) (nia_AttachmentId a) false))
       else mret tt);
  with_tx (wrap "Could not start database transaction" BeginTx) (λ h,
    _ ← wrap "Cannot update trunk enis" (insertTrunkENIIntoDB h ni 0);
    _ ← wrap "Cannot commit transaction" (Commit h);
    mret tt).

(** The error of the deletion is only logged. *)
Definition reconcileUnattachedTrunkENI (ni : network_interface) : M unit :=
  x ← wrap "Cannot get network interface tombstone" (getTrunkNetworkInterfaceTombstone (NetworkInterfaceId ni));
  if negb (x : bool * option Z).1
  then wrap "Could not delete dangling trunk interface" (session_DeleteNetworkInterface ec2 (NetworkInterfaceId ni))
  else
    _ ← try (deleteTrunkInterface ec2 (NetworkInterfaceId ni));
    mret tt.

Definition getDatabaseOrphanedTrunkENIs (account : regionAccount) (enis : list string) : M (list string) :=
  with_tx (wrap "Could not start database transaction" BeginTx) (λ h,
    l ← wrap "Could not query for orphaned trunk ENIs" (query h (orphaned_trunks account enis));
    _ ← wrap "Could commit transaction" (Commit h);
    mret (remove_dups l)).

Definition reconcileOrphanedTrunkENI (eni : string) : M unit :=
  x ← wrap "Could not get tombstone for network interface" (getTrunkNetworkInterfaceTombstone eni);
  match x : bool * option Z with
  | (false, _) => throw (EString "Oprhaned ENI could not be found in the database")
  | (true, Some _) => wrap "Could not hard delete ENI" (hardDeleteTrunkInterface eni)
  | (true, None) =>
      eniExists ← handle "Could not find out if branch ENI exists" (doesENIExist ec2 eni trunkDescription);
      if eniExists : bool then mret tt
      else handle "Could not hard delete ENI" (hardDeleteTrunkInterface eni)
  end.

(** When the look-up fails, the set is nil and has no elements. *)
Definition reconcileTrunkENIsForRegionAccountInDatabase (account : regionAccount) (enis : list string) : M unit :=
  match enis with
  | [] => mret tt
  | _ =>
      r ← try (getDatabaseOrphanedTrunkENIs account enis);
      orphans ← shuffle (match r with inr l => l | inl _ => [] end);
      for_each reconcileOrphanedTrunkENI orphans
  end.

Fixpoint describe_trunks (fuel : nat) (account : string) (token : option string) : M (list network_interface) :=
  match fuel with
  | O => throw (ECtx true)
  | S n =>
      x ← wrap "Cannot describe network interfaces" (session_DescribeNetworkInterfaces trunkDescription account token);
      match (x : list network_interface * option string).2 with
      | None => mret x.1
      | next =>
          rest ← describe_trunks n account next;
          mret (x.1 ++ rest)
      end
  end.

Definition reconcileTrunkENI (ni : network_interface) : M unit :=
  match ni_Attachment ni with
  | Some a => reconcileAttachedTrunkENI ni a
  | None => reconcileUnattachedTrunkENI ni
  end.

Definition reconcileTrunkENIsForRegionAccount (fuel : nat) (account : regionAccount) : M unit :=
  _ ← GetSessionFromAccountAndRegion ec2 (ra_accountID account) (ra_region account);
  networkInterfaces ← describe_trunks fuel (ra_accountID account) None;
  _ ← for_each reconcileTrunkENI networkInterfaces;
  reconcileTrunkENIsForRegionAccountInDatabase account (NetworkInterfaceId <$> networkInterfaces).
End WithEC2.

(** ** Lists *)

Lemma where_update_where {A} (p q : A → bool) f l :
  (∀ x, p (f x) = p x) → where_ p (update_where q f l) = update_where q f (where_ p l).
Proof.
  intros Hf. induction l as [|a l IH]; [done|]. simpl in *. rewrite IH. destruct (q a) eqn:Eq; rewrite ?Hf.
  - destruct (p a); [|done]. simpl. by rewrite Eq.
  - destruct (p a); [|done]. simpl. by rewrite Eq.
Qed.

Lemma where_where_disjoint {A} (p q : A → bool) l : (∀ x, p x = true → q x = true) → where_ p (where_ q l) = where_ p l.
Proof.
  intros H. induction l as [|a l IH]; [done|]. simpl. destruct (q a) eqn:Eq; simpl; [by rewrite IH|].
  destruct (p a) eqn:Ep; [|done]. apply H in Ep. congruence.
Qed.

Lemma head_update_where {A} (q : A → bool) f l : head (update_where q f l) = (λ r, if q r then f r else r) <$> head l.
Proof. by destruct l. Qed.

(** ** Trunk ENIs that are in use *)

Definition live (eni : string) (d : db) : Prop := tombstone_of eni d = Some None.

Lemma tombstone_of_hard_deleted eni x d : x ≠ eni → tombstone_of x (hard_deleted eni d) = tombstone_of x d.
Proof.
  intros Hx. unfold tombstone_of. simpl. rewrite where_where_disjoint; [done|].
  intros t Ht%bool_decide_eq_true. apply negb_true_iff, bool_decide_eq_false. congruence.
Qed.

Lemma attachments_hard_deleted eni a d :
  a ∈ branch_eni_attachments d → at_trunk_eni a ≠ eni → a ∈ branch_eni_attachments (hard_deleted eni d).
Proof. intros Ha Hne. apply elem_of_where. split; [done|]. by apply negb_true_iff, bool_decide_eq_false. Qed.

Lemma tombstone_of_set_tombstone eni t x d : x ≠ eni → tombstone_of x (set_tombstone eni t d) = tombstone_of x d.
Proof.
  intros Hx. unfold tombstone_of. simpl. rewrite where_update_where by done. rewrite head_update_where.
  destruct (head (where_ (is_trunk x) (trunk_enis d))) as [r|] eqn:E; [|done]. simpl.
  apply head_where in E as [_ E%bool_decide_eq_true]. unfold is_trunk. by rewrite bool_decide_eq_false_2 by congruence.
Qed.

Lemma live_upsert id ni generation x d : live x d → live x (upsert_trunk id ni generation d d).
Proof.
  unfold live, tombstone_of, upsert_trunk. intros Hx. destruct (existsb _ _); simpl.
  - rewrite where_update_where by done. rewrite head_update_where.
    destruct (head (where_ (is_trunk x) (trunk_enis d))) as [r|]; [|done]. simpl in *. destruct (is_trunk _ r); [done|]. done.
  - unfold where_ in *. rewrite List.filter_app. by destruct (List.filter (is_trunk x) (trunk_enis d)).
Qed.

Section MovesMore.
Context (S : relation (db * list event)) `{!PreOrder S}.

Lemma moves_for_each {A} (f : A → M unit) l : (∀ a, moves S (f a)) → moves S (for_each f l).
Proof.
  intros Hf. induction l as [|a l IH]; simpl; [by apply moves_ret|].
  apply moves_bind; [apply _ | by apply moves_try | done].
Qed.

Lemma moves_handle {A} msg (m : M A) : moves S m → moves S (handle msg m).
Proof. intros Hm w. apply wp_handle. eapply wp_mono; [apply Hm|]. by intros [a|e|s] w1. Qed.

(** Code that only reads. *)
Lemma moves_quiet {A} (m : M A) : keeps_calls m → (∀ w, wp m (λ _ w', w_db w' = w_db w) w) → moves S m.
Proof. intros Hc Hm. apply (moves_db _ _ (λ d d', d' = d)); [done|done|]. by intros d d' cs ->. Qed.

Lemma moves_BeginTx : moves S BeginTx.
Proof. intros w. apply wp_BeginTx; by intros. Qed.

Lemma moves_queryRow {A} h (f : db → option A) : moves S (queryRow h f).
Proof.
  apply moves_quiet; [auto with keeps_calls|]. intros w. unfold wp, queryRow, query, mbind, M_bind, tx_view, fault_point, throw, mret, M_ret.
  destruct (w_txs w !! h) as [[g|]|]; [|done|done]. destruct (w_faults w) as [|[]]; simpl; by repeat case_match; simplify_eq/=.
Qed.

Lemma moves_with_tx {A} begin (body : tx → M A) : moves S begin → (∀ h, moves S (body h)) → moves S (with_tx begin body).
Proof.
  intros Hb Hbody w. apply wp_with_tx. eapply wp_mono; [apply Hb|]. intros [h|e|s] w1 H1; [|done|done].
  eapply wp_mono; [apply Hbody|]. intros r w2 H2. by etrans.
Qed.
End MovesMore.

Section TrunkSafety.
Context (ec2 : ec2_oracle) (trunkDescription : string).

(** EC2 was asked to delete the ENI, or said that it does not know it. *)
Definition gone_in_ec2 (description eni : string) (cs : list event) : Prop :=
  Event (DeleteNetworkInterface eni) ∈ cs ∨
  ∃ cs0 cs1, cs = cs0 ++ Event (ModifyNetworkInterfaceDescription eni description) :: cs1 ∧
             not_found ec2 cs0 (ModifyNetworkInterfaceDescription eni description).

Lemma gone_in_ec2_app description eni cs es : gone_in_ec2 description eni cs → gone_in_ec2 description eni (cs ++ es).
Proof.
  intros [H|(cs0 & cs1 & -> & H)]; [left; apply elem_of_app; by left|]. right. exists cs0, (cs1 ++ es).
  by rewrite <- app_assoc.
Qed.

(** A trunk ENI without tombstone stays known, with its attachments, unless it is gone in EC2. *)
Definition trunks_kept (x y : db * list event) : Prop :=
  (∃ es, y.2 = x.2 ++ es) ∧
  ∀ eni, live eni x.1 →
    (live eni y.1 ∧ ∀ a, a ∈ branch_eni_attachments x.1 → at_trunk_eni a = eni → a ∈ branch_eni_attachments y.1) ∨
    gone_in_ec2 trunkDescription eni y.2.

#[local] Instance trunks_kept_preorder : PreOrder trunks_kept.
Proof.
  split; [intros x; split; [exists []; by rewrite app_nil_r | auto]|].
  intros x y z [[es Hes] H1] [[es' Hes'] H2]. split; [exists (es ++ es'); by rewrite Hes', Hes, app_assoc|].
  intros eni Hl. destruct (H1 eni Hl) as [[Hl1 Ha1]|Hg]; [|right; rewrite Hes'; by apply gone_in_ec2_app].
  destruct (H2 eni Hl1) as [[Hl2 Ha2]|Hg]; [|by right]. left. split; [done|]. eauto.
Qed.

Lemma trunks_kept_frame d d' cs es :
  (∀ x, live x d → live x d') → (∀ a, a ∈ branch_eni_attachments d → a ∈ branch_eni_attachments d') →
  trunks_kept (d, cs) (d', cs ++ es).
Proof. intros Hl Ha. split; [by eexists|]. intros eni H. left. split; auto. Qed.

(** All that changed is about one trunk ENI. *)
Lemma trunks_kept_but eni d d' cs es :
  (∀ x, x ≠ eni → tombstone_of x d' = tombstone_of x d) →
  (∀ a, a ∈ branch_eni_attachments d → at_trunk_eni a ≠ eni → a ∈ branch_eni_attachments d') →
  (live eni d → gone_in_ec2 trunkDescription eni (cs ++ es)) → trunks_kept (d, cs) (d', cs ++ es).
Proof.
  intros Ht Ha Hg. split; [by eexists|]. intros x Hx. destruct (decide (x = eni)) as [->|Hne]; [right; by apply Hg|].
  left. unfold live. simpl in *. rewrite Ht by done. split; [done|]. intros a Hin <-. by apply Ha.
Qed.

Lemma trunks_kept_hard_deleted eni d d1 cs es :
  (d1 = d ∨ ∃ t, d1 = set_tombstone eni t d) → (live eni d → gone_in_ec2 trunkDescription eni (cs ++ es)) →
  trunks_kept (d, cs) (hard_deleted eni d1, cs ++ es).
Proof.
  intros Hd1. apply trunks_kept_but.
  - intros x Hx. rewrite tombstone_of_hard_deleted by done.
    destruct Hd1 as [->|[t ->]]; [done | by apply tombstone_of_set_tombstone].
  - intros a Ha. apply attachments_hard_deleted. by destruct Hd1 as [->|[t ->]].
Qed.

Lemma trunks_kept_hard_deleted_now eni d cs :
  (live eni d → gone_in_ec2 trunkDescription eni cs) → trunks_kept (d, cs) (hard_deleted eni d, cs).
Proof.
  intros Hg. rewrite <- (app_nil_r cs) at 2. apply trunks_kept_hard_deleted; [by left|]. by rewrite app_nil_r.
Qed.

Abbreviation moves := (moves trunks_kept).

Lemma moves_some_call {A : Set} (c : ec2_call A) : moves (call ec2 c).
Proof. apply moves_call. intros d cs. by apply trunks_kept_frame. Qed.

Lemma deleteTrunkInterface_moves eni : moves (deleteTrunkInterface ec2 eni).
Proof.
  intros w. eapply wp_mono; [apply deleteTrunkInterface_spec|]. unfold seen.
  assert (gone_in_ec2 trunkDescription eni (w_calls w ++ [Event (DeleteNetworkInterface eni)])) as Hgone.
  { left. apply elem_of_app. right. by left. }
  intros r w' [Hnone Hc Hd|d1 Hd1 _ Hc Hd|e Hc Hd|e Hc (t & _ & Hd)]; rewrite Hc.
  - rewrite Hd. apply trunks_kept_hard_deleted_now. unfold live. congruence.
  - rewrite Hd. apply trunks_kept_hard_deleted; [|done]. destruct Hd1 as (t & _ & [->|[_ ->]]); eauto.
  - by rewrite Hd.
  - apply (trunks_kept_but eni); [| |done]; destruct Hd as [->|[_ ->]]; try done.
    intros x Hx. by apply tombstone_of_set_tombstone.
Qed.

Lemma reconcileUnattachedTrunkENI_moves ni : moves (reconcileUnattachedTrunkENI ec2 ni).
Proof.
  apply moves_bind; [apply _| |].
  - apply moves_wrap, (moves_db _ _ (λ d d', d' = d)); [apply keeps_calls_getTombstone| |by intros d d' cs ->].
    intros w. eapply wp_mono; [apply getTrunkNetworkInterfaceTombstone_spec|]. by intros r w' [].
  - intros [x tomb]. destruct x; simpl.
    + apply moves_bind; [apply _|by apply moves_try, deleteTrunkInterface_moves|]. intros. apply moves_ret, _.
    + apply moves_wrap, moves_wrap, moves_some_call.
Qed.

Lemma keeps_calls_insertTrunk h ni generation : keeps_calls (insertTrunkENIIntoDB h ni generation).
Proof. unfold insertTrunkENIIntoDB. keeps_calls_walk. Qed.

Lemma reconcileAttachedTrunkENI_moves ni a : moves (reconcileAttachedTrunkENI ec2 ni a).
Proof.
  apply moves_bind; [apply _| |].
  - destruct (nia_DeleteOnTermination a); [apply moves_wrap, moves_wrap, moves_some_call | apply moves_ret, _].
  - intros _. apply (moves_db _ _ (λ d d', d' = d ∨ ∃ id, d' = upsert_trunk id ni 0 d d)).
    + keeps_calls_walk. apply keeps_calls_insertTrunk.
    + intros w. apply (wp_with_tx_ends _ _ (λ _ d', d' = w_db w ∨ ∃ id, d' = upsert_trunk id ni 0 (w_db w) (w_db w)));
        [apply wp_BeginTx_wrap|by left|]. intros h. unfold insertTrunkENIIntoDB.
      eapply (ends_bind _ _ _ _ _ (λ _ X', ∃ id, X' = upsert_trunk id ni 0 (w_db w) (w_db w))); [|by left|].
      { apply sequel_wrap. ends_step. subst. eapply sequel_mono; [apply sequel_exec_at|]. intros ? ? (-> & _). eauto. }
      intros _ X [id ->]. apply ends_commit; [by left|]. intros w1 Hd1 _. apply wp_ret. rewrite Hd1. eauto.
    + intros d d' cs Hd. rewrite <- (app_nil_r cs) at 2. apply trunks_kept_frame.
      * intros x Hx. destruct Hd as [->|[id ->]]; [done | by apply live_upsert].
      * intros b Hb. destruct Hd as [->|[id ->]]; [done|]. unfold upsert_trunk. by destruct (existsb _ _).
Qed.

Lemma hardDelete_moves eni w :
  (live eni (w_db w) → gone_in_ec2 trunkDescription eni (w_calls w)) →
  wp (hardDeleteTrunkInterface eni) (λ _ w', trunks_kept (seen w) (seen w')) w.
Proof.
  intros Hg. eapply wp_mono; [apply wp_keeps_calls; [apply keeps_calls_hardDelete | apply hardDeleteTrunkInterface_spec]|].
  intros r w' [Hd Hc]. unfold seen. rewrite Hc. destruct r; [|by rewrite Hd|done]. rewrite Hd.
  by apply trunks_kept_hard_deleted_now.
Qed.

Lemma reconcileOrphanedTrunkENI_moves eni : moves (reconcileOrphanedTrunkENI ec2 trunkDescription eni).
Proof.
  intros w. apply wp_bind, wp_wrap. eapply wp_mono; [apply wp_keeps_calls;
    [apply keeps_calls_getTombstone | apply getTrunkNetworkInterfaceTombstone_spec]|].
  assert (∀ w1, w_db w1 = w_db w → w_calls w1 = w_calls w → trunks_kept (seen w) (seen w1)) as Hsame.
  { intros w1 Hd Hc. unfold seen. by rewrite Hd, Hc. }
  intros [[x tomb]|e|s] w1 [[Hd Ht] Hc]; [|by apply Hsame|done].
  assert (seen w1 = seen w) as Hseen by (unfold seen; congruence).
  destruct x; [destruct tomb as [t|]|].
  - apply wp_wrap. eapply wp_mono; [apply hardDelete_moves; rewrite Hd; unfold live; congruence|].
    rewrite Hseen. by intros [] w2.
  - apply wp_bind, wp_handle. eapply wp_mono; [apply doesENIExist_spec|]. intros r w2 (Hd2 & Hc2 & Hr).
    assert (trunks_kept (seen w) (seen w2)) as H12.
    { unfold seen. rewrite Hd2, Hc2, Hd, Hc. by apply trunks_kept_frame. }
    destruct r as [[]|e|s]; [by apply wp_ret| |done|done]. apply wp_handle.
    eapply wp_mono; [apply hardDelete_moves|].
    { intros _. right. exists (w_calls w1), []. by rewrite Hc2. }
    intros [] w3 H3; by etrans.
  - apply wp_throw. by apply Hsame.
Qed.

Lemma describe_trunks_moves fuel account token : moves (describe_trunks ec2 trunkDescription fuel account token).
Proof.
  revert token. induction fuel as [|n IH]; intros token; simpl; [apply moves_throw, _|].
  apply moves_bind; [apply _|apply moves_wrap, moves_wrap, moves_some_call|].
  intros [page [next|]]; simpl; [|apply moves_ret, _]. apply moves_bind; [apply _|done|]. intros. apply moves_ret, _.
Qed.

Lemma reconcileInDatabase_moves account enis :
  moves (reconcileTrunkENIsForRegionAccountInDatabase ec2 trunkDescription account enis).
Proof.
  unfold reconcileTrunkENIsForRegionAccountInDatabase. destruct enis; [apply moves_ret, _|].
  apply moves_bind; [apply _| |].
  - apply moves_try, (moves_db _ _ (λ d d', d' = d)); [unfold getDatabaseOrphanedTrunkENIs; keeps_calls_walk| |by intros d d' cs ->].
    intros w. apply (wp_with_tx_ends _ _ (λ _ d', d' = w_db w)); [apply wp_BeginTx_wrap|done|]. intros h. ends_step.
    destruct K as [-> _]. apply ends_commit; [done|]. intros w1 Hd1 _. by apply wp_ret.
  - intros r0. apply moves_bind; [apply _|apply moves_shuffle, _|]. intros l. apply moves_for_each; [apply _|]. apply reconcileOrphanedTrunkENI_moves.
Qed.

(** C12: Whatever fails while trunk ENIs are reconciled, one that has no tombstone stays known to the
    service, without tombstone and with all its attachments, unless EC2 was asked to delete it or has
    said that it does not know it. *)
Theorem reconcileTrunkENIs_keeps fuel account w :
  wp (reconcileTrunkENIsForRegionAccount ec2 trunkDescription fuel account) (λ _ w', trunks_kept (seen w) (seen w')) w.
Proof.
  revert w. apply moves_bind; [apply _|apply moves_some_call|]. intros _.
  apply moves_bind; [apply _|apply describe_trunks_moves|]. intros l. apply moves_bind; [apply _| |].
  - apply moves_for_each; [apply _|]. intros ni. unfold reconcileTrunkENI.
    destruct (ni_Attachment ni); [apply reconcileAttachedTrunkENI_moves | apply reconcileUnattachedTrunkENI_moves].
  - intros _. apply reconcileInDatabase_moves.
Qed.
End TrunkSafety.

(** ** One branch ENI *)

(** What the row of the ENI becomes; [b] is the row that was read. *)
Definition reconciled (ni : network_interface) (b r : branch_eni_row) : branch_eni_row :=
  let r := fill_mac (ni_MacAddress ni) r in
  let groups := sort_Strings (ni_Groups ni) in
  match be_security_groups b with
  | [] => take_groups groups r
  | _ => if same_set (be_security_groups b) groups || be_dirty_security_groups b then r else mark_dirty r
  end.

Lemma update_branch_twice eni f g d :
  (∀ b, be_branch_eni (f b) = be_branch_eni b) → update_branch eni g (update_branch eni f d) = update_branch eni (λ b, g (f b)) d.
Proof.
  intros Hf. unfold update_branch, update_where, set_branch_enis. simpl. f_equal. rewrite <- list_fmap_compose.
  apply list_fmap_ext. intros i b _. simpl.
  assert (branch_named eni (f b) = branch_named eni b) as Hn by (unfold branch_named; by rewrite Hf).
  destruct (branch_named eni b) eqn:E; by rewrite ?Hn, ?E.
Qed.

Lemma update_branch_ext eni f g d : (∀ b, f b = g b) → update_branch eni f d = update_branch eni g d.
Proof.
  intros H. unfold update_branch, update_where. f_equal. apply list_fmap_ext. intros i b _. by rewrite H.
Qed.

Lemma update_branch_id eni d : update_branch eni (λ b, b) d = d.
Proof.
  assert (update_where (branch_named eni) (λ b, b) (branch_enis d) = branch_enis d) as H.
  { unfold update_where. rewrite <- (list_fmap_id (branch_enis d)) at 2. apply list_fmap_ext. intros i b _.
    by destruct (branch_named eni b). }
  unfold update_branch. rewrite H. by destruct d.
Qed.

Definition branch_row (eni : string) (d : db) : option branch_eni_row := head (where_ (branch_named eni) (branch_enis d)).

Lemma checkDifferentGroups_ends h d X eni b (Q : res error (option bool) → db → Prop) :
  (∀ e, Q (Fail e) d) → Q (Ok None) d →
  Q (Ok (Some false)) (if be_dirty_security_groups b then X else update_branch eni mark_dirty X) →
  ends h d X (checkDifferentGroups h eni b) Q.
Proof.
  intros He Hn HQ. unfold checkDifferentGroups.
  assert (∀ X', Q (Ok (Some false)) X' → ends h d X'
    (or_retry (o ← queryRowOpt h (active_attachment eni);
              match o with
              | None => mret None
              | Some a => assoc ← scan (at_association_id a); mret (Some assoc)
              end) (EWrap "Cannot query state of branchENI") (λ o,
    or_retry (match o with None => mret [] | Some assoc => query h (assignments_on assoc) end)
      (EWrap "Cannot fetch current assignments on branch ENI") (λ _,
    or_retry (Commit h) (EWrap "Cannot commit current transaction") (λ _, mret (Some false))))) Q) as Hrest.
  { intros X' HX'. eapply (ends_or_retry _ _ _ _ _ _ (λ _ X2, X2 = X')); [|done|done|].
    - ends_step. destruct K as [-> _]. destruct a; [|by apply sequel_ret].
      eapply sequel_bind; [apply sequel_scan|]. intros ? ? [-> _]. by apply sequel_ret.
    - intros o X2 ->. eapply (ends_or_retry _ _ _ _ _ _ (λ _ X2, X2 = X')); [|done|done|].
      + destruct o; [eapply sequel_mono; [apply sequel_query|]; naive_solver | by apply sequel_ret].
      + intros l X2 ->. by apply ends_or_commit. }
  destruct (be_dirty_security_groups b); [by apply Hrest|].
  eapply ends_or_retry; [apply sequel_exec|done|done|]. intros _ X' [-> _]. by apply Hrest.
Qed.

Lemma reconcileBranchENI_spec ni w :
  wp (reconcileBranchENI ni) (λ r w',
    match r with
    | Ok true => w_db w' = w_db w ∧ branch_row (NetworkInterfaceId ni) (w_db w) = None
    | Ok false => ∃ b, branch_row (NetworkInterfaceId ni) (w_db w) = Some b ∧
                       w_db w' = update_branch (NetworkInterfaceId ni) (reconciled ni b) (w_db w)
    | _ => w_db w' = w_db w
    end) w.
Proof.
  apply (wp_retrying_ends _ _ (λ r d',
    match r with
    | Ok true => d' = w_db w ∧ branch_row (NetworkInterfaceId ni) (w_db w) = None
    | Ok false => ∃ b, branch_row (NetworkInterfaceId ni) (w_db w) = Some b ∧
                       d' = update_branch (NetworkInterfaceId ni) (reconciled ni b) (w_db w)
    | _ => d' = w_db w
    end)); [apply wp_beginSerializableTx_wrap|done|done|].
  intros h. set (d := w_db w). set (eni := NetworkInterfaceId ni).
  apply ends_or_retry_queryRowOpt; [done|done| | |].
  - intros b Hb. eapply ends_or_retry; [apply sequel_exec|done|done|]. intros _ X [-> _].
    assert (∀ g d', (∀ r, reconciled ni b r = g (fill_mac (ni_MacAddress ni) r)) →
      d' = update_branch eni g (update_branch eni (fill_mac (ni_MacAddress ni)) d) →
      ∃ b, branch_row eni d = Some b ∧ d' = update_branch eni (reconciled ni b) d) as Hdone.
    { intros g d' Hg ->. exists b. split; [done|]. rewrite update_branch_twice by done. by apply update_branch_ext. }
    unfold reconciled in Hdone. destruct (be_security_groups b) as [|sg sgs] eqn:Eg.
    + eapply ends_bind; [apply sequel_wrap, sequel_exec|done|]. intros _ X [-> _].
      apply ends_or_commit; [done|done|]. by eapply Hdone.
    + destruct (same_set (sg :: sgs) (sort_Strings (ni_Groups ni))) eqn:Es.
      * apply ends_or_commit; [done|done|]. by apply (Hdone (λ r, r)); [|by rewrite update_branch_id].
      * apply checkDifferentGroups_ends; [done|done|]. destruct (be_dirty_security_groups b) eqn:Ed; [|by eapply (Hdone mark_dirty)].
        by apply (Hdone (λ r, r)); [|by rewrite update_branch_id].
  - intros Hb. by apply ends_or_commit.
  - intros w1 Hw1. eapply wp_or_commit_aborted; [exact Hw1|]. by intros [[]|e|s] w2.
Qed.

(** Checking a branch ENI against the database writes nothing but its own row: a missing MAC
    address is filled in, missing security groups are taken from EC2, and the groups are marked dirty
    when EC2 has others.  It asks for another check exactly when there is no row, and then, or when it
    fails, nothing is written. *)
Theorem reconcileBranchENI_row ni w r w' :
  schema_ok (w_db w) → reconcileBranchENI ni w = (r, w') →
  match r with
  | Ok true => w_db w' = w_db w ∧ NetworkInterfaceId ni ∉ be_branch_eni <$> branch_enis (w_db w)
  | Ok false => ∃ b, b ∈ branch_enis (w_db w) ∧ be_branch_eni b = NetworkInterfaceId ni ∧
      w_db w' = set_branch_enis (update_where (branch_named (NetworkInterfaceId ni)) (λ _, reconciled ni b b) (branch_enis (w_db w))) (w_db w)
  | _ => w_db w' = w_db w
  end.
Proof.
  intros Hs E. pose proof (wp_elim _ _ _ _ _ (reconcileBranchENI_spec ni w) E) as H. simpl in H.
  destruct r as [[]|e|s]; [| |done|done].
  - destruct H as [Hd Hnone]. split; [done|]. intros (b & Hname & Hb)%list_elem_of_fmap.
    assert (b ∈ where_ (branch_named (NetworkInterfaceId ni)) (branch_enis (w_db w))) as Hin.
    { apply elem_of_where. split; [done|]. by apply bool_decide_eq_true. }
    unfold branch_row in Hnone. destruct (where_ _ _); [by apply not_elem_of_nil in Hin | done].
  - destruct H as (b & Hb & Hd). apply head_where in Hb as [Hb Hname%bool_decide_eq_true]. exists b. split_and!; [done|done|].
    rewrite Hd. unfold update_branch, update_where. f_equal. apply list_fmap_ext. intros i r Hr.
    destruct (branch_named (NetworkInterfaceId ni) r) eqn:Er; [|done]. apply bool_decide_eq_true in Er. f_equal.
    constraint_of Hs "branch_enis_pkey" C. apply (unique_key be_branch_eni (branch_enis (w_db w))); [done|by eapply list_elem_of_lookup_2|done|].
    congruence.
Qed.

(** ** Branch ENIs that are in use *)

Section BranchSafety.
Context (ec2 : ec2_oracle) (branchDescription : string).

Definition branch_names (d : db) : list string := be_branch_eni <$> branch_enis d.

Definition deletes (ev : event) : option string :=
  match ev_call ev with DeleteNetworkInterface eni => Some eni | _ => None end.

(** EC2 has said that it does not know the ENI. *)
Definition unknown_to_ec2 (eni : string) (cs : list event) : Prop :=
  ∃ cs0 cs1, cs = cs0 ++ Event (ModifyNetworkInterfaceDescription eni branchDescription) :: cs1 ∧
             not_found ec2 cs0 (ModifyNetworkInterfaceDescription eni branchDescription).

Lemma unknown_to_ec2_app eni cs es : unknown_to_ec2 eni cs → unknown_to_ec2 eni (cs ++ es).
Proof. intros (cs0 & cs1 & -> & H). exists cs0, (cs1 ++ es). by rewrite <- app_assoc. Qed.

(** Rows only go away, with an ENI EC2 does not know; ENIs are only deleted in EC2 when they have no row. *)
Record branches_kept (x y : db * list event) : Prop := {
  kept_names : branch_names y.1 `sublist_of` branch_names x.1;
  kept_rows : ∀ eni, eni ∈ branch_names x.1 →
    (eni ∈ branch_names y.1 ∧ ∀ a, a ∈ branch_eni_attachments x.1 → at_branch_eni a = eni → a ∈ branch_eni_attachments y.1) ∨
    unknown_to_ec2 eni y.2;
  kept_deletes : ∃ es, y.2 = x.2 ++ es ∧
    ∀ eni, NoDup (branch_names x.1) → Some eni ∈ deletes <$> es → eni ∉ branch_names y.1;
}.

#[local] Instance branches_kept_preorder : PreOrder branches_kept.
Proof.
  split.
  - intros x. split; [done|auto|]. exists []. rewrite app_nil_r. split; [done|]. intros eni _ []%not_elem_of_nil.
  - intros x y z [N1 R1 (es & Hes & D1)] [N2 R2 (es' & Hes' & D2)]. split.
    + by etrans.
    + intros eni Hx. destruct (R1 eni Hx) as [[Hy Ha]|Hg]; [|right; rewrite Hes'; by apply unknown_to_ec2_app].
      destruct (R2 eni Hy) as [[Hz Ha']|Hg]; [|by right]. left. split; [done|]. eauto.
    + exists (es ++ es'). rewrite Hes', Hes, app_assoc. split; [done|]. intros eni Hnd Hin.
      rewrite fmap_app, elem_of_app in Hin. destruct Hin as [Hin|Hin].
      * intros Hz. apply (D1 eni Hnd Hin). eapply sublist_subseteq; [exact N2|done].
      * apply D2; [|done]. by eapply sublist_NoDup.
Qed.

Lemma branches_kept_same d d' cs es :
  branch_names d' = branch_names d → branch_eni_attachments d' = branch_eni_attachments d →
  (∀ eni, Some eni ∈ deletes <$> es → NoDup (branch_names d) → eni ∉ branch_names d) →
  branches_kept (d, cs) (d', cs ++ es).
Proof.
  intros Hn Ha Hdel. split; simpl.
  - by rewrite Hn.
  - intros eni He. left. rewrite Hn, Ha. auto.
  - exists es. split; [done|]. intros. rewrite Hn. auto.
Qed.

Abbreviation moves := (moves branches_kept).

Lemma moves_harmless {A : Set} (c : ec2_call A) : deletes (Event c) = None → moves (call ec2 c).
Proof.
  intros Hc. apply moves_call. intros d cs. apply branches_kept_same; [done|done|].
  intros eni H. simpl in H. rewrite Hc in H. by apply list_elem_of_singleton in H.
Qed.

Lemma names_update eni f d : (∀ b, be_branch_eni (f b) = be_branch_eni b) → branch_names (update_branch eni f d) = branch_names d.
Proof.
  intros Hf. unfold branch_names, update_branch, update_where. simpl. rewrite <- list_fmap_compose. apply list_fmap_ext.
  intros i b _. simpl. by destruct (branch_named eni b).
Qed.

Lemma reconciled_name ni b r : be_branch_eni (reconciled ni b r) = be_branch_eni r.
Proof. unfold reconciled. destruct (be_security_groups b); [done|]. by destruct (_ || _). Qed.

Lemma reconcileBranchENI_moves ni : moves (reconcileBranchENI ni).
Proof.
  apply (moves_db _ _ (λ d d', d' = d ∨ ∃ b, d' = update_branch (NetworkInterfaceId ni) (reconciled ni b) d)).
  - unfold reconcileBranchENI, checkDifferentGroups. keeps_calls_walk.
  - intros w. eapply wp_mono; [apply reconcileBranchENI_spec|]. intros [[]|e|s] w' H; [left; apply H| |by left|by left].
    destruct H as (b & _ & ->). right. by exists b.
  - intros d d' cs [->|[b ->]]; [done|]. rewrite <- (app_nil_r cs) at 2. apply branches_kept_same; [|done|].
    + apply names_update, reconciled_name.
    + by intros eni []%not_elem_of_nil.
Qed.

Lemma check_branches_moves l : moves (check_branches l).
Proof.
  induction l as [|ni l IH]; simpl; [apply moves_ret, _|].
  apply moves_bind; [apply _|by apply moves_try, reconcileBranchENI_moves|]. intros r.
  apply moves_bind; [apply _|done|]. intros rest. apply moves_ret, _.
Qed.

Lemma describe_branches_moves fuel account token : moves (describe_branches ec2 branchDescription fuel account token).
Proof.
  revert token. induction fuel as [|n IH]; intros token; simpl; [apply moves_throw, _|].
  apply moves_bind; [apply _|by apply moves_try, moves_wrap, moves_harmless|].
  intros [e|[page next]]; [apply moves_throw, _|]. apply moves_bind; [apply _|apply check_branches_moves|].
  intros recheck. destruct next as [next|]; [|apply moves_ret, _].
  apply moves_bind; [apply _|done|]. intros x. apply moves_ret, _.
Qed.

Lemma getOrphaned_moves account enis : moves (getDatabaseOrphanedBranchENIs account enis).
Proof.
  apply moves_quiet; [apply _|unfold getDatabaseOrphanedBranchENIs; keeps_calls_walk|].
  intros w. apply (wp_with_tx_ends _ _ (λ _ d', d' = w_db w)); [apply wp_BeginTx_wrap|done|]. intros h. ends_step.
  destruct K as [-> _]. apply ends_commit; [done|]. intros w1 Hd1 _. by apply wp_ret.
Qed.

Lemma where_sublist {A} (p : A → bool) l : where_ p l `sublist_of` l.
Proof. induction l as [|a l IH]; [done|]. simpl. by destruct (p a); constructor. Qed.

Lemma branches_kept_removed eni d cs : unknown_to_ec2 eni cs → branches_kept (d, cs) (remove_branch_eni eni d, cs).
Proof.
  intros Hg. split; simpl.
  - unfold branch_names. simpl. by apply fmap_sublist, where_sublist.
  - intros x (b & -> & Hb)%list_elem_of_fmap. destruct (decide (be_branch_eni b = eni)) as [<-|Hne]; [by right|]. left. split.
    + apply list_elem_of_fmap. exists b. split; [done|]. apply elem_of_where. split; [done|].
      by apply negb_true_iff, bool_decide_eq_false.
    + intros a Ha Hab. apply elem_of_where. split; [done|]. apply negb_true_iff, bool_decide_eq_false. congruence.
  - exists []. rewrite app_nil_r. split; [done|]. by intros x _ []%not_elem_of_nil.
Qed.

Lemma reconcileOrphanedBranchENI_moves eni : moves (reconcileOrphanedBranchENI ec2 branchDescription eni).
Proof.
  intros w. apply wp_bind, wp_handle. eapply wp_mono; [apply doesENIExist_spec|]. intros r w1 (Hd & Hc & Hr).
  assert (branches_kept (seen w) (seen w1)) as H1.
  { unfold seen. rewrite Hd, Hc. apply branches_kept_same; [done|done|]. by intros x Hx%list_elem_of_singleton. }
  destruct r as [[]|e|s]; [by apply wp_ret| |done|done].
  eapply wp_mono; [apply wp_keeps_calls; [keeps_calls_walk|]|].
  - apply (wp_with_tx_ends _ _ (λ _ d', d' = w_db w1 ∨ d' = remove_branch_eni eni (w_db w1))); [apply wp_BeginTx_wrap|by left|].
    intros h. eapply ends_bind; [apply sequel_wrap, sequel_exec|by left|]. intros _ X [-> _]. apply ends_commit; [by left|].
    intros w2 Hd2 _. apply wp_ret. rewrite Hd2. by right.
  - intros r w2 [Hd2 Hc2]. etrans; [exact H1|]. unfold seen. rewrite Hc2. destruct Hd2 as [->| ->]; [done|].
    apply branches_kept_removed. rewrite Hc. by exists (w_calls w), [].
Qed.

Lemma count_names eni d : NoDup (branch_names d) → count_where (branch_named eni) (branch_enis d) ≠ 1%nat → eni ∉ branch_names d.
Proof.
  intros Hnd Hc (b & -> & Hb)%list_elem_of_fmap. apply Hc. clear Hc. unfold branch_names in Hnd.
  apply list_elem_of_split in Hb as (l1 & l2 & Hl). rewrite Hl in Hnd |- *. rewrite fmap_app in Hnd. simpl in Hnd.
  apply NoDup_app in Hnd as (_ & H1 & [H2 _]%NoDup_cons).
  assert (∀ l, be_branch_eni b ∉ be_branch_eni <$> l → where_ (branch_named (be_branch_eni b)) l = []) as Hnone.
  { intros l Hl'. induction l as [|x l IH]; [done|]. simpl. rewrite fmap_cons, not_elem_of_cons in Hl'. destruct Hl' as [? ?].
    unfold branch_named at 1. rewrite bool_decide_eq_false_2 by congruence. auto. }
  unfold count_where, where_ in *. rewrite List.filter_app. simpl. unfold branch_named at 2. rewrite bool_decide_eq_true_2 by done.
  rewrite (Hnone l2) by done. rewrite (Hnone l1); [done|]. intros Hin. apply (H1 _ Hin). by left.
Qed.

Lemma reconcileMissing_moves ni : moves (reconcileBranchENIMissingInDatabase ec2 ni).
Proof.
  intros w. apply wp_bind. eapply wp_mono; [apply wp_keeps_calls; [keeps_calls_walk|]|].
  { apply (wp_retrying_ends _ _ (λ r d', d' = w_db w ∧
      match r with Ok n => n = count_where (branch_named (NetworkInterfaceId ni)) (branch_enis (w_db w)) | _ => True end));
      [intros; apply wp_BeginTx_wrap|done|done|].
    intros h. eapply ends_or_retry; [apply sequel_query|done|done|]. intros n X [-> ->]. by apply ends_or_commit. }
  intros r w1 [[Hd Hn] Hc].
  assert (branches_kept (seen w) (seen w1)) as H1 by (unfold seen; by rewrite Hd, Hc).
  destruct r as [n|e|s]; [|done|done]. destruct (n =? 1)%nat eqn:E; [by apply wp_ret|]. apply Nat.eqb_neq in E.
  case_bool_decide; [by apply wp_throw|].
  assert (∀ w2, w_db w2 = w_db w1 → w_calls w2 = w_calls w1 ++ [Event (DeleteNetworkInterface (NetworkInterfaceId ni))] →
    branches_kept (seen w) (seen w2)) as Hdone.
  { intros w2 Hd2 Hc2. unfold seen. rewrite Hd2, Hc2, Hd, Hc. apply branches_kept_same; [done|done|].
    intros eni [= ->]%list_elem_of_singleton Hnd. apply count_names; [done|]. by rewrite <- Hn. }
  apply wp_bind, wp_try, wp_wrap, wp_call.
  - intros a _. apply wp_ret. by apply Hdone.
  - intros e _. destruct (RetrieveEC2Error _); [case_bool_decide; [apply wp_ret | apply wp_throw] | apply wp_throw]; by apply Hdone.
Qed.

(** C10: Whatever fails while branch ENIs are reconciled, no ENI becomes known to the service, and one
    that is known stays known, with its attachments, unless EC2 has said that it does not know it.
    No ENI that the database knows is deleted in EC2. *)
Theorem reconcileBranchENIs_safe fuel account w :
  wp (reconcileBranchENIsForRegionAccount ec2 branchDescription fuel account) (λ _ w', branches_kept (seen w) (seen w')) w.
Proof.
  revert w. apply moves_bind; [apply _|by apply moves_harmless|]. intros _.
  apply moves_bind; [apply _|apply describe_branches_moves|]. intros [enis recheck].
  apply moves_bind; [apply _|by apply moves_wrap, moves_fault_point, _|]. intros _.
  apply moves_bind; [apply _|apply getOrphaned_moves|]. intros l. apply moves_bind; [apply _|apply moves_shuffle, _|]. intros orphans.
  apply moves_bind; [apply _|apply moves_for_each; [apply _|apply reconcileOrphanedBranchENI_moves]|]. intros _.
  destruct recheck; [apply moves_ret, _|]. apply moves_bind; [apply _|apply moves_fault_point, _|]. intros _.
  apply moves_for_each; [apply _|apply reconcileMissing_moves].
Qed.
End BranchSafety.

(** ** Attachments *)

Section Attachments.
Context (ec2 : ec2_oracle).

Definition asks (ev : event) : bool :=
  match ev_call ev with GetSession _ _ | DescribeTrunkInterfaceAssociations _ => true | _ => false end.

Definition only_asked (x y : db * list event) : Prop := y.1 = x.1 ∧ ∃ es, y.2 = x.2 ++ es ∧ Forall asks es.

#[local] Instance only_asked_preorder : PreOrder only_asked.
Proof.
  split; [intros x; split; [done|]; exists []; by rewrite app_nil_r|].
  intros x y z [H1 (es & E1 & F1)] [H2 (es' & E2 & F2)]. split; [congruence|]. exists (es ++ es').
  rewrite E2, E1, app_assoc. split; [done|]. by apply Forall_app.
Qed.

Lemma moves_asking {A : Set} (c : ec2_call A) : asks (Event c) → moves only_asked (call ec2 c).
Proof. intros Hc. apply moves_call. intros d cs. split; [done|]. exists [Event c]. split; [done|]. by apply Forall_singleton. Qed.

Lemma reconcileBranchENIAttachment_moves assoc : moves only_asked (reconcileBranchENIAttachment assoc).
Proof.
  apply moves_quiet; [apply _|unfold reconcileBranchENIAttachment; keeps_calls_walk|].
  intros w. apply (wp_with_tx_ends _ _ (λ _ d', d' = w_db w)); [apply wp_BeginTx_wrap|done|]. intros h.
  eapply ends_bind; [apply sequel_try, sequel_queryRow|done|]. intros [e|a] X HX; [destruct e; by apply ends_throw|].
  destruct HX as [-> _]. apply ends_commit; [done|]. intros w1 Hd1 _. by apply wp_ret.
Qed.

(** The scan never succeeds. *)
Lemma moves_scan_mismatch {A B} h (f : db → option A) (k : error + A → M B) :
  (∀ e, moves only_asked (k (inl e))) → moves only_asked (try (a ← queryRow h f; scan_columns 5 6 a) ≫= k).
Proof.
  intros Hk w. apply wp_bind, wp_try, wp_bind. eapply wp_mono; [apply (moves_queryRow only_asked)|].
  intros [a|e|s] w1 H1; [| |done].
  - apply wp_throw. eapply wp_mono; [apply Hk|]. intros r w2 H2. by etrans.
  - eapply wp_mono; [apply Hk|]. intros r w2 H2. by etrans.
Qed.

Lemma reconcileOrphanedAttachment_moves assoc : moves only_asked (reconcileOrphanedBranchENIAttachment ec2 assoc).
Proof.
  apply moves_with_tx; [apply _|apply moves_wrap, moves_BeginTx, _|]. intros h. apply moves_scan_mismatch.
  intros e. destruct e; try apply moves_throw, _. apply moves_ret, _.
Qed.

Lemma describe_associations_moves fuel token : moves only_asked (describe_associations ec2 fuel token).
Proof.
  revert token. induction fuel as [|n IH]; intros token; simpl; [apply moves_throw, _|].
  apply moves_bind; [apply _|by apply moves_try, moves_wrap, moves_asking|].
  intros [e|[page [next|]]]; [apply moves_throw, _| |apply moves_ret, _].
  apply moves_bind; [apply _|done|]. intros x. apply moves_ret, _.
Qed.

(** Reconciling the attachments changes neither the database nor EC2: the row of an attachment
    EC2 does not know can never be scanned, so that it is neither associated again nor marked unattached. *)
Theorem reconcileAttachments_changes_nothing fuel account w :
  wp (reconcileBranchAttachmentsENIsForRegionAccount ec2 fuel account) (λ _ w',
    w_db w' = w_db w ∧ ∃ es, w_calls w' = w_calls w ++ es ∧ Forall asks es) w.
Proof.
  revert w. change (moves only_asked (reconcileBranchAttachmentsENIsForRegionAccount ec2 fuel account)).
  apply moves_bind; [apply _|by apply moves_wrap, moves_asking|]. intros _.
  apply moves_bind; [apply _|apply describe_associations_moves|]. intros l.
  apply moves_bind; [apply _|apply moves_for_each; [apply _|apply reconcileBranchENIAttachment_moves]|]. intros _.
  apply moves_bind; [apply _| |].
  - apply moves_wrap, moves_quiet; [apply _|unfold getDatabaseOrphanedBranchENIAttachments; keeps_calls_walk|].
    intros w. apply (wp_with_tx_ends _ _ (λ _ d', d' = w_db w)); [apply wp_BeginTx_wrap|done|]. intros h. ends_step.
    destruct K as [-> _]. apply ends_commit; [done|]. intros w1 Hd1 _. by apply wp_ret.
  - intros l'. apply moves_bind; [apply _|apply moves_shuffle, _|]. intros orphans.
    apply moves_for_each; [apply _|apply reconcileOrphanedAttachment_moves].
Qed.
End Attachments.
