(* ===== verification/ScheduledTasks.v ===== *)
(** * ScheduledTasks: the periodic tasks and what they copy from EC2

    Models [vpc/service/scheduled_tasks.go] with the three tasks it runs
    ([getTaskLoops] of [service.go]): [reconcile_subnets.go],
    [reconcile_elastic_ips.go] and [reconcile_availability_zones.go].

    A task runs for every account and region, inside the transaction that also
    records the time of the run in [scheduled_tasks]; so a task that fails has not
    run.  Whether [pg_try_advisory_xact_lock] gets the lock depends on the other
    replicas, and is drawn from the random choices of the world.  Times are in
    the unit of the clock of the world. *)
From S2P Require Import Prelude Errors Schema Service Logic TxLogic TrunkEnis Reconcile.

Open Scope string_scope.
Open Scope Z_scope.
Open Scope list_scope.

(** The interface [keyedItem] *)
Class KeyedItem (Item : Type) : Type := key : Item → string.

Definition regionAccount_key (ra : regionAccount) : string := ra_region ra +:+ "_" +:+ ra_accountID ra.

#[export] Instance regionAccount_keyed : KeyedItem regionAccount := regionAccount_key.

(** ** Statements *)

Definition is_task (name : string) (r : scheduled_task_row) : bool := bool_decide (st_name r = name).

Definition task_named (name : string) (d : db) : option scheduled_task_row := head (where_ (is_task name) (scheduled_tasks d)).

(** [INSERT INTO scheduled_tasks(name) VALUES ($1) ON CONFLICT DO NOTHING]: [last_run] defaults to the current time. *)
Definition insert_task (id t : Z) (name : string) (d : db) : db :=
  if existsb (is_task name) (scheduled_tasks d) then d
  else set_scheduled_tasks (scheduled_tasks d ++ [ScheduledTaskRow id name t None]) d.

(** [UPDATE scheduled_tasks SET last_run = now(), hostname = $2 WHERE name = $1] *)
Definition mark_run (t : Z) (name hostname : string) (d : db) : db :=
  set_scheduled_tasks
    (update_where (is_task name) (λ r, ScheduledTaskRow (st_id r) (st_name r) t (Some hostname)) (scheduled_tasks d)) d.

(** [ON CONFLICT (subnet_id) DO NOTHING] *)
Definition insert_subnet (s : ec2_subnet) (d : db) : db :=
  if existsb (λ r, bool_decide (sn_subnet_id r = es_SubnetId s)) (subnets d) then d
  else set_subnets (subnets d ++ [SubnetRow (es_SubnetId s) (es_AvailabilityZone s) (es_AvailabilityZoneId s) (es_VpcId s)
                                    (es_OwnerId s) (es_CidrBlock s)]) d.

(** [ON CONFLICT DO NOTHING]: there is an index on the zone's ID and one on its name. *)
Definition insert_az (accountID : string) (z : availability_zone) (d : db) : db :=
  if existsb (λ r, bool_decide (az_account_id r = accountID) &&
                   (bool_decide (az_zone_id r = ez_ZoneId z) || bool_decide (az_zone_name r = ez_ZoneName z)))
       (availability_zones d) then d
  else set_availability_zones (availability_zones d ++ [AzRow accountID (ez_GroupName z) (ez_ZoneId z) (ez_ZoneName z)
                                                          (ez_RegionName z) (ez_NetworkBorderGroup z)]) d.

(** A row of the temporary table [known_elastic_ips] *)
Record known_elastic_ip := KnownElasticIp {
  ke_allocation_id : string;
  ke_account_id : string;
  ke_public_ip : string;
  ke_tags : gmap string string;
  ke_network_border_group : string
}.

Definition is_allocation (id : string) (e : elastic_ip_row) : bool := bool_decide (ei_allocation_id e = id).

Definition set_tags (tags : gmap string string) (e : elastic_ip_row) : elastic_ip_row :=
  ElasticIpRow (ei_allocation_id e) (ei_account_id e) (ei_public_ip e) (ei_region e) (ei_network_border_group e) tags.

Definition upsert_eip (region : string) (l : list elastic_ip_row) (k : known_elastic_ip) : list elastic_ip_row :=
  if existsb (is_allocation (ke_allocation_id k)) l
  then update_where (λ e, is_allocation (ke_allocation_id k) e && negb (bool_decide (ei_tags e = ke_tags k)))
         (set_tags (ke_tags k)) l
  else l ++ [ElasticIpRow (ke_allocation_id k) (ke_account_id k) (ke_public_ip k) region (ke_network_border_group k) (ke_tags k)].

(** [INSERT INTO elastic_ips .. SELECT .. FROM known_elastic_ips ON CONFLICT (allocation_id)
    DO UPDATE SET tags = excluded.tags WHERE elastic_ips.tags != excluded.tags] *)
Definition upsert_eips (region : string) (known : list known_elastic_ip) (d : db) : db :=
  set_elastic_ips (foldl (upsert_eip region) (elastic_ips d) known) d.

(** [WHERE account_id = $1 AND region = $2 AND allocation_id NOT IN (SELECT allocation_id FROM known_elastic_ips)] *)
Definition vanished (account : regionAccount) (known : list known_elastic_ip) (e : elastic_ip_row) : bool :=
  bool_decide (ei_account_id e = ra_accountID account) && bool_decide (ei_region e = ra_region account) &&
  negb (bool_decide (ei_allocation_id e ∈ ke_allocation_id <$> known)).

(** [DELETE FROM elastic_ips]: ON DELETE CASCADE removes the attachments. *)
Definition delete_eips (p : elastic_ip_row → bool) (d : db) : db :=
  let gone := ei_allocation_id <$> where_ p (elastic_ips d) in
  set_elastic_ips (where_ (negb ∘ p) (elastic_ips d))
    (set_elastic_ip_attachments
       (where_ (λ a, negb (bool_decide (ea_allocation_id a ∈ gone))) (elastic_ip_attachments d)) d).

(** ** Running tasks *)

Section Tasks.
Context (hostname : string).

(** [pg_try_advisory_xact_lock], asked for the row of the task *)
Definition try_lock (h : tx) (taskName : string) : M bool :=
  _ ← queryRow h (task_named taskName);
  n ← random;
  mret (Nat.even n).

(** The randomized interval that is computed on the way is only logged. *)
Definition runScheduledTask (taskName : string) (interval : Z) (cb : tx → M unit) : M unit :=
  _ ← wrap "Cannot fetch hostname" fault_point;
  with_commit BeginTx (λ h,
    new ← nextval;
    t ← now;
    _ ← exec h (insert_task new t taskName);
    hasLock ← try_lock h taskName;
    if negb hasLock then mret tt
    else
      r ← queryRow h (task_named taskName);
      if t - st_last_run r <? interval then mret tt
      else
        _ ← wrap "Cannot update scheduled_tasks last_run" (exec h (mark_run t taskName hostname));
        cb h).

Definition runTask {Item} `{!KeyedItem Item} (interval : Z) (taskPrefix : string) (itemLister : M (list Item))
    (cb : Item → tx → M unit) : M unit :=
  items ← itemLister;
  for_each (λ item, runScheduledTask (taskPrefix +:+ "_" +:+ key item) interval (cb item)) items.

(** [ticks] are the times at which the timer fires before the context is done. *)
Fixpoint taskLoop {Item} `{!KeyedItem Item} (interval : Z) (taskPrefix : string) (lister : M (list Item))
    (cb : Item → tx → M unit) (ticks : list Z) : M unit :=
  match ticks with
  | [] => mret tt
  | t :: ticks =>
      _ ← act (λ w, (Ok tt, set_now t w));
      _ ← try (runTask interval taskPrefix lister cb);
      taskLoop interval taskPrefix lister cb ticks
  end.
End Tasks.

(** ** The tasks *)

(** The error of the commit is ignored. *)
Definition getRegionAccounts : M (list regionAccount) :=
  with_tx BeginTx (λ h,
    l ← query h accounts;
    _ ← try (Commit h);
    mret ((λ x, RegionAccount x.1 x.2) <$> l)).

(** One statement for every element; the first error ends the loop. *)
Fixpoint exec_all {A} (h : tx) (msg : string) (f : A → db → db) (l : list A) : M unit :=
  match l with
  | [] => mret tt
  | a :: l =>
      _ ← wrap msg (exec h (f a));
      exec_all h msg f l
  end.

(** [tags[aws.StringValue(tag.Key)] = aws.StringValue(tag.Value)] *)
Definition Tags (l : list (string * string)) : gmap string string := foldl (λ m kv, <[kv.1 := kv.2]> m) ∅ l.

Definition known_of (accountID : string) (a : address) : known_elastic_ip :=
  KnownElasticIp (ad_AllocationId a) accountID (ad_PublicIp a) (Tags (ad_Tags a)) (ad_NetworkBorderGroup a).

(** An insertion into the temporary table, whose primary key is the allocation ID *)
Definition insert_known (h : tx) (known : list known_elastic_ip) (k : known_elastic_ip) : M (list known_elastic_ip) :=
  _ ← statement h;
  if bool_decide (ke_allocation_id k ∈ ke_allocation_id <$> known)
  then act (λ w, (Fail (EPq "unique_violation" "known_elastic_ips_pkey"), abort h w))
  else mret (known ++ [k]).

Fixpoint insert_addresses (h : tx) (accountID : string) (known : list known_elastic_ip) (l : list address)
    : M (list known_elastic_ip) :=
  match l with
  | [] => mret known
  | a :: l =>
      known ← wrap "Could not update known_elastic_ips" (insert_known h known (known_of accountID a));
      insert_addresses h accountID known l
  end.

Section WithEC2.
Context (ec2 : ec2_oracle).

Definition reconcileEIPsForRegionAccount (account : regionAccount) (h : tx) : M unit :=
  _ ← GetSessionFromAccountAndRegion ec2 (ra_accountID account) (ra_region account);
  _ ← wrap "Could not create temporary table for known eips" (statement h);
  r ← try (call ec2 DescribeAddresses);
  match r with
  | inl e => throw (HandleEC2Error e)
  | inr addresses =>
      known ← insert_addresses h (ra_accountID account) [] addresses;
      _ ← wrap "Could not insert new elastic IPs" (exec h (upsert_eips (ra_region account) known));
      wrap "Could not delete elastic IPs" (exec h (delete_eips (vanished account known)))
  end.

Fixpoint describe_subnets (fuel : nat) (accountID : string) (token : option string) : M (list ec2_subnet) :=
  match fuel with
  | O => throw (ECtx true)
  | S n =>
      r ← try (call ec2 (DescribeSubnets accountID token));
      match r with
      | inl e => throw (HandleEC2Error e)
      | inr (page, None) => mret page
      | inr (page, next) =>
          rest ← describe_subnets n accountID next;
          mret (page ++ rest)
      end
  end.

Definition reconcileSubnetsForRegionAccount (fuel : nat) (account : regionAccount) (h : tx) : M unit :=
  _ ← GetSessionFromAccountAndRegion ec2 (ra_accountID account) (ra_region account);
  subnets ← describe_subnets fuel (ra_accountID account) None;
  exec_all h "Cannot insert subnets" insert_subnet subnets.

Definition reconcileAvailabilityZonesRegionAccount (account : regionAccount) (h : tx) : M unit :=
  _ ← GetSessionFromAccountAndRegion ec2 (ra_accountID account) (ra_region account);
  zones ← handle "Could not describe availability zones" (call ec2 DescribeAvailabilityZones);
  exec_all h "Could insert AZ" (insert_az (ra_accountID account)) zones.

Record taskLoop_entry := TaskLoopEntry {
  tl_taskName : string;
  tl_itemLister : M (list regionAccount);
  tl_workFunc : regionAccount → tx → M unit
}.

Definition getTaskLoops (fuel : nat) : list taskLoop_entry := [
  TaskLoopEntry "subnets" getRegionAccounts (reconcileSubnetsForRegionAccount fuel);
  TaskLoopEntry "elastic_ip" getRegionAccounts reconcileEIPsForRegionAccount;
  TaskLoopEntry "availability_zone" getRegionAccounts reconcileAvailabilityZonesRegionAccount
].
End WithEC2.

Definition GetTaskLoopTaskNames (ec2 : ec2_oracle) (fuel : nat) : list string := tl_taskName <$> getTaskLoops ec2 fuel.

(** ** One task *)

Lemma wp_with_commit (body : tx → M unit) (K : db → Prop) w :
  (∀ h w1, sees h (w_db w) (w_db w) w1 → w_now w1 = w_now w →
     wp (body h) (λ r w', match r with
                          | Ok _ => ∃ X, sees h (w_db w) X w' ∧ K X
                          | Fail _ => w_db w' = w_db w
                          | Panic _ => False
                          end) w1) →
  wp (with_commit BeginTx body) (λ r w', match r with
                                         | Ok _ => K (w_db w') ∧ schema_ok (w_db w')
                                         | Fail _ => w_db w' = w_db w
                                         | Panic _ => False
                                         end) w.
Proof.
  intros Hbody. apply wp_bind, wp_BeginTx; [|done]. intros fs _. apply wp_act.
  match goal with |- context [body ?h ?w1] => pose proof (Hbody h w1) as Hb; destruct (body h w1) as [r w2] eqn:E end.
  specialize (Hb ltac:(split; [done|]; intros g Hg; simpl in Hg; rewrite lookup_insert_eq in Hg; by injection Hg as <-) eq_refl).
  eapply wp_elim in Hb; [|exact E].
  destruct r as [[]|e|s]; [|done|done]. destruct Hb as (X & Hs & HK).
  assert (wp (Commit (w_next_tx w)) (λ r w', match r with
    | Ok _ => K (w_db w') ∧ schema_ok (w_db w') | Fail _ => w_db w' = w_db w | Panic _ => False end) w2) as Hc;
    [|unfold wp in Hc; by destruct (Commit (w_next_tx w) w2) as [[]]].
  eapply wp_Commit_sees; [done| |done]. by intros w' ->.
Qed.

Lemma task_named_existsb name d : existsb (is_task name) (scheduled_tasks d) = bool_decide (is_Some (task_named name d)).
Proof.
  unfold task_named. induction (scheduled_tasks d) as [|r l IH]; [done|]. simpl.
  by destruct (is_task name r).
Qed.

Lemma task_named_name name d r : task_named name d = Some r → st_name r = name.
Proof. intros [_ H]%head_where. by apply bool_decide_eq_true in H. Qed.

Lemma task_named_insert id t name d :
  task_named name (insert_task id t name d) = Some (default (ScheduledTaskRow id name t None) (task_named name d)).
Proof.
  unfold insert_task. rewrite task_named_existsb. case_bool_decide as H; [by destruct H as [r ->]|].
  assert (task_named name d = None) as E by (destruct (task_named name d); [destruct H; by eexists | done]).
  rewrite E. unfold task_named, where_ in *. simpl. rewrite List.filter_app. simpl.
  unfold is_task at 2. simpl. rewrite bool_decide_eq_true_2 by done. by destruct (List.filter _ _).
Qed.

Lemma task_named_insert_ne x id t name d : x ≠ name → task_named x (insert_task id t name d) = task_named x d.
Proof.
  intros Hx. unfold insert_task. destruct (existsb _ _); [done|]. unfold task_named, where_. simpl. rewrite List.filter_app.
  simpl. unfold is_task at 2. simpl. by rewrite bool_decide_eq_false_2, app_nil_r by congruence.
Qed.

Lemma task_named_mark x t name hostname d :
  task_named x (mark_run t name hostname d) =
  (λ r, if is_task name r then ScheduledTaskRow (st_id r) (st_name r) t (Some hostname) else r) <$> task_named x d.
Proof. unfold task_named. simpl. rewrite where_update_where by done. apply head_update_where. Qed.

(** The task is known and its last run is [interval] ago. *)
Definition due (interval t : Z) (name : string) (d : db) : Prop :=
  ∃ r, task_named name d = Some r ∧ interval ≤ t - st_last_run r.

#[export] Instance due_dec interval t name d : Decision (due interval t name d).
Proof.
  destruct (task_named name d) as [r|] eqn:E.
  - destruct (decide (interval ≤ t - st_last_run r)); [left; by exists r | right].
    intros (r' & Hr & ?). by simplify_eq.
  - right. intros (r & Hr & _). congruence.
Defined.

Lemma due_insert interval id t name d : 0 < interval → due interval t name (insert_task id t name d) ↔ due interval t name d.
Proof.
  intros Hi. unfold due. rewrite task_named_insert. destruct (task_named name d) as [r|]; simpl; [done|].
  split; [|by intros (r & ? & _)]. intros (r & [= <-] & H). simpl in H. lia.
Qed.

Section RunScheduledTask.
Context (hostname taskName : string) (interval : Z).

(** What runs in the transaction before the decision *)
Lemma sequel_try_lock h d X : sequel h d X (try_lock h taskName) (λ _ X', X' = X).
Proof.
  eapply sequel_bind; [apply sequel_queryRow|]. intros _ ? [-> _]. intros w Hw. apply wp_bind, wp_random.
  intros n ns. apply wp_ret. by exists X.
Qed.

(** [cb] runs in the transaction, from what that sees then. *)
Lemma runScheduledTask_spec (cb : tx → M unit) (K : relation db) w :
  (∀ h X, sequel h (w_db w) X (cb h) (λ _, K X)) →
  wp (runScheduledTask hostname taskName interval cb) (λ r w',
    match r with
    | Ok _ => schema_ok (w_db w') ∧ ∃ id, let d := insert_task id (w_now w) taskName (w_db w) in
        w_db w' = d ∨ due interval (w_now w) taskName d ∧ K (mark_run (w_now w) taskName hostname d) (w_db w')
    | Fail _ => w_db w' = w_db w
    | Panic _ => False
    end) w.
Proof.
  intros Hcb. apply wp_bind, wp_wrap, wp_fault_point; [|done]. intros fs _. set (w0 := set_faults fs w).
  change (w_db w) with (w_db w0) in *. change (w_now w) with (w_now w0). clearbody w0. clear w fs.
  eapply wp_mono; [apply (wp_with_commit _ (λ d', ∃ id, let d := insert_task id (w_now w0) taskName (w_db w0) in
      d' = d ∨ due interval (w_now w0) taskName d ∧ K (mark_run (w_now w0) taskName hostname d) d'))|].
  2:{ intros [[]|e|s] w' H; [|done|done]. by destruct H. }
  intros h w1 Hs Hn. apply wp_bind, wp_nextval, wp_bind, wp_now. simpl. rewrite Hn.
  eapply wp_mono; [eapply (sequel_bind h (w_db w0) _ _ _ _ (λ _ d', ∃ id, let d := insert_task id (w_now w0) taskName (w_db w0) in
      d' = d ∨ due interval (w_now w0) taskName d ∧ K (mark_run (w_now w0) taskName hostname d) d')); [apply sequel_exec| |]|].
  - intros _ X1 [-> _]. eapply sequel_bind; [apply sequel_try_lock|]. intros [] ? ->; simpl; [|apply sequel_ret; eauto].
    eapply sequel_bind; [apply sequel_queryRow|]. intros r ? [-> Hr].
    destruct (Z.ltb_spec (w_now w0 - st_last_run r) interval) as [Hlt|Hle]; [apply sequel_ret; eauto|].
    eapply sequel_bind; [apply sequel_wrap, sequel_exec|]. intros _ ? [-> _].
    eapply sequel_mono; [apply Hcb|]. intros a X' HK. eexists. right. split; [by exists r|]. exact HK.
  - exact Hs.
  - intros [[]|e|s] w2; [done| |done]. by intros (X & ? & _).
Qed.
End RunScheduledTask.

(** *** When the callback does not run *)

Lemma bind_agree {A B} (m : M A) (f f' : A → M B) w :
  wp m (λ r w', match r with Ok a => f a w' = f' a w' | _ => True end) w → (m ≫= f) w = (m ≫= f') w.
Proof. unfold wp, mbind, M_bind. destruct (m w) as [[a|e|s] w']; simpl; [done|done..]. Qed.

Lemma sequel_agree {A B} h d X (m : M A) K (f f' : A → M B) w :
  sequel h d X m K → sees h d X w → (∀ a X' w', K a X' → sees h d X' w' → f a w' = f' a w') → (m ≫= f) w = (m ≫= f') w.
Proof.
  intros Hm Hs Hf. apply bind_agree. eapply wp_mono; [by apply Hm|]. intros [a|e|s] w'; [|done..].
  intros (X' & Hs' & HK). eauto.
Qed.

Lemma with_commit_agree (body body' : tx → M unit) w :
  (∀ h w1, sees h (w_db w) (w_db w) w1 → w_now w1 = w_now w → body h w1 = body' h w1) →
  with_commit BeginTx body w = with_commit BeginTx body' w.
Proof.
  intros H. apply bind_agree, wp_BeginTx; [|done]. intros fs _. unfold deferred_commit, act. rewrite H; [done| |done].
  split; [done|]. intros g Hg. simpl in Hg. rewrite lookup_insert_eq in Hg. by injection Hg as <-.
Qed.

Lemma runScheduledTask_agree hostname taskName interval cb cb' w :
  0 < interval → ¬ due interval (w_now w) taskName (w_db w) →
  runScheduledTask hostname taskName interval cb w = runScheduledTask hostname taskName interval cb' w.
Proof.
  intros Hi Hdue. apply bind_agree, wp_wrap, wp_fault_point; [|done]. intros fs _. apply with_commit_agree.
  intros h w1 Hs Hn. apply bind_agree, wp_nextval, bind_agree, wp_now. simpl in *. rewrite Hn.
  eapply sequel_agree; [apply sequel_exec|done|]. intros _ X1 w2 [-> _] Hs2.
  eapply sequel_agree; [apply sequel_try_lock|done|]. intros [] ? w3 -> Hs3; simpl; [|done].
  eapply sequel_agree; [apply sequel_queryRow|done|]. intros r ? w4 [-> Hr] Hs4.
  destruct (Z.ltb_spec (w_now w - st_last_run r) interval) as [Hlt|Hle]; [done|].
  destruct Hdue. rewrite <- (due_insert _ (w_seq w1)) by done. by exists r.
Qed.

(** ** What the tasks may change *)

Lemma sequel_handle {A} h d X msg (m : M A) K : sequel h d X m K → sequel h d X (handle msg m) K.
Proof. intros Hm w Hw. apply wp_handle. eapply wp_mono; [by apply Hm|]. by intros [a|e|s] w1 ?. Qed.

Lemma sequel_exec_all {A} h d X msg (f : A → db → db) l (R : relation db) `{!PreOrder R} :
  (∀ a X, R X (f a X)) → sequel h d X (exec_all h msg f l) (λ _ X', X' = foldl (flip f) X l ∧ R X X').
Proof.
  intros Hf. revert X. induction l as [|a l IH]; intros X; simpl; [by apply sequel_ret|].
  eapply sequel_bind; [apply sequel_wrap, sequel_exec|]. intros _ ? [-> _].
  eapply sequel_mono; [apply IH|]. intros _ X' [-> HR]. split; [done|]. by etrans; [apply Hf|].
Qed.

(** ** What the tasks do in their transaction *)

Lemma sequel_insert_addresses h d X accountID known l :
  NoDup (ke_allocation_id <$> known) →
  sequel h d X (insert_addresses h accountID known l) (λ known' X',
    X' = X ∧ known' = known ++ (known_of accountID <$> l) ∧ NoDup (ke_allocation_id <$> known')).
Proof.
  revert known. induction l as [|a l IH]; intros known Hnd; simpl; [apply sequel_ret; by rewrite app_nil_r|].
  eapply (sequel_bind _ _ _ _ _ (λ known' X', X' = X ∧ known' = known ++ [known_of accountID a] ∧ NoDup (ke_allocation_id <$> known'))).
  - apply sequel_wrap. eapply sequel_bind; [apply sequel_statement|]. intros _ ? ->.
    case_bool_decide as Hin; [apply sequel_aborts|]. apply sequel_ret. split_and!; [done|done|].
    rewrite fmap_app. apply NoDup_app. split_and!; [done| |apply NoDup_singleton].
    intros x Hx Hx'. apply list_elem_of_singleton in Hx' as ->. done.
  - intros known' ? (-> & -> & Hnd'). eapply sequel_mono; [by apply IH|].
    intros ? ? (-> & -> & Hnd2). split_and!; [done|by rewrite <- app_assoc|done].
Qed.

Section TasksEC2.
Context (ec2 : ec2_oracle).

(** The two statements, and that the constraints allowed them *)
Definition eips_written (account : regionAccount) (X X' : db) : Prop := ∃ addresses cs,
  let known := known_of (ra_accountID account) <$> addresses in
  ec2 _ cs DescribeAddresses = inr addresses ∧ NoDup (ke_allocation_id <$> known) ∧
  schema_ok (upsert_eips (ra_region account) known X) ∧
  X' = delete_eips (vanished account known) (upsert_eips (ra_region account) known X).

Lemma sequel_reconcileEIPs account h d X :
  sequel h d X (reconcileEIPsForRegionAccount ec2 account h) (λ _, eips_written account X).
Proof.
  eapply sequel_bind; [apply sequel_call|]. intros _ ? [-> _].
  eapply sequel_bind; [apply sequel_wrap, sequel_statement|]. intros _ ? ->.
  eapply sequel_bind; [apply (sequel_try _ _ _ _ (λ l X', X' = X ∧ ∃ cs, ec2 _ cs DescribeAddresses = inr l)), sequel_call|].
  intros [e|addresses] X1 H1; [apply sequel_throw|]. destruct H1 as [-> [cs Hcs]].
  eapply sequel_bind; [apply sequel_insert_addresses, NoDup_nil_2|]. intros known ? (-> & -> & Hnd). simpl in *.
  eapply sequel_bind; [apply sequel_wrap, sequel_exec|]. intros _ ? [-> Hs].
  eapply sequel_mono; [apply sequel_wrap, sequel_exec|]. intros _ ? [-> _]. by exists addresses, cs.
Qed.

End TasksEC2.

(** ** The elastic IPs afterwards *)

Definition new_eip (region : string) (k : known_elastic_ip) : elastic_ip_row :=
  ElasticIpRow (ke_allocation_id k) (ke_account_id k) (ke_public_ip k) region (ke_network_border_group k) (ke_tags k).

Lemma existsb_allocation id l : existsb (is_allocation id) l = bool_decide (id ∈ ei_allocation_id <$> l).
Proof.
  induction l as [|e l IH]; [done|]. simpl. rewrite IH. unfold is_allocation.
  rewrite <- bool_decide_or. apply bool_decide_ext. rewrite elem_of_cons. naive_solver.
Qed.

(** Retagging a row that has the tags changes nothing. *)
Lemma upsert_eip_known region l k :
  ke_allocation_id k ∈ ei_allocation_id <$> l →
  upsert_eip region l k = update_where (is_allocation (ke_allocation_id k)) (set_tags (ke_tags k)) l.
Proof.
  intros Hk. unfold upsert_eip. rewrite existsb_allocation, bool_decide_eq_true_2 by done.
  apply list_fmap_ext. intros _ e _. destruct (is_allocation _ e); [|done]. simpl.
  case_bool_decide as Ht; [|done]. destruct e; simpl in *. by subst.
Qed.

Lemma upsert_eip_new region l k :
  ke_allocation_id k ∉ ei_allocation_id <$> l → upsert_eip region l k = l ++ [new_eip region k].
Proof. intros Hk. unfold upsert_eip. by rewrite existsb_allocation, bool_decide_eq_false_2 by done. Qed.

(** The known addresses without a row in [l] *)
Definition fresh_eips (l : list elastic_ip_row) (known : list known_elastic_ip) : list known_elastic_ip :=
  where_ (λ k, negb (bool_decide (ke_allocation_id k ∈ ei_allocation_id <$> l))) known.

Lemma fresh_eips_ids l l' known :
  (∀ k, k ∈ known → ke_allocation_id k ∈ ei_allocation_id <$> l' ↔ ke_allocation_id k ∈ ei_allocation_id <$> l) →
  fresh_eips l' known = fresh_eips l known.
Proof.
  intros H. unfold fresh_eips, where_. apply List.filter_ext_in. intros k Hk%list_elem_of_In. f_equal.
  apply bool_decide_ext. by apply H.
Qed.

(** The row with the tags that EC2 answered, if it did *)
Definition retag (known : list known_elastic_ip) (e : elastic_ip_row) : elastic_ip_row :=
  match List.find (λ k, bool_decide (ke_allocation_id k = ei_allocation_id e)) known with
  | Some k => set_tags (ke_tags k) e
  | None => e
  end.

Lemma retag_unknown known e : ei_allocation_id e ∉ ke_allocation_id <$> known → retag known e = e.
Proof.
  intros H. unfold retag. destruct (List.find _ _) as [k|] eqn:E; [|done].
  apply List.find_some in E as [Hk%list_elem_of_In Heq%bool_decide_eq_true]. destruct H. rewrite <- Heq. by apply list_elem_of_fmap_2.
Qed.

Lemma retag_allocation known e : ei_allocation_id (retag known e) = ei_allocation_id e.
Proof. unfold retag. by destruct (List.find _ _). Qed.

Lemma upsert_eips_rows region l known :
  NoDup (ke_allocation_id <$> known) →
  foldl (upsert_eip region) l known = (retag known <$> l) ++ (new_eip region <$> fresh_eips l known).
Proof.
  revert l. induction known as [|k known IH]; intros l Hnd; [by rewrite app_nil_r, list_fmap_id|]. simpl.
  apply NoDup_cons in Hnd as [Hk Hnd]. rewrite IH by done. case_bool_decide as Hin; simpl.
  - rewrite upsert_eip_known by done. f_equal.
    + unfold update_where. rewrite <- list_fmap_compose. apply list_fmap_ext. intros _ e _. simpl. unfold is_allocation.
      unfold retag at 2. simpl. case_bool_decide as E1; case_bool_decide as E2; try congruence; [|done].
      apply retag_unknown. simpl. by rewrite E1.
    + f_equal. apply fresh_eips_ids. intros k' _. by rewrite update_where_fmap.
  - rewrite upsert_eip_new by done. rewrite fmap_app, <- app_assoc. f_equal.
    + apply list_fmap_ext. intros i e He%list_elem_of_lookup_2. unfold retag at 2. simpl.
      rewrite bool_decide_eq_false_2; [done|]. intros Heq. destruct Hin. rewrite Heq. by apply list_elem_of_fmap_2.
    + simpl. f_equal; [by apply retag_unknown|]. f_equal.
      apply fresh_eips_ids. intros k' Hk'. rewrite fmap_app, elem_of_app. split; [|by left]. intros [?|Heq]; [done|].
      apply list_elem_of_singleton in Heq. simpl in Heq. destruct Hk. rewrite <- Heq. by apply list_elem_of_fmap_2.
Qed.

Definition of_account (account : regionAccount) (e : elastic_ip_row) : Prop :=
  ei_account_id e = ra_accountID account ∧ ei_region e = ra_region account.

Lemma vanished_true account known e :
  vanished account known e = true ↔ of_account account e ∧ ei_allocation_id e ∉ ke_allocation_id <$> known.
Proof.
  unfold vanished, of_account. rewrite !andb_true_iff, negb_true_iff, !bool_decide_eq_true, bool_decide_eq_false. naive_solver.
Qed.

(** The rows of the account in the region are EC2's addresses, with EC2's tags; a
    row that was there keeps its other columns.  The rows of other accounts and
    regions that EC2 did not mention stay as they were, and what was attached stays
    attached as long as the elastic IP is there. *)
Record eips_reconciled (account : regionAccount) (addresses : list address) (d d' : db) : Prop := EipsReconciled {
  er_known : ∀ e, e ∈ elastic_ips d' → of_account account e → ei_allocation_id e ∈ ad_AllocationId <$> addresses;
  er_tags : ∀ a, a ∈ addresses → ∃ e, e ∈ elastic_ips d' ∧ ei_allocation_id e = ad_AllocationId a ∧ ei_tags e = Tags (ad_Tags a) ∧
    ((∃ e0, e0 ∈ elastic_ips d ∧ e = set_tags (Tags (ad_Tags a)) e0) ∨
     e = ElasticIpRow (ad_AllocationId a) (ra_accountID account) (ad_PublicIp a) (ra_region account)
           (ad_NetworkBorderGroup a) (Tags (ad_Tags a)));
  er_others : ∀ e, ¬ of_account account e → ei_allocation_id e ∉ ad_AllocationId <$> addresses →
    e ∈ elastic_ips d' ↔ e ∈ elastic_ips d;
  er_attachments : ∀ a, a ∈ elastic_ip_attachments d' ↔
    a ∈ elastic_ip_attachments d ∧ ea_allocation_id a ∈ ei_allocation_id <$> elastic_ips d'
}.

Lemma known_ids accountID (addresses : list address) : ke_allocation_id <$> (known_of accountID <$> addresses) = ad_AllocationId <$> addresses.
Proof. by rewrite <- list_fmap_compose. Qed.

(** The row of an address that EC2 answered *)
Lemma upserted_row account addresses d a :
  let known := known_of (ra_accountID account) <$> addresses in
  NoDup (ke_allocation_id <$> known) → a ∈ addresses →
  ∃ e, e ∈ foldl (upsert_eip (ra_region account)) (elastic_ips d) known ∧
    ei_allocation_id e = ad_AllocationId a ∧ ei_tags e = Tags (ad_Tags a) ∧
    ((∃ e0, e0 ∈ elastic_ips d ∧ e = set_tags (Tags (ad_Tags a)) e0) ∨ e = new_eip (ra_region account) (known_of (ra_accountID account) a)).
Proof.
  intros known Hnd Ha. rewrite upsert_eips_rows by done. assert (known_of (ra_accountID account) a ∈ known) as Hk by by apply list_elem_of_fmap_2.
  destruct (decide (ad_AllocationId a ∈ ei_allocation_id <$> elastic_ips d)) as [(e0 & Heq & He0)%list_elem_of_fmap|Hout].
  - exists (set_tags (Tags (ad_Tags a)) e0). split_and!; [|done|done|left; eauto].
    apply elem_of_app. left. apply list_elem_of_fmap. exists e0. split; [|done]. unfold retag.
    destruct (List.find _ _) as [k|] eqn:E.
    + apply List.find_some in E as [Hk'%list_elem_of_In Heq'%bool_decide_eq_true].
      assert (k = known_of (ra_accountID account) a) as ->; [|done].
      apply (unique_key ke_allocation_id known); [by apply unique_fmap|done|done|]. simpl. by rewrite Heq'.
    + apply list_elem_of_In in Hk. pose proof (List.find_none _ _ E _ Hk) as Hf. apply bool_decide_eq_false in Hf. by destruct Hf.
  - exists (new_eip (ra_region account) (known_of (ra_accountID account) a)). split_and!; [|done|done|by right].
    apply elem_of_app. right. apply list_elem_of_fmap_2, elem_of_where. split; [done|].
    apply negb_true_iff, bool_decide_eq_false. exact Hout.
Qed.

Lemma eips_written_reconciled ec2 account X X' :
  eips_written ec2 account X X' → ∃ addresses cs, ec2 _ cs DescribeAddresses = inr addresses ∧ eips_reconciled account addresses X X'.
Proof.
  intros (addresses & cs & Hcs & Hnd & Hs & ->). exists addresses, cs. split; [done|].
  set (known := known_of (ra_accountID account) <$> addresses) in *.
  pose proof (known_ids (ra_accountID account) addresses) as Hids. fold known in Hids. split.
  - intros e [He Hv%negb_true_iff]%elem_of_where Hacc. rewrite <- Hids.
    destruct (decide (ei_allocation_id e ∈ ke_allocation_id <$> known)) as [?|Hn]; [done|].
    apply not_true_iff_false in Hv. destruct Hv. by apply vanished_true.
  - intros a Ha. destruct (upserted_row account addresses X a Hnd Ha) as (e & He & Hid & Ht & Hrow).
    exists e. split_and!; [|done|done|exact Hrow]. apply elem_of_where. split; [done|]. apply negb_true_iff, not_true_iff_false.
    intros [_ Hn]%vanished_true. destruct Hn. rewrite Hids, Hid. by apply list_elem_of_fmap_2.
  - intros e Hacc Hn. rewrite <- Hids in Hn. simpl. rewrite elem_of_where. rewrite upsert_eips_rows, elem_of_app by done. split.
    + intros [[(e0 & -> & He0)%list_elem_of_fmap|(k & -> & Hk)%list_elem_of_fmap] _].
      * rewrite retag_allocation in Hn. by rewrite retag_unknown.
      * apply elem_of_where in Hk as [Hk _]. destruct Hn. by apply (list_elem_of_fmap_2 ke_allocation_id).
    + intros He. split; [left; apply list_elem_of_fmap; exists e; by rewrite retag_unknown|].
      apply negb_true_iff, not_true_iff_false. by intros [? _]%vanished_true.
  - intros a. simpl. rewrite elem_of_where. set (l := foldl _ _ _) in *.
    constraint_of Hs "elastic_ips_allocation_id_uindex" Hu. constraint_of Hs "elastic_ip_attachments_elastic_ips_allocation_id_fk" Hf.
    simpl in Hu, Hf. fold l in Hu, Hf. rewrite negb_true_iff, bool_decide_eq_false. split; intros [Ha Hk]; (split; [done|]).
    + pose proof (references_elem _ _ _ _ _ Hf Ha eq_refl) as (e & Heq & He)%list_elem_of_fmap.
      destruct (vanished account known e) eqn:Ev.
      * destruct Hk. rewrite Heq. apply list_elem_of_fmap_2. by apply elem_of_where.
      * rewrite Heq. apply list_elem_of_fmap_2. apply elem_of_where. split; [done|]. by apply negb_true_iff.
    + intros (e & Heq & He)%list_elem_of_fmap. apply list_elem_of_fmap in Hk as (e' & Heq' & He').
      apply elem_of_where in He as [He Hv], He' as [He' Hv'%negb_true_iff].
      rewrite (unique_key _ _ e e' Hu) in Hv by (done || congruence). congruence.
Qed.

(** ** What the loops do

    The history of a task loop: what became of the database, and which tasks ran at what time. *)

(** EC2's answers to the calls that describe the subnets, page by page *)
Inductive answered_subnets (ec2 : ec2_oracle) (accountID : string) : option string → list ec2_subnet → Prop :=
| answered_last cs token page :
    ec2 _ cs (DescribeSubnets accountID token) = inr (page, None) → answered_subnets ec2 accountID token page
| answered_more cs token page next rest :
    ec2 _ cs (DescribeSubnets accountID token) = inr (page, Some next) → answered_subnets ec2 accountID (Some next) rest →
    answered_subnets ec2 accountID token (page ++ rest).

(** The work of each task is done: the table knows what EC2 answered. *)
Definition worked (ec2 : ec2_oracle) (task : string) (account : regionAccount) (d d' : db) : Prop :=
  (task = "subnets" → ∃ l, answered_subnets ec2 (ra_accountID account) None l ∧
     ∀ s, s ∈ l → es_SubnetId s ∈ sn_subnet_id <$> subnets d') ∧
  (task = "elastic_ip" → ∃ addresses cs, ec2 _ cs DescribeAddresses = inr addresses ∧ eips_reconciled account addresses d d') ∧
  (task = "availability_zone" → ∃ l cs, ec2 _ cs DescribeAvailabilityZones = inr l ∧
     ∀ z, z ∈ l → ∃ r, r ∈ availability_zones d' ∧ az_account_id r = ra_accountID account ∧
       (az_zone_id r = ez_ZoneId z ∨ az_zone_name r = ez_ZoneName z)).

(** The tables that the tasks do not write *)
Definition untouched (d : db) : db :=
  set_subnets [] (set_availability_zones [] (set_elastic_ips [] (set_elastic_ip_attachments [] (set_scheduled_tasks [] d)))).

(** Subnets and zones are only added, elastic IPs are detached at most, and no other table is written. *)
Record tables_step (d d' : db) : Prop := TablesStep {
  ts_subnets : subnets d `prefix_of` subnets d';
  ts_zones : availability_zones d `prefix_of` availability_zones d';
  ts_attachments : elastic_ip_attachments d' `sublist_of` elastic_ip_attachments d;
  ts_untouched : untouched d' = untouched d
}.

#[export] Instance tables_step_preorder : PreOrder tables_step.
Proof.
  split; [by intros d|]. intros d1 d2 d3 [H1 H2 H3 H4] [K1 K2 K3 K4]. split; by etrans.
Qed.

(** The task [name] of the account ran at [t]: it was due, its work is done, and the run is recorded. *)
Record ran (ec2 : ec2_oracle) (interval : Z) (prefix : string) (account : regionAccount) (t : Z) (d d' : db) : Prop := Ran {
  rn_due : ∃ r, task_named (prefix +:+ "_" +:+ key account) d = Some r ∧ st_last_run r + interval ≤ t;
  rn_work : worked ec2 prefix account d d';
  rn_tables : tables_step d d';
  rn_recorded : st_last_run <$> task_named (prefix +:+ "_" +:+ key account) d' = Some t;
  rn_others : ∀ x, x ≠ prefix +:+ "_" +:+ key account → task_named x d' = task_named x d
}.

(** Between runs, a task is entered in the table, as if it had run just now. *)
Inductive history (ec2 : ec2_oracle) (interval : Z) (prefix : string) : list (string * Z) → db → db → Prop :=
| history_nil d : history ec2 interval prefix [] d d
| history_known id name t d d' runs :
    task_named name d = None →
    history ec2 interval prefix runs (set_scheduled_tasks (scheduled_tasks d ++ [ScheduledTaskRow id name t None]) d) d' →
    history ec2 interval prefix runs d d'
| history_run account t d d1 d' runs :
    ran ec2 interval prefix account t d d1 → history ec2 interval prefix runs d1 d' →
    history ec2 interval prefix ((prefix +:+ "_" +:+ key account, t) :: runs) d d'.

(** Two runs of a task, and the first one and the run recorded before, are [interval] apart. *)
Definition paced (interval : Z) (d : db) (runs : list (string * Z)) : Prop := ∀ i name t, runs !! i = Some (name, t) →
  (∀ r, task_named name d = Some r → st_last_run r + interval ≤ t) ∧
  (∀ j t', (j < i)%nat → runs !! j = Some (name, t') → t' + interval ≤ t).

Section History.
Context (ec2 : ec2_oracle) (interval : Z) (prefix : string).

Lemma history_trans runs runs' d1 d2 d3 :
  history ec2 interval prefix runs d1 d2 → history ec2 interval prefix runs' d2 d3 →
  history ec2 interval prefix (runs ++ runs') d1 d3.
Proof. intros H H'. induction H; simpl; [done|by eapply history_known; eauto|by eapply history_run; eauto]. Qed.

Lemma history_insert id t name d : history ec2 interval prefix [] d (insert_task id t name d).
Proof.
  unfold insert_task. rewrite task_named_existsb. case_bool_decide as H; [constructor|].
  eapply (history_known _ _ _ id name t); [|constructor]. destruct (task_named name d); [by destruct H|done].
Qed.

Lemma task_named_known x id name t d r :
  task_named x d = Some r → task_named x (set_scheduled_tasks (scheduled_tasks d ++ [ScheduledTaskRow id name t None]) d) = Some r.
Proof. unfold task_named, where_. simpl. rewrite List.filter_app. intros H. by destruct (List.filter _ (scheduled_tasks d)). Qed.

Lemma history_paced runs d d' : 0 ≤ interval → history ec2 interval prefix runs d d' → paced interval d runs.
Proof.
  intros Hi H. induction H as [d|id name t d d' runs Hn _ IH|account t d d1 d' runs [Hdue _ _ Hrec Hoth] _ IH]; intros i x u Hx.
  - done.
  - destruct (IH _ _ _ Hx) as [H1 H2]. split; [|done]. intros r Hr. by apply H1, task_named_known.
  - assert (x = prefix +:+ "_" +:+ key account → (∀ r, task_named x d1 = Some r → st_last_run r + interval ≤ u) → t + interval ≤ u) as Ht.
    { intros -> H. destruct (task_named _ d1) as [r1|]; [|done]. simplify_eq/=. by apply H. }
    destruct i as [|i]; simplify_eq/=.
    + split; [|lia]. destruct Hdue as (r0 & Hr0 & ?). intros r Hr. by simplify_eq.
    + destruct (IH _ _ _ Hx) as [H1 H2]. split.
      * intros r Hr. destruct (decide (x = prefix +:+ "_" +:+ key account)) as [->|Hne]; [|apply H1; by rewrite Hoth].
        specialize (Ht eq_refl H1). destruct Hdue as (r0 & Hr0 & ?). simplify_eq. lia.
      * intros [|j] t' Hj Hx'; simplify_eq/=; [by apply Ht | eapply H2; [|done]; lia].
Qed.
End History.

(** ** The work functions *)

Lemma tables_step_same d d' :
  subnets d `prefix_of` subnets d' → availability_zones d `prefix_of` availability_zones d' →
  elastic_ip_attachments d' `sublist_of` elastic_ip_attachments d → scheduled_tasks d' = scheduled_tasks d →
  untouched d' = untouched d → tables_step d d' ∧ scheduled_tasks d' = scheduled_tasks d.
Proof. intros. by split. Qed.

(** What a statement of the work functions does to the tables *)
Definition works (d d' : db) : Prop := tables_step d d' ∧ scheduled_tasks d' = scheduled_tasks d.

#[export] Instance works_preorder : PreOrder works.
Proof. split; [by intros d|]. intros d1 d2 d3 [H1 E1] [H2 E2]. split; by etrans. Qed.

Lemma insert_subnet_works s d : works d (insert_subnet s d).
Proof. apply tables_step_same; unfold insert_subnet; destruct (existsb _ _); try done; simpl. by eexists. Qed.

Lemma insert_az_works account z d : works d (insert_az account z d).
Proof. apply tables_step_same; unfold insert_az; destruct (existsb _ _); try done; simpl. by eexists. Qed.

Lemma delete_eips_works p d : works d (delete_eips p d).
Proof. apply tables_step_same; try done. apply where_sublist. Qed.

Lemma upsert_eips_works region known d : works d (upsert_eips region known d).
Proof. by apply tables_step_same. Qed.

Lemma foldl_keeps {A} (f : A → db → db) (P : db → Prop) l X :
  (∀ a X, P X → P (f a X)) → P X → P (foldl (flip f) X l).
Proof. intros Hf. induction l as [|a l IH] in X |- *; simpl; auto. Qed.

(** What each insertion achieves, and no other undoes, is so in the end. *)
Lemma foldl_inserts {A} (f : A → db → db) (P : A → db → Prop) l X :
  (∀ a X, P a (f a X)) → (∀ a b X, P a X → P a (f b X)) → ∀ a, a ∈ l → P a (foldl (flip f) X l).
Proof.
  intros Hf Hk. induction l as [|b l IH] in X |- *; intros a Ha; [by apply elem_of_nil in Ha|].
  apply elem_of_cons in Ha as [->|Ha]; simpl; [|by apply IH]. apply foldl_keeps; [auto|apply Hf].
Qed.

Definition has_subnet (s : ec2_subnet) (d : db) : Prop := es_SubnetId s ∈ sn_subnet_id <$> subnets d.

Definition has_zone (accountID : string) (z : availability_zone) (d : db) : Prop :=
  ∃ r, r ∈ availability_zones d ∧ az_account_id r = accountID ∧ (az_zone_id r = ez_ZoneId z ∨ az_zone_name r = ez_ZoneName z).

Lemma insert_subnet_has s d : has_subnet s (insert_subnet s d).
Proof.
  unfold has_subnet, insert_subnet. destruct (existsb _ _) eqn:E.
  - apply existsb_exists in E as (r & Hr%list_elem_of_In & Heq%bool_decide_eq_true). rewrite <- Heq. by apply list_elem_of_fmap_2.
  - simpl. rewrite fmap_app. apply elem_of_app. right. by left.
Qed.

Lemma insert_az_has account z d : has_zone account z (insert_az account z d).
Proof.
  unfold has_zone, insert_az. destruct (existsb _ _) eqn:E.
  - apply existsb_exists in E as (r & Hr%list_elem_of_In & [Ha Hz]%andb_true_iff). apply bool_decide_eq_true in Ha.
    apply orb_true_iff in Hz. rewrite !bool_decide_eq_true in Hz. eauto.
  - eexists. split; [apply elem_of_app; right; by left|]. simpl. auto.
Qed.

Lemma has_subnet_mono s d d' : subnets d `prefix_of` subnets d' → has_subnet s d → has_subnet s d'.
Proof. intros [l Hl] H. unfold has_subnet. rewrite Hl, fmap_app. apply elem_of_app. by left. Qed.

Lemma has_zone_mono account z d d' : availability_zones d `prefix_of` availability_zones d' → has_zone account z d → has_zone account z d'.
Proof. intros [l Hl] (r & Hr & H). exists r. split; [rewrite Hl; apply elem_of_app; by left | done]. Qed.

Section TasksWork.
Context (ec2 : ec2_oracle).

Lemma sequel_describe_subnets h d X fuel account token :
  sequel h d X (describe_subnets ec2 fuel account token) (λ l X', X' = X ∧ answered_subnets ec2 account token l).
Proof.
  induction fuel as [|n IH] in token |- *; simpl; [apply sequel_throw|].
  eapply sequel_bind; [apply (sequel_try _ _ _ _ (λ l X', X' = X ∧ ∃ cs, ec2 _ cs (DescribeSubnets account token) = inr l)), sequel_call|].
  intros [e|[page [next|]]] X1 H1; [apply sequel_throw| |]; destruct H1 as [-> [cs Hcs]].
  - eapply sequel_bind; [apply IH|]. intros rest ? [-> Hrest]. apply sequel_ret. split; [done|]. by eapply answered_more.
  - apply sequel_ret. split; [done|]. by eapply answered_last.
Qed.

(** All three work functions *)
Lemma workFunc_works fuel task account h d X :
  task ∈ getTaskLoops ec2 fuel → sequel h d X (tl_workFunc task account h) (λ _ X', works X X' ∧ worked ec2 (tl_taskName task) account X X').
Proof.
  unfold getTaskLoops. rewrite !elem_of_cons, elem_of_nil. intros [->|[->|[->|[]]]]; simpl.
  - eapply sequel_bind; [apply sequel_call|]. intros _ ? [-> _].
    eapply sequel_bind; [apply sequel_describe_subnets|]. intros l ? [-> Hl].
    eapply sequel_mono; [apply (sequel_exec_all _ _ _ _ _ _ works); apply insert_subnet_works|]. intros _ X' [HX Hw]. subst X'.
    split; [done|]. split_and!; [|done|done]. intros _. exists l. split; [done|].
    apply (foldl_inserts _ has_subnet); [apply insert_subnet_has|]. intros a b X1. apply has_subnet_mono, (insert_subnet_works b X1).
  - eapply sequel_mono; [apply sequel_reconcileEIPs|]. intros [] X' Hw. split.
    + destruct Hw as (l & cs & _ & _ & _ & ->). etrans; [apply upsert_eips_works | apply delete_eips_works].
    + split_and!; [done| |done]. intros _. by apply eips_written_reconciled.
  - eapply sequel_bind; [apply sequel_call|]. intros _ ? [-> _].
    eapply sequel_bind; [apply sequel_handle, sequel_call|]. intros l ? [-> [cs Hl]].
    eapply sequel_mono; [apply (sequel_exec_all _ _ _ _ _ _ works); apply insert_az_works|]. intros _ X' [HX Hw]. subst X'.
    split; [done|]. split_and!; [done|done|]. intros _. exists l, cs. split; [done|].
    apply (foldl_inserts _ (has_zone (ra_accountID account))); [apply insert_az_has|].
    intros a b X1. apply has_zone_mono, (insert_az_works _ b X1).
Qed.
End TasksWork.

(** ** The loop *)

(** The clock does not move while [m] runs. *)
Definition steady {A} (m : M A) : Prop := ∀ w, w_now (m w).2 = w_now w.

Lemma wp_steady {A} (m : M A) Q w : steady m → wp m Q w → wp m (λ r w', Q r w' ∧ w_now w' = w_now w) w.
Proof. intros Hm. specialize (Hm w). unfold wp. by destruct (m w). Qed.

Section Steady.
Lemma steady_ret {A} (a : A) : steady (mret a).
Proof. done. Qed.

Lemma steady_throw {A} e : steady (@throw A e).
Proof. done. Qed.

Lemma steady_bind {A B} (m : M A) (f : A → M B) : steady m → (∀ a, steady (f a)) → steady (m ≫= f).
Proof. intros Hm Hf w. specialize (Hm w). unfold mbind, M_bind. destruct (m w) as [[a|e|s] w']; [|done..]. by rewrite Hf. Qed.

Lemma steady_try {A} (m : M A) : steady m → steady (try m).
Proof. intros Hm w. specialize (Hm w). unfold try. by destruct (m w) as [[]]. Qed.

Lemma steady_wrap {A} msg (m : M A) : steady m → steady (wrap msg m).
Proof. intros Hm w. specialize (Hm w). unfold wrap. by destruct (m w) as [[]]. Qed.

Lemma steady_handle {A} msg (m : M A) : steady m → steady (handle msg m).
Proof. intros Hm w. specialize (Hm w). unfold handle. by destruct (m w) as [[]]. Qed.

Lemma steady_fault_point : steady fault_point.
Proof. intros w. unfold fault_point. by destruct (w_faults w). Qed.

Lemma steady_random : steady random.
Proof. intros w. unfold random. by destruct (w_rand w). Qed.

Lemma steady_nextval : steady nextval.
Proof. done. Qed.

Lemma steady_now : steady now.
Proof. done. Qed.

Lemma steady_call ec2 {A : Set} (c : ec2_call A) : steady (call ec2 c).
Proof. done. Qed.

Lemma steady_tx_view h : steady (tx_view h).
Proof.
  intros w. unfold tx_view. destruct (w_txs w !! h) as [[g|]|]; [|done..]. pose proof (steady_fault_point w) as H.
  by destruct (fault_point w) as [[]].
Qed.

Lemma steady_query {A} h (f : db → A) : steady (query h f).
Proof. apply steady_bind; [apply steady_tx_view|done]. Qed.

Lemma steady_queryRow {A} h (f : db → option A) : steady (queryRow h f).
Proof. apply steady_bind; [apply steady_query|]. by intros []. Qed.

Lemma steady_statement h : steady (statement h).
Proof. apply steady_bind; [apply steady_tx_view|done]. Qed.

Lemma steady_exec h f : steady (exec h f).
Proof. apply steady_bind; [apply steady_tx_view|]. intros d w. by destruct (check_constraints _). Qed.

Lemma steady_BeginTx : steady BeginTx.
Proof. apply steady_bind; [apply steady_fault_point|done]. Qed.

Lemma steady_Commit h : steady (Commit h).
Proof.
  intros w. unfold Commit. pose proof (steady_tx_view h w) as H. destruct (tx_view h w) as [[d|e|s] w']; [|done..].
  by destruct (check_constraints d).
Qed.

Lemma steady_with_commit {A} begin (body : tx → M A) : steady begin → (∀ h, steady (body h)) → steady (with_commit begin body).
Proof.
  intros Hb Hm. apply steady_bind; [done|]. intros h w. specialize (Hm h w). unfold deferred_commit, act.
  destruct (body h w) as [[a|e|s] w']; [|done|]; pose proof (steady_Commit h w') as Hc; simpl in *; [|by rewrite Hc].
  rewrite <- Hm, <- Hc. by destruct (Commit h w') as [[]].
Qed.

Lemma steady_with_tx {A} begin (body : tx → M A) : steady begin → (∀ h, steady (body h)) → steady (with_tx begin body).
Proof. intros Hb Hm. apply steady_bind; [done|]. intros h w. specialize (Hm h w). unfold act. by destruct (body h w). Qed.

Lemma steady_exec_all {A} h msg (f : A → db → db) l : steady (exec_all h msg f l).
Proof. induction l as [|a l IH]; simpl; [done|]. apply steady_bind; [apply steady_wrap, steady_exec|done]. Qed.
End Steady.

Create HintDb steady.
#[export] Hint Resolve steady_ret steady_throw steady_bind steady_try steady_wrap steady_handle steady_fault_point steady_random
  steady_nextval steady_now steady_call steady_query steady_queryRow steady_statement steady_exec steady_BeginTx steady_Commit
  steady_with_commit steady_with_tx steady_exec_all : steady.
#[export] Hint Extern 3 (steady (match ?x with _ => _ end)) => destruct x : steady.
#[export] Hint Extern 3 (steady (if ?x then _ else _)) => destruct x : steady.

Lemma steady_insert_addresses h accountID known l : steady (insert_addresses h accountID known l).
Proof.
  induction l as [|a l IH] in known |- *; simpl; [done|]. apply steady_bind; [|done]. apply steady_wrap. unfold insert_known.
  apply steady_bind; [apply steady_statement|]. intros _. by case_bool_decide.
Qed.

Lemma steady_describe_subnets ec2 fuel accountID token : steady (describe_subnets ec2 fuel accountID token).
Proof.
  induction fuel as [|n IH] in token |- *; simpl; [done|]. apply steady_bind; [auto with steady|].
  intros [e|[page [next|]]]; auto with steady.
Qed.

Lemma steady_workFunc ec2 fuel task account h : task ∈ getTaskLoops ec2 fuel → steady (tl_workFunc task account h).
Proof.
  pose proof steady_insert_addresses. pose proof steady_describe_subnets.
  unfold getTaskLoops. rewrite !elem_of_cons, elem_of_nil. intros [->|[->|[->|[]]]]; simpl;
    unfold reconcileSubnetsForRegionAccount, reconcileEIPsForRegionAccount, reconcileAvailabilityZonesRegionAccount,
      GetSessionFromAccountAndRegion; auto 12 with steady.
Qed.

Lemma steady_runScheduledTask hostname taskName interval cb : (∀ h, steady (cb h)) → steady (runScheduledTask hostname taskName interval cb).
Proof. intros Hcb. unfold runScheduledTask, try_lock. auto 16 with steady. Qed.

Section Loop.
Context (ec2 : ec2_oracle) (interval : Z) (prefix : string).

(** At the time [t], whatever [m] does is in the history. *)
Definition logs {A} (t : Z) (m : M A) : Prop := ∀ w, w_now w = t →
  wp m (λ r w', ((∀ s, r ≠ Panic s) ∧ ∃ runs, history ec2 interval prefix runs (w_db w) (w_db w') ∧ Forall (λ x, x.2 = t) runs) ∧
                w_now w' = t) w.

Lemma logs_bind {A B} t (m : M A) (f : A → M B) : logs t m → (∀ a, logs t (f a)) → logs t (m ≫= f).
Proof.
  intros Hm Hf w Ht. apply wp_bind. eapply wp_mono; [by apply Hm|].
  intros [a|e|s] w1 [[Hp (runs & H1 & F1)] Ht1]; [|by eauto|by destruct (Hp s)].
  eapply wp_mono; [by apply Hf|]. intros r w2 [[Hp' (runs' & H2 & F2)] Ht2]. split; [|done]. split; [done|].
  exists (runs ++ runs'). split; [by eapply history_trans | by apply Forall_app].
Qed.

Lemma logs_try {A} t (m : M A) : logs t m → logs t (try m).
Proof.
  intros Hm w Ht. apply wp_try. eapply wp_mono; [by apply Hm|].
  intros [x|e|s] w1 [[Hp H1] ?]; [by split..|by destruct (Hp s)].
Qed.

Lemma logs_quiet {A} t (m : M A) : steady m → (∀ w, wp m (λ r w', (∀ s, r ≠ Panic s) ∧ w_db w' = w_db w) w) → logs t m.
Proof.
  intros Hs Hm w <-. eapply wp_mono; [by apply wp_steady|]. intros r w' [[Hp ->] ->]. split; [|done]. split; [done|].
  exists []. split; constructor.
Qed.

Lemma logs_for_each {A} t (f : A → M unit) l : (∀ a, logs t (f a)) → logs t (for_each f l).
Proof.
  intros Hf. induction l as [|a l IH]; simpl; [by apply logs_quiet; [|intros w; by apply wp_ret]|].
  apply logs_bind; [by apply logs_try|done].
Qed.

Lemma getRegionAccounts_quiet w : wp getRegionAccounts (λ r w', (∀ s, r ≠ Panic s) ∧ w_db w' = w_db w) w.
Proof.
  apply (wp_with_tx_ends _ _ (λ r d', (∀ s, r ≠ Panic s) ∧ d' = w_db w)); [|done|].
  - apply wp_BeginTx; [|done]. intros fs _. split; [done|]. intros g Hg. simpl in Hg. rewrite lookup_insert_eq in Hg. congruence.
  - intros h. eapply ends_bind; [apply sequel_query|done|]. intros l ? [-> _] w1 [Hd Hp]. apply wp_bind, wp_try.
    eapply wp_Commit_sees; [by split|..]; intros; apply wp_ret; simplify_eq; by rewrite <- ?H.
Qed.

Lemma logs_getRegionAccounts t : logs t getRegionAccounts.
Proof. apply logs_quiet; [|apply getRegionAccounts_quiet]. unfold getRegionAccounts. auto 8 with steady. Qed.

Lemma eips_reconciled_from account addresses d0 d d' :
  elastic_ips d0 = elastic_ips d → elastic_ip_attachments d0 = elastic_ip_attachments d →
  eips_reconciled account addresses d0 d' → eips_reconciled account addresses d d'.
Proof. intros E1 E2 [H1 H2 H3 H4]. rewrite E1 in *. rewrite E2 in *. by split. Qed.

(** The work began with what [mark_run] left. *)
Lemma mark_run_ran hostname account t d d' :
  due interval t (prefix +:+ "_" +:+ key account) d →
  works (mark_run t (prefix +:+ "_" +:+ key account) hostname d) d' →
  worked ec2 prefix account (mark_run t (prefix +:+ "_" +:+ key account) hostname d) d' →
  ran ec2 interval prefix account t d d'.
Proof.
  set (name := prefix +:+ "_" +:+ key account). intros (r & Hr & Hd) [[H1 H2 H3 H4] Hl] (W1 & W2 & W3).
  assert (∀ x, task_named x d' = task_named x (mark_run t name hostname d)) as Ht by (intros x; unfold task_named; by rewrite Hl).
  split; fold name.
  - exists r. split; [done|lia].
  - split_and!; [done| |done]. intros E. destruct (W2 E) as (addresses & cs & ? & ?). exists addresses, cs. split; [done|].
    by apply (eips_reconciled_from _ _ (mark_run t name hostname d)).
  - by split.
  - rewrite Ht, task_named_mark, Hr. simpl. unfold is_task. by rewrite bool_decide_eq_true_2 by by eapply task_named_name.
  - intros x Hx. rewrite Ht, task_named_mark. destruct (task_named x d) as [r'|] eqn:E; [|done]. simpl. unfold is_task.
    rewrite bool_decide_eq_false_2; [done|]. rewrite (task_named_name _ _ _ E). done.
Qed.

Lemma logs_runScheduledTask hostname t account cb :
  (∀ h, steady (cb h)) → (∀ h d X, sequel h d X (cb h) (λ _ X', works X X' ∧ worked ec2 prefix account X X')) →
  logs t (runScheduledTask hostname (prefix +:+ "_" +:+ key account) interval cb).
Proof.
  intros Hst Hcb w <-. eapply wp_mono; [apply wp_steady; [by apply steady_runScheduledTask|];
    apply (runScheduledTask_spec _ _ _ _ (λ X X', works X X' ∧ worked ec2 prefix account X X')); intros; apply Hcb|].
  intros [[]|e|s] w' [H Hn]; [| |done]; split; try done; (split; [done|]).
  2:{ exists []. rewrite H. split; constructor. }
  destruct H as [_ [id [->|[Hdue [Hw Hwk]]]]]; [exists []; split; [apply history_insert | done]|].
  exists ([] ++ [(prefix +:+ "_" +:+ key account, w_now w)]). split; [|by apply Forall_singleton].
  eapply history_trans; [apply history_insert|]. eapply history_run; [by eapply mark_run_ran|constructor].
Qed.
End Loop.

Lemma taskLoop_history ec2 interval hostname fuel task ticks w :
  task ∈ getTaskLoops ec2 fuel →
  wp (taskLoop hostname interval (tl_taskName task) (tl_itemLister task) (tl_workFunc task) ticks) (λ r w',
    r = Ok tt ∧ ∃ runs, history ec2 interval (tl_taskName task) runs (w_db w) (w_db w') ∧ Forall (λ x, x.2 ∈ ticks) runs) w.
Proof.
  intros Htask. assert (tl_itemLister task = getRegionAccounts) as Hl.
  { revert Htask. unfold getTaskLoops. rewrite !elem_of_cons, elem_of_nil. by intros [->|[->|[->|[]]]]. }
  revert w. induction ticks as [|t ticks IH]; intros w; simpl; [apply wp_ret; split; [done|]; exists []; split; constructor|].
  apply wp_bind, wp_act. simpl. apply wp_bind, wp_try.
  assert (logs ec2 interval (tl_taskName task) t (runTask hostname interval (tl_taskName task) (tl_itemLister task) (tl_workFunc task))) as Hrun.
  { apply logs_bind; [rewrite Hl; apply logs_getRegionAccounts|]. intros l. apply logs_for_each. intros account.
    apply logs_runScheduledTask; [by intros h; eapply steady_workFunc|]. intros h d X. by eapply workFunc_works. }
  eapply wp_mono; [by apply Hrun|]. simpl. intros [x|e|s] w1 [[Hp (runs & H1 & F1)] _]; [| |by destruct (Hp s)].
  all: eapply wp_mono; [apply IH|]; intros r w2 [-> (runs' & H2 & F2)]; (split; [done|]); exists (runs ++ runs').
  all: split; [by eapply history_trans|]; apply Forall_app; split; eapply Forall_impl; try done; intros y Hy; rewrite elem_of_cons; auto.
Qed.

(** ** Runs without faults *)

(** The lock is free when the choice is even. *)
Lemma wp_try_lock h d rs X taskName w :
  ready h d rs X w → is_Some (task_named taskName X) → Nat.even (hd 0%nat rs) = true →
  wp (try_lock h taskName) (λ r w', r = Ok true ∧ ready h d (tl rs) X w') w.
Proof.
  intros Hw [r Hr] He. apply wp_bind. eapply wp_mono; [by eapply succeeds_queryRow|].
  intros ? w1 (? & ? & -> & (Hf & Hrs & Hd & Hg) & -> & ->). apply wp_bind. unfold wp, random. rewrite Hrs.
  destruct rs as [|n rs]; simpl in *; [by split|]. rewrite He. by split.
Qed.

Lemma set_scheduled_tasks_schema l d :
  schema_ok d → unique (Some ∘ st_id) l = true → unique (Some ∘ st_name) l = true → schema_ok (set_scheduled_tasks l d).
Proof. intros Hs H1 H2. keeps_schema Hs. Qed.

Lemma mark_run_schema t name hostname d : schema_ok d → schema_ok (mark_run t name hostname d).
Proof.
  intros Hs. constraint_of Hs "scheduled_tasks_pk" C1. constraint_of Hs "scheduled_tasks_name_uindex" C2.
  apply unique_fmap in C1, C2. apply set_scheduled_tasks_schema; [done|..]; apply unique_fmap; by rewrite update_where_fmap.
Qed.

Lemma insert_task_due interval id t name d : due interval t name d → insert_task id t name d = d.
Proof. intros (r & Hr & _). unfold insert_task. by rewrite task_named_existsb, Hr. Qed.

Lemma wp_with_commit_runs (body : tx → M unit) (K : db → Prop) w :
  w_faults w = [] →
  (∀ h w1, ready h (w_db w) (w_rand w) (w_db w) w1 → w_now w1 = w_now w →
     wp (body h) (λ r w', r = Ok tt ∧ ∃ rs X, ready h (w_db w) rs X w' ∧ K X ∧ schema_ok X) w1) →
  wp (with_commit BeginTx body) (λ r w', r = Ok tt ∧ K (w_db w')) w.
Proof.
  intros Hf Hbody. apply wp_bind, wp_bind, wp_no_fault; [done|]. apply wp_act. apply wp_act. simpl.
  match goal with |- context [body ?h ?w1] => pose proof (Hbody h w1) as Hb; destruct (body h w1) as [r w2] eqn:E end.
  specialize (Hb ltac:(split_and!; [done|done|done|]; eexists; split; [apply lookup_insert_eq|done]) eq_refl).
  eapply wp_elim in Hb; [|exact E]. destruct Hb as (-> & rs & X & Hr & HK & Hs).
  pose proof (wp_Commit_ready _ _ _ _ _ Hr Hs) as Hc. unfold wp in *.
  destruct (Commit (w_next_tx w) w2) as [? ?]. simpl in *. destruct Hc as [-> Hd]. simpl. by rewrite Hd.
Qed.

(** A due task whose lock is free and whose callback succeeds *)
Lemma runScheduledTask_runs hostname taskName interval cb (K : db → Prop) w :
  w_faults w = [] → Nat.even (hd 0%nat (w_rand w)) = true → due interval (w_now w) taskName (w_db w) → schema_ok (w_db w) →
  (∀ h rs, succeeds h (w_db w) rs (mark_run (w_now w) taskName hostname (w_db w)) (cb h) (λ _ X, K X ∧ schema_ok X)) →
  wp (runScheduledTask hostname taskName interval cb) (λ r w', r = Ok tt ∧ K (w_db w')) w.
Proof.
  intros Hf He Hdue Hs Hcb. apply wp_bind, wp_wrap, wp_no_fault; [done|]. apply wp_with_commit_runs; [done|].
  intros h w1 Hw1 Hn. apply wp_bind, wp_nextval, wp_bind, wp_now. simpl. rewrite Hn.
  apply wp_bind. eapply wp_mono; [eapply succeeds_exec; [|exact Hw1]; by erewrite insert_task_due|].
  intros ? w2 (? & X & -> & Hw2 & ->). erewrite insert_task_due in Hw2 by done. destruct Hdue as (r & Hr & Hle).
  apply wp_bind. eapply wp_mono; [eapply wp_try_lock; [exact Hw2|by rewrite Hr|done]|]. intros ? w3 [-> Hw3]. simpl.
  apply wp_bind. eapply wp_mono; [eapply succeeds_queryRow; [exact Hr|exact Hw3]|].
  intros ? w4 (? & ? & -> & Hw4 & -> & ->). rewrite (proj2 (Z.ltb_ge _ _)) by done.
  apply wp_bind, wp_wrap. eapply wp_mono; [eapply succeeds_exec; [|exact Hw4]; by apply mark_run_schema|].
  intros ? w5 (? & ? & -> & Hw5 & ->). eapply wp_mono; [by eapply Hcb|].
  intros ? w6 ([] & X & -> & Hw6 & HK & Hs'). split; [done|]. eauto.
Qed.

(** *** Elastic IPs without faults *)

Lemma unique_where {A K} `{EqDecision K} (f : A → option K) p l : unique f l = true → unique f (where_ p l) = true.
Proof.
  unfold unique. rewrite !bool_decide_eq_true. intros H. eapply sublist_NoDup; [exact H|]. clear H. induction l as [|a l IH]; [done|]. simpl.
  destruct (p a); simpl; destruct (f a); by try constructor.
Qed.

Lemma references_where {A K} `{EqDecision K} (f : A → option K) p l keys :
  references f l keys = true → references f (where_ p l) keys = true.
Proof.
  unfold references. rewrite !forallb_forall. intros H x Hx%list_elem_of_In%elem_of_where. apply H, list_elem_of_In, Hx.
Qed.

Lemma delete_eips_schema p d : schema_ok d → schema_ok (delete_eips p d).
Proof.
  intros Hs. constraint_of Hs "elastic_ip_attachments_elastic_ips_allocation_id_fk" Hf.
  assert (∀ K `{EqDecision K} (f : elastic_ip_attachment → option K),
    unique f (elastic_ip_attachments d) = true → unique f (elastic_ip_attachments (delete_eips p d)) = true) as Hu
    by (intros; by apply unique_where).
  constraint_of Hs "elastic_ip_attachments_pk" C1. constraint_of Hs "elastic_ip_attachments_assignment_id_uindex" C2.
  constraint_of Hs "elastic_ip_attachments_elastic_ip_uindex" C3. constraint_of Hs "elastic_ip_attachments_association_id_uindex" C4.
  constraint_of Hs "elastic_ips_allocation_id_uindex" C5. constraint_of Hs "elastic_ips_public_ip_uindex" C6.
  constraint_of Hs "elastic_ip_attachments_assignments_assignment_id_fk" C7.
  apply Hu in C1, C2, C3, C4. apply (unique_where _ (negb ∘ p)) in C5, C6.
  apply (references_where _ (λ a, negb (bool_decide (ea_allocation_id a ∈ ei_allocation_id <$> where_ p (elastic_ips d))))) in C7.
  assert (references (Some ∘ ea_allocation_id) (elastic_ip_attachments (delete_eips p d))
            (ei_allocation_id <$> elastic_ips (delete_eips p d)) = true) as C8.
  { unfold references. apply forallb_forall. intros a [Ha Hk]%list_elem_of_In%elem_of_where. simpl. apply bool_decide_eq_true.
    pose proof (references_elem _ _ _ _ _ Hf Ha eq_refl) as (e & Heq & He)%list_elem_of_fmap.
    apply negb_true_iff, bool_decide_eq_false in Hk. rewrite Heq in Hk |- *. apply list_elem_of_fmap_2, elem_of_where. split; [done|].
    simpl. destruct (p e) eqn:E; [|done]. destruct Hk. apply list_elem_of_fmap_2. by apply elem_of_where. }
  clear Hu Hf. keeps_schema Hs.
Qed.

(** The addresses that EC2 answered fit into the table: no allocation twice, and the
    public IP of a new one is not in use. *)
Definition allocatable (addresses : list address) (d : db) : Prop :=
  let new := where_ (λ a, negb (bool_decide (ad_AllocationId a ∈ ei_allocation_id <$> elastic_ips d))) addresses in
  NoDup (ad_AllocationId <$> addresses) ∧ NoDup ((ei_public_ip <$> elastic_ips d) ++ (ad_PublicIp <$> new)).

#[export] Instance allocatable_dec addresses d : Decision (allocatable addresses d).
Proof. apply _. Defined.

Lemma where_fmap {A B} (p : B → bool) (f : A → B) l : where_ p (f <$> l) = f <$> where_ (p ∘ f) l.
Proof. unfold where_. induction l as [|a l IH]; [done|]. csimpl. rewrite IH. unfold compose. by destruct (p (f a)). Qed.

(** A column that retagging keeps *)
Lemma fmap_upsert_eips {A} (f : elastic_ip_row → A) region l known :
  (∀ tags e, f (set_tags tags e) = f e) → NoDup (ke_allocation_id <$> known) →
  f <$> foldl (upsert_eip region) l known = (f <$> l) ++ (f ∘ new_eip region <$> fresh_eips l known).
Proof.
  intros Hf Hnd. rewrite upsert_eips_rows, fmap_app, <- !list_fmap_compose by done. f_equal.
  apply list_fmap_ext. intros _ e _. simpl. unfold retag. by destruct (List.find _ _).
Qed.

Lemma upsert_public_ips region accountID addresses d :
  NoDup (ad_AllocationId <$> addresses) →
  NoDup (ei_public_ip <$> elastic_ips (upsert_eips region (known_of accountID <$> addresses) d)) ↔ allocatable addresses d.
Proof.
  intros Hnd. change (elastic_ips (upsert_eips ?r ?k d)) with (foldl (upsert_eip r) (elastic_ips d) k).
  rewrite fmap_upsert_eips by (done || by rewrite known_ids). unfold fresh_eips. rewrite where_fmap, <- list_fmap_compose.
  unfold allocatable. split; [by intros H; split|]. by intros [_ H].
Qed.

Lemma upsert_eips_schema region accountID addresses d :
  schema_ok d → allocatable addresses d → schema_ok (upsert_eips region (known_of accountID <$> addresses) d).
Proof.
  intros Hs Ha. pose proof Ha as [Hnd _]. set (known := known_of accountID <$> addresses).
  assert (NoDup (ke_allocation_id <$> known)) as Hk by (unfold known; by rewrite known_ids).
  constraint_of Hs "elastic_ips_allocation_id_uindex" C1. constraint_of Hs "elastic_ip_attachments_elastic_ips_allocation_id_fk" Hf.
  assert (unique (Some ∘ ei_public_ip) (elastic_ips (upsert_eips region known d)) = true) as C2.
  { apply unique_fmap. by apply upsert_public_ips. }
  assert (ei_allocation_id <$> elastic_ips (upsert_eips region known d) =
          (ei_allocation_id <$> elastic_ips d) ++ (ke_allocation_id <$> fresh_eips (elastic_ips d) known)) as Hids
    by by apply fmap_upsert_eips.
  assert (unique (Some ∘ ei_allocation_id) (elastic_ips (upsert_eips region known d)) = true) as C3.
  { apply unique_fmap. rewrite Hids. apply unique_fmap in C1. apply NoDup_app. split_and!; [done| |].
    - intros x Hx (k & -> & [_ Hn%negb_true_iff]%elem_of_where)%list_elem_of_fmap. by apply bool_decide_eq_false in Hn.
    - eapply sublist_NoDup; [exact Hk|]. apply fmap_sublist, where_sublist. }
  assert (references (Some ∘ ea_allocation_id) (elastic_ip_attachments d)
            (ei_allocation_id <$> elastic_ips (upsert_eips region known d)) = true) as C4.
  { rewrite Hids. unfold references. apply forallb_forall. intros a Hin%list_elem_of_In. simpl. apply bool_decide_eq_true, elem_of_app.
    left. exact (references_elem _ _ _ _ _ Hf Hin eq_refl). }
  clear C1 Hf. keeps_schema Hs.
Qed.

Lemma succeeds_insert_addresses h d rs X accountID known l :
  NoDup (ke_allocation_id <$> known ++ (known_of accountID <$> l)) →
  succeeds h d rs X (insert_addresses h accountID known l) (λ known' X', known' = known ++ (known_of accountID <$> l) ∧ X' = X).
Proof.
  revert known. induction l as [|a l IH]; intros known Hnd; simpl; [apply succeeds_ret; by rewrite app_nil_r|].
  change (known_of accountID <$> a :: l) with (known_of accountID a :: (known_of accountID <$> l)) in *.
  eapply (succeeds_bind _ _ _ _ _ _ (λ known' X', known' = known ++ [known_of accountID a] ∧ X' = X)).
  - apply succeeds_wrap. eapply succeeds_bind; [apply succeeds_statement|]. intros _ ? ->.
    rewrite bool_decide_eq_false_2; [by apply succeeds_ret|]. intros Hin. rewrite fmap_app in Hnd.
    apply NoDup_app in Hnd as (_ & Hd & _). apply (Hd _ Hin). by left.
  - intros ? ? [-> ->]. specialize (IH (known ++ [known_of accountID a])). rewrite <- app_assoc in IH. by apply IH.
Qed.

Lemma succeeds_reconcileEIPs (ec2 : ec2_oracle) account addresses h d rs X :
  (∀ cs, ec2 _ cs (GetSession (ra_accountID account) (ra_region account)) = inr tt) →
  (∀ cs, ec2 _ cs DescribeAddresses = inr addresses) → schema_ok X → allocatable addresses X →
  succeeds h d rs X (reconcileEIPsForRegionAccount ec2 account h) (λ _ X', eips_written ec2 account X X' ∧ schema_ok X').
Proof.
  intros Hsession Haddr Hs Ha. pose proof (upsert_eips_schema (ra_region account) (ra_accountID account) _ _ Hs Ha) as Hs1.
  pose proof (delete_eips_schema (vanished account (known_of (ra_accountID account) <$> addresses)) _ Hs1) as Hs2.
  assert (NoDup (ke_allocation_id <$> (known_of (ra_accountID account) <$> addresses))) as Hnd by (rewrite known_ids; apply Ha).
  eapply succeeds_bind; [by apply succeeds_call|]. intros _ ? [_ ->].
  eapply succeeds_bind; [apply succeeds_wrap, succeeds_statement|]. intros _ ? ->.
  eapply succeeds_bind; [by apply succeeds_try, (succeeds_call _ _ _ _ _ _ addresses)|]. intros ? ? (? & -> & -> & ->).
  eapply succeeds_bind; [by apply succeeds_insert_addresses|]. intros ? ? [-> ->]. simpl.
  eapply succeeds_bind; [by apply succeeds_wrap, succeeds_exec|]. intros _ ? ->.
  apply succeeds_wrap. intros w Hw. eapply wp_mono; [exact (succeeds_exec h d rs _ (delete_eips (vanished account (known_of (ra_accountID account) <$> addresses))) Hs2 w Hw)|].
  intros r w' (a & X' & -> & Hr & ->). eexists _, _. split_and!; [done|exact Hr| |done]. exists addresses, []. by split_and!.
Qed.

(** ** Claims *)

(** A task that is not known yet, or whose last run is not [interval] ago,
    does not run: what [runScheduledTask] does then does not depend on the callback.
    It does not panic, and at most it makes the task known, as if it had run now. *)
Theorem runScheduledTask_waits hostname taskName interval cb w :
  0 < interval → ¬ due interval (w_now w) taskName (w_db w) →
  (∀ cb', runScheduledTask hostname taskName interval cb w = runScheduledTask hostname taskName interval cb' w) ∧
  match runScheduledTask hostname taskName interval cb w with
  | (Ok _, w') => ∃ id, w_db w' = insert_task id (w_now w) taskName (w_db w)
  | (Fail _, w') => w_db w' = w_db w
  | (Panic _, _) => False
  end.
Proof.
  intros Hi Hdue. split; [intros cb'; by apply runScheduledTask_agree|].
  rewrite (runScheduledTask_agree _ _ _ cb (λ _, mret tt)) by done.
  pose proof (runScheduledTask_spec hostname taskName interval (λ _, mret tt) eq w) as H. unfold wp in H.
  destruct (runScheduledTask _ _ _ _ _) as [r w']. simpl in H. specialize (H ltac:(intros; by apply sequel_ret)).
  destruct r as [[]|e|s]; [|done|done]. destruct H as [_ [id [H|[H _]]]]; [eauto|]. by apply due_insert in H.
Qed.

(** C19: Whatever fails and however EC2 answers, each of the service's task loops
    goes on until the context is done and does not panic.  All that it does to the
    database is a history: it enters a task in [scheduled_tasks], or it runs the task
    of an account.  A run happens at a tick, does the work of the task (the table
    knows what EC2 answered), only adds subnets and zones, only detaches elastic IPs,
    writes no other table than those, and leaves the tick as the last run of the task
    and of no other.  Two runs of a task are at least [interval] apart, and so are
    its first run and the last one that was recorded before. *)
Theorem taskLoop_paced ec2 hostname fuel interval task ticks w :
  0 ≤ interval → task ∈ getTaskLoops ec2 fuel →
  let '(r, w') := taskLoop hostname interval (tl_taskName task) (tl_itemLister task) (tl_workFunc task) ticks w in
  r = Ok tt ∧ ∃ runs, history ec2 interval (tl_taskName task) runs (w_db w) (w_db w') ∧
    Forall (λ run, run.2 ∈ ticks) runs ∧ paced interval (w_db w) runs.
Proof.
  intros Hi Htask. pose proof (taskLoop_history ec2 interval hostname fuel task ticks w Htask) as H. unfold wp in H.
  destruct (taskLoop _ _ _ _ _ _ _) as [r w']. simpl in H. destruct H as [-> (runs & H & F)]. split; [done|]. exists runs.
  split_and!; [done|done|by eapply history_paced].
Qed.

(** When the task that reconciles the elastic IPs of an account in
    a region returns without error, it did not run and the elastic IPs and their
    attachments are as they were, or they are reconciled with what EC2 answered.
    After an error, whatever it was, nothing has changed. *)
Theorem reconcileEIPs_atomic ec2 hostname taskName interval account w r w' :
  runScheduledTask hostname taskName interval (reconcileEIPsForRegionAccount ec2 account) w = (r, w') →
  match r with
  | Ok _ => (elastic_ips (w_db w') = elastic_ips (w_db w) ∧ elastic_ip_attachments (w_db w') = elastic_ip_attachments (w_db w)) ∨
            ∃ addresses cs, ec2 _ cs DescribeAddresses = inr addresses ∧ eips_reconciled account addresses (w_db w) (w_db w')
  | Fail _ => w_db w' = w_db w
  | Panic _ => False
  end.
Proof.
  intros E. pose proof (runScheduledTask_spec hostname taskName interval _ (eips_written ec2 account) w
    (λ h X, sequel_reconcileEIPs ec2 account h (w_db w) X)) as H.
  eapply wp_elim in H; [|exact E]. destruct r as [[]|e|s]; [|done|done].
  assert (∀ id, elastic_ips (insert_task id (w_now w) taskName (w_db w)) = elastic_ips (w_db w) ∧
    elastic_ip_attachments (insert_task id (w_now w) taskName (w_db w)) = elastic_ip_attachments (w_db w)) as Hid
    by (intros id; unfold insert_task; by destruct (existsb _ _)).
  destruct H as [_ [id [->|[_ Hw]]]]; [left; apply Hid|]. right.
  apply eips_written_reconciled in Hw as (addresses & cs & Hcs & [H1 H2 H3 H4]). exists addresses, cs. split; [done|].
  simpl in *. destruct (Hid id) as [Hl Ha]. rewrite Hl in *. rewrite Ha in *. by split.
Qed.

(** C30: Without faults, a due task whose lock is free reconciles the
    elastic IPs with EC2 and records the run, exactly when the addresses EC2 answered
    fit into the table; otherwise, as when the IP of an allocation that is gone was
    allocated again, nothing changes. *)
Theorem reconcileEIPs_succeeds (ec2 : ec2_oracle) hostname taskName interval account addresses w r w' :
  w_faults w = [] → Nat.even (hd 0%nat (w_rand w)) = true → schema_ok (w_db w) → due interval (w_now w) taskName (w_db w) →
  (∀ cs, ec2 _ cs (GetSession (ra_accountID account) (ra_region account)) = inr tt) →
  (∀ cs, ec2 _ cs DescribeAddresses = inr addresses) →
  runScheduledTask hostname taskName interval (reconcileEIPsForRegionAccount ec2 account) w = (r, w') →
  if decide (allocatable addresses (w_db w))
  then r = Ok tt ∧ eips_reconciled account addresses (w_db w) (w_db w') ∧
       st_last_run <$> task_named taskName (w_db w') = Some (w_now w)
  else w_db w' = w_db w.
Proof.
  intros Hf He Hs Hdue Hsession Haddr E. destruct (decide _) as [Ha|Hn].
  - pose proof (runScheduledTask_runs hostname taskName interval (reconcileEIPsForRegionAccount ec2 account)
      (λ X, eips_written ec2 account (mark_run (w_now w) taskName hostname (w_db w)) X) w Hf He Hdue Hs) as H.
    specialize (H ltac:(intros h rs; by apply (succeeds_reconcileEIPs ec2 account addresses); [..|apply mark_run_schema|])).
    eapply wp_elim in H; [|exact E]. destruct H as [-> Hw]. split; [done|]. split.
    + apply eips_written_reconciled in Hw as (addresses' & cs & Hcs & [H1 H2 H3 H4]). rewrite Haddr in Hcs.
      injection Hcs as <-. by split.
    + destruct Hw as (addresses' & cs & _ & _ & _ & ->). destruct Hdue as (t & Ht & _).
      change (task_named taskName (delete_eips ?p (upsert_eips ?x ?y ?d))) with (task_named taskName d).
      rewrite task_named_mark, Ht. simpl. unfold is_task. by rewrite bool_decide_eq_true_2 by by eapply task_named_name.
  - pose proof (runScheduledTask_spec hostname taskName interval _ (eips_written ec2 account) w
      (λ h X, sequel_reconcileEIPs ec2 account h (w_db w) X)) as H.
    eapply wp_elim in H; [|exact E]. destruct r as [[]|e|s]; [|done|done]. destruct H as [_ [id H]].
    erewrite insert_task_due in H by done. destruct H as [->|[_ (addresses' & cs & Hcs & Hnd & Hs' & _)]]; [done|].
    rewrite Haddr in Hcs. injection Hcs as <-. destruct Hn. constraint_of Hs' "elastic_ips_public_ip_uindex" C.
    apply unique_fmap in C. apply (upsert_public_ips _ _ _ (mark_run (w_now w) taskName hostname (w_db w))) in C; [done|].
    by rewrite known_ids in Hnd.
Qed.
