(* ===== verification/Allocate.v ===== *)
(** * Allocate: static allocations of addresses and their signatures

    Models [vpc/service/allocate.go].  [AllocateAddress] reserves an address of a
    dummy ENI in the subnet, describes the allocation in a message that it signs
    with the key of the host, and keeps both; [GetAllocation] finds them again;
    [ValidateAllocation] checks the chain of signatures, from a trusted public key
    over the key of the host to the message.

    Signatures and the encoding of messages are not part of the repository: they are
    arguments, and what is relied on is that a signature verifies under its public key
    and that what was encoded is decoded ([sign_verifies], [marshal_unmarshal]).
    Keys, messages and signatures are strings of bytes.  The IDs of allocations are UUIDs, which
    PostgreSQL reads in several forms and prints in one ([uuid_in]): what is stored and
    returned is the printed form, what is signed is the form of the request.  Addresses are
    taken to be written the way PostgreSQL prints them, as EC2 writes them. *)
From S2P Require Import Prelude Errors Schema Service Logic TxLogic BranchEni GenerateAssignment AssignV3.

Open Scope string_scope.
Open Scope Z_scope.
Open Scope list_scope.

(** ** Messages *)

Record AddressLocation := MkAddressLocation { loc_Region : string; loc_AvailabilityZone : string; loc_SubnetId : string }.

Record AddressAllocation := MkAddressAllocation {
  aa_AddressLocation : option AddressLocation;
  aa_Uuid : string;
  aa_Address : string
}.

#[export] Instance AddressLocation_eq_dec : EqDecision AddressLocation.
Proof. solve_decision. Defined.

#[export] Instance AddressAllocation_eq_dec : EqDecision AddressAllocation.
Proof. solve_decision. Defined.

Record SignedAddressAllocation := MkSignedAddressAllocation {
  sa_AddressAllocation : option AddressAllocation;
  sa_AuthoritativePublicKey : string;
  sa_HostPublicKey : string;
  sa_HostPublicKeySignature : string;
  sa_Message : string;
  sa_MessageSignature : string
}.

Inductive Family : Set := FAMILY_DEFAULT | FAMILY_V4 | FAMILY_V6.

Record AllocateAddressRequest := MkAllocateAddressRequest {
  ar_AccountId : string;
  ar_AddressAllocation : option AddressAllocation;
  ar_Family : Family
}.

Inductive search_parameter : Set := SearchNone | SearchAddress (address : string) | SearchUuid (uuid : string).

(** ** Statements *)

Definition maxAddressesPerInterface : Z := 50.

Definition staticDummyInterfaceDescription : string := "titus-static-dummy".

(** The rows of [ip_addresses] with a home ENI *)
Definition home_count (eni : string) (d : db) : nat := count_where (λ r, bool_decide (ip_home_eni r = eni)) (ip_addresses d).

(** [SELECT eni_id FROM static_enis WHERE subnet_id = $1 AND (SELECT count of rows FROM ip_addresses WHERE
    home_eni = static_enis.eni_id) < $2 FOR UPDATE LIMIT 1] *)
Definition static_enis_with_room (subnet : string) (room : Z) (d : db) : list string :=
  fst <$> where_ (λ e, bool_decide (e.2 = subnet) && (Z.of_nat (home_count e.1 d) <? room)) (static_enis d).

(** [WHERE ip_address NOT IN (SELECT ip_address FROM ip_addresses WHERE subnet_id = $2)] *)
Definition free_addresses (ips : list string) (subnet : string) (d : db) : list string :=
  where_ (λ ip, negb (bool_decide (ip ∈ ip_ip_address <$> where_ (λ r, bool_decide (ip_subnet_id r = subnet)) (ip_addresses d)))) ips.

(** A parameter of type [uuid]: what is not a UUID fails the statement. *)
Definition uuid_param (h : tx) (s : string) : M string :=
  match uuid_in s with
  | Some id => mret id
  | None => _ ← statement h; act (λ w, (Fail (EPq "invalid_text_representation" ""), abort h w))
  end.

Example uuid_forms :
  uuid_in <$> ["A0EEBC99-9C0B-4EF8-BB6D-6BB9BD380A11"; "{a0eebc999c0b4ef8bb6d6bb9bd380a11}";
    "a0ee-bc99-9c0b-4ef8-bb6d-6bb9-bd38-0a11"; "a0eebc999c0b4ef8bb6d6bb9bd380a1"; "a0eebc99-9c0b-4ef8-bb6d-6bb9bd380a11-"] =
  [Some "a0eebc99-9c0b-4ef8-bb6d-6bb9bd380a11"; Some "a0eebc99-9c0b-4ef8-bb6d-6bb9bd380a11";
   Some "a0eebc99-9c0b-4ef8-bb6d-6bb9bd380a11"; None; None].
Proof. vm_compute. reflexivity. Qed.

(** [INSERT INTO ip_addresses (id) VALUES ($1)] *)
Definition insert_allocation (uuid : string) (d : db) : db := set_ip_addresses_new (ip_addresses_new d ++ [uuid]) d.

(** [UPDATE ip_addresses SET .. WHERE id = $1]: the row gets its columns. *)
Definition fill_allocation (row : ip_address_row) (d : db) : db :=
  if bool_decide (ip_id row ∈ ip_addresses_new d)
  then set_ip_addresses (ip_addresses d ++ [row])
         (set_ip_addresses_new (where_ (λ u, negb (bool_decide (u = ip_id row))) (ip_addresses_new d)) d)
  else set_ip_addresses (update_where (λ r, bool_decide (ip_id r = ip_id row)) (λ _, row) (ip_addresses d)) d.

Section WithEC2.
Context (ec2 : ec2_oracle).

Definition getStaticInterface (h : tx) (subnetID : string) : M network_interface :=
  r ← try (queryRowAny h (static_enis_with_room subnetID (maxAddressesPerInterface - 1)));
  match r with
  | inl ENoRows =>
      r ← try (call ec2 (CreateStaticNetworkInterface subnetID staticDummyInterfaceDescription maxAddressesPerInterface
                           (maxAddressesPerInterface - 1)));
      match r with
      | inl e => throw (HandleEC2Error e)
      | inr ni =>
          _ ← wrap "Unable to save newly statically created ENI"
                (exec h (λ d, set_static_enis (static_enis d ++ [(NetworkInterfaceId ni, subnetID)]) d));
          mret ni
      end
  | inl e => throw (EWrap "Cannot fetch ENI from static enis set" e)
  | inr eniID =>
      r ← try (call ec2 (DescribeNetworkInterfaces [eniID] None));
      match r with
      | inl e => throw (HandleEC2Error e)
      | inr ([ni], _) => mret ni
      | inr (l, _) => throw (EString ("Unexpected number of interfaces returned from DescribeNetworkInterfacesWithContext: "
                                      +:+ pretty (length l)))
      end
  end.

(** ** Signatures *)

Section WithKeys.
Context (ed25519_sign : string → string → string).
Context (ed25519_verify : string → string → string → bool).
Context (proto_Marshal : AddressAllocation → error + string).
Context (proto_Unmarshal : string → error + AddressAllocation).

(** [ed25519.Verify] panics for a public key that is not 32 bytes long. *)
Definition ed25519_Verify (key message sig : string) : M bool :=
  if (String.length key =? 32)%nat then mret (ed25519_verify key message sig)
  else go_panic "ed25519: bad public key length".

(** The keys of the service *)
Record host_keys := HostKeys {
  authoritativePublicKey : string;
  hostPrivateKey : string;
  hostPublicKey : string;
  hostPublicKeySignature : string
}.

(** A host key is made at the start and signed with the long-lived key. *)
Definition service_keys (ed25519_public : string → string) (ed25519key privateKey : string) : host_keys :=
  HostKeys (ed25519_public ed25519key) privateKey (ed25519_public privateKey)
    (ed25519_sign ed25519key (ed25519_public privateKey)).

Definition validate_request (rq : AllocateAddressRequest) : error + (AddressAllocation * AddressLocation) :=
  if bool_decide (ar_AccountId rq = "") then inl (EStatus InvalidArgument "AccountId must be specified")
  else match ar_AddressAllocation rq with
  | None => inl (EStatus InvalidArgument "AddressAllocation must be specified")
  | Some a =>
      match aa_AddressLocation a with
      | None => inl (EStatus InvalidArgument "AddressAllocation.AddressLocation must be specified")
      | Some loc =>
          if negb (bool_decide (aa_Address a = "")) then inl (EStatus InvalidArgument "AddressAllocation.Address must be unset")
          else match ar_Family rq with
          | FAMILY_V4 => if bool_decide (loc_SubnetId loc = "") then inl (EStatus InvalidArgument "Subnet ID must be specified")
                         else inr (a, loc)
          | _ => inl (EStatus Unimplemented "Address family not yet implemented")
          end
      end
  end.

Definition knownAddresses (ni : network_interface) : list string :=
  pi_address <$> where_ (negb ∘ pi_primary) (ni_PrivateIpAddresses ni).

(** The steps from the insertion of the row to its update *)
Definition allocate_in (keys : host_keys) (h : tx) (uuid subnetID : string) : M SignedAddressAllocation :=
  _ ← wrap ("Cannot insert allocation record for UUID " +:+ uuid) (id ← uuid_param h uuid; exec h (insert_allocation id));
  r ← try (queryRow h (λ d, head (where_ (λ s, bool_decide (sn_subnet_id s = subnetID)) (subnets d))));
  match r with
  | inl ENoRows => throw (EStatus NotFound ("Could not find subnet ID " +:+ subnetID))
  | inl e => throw (EWrap "Cannot query subnet" e)
  | inr s =>
      let region := azToRegion (sn_az s) in
      _ ← wrap "Cannot get AWS session" (GetSessionFromAccountAndRegion ec2 (sn_account_id s) region);
      iface ← wrap "Cannot get AWS session" (getStaticInterface h subnetID);
      r ← try (queryRowAny h (free_addresses (knownAddresses iface) (ni_SubnetId iface)));
      match r with
      | inl ENoRows => throw ENoRows
      | inl e => throw (EWrap "Unable to get free IP address" e)
      | inr ipAddress =>
          let allocation := MkAddressAllocation (Some (MkAddressLocation region (sn_az s) (ni_SubnetId iface))) uuid ipAddress in
          bytes ← wrap "Cannot serialize allocation" (lift (proto_Marshal allocation));
          let signature := ed25519_sign (hostPrivateKey keys) bytes in
          _ ← wrap "Could not persist allocation"
                (id ← uuid_param h uuid;
                 exec h (fill_allocation (IpAddressRow id (sn_az s) region (ni_SubnetId iface) ipAddress (NetworkInterfaceId iface)
                   (sn_account_id s) (hostPublicKey keys) (hostPublicKeySignature keys) bytes signature)));
          mret (MkSignedAddressAllocation (Some allocation) (authoritativePublicKey keys) (hostPublicKey keys)
                  (hostPublicKeySignature keys) bytes signature)
      end
  end.

Definition AllocateAddress (keys : host_keys) (rq : AllocateAddressRequest) : M SignedAddressAllocation :=
  x ← lift (validate_request rq);
  let '(a, loc) := x : AddressAllocation * AddressLocation in
  uuid ← (if bool_decide (aa_Uuid a = "") then uuid_New else mret (aa_Uuid a));
  with_tx (wrap "Could not start database transaction" BeginTx) (λ h,
    resp ← allocate_in keys h uuid (loc_SubnetId loc);
    _ ← wrap "Could not commit transaction" (Commit h);
    mret resp).

(** The rows found; the query decides which comes first. *)
Definition query_allocation (h : tx) (p : search_parameter) : M ip_address_row :=
  match p with
  | SearchNone => go_panic "nil pointer dereference"
  | SearchAddress address => queryRowAny h (λ d, where_ (λ r, bool_decide (ip_ip_address r = address)) (ip_addresses d))
  | SearchUuid uuid =>
      id ← uuid_param h uuid;
      queryRowAny h (λ d, where_ (λ r, bool_decide (ip_id r = id)) (ip_addresses d))
  end.

(** The first key under which the signature of the host's key verifies *)
Fixpoint find_key (key_of_host sig : string) (keys : list string) : M (option string) :=
  match keys with
  | [] => mret None
  | k :: keys =>
      b ← ed25519_Verify k key_of_host sig;
      if b : bool then mret (Some k) else find_key key_of_host sig keys
  end.

(** [vpcService.db.QueryContext] *)
Definition db_query {A} (f : db → A) : M A := db_queryRow (λ d, Some (f d)).

(** Without a search parameter, [rows] stays nil. *)
Definition GetAllocation (p : search_parameter) : M SignedAddressAllocation :=
  with_tx (wrap "Could not start database transaction" BeginTx) (λ h,
    r ← try (query_allocation h p);
    match r with
    | inl ENoRows => throw (EStatus NotFound "Could not find allocation")
    | inl e => throw (EWrap "Could not run SQL query" e)
    | inr row =>
        keys ← db_query trusted_public_keys;
        keys ← shuffle keys;
        o ← find_key (ip_host_public_key row) (ip_host_public_key_signature row) keys;
        match o with
        | None => throw (EStatus NotFound "Could not find authoritative public key for record")
        | Some trustedPublicKey =>
            let allocation := MkAddressAllocation (Some (MkAddressLocation (ip_region row) (ip_az row) (ip_subnet_id row)))
                                (ip_id row) (ip_ip_address row) in
            mret (MkSignedAddressAllocation (Some allocation) trustedPublicKey (ip_host_public_key row)
                    (ip_host_public_key_signature row) (ip_message row) (ip_message_signature row))
        end
    end).

(** The request without a signed allocation is a nil dereference. *)
Definition ValidateAllocation (req : option SignedAddressAllocation) : M unit :=
  with_tx (wrap "Could not start database transaction" BeginTx) (λ h,
    match req with
    | None => go_panic "nil pointer dereference"
    | Some s =>
        count ← wrap "Could not run database query for authoritative public key"
                  (query h (λ d, count_where (λ k, bool_decide (k = sa_AuthoritativePublicKey s)) (trusted_public_keys d)));
        if (count =? 0)%nat then throw (EStatus NotFound "authoritative public key not found")
        else
          verify ← ed25519_Verify (sa_AuthoritativePublicKey s) (sa_HostPublicKey s) (sa_HostPublicKeySignature s);
          if negb verify then throw (EStatus InvalidArgument "Unable to validate host signature")
          else
            verify ← ed25519_Verify (sa_HostPublicKey s) (sa_Message s) (sa_MessageSignature s);
            if negb verify then throw (EStatus InvalidArgument "Unable to validate message signature")
            else
              match proto_Unmarshal (sa_Message s) with
              | inl _ => throw (EStatus InvalidArgument "Unable to decode message")
              | inr addressAllocation =>
                  if negb (bool_decide (Some addressAllocation = sa_AddressAllocation s))
                  then throw (EStatus InvalidArgument "Address allocation has  been tampered with")
                  else mret tt
              end
    end).
End WithKeys.
End WithEC2.

(** ** Allocating *)

Section Allocating.
Context (ec2 : ec2_oracle) (ed25519_sign : string → string → string) (proto_Marshal : AddressAllocation → error + string).

(** The ENI: a dummy ENI of the subnet with room that EC2 described, or one that EC2 just created with 49
    secondary addresses and that is new. *)
Definition home_found (subnetID : string) (iface : network_interface) (d : db) (enis : list (string * string)) : Prop :=
  (∃ eniID cs next, (eniID, subnetID) ∈ static_enis d ∧
     (count_where (λ r, bool_decide (ip_home_eni r = eniID)) (ip_addresses d) < 49)%nat ∧
     ec2 _ cs (DescribeNetworkInterfaces [eniID] None) = inr ([iface], next) ∧ enis = static_enis d) ∨
  (∃ cs, ec2 _ cs (CreateStaticNetworkInterface subnetID "titus-static-dummy" 50 49) = inr iface ∧
     (NetworkInterfaceId iface ∉ fst <$> static_enis d) ∧ enis = static_enis d ++ [(NetworkInterfaceId iface, subnetID)]).

Lemma sequel_call_answer {A : Set} h d X (c : ec2_call A) :
  sequel h d X (call ec2 c) (λ a X', X' = X ∧ ∃ cs, ec2 A cs c = inr a).
Proof. intros w Hw. apply wp_call; [|intros e _; by exists X]. intros a Ha. exists X. split; [done|]. eauto. Qed.

Lemma sequel_lift {A} h d X (r : error + A) : sequel h d X (lift r) (λ a X', X' = X ∧ r = inr a).
Proof. destruct r; [apply sequel_throw | by apply sequel_ret]. Qed.

Lemma getStaticInterface_found h d X subnetID :
  sequel h d X (getStaticInterface ec2 h subnetID) (λ iface X', ∃ enis,
    X' = set_static_enis enis X ∧ home_found subnetID iface X enis).
Proof.
  eapply sequel_bind; [apply sequel_try_reads, reads_queryRowAny|]. intros [e|eniID] ? [-> Hin].
  - destruct e; try apply sequel_throw.
    eapply sequel_bind; [apply sequel_try, sequel_call_answer|]. intros [e|ni] X2 HK; simpl in HK; [apply sequel_throw|].
    destruct HK as [-> [cs Hcs]]. eapply sequel_bind; [apply sequel_wrap, sequel_exec|]. intros _ ? [-> Hs].
    apply sequel_ret. eexists. split; [done|]. right. exists cs. split_and!; [done| |done].
    constraint_of Hs "static_enis_eni_id_uindex" C. apply unique_fmap in C. simpl in C. rewrite fmap_app in C.
    apply NoDup_app in C as (_ & Hn & _). intros Hin'. apply (Hn _ Hin'). by left.
  - eapply sequel_bind; [apply sequel_try, sequel_call_answer|].
    intros [e|[l next]] X2 HK; simpl in HK; [apply sequel_throw|]. destruct HK as [-> [cs Hcs]].
    destruct l as [|ni [|]]; [apply sequel_throw| |apply sequel_throw]. apply sequel_ret. exists (static_enis X).
    split; [by destruct X|]. left. exists eniID, cs, next. apply list_elem_of_fmap in Hin as ([e sn] & -> & Hin).
    apply elem_of_where in Hin as [Hin Hr]. apply andb_true_iff in Hr as [Hsn%bool_decide_eq_true Hroom%Z.ltb_lt].
    simpl in Hsn. subst sn. split_and!; [done| |done|done]. unfold home_count, maxAddressesPerInterface in Hroom. simpl in Hroom |- *. lia.
Qed.

Lemma sequel_uuid_param h d X s : sequel h d X (uuid_param h s) (λ id X', X' = X ∧ uuid_in s = Some id).
Proof.
  unfold uuid_param. destruct (uuid_in s) as [id|]; [by apply sequel_ret|].
  eapply sequel_bind; [apply sequel_statement|]. intros _ ? ->. apply sequel_aborts.
Qed.

Lemma sequel_uuid_exec h d X s f :
  sequel h d X (id ← uuid_param h s; exec h (f id)) (λ _ X', ∃ id, uuid_in s = Some id ∧ X' = f id X ∧ schema_ok X').
Proof.
  eapply sequel_bind; [apply sequel_uuid_param|]. intros id ? [-> Hid].
  eapply sequel_mono; [apply sequel_exec|]. intros u X' HX. by exists id.
Qed.

(** What an allocation adds to the database, under the ID that the UUID is printed as, and what
    is answered *)
Record allocated (keys : host_keys) (uuid id subnetID : string) (d : db) (resp : SignedAddressAllocation) (d' : db) : Prop := Allocated {
  al_row : ∃ s iface ip msg enis,
    s ∈ subnets d ∧ sn_subnet_id s = subnetID ∧
    home_found subnetID iface d enis ∧
    (∃ p, p ∈ ni_PrivateIpAddresses iface ∧ pi_primary p = false ∧ pi_address p = ip) ∧
    (∀ r, r ∈ ip_addresses d → ip_subnet_id r = ni_SubnetId iface → ip_ip_address r ≠ ip) ∧
    let region := azToRegion (sn_az s) in
    let allocation := MkAddressAllocation (Some (MkAddressLocation region (sn_az s) (ni_SubnetId iface))) uuid ip in
    let sig := ed25519_sign (hostPrivateKey keys) msg in
    proto_Marshal allocation = inr msg ∧
    resp = MkSignedAddressAllocation (Some allocation) (authoritativePublicKey keys) (hostPublicKey keys)
             (hostPublicKeySignature keys) msg sig ∧
    d' = set_ip_addresses (ip_addresses d ++
           [IpAddressRow id (sn_az s) region (ni_SubnetId iface) ip (NetworkInterfaceId iface) (sn_account_id s)
              (hostPublicKey keys) (hostPublicKeySignature keys) msg sig]) (set_static_enis enis d);
  al_uuid : uuid_in uuid = Some id;
  al_new_id : id ∉ ip_id <$> ip_addresses d
}.

Lemma allocate_in_allocates keys h d uuid subnetID :
  sequel h d d (allocate_in ec2 ed25519_sign proto_Marshal keys h uuid subnetID) (λ resp X', ∃ id, allocated keys uuid id subnetID d resp X').
Proof.
  eapply sequel_bind; [apply sequel_wrap, sequel_uuid_exec|]. intros _ ? (id & Hid & -> & Hs).
  eapply sequel_bind; [apply sequel_try_reads, reads_queryRow|]. intros [e|s] ? [-> Hsub]; [destruct e; apply sequel_throw|].
  eapply sequel_bind; [apply sequel_wrap, sequel_call_answer|]. intros _ ? [-> _].
  eapply sequel_bind; [apply sequel_wrap, getStaticInterface_found|]. intros iface ? (enis & -> & Hhome).
  eapply sequel_bind; [apply sequel_try_reads, reads_queryRowAny|]. intros [e|ip] ? [-> Hip]; [destruct e; apply sequel_throw|].
  eapply sequel_bind; [apply sequel_wrap, sequel_lift|]. intros msg ? [-> Hmsg].
  eapply sequel_bind; [apply sequel_wrap, sequel_uuid_exec|]. intros _ ? (id' & Hid' & -> & _).
  rewrite Hid in Hid'. injection Hid' as <-. apply sequel_ret. exists id.
  apply head_where in Hsub as [Hin Hsub%bool_decide_eq_true]. apply elem_of_where in Hip as [Hip Hfree].
  constraint_of Hs "ip_addresses_pkey" C. apply unique_id in C. simpl in C. rewrite app_assoc in C.
  apply NoDup_app in C as (_ & Hn & _).
  assert (id ∉ (ip_id <$> ip_addresses d) ++ ip_addresses_new d) as Hnew by (intros H; apply (Hn _ H); by left).
  split; [|done|intros H; apply Hnew, elem_of_app; by left].
  exists s, iface, ip, msg, enis. cbv zeta. split_and!; [done|done|exact Hhome| | |done|done|].
  - unfold knownAddresses in Hip. apply list_elem_of_fmap in Hip as (p & -> & Hp). apply elem_of_where in Hp as [Hp Hsec].
    exists p. split_and!; [done|by apply negb_true_iff|done].
  - intros r Hr Hsn Hrip. apply negb_true_iff, bool_decide_eq_false in Hfree. apply Hfree. rewrite <- Hrip.
    apply list_elem_of_fmap_2, elem_of_where. split; [done|]. by apply bool_decide_eq_true_2.
  - unfold fill_allocation. simpl. rewrite bool_decide_eq_true_2 by (apply elem_of_app; right; by left).
    unfold insert_allocation, where_. simpl. rewrite List.filter_app. simpl. rewrite bool_decide_eq_true_2 by done. simpl.
    rewrite app_nil_r, where_all; [by destruct d|]. intros u Hu. apply negb_true_iff, bool_decide_eq_false_2. intros ->.
    apply Hnew, elem_of_app. by right.
Qed.

Lemma validate_request_allocation rq a loc : validate_request rq = inr (a, loc) → ar_AddressAllocation rq = Some a.
Proof. unfold validate_request. intros H. repeat case_match; simplify_eq/=; done. Qed.

(** The UUID of the request if it has one, and else one that is printed as it is *)
Definition of_request (a : AddressAllocation) (uuid id : string) : Prop :=
  if bool_decide (aa_Uuid a = "") then id = uuid else uuid = aa_Uuid a.

Lemma AllocateAddress_spec keys rq w :
  wp (AllocateAddress ec2 ed25519_sign proto_Marshal keys rq) (λ r w',
    match r with
    | Ok resp => ∃ a loc uuid id, validate_request rq = inr (a, loc) ∧ of_request a uuid id ∧
        allocated keys uuid id (loc_SubnetId loc) (w_db w) resp (w_db w') ∧ schema_ok (w_db w')
    | Fail _ => w_db w' = w_db w
    | Panic _ => False
    end) w.
Proof.
  apply wp_bind. destruct (validate_request rq) as [e|[a loc]]; [by apply wp_throw|]. apply wp_ret.
  assert (∀ uuid w0, (∀ id, uuid_in uuid = Some id → of_request a uuid id) → w_db w0 = w_db w →
    wp (with_tx (wrap "Could not start database transaction" BeginTx) (λ h,
          resp ← allocate_in ec2 ed25519_sign proto_Marshal keys h uuid (loc_SubnetId loc);
          _ ← wrap "Could not commit transaction" (Commit h);
          mret resp)) (λ r w', match r with
      | Ok resp => ∃ a' loc' uuid id, inr (a, loc) = inr (A := error) (a', loc') ∧ of_request a' uuid id ∧
          allocated keys uuid id (loc_SubnetId loc') (w_db w) resp (w_db w') ∧ schema_ok (w_db w')
      | Fail _ => w_db w' = w_db w
      | Panic _ => False
      end) w0) as Htx.
  { intros uuid w0 Hu Hd. rewrite <- Hd.
    apply (wp_with_tx_ends _ _ (λ r d', match r with
      | Ok resp => ∃ a' loc' uuid id, inr (a, loc) = inr (A := error) (a', loc') ∧ of_request a' uuid id ∧
          allocated keys uuid id (loc_SubnetId loc') (w_db w0) resp d' ∧ schema_ok d'
      | Fail _ => d' = w_db w0
      | Panic _ => False
      end)); [apply wp_BeginTx_wrap|done|]. intros h.
    eapply ends_bind; [apply allocate_in_allocates|done|]. intros resp X [id HX]. apply ends_commit; [done|].
    intros w1 Hd1 Hs. apply wp_ret. rewrite Hd1. exists a, loc, uuid, id. split_and!; [done| |done|done]. apply Hu, HX. }
  unfold of_request in Htx |- *. apply wp_bind. case_bool_decide as E; [apply wp_uuid; intros u Hu | apply wp_ret]; apply Htx; try done.
  intros id Hid. rewrite Hu in Hid. by injection Hid as <-.
Qed.

(** *** Room on the dummy ENIs *)

(** Every allocation has a home among the dummy ENIs, and none of these has more than
    an ENI of EC2 has room for besides its primary address. *)
Definition homes_ok (d : db) : Prop :=
  (∀ r, r ∈ ip_addresses d → ip_home_eni r ∈ fst <$> static_enis d) ∧
  ∀ eni, (count_where (λ r, bool_decide (ip_home_eni r = eni)) (ip_addresses d) ≤ 49)%nat.

Lemma home_count_none eni d : homes_ok d → eni ∉ fst <$> static_enis d →
  count_where (λ r, bool_decide (ip_home_eni r = eni)) (ip_addresses d) = 0%nat.
Proof.
  intros [Hh _] Hn. unfold count_where. rewrite where_nil; [done|]. intros r Hr.
  apply bool_decide_eq_false. intros <-. by apply Hn, Hh.
Qed.

(** EC2 answers a description of one ENI with that ENI. *)
Definition describes_asked : Prop := ∀ cs id ni next,
  ec2 _ cs (DescribeNetworkInterfaces [id] None) = inr ([ni], next) → NetworkInterfaceId ni = id.

Lemma allocated_homes keys uuid id subnetID d resp d' :
  describes_asked → homes_ok d → allocated keys uuid id subnetID d resp d' → homes_ok d'.
Proof.
  intros Hasked Hok [(s & iface & ip & msg & enis & _ & _ & Hhome & _ & _ & _ & _ & ->) _ _].
  assert ((NetworkInterfaceId iface ∈ fst <$> enis) ∧ (fst <$> static_enis d) ⊆ (fst <$> enis) ∧
          (count_where (λ r, bool_decide (ip_home_eni r = NetworkInterfaceId iface)) (ip_addresses d) < 49)%nat) as (Hin & Hsub & Hroom).
  { destruct Hhome as [(eniID & cs & next & Hin & Hroom & Hcs & ->)|(cs & _ & Hn & ->)].
    - rewrite (Hasked _ _ _ _ Hcs). by apply (list_elem_of_fmap_2 fst) in Hin.
    - rewrite fmap_app. split_and!; [apply elem_of_app; right; by left | set_solver |].
      rewrite home_count_none by done. lia. }
  destruct Hok as [Hh Hc]. split; simpl.
  - intros r [Hr| ->%list_elem_of_singleton]%elem_of_app; [by apply Hsub, Hh | exact Hin].
  - intros eni. rewrite count_where_app. unfold count_where at 2. simpl.
    specialize (Hc eni). destruct (bool_decide_reflect (NetworkInterfaceId iface = eni)) as [<-|Hne]; simpl; lia.
Qed.
End Allocating.

(** ** Validating *)

Section Validating.
Context (ed25519_verify : string → string → string → bool) (proto_Unmarshal : string → error + AddressAllocation).

(** From the authoritative key to the key of the host, from there to the message, and what the message says *)
Definition signed_chain (s : SignedAddressAllocation) : Prop :=
  String.length (sa_AuthoritativePublicKey s) = 32%nat ∧
  ed25519_verify (sa_AuthoritativePublicKey s) (sa_HostPublicKey s) (sa_HostPublicKeySignature s) = true ∧
  String.length (sa_HostPublicKey s) = 32%nat ∧
  ed25519_verify (sa_HostPublicKey s) (sa_Message s) (sa_MessageSignature s) = true ∧
  ∃ a, proto_Unmarshal (sa_Message s) = inr a ∧ sa_AddressAllocation s = Some a.

Lemma wp_ed25519_Verify key msg sig (Q : res error bool → world → Prop) w :
  (String.length key = 32%nat → Q (Ok (ed25519_verify key msg sig)) w) →
  (String.length key ≠ 32%nat → ∀ s, Q (Panic s) w) → wp (ed25519_Verify ed25519_verify key msg sig) Q w.
Proof.
  intros H1 H2. unfold ed25519_Verify. destruct (Nat.eqb_spec (String.length key) 32); [by apply wp_ret, H1 | by apply wp_panic, H2].
Qed.

(** The checks after the query *)
Lemma wp_signed_chain s trusted (w : world) :
  wp (if negb trusted then throw (EStatus NotFound "authoritative public key not found")
      else
        verify ← ed25519_Verify ed25519_verify (sa_AuthoritativePublicKey s) (sa_HostPublicKey s) (sa_HostPublicKeySignature s);
        if negb verify then throw (EStatus InvalidArgument "Unable to validate host signature")
        else
          verify ← ed25519_Verify ed25519_verify (sa_HostPublicKey s) (sa_Message s) (sa_MessageSignature s);
          if negb verify then throw (EStatus InvalidArgument "Unable to validate message signature")
          else
            match proto_Unmarshal (sa_Message s) with
            | inl _ => throw (EStatus InvalidArgument "Unable to decode message")
            | inr a => if negb (bool_decide (Some a = sa_AddressAllocation s))
                       then throw (EStatus InvalidArgument "Address allocation has  been tampered with") else mret tt
            end)
    (λ r w', w' = w ∧ (r = Ok tt ↔ trusted = true ∧ signed_chain s)) w.
Proof.
  unfold signed_chain. destruct trusted; simpl; [|apply wp_throw; naive_solver].
  apply wp_bind, wp_ed25519_Verify; [intros H1 | intros H1 ?; naive_solver].
  destruct (ed25519_verify (sa_AuthoritativePublicKey s) _ _) eqn:H2; simpl; [|apply wp_throw; naive_solver].
  apply wp_bind, wp_ed25519_Verify; [intros H3 | intros H3 ?; naive_solver].
  destruct (ed25519_verify (sa_HostPublicKey s) _ _) eqn:H4; simpl; [|apply wp_throw; naive_solver].
  destruct (proto_Unmarshal _) as [e|a] eqn:H5; [apply wp_throw; naive_solver|].
  case_bool_decide as H6; simpl; [apply wp_ret | apply wp_throw]; naive_solver.
Qed.

(** A validation that fails without a fault *)
Lemma ValidateAllocation_spec s w :
  wp (ValidateAllocation ed25519_verify proto_Unmarshal (Some s)) (λ r w',
    w_db w' = w_db w ∧
    (r = Ok tt → sa_AuthoritativePublicKey s ∈ trusted_public_keys (w_db w) ∧ signed_chain s) ∧
    (w_faults w = [] → sa_AuthoritativePublicKey s ∈ trusted_public_keys (w_db w) → signed_chain s → r = Ok tt)) w.
Proof.
  assert (∀ (e : error) (fs : list (option error)) (w' : world), (length fs < length (w_faults w))%nat → w_db w' = w_db w →
    w_db w' = w_db w ∧ ((Fail e : res error unit) = Ok tt → sa_AuthoritativePublicKey s ∈ trusted_public_keys (w_db w) ∧ signed_chain s) ∧
    (w_faults w = [] → sa_AuthoritativePublicKey s ∈ trusted_public_keys (w_db w) → signed_chain s → (Fail e : res error unit) = Ok tt)) as Hfault.
  { intros e fs w' Hl Hd. split_and!; [done|done|]. intros Hf. rewrite Hf in Hl. simpl in Hl. lia. }
  apply wp_with_tx, wp_wrap, wp_BeginTx; [|intros e fs Hl; by eapply Hfault]. intros fs Hfs.
  apply wp_bind, wp_wrap. eapply wp_query; [apply lookup_insert_eq|..].
  2:{ intros e fs' Hl. eapply (Hfault _ fs'); [simpl in Hl; lia|done]. }
  intros fs' Hl. simpl.
  set (count := count_where _ _).
  assert ((count =? 0)%nat = negb (bool_decide (sa_AuthoritativePublicKey s ∈ trusted_public_keys (w_db w)))) as ->.
  { case_bool_decide as Hin; simpl; [apply Nat.eqb_neq | apply Nat.eqb_eq].
    - assert (0 < count)%nat; [|lia]. eapply count_where_pos; [exact Hin|]. by apply bool_decide_eq_true_2.
    - unfold count, count_where. rewrite where_nil; [done|]. intros k Hk. apply bool_decide_eq_false. by intros ->. }
  eapply wp_mono; [apply wp_signed_chain|]. intros r w' [-> Hr]. simpl. rewrite bool_decide_eq_true in Hr.
  split_and!; [done | apply Hr |]. intros _ H1 H2. by apply Hr.
Qed.
End Validating.

(** ** Fetching *)

Section Fetching.
Context (ed25519_verify : string → string → string → bool).

Lemma wp_shuffle {A} (l : list A) Q w : (∀ l' ns, l' ≡ₚ l → Q (Ok l') (set_rand ns w)) → wp (shuffle l) Q w.
Proof.
  revert Q w. induction l as [|x l IH]; intros Q w HQ; simpl.
  - apply wp_ret. destruct w. by apply (HQ []).
  - apply wp_bind, IH. intros l' ns Hl'. apply wp_bind, wp_random. intros n ns'. apply wp_ret. apply HQ.
    rewrite <- Permutation_middle, take_drop. by constructor.
Qed.

Lemma wp_find_key host sig keys (Q : res error (option string) → world → Prop) w :
  (∀ k, k ∈ keys → String.length k = 32%nat) →
  (∀ k, k ∈ keys → ed25519_verify k host sig = true → Q (Ok (Some k)) w) →
  ((∀ k, k ∈ keys → ed25519_verify k host sig = false) → Q (Ok None) w) →
  wp (find_key ed25519_verify host sig keys) Q w.
Proof.
  induction keys as [|k keys IH]; intros Hlen HSome HNone; simpl; [apply wp_ret, HNone; by intros k ?%elem_of_nil|].
  apply wp_bind, wp_ed25519_Verify; [intros _ | by intros []; apply Hlen; left].
  destruct (ed25519_verify k host sig) eqn:E; [apply wp_ret, HSome; [by left|done]|].
  apply IH; [intros; apply Hlen; by right | intros; apply HSome; [by right|done] |].
  intros H. apply HNone. intros k' [->|Hk']%elem_of_cons; [done | by apply H].
Qed.

(** An allocation that is there is found by its UUID, however that is written, if the key of its host is trusted. *)
Lemma GetAllocation_finds row uuid w :
  uuid_in uuid = Some (ip_id row) →
  w_faults w = [] → schema_ok (w_db w) → row ∈ ip_addresses (w_db w) →
  (∀ k, k ∈ trusted_public_keys (w_db w) → String.length k = 32%nat) →
  (∃ k, k ∈ trusted_public_keys (w_db w) ∧ ed25519_verify k (ip_host_public_key row) (ip_host_public_key_signature row) = true) →
  wp (GetAllocation ed25519_verify (SearchUuid uuid)) (λ r w', w_db w' = w_db w ∧ ∃ k,
    k ∈ trusted_public_keys (w_db w) ∧ ed25519_verify k (ip_host_public_key row) (ip_host_public_key_signature row) = true ∧
    r = Ok (MkSignedAddressAllocation (Some (MkAddressAllocation
              (Some (MkAddressLocation (ip_region row) (ip_az row) (ip_subnet_id row))) (ip_id row) (ip_ip_address row)))
              k (ip_host_public_key row) (ip_host_public_key_signature row) (ip_message row) (ip_message_signature row))) w.
Proof.
  intros Huuid Hf Hs Hrow Hlen (k0 & Hk0 & Hv0).
  apply wp_with_tx, wp_wrap, wp_BeginTx; [|rewrite Hf; simpl; lia]. intros [|] Hfs; [|rewrite Hf in Hfs; simpl in Hfs; lia].
  apply wp_bind, wp_try. simpl. unfold uuid_param. rewrite Huuid. apply wp_bind, wp_ret.
  assert (row ∈ where_ (λ r, bool_decide (ip_id r = ip_id row)) (ip_addresses (w_db w))) as Hin.
  { apply elem_of_where. split; [done|]. by apply bool_decide_eq_true_2. }
  eapply wp_queryRowAny; [apply lookup_insert_eq|..]; simpl; [|intros ? ? _ Hnil|intros; lia].
  2:{ unfold Datatypes.id in Hnil. simpl in Hin. rewrite Hnil in Hin. by apply elem_of_nil in Hin. }
  intros row' [|] ns Hfs'; [|simpl in Hfs'; lia]. intros [Hrow' Hid%bool_decide_eq_true]%elem_of_where.
  assert (row' = row) as ->.
  { constraint_of Hs "ip_addresses_pkey" C. apply unique_id, NoDup_app in C as (C & _ & _).
    by apply (unique_key ip_id (ip_addresses (w_db w))); [apply unique_fmap|..]. }
  apply wp_bind. apply wp_bind, wp_no_fault; [done|]. apply wp_act. simpl.
  apply wp_bind, wp_shuffle. intros keys ns' Hperm.
  apply wp_bind, wp_find_key.
  - intros k Hk. apply Hlen. by rewrite <- Hperm.
  - intros k Hk Hv. apply wp_ret. split; [done|]. exists k. by rewrite <- Hperm.
  - intros Hnone. rewrite (Hnone k0) in Hv0; [done|]. by rewrite Hperm.
Qed.
End Fetching.

(** ** Claims *)

(** C36: What [AllocateAddress] answers can be trusted and found again.  In a database
    that has the allocation and trusts the long-lived key of the service, all of whose trusted keys have 32 bytes,
    and without faults, [ValidateAllocation] accepts the answer, and [GetAllocation] finds the allocation under
    its UUID, with the same message and signatures, under the UUID that PostgreSQL prints.  [ValidateAllocation]
    accepts what was found exactly if that is the UUID as it was signed, which it is if the request had no UUID,
    or had it in that form. *)
Theorem allocation_round_trip (ec2 : ec2_oracle) (sign : string → string → string) (public : string → string)
    (verify : string → string → string → bool) (marshal : AddressAllocation → error + string)
    (unmarshal : string → error + AddressAllocation) (ed25519key privateKey : string)
    (sign_verifies : ∀ sk msg, verify (public sk) msg (sign sk msg) = true)
    (public_length : ∀ sk, String.length (public sk) = 32%nat)
    (marshal_unmarshal : ∀ a msg, marshal a = inr msg → unmarshal msg = inr a)
    rq w resp w' w2 :
  AllocateAddress ec2 sign marshal (service_keys sign public ed25519key privateKey) rq w = (Ok resp, w') →
  w_db w2 = w_db w' → w_faults w2 = [] →
  public ed25519key ∈ trusted_public_keys (w_db w2) →
  (∀ k, k ∈ trusted_public_keys (w_db w2) → String.length k = 32%nat) →
  (ValidateAllocation verify unmarshal (Some resp) w2).1 = Ok tt ∧
  ∃ loc uuid id ip resp', sa_AddressAllocation resp = Some (MkAddressAllocation loc uuid ip) ∧
    uuid_in uuid = Some id ∧
    (∀ a, ar_AddressAllocation rq = Some a → if bool_decide (aa_Uuid a = "") then id = uuid else uuid = aa_Uuid a) ∧
    (GetAllocation verify (SearchUuid uuid) w2).1 = Ok resp' ∧
    sa_AddressAllocation resp' = Some (MkAddressAllocation loc id ip) ∧ sa_HostPublicKey resp' = sa_HostPublicKey resp ∧
    sa_HostPublicKeySignature resp' = sa_HostPublicKeySignature resp ∧
    sa_Message resp' = sa_Message resp ∧ sa_MessageSignature resp' = sa_MessageSignature resp ∧
    ((ValidateAllocation verify unmarshal (Some resp') w2).1 = Ok tt ↔ id = uuid).
Proof.
  intros E Hd Hf Htrust Hlen. pose proof (wp_elim _ _ _ _ _ (AllocateAddress_spec ec2 sign marshal _ rq w) E) as
    (a & loc & uuid & id & Hrq & Hof & [(s & iface & ip & msg & enis & _ & _ & _ & _ & _ & Hmsg & Hresp & Hd') Huuid _] & Hs).
  cbv zeta in Hmsg, Hresp, Hd'. apply validate_request_allocation in Hrq.
  assert (∀ resp', sa_AuthoritativePublicKey resp' ∈ trusted_public_keys (w_db w2) →
    (ValidateAllocation verify unmarshal (Some resp') w2).1 = Ok tt ↔ signed_chain verify unmarshal resp') as Hval.
  { intros resp' Ht. pose proof (ValidateAllocation_spec verify unmarshal resp' w2) as H. unfold wp in H.
    split; intros HH; by apply H. }
  split.
  - apply Hval; subst resp; [done|].
    split_and!; [apply public_length|apply sign_verifies|apply public_length|apply sign_verifies|eauto].
  - pose proof (GetAllocation_finds verify
      (IpAddressRow id (sn_az s) (azToRegion (sn_az s)) (ni_SubnetId iface) ip (NetworkInterfaceId iface) (sn_account_id s)
         (public privateKey) (sign ed25519key (public privateKey)) msg (sign privateKey msg)) uuid w2 Huuid Hf) as H.
    rewrite Hd in H, Hlen, Htrust. specialize (H Hs ltac:(rewrite Hd'; apply elem_of_app; right; by left) Hlen).
    specialize (H ltac:(exists (public ed25519key); by split)). unfold wp in H. destruct H as (_ & k & Hk & Hv & Hr).
    subst resp. do 5 eexists. split_and!; [done|exact Huuid| |exact Hr|done..|].
    { intros a' Ha'. rewrite Hrq in Ha'. by injection Ha' as <-. }
    rewrite Hval by (simpl; by rewrite Hd). unfold signed_chain. simpl. split.
    + intros (_ & _ & _ & _ & a' & Ha' & Heq). rewrite (marshal_unmarshal _ _ Hmsg) in Ha'. congruence.
    + intros ->. split_and!; [by apply Hlen|done|apply public_length|apply sign_verifies|eauto].
Qed.

(** C35: [AllocateAddress] either fails and changes nothing, or adds exactly one
    allocation, with the UUID of the request if it has one: of a secondary address of a dummy ENI of
    the subnet that was not allocated there before.  No ENI is ever given more than the 49
    allocations that it has room for besides its primary address. *)
Theorem AllocateAddress_allocates ec2 sign marshal keys rq w r w' :
  describes_asked ec2 → homes_ok (w_db w) → AllocateAddress ec2 sign marshal keys rq w = (r, w') →
  homes_ok (w_db w') ∧
  match r with
  | Ok resp => ∃ a loc uuid id, validate_request rq = inr (a, loc) ∧ of_request a uuid id ∧
      allocated ec2 sign marshal keys uuid id (loc_SubnetId loc) (w_db w) resp (w_db w')
  | Fail _ => w_db w' = w_db w
  | Panic _ => False
  end.
Proof.
  intros Hasked Hok E. pose proof (wp_elim _ _ _ _ _ (AllocateAddress_spec ec2 sign marshal keys rq w) E) as H.
  destruct r as [resp|e|s]; [|by rewrite H|done]. destruct H as (a & loc & uuid & id & Hrq & Hu & Hal & _).
  split; [by eapply allocated_homes | by exists a, loc, uuid, id].
Qed.

(** [ValidateAllocation] changes nothing.  It accepts only an allocation
    whose chain of signatures goes from a trusted key over the key of the host to the message, and whose message
    says what the allocation says; without faults it accepts every one. *)
Theorem ValidateAllocation_accepts verify unmarshal s w :
  let '(r, w') := ValidateAllocation verify unmarshal (Some s) w in
  w_db w' = w_db w ∧
  (r = Ok tt → sa_AuthoritativePublicKey s ∈ trusted_public_keys (w_db w) ∧ signed_chain verify unmarshal s) ∧
  (w_faults w = [] → sa_AuthoritativePublicKey s ∈ trusted_public_keys (w_db w) → signed_chain verify unmarshal s → r = Ok tt).
Proof.
  pose proof (ValidateAllocation_spec verify unmarshal s w) as H. unfold wp in H. by destruct (ValidateAllocation _ _ _ _).
Qed.
