(* ===== verification/Hedge.v ===== *)
(** * Hedge: a request made several times

    Models [vpc/service/ec2wrapper/hedge.go].  [hedge] starts one goroutine for each
    delay; each waits for its delay and makes the request, and the first answer
    that is not an error is returned.  Errors are returned when all requests failed,
    or when the context is done.

    [hedge_step] is what one of the goroutines does next, at a given time; a run is
    a list of times and labels.  The request and its answer are two steps; the answer is
    part of the label.  [hs_calls] and [hs_answers] record the requests. *)
From S2P Require Import Prelude Errors.

Open Scope Z_scope.
Open Scope list_scope.

Section Hedge.
Context {Out : Type}.

(** Where a [hedger] is *)
Inductive hedger_pc :=
| HBegin (delay : Z)
| HWaiting (fires : Z)
| HCalling
| HSending (response : error + Out)
| HDone.

(** Where [hedge] is, and what it returns *)
Inductive hedge_pc :=
| HLoop (responses : list error)
| HReturned (output : option Out) (err : option error).

(** [hs_ctx] is how the context of the caller is done: by its deadline or not. *)
Record hedge_state := HedgeState {
  hs_hedgers : list hedger_pc;
  hs_channel : list (error + Out);
  hs_main : hedge_pc;
  hs_ctx : option bool;
  hs_calls : list (nat * Z);
  hs_answers : list (error + Out)
}.

Definition set_hedger (i : nat) (p : hedger_pc) (s : hedge_state) : hedge_state :=
  HedgeState (<[i:=p]> (hs_hedgers s)) (hs_channel s) (hs_main s) (hs_ctx s) (hs_calls s) (hs_answers s).
Definition set_channel (c : list (error + Out)) (s : hedge_state) : hedge_state :=
  HedgeState (hs_hedgers s) c (hs_main s) (hs_ctx s) (hs_calls s) (hs_answers s).
Definition set_hmain (m : hedge_pc) (s : hedge_state) : hedge_state :=
  HedgeState (hs_hedgers s) (hs_channel s) m (hs_ctx s) (hs_calls s) (hs_answers s).
Definition set_hctx (c : option bool) (s : hedge_state) : hedge_state :=
  HedgeState (hs_hedgers s) (hs_channel s) (hs_main s) c (hs_calls s) (hs_answers s).
Definition add_call (c : nat * Z) (s : hedge_state) : hedge_state :=
  HedgeState (hs_hedgers s) (hs_channel s) (hs_main s) (hs_ctx s) (hs_calls s ++ [c]) (hs_answers s).
Definition add_answer (r : error + Out) (s : hedge_state) : hedge_state :=
  HedgeState (hs_hedgers s) (hs_channel s) (hs_main s) (hs_ctx s) (hs_calls s) (hs_answers s ++ [r]).

Definition hedge_returned (s : hedge_state) : bool :=
  match hs_main s with HReturned _ _ => true | HLoop _ => false end.

(** The context of the goroutines is cancelled when [hedge] returns. *)
Definition hedgers_done (s : hedge_state) : bool :=
  match hs_ctx s with Some _ => true | None => hedge_returned s end.

(** What follows the label [out] *)
Definition hedge_out (ctx : option bool) (responses : list error) : hedge_pc :=
  match responses with
  | [] => HReturned None (ECtx <$> ctx)
  | _ => HReturned None (Some (EMulti responses))
  end.

(** The condition of the loop *)
Definition hedge_next (n : nat) (ctx : option bool) (responses : list error) : hedge_pc :=
  if (length responses <? n)%nat then HLoop responses else hedge_out ctx responses.

Definition hedge (delays : list Z) : hedge_state :=
  HedgeState (HBegin <$> delays) [] (hedge_next (length delays) None []) None [] [].

(** [HCancel] is the context of the caller; after [hedge] returned nobody looks at it. *)
Inductive hedge_label :=
| HCancel (deadline : bool)
| HStart (i : nat)
| HTimer (i : nat)
| HAbort (i : nat)
| HAnswer (i : nat) (r : error + Out)
| HSend (i : nat)
| HReceive
| HCtxDone.

Definition hedger_call (now : Z) (i : nat) (s : hedge_state) : hedge_state := add_call (i, now) (set_hedger i HCalling s).

(** [hedger], from where it is *)
Definition hedger_step (now : Z) (l : hedge_label) (i : nat) (p : hedger_pc) (s : hedge_state) : option hedge_state :=
  match l, p with
  | HStart _, HBegin delay =>
      Some (if 0 <? delay then set_hedger i (HWaiting (now + delay)) s else hedger_call now i s)
  | HTimer _, HWaiting fires => if fires <=? now then Some (hedger_call now i s) else None
  | HAbort _, (HWaiting _ | HSending _) => if hedgers_done s then Some (set_hedger i HDone s) else None
  | HAnswer _ r, HCalling => Some (add_answer r (set_hedger i (HSending r) s))
  | HSend _, HSending r =>
      if (length (hs_channel s) <? length (hs_hedgers s))%nat
      then Some (set_channel (hs_channel s ++ [r]) (set_hedger i HDone s)) else None
  | _, _ => None
  end.

Definition hedge_step (now : Z) (l : hedge_label) (s : hedge_state) : option hedge_state :=
  match l with
  | HCancel deadline =>
      match hs_main s, hs_ctx s with
      | HLoop _, None => Some (set_hctx (Some deadline) s)
      | _, _ => None
      end
  | HReceive =>
      match hs_main s, hs_channel s with
      | HLoop _, inr output :: c => Some (set_hmain (HReturned (Some output) None) (set_channel c s))
      | HLoop responses, inl e :: c =>
          Some (set_hmain (hedge_next (length (hs_hedgers s)) (hs_ctx s) (responses ++ [e])) (set_channel c s))
      | _, _ => None
      end
  | HCtxDone =>
      match hs_main s, hs_ctx s with
      | HLoop responses, Some _ => Some (set_hmain (hedge_out (hs_ctx s) responses) s)
      | _, _ => None
      end
  | HStart i | HTimer i | HAbort i | HAnswer i _ | HSend i =>
      match hs_hedgers s !! i with Some p => hedger_step now l i p s | None => None end
  end.

Fixpoint hedge_run (ls : list (Z * hedge_label)) (s : hedge_state) : option hedge_state :=
  match ls with
  | [] => Some s
  | (now, l) :: ls => match hedge_step now l s with Some s' => hedge_run ls s' | None => None end
  end.
End Hedge.

Arguments hedger_pc : clear implicits.
Arguments hedge_pc : clear implicits.
Arguments hedge_state : clear implicits.
Arguments hedge_label : clear implicits.

(** ** Invariants *)

Section Facts.
Context {Out : Type}.
Implicit Types (s : hedge_state Out) (p : hedger_pc Out) (hs : list (hedger_pc Out)).

Definition sending hs : list (error + Out) := omap (λ p, match p with HSending r => Some r | _ => None end) hs.
Definition unanswered p : nat := match p with HBegin _ | HWaiting _ | HCalling => 1 | _ => 0 end.
Definition active p : nat := match p with HDone => 0 | _ => 1 end.

(** What was returned: the output of a request; an error for each request; or some errors, or
    the one of the context, when that is done. *)
Definition hedge_result (n : nat) (ctx : option bool) (answers : list (error + Out)) (output : option Out) (err : option error) : Prop :=
  match output, err with
  | Some o, None => inr o ∈ answers
  | None, Some (EMulti es) => es ≠ [] ∧ inl <$> es ⊆+ answers ∧ (length es = n ∨ is_Some ctx)
  | None, Some e => ∃ b, ctx = Some b ∧ e = ECtx b
  | None, None => n = 0%nat
  | _, _ => False
  end.

Record hedge_inv (n : nat) s : Prop := {
  hi_length : length (hs_hedgers s) = n;
  hi_count : (length (hs_answers s) + sum_list_with unanswered (hs_hedgers s) ≤ n)%nat;
  hi_channel : hs_channel s ++ sending (hs_hedgers s) ⊆+ hs_answers s;
  hi_main : match hs_main s with
            | HLoop es => (length es < n)%nat ∧ (inl <$> es) ++ hs_channel s ++ sending (hs_hedgers s) ⊆+ hs_answers s ∧
                (hs_ctx s = None →
                 (length es + length (hs_channel s) + sum_list_with active (hs_hedgers s) = n)%nat)
            | HReturned output err => hedge_result n (hs_ctx s) (hs_answers s) output err
            end
}.

Lemma hedge_result_mono n ctx answers answers' o e :
  answers ⊆+ answers' → hedge_result n ctx answers o e → hedge_result n ctx answers' o e.
Proof.
  intros H. unfold hedge_result. destruct o as [o|], e as [[]|]; try done.
  - intros Hin. by eapply elem_of_submseteq.
  - intros (Hne & Hs & Hc). split_and!; [done | by etrans | done].
Qed.

Lemma hedge_out_result n ctx es answers :
  inl <$> es ⊆+ answers → (length es = n ∨ is_Some ctx) →
  ∃ o e, hedge_out ctx es = HReturned o e ∧ hedge_result n ctx answers o e.
Proof.
  intros Hs Hc. unfold hedge_out. destruct es as [|x es].
  - do 2 eexists. split; [done|]. destruct ctx as [b|]; simpl; [by exists b|]. destruct Hc as [<-|[? Hc]]; done.
  - do 2 eexists. split; [done|]. simpl. done.
Qed.

Lemma hedge_inv_init delays : hedge_inv (length delays) (hedge delays : hedge_state Out).
Proof.
  assert (∀ f, (∀ d, f (@HBegin Out d) = 1%nat) → sum_list_with f (HBegin <$> delays) = length delays) as Hsum.
  { intros f Hf. induction delays as [|d ds IH]; csimpl; [done|]. by rewrite Hf, IH. }
  assert (sending (HBegin <$> delays) = []) as Hsend by (clear Hsum; unfold sending; induction delays as [|? ? IH]; [done | exact IH]).
  split; simpl; [by rewrite length_fmap | rewrite Hsum; done | by rewrite Hsend |].
  unfold hedge_next. destruct (Nat.ltb_spec (@length error []) (length delays)) as [H|H]; simpl in H.
  - rewrite Hsend, Hsum by done. split_and!; [exact H | done | done].
  - simpl. lia.
Qed.

(** The invariant after a goroutine moved and an answer was recorded or sent *)
Lemma hedge_inv_hedger n s i p p' :
  hedge_inv n s → hs_hedgers s !! i = Some p → (unanswered p' ≤ unanswered p)%nat →
  (hs_ctx s = None → active p' = active p ∨ hedge_returned s = true) → sending [p'] ⊆+ sending [p] →
  hedge_inv n (set_hedger i p' s).
Proof.
  intros [Hl Hc Hch Hm] Hi Hu Ha Hs. destruct (list_split_at _ _ _ Hi) as (l1 & l2 & E & _ & Hins).
  assert (∀ q, sending (l1 ++ q :: l2) = sending l1 ++ sending [q] ++ sending l2) as Hsend.
  { intros q. unfold sending. by rewrite !omap_app, <- (omap_app _ [q]). }
  assert (sending (l1 ++ p' :: l2) ⊆+ sending (l1 ++ p :: l2)) as Hsub.
  { rewrite !Hsend. apply submseteq_app; [done|]. by apply submseteq_app. }
  assert (∀ f q, sum_list_with f (l1 ++ q :: l2) = sum_list_with f l1 + f q + sum_list_with f l2)%nat as Hsum.
  { intros f q. rewrite sum_list_with_app. simpl. lia. }
  split; simpl; rewrite ?Hins.
  - rewrite E in Hl. rewrite <- Hl, !length_app. done.
  - rewrite E, Hsum in Hc. rewrite Hsum. lia.
  - etrans; [|exact Hch]. rewrite E. by apply submseteq_app.
  - unfold hedge_returned in Ha. destruct (hs_main s) as [es|o e]; [|done]. destruct Hm as (H1 & H2 & H3). split_and!; [done| |].
    + etrans; [|exact H2]. rewrite E. apply submseteq_app; [done|]. by apply submseteq_app.
    + intros Hctx. specialize (H3 Hctx). rewrite E, Hsum in H3. rewrite Hsum. destruct (Ha Hctx) as [->|]; done.
Qed.

Lemma hedge_inv_add_call n s c : hedge_inv n s → hedge_inv n (add_call c s).
Proof. by intros []. Qed.

Lemma hedge_inv_answer n s i r : hedge_inv n s → hs_hedgers s !! i = Some HCalling → hedge_inv n (add_answer r (set_hedger i (HSending r) s)).
Proof.
  intros [Hl Hc Hch Hm] Hi. destruct (list_split_at _ _ _ Hi) as (l1 & l2 & E & _ & Hins).
  assert (sending (l1 ++ HSending r :: l2) ≡ₚ r :: sending (hs_hedgers s)) as Hsend.
  { rewrite E. unfold sending. rewrite !omap_app. simpl. by rewrite Permutation_middle. }
  split; simpl; rewrite ?Hins.
  - rewrite E in Hl. rewrite <- Hl, !length_app. done.
  - rewrite E, sum_list_with_app in Hc. simpl in Hc. rewrite length_app, sum_list_with_app. simpl. lia.
  - rewrite Hsend, <- Permutation_middle, (Permutation_app_comm _ [r]). by apply submseteq_skip.
  - destruct (hs_main s) as [es|o e].
    + destruct Hm as (H1 & H2 & H3). split_and!; [done| |].
      * rewrite Hsend, app_assoc, <- Permutation_middle, <- app_assoc, (Permutation_app_comm _ [r]). by apply submseteq_skip.
      * intros Hctx. specialize (H3 Hctx). rewrite E, sum_list_with_app in H3. rewrite sum_list_with_app. done.
    + eapply hedge_result_mono; [|exact Hm]. by apply submseteq_inserts_r.
Qed.

Lemma hedge_inv_send n s i r :
  hedge_inv n s → hs_hedgers s !! i = Some (HSending r) → hedge_inv n (set_channel (hs_channel s ++ [r]) (set_hedger i HDone s)).
Proof.
  intros [Hl Hc Hch Hm] Hi. destruct (list_split_at _ _ _ Hi) as (l1 & l2 & E & _ & Hins).
  assert ((hs_channel s ++ [r]) ++ sending (l1 ++ HDone :: l2) ≡ₚ hs_channel s ++ sending (hs_hedgers s)) as Hsend.
  { rewrite E, <- app_assoc. apply Permutation_app_head. unfold sending. rewrite !omap_app. simpl. by rewrite Permutation_middle. }
  split; simpl; rewrite ?Hins.
  - rewrite E in Hl. rewrite <- Hl, !length_app. done.
  - rewrite E, sum_list_with_app in Hc. simpl in Hc. rewrite sum_list_with_app. simpl. lia.
  - by rewrite Hsend.
  - destruct (hs_main s) as [es|o e]; [|done]. destruct Hm as (H1 & H2 & H3). split_and!; [done | by rewrite Hsend |].
    intros Hctx. specialize (H3 Hctx). rewrite E, sum_list_with_app in H3. rewrite length_app, sum_list_with_app. simpl in *. lia.
Qed.

Lemma hedge_inv_step n now l s s' : hedge_inv n s → hedge_step now l s = Some s' → hedge_inv n s'.
Proof.
  intros Hinv Hstep. pose proof Hinv as [Hl Hc Hch Hm].
  assert (∀ i p, hs_hedgers s !! i = Some p → hedger_step now l i p s = Some s' → hedge_inv n s') as Hhedger.
  { intros i p Hi H. destruct l, p; simpl in H; try done.
    - destruct (0 <? delay); injection H as <-; [|apply hedge_inv_add_call]; by eapply hedge_inv_hedger; eauto.
    - destruct (fires <=? now); [|done]. injection H as <-. apply hedge_inv_add_call. by eapply hedge_inv_hedger; eauto.
    - destruct (hedgers_done s) eqn:E; [|done]. injection H as <-. unfold hedgers_done in E.
      eapply hedge_inv_hedger; eauto; simpl; [lia | intros Hctx; rewrite Hctx in E; by right].
    - destruct (hedgers_done s) eqn:E; [|done]. injection H as <-. unfold hedgers_done in E.
      eapply hedge_inv_hedger; eauto; simpl; [intros Hctx; rewrite Hctx in E; by right | by apply submseteq_nil_l].
    - injection H as <-. by apply hedge_inv_answer.
    - destruct (_ <? _)%nat; [|done]. injection H as <-. by apply hedge_inv_send. }
  unfold hedge_step in Hstep.
  destruct l; try (destruct (hs_hedgers s !! i) eqn:Hi; [by eapply Hhedger | done]); clear Hhedger.
  - destruct (hs_main s) as [es|] eqn:Em; [|done]. destruct (hs_ctx s); [done|]. injection Hstep as <-.
    split; simpl; rewrite ?Em; try done. by destruct Hm as (? & ? & _).
  - destruct (hs_main s) as [es|] eqn:Em; [|done]. destruct (hs_channel s) as [|[e|o] c] eqn:Ec; [done|..]; injection Hstep as <-;
      destruct Hm as (H1 & H2 & H3); split; simpl; try done.
    + etrans; [|exact Hch]. by apply submseteq_cons.
    + assert (inl <$> (es ++ [e]) ⊆+ hs_answers s) as Hsub.
      { etrans; [|exact H2]. rewrite fmap_app. apply submseteq_app; [done|]. simpl. apply submseteq_skip, submseteq_nil_l. }
      unfold hedge_next. rewrite Hl. destruct (Nat.ltb_spec (length (es ++ [e])) n) as [Hlt|Hge].
      * split_and!; [done| |].
        -- rewrite fmap_app, <- app_assoc. exact H2.
        -- intros Hctx. specialize (H3 Hctx). rewrite length_app. simpl in *. lia.
      * destruct (hedge_out_result n (hs_ctx s) (es ++ [e]) (hs_answers s) Hsub) as (o & e' & -> & Hr); [|done].
        left. rewrite length_app in *. simpl in *. lia.
    + etrans; [|exact Hch]. by apply submseteq_cons.
    + eapply elem_of_submseteq; [|exact Hch]. by left.
  - destruct (hs_main s) as [es|] eqn:Em; [|done]. destruct (hs_ctx s) as [b|] eqn:Ec; [|done]. injection Hstep as <-.
    destruct Hm as (H1 & H2 & H3). split; simpl; try done.
    destruct (hedge_out_result n (Some b) es (hs_answers s)) as (o & e' & -> & Hr); [|eauto|by rewrite Ec].
    etrans; [|exact H2]. by apply submseteq_inserts_r.
Qed.

Lemma hedge_inv_run n ls s s' : hedge_inv n s → hedge_run ls s = Some s' → hedge_inv n s'.
Proof.
  revert s. induction ls as [|[now l] ls IH]; intros s Hs H; simpl in H; [by simplify_eq|].
  destruct (hedge_step now l s) eqn:E; [|done]. by eapply IH; [eapply hedge_inv_step|].
Qed.

(** *** When requests are made *)

(** A goroutine that has yet to wait has its delay, one that waits does so until its delay is over, and
    neither has made its request. *)
Record hedge_timed (t0 : Z) (delays : list Z) s : Prop := {
  ht_calls : NoDup (hs_calls s).*1;
  ht_late : ∀ i t, (i, t) ∈ hs_calls s → ∃ d, delays !! i = Some d ∧ t0 + d ≤ t;
  ht_hedgers : ∀ i p, hs_hedgers s !! i = Some p →
    match p with
    | HBegin d => delays !! i = Some d ∧ (i ∉ (hs_calls s).*1)
    | HWaiting fires => (∃ d, delays !! i = Some d ∧ t0 + d ≤ fires) ∧ (i ∉ (hs_calls s).*1)
    | _ => True
    end
}.

Lemma hedge_timed_init t0 delays : hedge_timed t0 delays (hedge delays : hedge_state Out).
Proof.
  split; simpl; [constructor | by intros i t ?%elem_of_nil |]. intros i p H. apply list_lookup_fmap_Some in H as (d & -> & H).
  split; [done | by apply not_elem_of_nil].
Qed.

Lemma hedge_timed_hedger t0 delays s i p :
  hedge_timed t0 delays s →
  match p with
  | HBegin _ => False
  | HWaiting fires => (∃ d, delays !! i = Some d ∧ t0 + d ≤ fires) ∧ (i ∉ (hs_calls s).*1)
  | _ => True
  end → hedge_timed t0 delays (set_hedger i p s).
Proof.
  intros [H1 H2 H3] Hp. split; simpl; try done. intros j q Hq.
  apply list_lookup_insert_Some in Hq as [(<- & <- & _)|[_ Hq]]; [by destruct p | by apply H3].
Qed.

Lemma hedge_timed_call t0 delays s i p now :
  hedge_timed t0 delays s → hs_hedgers s !! i = Some p →
  (∃ d, delays !! i = Some d ∧ t0 + d ≤ now) → (i ∉ (hs_calls s).*1) →
  hedge_timed t0 delays (hedger_call now i s).
Proof.
  intros [H1 H2 H3] Hi Hd Hn. split; simpl.
  - rewrite fmap_app. apply NoDup_app. split_and!; [done| |apply NoDup_singleton].
    intros j Hj [-> | []%not_elem_of_nil]%elem_of_cons. done.
  - intros j t [Hj|[= -> ->]%list_elem_of_singleton]%elem_of_app; [by apply H2 | done].
  - intros j q Hq. apply list_lookup_insert_Some in Hq as [(-> & <- & _)|[Hne Hq]]; [done|].
    specialize (H3 j q Hq). assert (∀ P, P ∧ (j ∉ (hs_calls s).*1) → P ∧ (j ∉ ((hs_calls s) ++ [(i, now)]).*1)) as Hk.
    { intros P [? Hj]. split; [done|]. rewrite fmap_app. intros [|?%list_elem_of_singleton]%elem_of_app; [done|]. by simplify_eq. }
    destruct q; try done; by apply Hk.
Qed.

Lemma hedge_timed_step t0 delays now l s s' :
  t0 ≤ now → hedge_timed t0 delays s → hedge_step now l s = Some s' → hedge_timed t0 delays s'.
Proof.
  intros Hnow Ht Hstep. pose proof Ht as [H1 H2 H3].
  assert (∀ i p, hs_hedgers s !! i = Some p → hedger_step now l i p s = Some s' → hedge_timed t0 delays s') as Hhedger.
  { intros i p Hi H. specialize (H3 i p Hi). destruct l, p; simpl in H; try done.
    - destruct H3 as [Hd Hn]. destruct (Z.ltb_spec 0 delay); injection H as <-.
      + apply hedge_timed_hedger; [done|]. split; [|done]. exists delay. split; [done|lia].
      + eapply hedge_timed_call; eauto. exists delay. split; [done|lia].
    - destruct H3 as [(d & Hd & Hle) Hn]. destruct (Z.leb_spec fires now); [|done]. injection H as <-.
      eapply hedge_timed_call; eauto. exists d. split; [done|lia].
    - destruct (hedgers_done s); [|done]. injection H as <-. by apply hedge_timed_hedger.
    - destruct (hedgers_done s); [|done]. injection H as <-. by apply hedge_timed_hedger.
    - injection H as <-. pose proof (hedge_timed_hedger t0 delays s i (HSending r) Ht I) as [? ? ?]. by split.
    - destruct (_ <? _)%nat; [|done]. injection H as <-.
      pose proof (hedge_timed_hedger t0 delays s i HDone Ht I) as [? ? ?]. by split. }
  unfold hedge_step in Hstep.
  destruct l; try (destruct (hs_hedgers s !! i) eqn:Hi; [by eapply Hhedger | done]);
    repeat (break_match_hyp; try done); injection Hstep as <-; by split.
Qed.

(** *** Progress *)

Definition hedger_rank p : nat :=
  match p with HBegin _ => 5 | HWaiting _ => 4 | HCalling => 3 | HSending _ => 2 | HDone => 0 end.

Definition hedge_rank s : nat :=
  sum_list_with hedger_rank (hs_hedgers s) + length (hs_channel s) +
  (if hedge_returned s then 0 else 1) + (match hs_ctx s with None => 1 | Some _ => 0 end).

Lemma hedge_rank_init delays : (hedge_rank (hedge delays : hedge_state Out) ≤ 5 * length delays + 2)%nat.
Proof.
  unfold hedge_rank. simpl. assert (sum_list_with hedger_rank (@HBegin Out <$> delays) = 5 * length delays)%nat as ->.
  { induction delays as [|d ds IH]; csimpl; [done|]. rewrite IH. simpl. lia. }
  destruct (hedge_returned _); lia.
Qed.

(** Every step makes progress. *)
Lemma hedge_step_rank now l s s' : hedge_step now l s = Some s' → (hedge_rank s' < hedge_rank s)%nat.
Proof.
  intros Hstep.
  assert (∀ i p, hs_hedgers s !! i = Some p → hedger_step now l i p s = Some s' → (hedge_rank s' < hedge_rank s)%nat) as Hhedger.
  { intros i p Hi H. destruct (list_split_at _ _ _ Hi) as (l1 & l2 & E & _ & Hins).
    assert (∀ q, sum_list_with hedger_rank (l1 ++ q :: l2) =
              sum_list_with hedger_rank l1 + hedger_rank q + sum_list_with hedger_rank l2)%nat as Hsum.
    { intros q. rewrite sum_list_with_app. simpl. lia. }
    destruct l, p; simpl in H; try done; repeat (break_match_hyp; try done); injection H as <-;
      unfold hedge_rank, hedge_returned; simpl; rewrite Hins, E, !Hsum, ?length_app; simpl; lia. }
  unfold hedge_step in Hstep.
  destruct l; try (destruct (hs_hedgers s !! i) eqn:Hi; [by eapply Hhedger | done]); clear Hhedger;
    repeat (break_match_hyp; try done); injection Hstep as <-; unfold hedge_rank, hedge_returned; simpl;
    repeat match goal with H : _ = _ |- _ => progress rewrite H end; simpl; try lia.
  - unfold hedge_next, hedge_out. repeat case_match; simplify_eq/=; lia.
  - unfold hedge_out. repeat case_match; simplify_eq/=; lia.
Qed.

(** Until [hedge] has returned, one of the goroutines can make a step, if only enough time has passed. *)
Lemma hedge_progress n s :
  hedge_inv n s → hedge_returned s = false →
  ∃ t l, (∀ b, l ≠ HCancel b) ∧ ∀ now, t ≤ now → is_Some (hedge_step now l s).
Proof.
  intros [Hl Hc Hch Hm] Hr. unfold hedge_returned in Hr. destruct (hs_main s) as [es|] eqn:Em; [|done].
  destruct Hm as (H1 & H2 & H3).
  destruct (hs_ctx s) as [b|] eqn:Ectx.
  { exists 0, HCtxDone. split; [done|]. intros now _. unfold hedge_step. rewrite Em, Ectx. eauto. }
  destruct (hs_channel s) as [|r c] eqn:Ech.
  2:{ exists 0, HReceive. split; [done|]. intros now _. unfold hedge_step. rewrite Em, Ech. destruct r; eauto. }
  specialize (H3 eq_refl). simpl in H3.
  assert (∃ i p, hs_hedgers s !! i = Some p ∧ p ≠ HDone) as (i & p & Hi & Hp).
  { assert (0 < sum_list_with active (hs_hedgers s))%nat as Hpos by lia. clear -Hpos.
    induction (hs_hedgers s) as [|p hs IH]; simpl in Hpos; [lia|]. destruct p; try (by exists 0%nat; eexists; split).
    simpl in Hpos. destruct (IH Hpos) as (i & p & Hi & Hp). by exists (S i), p. }
  pose proof (lookup_lt_Some _ _ _ Hi) as Hlt.
  destruct p as [d|fires| |r|]; [exists 0, (HStart i) | exists fires, (HTimer i) | exists 0, (HAnswer i (inl ENoRows)) |
    exists 0, (HSend i) | done]; (split; [done|]); intros now Hnow; unfold hedge_step; rewrite Hi; simpl; eauto.
  - destruct (Z.leb_spec fires now); [eauto | lia].
  - rewrite Ech. simpl. destruct (Nat.ltb_spec 0 (length (hs_hedgers s))); [eauto | lia].
Qed.
End Facts.

(** ** Claims *)

Section Claims.
Context {Out : Type}.

Lemma hedge_run_facts t0 delays ls (s s' : hedge_state Out) :
  Forall (λ x, t0 ≤ x.1) ls → hedge_timed t0 delays s → hedge_run ls s = Some s' →
  hedge_timed t0 delays s' ∧ (length ls + hedge_rank s' ≤ hedge_rank s)%nat.
Proof.
  intros Hls. revert s. induction Hls as [|[now l] ls Hnow Hls IH]; intros s Ht H; simpl in H; [by simplify_eq/=|].
  destruct (hedge_step now l s) as [s1|] eqn:E; [|done].
  destruct (IH s1) as [H1 H2]; [by eapply hedge_timed_step|done|]. split; [done|].
  apply hedge_step_rank in E. simpl. lia.
Qed.

(** When as many errors came as there were requests, there was no other answer. *)
Lemma all_failed n ctx s es :
  hedge_inv n s → hedge_result n ctx (hs_answers s) (None : option Out) (Some (EMulti es)) →
  (hs_answers s ≡ₚ inl <$> es) ∧ length es = n ∨ is_Some ctx ∧ inl <$> es ⊆+ hs_answers s.
Proof.
  intros [Hl Hc _ _] (_ & Hs & [Hn|Hctx]); [left | by right]. split; [|done].
  symmetry. apply submseteq_length_Permutation; [done|]. rewrite length_fmap. lia.
Qed.

(** However the goroutines of [hedge] interleave, and whenever the context is done, it returns the
    output of one of its requests, or it returns errors: those of all requests, none of which succeeded, or, when
    the context was done, those received so far or the one of the context.  Each request is
    made at most once and not before its delay is over.  The goroutines make at most
    five steps each and two more, and as long as [hedge] has not returned one of them can
    make a step once enough time has passed. *)
Theorem hedge_returns t0 delays ls (s : hedge_state Out) :
  delays ≠ [] → Forall (λ x, t0 ≤ x.1) ls → hedge_run ls (hedge delays) = Some s →
  match hs_main s with
  | HReturned (Some output) None => inr output ∈ hs_answers s
  | HReturned None (Some (EMulti es)) =>
      (hs_answers s ≡ₚ inl <$> es) ∧ length es = length delays ∨ is_Some (hs_ctx s) ∧ inl <$> es ⊆+ hs_answers s
  | HReturned None (Some e) => ∃ b, hs_ctx s = Some b ∧ e = ECtx b
  | HReturned _ _ => False
  | HLoop _ => ∃ t l, (∀ b, l ≠ HCancel b) ∧ ∀ now, t ≤ now → is_Some (hedge_step now l s)
  end ∧
  NoDup (hs_calls s).*1 ∧ (∀ i t, (i, t) ∈ hs_calls s → ∃ d, delays !! i = Some d ∧ t0 + d ≤ t) ∧
  (length ls ≤ 5 * length delays + 2)%nat.
Proof.
  intros Hne Hls Hrun. pose proof (hedge_inv_run _ _ _ _ (hedge_inv_init delays) Hrun) as Hinv.
  destruct (hedge_run_facts t0 delays ls _ _ Hls (hedge_timed_init t0 delays) Hrun) as [[H1 H2 _] Hrank].
  split_and!; [|done|done|pose proof (hedge_rank_init (Out:=Out) delays); lia].
  pose proof (hedge_progress _ _ Hinv) as Hp. pose proof (hi_main _ _ Hinv) as Hm. unfold hedge_returned in Hp.
  destruct (hs_main s) as [es|[o|] [e|]]; [by apply Hp | done | done | | by destruct delays].
  destruct e; try done. by eapply all_failed.
Qed.
End Claims.

(** The second request answers before the first. *)
Definition hedged : list (Z * hedge_label string) :=
  [(0, HStart 0); (0, HStart 1); (2, HTimer 1); (3, HAnswer 1 (inr "eni"%string)); (3, HSend 1); (4, HReceive)].

Lemma hedge_returns_witness :
  ∃ s, hedge_run hedged (hedge [0; 2]) = Some s ∧ hs_main s = HReturned (Some "eni"%string) None ∧ inr "eni"%string ∈ hs_answers s.
Proof.
  destruct (hedge_run hedged (hedge [0; 2])) as [s|] eqn:E; [|vm_compute in E; done].
  destruct (hedge_returns 0 [0; 2] hedged s) as [H _]; [done | repeat constructor; simpl; lia | done |].
  vm_compute in E. injection E as <-. eexists. split; [reflexivity|]. split; [reflexivity | exact H].
Defined.
