(* ===== verification/Batch.v ===== *)
(** * Batch: describing interfaces and instances in batches

    Models [vpc/service/ec2wrapper/ec2_batch.go].  Callers put a request with a name
    and a timer into a channel and wait; one goroutine collects requests until there are
    enough or a timer fires, and starts a goroutine for the batch, which describes
    all names with one hedged call, leaves the outcome in every request and wakes
    the callers.

    [batch_step] is what one of the goroutines does next, and a run is a list of labels.
    The requests are shared between goroutines: they are a store, and the channel, the
    collector and the batches hold indices into it.  A channel that is only ever closed is a boolean,
    and the channel [doneCh] of a request is the number of its batch.  A timer that
    is stopped (when its caller returns) does not fire any more.

    The two describers differ in what they ask for and how an answer is taken from
    the output: the class [Describer]. *)
From S2P Require Import Prelude Errors Schema Service Hedge.

Open Scope string_scope.
Open Scope Z_scope.
Open Scope list_scope.

(** ** Describers *)

(** [described] lists what an output describes, [find_item] is the search of the caller. *)
Class Describer (Out Ans : Type) := {
  described : Out → list Ans;
  item_name : Ans → string;
  find_item : Out → string → option Ans;
  not_found : string → error;
  find_item_Some : ∀ o n a, find_item o n = Some a → a ∈ described o ∧ item_name a = n;
  find_item_None : ∀ o n, find_item o n = None → ∀ a, a ∈ described o → item_name a ≠ n
}.

(** The first that has a name *)
Fixpoint first_named {A} (name : A → string) (n : string) (l : list A) : option A :=
  match l with
  | [] => None
  | a :: l => if bool_decide (name a = n) then Some a else first_named name n l
  end.

Lemma first_named_Some {A} (name : A → string) n l a : first_named name n l = Some a → a ∈ l ∧ name a = n.
Proof.
  induction l as [|x l IH]; simpl; [done|]. case_bool_decide as E.
  - intros [= ->]. split; [by left | done].
  - intros H. destruct (IH H). split; [by right | done].
Qed.

Lemma first_named_None {A} (name : A → string) n l : first_named name n l = None → ∀ a, a ∈ l → name a ≠ n.
Proof.
  induction l as [|x l IH]; simpl; [by intros _ a ?%elem_of_nil|]. case_bool_decide as E; [done|].
  intros H a [->|Ha]%elem_of_cons; [done | by apply IH].
Qed.

(** [ec2.DescribeNetworkInterfacesOutput] is the list of interfaces. *)
Definition find_interface (o : list network_interface) (n : string) : option network_interface :=
  first_named NetworkInterfaceId n o.

Definition interface_not_found (n : string) : error :=
  EString ("Fatal, unknown error, interface id " +:+ n +:+ " not found in response").

#[export, program] Instance eni_describer : Describer (list network_interface) network_interface := {|
  described o := o;
  item_name := NetworkInterfaceId;
  find_item := find_interface;
  not_found := interface_not_found
|}.
Next Obligation. intros o n a. apply first_named_Some. Qed.
Next Obligation. intros o n. apply first_named_None. Qed.

(** [ec2.Reservation], as far as it is read; the answer is an instance and its owner. *)
Record reservation := Reservation { resv_OwnerId : string; resv_Instances : list instance }.

Fixpoint find_instance (o : list reservation) (n : string) : option (instance * string) :=
  match o with
  | [] => None
  | resv :: o =>
      match first_named InstanceId n (resv_Instances resv) with
      | Some i => Some (i, resv_OwnerId resv)
      | None => find_instance o n
      end
  end.

Definition instance_not_found (n : string) : error :=
  EString ("Fatal, unknown error, instance id " +:+ n +:+ " not found in response").

Definition instances_of (o : list reservation) : list (instance * string) :=
  o ≫= λ resv, (λ i, (i, resv_OwnerId resv)) <$> resv_Instances resv.

#[export, program] Instance instance_describer : Describer (list reservation) (instance * string) := {|
  described := instances_of;
  item_name a := InstanceId a.1;
  find_item := find_instance;
  not_found := instance_not_found
|}.
Next Obligation.
  intros o n a. induction o as [|resv o IH]; simpl; [done|].
  destruct (first_named InstanceId n (resv_Instances resv)) as [i|] eqn:E.
  - intros [= <-]. apply first_named_Some in E as [Hi Hn]. split; [|done].
    apply elem_of_app. left. apply list_elem_of_fmap. eauto.
  - intros H. destruct (IH H). split; [|done]. apply elem_of_app. by right.
Qed.
Next Obligation.
  intros o n. induction o as [|resv o IH]; simpl; [by intros _ a ?%elem_of_nil|].
  destruct (first_named InstanceId n (resv_Instances resv)) as [i|] eqn:E; [done|].
  intros H a [Ha|Ha]%elem_of_app; [|by apply IH]. apply list_elem_of_fmap in Ha as (i & -> & Hi).
  by apply (first_named_None _ _ _ E).
Qed.

(** ** State *)

Section Batch.
Context {Out Ans : Type} `{!Describer Out Ans}.

(** Where the caller of a request is, and what it returns *)
Inductive client_pc :=
| CSubmit
| CTriggered
| CExecuting
| CReturned (r : error + Ans).

Record batchRequestResponse := MkRequest {
  rq_name : string;
  rq_fires : Z;
  rq_fired : bool;
  rq_triggered : bool;
  rq_doneCh : option nat;
  rq_err : option error;
  rq_response : option Out;
  rq_client : client_pc
}.

Definition set_client (c : client_pc) (r : batchRequestResponse) :=
  MkRequest (rq_name r) (rq_fires r) (rq_fired r) (rq_triggered r) (rq_doneCh r) (rq_err r) (rq_response r) c.
Definition set_fired (r : batchRequestResponse) :=
  MkRequest (rq_name r) (rq_fires r) true (rq_triggered r) (rq_doneCh r) (rq_err r) (rq_response r) (rq_client r).
Definition set_triggered (r : batchRequestResponse) :=
  MkRequest (rq_name r) (rq_fires r) (rq_fired r) true (rq_doneCh r) (rq_err r) (rq_response r) (rq_client r).
Definition set_doneCh (b : nat) (r : batchRequestResponse) :=
  MkRequest (rq_name r) (rq_fires r) (rq_fired r) (rq_triggered r) (Some b) (rq_err r) (rq_response r) (rq_client r).
Definition set_outcome (output : option Out) (err : option error) (r : batchRequestResponse) :=
  MkRequest (rq_name r) (rq_fires r) (rq_fired r) (rq_triggered r) (rq_doneCh r) err output (rq_client r).

(** Where [finishInnerLoop] is: closing channels, describing, answered, returned *)
Inductive batch_pc :=
| BTrigger (k : nat)
| BDescribe (deadline : Z)
| BAnswered
| BClosed.

Record batch := MkBatch { b_items : list nat; b_pc : batch_pc; b_hedge : option (hedge_state Out) }.

(** [bs_submitted] records the requests in the order in which they were put into the channel. *)
Record batch_state := BatchState {
  bs_clock : Z;
  bs_reqs : list batchRequestResponse;
  bs_requests : list nat;
  bs_items : list nat;
  bs_batches : list batch;
  bs_submitted : list nat;
  bs_crash : option string
}.

Definition set_bclock (t : Z) (s : batch_state) :=
  BatchState t (bs_reqs s) (bs_requests s) (bs_items s) (bs_batches s) (bs_submitted s) (bs_crash s).
Definition set_reqs (rs : list batchRequestResponse) (s : batch_state) :=
  BatchState (bs_clock s) rs (bs_requests s) (bs_items s) (bs_batches s) (bs_submitted s) (bs_crash s).
Definition set_batches (bs : list batch) (s : batch_state) :=
  BatchState (bs_clock s) (bs_reqs s) (bs_requests s) (bs_items s) bs (bs_submitted s) (bs_crash s).
Definition set_bcrash (m : string) (s : batch_state) :=
  BatchState (bs_clock s) (bs_reqs s) (bs_requests s) (bs_items s) (bs_batches s) (bs_submitted s) (Some m).

Definition set_req (i : nat) (r : batchRequestResponse) (s : batch_state) := set_reqs (<[i:=r]> (bs_reqs s)) s.
Definition set_batch (b : nat) (x : batch) (s : batch_state) := set_batches (<[b:=x]> (bs_batches s)) s.

(** [NewBatchENIDescriber], [NewBatchInstanceDescriber] *)
Definition NewBatchDescriber : batch_state := BatchState 0 [] [] [] [] [] None.

(** ** Steps *)

Inductive batch_label :=
| LTick (t : Z)
| LCall (name : string) (deadline : Z)
| LSubmit (i : nat)
| LCtxDone (i : nat) (deadline : bool)
| LExpire (i : nat)
| LCollect
| LTimer (i : nat)
| LBatch (b : nat)
| LHedge (b : nat) (l : hedge_label Out)
| LTriggered (i : nat)
| LDone (i : nat).

Context (maxItems : nat).

(** *** The caller: [DescribeNetworkInterfacesWithTimeout], [DescribeInstanceWithTimeout] *)

Definition new_request (name : string) (fires : Z) : batchRequestResponse :=
  MkRequest name fires false false None None None CSubmit.

(** The three [select]s also wait for the context. *)
Definition client_ctx_error (c : client_pc) (deadline : bool) : option error :=
  match c with
  | CSubmit => Some (if deadline then EWrap "Could not write request before deadline exceeded. This seems very wrong" (ECtx true)
                     else ECtx false)
  | CTriggered | CExecuting => Some (ECtx deadline)
  | CReturned _ => None
  end.

Definition submit (i : nat) (r : batchRequestResponse) (s : batch_state) : option batch_state :=
  match rq_client r with
  | CSubmit =>
      if (length (bs_requests s) <? maxItems * 10)%nat
      then Some (BatchState (bs_clock s) (<[i:=set_client CTriggered r]> (bs_reqs s)) (bs_requests s ++ [i]) (bs_items s)
                   (bs_batches s) (bs_submitted s ++ [i]) (bs_crash s))
      else None
  | _ => None
  end.

(** What is returned when [doneCh] is closed.  The assertion of the type of a nil response panics. *)
Definition client_result (r : batchRequestResponse) : option (error + Ans) :=
  match rq_err r with
  | Some e => Some (inl (HandleEC2Error e))
  | None =>
      match rq_response r with
      | Some o => Some (match find_item o (rq_name r) with Some a => inr a | None => inl (not_found (rq_name r)) end)
      | None => None
      end
  end.

Definition batch_closed (s : batch_state) (o : option nat) : bool :=
  match o with
  | None => false
  | Some b => match bs_batches s !! b with Some (MkBatch _ BClosed _) => true | _ => false end
  end.

Definition client_done (i : nat) (r : batchRequestResponse) (s : batch_state) : option batch_state :=
  match rq_client r with
  | CExecuting =>
      if batch_closed s (rq_doneCh r)
      then Some (match client_result r with
                 | Some res => set_req i (set_client (CReturned res) r) s
                 | None => set_bcrash "interface conversion" s
                 end)
      else None
  | _ => None
  end.

(** *** The collector: [innerLoop] *)

Definition launch (s : batch_state) : batch_state :=
  BatchState (bs_clock s) (bs_reqs s) (bs_requests s) [] (bs_batches s ++ [MkBatch (bs_items s) (BTrigger 0) None])
    (bs_submitted s) (bs_crash s).

(** The condition of the loop, and the case of a new request *)
Definition collect (s : batch_state) : option batch_state :=
  if (length (bs_items s) <? maxItems)%nat then
    match bs_requests s with
    | [] => None
    | i :: q => Some (BatchState (bs_clock s) (alter (set_doneCh (length (bs_batches s))) i (bs_reqs s)) q (bs_items s ++ [i])
                        (bs_batches s) (bs_submitted s) (bs_crash s))
    end
  else Some (launch s).

(** The case of a timer of one of the items.  The loop ends, and nobody looks at the timer again. *)
Definition timer_case (i : nat) (r : batchRequestResponse) (s : batch_state) : option batch_state :=
  if (length (bs_items s) <? maxItems)%nat && bool_decide (i ∈ bs_items s) && rq_fired r
  then Some (launch s) else None.

(** *** A batch: [finishInnerLoop], [runDescribeENIs], [runDescribeInstances] *)

(** Two seconds and fifteen *)
Definition delays : list Z := [0; 2000000000; 15000000000].
Definition describe_timeout : Z := 60000000000.

(** The names asked for, each once *)
Fixpoint names_once (seen : gset string) (l : list string) : list string :=
  match l with
  | [] => []
  | n :: l => if bool_decide (n ∈ seen) then names_once seen l else n :: names_once ({[n]} ∪ seen) l
  end.

Definition batch_names (rs : list batchRequestResponse) (x : batch) : list string :=
  names_once ∅ (omap (λ i, rq_name <$> rs !! i) (b_items x)).

Definition close_triggered (b : nat) (x : batch) (k i : nat) (s : batch_state) : option batch_state :=
  r ← bs_reqs s !! i;
  Some (if rq_triggered r then set_bcrash "close of closed channel" s
        else set_batch b (MkBatch (b_items x) (BTrigger (S k)) (b_hedge x)) (set_req i (set_triggered r) s)).

Definition run_describe (b : nat) (x : batch) (s : batch_state) : batch_state :=
  match b_items x with
  | [] => set_bcrash "Asked to run describe with 0 items" s
  | _ => set_batch b (MkBatch (b_items x) (BDescribe (bs_clock s + describe_timeout)) (Some (hedge delays))) s
  end.

Definition leave_outcome (items : list nat) (output : option Out) (err : option error) (rs : list batchRequestResponse) :=
  foldr (alter (set_outcome output err)) rs items.

Definition finish_step (b : nat) (x : batch) (s : batch_state) : option batch_state :=
  match b_pc x with
  | BTrigger k =>
      match b_items x !! k with
      | Some i => close_triggered b x k i s
      | None => Some (run_describe b x s)
      end
  | BDescribe _ =>
      match hs_main <$> b_hedge x with
      | Some (HReturned output err) =>
          Some (set_batch b (MkBatch (b_items x) BAnswered (b_hedge x)) (set_reqs (leave_outcome (b_items x) output err (bs_reqs s)) s))
      | _ => None
      end
  | BAnswered => Some (set_batch b (MkBatch (b_items x) BClosed (b_hedge x)) s)
  | BClosed => None
  end.

(** A step of the goroutines of [hedge]; its context has a deadline. *)
Definition cancel_allowed (x : batch) (now : Z) (l : hedge_label Out) : bool :=
  match l with
  | HCancel deadline => match b_pc x with BDescribe d => deadline && (d <=? now)%Z | _ => false end
  | _ => true
  end.

Definition hedge_goroutine (b : nat) (x : batch) (l : hedge_label Out) (s : batch_state) : option batch_state :=
  h ← b_hedge x;
  if cancel_allowed x (bs_clock s) l
  then h' ← hedge_step (bs_clock s) l h; Some (set_batch b (MkBatch (b_items x) (b_pc x) (Some h')) s)
  else None.

Definition batch_step (l : batch_label) (s : batch_state) : option batch_state :=
  match bs_crash s with
  | Some _ => None
  | None =>
  match l with
  | LTick t => if (bs_clock s <=? t)%Z then Some (set_bclock t s) else None
  | LCall name deadline => Some (set_reqs (bs_reqs s ++ [new_request name (bs_clock s + deadline)]) s)
  | LSubmit i => r ← bs_reqs s !! i; submit i r s
  | LCtxDone i deadline =>
      r ← bs_reqs s !! i; e ← client_ctx_error (rq_client r) deadline;
      Some (set_req i (set_client (CReturned (inl e)) r) s)
  | LExpire i =>
      r ← bs_reqs s !! i;
      match rq_client r with
      | CReturned _ => None
      | _ => if (rq_fires r <=? bs_clock s)%Z && negb (rq_fired r) then Some (set_req i (set_fired r) s) else None
      end
  | LCollect => collect s
  | LTimer i => r ← bs_reqs s !! i; timer_case i r s
  | LBatch b => x ← bs_batches s !! b; finish_step b x s
  | LHedge b l => x ← bs_batches s !! b; hedge_goroutine b x l s
  | LTriggered i =>
      r ← bs_reqs s !! i;
      match rq_client r with
      | CTriggered => if rq_triggered r then Some (set_req i (set_client CExecuting r) s) else None
      | _ => None
      end
  | LDone i => r ← bs_reqs s !! i; client_done i r s
  end
  end.

Fixpoint batch_run (ls : list batch_label) (s : batch_state) : option batch_state :=
  match ls with
  | [] => Some s
  | l :: ls => match batch_step l s with Some s' => batch_run ls s' | None => None end
  end.
End Batch.

Arguments client_pc : clear implicits.
Arguments batchRequestResponse : clear implicits.
Arguments batch : clear implicits.
Arguments batch_state : clear implicits.
Arguments batch_label : clear implicits.

#[export] Instance batch_pc_eq_dec : EqDecision batch_pc.
Proof. solve_decision. Defined.

(** ** The names of a batch *)

Lemma elem_of_names_once seen l n : n ∈ names_once seen l ↔ n ∈ l ∧ n ∉ seen.
Proof.
  revert seen. induction l as [|m l IH]; intros seen; simpl.
  - split; [by intros ?%elem_of_nil | by intros [?%elem_of_nil _]].
  - case_bool_decide; rewrite ?elem_of_cons, IH, ?elem_of_cons, ?elem_of_union, ?elem_of_singleton; destruct (decide (n = m)); naive_solver.
Qed.

Lemma NoDup_names_once seen l : NoDup (names_once seen l).
Proof.
  revert seen. induction l as [|m l IH]; intros seen; simpl; [constructor|]. case_bool_decide; [done|].
  constructor; [|done]. rewrite elem_of_names_once. set_solver.
Qed.

Lemma length_names_once seen l : (length (names_once seen l) ≤ length l)%nat.
Proof.
  revert seen. induction l as [|m l IH]; intros seen; simpl; [done|].
  case_bool_decide; simpl; [specialize (IH seen) | specialize (IH ({[m]} ∪ seen))]; lia.
Qed.

Lemma length_omap_le {A B} (f : A → option B) l : (length (omap f l) ≤ length l)%nat.
Proof. induction l as [|a l IH]; csimpl; [done|]. destruct (f a); simpl; lia. Qed.

(** ** Invariants *)

Section Invariants.
Context {Out Ans : Type} `{!Describer Out Ans} (maxItems : nat).
Implicit Types (s : batch_state Out Ans) (r : batchRequestResponse Out Ans) (x : batch Out) (bs : list (batch Out)).

(** Whether the channel of the [k]th item is closed *)
Definition reached (p : batch_pc) (k : nat) : bool := match p with BTrigger k' => (k <? k')%nat | _ => true end.

Definition outcome_left (p : batch_pc) : bool := match p with BAnswered | BClosed => true | _ => false end.

(** What the goroutines of [hedge] are at *)
Definition hedge_part x : Prop :=
  match b_pc x with
  | BTrigger _ => b_hedge x = None
  | BDescribe _ => ∃ h, b_hedge x = Some h ∧ hedge_inv (length delays) h
  | _ => ∃ h o e, b_hedge x = Some h ∧ hedge_inv (length delays) h ∧ hs_main h = HReturned o e
  end.

(** The outcome of a batch *)
Definition batch_outcome x (o : option Out) (e : option error) : Prop := ∃ h, b_hedge x = Some h ∧ hs_main h = HReturned o e.

Record batch_ok (reqs : list (batchRequestResponse Out Ans)) (b : nat) x : Prop := {
  bo_size : (1 ≤ length (b_items x) ≤ maxItems)%nat;
  bo_hedge : hedge_part x;
  bo_items : ∀ k i, b_items x !! k = Some i → ∃ r, reqs !! i = Some r ∧ rq_doneCh r = Some b ∧
    rq_triggered r = reached (b_pc x) k ∧
    (outcome_left (b_pc x) = true → batch_outcome x (rq_response r) (rq_err r))
}.

Record struct_ok s : Prop := {
  so_crash : bs_crash s = None;
  so_order : concat (b_items <$> bs_batches s) ++ bs_items s ++ bs_requests s = bs_submitted s;
  so_nodup : NoDup (bs_submitted s);
  so_range : ∀ i, i ∈ bs_submitted s → is_Some (bs_reqs s !! i);
  so_room : (length (bs_items s) ≤ maxItems)%nat;
  so_batches : ∀ b x, bs_batches s !! b = Some x → batch_ok (bs_reqs s) b x;
  so_items : ∀ i r, i ∈ bs_items s → bs_reqs s !! i = Some r → rq_doneCh r = Some (length (bs_batches s));
  so_triggered : ∀ i r, bs_reqs s !! i = Some r → rq_triggered r = true → i ∈ concat (b_items <$> bs_batches s)
}.

(** What a caller has returned with *)
Definition returned_ok bs (i : nat) (n : string) (res : error + Ans) : Prop :=
  match res with
  | inl (ECtx _) | inl (EWrap _ (ECtx _)) => True
  | _ => ∃ b x o e, bs !! b = Some x ∧ i ∈ b_items x ∧ batch_outcome x o e ∧
      match o, e with
      | Some o, None => res = match find_item o n with Some a => inr a | None => inl (not_found n) end
      | None, Some e => res = inl (HandleEC2Error e)
      | _, _ => False
      end
  end.

Definition client_ok (submitted : list nat) bs (i : nat) r : Prop :=
  match rq_client r with
  | CSubmit => i ∉ submitted
  | CTriggered => i ∈ submitted
  | CExecuting => i ∈ submitted ∧ rq_triggered r = true
  | CReturned res => returned_ok bs i (rq_name r) res
  end.

Definition clients_ok s : Prop := ∀ i r, bs_reqs s !! i = Some r → client_ok (bs_submitted s) (bs_batches s) i r.

(** Batches keep their items and their outcome. *)
Definition batches_le bs bs' : Prop := ∀ b x, bs !! b = Some x → ∃ x', bs' !! b = Some x' ∧ b_items x' = b_items x ∧
  ∀ o e, batch_outcome x o e → batch_outcome x' o e.

Lemma batches_le_refl bs : batches_le bs bs.
Proof. intros b x H. by exists x. Qed.

Lemma batches_le_app bs bs' : batches_le bs (bs ++ bs').
Proof. intros b x H. exists x. split; [by apply lookup_app_l_Some | done]. Qed.

Lemma batches_le_insert bs b x x' :
  bs !! b = Some x → b_items x' = b_items x → (∀ o e, batch_outcome x o e → batch_outcome x' o e) → batches_le bs (<[b:=x']> bs).
Proof.
  intros Hb Hi Ho c y Hc. destruct (decide (b = c)) as [<-|Hne].
  - simplify_eq. exists x'. split; [|done]. apply list_lookup_insert_eq. by eapply lookup_lt_Some.
  - exists y. by rewrite list_lookup_insert_ne.
Qed.

Lemma returned_ok_mono bs bs' i n res : batches_le bs bs' → returned_ok bs i n res → returned_ok bs' i n res.
Proof.
  intros Hle. assert ((∃ b x o e, bs !! b = Some x ∧ i ∈ b_items x ∧ batch_outcome x o e ∧
      match o, e with
      | Some o, None => res = match find_item o n with Some a => inr a | None => inl (not_found n) end
      | None, Some e => res = inl (HandleEC2Error e)
      | _, _ => False
      end) → ∃ b x o e, bs' !! b = Some x ∧ i ∈ b_items x ∧ batch_outcome x o e ∧
      match o, e with
      | Some o, None => res = match find_item o n with Some a => inr a | None => inl (not_found n) end
      | None, Some e => res = inl (HandleEC2Error e)
      | _, _ => False
      end).
  { intros (b & x & o & e & Hb & Hi & Ho & Hr). destruct (Hle b x Hb) as (x' & Hb' & Hi' & Ho').
    exists b, x', o, e. rewrite Hi'. auto. }
  unfold returned_ok. by repeat case_match.
Qed.

(** Requests as the describer sees them *)
Definition shared r := (rq_name r, rq_triggered r, rq_doneCh r, rq_err r, rq_response r).

(** Callers are as before, in a state whose batches have more outcomes. *)
Lemma clients_keep s s' :
  (∀ i r', bs_reqs s' !! i = Some r' → ∃ r, bs_reqs s !! i = Some r ∧ rq_client r' = rq_client r ∧ rq_name r' = rq_name r ∧
     (rq_triggered r = true → rq_triggered r' = true)) →
  bs_submitted s' = bs_submitted s → batches_le (bs_batches s) (bs_batches s') → clients_ok s → clients_ok s'.
Proof.
  intros Hr Hsub Hle Hok i r' Hi. destruct (Hr i r' Hi) as (r & Hi0 & Hc & Hn & Ht). specialize (Hok i r Hi0).
  unfold client_ok in *. rewrite Hc, Hn, Hsub. destruct (rq_client r); try done.
  - by destruct Hok; auto.
  - by eapply returned_ok_mono.
Qed.

(** A caller that moves *)
Lemma clients_set s i r' :
  clients_ok s → client_ok (bs_submitted s) (bs_batches s) i r' → clients_ok (set_req i r' s).
Proof.
  intros Hok Hr' j r Hj. simpl in *. apply list_lookup_insert_Some in Hj as [(<- & <- & _)|[_ Hj]]; [done | by apply Hok].
Qed.

Lemma batch_ok_shared reqs reqs' b x :
  (∀ i r, reqs !! i = Some r → ∃ r', reqs' !! i = Some r' ∧ shared r' = shared r) →
  batch_ok reqs b x → batch_ok reqs' b x.
Proof.
  intros Hsh [H1 H2 H3]. split; [done|done|]. intros k i Hk. destruct (H3 k i Hk) as (r & Hr & Hd & Ht & Ho).
  destruct (Hsh i r Hr) as (r' & Hr' & Hs). exists r'. injection Hs as _ Ht' Hd' He' Hr2. rewrite Ht', Hd', He', Hr2. auto.
Qed.

Lemma struct_shared s i r r' :
  bs_reqs s !! i = Some r → shared r' = shared r → struct_ok s → struct_ok (set_req i r' s).
Proof.
  intros Hi Hsh [H1 H2 H3 H4 H5 H6 H7 H8].
  assert (∀ j q, bs_reqs s !! j = Some q → ∃ q', bs_reqs (set_req i r' s) !! j = Some q' ∧ shared q' = shared q) as Hall.
  { intros j q Hq. simpl. destruct (decide (i = j)) as [<-|Hne].
    - assert (q = r) as -> by congruence. exists r'. split; [|done]. apply list_lookup_insert_eq. by eapply lookup_lt_Some.
    - exists q. by rewrite list_lookup_insert_ne. }
  assert (∀ j q', bs_reqs (set_req i r' s) !! j = Some q' → ∃ q, bs_reqs s !! j = Some q ∧ shared q' = shared q) as Hback.
  { intros j q' Hq. simpl in Hq. apply list_lookup_insert_Some in Hq as [(<- & <- & _)|[_ Hq]]; eauto. }
  split; simpl; try done.
  - intros j Hj. destruct (H4 j Hj) as [q Hq]. destruct (Hall j q Hq) as (q' & Hq' & _). eauto.
  - intros b x Hb. eapply batch_ok_shared; [exact Hall | by apply H6].
  - intros j q' Hj Hq'. destruct (Hback j q' Hq') as (q & Hq & Hs). unfold shared in Hs. injection Hs as ? ? -> ? ?. eauto.
  - intros j q' Hq' Ht. destruct (Hback j q' Hq') as (q & Hq & Hs). unfold shared in Hs. injection Hs as ? Ht' ? ? ?.
    apply (H8 j q Hq). congruence.
Qed.

Lemma elem_of_batches bs i : i ∈ concat (b_items <$> bs) ↔ ∃ b x, bs !! b = Some x ∧ i ∈ b_items x.
Proof.
  rewrite list_elem_of_In, List.in_concat. split.
  - intros (l & (x & -> & [b Hb]%list_elem_of_lookup_1)%list_elem_of_In%list_elem_of_fmap & Hi%list_elem_of_In). eauto.
  - intros (b & x & Hb & Hi). exists (b_items x). rewrite <- !list_elem_of_In. split; [|done].
    apply list_elem_of_fmap. exists x. split; [done|]. by eapply list_elem_of_lookup_2.
Qed.

Definition batch_inv s : Prop := struct_ok s ∧ clients_ok s.

Lemma batch_inv_init : batch_inv NewBatchDescriber.
Proof. split; [split; simpl; try done; [constructor | by intros i ?%elem_of_nil | lia] | done]. Qed.

Lemma inv_client s i r r' :
  batch_inv s → bs_reqs s !! i = Some r → shared r' = shared r → client_ok (bs_submitted s) (bs_batches s) i r' →
  batch_inv (set_req i r' s).
Proof. intros [] Hi Hsh Hc. split; [by eapply struct_shared | by apply clients_set]. Qed.

Lemma inv_call s n t : batch_inv s → batch_inv (set_reqs (bs_reqs s ++ [new_request n t]) s).
Proof.
  intros [[H1 H2 H3 H4 H5 H6 H7 H8] Hc].
  assert (length (bs_reqs s) ∉ bs_submitted s) as Hnew by (intros [r Hr%lookup_lt_Some]%H4; lia).
  assert (∀ i r, (bs_reqs s ++ [new_request n t]) !! i = Some r →
    bs_reqs s !! i = Some r ∨ i = length (bs_reqs s) ∧ r = new_request n t) as Hcase.
  { intros i r [H|[Hle H]]%lookup_app_Some; [by left | right].
    apply list_lookup_singleton_Some in H as [H <-]. split; [lia | done]. }
  split.
  - split; simpl; try done.
    + intros i Hi. destruct (H4 i Hi) as [r Hr]. exists r. by apply lookup_app_l_Some.
    + intros b x Hb. eapply batch_ok_shared; [|by apply H6]. intros i r Hr. exists r. split; [by apply lookup_app_l_Some | done].
    + intros i r Hi [Hr|[-> ->]]%Hcase; [by eapply H7|]. destruct Hnew. rewrite <- H2. rewrite !elem_of_app. auto.
    + intros i r [Hr|[-> ->]]%Hcase; [by apply H8 | done].
  - intros i r [Hr|[-> ->]]%Hcase; [by apply Hc | done].
Qed.

Lemma inv_submit s i r s' : batch_inv s → bs_reqs s !! i = Some r → submit maxItems i r s = Some s' → batch_inv s'.
Proof.
  intros [Hs Hc] Hi H. unfold submit in H. destruct (rq_client r) eqn:Ec; try done. destruct (_ <? _)%nat; [|done]. injection H as <-.
  pose proof (Hc i r Hi) as Hn. unfold client_ok in Hn. rewrite Ec in Hn.
  destruct (struct_shared s i r (set_client CTriggered r) Hi eq_refl Hs) as [H1 H2 H3 H4 H5 H6 H7 H8]. simpl in *.
  split.
  - split; simpl; try done.
    + rewrite <- H2, <- !app_assoc. done.
    + apply NoDup_app. split_and!; [done| |apply NoDup_singleton]. by intros j Hj ->%list_elem_of_singleton.
    + intros j [Hj| ->%list_elem_of_singleton]%elem_of_app; [by apply H4|].
      exists (set_client CTriggered r). apply list_lookup_insert_eq. by eapply lookup_lt_Some.
  - intros j q Hj. simpl in *. apply list_lookup_insert_Some in Hj as [(<- & <- & _)|[Hne Hj]].
    + unfold client_ok. simpl. apply elem_of_app. right. by left.
    + specialize (Hc j q Hj). unfold client_ok in *. destruct (rq_client q); try done.
      * intros [?| ->%list_elem_of_singleton]%elem_of_app; done.
      * apply elem_of_app. by left.
      * destruct Hc. split; [apply elem_of_app; by left | done].
Qed.

Lemma inv_launch s : batch_inv s → bs_items s ≠ [] → batch_inv (launch s).
Proof.
  intros [[H1 H2 H3 H4 H5 H6 H7 H8] Hc] Hne. split.
  - assert (concat (b_items <$> bs_batches s ++ [MkBatch (bs_items s) (BTrigger 0) None]) =
            concat (b_items <$> bs_batches s) ++ bs_items s) as Hcat.
    { rewrite fmap_app, concat_app. simpl. by rewrite app_nil_r. }
    split; simpl; try done.
    + rewrite Hcat, <- app_assoc. done.
    + lia.
    + intros b x [Hb|[Hle Hb]]%lookup_app_Some; [by apply H6|].
      apply list_lookup_singleton_Some in Hb as [Hb <-]. assert (b = length (bs_batches s)) as -> by lia.
      split; simpl; [destruct (bs_items s); [done | simpl in *; lia] | done|]. intros k i Hk. apply list_elem_of_lookup_2 in Hk.
      assert (i ∈ bs_submitted s) as Hin by (rewrite <- H2, !elem_of_app; auto).
      destruct (H4 i Hin) as [r Hr]. exists r. split_and!; [done | by apply (H7 i r) | | done].
      destruct (rq_triggered r) eqn:Et; [|done]. specialize (H8 i r Hr Et). rewrite <- H2 in H3.
      apply NoDup_app in H3 as (_ & Hd & _). destruct (Hd i H8). apply elem_of_app. by left.
    + by intros i r ?%elem_of_nil.
    + intros i r Hr Ht. rewrite Hcat. apply elem_of_app. left. eauto.
  - apply (clients_keep s); [|done|apply batches_le_app|exact Hc]. intros i r Hr. by exists r.
Qed.

Lemma inv_collect s s' : (0 < maxItems)%nat → batch_inv s → collect maxItems s = Some s' → batch_inv s'.
Proof.
  intros Hmax Hinv H. unfold collect in H. destruct (Nat.ltb_spec (length (bs_items s)) maxItems) as [Hlt|Hge].
  2:{ injection H as <-. apply inv_launch; [done|]. intros E. rewrite E in Hge. simpl in Hge. lia. }
  destruct Hinv as [[H1 H2 H3 H4 H5 H6 H7 H8] Hc]. destruct (bs_requests s) as [|i q] eqn:Eq; [done|]. injection H as <-.
  assert (∀ j r', alter (set_doneCh (length (bs_batches s))) i (bs_reqs s) !! j = Some r' → ∃ r, bs_reqs s !! j = Some r ∧
    r' = if decide (i = j) then set_doneCh (length (bs_batches s)) r else r) as Hback.
  { intros j r' Hj. destruct (decide (i = j)) as [<-|Hne].
    - rewrite list_lookup_alter_eq in Hj. apply fmap_Some in Hj as (r & Hr & ->). eauto.
    - rewrite list_lookup_alter_ne in Hj by done. eauto. }
  rewrite <- H2 in H3. pose proof H3 as Hnd. apply NoDup_app in Hnd as (_ & Hd & Hnd). apply NoDup_app in Hnd as (_ & Hd2 & _).
  assert (∀ j, j ∈ concat (b_items <$> bs_batches s) → j ≠ i) as Hnb.
  { intros j Hj ->. apply (Hd _ Hj). apply elem_of_app. right. by left. }
  split.
  - split; simpl; try done.
    + rewrite <- H2, <- app_assoc. done.
    + by rewrite <- H2.
    + intros j Hj. destruct (H4 j Hj) as [r Hr]. destruct (decide (i = j)) as [<-|Hne];
        [rewrite list_lookup_alter_eq, Hr | rewrite list_lookup_alter_ne by done]; eauto.
    + rewrite length_app. simpl. lia.
    + intros b x Hb. destruct (H6 b x Hb) as [B1 B2 B3]. split; [done|done|]. intros k j Hk. rewrite list_lookup_alter_ne; [by apply B3|].
      intros <-. refine (Hnb i _ eq_refl). apply elem_of_batches. exists b, x. split; [done | by eapply list_elem_of_lookup_2].
    + intros j r' Hj Hr'. destruct (Hback j r' Hr') as (r & Hr & ->). case_decide as E; [done|].
      apply elem_of_app in Hj as [Hj| ->%list_elem_of_singleton]; [by eapply H7 | done].
    + intros j r' Hr' Ht. destruct (Hback j r' Hr') as (r & Hr & ->). apply (H8 j r Hr). by case_decide.
  - apply (clients_keep s); [|done|apply batches_le_refl|exact Hc]. intros j r' Hr'.
    destruct (Hback j r' Hr') as (r & Hr & ->). exists r. by case_decide.
Qed.

(** A batch moves, and writes into its requests *)
Lemma inv_batch s b x x' reqs' :
  batch_inv s → bs_batches s !! b = Some x → b_items x' = b_items x → (∀ o e, batch_outcome x o e → batch_outcome x' o e) →
  length reqs' = length (bs_reqs s) →
  (∀ i r', reqs' !! i = Some r' → ∃ r, bs_reqs s !! i = Some r ∧ rq_client r' = rq_client r ∧ rq_name r' = rq_name r ∧
     rq_doneCh r' = rq_doneCh r ∧ (rq_triggered r = true → rq_triggered r' = true) ∧ ((i ∉ b_items x) → shared r' = shared r)) →
  batch_ok reqs' b x' → batch_inv (set_batch b x' (set_reqs reqs' s)).
Proof.
  intros [[H1 H2 H3 H4 H5 H6 H7 H8] Hc] Hb Hi Ho Hlen Hback Hok.
  pose proof (lookup_lt_Some _ _ _ Hb) as Hlt.
  assert (b_items <$> <[b:=x']> (bs_batches s) = b_items <$> bs_batches s) as Hitems.
  { rewrite list_fmap_insert, Hi. apply list_insert_id. by rewrite list_lookup_fmap, Hb. }
  assert (∀ i, is_Some (bs_reqs s !! i) → is_Some (reqs' !! i)) as Hdom by (intros i; rewrite !lookup_lt_is_Some, Hlen; done).
  split.
  - split; simpl; rewrite ?Hitems, ?length_insert; try done.
    + intros i Hin. by apply Hdom, H4.
    + intros c y Hy. apply list_lookup_insert_Some in Hy as [(<- & <- & _)|[Hne Hy]]; [done|].
      destruct (H6 c y Hy) as [B1 B2 B3]. split; [done|done|]. intros k i Hk. destruct (B3 k i Hk) as (r & Hr & Hd & Ht & Hout).
      destruct (Hdom i ltac:(eauto)) as [r' Hr']. destruct (Hback i r' Hr') as (r0 & Hr0 & Hback'). simplify_eq.
      destruct Hback' as (_ & _ & _ & _ & Hsh). exists r'. split; [done|].
      assert (shared r' = shared r) as Hs.
      { apply Hsh. intros [k' Hk']%list_elem_of_lookup_1. destruct (bo_items _ _ _ (H6 b x Hb) k' i Hk') as (r1 & Hr1 & Hd1 & _).
        congruence. }
      injection Hs as _ -> -> -> ->. auto.
    + intros i r' Hin Hr'. destruct (Hback i r' Hr') as (r & Hr & _ & _ & -> & _). eauto.
    + intros i r' Hr' Ht. destruct (Hback i r' Hr') as (r & Hr & _ & _ & _ & _ & Hsh).
      destruct (decide (i ∈ b_items x)) as [Hin|Hn]; [apply elem_of_batches; eauto|].
      specialize (Hsh Hn). injection Hsh as _ Ht' _ _ _. apply (H8 i r Hr). congruence.
  - apply (clients_keep s); [|done|by eapply batches_le_insert|done]. intros i r' Hr'.
    destruct (Hback i r' Hr') as (r & Hr & Hcl & Hn & _ & Ht & _). eauto.
Qed.

Lemma reqs_same s i r' : bs_reqs s !! i = Some r' → ∃ r, bs_reqs s !! i = Some r ∧ rq_client r' = rq_client r ∧ rq_name r' = rq_name r ∧
  rq_doneCh r' = rq_doneCh r ∧ (rq_triggered r = true → rq_triggered r' = true) ∧ (∀ l : list nat, (i ∉ l) → shared r' = shared r).
Proof. intros H. by exists r'. Qed.

(** A batch moves and leaves its requests alone *)
Lemma inv_batch_only s b x x' :
  batch_inv s → bs_batches s !! b = Some x → b_items x' = b_items x → (∀ o e, batch_outcome x o e → batch_outcome x' o e) →
  (∀ k, reached (b_pc x') k = reached (b_pc x) k ∨ (length (b_items x) ≤ k)%nat) → hedge_part x' →
  (outcome_left (b_pc x') = true → outcome_left (b_pc x) = true) → batch_inv (set_batch b x' s).
Proof.
  intros Hinv Hb Hi Ho Hr Hp Hl. assert (set_batch b x' s = set_batch b x' (set_reqs (bs_reqs s) s)) as -> by by destruct s.
  apply (inv_batch s b x); try done.
  - intros i r' H. destruct (reqs_same s i r' H) as (r & ?). naive_solver.
  - destruct (so_batches _ (proj1 Hinv) b x Hb) as [B1 B2 B3]. split; [by rewrite Hi | done|]. intros k i Hk. rewrite Hi in Hk.
    destruct (B3 k i Hk) as (r & Hr0 & Hd & Ht & Hout). exists r. split_and!; try done.
    + destruct (Hr k) as [-> | Hle]; [done|]. apply lookup_lt_Some in Hk. lia.
    + intros H. auto.
Qed.

Lemma inv_close_triggered s b x k i s' :
  batch_inv s → bs_batches s !! b = Some x → b_pc x = BTrigger k → b_items x !! k = Some i →
  close_triggered b x k i s = Some s' → batch_inv s'.
Proof.
  intros Hinv Hb Hpc Hk H. pose proof (so_batches _ (proj1 Hinv) b x Hb) as [B1 B2 B3].
  destruct (B3 k i Hk) as (r & Hr & Hd & Ht & _). unfold close_triggered in H. rewrite Hr in H. simpl in H.
  rewrite Hpc in Ht. simpl in Ht. rewrite Nat.ltb_irrefl in Ht. rewrite Ht in H. injection H as <-.
  change (set_req i (set_triggered r) s) with (set_reqs (<[i:=set_triggered r]> (bs_reqs s)) s).
  unfold hedge_part in B2. rewrite Hpc in B2.
  assert (NoDup (b_items x)) as Hnd.
  { pose proof (so_nodup _ (proj1 Hinv)) as H. rewrite <- (so_order _ (proj1 Hinv)) in H. apply NoDup_app in H as (H & _ & _).
    destruct (list_split_at _ _ _ Hb) as (l1 & l2 & E & _). rewrite E, fmap_app, concat_app in H. simpl in H.
    by apply NoDup_app in H as (_ & _ & [H _]%NoDup_app). }
  apply (inv_batch s b x); simpl; try done.
  - by rewrite length_insert.
  - intros j r' Hj. apply list_lookup_insert_Some in Hj as [(<- & <- & _)|[_ Hj]]; [|by exists r'].
    exists r. split_and!; try done. intros Hn. destruct Hn. by eapply list_elem_of_lookup_2.
  - split; simpl; [done | by unfold hedge_part |]. intros k' j Hk'. destruct (decide (i = j)) as [<-|Hne].
    + assert (k' = k) as -> by by eapply NoDup_lookup. exists (set_triggered r).
      split_and!; [apply list_lookup_insert_eq; by eapply lookup_lt_Some | done | | done].
      simpl. symmetry. apply Nat.ltb_lt. lia.
    + destruct (B3 k' j Hk') as (q & Hq & Hdq & Htq & _). exists q. rewrite list_lookup_insert_ne by done.
      split_and!; [done|done| |done]. rewrite Htq, Hpc. simpl. assert (k' ≠ k) by (intros ->; simplify_eq).
      destruct (Nat.ltb_spec k' k), (Nat.ltb_spec k' (S k)); try done; lia.
Qed.

Lemma lookup_leave_outcome items o e (rs : list (batchRequestResponse Out Ans)) i :
  leave_outcome items o e rs !! i = (λ r, if decide (i ∈ items) then set_outcome o e r else r) <$> rs !! i.
Proof.
  induction items as [|j items IH]; simpl.
  - destruct (rs !! i); simpl; [|done]. destruct (decide (i ∈ [])) as [H|H]; [by apply elem_of_nil in H | done].
  - destruct (decide (i = j)) as [->|Hne].
    + rewrite list_lookup_alter_eq, IH. destruct (rs !! j); simpl; [|done].
      destruct (decide (j ∈ j :: items)) as [H|[]]; [|by left]. by destruct (decide (j ∈ items)).
    + rewrite list_lookup_alter_ne, IH by done. destruct (rs !! i); simpl; [|done]. f_equal.
      destruct (decide (i ∈ items)) as [H|H], (decide (i ∈ j :: items)) as [H'|H']; rewrite elem_of_cons in H'; naive_solver.
Qed.

Lemma length_leave_outcome items o e (rs : list (batchRequestResponse Out Ans)) : length (leave_outcome items o e rs) = length rs.
Proof. induction items as [|j items IH]; simpl; [done|]. by rewrite length_alter. Qed.

Lemma inv_finish s b x s' : batch_inv s → bs_batches s !! b = Some x → finish_step b x s = Some s' → batch_inv s'.
Proof.
  intros Hinv Hb H. pose proof (so_batches _ (proj1 Hinv) b x Hb) as [B1 B2 B3].
  unfold finish_step in H. unfold hedge_part in B2. destruct (b_pc x) as [k|d| |] eqn:Hpc; [..|done].
  - destruct (b_items x !! k) as [i|] eqn:Hk; [by eapply inv_close_triggered|]. injection H as <-.
    apply lookup_ge_None in Hk. unfold run_describe. destruct (b_items x) as [|i l] eqn:Hi; [simpl in B1; lia|]. rewrite <- Hi in *.
    apply (inv_batch_only s b x); simpl; try done.
    + intros o e (h & Hh & _). congruence.
    + intros k'. rewrite Hpc. simpl. destruct (Nat.ltb_spec k' k); [by left | right; lia].
    + unfold hedge_part. simpl. eexists. split; [done|]. apply (hedge_inv_init delays).
  - destruct B2 as (h & Hh & Hhi). rewrite Hh in H. simpl in H. destruct (hs_main h) as [|o e] eqn:Hm; [done|]. injection H as <-.
    apply (inv_batch s b x); simpl; try done.
    + intros o' e' (h' & Hh' & Hm'). exists h'. simpl. split; congruence.
    + apply length_leave_outcome.
    + intros i r' Hr'. rewrite lookup_leave_outcome in Hr'. apply fmap_Some in Hr' as (r & Hr & ->). exists r.
      destruct (decide (i ∈ b_items x)) as [Hin|Hn]; by split_and!.
    + split; simpl; [done | unfold hedge_part; simpl; eauto 6 |]. intros k i Hk. destruct (B3 k i Hk) as (r & Hr & Hd & Ht & _).
      exists (set_outcome o e r). rewrite lookup_leave_outcome, Hr. simpl.
      rewrite decide_True by by eapply list_elem_of_lookup_2. split_and!; [done | done | by rewrite Ht |].
      intros _. simpl. by exists h.
  - injection H as <-. apply (inv_batch_only s b x); simpl; try done.
    + intros k. left. by rewrite Hpc.
    + by rewrite Hpc.
Qed.

(** After its return, the goroutines of [hedge] do not change what it returned. *)
Lemma hedge_step_main now l (h h' : hedge_state Out) o e : hedge_step now l h = Some h' → hs_main h = HReturned o e → hs_main h' = HReturned o e.
Proof.
  intros H Hm. unfold hedge_step in H. rewrite Hm in H.
  destruct l; try done; (destruct (hs_hedgers h !! i) as [p|]; [|done]); destruct p; simpl in H; try done;
    repeat (break_match_hyp; try done); by injection H as <-.
Qed.

Lemma inv_hedge s b x l s' : batch_inv s → bs_batches s !! b = Some x → hedge_goroutine b x l s = Some s' → batch_inv s'.
Proof.
  intros Hinv Hb H. pose proof (so_batches _ (proj1 Hinv) b x Hb) as [B1 B2 B3].
  unfold hedge_goroutine in H. destruct (b_hedge x) as [h|] eqn:Hh; [|done]. simpl in H.
  destruct (cancel_allowed _ _ _); [|done]. destruct (hedge_step _ _ h) as [h'|] eqn:E; [|done]. simpl in H. injection H as <-.
  apply (inv_batch_only s b x); simpl; try done; [|auto|].
  - intros o e (h0 & Hh0 & Hm). exists h'. split; [done|]. eapply hedge_step_main; [exact E|]. congruence.
  - unfold hedge_part in *. simpl. destruct (b_pc x).
    + congruence.
    + destruct B2 as (h0 & Hh0 & Hi). rewrite Hh in Hh0. injection Hh0 as <-. exists h'. split; [done | by eapply hedge_inv_step].
    + destruct B2 as (h0 & o & e & Hh0 & Hi & Hm). rewrite Hh in Hh0. injection Hh0 as <-. exists h', o, e.
      split_and!; [done | by eapply hedge_inv_step | by eapply hedge_step_main].
    + destruct B2 as (h0 & o & e & Hh0 & Hi & Hm). rewrite Hh in Hh0. injection Hh0 as <-. exists h', o, e.
      split_and!; [done | by eapply hedge_inv_step | by eapply hedge_step_main].
Qed.

Lemma inv_timer s i r s' : batch_inv s → timer_case maxItems i r s = Some s' → batch_inv s'.
Proof.
  intros Hinv H. unfold timer_case in H.
  destruct (Nat.ltb_spec (length (bs_items s)) maxItems); [|done]. case_bool_decide as Hin; [|done]. destruct (rq_fired r); [|done].
  injection H as <-. apply inv_launch; [done|]. intros E. rewrite E in Hin. by apply elem_of_nil in Hin.
Qed.

(** The batch of a caller that is executing *)
Lemma executing_batch s i r :
  batch_inv s → bs_reqs s !! i = Some r → i ∈ concat (b_items <$> bs_batches s) →
  ∃ b x k, bs_batches s !! b = Some x ∧ b_items x !! k = Some i ∧ rq_doneCh r = Some b ∧ rq_triggered r = reached (b_pc x) k ∧
    (outcome_left (b_pc x) = true → batch_outcome x (rq_response r) (rq_err r)) ∧ hedge_part x.
Proof.
  intros [Hs _] Hr (b & x & Hb & [k Hk]%list_elem_of_lookup_1)%elem_of_batches.
  destruct (so_batches _ Hs b x Hb) as [B1 B2 B3]. destruct (B3 k i Hk) as (r' & Hr' & Hd & Ht & Ho). simplify_eq. by exists b, x, k.
Qed.

Lemma inv_done s i r s' : batch_inv s → bs_reqs s !! i = Some r → client_done i r s = Some s' → batch_inv s'.
Proof.
  intros Hinv Hr H. pose proof Hinv as [Hs Hc]. pose proof (Hc i r Hr) as Hci. unfold client_done, client_ok in *.
  destruct (rq_client r) eqn:Ec; try done. destruct Hci as [_ Ht]. destruct (batch_closed s (rq_doneCh r)) eqn:Ecl; [|done]. injection H as <-.
  destruct (executing_batch s i r Hinv Hr) as (b & x & k & Hb & Hk & Hd & _ & Ho & Hp); [by eapply so_triggered|].
  unfold batch_closed in Ecl. rewrite Hd, Hb in Ecl. destruct x as [items pc h]. destruct pc; try done. simpl in *.
  specialize (Ho eq_refl). destruct Hp as (h0 & o & e & Hh0 & Hhi & Hm). simpl in Hh0.
  assert (rq_response r = o ∧ rq_err r = e) as [<- <-] by (destruct Ho as (h1 & Hh1 & Hm1); simpl in Hh1; simplify_eq; rewrite Hm in Hm1; by simplify_eq).
  pose proof (hi_main _ _ Hhi) as Hres. rewrite Hm in Hres.
  assert (∃ res, client_result r = Some res ∧ returned_ok (bs_batches s) i (rq_name r) res) as (res & -> & Hok).
  { assert (∀ res, match rq_response r, rq_err r with
      | Some o, None => res = match find_item o (rq_name r) with Some a => inr a | None => inl (not_found (rq_name r)) end
      | None, Some e => res = inl (HandleEC2Error e)
      | _, _ => False
      end → returned_ok (bs_batches s) i (rq_name r) res) as Hret.
    { intros res Hres'. assert (∃ b x o e, bs_batches s !! b = Some x ∧ i ∈ b_items x ∧ batch_outcome x o e ∧
        match o, e with
        | Some o, None => res = match find_item o (rq_name r) with Some a => inr a | None => inl (not_found (rq_name r)) end
        | None, Some e => res = inl (HandleEC2Error e)
        | _, _ => False
        end) as Hex.
      { exists b, (MkBatch items BClosed h), (rq_response r), (rq_err r).
        split_and!; [done | by eapply list_elem_of_lookup_2 | done | done]. }
      unfold returned_ok. by repeat case_match. }
    unfold client_result. unfold hedge_result in Hres.
    destruct (rq_response r) as [out|], (rq_err r) as [err|]; try done; eexists; (split; [done|]); by apply Hret. }
  eapply inv_client; [done|exact Hr|done|]. unfold client_ok. simpl. done.
Qed.

Lemma batch_inv_step l s s' : (0 < maxItems)%nat → batch_inv s → batch_step maxItems l s = Some s' → batch_inv s'.
Proof.
  intros Hmax Hinv H. unfold batch_step in H. rewrite (so_crash _ (proj1 Hinv)) in H.
  destruct l as [t|n d|i|i d|i| |i|b|b l|i|i]; simpl in H;
    try (destruct (bs_reqs s !! i) as [r|] eqn:Hr; [|done]; simpl in H; pose proof (proj2 Hinv i r Hr) as Hci; unfold client_ok in Hci);
    try (destruct (bs_batches s !! b) as [x|] eqn:Hb; [|done]; simpl in H).
  - destruct (_ <=? _)%Z; [|done]. injection H as <-. by destruct Hinv as [[] ?].
  - injection H as <-. by apply inv_call.
  - by eapply inv_submit.
  - destruct (client_ctx_error (rq_client r) d) as [e|] eqn:E; [|done]. simpl in H. injection H as <-.
    eapply inv_client; [done|exact Hr|done|]. unfold client_ok. simpl. unfold client_ctx_error in E.
    destruct (rq_client r); try done; injection E as <-; by destruct d.
  - destruct (rq_client r) eqn:Ec; try done; (destruct (_ && _); [|done]); injection H as <-;
      (eapply inv_client; [done|exact Hr|done|]); unfold client_ok; simpl; by rewrite Ec.
  - by eapply inv_collect.
  - by eapply inv_timer.
  - by eapply inv_finish.
  - by eapply inv_hedge.
  - destruct (rq_client r) eqn:Ec; try done. destruct (rq_triggered r) eqn:Et; [|done]. injection H as <-.
    eapply inv_client; [done|exact Hr|done|]. unfold client_ok. simpl. done.
  - by eapply inv_done.
Qed.

Lemma batch_inv_run ls s s' : (0 < maxItems)%nat → batch_inv s → batch_run maxItems ls s = Some s' → batch_inv s'.
Proof.
  intros Hmax. revert s. induction ls as [|l ls IH]; intros s Hs H; simpl in H; [by simplify_eq|].
  destruct (batch_step maxItems l s) eqn:E; [|done]. by eapply IH; [eapply batch_inv_step|].
Qed.
End Invariants.

(** ** Progress *)

Section Progress.
Context {Out Ans : Type} `{!Describer Out Ans} (maxItems : nat).
Implicit Types (s : batch_state Out Ans) (r : batchRequestResponse Out Ans) (x : batch Out).

Definition client_rank r : nat :=
  (match rq_client r with CSubmit => 26 | CTriggered => 2 | CExecuting => 1 | CReturned _ => 0 end) + (if rq_fired r then 0 else 1).

Definition batch_rank x : nat :=
  (match b_pc x with BTrigger k => length (b_items x) - k + 20 | BDescribe _ => 2 | BAnswered => 1 | BClosed => 0 end) +
  (match b_hedge x with Some h => hedge_rank h | None => 0 end).

(** A bound on the steps that are left *)
Definition rank s : nat :=
  sum_list_with client_rank (bs_reqs s) + 23 * length (bs_requests s) + 22 * length (bs_items s) + sum_list_with batch_rank (bs_batches s).

Lemma sum_insert {A} (f : A → nat) (l : list A) i (x y : A) : l !! i = Some x → (sum_list_with f (<[i:=y]> l) + f x = sum_list_with f l + f y)%nat.
Proof.
  intros H. destruct (list_split_at l i x H) as (l1 & l2 & E & _ & Hins). rewrite Hins, E, !sum_list_with_app. simpl. lia.
Qed.

Lemma sum_alter {A} (f : A → nat) (g : A → A) (l : list A) i : (∀ x : A, f (g x) = f x) → sum_list_with f (alter g i l) = sum_list_with f l.
Proof.
  intros Hg. revert i. induction l as [|x l IH]; intros [|i]; simpl; try done; [by rewrite Hg|]. f_equal. apply IH.
Qed.

Lemma rank_set_req s i r r' : bs_reqs s !! i = Some r → (client_rank r' < client_rank r)%nat → (rank (set_req i r' s) < rank s)%nat.
Proof. intros Hi Hlt. unfold rank. simpl. pose proof (sum_insert client_rank _ i r r' Hi). lia. Qed.

Lemma rank_launch s : bs_items s ≠ [] → (rank (launch s) < rank s)%nat.
Proof.
  intros Hne. unfold rank. simpl. rewrite sum_list_with_app. simpl. unfold batch_rank. simpl.
  destruct (bs_items s); [done|]. simpl. lia.
Qed.

Lemma rank_finish s b x s' :
  batch_inv maxItems s → bs_batches s !! b = Some x → finish_step b x s = Some s' → (rank s' < rank s)%nat.
Proof.
  intros Hinv Hb H. pose proof (so_batches _ _ (proj1 Hinv) b x Hb) as [B1 B2 B3]. unfold finish_step in H. unfold hedge_part in B2.
  pose proof (sum_insert batch_rank (bs_batches s) b x) as Hsum.
  destruct (b_pc x) as [k|d| |] eqn:Hpc; [..|done].
  - destruct (b_items x !! k) as [i|] eqn:Hk.
    + destruct (B3 k i Hk) as (r & Hr & Hd & Ht & _). unfold close_triggered in H. rewrite Hr in H. simpl in H.
      simpl in Ht. rewrite Nat.ltb_irrefl in Ht. rewrite Ht in H. injection H as <-. apply lookup_lt_Some in Hk.
      unfold rank. simpl. specialize (Hsum (MkBatch (b_items x) (BTrigger (S k)) (b_hedge x)) Hb).
      pose proof (sum_insert client_rank (bs_reqs s) i r (set_triggered r) Hr) as Hr2. change (client_rank (set_triggered r)) with (client_rank r) in Hr2.
      unfold batch_rank in Hsum at 2 4. simpl in Hsum. rewrite Hpc in Hsum. lia.
    + injection H as <-. unfold run_describe. destruct (b_items x) as [|i l] eqn:Hi; [simpl in B1; lia|]. rewrite <- Hi in *.
      unfold rank. simpl. pose proof (hedge_rank_init (Out:=Out) delays) as Hh. simpl in Hh.
      specialize (Hsum (MkBatch (b_items x) (BDescribe (bs_clock s + describe_timeout)) (Some (hedge delays))) Hb).
      unfold batch_rank in Hsum at 2 4. simpl in Hsum. rewrite Hpc, B2 in Hsum. simpl in Hsum. lia.
  - destruct B2 as (h & Hh & Hhi). rewrite Hh in H. simpl in H. destruct (hs_main h) as [|o e] eqn:Hm; [done|]. injection H as <-.
    unfold rank. simpl. assert (sum_list_with client_rank (leave_outcome (b_items x) o e (bs_reqs s)) = sum_list_with client_rank (bs_reqs s)) as ->.
    { clear. induction (b_items x) as [|i l IH]; simpl; [done|]. by rewrite sum_alter. }
    specialize (Hsum (MkBatch (b_items x) BAnswered (Some h)) Hb). unfold batch_rank in Hsum at 2 4. simpl in Hsum. rewrite Hpc, Hh in Hsum. lia.
  - injection H as <-. unfold rank. simpl. specialize (Hsum (MkBatch (b_items x) BClosed (b_hedge x)) Hb).
    unfold batch_rank in Hsum at 2 4. simpl in Hsum. rewrite Hpc in Hsum. lia.
Qed.

Lemma rank_hedge s b x l s' : bs_batches s !! b = Some x → hedge_goroutine b x l s = Some s' → (rank s' < rank s)%nat.
Proof.
  intros Hb H. unfold hedge_goroutine in H. destruct (b_hedge x) as [h|] eqn:Hh; [|done]. simpl in H.
  destruct (cancel_allowed _ _ _); [|done]. destruct (hedge_step _ _ h) as [h'|] eqn:E; [|done]. simpl in H. injection H as <-.
  apply hedge_step_rank in E. unfold rank. simpl. pose proof (sum_insert batch_rank _ b x (MkBatch (b_items x) (b_pc x) (Some h')) Hb) as Hsum.
  unfold batch_rank in Hsum at 2 4. simpl in Hsum. rewrite Hh in Hsum. lia.
Qed.

(** Calls come from outside and time passes by itself; all else is a step of a goroutine. *)
Definition goroutine (l : batch_label Out) : bool := match l with LTick _ | LCall _ _ => false | _ => true end.
Definition is_call (l : batch_label Out) : bool := match l with LCall _ _ => true | _ => false end.

Lemma rank_step l s s' :
  (0 < maxItems)%nat → batch_inv maxItems s → batch_step maxItems l s = Some s' →
  (rank s' + (if goroutine l then 1 else 0) ≤ rank s + (if is_call l then 27 else 0))%nat.
Proof.
  intros Hmax Hinv H. unfold batch_step in H. rewrite (so_crash _ _ (proj1 Hinv)) in H.
  assert (∀ n, (n < rank s)%nat → n + 1 ≤ rank s + 0)%nat as Hlt by lia.
  destruct l as [t|n d|i|i d|i| |i|b|b l|i|i]; simpl in H |- *;
    try (destruct (bs_reqs s !! i) as [r|] eqn:Hr; [|done]; simpl in H);
    try (destruct (bs_batches s !! b) as [x|] eqn:Hb; [|done]; simpl in H).
  - destruct (_ <=? _)%Z; [|done]. injection H as <-. unfold rank. simpl. lia.
  - injection H as <-. unfold rank. simpl. rewrite sum_list_with_app. simpl. lia.
  - unfold submit in H. destruct (rq_client r) eqn:Ec; try done. destruct (_ <? _)%nat; [|done]. injection H as <-.
    unfold rank. simpl. rewrite length_app. simpl. pose proof (sum_insert client_rank (bs_reqs s) i r (set_client CTriggered r) Hr) as Hsum.
    unfold client_rank in Hsum at 2 4. rewrite Ec in Hsum. simpl in Hsum. lia.
  - destruct (client_ctx_error (rq_client r) d) as [e|] eqn:E; [|done]. simpl in H. injection H as <-.
    apply Hlt. eapply rank_set_req; [done|]. unfold client_rank. simpl. destruct (rq_client r); simpl; try done; lia.
  - destruct (rq_client r) eqn:Ec; try done; (destruct (_ && _) eqn:E; [|done]); injection H as <-;
      apply Hlt; (eapply rank_set_req; [done|]); unfold client_rank; simpl; rewrite Ec;
      apply andb_true_iff in E as [_ E]; destruct (rq_fired r); try done; lia.
  - unfold collect in H. destruct (Nat.ltb_spec (length (bs_items s)) maxItems) as [Hl|Hge].
    + destruct (bs_requests s) as [|i q] eqn:Eq; [done|]. injection H as <-. unfold rank. simpl. rewrite Eq, sum_alter, length_app by done. simpl. lia.
    + injection H as <-. apply Hlt, rank_launch. intros E. rewrite E in Hge. simpl in Hge. lia.
  - unfold timer_case in H. destruct (_ <? _)%nat; [|done]. case_bool_decide as Hin; [|done]. destruct (rq_fired r); [|done].
    injection H as <-. apply Hlt, rank_launch. intros E. rewrite E in Hin. by apply elem_of_nil in Hin.
  - by eapply Hlt, rank_finish.
  - by eapply Hlt, rank_hedge.
  - destruct (rq_client r) eqn:Ec; try done. destruct (rq_triggered r); [|done]. injection H as <-.
    apply Hlt. eapply rank_set_req; [done|]. unfold client_rank. simpl. rewrite Ec. lia.
  - pose proof (inv_done maxItems s i r s' Hinv Hr H) as Hinv'. unfold client_done in H. destruct (rq_client r) eqn:Ec; try done.
    destruct (batch_closed _ _); [|done]. injection H as <-. destruct (client_result r).
    + apply Hlt. eapply rank_set_req; [done|]. unfold client_rank. simpl. rewrite Ec. lia.
    + pose proof (so_crash _ _ (proj1 Hinv')) as E. done.
Qed.

(** A goroutine can make a step, not only because a context is done, once enough time has passed. *)
Definition can_move s : Prop :=
  ∃ t l, (bs_clock s ≤ t)%Z ∧ goroutine l = true ∧ (∀ i d, l ≠ LCtxDone i d) ∧ is_Some (batch_step maxItems l (set_bclock t s)).

(** A batch whose channel is open can move. *)
Lemma batch_progress s b x :
  batch_inv maxItems s → bs_batches s !! b = Some x → b_pc x ≠ BClosed →
  can_move s.
Proof.
  intros Hinv Hb Hpc. pose proof (so_batches _ _ (proj1 Hinv) b x Hb) as [B1 B2 B3]. unfold hedge_part in B2.
  assert (is_Some (finish_step b x (set_bclock (bs_clock s) s)) →
    can_move s) as Hfin.
  { intros H. exists (bs_clock s), (LBatch b). split_and!; [lia|done|done|]. unfold batch_step. simpl.
    rewrite (so_crash _ _ (proj1 Hinv)), Hb. exact H. }
  destruct (b_pc x) as [k|d| |] eqn:Ep; [..|done].
  - apply Hfin. unfold finish_step. rewrite Ep. destruct (b_items x !! k) as [i|] eqn:Hk; [|eauto].
    destruct (B3 k i Hk) as (r & Hr & _). unfold close_triggered. simpl. rewrite Hr. simpl. eauto.
  - destruct B2 as (h & Hh & Hhi). destruct (hedge_returned h) eqn:Hret.
    + apply Hfin. unfold finish_step. rewrite Ep, Hh. simpl. unfold hedge_returned in Hret. destruct (hs_main h); [done|eauto].
    + destruct (hedge_progress _ h Hhi Hret) as (t & l & Hl & Hstep). exists (Z.max (bs_clock s) t), (LHedge b l).
      split_and!; [lia|done|done|]. unfold batch_step. simpl. rewrite (so_crash _ _ (proj1 Hinv)), Hb. simpl.
      unfold hedge_goroutine. rewrite Hh. simpl. destruct (Hstep (Z.max (bs_clock s) t)) as [h' ->]; [lia|].
      assert (cancel_allowed x (Z.max (bs_clock s) t) l = true) as -> by (destruct l; try done; by destruct (Hl deadline)). simpl. eauto.
  - apply Hfin. unfold finish_step. rewrite Ep. eauto.
Qed.

(** As long as somebody waits, a goroutine can move. *)
Lemma waiting_progress s i r :
  (0 < maxItems)%nat → batch_inv maxItems s → bs_reqs s !! i = Some r → (∀ res, rq_client r ≠ CReturned res) →
  can_move s.
Proof.
  intros Hmax Hinv Hr Hw. pose proof Hinv as [Hs Hc]. pose proof (so_crash _ _ Hs) as Hcr.
  assert (∀ t l, (bs_clock s ≤ t)%Z → goroutine l = true → (∀ i d, l ≠ LCtxDone i d) → is_Some (batch_step maxItems l (set_bclock t s)) →
    can_move s) as Hgo by (unfold can_move; eauto 8).
  assert (bs_requests s ≠ [] ∨ (maxItems ≤ length (bs_items s))%nat → is_Some (collect maxItems (set_bclock (bs_clock s) s))) as Hcol.
  { intros H. unfold collect. simpl. destruct (Nat.ltb_spec (length (bs_items s)) maxItems); [|eauto].
    destruct H as [H|H]; [|lia]. destruct (bs_requests s); [done | eauto]. }
  assert (is_Some (collect maxItems (set_bclock (bs_clock s) s)) → is_Some (batch_step maxItems LCollect (set_bclock (bs_clock s) s))) as Hcol2.
  { unfold batch_step. simpl. by rewrite Hcr. }
  assert (i ∈ bs_submitted s → rq_client r = CTriggered ∨ rq_client r = CExecuting ∧ rq_triggered r = true →
    can_move s) as Hsub.
  { intros Hin Hcl. rewrite <- (so_order _ _ Hs), !elem_of_app in Hin. destruct Hin as [Hin|[Hin|Hin]].
    - destruct (executing_batch _ s i r Hinv Hr Hin) as (b & x & k & Hb & Hk & Hd & Ht & _).
      destruct (decide (b_pc x = BClosed)) as [Ep|Ep]; [|by eapply batch_progress]. rewrite Ep in Ht. simpl in Ht.
      destruct Hcl as [Ec|[Ec _]].
      + apply (Hgo (bs_clock s) (LTriggered i)); [lia|done|done|]. unfold batch_step. simpl. rewrite Hcr, Hr. simpl. rewrite Ec, Ht. eauto.
      + apply (Hgo (bs_clock s) (LDone i)); [lia|done|done|]. unfold batch_step. simpl. rewrite Hcr, Hr. simpl. unfold client_done.
        rewrite Ec. unfold batch_closed. simpl. rewrite Hd, Hb. destruct x as [? pc ?]. simpl in Ep. subst pc. eauto.
    - destruct (Nat.ltb_spec (length (bs_items s)) maxItems) as [Hl|Hl].
      2:{ apply (Hgo (bs_clock s) LCollect); [lia|done|done|]. apply Hcol2, Hcol. auto. }
      destruct (rq_fired r) eqn:Ef.
      + apply (Hgo (bs_clock s) (LTimer i)); [lia|done|done|]. unfold batch_step. simpl. rewrite Hcr, Hr. simpl. unfold timer_case. simpl.
        rewrite (proj2 (Nat.ltb_lt _ _) Hl), bool_decide_true, Ef by done. simpl. eauto.
      + apply (Hgo (Z.max (bs_clock s) (rq_fires r)) (LExpire i)); [lia|done|done|]. unfold batch_step. simpl. rewrite Hcr, Hr. simpl. rewrite Ef.
        assert ((rq_fires r <=? Z.max (bs_clock s) (rq_fires r))%Z = true) as -> by (apply Z.leb_le; lia). simpl.
        destruct (rq_client r); [eauto..|by edestruct Hw].
    - apply (Hgo (bs_clock s) LCollect); [lia|done|done|]. apply Hcol2, Hcol. left. intros E. rewrite E in Hin. by apply elem_of_nil in Hin. }
  pose proof (Hc i r Hr) as Hci. unfold client_ok in Hci. destruct (rq_client r) eqn:Ec.
  - destruct (Nat.ltb_spec (length (bs_requests s)) (maxItems * 10)) as [Hl|Hl].
    + apply (Hgo (bs_clock s) (LSubmit i)); [lia|done|done|]. unfold batch_step. simpl. rewrite Hcr, Hr. simpl. unfold submit. simpl.
      rewrite Ec, (proj2 (Nat.ltb_lt _ _) Hl). eauto.
    + apply (Hgo (bs_clock s) LCollect); [lia|done|done|]. apply Hcol2, Hcol. left. intros E. rewrite E in Hl. simpl in Hl. lia.
  - apply Hsub; auto.
  - destruct Hci. apply Hsub; auto.
  - by edestruct Hw.
Qed.
End Progress.

(** ** Claims *)

Section Claims.
Context {Out Ans : Type} `{!Describer Out Ans} (maxItems : nat).
Implicit Types (s : batch_state Out Ans) (ls : list (batch_label Out)).

Lemma batch_run_inv ls s : (0 < maxItems)%nat → batch_run maxItems ls NewBatchDescriber = Some s → batch_inv maxItems s.
Proof. intros Hmax. apply batch_inv_run; [done|]. apply batch_inv_init. Qed.

Lemma rank_run ls s s' :
  (0 < maxItems)%nat → batch_inv maxItems s → batch_run maxItems ls s = Some s' →
  (rank s' + count_where goroutine ls ≤ rank s + 27 * count_where is_call ls)%nat.
Proof.
  intros Hmax. unfold count_where. revert s. induction ls as [|l ls IH]; intros s Hs H; simpl in H |- *; [simplify_eq; simpl; lia|].
  destruct (batch_step maxItems l s) as [s1|] eqn:E; [|done]. pose proof (rank_step maxItems l s s1 Hmax Hs E) as Hr.
  specialize (IH s1 (batch_inv_step maxItems l s s1 Hmax Hs E) H). unfold where_ in *. simpl.
  destruct (goroutine l), (is_call l); simpl in *; lia.
Qed.

(** The name of a request is among those its batch asks for. *)
Lemma batch_names_item s b x i r :
  bs_batches s !! b = Some x → i ∈ b_items x → bs_reqs s !! i = Some r → rq_name r ∈ batch_names (bs_reqs s) x.
Proof.
  intros Hb Hi Hr. apply elem_of_names_once. split; [|set_solver]. apply list_elem_of_omap. exists i. split; [done|]. by rewrite Hr.
Qed.

(** C16: However callers, the collector, the batches and their hedged requests interleave, a caller that
    returns successfully has what EC2 answered to a call that asked for its own name, and that has
    this name.  A caller that fails had its context done, or the call of its batch took too long; or
    the requests of its batch failed, and it has all their errors, which are not recognised as errors
    of EC2 any more; or EC2 answered without what was asked for. *)
Theorem batch_answers ls s i r res :
  (0 < maxItems)%nat → batch_run maxItems ls NewBatchDescriber = Some s →
  bs_reqs s !! i = Some r → rq_client r = CReturned res →
  (∃ m d, res = inl (ECtx d) ∨ res = inl (EWrap m (ECtx d))) ∨
  ∃ b x h, bs_batches s !! b = Some x ∧ i ∈ b_items x ∧ rq_name r ∈ batch_names (bs_reqs s) x ∧ b_hedge x = Some h ∧
    match res with
    | inr a => item_name a = rq_name r ∧ ∃ o, inr o ∈ hs_answers h ∧ a ∈ described o
    | inl e =>
        (∃ es, e = EMulti es ∧ inl <$> es ⊆+ hs_answers h ∧ (length es = length delays ∨ is_Some (hs_ctx h)) ∧ IsAWSErr e = false) ∨
        (∃ o, e = not_found (rq_name r) ∧ inr o ∈ hs_answers h ∧ ∀ a, a ∈ described o → item_name a ≠ rq_name r)
    end.
Proof.
  intros Hmax Hrun Hr Hc. pose proof (batch_run_inv ls s Hmax Hrun) as Hinv.
  pose proof (proj2 Hinv i r Hr) as Hok. unfold client_ok in Hok. rewrite Hc in Hok.
  assert ((∃ m d, res = inl (ECtx d) ∨ res = inl (EWrap m (ECtx d))) ∨
    ∃ b x o e, bs_batches s !! b = Some x ∧ i ∈ b_items x ∧ batch_outcome x o e ∧
      match o, e with
      | Some o, None => res = match find_item o (rq_name r) with Some a => inr a | None => inl (not_found (rq_name r)) end
      | None, Some e => res = inl (HandleEC2Error e)
      | _, _ => False
      end) as [Hctx|(b & x & o & e & Hb & Hi & (h & Hh & Hm) & Hres)].
  { destruct res as [e|a]; [|by right]. destruct e as [|m e| | | |d| | | | | | | | | | | |]; try (by right).
    - destruct e as [| | | | |d| | | | | | | | | | | |]; try (by right). left. exists m, d. by right.
    - left. exists "", d. by left. }
  { by left. }
  pose proof (bo_hedge _ _ _ _ (so_batches _ _ (proj1 Hinv) b x Hb)) as Hp.
  assert (hedge_inv (length delays) h) as Hhi.
  { unfold hedge_part in Hp. destruct (b_pc x); [congruence|..]; destruct Hp as (h0 & Hp); [|destruct Hp as (? & ? & Hp)..]; naive_solver congruence. }
  pose proof (hi_main _ _ Hhi) as Hmain. rewrite Hm in Hmain.
  destruct o as [o|], e as [e|]; try done.
  - right. exists b, x, h. split_and!; [done|done|by eapply batch_names_item|done|].
    destruct (find_item o (rq_name r)) as [a|] eqn:Hf; subst res.
    + destruct (find_item_Some _ _ _ Hf). eauto.
    + right. exists o. split_and!; [done|done|by apply find_item_None].
  - destruct e as [| | | | | | | | | | | | | | | | |es]; try (destruct Hmain as (d & _ & Hd); rewrite Hd in Hres; left; exists "", d; left; exact Hres).
    right. exists b, x, h. split_and!; [done|done|by eapply batch_names_item|done|].
    subst res. left. exists es. destruct Hmain as (_ & Hsub & Hn). by split_and!.
Qed.

(** C20: The collector loses no request and gives none to two batches: the requests of the batches, those
    being collected and those in the channel are, one after the other, all that were ever put into it.
    No batch is empty or larger than it may be; it asks for each name of its requests once, and for no other.
    Nothing panics: no channel is closed twice. *)
Theorem batches_partition ls s :
  (0 < maxItems)%nat → batch_run maxItems ls NewBatchDescriber = Some s →
  bs_crash s = None ∧ NoDup (bs_submitted s) ∧
  concat (b_items <$> bs_batches s) ++ bs_items s ++ bs_requests s = bs_submitted s ∧
  (length (bs_items s) ≤ maxItems)%nat ∧
  ∀ b x, bs_batches s !! b = Some x →
    (1 ≤ length (b_items x) ≤ maxItems)%nat ∧
    NoDup (batch_names (bs_reqs s) x) ∧ (length (batch_names (bs_reqs s) x) ≤ maxItems)%nat ∧
    ∀ n, n ∈ batch_names (bs_reqs s) x ↔ ∃ i r, i ∈ b_items x ∧ bs_reqs s !! i = Some r ∧ rq_name r = n.
Proof.
  intros Hmax Hrun. destruct (batch_run_inv ls s Hmax Hrun) as [[H1 H2 H3 H4 H5 H6 H7 H8] _]. split_and!; try done.
  intros b x Hb. pose proof (bo_size _ _ _ _ (H6 b x Hb)) as Hsize. split_and!; [lia|lia|apply NoDup_names_once| |].
  - unfold batch_names. etrans; [apply length_names_once|]. etrans; [apply length_omap_le|]. lia.
  - intros n. unfold batch_names. rewrite elem_of_names_once, list_elem_of_omap. split.
    + intros [(i & Hi & (r & Hr & ->)%fmap_Some) _]. eauto.
    + intros (i & r & Hi & Hr & <-). split; [|set_solver]. exists i. by rewrite Hr.
Qed.

(** C29: Every caller is served.  The goroutines make at most 27 steps for each call, and
    as long as a caller waits one of them can make a step once enough time has passed, whatever the
    callers' contexts do. *)
Theorem callers_served ls s :
  (0 < maxItems)%nat → batch_run maxItems ls NewBatchDescriber = Some s →
  (count_where goroutine ls ≤ 27 * count_where is_call ls)%nat ∧
  ∀ i r, bs_reqs s !! i = Some r → (∃ res, rq_client r = CReturned res) ∨ can_move maxItems s.
Proof.
  intros Hmax Hrun. pose proof (batch_run_inv ls s Hmax Hrun) as Hinv. split.
  - pose proof (rank_run ls _ _ Hmax (batch_inv_init maxItems) Hrun) as H. unfold rank in H at 2. simpl in H. lia.
  - intros i r Hr. destruct (rq_client r) as [| | |res] eqn:Ec; [right..|left; eauto];
      (eapply waiting_progress; [done|done|exact Hr|]); by rewrite Ec.
Qed.
End Claims.

(** ** A run *)

Definition branch (id : string) : network_interface := NetworkInterface id "subnet-1" "acc" "us-east-1a" "vpc-1" "" "in-use" [] "" [] [] None.

(** Two callers share a batch, whose first request fails. *)
Definition served : list (batch_label (list network_interface)) :=
  [LCall "eni-1" 5; LCall "eni-2" 5; LSubmit 0; LSubmit 1; LCollect; LCollect; LCollect; LBatch 0; LBatch 0; LBatch 0;
   LHedge 0 (HStart 0); LHedge 0 (HStart 1); LHedge 0 (HAnswer 0 (inl (ECtx true))); LHedge 0 (HSend 0); LHedge 0 HReceive;
   LTick 2000000000; LHedge 0 (HTimer 1); LHedge 0 (HAnswer 1 (inr [branch "eni-2"; branch "eni-1"])); LHedge 0 (HSend 1);
   LHedge 0 HReceive; LBatch 0; LBatch 0; LTriggered 0; LDone 0].

(** What the run leads to *)
Definition served_state : batch_state (list network_interface) network_interface :=
  Eval vm_compute in default NewBatchDescriber (batch_run 2 served NewBatchDescriber).

Lemma served_run : batch_run 2 served NewBatchDescriber = Some served_state.
Proof. vm_compute. reflexivity. Qed.

Lemma batch_answers_witness :
  ∃ r, bs_reqs served_state !! 0%nat = Some r ∧ rq_client r = CReturned (inr (branch "eni-1")) ∧
    NetworkInterfaceId (branch "eni-1") = rq_name r.
Proof.
  destruct (bs_reqs served_state !! 0%nat) as [r|] eqn:Er; [|discriminate]. exists r. split; [done|].
  assert (rq_client r = CReturned (inr (branch "eni-1"))) as Hc by (injection Er as <-; reflexivity). split; [done|].
  destruct (batch_answers 2 served served_state 0 r (inr (branch "eni-1"))) as [(m & d & [H|H])|(b & x & h & _ & _ & _ & _ & H & _)];
    [lia | exact served_run | exact Er | exact Hc | discriminate | discriminate | exact H].
Defined.

Lemma batches_partition_witness : NoDup (bs_submitted served_state) ∧ b_items <$> bs_batches served_state = [[0; 1]%nat].
Proof.
  split; [|reflexivity]. destruct (batches_partition 2 served served_state) as (_ & H & _); [lia | exact served_run | exact H].
Defined.

(** The second caller can go on. *)
Lemma callers_served_witness : can_move 2 served_state ∧ (count_where goroutine served ≤ 54)%nat.
Proof.
  destruct (callers_served 2 served served_state) as [H1 H2]; [lia|exact served_run|]. split; [|exact H1].
  edestruct (H2 1%nat) as [[res Hres]|H]; [reflexivity | discriminate | exact H].
Defined.
