(* ===== verification/ShellParser.v ===== *)
(** * ShellParser: splitting a command line as a shell does

    Models [executor/dockershellparser/shell_parser.go] and its caller
    [Container.Process] of [executor/runtime/types/types.go].  A string is the list
    of its code points (the model has no strings that are not UTF-8), and the
    [text/scanner.Scanner] that reads it is the list of those not read yet.

    [processStopOn], [processDoubleQuote] and [processDollar] call each other; every
    round reads at least one code point, so a fuel of one more than the length of
    the word is enough ([ProcessWords_total]).

    What the parser should compute is stated independently of it: [frag] is the
    syntax of a word, [print] its text and [denote] its meaning. *)
From S2P Require Import Prelude.

Open Scope Z_scope.
Open Scope list_scope.

Abbreviation rune := Z (only parsing).
Abbreviation gostring := (list Z) (only parsing).

(** The code points of a string literal in ASCII. *)
Fixpoint runes (s : string) : gostring :=
  match s with
  | EmptyString => []
  | String c s => Z.of_N (N_of_ascii c) :: runes s
  end.

Definition ch_quote : rune := 39.
Definition ch_dquote : rune := 34.
Definition ch_dollar : rune := 36.
Definition ch_backslash : rune := 92.
Definition ch_open : rune := 123.
Definition ch_close : rune := 125.
Definition ch_colon : rune := 58.
Definition ch_plus : rune := 43.
Definition ch_minus : rune := 45.
Definition ch_underscore : rune := 95.
Definition ch_equals : rune := 61.

(** ** [text/scanner] *)

Definition EOF : rune := -1.

Abbreviation scanner := (list Z) (only parsing).

(** A byte order mark at the beginning is skipped. *)
Definition Init (s : gostring) : scanner :=
  match s with
  | c :: s' => if c =? 0xFEFF then s' else s
  | [] => []
  end.

Definition Peek (s : scanner) : rune := hd EOF s.
Definition Next (s : scanner) : rune * scanner := (hd EOF s, tl s).

(** ** [unicode] *)

Definition between (lo hi c : rune) : bool := (lo <=? c) && (c <=? hi).

Definition IsSpace (c : rune) : bool :=
  between 9 13 c || (c =? 32) || (c =? 0x85) || (c =? 0xA0) || (c =? 0x1680) || between 0x2000 0x200A c
  || between 0x2028 0x2029 c || (c =? 0x202F) || (c =? 0x205F) || (c =? 0x3000).

(** ** Words *)

Record wordsStruct := WordsStruct { word : gostring; words : list gostring; inWord : bool }.

Definition no_words : wordsStruct := WordsStruct [] [] false.

Definition addRawChar (ch : rune) (w : wordsStruct) : wordsStruct :=
  WordsStruct (word w ++ [ch]) (words w) true.

Definition addChar (ch : rune) (w : wordsStruct) : wordsStruct :=
  if IsSpace ch && inWord w then
    if negb (bool_decide (length (word w) = 0%nat)) then WordsStruct [] (words w ++ [word w]) false else w
  else if negb (IsSpace ch) then addRawChar ch w
  else w.

Definition addString (str : gostring) (w : wordsStruct) : wordsStruct :=
  foldl (flip addChar) w (Init str).

Definition addRawString (str : gostring) (w : wordsStruct) : wordsStruct :=
  WordsStruct (word w ++ str) (words w) true.

Definition getWords (w : wordsStruct) : list gostring :=
  if bool_decide (0 < length (word w))%nat then words w ++ [word w] else words w.

(** ** The environment *)

(** [strings.Index] for a separator of one code point; the position counts code
    points. *)
Fixpoint Index (s : gostring) (c : rune) : Z :=
  match s with
  | [] => -1
  | x :: s' => if x =? c then 0 else let i := Index s' c in if i <? 0 then -1 else i + 1
  end.

Fixpoint getEnv (envs : list gostring) (name : gostring) : gostring :=
  match envs with
  | [] => []
  | env :: envs' =>
      let i := Index env ch_equals in
      if i <? 0 then if bool_decide (name = env) then [] else getEnv envs' name
      else if negb (bool_decide (name = take (Z.to_nat i) env)) then getEnv envs' name
      else drop (Z.to_nat (i + 1)) env
  end.

(** ** Parsing *)

Inductive parse_error :=
| UnsupportedModifier (modifier : rune) (sw_word : gostring)
| MissingColon (sw_word : gostring).

(** [None]: out of fuel. *)
Abbreviation out A := (option (parse_error + A)).

Definition andThen {A B} (m : out A) (k : A → out B) : out B :=
  match m with
  | Some (inr a) => k a
  | Some (inl e) => Some (inl e)
  | None => None
  end.

Notation "' p ⇐ m ; k" := (andThen m (λ x, match x with p => k end))
  (at level 20, p pattern, m at level 100, k at level 200, right associativity).

(** [processSingleQuote] after the quote. *)
Fixpoint singleQuote (result : gostring) (s : scanner) : gostring * scanner :=
  match s with
  | [] => (result, [])
  | ch :: s' => if ch =? ch_quote then (result, s') else singleQuote (result ++ [ch]) s'
  end.

Definition processSingleQuote (s : scanner) : gostring * scanner := singleQuote [] (tl s).

Section Parser.
(** The Unicode tables [unicode.Letter] and [unicode.Digit], which are consulted
    beyond Latin-1. *)
Context (Letter Digit : rune → bool).

Definition IsDigit (c : rune) : bool := if c <=? 0xFF then between 48 57 c else Digit c.

Definition IsLetter (c : rune) : bool :=
  if c <=? 0xFF then
    between 65 90 c || between 97 122 c || (c =? 0xAA) || (c =? 0xB5) || (c =? 0xBA)
    || between 0xC0 0xD6 c || between 0xD8 0xF6 c || between 0xF8 0xFF c
  else Letter c.

Definition name_rune (c : rune) : bool := IsLetter c || IsDigit c || (c =? ch_underscore).

Fixpoint processNameFrom (name : gostring) (s : scanner) : gostring * scanner :=
  match s with
  | [] => (name, [])
  | ch :: s' =>
      if bool_decide (length name = 0%nat) && IsDigit ch then ([ch], s')
      else if negb (IsLetter ch) && negb (IsDigit ch) && negb (ch =? ch_underscore) then (name, s)
      else processNameFrom (name ++ [ch]) s'
  end.

Definition processName (s : scanner) : gostring * scanner := processNameFrom [] s.

Context (sw_word : gostring) (envs : list gostring).

Fixpoint processStopOn (fuel : nat) (stopChar : rune) (result : gostring) (ws : wordsStruct) (s : scanner)
    {struct fuel} : out (gostring * list gostring * scanner) :=
  match fuel with
  | O => None
  | S n =>
      match s with
      | [] => Some (inr (result, getWords ws, []))
      | ch :: s1 =>
          if negb (stopChar =? EOF) && (ch =? stopChar) then Some (inr (result, getWords ws, s1))
          else if ch =? ch_quote then
            let '(tmp, s') := processSingleQuote s in
            processStopOn n stopChar (result ++ tmp) (addRawString tmp ws) s'
          else if ch =? ch_dquote then
            '(tmp, s') ⇐ processDoubleQuote n [] s1;
            processStopOn n stopChar (result ++ tmp) (addRawString tmp ws) s'
          else if ch =? ch_dollar then
            '(tmp, s') ⇐ processDollar n s;
            processStopOn n stopChar (result ++ tmp) (addString tmp ws) s'
          else if ch =? ch_backslash then
            match s1 with
            | [] => Some (inr (result, getWords ws, []))
            | ch' :: s2 => processStopOn n stopChar (result ++ [ch']) (addRawChar ch' ws) s2
            end
          else processStopOn n stopChar (result ++ [ch]) (addChar ch ws) s1
      end
  end

(** After the quote. *)
with processDoubleQuote (fuel : nat) (result : gostring) (s : scanner) {struct fuel} : out (gostring * scanner) :=
  match fuel with
  | O => None
  | S n =>
      match s with
      | [] => Some (inr (result, []))
      | ch :: s1 =>
          if ch =? ch_dquote then Some (inr (result, s1))
          else if ch =? ch_dollar then
            '(tmp, s') ⇐ processDollar n s;
            processDoubleQuote n (result ++ tmp) s'
          else if ch =? ch_backslash then
            let chNext := Peek s1 in
            if chNext =? EOF then processDoubleQuote n result s1
            else if (chNext =? ch_dquote) || (chNext =? ch_dollar) then
              processDoubleQuote n (result ++ [chNext]) (tl s1)
            else processDoubleQuote n (result ++ [ch]) s1
          else processDoubleQuote n (result ++ [ch]) s1
      end
  end

with processDollar (fuel : nat) (s : scanner) {struct fuel} : out (gostring * scanner) :=
  match fuel with
  | O => None
  | S n =>
      let s1 := tl s in
      if Peek s1 =? ch_open then
        let '(name, s2) := processName (tl s1) in
        if Peek s2 =? ch_close then Some (inr (getEnv envs name, tl s2))
        else if Peek s2 =? ch_colon then
          let '(modifier, s3) := Next (tl s2) in
          '(wd, _, s4) ⇐ processStopOn n ch_close [] no_words s3;
          let newValue := getEnv envs name in
          if modifier =? ch_plus then
            Some (inr (if negb (bool_decide (newValue = [])) then wd else newValue, s4))
          else if modifier =? ch_minus then
            Some (inr (if bool_decide (newValue = []) then wd else newValue, s4))
          else Some (inl (UnsupportedModifier modifier sw_word))
        else Some (inl (MissingColon sw_word))
      else
        let '(name, s2) := processName s1 in
        if bool_decide (name = []) then Some (inr ([ch_dollar], s2))
        else Some (inr (getEnv envs name, s2))
  end.

Definition process : out (gostring * list gostring) :=
  '(result, ws, _) ⇐ processStopOn (S (length sw_word)) EOF [] no_words (Init sw_word);
  Some (inr (result, ws)).
End Parser.

Definition ProcessWord (Letter Digit : rune → bool) (w : gostring) (env : list gostring) : out gostring :=
  '(result, _) ⇐ process Letter Digit w env;
  Some (inr result).

Definition ProcessWords (Letter Digit : rune → bool) (w : gostring) (env : list gostring) : out (list gostring) :=
  '(_, ws) ⇐ process Letter Digit w env;
  Some (inr ws).

(** ** [Container.Process] *)

Record container_process := ContainerProcess {
  EntrypointStr : option gostring;
  Entrypoint : list gostring;
  Command : list gostring
}.

Definition Process (Letter Digit : rune → bool) (info : container_process) : out (list gostring * list gostring) :=
  match EntrypointStr info with
  | Some str =>
      'entrypoint ⇐ ProcessWords Letter Digit str [];
      Some (inr (entrypoint, []))
  | None => Some (inr (Entrypoint info, Command info))
  end.

(** ** What a word means

    The syntax of words: literals, escapes, single and double quotes, [$name], [${name}],
    [${name:-word}] and [${name:+word}]. *)
Inductive frag : Set :=
| Lit (c : rune)
| Esc (c : rune)
| SQuote (s : gostring)
| DQuote (d : dfrags)
| Sub (v : subst)
with subst : Set :=
| Named (name : gostring)
| Braced (name : gostring)
| Modified (name : gostring) (alternate : bool) (w : frags)
with frags : Set :=
| FNil
| FCons (f : frag) (fs : frags)
with dfrags : Set :=
| DNil
| DLit (c : rune) (d : dfrags)
| DEsc (c : rune) (d : dfrags)
| DSub (v : subst) (d : dfrags).

Scheme frag_mut := Induction for frag Sort Prop
with subst_mut := Induction for subst Sort Prop
with frags_mut := Induction for frags Sort Prop
with dfrags_mut := Induction for dfrags Sort Prop.
Combined Scheme word_mutind from frag_mut, subst_mut, frags_mut, dfrags_mut.

Fixpoint print_frag (f : frag) : gostring :=
  match f with
  | Lit c => [c]
  | Esc c => [ch_backslash; c]
  | SQuote s => ch_quote :: s ++ [ch_quote]
  | DQuote d => ch_dquote :: print_dfrags d ++ [ch_dquote]
  | Sub v => print_subst v
  end
with print_subst (v : subst) : gostring :=
  match v with
  | Named name => ch_dollar :: name
  | Braced name => [ch_dollar; ch_open] ++ name ++ [ch_close]
  | Modified name alternate w =>
      [ch_dollar; ch_open] ++ name ++ [ch_colon; if alternate then ch_plus else ch_minus]
      ++ print w ++ [ch_close]
  end
with print (fs : frags) : gostring :=
  match fs with
  | FNil => []
  | FCons f fs => print_frag f ++ print fs
  end
with print_dfrags (d : dfrags) : gostring :=
  match d with
  | DNil => []
  | DLit c d => c :: print_dfrags d
  | DEsc c d => ch_backslash :: c :: print_dfrags d
  | DSub v d => print_subst v ++ print_dfrags d
  end.

Section Meaning.
Context (envs : list gostring).

Fixpoint denote_frag (f : frag) : gostring :=
  match f with
  | Lit c | Esc c => [c]
  | SQuote s => s
  | DQuote d => denote_dfrags d
  | Sub v => denote_subst v
  end
with denote_subst (v : subst) : gostring :=
  match v with
  | Named [] => [ch_dollar]
  | Named name | Braced name => getEnv envs name
  | Modified name alternate w =>
      match getEnv envs name, alternate with
      | [], true => []
      | [], false => denote w
      | _ :: _, true => denote w
      | value, false => value
      end
  end
with denote (fs : frags) : gostring :=
  match fs with
  | FNil => []
  | FCons f fs => denote_frag f ++ denote fs
  end
with denote_dfrags (d : dfrags) : gostring :=
  match d with
  | DNil => []
  | DLit c d | DEsc c d => c :: denote_dfrags d
  | DSub v d => denote_subst v ++ denote_dfrags d
  end.

(** Only literals and substituted values are split at spaces. *)
Definition split_frag (f : frag) (ws : wordsStruct) : wordsStruct :=
  match f with
  | Lit c => addChar c ws
  | Esc c => addRawChar c ws
  | SQuote _ | DQuote _ => addRawString (denote_frag f) ws
  | Sub v => addString (denote_subst v) ws
  end.

Fixpoint split (fs : frags) (ws : wordsStruct) : wordsStruct :=
  match fs with
  | FNil => ws
  | FCons f fs => split fs (split_frag f ws)
  end.
End Meaning.

(** Which words are well-formed: [stop] is the code point that ends the word,
    [next] is the one after it. *)
Section WellFormed.
Context (Letter Digit : rune → bool).

Definition is_name (name : gostring) : bool :=
  match name with
  | [] => true
  | [c] => name_rune Letter Digit c
  | c :: _ => negb (IsDigit Digit c) && forallb (name_rune Letter Digit) name
  end.

(** A name that is not in braces ends before [next]. *)
Definition name_ends (name : gostring) (next : rune) : bool :=
  match name with
  | [] => negb (name_rune Letter Digit next) && negb (next =? ch_open)
  | c :: _ => IsDigit Digit c || negb (name_rune Letter Digit next)
  end.

Definition literal (stop c : rune) : bool :=
  negb (c =? stop) && negb (c =? ch_quote) && negb (c =? ch_dquote) && negb (c =? ch_dollar)
  && negb (c =? ch_backslash).

Definition next_of (s : gostring) (next : rune) : rune := hd next s.

Fixpoint wf_frag (stop next : rune) (f : frag) : bool :=
  match f with
  | Lit c => literal stop c
  | Esc c => true
  | SQuote s => forallb (λ c, negb (c =? ch_quote)) s
  | DQuote d => wf_dfrags d
  | Sub v => wf_subst next v
  end
with wf_subst (next : rune) (v : subst) : bool :=
  match v with
  | Named name => is_name name && name_ends name next
  | Braced name => is_name name
  | Modified name _ w => is_name name && wf ch_close ch_close w
  end
with wf (stop next : rune) (fs : frags) : bool :=
  match fs with
  | FNil => true
  | FCons f fs => wf_frag stop (next_of (print fs) next) f && wf stop next fs
  end
with wf_dfrags (d : dfrags) : bool :=
  match d with
  | DNil => true
  | DLit c d =>
      negb (c =? ch_dquote) && negb (c =? ch_dollar) && wf_dfrags d
      && negb ((c =? ch_backslash) && (let n := next_of (print_dfrags d) ch_dquote in
                                       (n =? EOF) || (n =? ch_dquote) || (n =? ch_dollar)))
  | DEsc c d => ((c =? ch_dquote) || (c =? ch_dollar)) && wf_dfrags d
  | DSub v d => wf_subst (next_of (print_dfrags d) ch_dquote) v && wf_dfrags d
  end.
End WellFormed.

(** ** Termination *)

Lemma singleQuote_rest result s : (length (singleQuote result s).2 ≤ length s)%nat.
Proof. revert result. induction s as [|c s IH]; intros result; simpl; [done|]. case_match; simpl; [lia | by rewrite IH; lia]. Qed.

Section Termination.
Context (Letter Digit : rune → bool) (sw_word : gostring) (envs : list gostring).

Abbreviation stopOn := (processStopOn Letter Digit sw_word envs).
Abbreviation dquote := (processDoubleQuote Letter Digit sw_word envs).
Abbreviation dollar := (processDollar Letter Digit sw_word envs).

Lemma processNameFrom_rest name s : (length (processNameFrom Letter Digit name s).2 ≤ length s)%nat.
Proof. revert name. induction s as [|c s IH]; intros name; simpl; [done|]. repeat case_match; simpl; try lia. rewrite IH. lia. Qed.

(** [m] answers, and if it is no error it has left [P] of the input. *)
Definition answers {A} (m : out A) (P : A → Prop) : Prop :=
  match m with Some (inr a) => P a | Some (inl _) => True | None => False end.

Lemma answers_andThen {A B} (m : out A) (k : A → out B) (P : A → Prop) Q :
  answers m P → (∀ a, P a → answers (k a) Q) → answers (andThen m k) Q.
Proof. unfold answers. destruct m as [[]|]; naive_solver. Qed.

Lemma answers_mono {A} (m : out A) (P Q : A → Prop) : answers m P → (∀ a, P a → Q a) → answers m Q.
Proof. unfold answers. destruct m as [[]|]; naive_solver. Qed.

Lemma parser_answers n :
  (∀ stop result ws s, (length s < n)%nat →
     answers (stopOn n stop result ws s) (λ r, length r.2 ≤ length s)%nat) ∧
  (∀ result s, (length s < n)%nat → answers (dquote n result s) (λ r, length r.2 ≤ length s)%nat) ∧
  (∀ c s, (length s < n)%nat → answers (dollar n (c :: s)) (λ r, length r.2 ≤ length s)%nat).
Proof.
  induction n as [|n (IHs & IHq & IHd)]; [split_and!; intros; lia|]. split_and!.
  - intros stop result ws [|ch s] Hn; simpl in *; [done|].
    assert (∀ r w s', (length s' ≤ length s)%nat →
      answers (stopOn n stop r w s') (λ x, length x.2 ≤ S (length s))%nat) as Hloop.
    { intros r w s' Hs'. eapply answers_mono; [apply IHs; lia|]. simpl. lia. }
    destruct (_ && _); [simpl; lia|]. destruct (ch =? ch_quote).
    { pose proof (singleQuote_rest [] s). unfold processSingleQuote. simpl in *. destruct (singleQuote [] s). auto. }
    destruct (ch =? ch_dquote).
    { eapply answers_andThen; [apply IHq; lia|]. intros [tmp s'] ?. auto. }
    destruct (ch =? ch_dollar).
    { eapply answers_andThen; [apply IHd; lia|]. intros [tmp s'] ?. auto. }
    destruct (ch =? ch_backslash); [|auto]. destruct s as [|ch' s]; simpl; [lia|]. apply Hloop. simpl. lia.
  - intros result [|ch s] Hn; simpl in *; [done|].
    assert (∀ r s', (length s' ≤ length s)%nat → answers (dquote n r s') (λ x, length x.2 ≤ S (length s))%nat) as Hloop.
    { intros r s' Hs'. eapply answers_mono; [apply IHq; lia|]. simpl. lia. }
    destruct (ch =? ch_dquote); [simpl; lia|]. destruct (ch =? ch_dollar).
    { eapply answers_andThen; [apply IHd; lia|]. intros [tmp s'] ?. auto. }
    repeat case_match; apply Hloop; destruct s; simpl; lia.
  - intros c s Hn. simpl. destruct (Peek s =? ch_open).
    + pose proof (processNameFrom_rest [] (tl s)) as Hname. unfold processName.
      destruct (processNameFrom _ _ [] (tl s)) as [name s2]. simpl in Hname.
      assert (length s2 ≤ length s)%nat by (destruct s; simpl in *; lia).
      destruct (Peek s2 =? ch_close); [destruct s2; simpl in *; lia|].
      destruct (Peek s2 =? ch_colon) eqn:Ecolon; [|done].
      destruct s2 as [|c2 s2]; [done|]. simpl in *.
      assert (length (tl s2) ≤ length s2)%nat by (destruct s2; simpl; lia).
      eapply answers_andThen; [apply IHs; lia|]. intros [[wd ws] s4]. simpl. intros ?. repeat case_match; simpl; lia.
    + pose proof (processNameFrom_rest [] s) as Hname. unfold processName.
      destruct (processNameFrom _ _ [] s) as [name s2]. simpl in *. by case_match.
Qed.

(** More fuel does not change an answer. *)
Definition extends {A} (m m' : out A) : Prop := m = None ∨ m = m'.

Lemma extends_andThen {A B} (m m' : out A) (k k' : A → out B) :
  extends m m' → (∀ a, extends (k a) (k' a)) → extends (andThen m k) (andThen m' k').
Proof. unfold extends. intros [->| ->] Hk; [by left|]. destruct m' as [[]|]; simpl; auto. Qed.

Lemma parser_extends n m :
  (n ≤ m)%nat →
  (∀ stop result ws s, extends (stopOn n stop result ws s) (stopOn m stop result ws s)) ∧
  (∀ result s, extends (dquote n result s) (dquote m result s)) ∧
  (∀ s, extends (dollar n s) (dollar m s)).
Proof.
  revert m. induction n as [|n IH]; intros [|m] Hm; [by split_and!; left.. | lia |].
  destruct (IH m ltac:(lia)) as (IHs & IHq & IHd).
  assert (∀ A (o : out A), extends o o) as Hrefl by (by right).
  split_and!; simpl; intros; repeat (case_match; simplify_eq/=); auto using extends_andThen.
  all: try (apply extends_andThen; [auto|]; intros; repeat case_match; auto).
Qed.

Lemma processStopOn_fuel n m stop result ws s r r' :
  stopOn n stop result ws s = Some r → stopOn m stop result ws s = Some r' → r = r'.
Proof.
  intros E E'. destruct (Nat.le_ge_cases n m) as [H|H].
  - destruct (proj1 (parser_extends n m H) stop result ws s); congruence.
  - destruct (proj1 (parser_extends m n H) stop result ws s); congruence.
Qed.
End Termination.

(** ** Parsing follows the syntax *)

(** The run [E : m = Some r] is the one that is first in the goal. *)
Ltac use_run E :=
  match type of E with
  | ?m = _ => match goal with |- andThen ?m' _ = _ => change m' with m; rewrite E; cbn [andThen] end
  end.

Section Meets.
Context (Letter Digit : rune → bool) (sw_word : gostring) (envs : list gostring).

Abbreviation stopOn := (processStopOn Letter Digit sw_word envs).
Abbreviation dquote := (processDoubleQuote Letter Digit sw_word envs).
Abbreviation dollar := (processDollar Letter Digit sw_word envs).
Abbreviation named := (is_name Letter Digit).
Abbreviation nrune := (name_rune Letter Digit).

Lemma name_rune_stops c : negb (IsLetter Letter c) && negb (IsDigit Digit c) && negb (c =? ch_underscore) = negb (nrune c).
Proof. unfold name_rune. by rewrite !negb_orb. Qed.

Lemma processNameFrom_app name x rest :
  (name ≠ [] ∨ ∀ c, head x = Some c → IsDigit Digit c = false) →
  forallb nrune x = true → nrune (hd EOF rest) = false →
  (name ≠ [] ∨ x ≠ [] ∨ IsDigit Digit (hd EOF rest) = false) →
  processNameFrom Letter Digit name (x ++ rest) = (name ++ x, rest).
Proof.
  intros Hd Hx Hr Hne. revert name Hd Hne. induction x as [|c x IH]; intros name Hd Hne; simpl in *.
  - destruct rest as [|c rest]; simpl in *; [by rewrite app_nil_r|]. rewrite name_rune_stops, Hr, app_nil_r. simpl.
    assert (bool_decide (length name = 0%nat) && IsDigit Digit c = false) as ->; [|done].
    destruct Hne as [H|[H| ->]]; [|done|by rewrite andb_false_r]. by destruct name.
  - apply andb_prop in Hx as [Hc Hx]. rewrite name_rune_stops, Hc. simpl.
    assert (bool_decide (length name = 0%nat) && IsDigit Digit c = false) as ->.
    { destruct Hd as [H|H]; [by destruct name | by rewrite H, andb_false_r]. }
    rewrite IH, <- app_assoc; [done| | |]; auto; left; by destruct name.
Qed.

Lemma not_name_not_digit c : nrune c = false → IsDigit Digit c = false.
Proof. unfold name_rune. by intros [[_ ?]%orb_false_elim _]%orb_false_elim. Qed.

(** A name is read to its end. *)
Lemma processName_app name rest :
  named name = true →
  match name with c :: _ => IsDigit Digit c || negb (nrune (hd EOF rest)) | [] => negb (nrune (hd EOF rest)) end = true →
  processName Letter Digit (name ++ rest) = (name, rest).
Proof.
  intros Hn Hr. unfold processName.
  destruct name as [|c [|c' x]].
  - apply negb_true_iff in Hr. apply (processNameFrom_app [] []); auto using not_name_not_digit. by right.
  - destruct (IsDigit Digit c) eqn:Ed; [simpl; by rewrite Ed|]. apply negb_true_iff in Hr.
    apply (processNameFrom_app [] [c]); auto; [right; intros ? [= <-]; done | by simpl; rewrite andb_true_r].
  - unfold is_name in Hn. apply andb_prop in Hn as [Hd Hx]. apply negb_true_iff in Hd.
    rewrite Hd in Hr. apply negb_true_iff in Hr.
    apply (processNameFrom_app [] (c :: c' :: x)); auto. right. intros ? [= <-]. done.
Qed.

Lemma literal_spec stop c :
  literal stop c = true →
  (c =? stop) = false ∧ (c =? ch_quote) = false ∧ (c =? ch_dquote) = false ∧ (c =? ch_dollar) = false ∧
  (c =? ch_backslash) = false.
Proof. unfold literal. rewrite !andb_true_iff, !negb_true_iff. tauto. Qed.

Lemma singleQuote_app x result rest :
  forallb (λ c, negb (c =? ch_quote)) x = true → singleQuote result (x ++ ch_quote :: rest) = (result ++ x, rest).
Proof.
  revert result. induction x as [|c x IH]; intros result; simpl; [by rewrite app_nil_r|].
  intros [Hc%negb_true_iff Hx]%andb_prop. by rewrite Hc, IH, <- app_assoc.
Qed.

(** What a parser answers with enough fuel. *)
Definition yields {A} (m : nat → out A) (r : parse_error + A) : Prop := ∃ n, m n = Some r.

Definition monotone {A} (m : nat → out A) : Prop := ∀ n k, (n ≤ k)%nat → extends (m n) (m k).

Lemma monotone_parsers :
  (∀ stop result ws s, monotone (λ n, stopOn n stop result ws s)) ∧ (∀ result s, monotone (λ n, dquote n result s)) ∧
  (∀ s, monotone (λ n, dollar n s)).
Proof. split_and!; intros; intros n k H; by apply (parser_extends Letter Digit sw_word envs n k H). Qed.

Lemma yields_both {A B} (m : nat → out A) (m' : nat → out B) r r' :
  monotone m → monotone m' → yields m r → yields m' r' → ∃ k, m k = Some r ∧ m' k = Some r'.
Proof.
  intros H H' [n E] [n' E']. exists (n `max` n')%nat.
  destruct (H n (n `max` n')%nat ltac:(lia)), (H' n' (n `max` n')%nat ltac:(lia)); split; congruence.
Qed.

Definition stops (stop : rune) : Prop := stop = EOF ∨ stop = ch_close.

Lemma stops_false stop c : stops stop → c ≠ ch_close → negb (stop =? EOF) && (c =? stop) = false.
Proof. intros [-> | ->] Hc; simpl; [done | by apply Z.eqb_neq]. Qed.

Lemma stopOn_literal stop result ws c s r :
  stops stop → literal stop c = true →
  yields (λ n, stopOn n stop (result ++ [c]) (addChar c ws) s) r → yields (λ n, stopOn n stop result ws (c :: s)) r.
Proof.
  intros Hs Hc [n E]. exists (S n). apply literal_spec in Hc as (H1 & H2 & H3 & H4 & H5). simpl.
  by rewrite H1, H2, H3, H4, H5, andb_false_r.
Qed.

Lemma stopOn_escape stop result ws c s r :
  stops stop →
  yields (λ n, stopOn n stop (result ++ [c]) (addRawChar c ws) s) r →
  yields (λ n, stopOn n stop result ws (ch_backslash :: c :: s)) r.
Proof. intros Hs [n E]. exists (S n). cbn [processStopOn]. by rewrite stops_false. Qed.

Lemma stopOn_quote stop result ws x s r :
  stops stop → forallb (λ c, negb (c =? ch_quote)) x = true →
  yields (λ n, stopOn n stop (result ++ x) (addRawString x ws) s) r →
  yields (λ n, stopOn n stop result ws (ch_quote :: x ++ ch_quote :: s)) r.
Proof.
  intros Hs Hx [n E]. exists (S n). cbn [processStopOn]. rewrite stops_false by done. unfold processSingleQuote. simpl.
  by rewrite singleQuote_app.
Qed.

Lemma stopOn_dquote stop result ws x s s' r :
  stops stop → yields (λ n, dquote n [] s) (inr (x, s')) →
  yields (λ n, stopOn n stop (result ++ x) (addRawString x ws) s') r →
  yields (λ n, stopOn n stop result ws (ch_dquote :: s)) r.
Proof.
  intros Hs H1 H2. destruct (yields_both _ _ _ _ (proj1 (proj2 monotone_parsers) _ _) (proj1 monotone_parsers _ _ _ _) H1 H2)
    as (k & E1 & E2).
  cbv beta in E1, E2. exists (S k). cbn [processStopOn]. rewrite stops_false by done. simpl. by use_run E1.
Qed.

Lemma stopOn_dollar stop result ws s x s' r :
  stops stop → yields (λ n, dollar n (ch_dollar :: s)) (inr (x, s')) →
  yields (λ n, stopOn n stop (result ++ x) (addString x ws) s') r →
  yields (λ n, stopOn n stop result ws (ch_dollar :: s)) r.
Proof.
  intros Hs H1 H2. destruct (yields_both _ _ _ _ (proj2 (proj2 monotone_parsers) _) (proj1 monotone_parsers _ _ _ _) H1 H2)
    as (k & E1 & E2).
  cbv beta in E1, E2. exists (S k). cbn [processStopOn]. rewrite stops_false by done. simpl. by use_run E1.
Qed.

Lemma dquote_dollar result s x s' r :
  yields (λ n, dollar n (ch_dollar :: s)) (inr (x, s')) → yields (λ n, dquote n (result ++ x) s') r →
  yields (λ n, dquote n result (ch_dollar :: s)) r.
Proof.
  intros H1 H2.
  destruct (yields_both _ _ _ _ (proj2 (proj2 monotone_parsers) _) (proj1 (proj2 monotone_parsers) _ _) H1 H2)
    as (k & E1 & E2).
  cbv beta in E1, E2. exists (S k). cbn [processDoubleQuote]. simpl. by use_run E1.
Qed.


Lemma dollar_named name s :
  named name = true → name_ends Letter Digit name (hd EOF s) = true →
  yields (λ n, dollar n (ch_dollar :: name ++ s)) (inr (denote_subst envs (Named name), s)).
Proof.
  intros Hn He. exists 1%nat. cbn [processDollar tl].
  assert ((Peek (name ++ s) =? ch_open) = false) as ->.
  { unfold Peek. destruct name as [|c x]; simpl in *; [by apply andb_prop in He as [_ ->%negb_true_iff]|].
    apply Z.eqb_neq. intros ->. by destruct x; simpl in Hn; rewrite ?andb_false_r in Hn. }
  rewrite processName_app; [by destruct name | done |].
  destruct name; simpl in *; [by apply andb_prop in He as [-> _] | done].
Qed.

Lemma braced_name name c s :
  named name = true → nrune c = false → processName Letter Digit (name ++ c :: s) = (name, c :: s).
Proof. intros Hn Hc. apply processName_app; [done|]. simpl. rewrite Hc. destruct name; [done | by rewrite orb_true_r]. Qed.

Lemma dollar_braced name s :
  named name = true →
  yields (λ n, dollar n (ch_dollar :: ch_open :: name ++ ch_close :: s)) (inr (getEnv envs name, s)).
Proof. intros Hn. exists 1%nat. cbn [processDollar tl Peek hd]. by rewrite Z.eqb_refl, braced_name. Qed.

Lemma dollar_modifier name modifier s r :
  named name = true → yields (λ n, stopOn n ch_close [] no_words s) r →
  yields (λ n, dollar n (ch_dollar :: ch_open :: name ++ ch_colon :: modifier :: s))
    match r with
    | inl e => inl e
    | inr (wd, _, s') =>
        if modifier =? ch_plus then inr (if bool_decide (getEnv envs name = []) then getEnv envs name else wd, s')
        else if modifier =? ch_minus then inr (if bool_decide (getEnv envs name = []) then wd else getEnv envs name, s')
        else inl (UnsupportedModifier modifier sw_word)
    end.
Proof.
  intros Hn [k E]. exists (S k). cbn [processDollar tl Peek hd]. rewrite Z.eqb_refl, braced_name by done.
  cbn [Peek hd tl Next]. change (ch_colon =? ch_close) with false. change (ch_colon =? ch_colon) with true.
  cbv iota. use_run E. destruct r as [|[[wd ws] s']]; [done|].
  repeat case_match; try done; by destruct (bool_decide _).
Qed.

(** The text of a fragment is read as the fragment, whatever follows it. *)
Lemma parse_meets :
  (∀ f stop next result ws s r, stops stop → wf_frag Letter Digit stop next f = true → hd EOF s = next →
     yields (λ n, stopOn n stop (result ++ denote_frag envs f) (split_frag envs f ws) s) r →
     yields (λ n, stopOn n stop result ws (print_frag f ++ s)) r) ∧
  (∀ v next s, wf_subst Letter Digit next v = true → hd EOF s = next →
     yields (λ n, dollar n (print_subst v ++ s)) (inr (denote_subst envs v, s))) ∧
  (∀ fs stop next result ws s r, stops stop → wf Letter Digit stop next fs = true → hd EOF s = next →
     yields (λ n, stopOn n stop (result ++ denote envs fs) (split envs fs ws) s) r →
     yields (λ n, stopOn n stop result ws (print fs ++ s)) r) ∧
  (∀ d result s r, wf_dfrags Letter Digit d = true → hd EOF s = ch_dquote →
     yields (λ n, dquote n (result ++ denote_dfrags envs d) s) r →
     yields (λ n, dquote n result (print_dfrags d ++ s)) r).
Proof.
  apply word_mutind.
  - intros c stop next result ws s r Hs Hw _ Hk. by apply stopOn_literal.
  - intros c stop next result ws s r Hs Hw _ Hk. by apply stopOn_escape.
  - intros x stop next result ws s r Hs Hw _ Hk. simpl. rewrite <- app_assoc. by apply stopOn_quote.
  - intros d IH stop next result ws s r Hs Hw _ Hk. simpl. rewrite <- app_assoc.
    eapply stopOn_dquote; [done| |done]. apply IH; [done..|]. by exists 1%nat.
  - intros v IH stop next result ws s r Hs Hw Hnext Hk. simpl in *. specialize (IH _ _ Hw Hnext).
    destruct v; simpl in *; by eapply stopOn_dollar.
  - intros name next s [Hn He]%andb_prop <-. by apply dollar_named.
  - intros name next s Hn _. simpl. rewrite <- app_assoc. by apply dollar_braced.
  - intros name alternate w IH next s [Hn Hw]%andb_prop _. simpl. rewrite <- !app_assoc. simpl. rewrite <- app_assoc. simpl.
    assert (yields (λ n, stopOn n ch_close [] no_words (print w ++ ch_close :: s))
              (inr (denote envs w, getWords (split envs w no_words), s))) as H.
    { apply (IH ch_close ch_close); [by right | done | done |]. by exists 1%nat. }
    apply (dollar_modifier name (if alternate then ch_plus else ch_minus)) in H; [|done].
    destruct alternate; simpl in H; destruct (getEnv envs name); exact H.
  - intros stop next result ws s r Hs _ _. simpl. by rewrite app_nil_r.
  - intros f IHf fs IHfs stop next result ws s r Hs [Hf Hfs]%andb_prop Hnext Hk. simpl in *. rewrite <- app_assoc.
    eapply IHf; [done | done | by destruct (print fs); simpl |]. eapply IHfs; [done..|]. by rewrite <- app_assoc.
  - intros result s r _ _. simpl. by rewrite app_nil_r.
  - intros c d IH result s r Hw Hs Hk. simpl in *. 
    rewrite !andb_true_iff, !negb_true_iff in Hw. destruct Hw as [[[Hq Hd] Hw] Hb].
    rewrite cons_middle, app_assoc in Hk. apply IH in Hk as [n E]; [|done..]. exists (S n). cbn [processDoubleQuote].
    rewrite Hq, Hd. destruct (c =? ch_backslash); [|done]. simpl in Hb.
    assert (Peek (print_dfrags d ++ s) = next_of (print_dfrags d) ch_dquote) as -> by (by destruct (print_dfrags d)).
    apply orb_false_elim in Hb as [[-> Hb1]%orb_false_elim Hb2]. by rewrite Hb1, Hb2.
  - intros c d IH result s r [Hc Hw]%andb_prop Hs Hk. simpl in *.
    rewrite cons_middle, app_assoc in Hk. apply IH in Hk as [n E]; [|done..]. exists (S n).
    by apply orb_prop in Hc as [->%Z.eqb_eq | ->%Z.eqb_eq].
  - intros v IHv d IHd result s r [Hv Hw]%andb_prop Hs Hk. simpl in *. rewrite <- app_assoc.
    rewrite app_assoc in Hk. apply IHd in Hk; [|done..].
    assert (hd EOF (print_dfrags d ++ s) = next_of (print_dfrags d) ch_dquote) as Hn by (by destruct (print_dfrags d)).
    specialize (IHv _ _ Hv Hn). destruct v; simpl in *; by eapply dquote_dollar.
Qed.

(** ** Runs of the whole parser *)

Lemma Init_id w : head w ≠ Some 0xFEFF → Init w = w.
Proof. destruct w as [|c w]; simpl; [done|]. destruct (Z.eqb_spec c 0xFEFF); congruence. Qed.

Lemma length_Init w : (length (Init w) ≤ length w)%nat.
Proof. destruct w as [|c w]; simpl; [done|]. case_match; simpl; lia. Qed.
End Meets.

Lemma process_answers Letter Digit w env : ∃ r, process Letter Digit w env = Some r.
Proof.
  unfold process. destruct (parser_answers Letter Digit w env (S (length w))) as [H _].
  specialize (H EOF [] no_words (Init w)). pose proof (length_Init w).
  unfold answers in H. destruct (processStopOn _ _ _ _ _ _ _ _ _) as [[|[[]]]|]; simpl; [eauto.. |]. exfalso. apply H. lia.
Qed.

Definition outcome (r : parse_error + gostring * list gostring * scanner) : parse_error + gostring * list gostring :=
  match r with inl e => inl e | inr (result, ws, _) => inr (result, ws) end.

(** What the parser yields with some fuel is what it answers. *)
Lemma process_yields Letter Digit w env r :
  head w ≠ Some 0xFEFF → yields (λ n, processStopOn Letter Digit w env n EOF [] no_words w) r →
  process Letter Digit w env = Some (outcome r).
Proof.
  intros Hw [n E]. destruct (process_answers Letter Digit w env) as [r' E']. unfold process in *.
  rewrite Init_id in * by done. destruct (processStopOn _ _ _ _ (S _) _ _ _ _) as [r''|] eqn:E''; [|done].
  rewrite (processStopOn_fuel _ _ _ _ _ _ _ _ _ _ _ _ E E''). by destruct r'' as [|[[]]].
Qed.

(** ** Splitting at spaces

    [marks] says of every code point of the meaning whether it was quoted; words are
    what is between spaces that were not. *)

Section Marks.
Context (envs : list gostring).

Definition marks_frag (f : frag) : list (bool * rune) :=
  match f with
  | Lit c => [(false, c)]
  | Esc c => [(true, c)]
  | SQuote _ | DQuote _ => pair true <$> denote_frag envs f
  | Sub v => pair false <$> Init (denote_subst envs v)
  end.

Fixpoint marks (fs : frags) : list (bool * rune) :=
  match fs with
  | FNil => []
  | FCons f fs => marks_frag f ++ marks fs
  end.
End Marks.

#[local] Arguments IsSpace : simpl never.

Definition separator (m : bool * rune) : bool := negb m.1 && IsSpace m.2.

Fixpoint groups (l : list (bool * rune)) : list gostring :=
  match l with
  | [] => [[]]
  | m :: l =>
      if separator m then [] :: groups l
      else match groups l with g :: gs => (m.2 :: g) :: gs | [] => [[m.2]] end
  end.

Definition fields (l : list (bool * rune)) : list gostring := filter (λ g, g ≠ []) (groups l).

Lemma groups_cons l : ∃ g gs, groups l = g :: gs.
Proof. destruct l as [|m l]; simpl; [eauto|]. repeat case_match; eauto. Qed.

(** The first group starts with what is quoted in front. *)
Lemma groups_quoted x l : ∃ g gs, groups l = g :: gs ∧ groups ((pair true <$> x) ++ l) = (x ++ g) :: gs.
Proof.
  destruct (groups_cons l) as (g & gs & E). exists g, gs. split; [done|].
  induction x as [|c x IH]; [done|]. rewrite fmap_cons. cbn. by rewrite IH.
Qed.

Definition fields_from (w : wordsStruct) (l : list (bool * rune)) : list gostring :=
  words w ++ fields ((pair true <$> word w) ++ l).

Definition words_wf (w : wordsStruct) : Prop := inWord w = false → word w = [].

Lemma getWords_fields w : getWords w = fields_from w [].
Proof.
  unfold getWords, fields_from, fields. destruct (groups_quoted (word w) []) as (g & gs & [= <- <-] & ->). rewrite app_nil_r.
  destruct (word w); simpl; [by rewrite app_nil_r | done].
Qed.

Lemma addRawString_fields x w l : fields_from (addRawString x w) l = fields_from w ((pair true <$> x) ++ l).
Proof. unfold fields_from. simpl. by rewrite fmap_app, <- app_assoc. Qed.

Lemma addRawChar_fields c w l : fields_from (addRawChar c w) l = fields_from w ((true, c) :: l).
Proof. apply (addRawString_fields [c]). Qed.

Lemma addChar_fields c w l :
  words_wf w → fields_from (addChar c w) l = fields_from w ((false, c) :: l) ∧ words_wf (addChar c w).
Proof.
  intros Hw. unfold addChar. destruct (IsSpace c) eqn:Ec; simpl.
  - unfold fields_from, fields. destruct (groups_quoted (word w) ((false, c) :: l)) as (g & gs & E & ->).
    simpl in E. unfold separator in E. simpl in E. rewrite Ec in E. injection E as <- <-. rewrite app_nil_r.
    destruct (inWord w) eqn:Ei; simpl.
    + destruct (word w) as [|x ww] eqn:Eww; simpl; [split; [by rewrite Eww | unfold words_wf; congruence]|].
      split; [|done]. by rewrite <- app_assoc.
    + rewrite (Hw Ei). split; [done|]. unfold words_wf. rewrite Ei. auto.
  - split; [|done]. unfold fields_from, fields. simpl. rewrite fmap_app, <- app_assoc. simpl.
    destruct (groups_quoted (word w) ((false, c) :: l)) as (g & gs & E & ->).
    destruct (groups_quoted (word w) ((true, c) :: l)) as (g' & gs' & E' & ->).
    simpl in E, E'. unfold separator in E, E'. simpl in E, E'. rewrite Ec in E. congruence.
Qed.

Lemma addString_fields x w l :
  words_wf w → fields_from (addString x w) l = fields_from w ((pair false <$> Init x) ++ l) ∧ words_wf (addString x w).
Proof.
  unfold addString. generalize (Init x). clear x. intros x. revert w. induction x as [|c x IH]; intros w Hw; simpl; [done|].
  destruct (addChar_fields c w ((pair false <$> x) ++ l) Hw) as [E Hw']. destruct (IH _ Hw') as [E' ?].
  change (flip addChar w c) with (addChar c w). split; [|done]. rewrite E'. exact E.
Qed.

Lemma split_fields envs fs w l :
  words_wf w → fields_from (split envs fs w) l = fields_from w (marks envs fs ++ l).
Proof.
  revert w. induction fs as [|f fs IH]; intros w Hw; simpl; [done|]. rewrite <- app_assoc.
  assert (fields_from (split_frag envs f w) (marks envs fs ++ l) = fields_from w (marks_frag envs f ++ marks envs fs ++ l)
          ∧ words_wf (split_frag envs f w)) as [E Hw'].
  { destruct f; simpl; [by apply addChar_fields | by rewrite addRawChar_fields | by rewrite addRawString_fields.. | by apply addString_fields]. }
  by rewrite IH, E.
Qed.

(** ** Quoting *)

(** [w] between single quotes. *)
Definition quote (w : gostring) : gostring :=
  ch_quote :: (w ≫= λ c, if c =? ch_quote then [ch_quote; ch_backslash; ch_quote; ch_quote] else [c]) ++ [ch_quote].

Fixpoint join_spaces (ws : list gostring) : gostring :=
  match ws with
  | [] => []
  | [w] => w
  | w :: ws => w ++ 32 :: join_spaces ws
  end.

Fixpoint quote_frags (seg w : gostring) (rest : frags) : frags :=
  match w with
  | [] => FCons (SQuote seg) rest
  | c :: w =>
      if c =? ch_quote then FCons (SQuote seg) (FCons (Esc ch_quote) (quote_frags [] w rest))
      else quote_frags (seg ++ [c]) w rest
  end.

Fixpoint words_frags (ws : list gostring) : frags :=
  match ws with
  | [] => FNil
  | [w] => quote_frags [] w FNil
  | w :: ws => quote_frags [] w (FCons (Lit 32) (words_frags ws))
  end.

Lemma print_quote_frags seg w rest :
  print (quote_frags seg w rest)
  = ch_quote :: seg ++ (w ≫= λ c, if c =? ch_quote then [ch_quote; ch_backslash; ch_quote; ch_quote] else [c])
    ++ [ch_quote] ++ print rest.
Proof.
  revert seg. induction w as [|c w IH]; intros seg; simpl; [by rewrite <- app_assoc|].
  destruct (c =? ch_quote) eqn:E; simpl; [|by rewrite IH, <- app_assoc]. rewrite IH, <- !app_assoc. simpl.
  apply Z.eqb_eq in E. done.
Qed.

Lemma print_words_frags ws : print (words_frags ws) = join_spaces (quote <$> ws).
Proof.
  induction ws as [|w [|w' ws] IH]; [done| |].
  - simpl. rewrite print_quote_frags. done.
  - change (print (quote_frags [] w (FCons (Lit 32) (words_frags (w' :: ws)))) = quote w ++ 32 :: join_spaces (quote <$> (w' :: ws))).
    rewrite print_quote_frags, <- IH. unfold quote. simpl. f_equal. by rewrite <- app_assoc.
Qed.

Lemma wf_quote_frags Letter Digit stop next seg w rest :
  forallb (λ c, negb (c =? ch_quote)) seg = true → wf Letter Digit stop next rest = true →
  wf Letter Digit stop next (quote_frags seg w rest) = true.
Proof.
  revert seg. induction w as [|c w IH]; intros seg Hs Hr; simpl; [by rewrite Hs|].
  destruct (c =? ch_quote) eqn:E; simpl; [by rewrite Hs, IH|]. apply IH; [|done]. by rewrite forallb_app, Hs; simpl; rewrite E.
Qed.

Lemma wf_words_frags Letter Digit next ws : wf Letter Digit EOF next (words_frags ws) = true.
Proof. induction ws as [|w [|w' ws] IH]; [done|by apply wf_quote_frags|]. apply wf_quote_frags; [done|]. simpl. exact IH. Qed.

Lemma marks_quote_frags envs seg w rest :
  marks envs (quote_frags seg w rest) = (pair true <$> seg ++ w) ++ marks envs rest.
Proof.
  revert seg. induction w as [|c w IH]; intros seg; simpl; [by rewrite app_nil_r|].
  destruct (c =? ch_quote) eqn:E; simpl; [|by rewrite IH, <- app_assoc]. rewrite IH. apply Z.eqb_eq in E as ->.
  by rewrite !fmap_app, <- !app_assoc.
Qed.

Lemma denote_quote_frags envs seg w rest : denote envs (quote_frags seg w rest) = seg ++ w ++ denote envs rest.
Proof.
  revert seg. induction w as [|c w IH]; intros seg; simpl; [done|].
  destruct (c =? ch_quote) eqn:E; simpl; [|by rewrite IH, <- app_assoc]. rewrite IH. by apply Z.eqb_eq in E as ->.
Qed.

Lemma fields_words_frags envs ws : fields (marks envs (words_frags ws)) = filter (λ w, w ≠ []) ws.
Proof.
  unfold fields. induction ws as [|w [|w' ws] IH]; [done| |].
  - simpl. rewrite marks_quote_frags. destruct (groups_quoted w []) as (g & gs & [= <- <-] & E). simpl in *.
    by rewrite E, app_nil_r.
  - change (words_frags (w :: w' :: ws)) with (quote_frags [] w (FCons (Lit 32) (words_frags (w' :: ws)))).
    rewrite marks_quote_frags. remember (words_frags (w' :: ws)) as fs.
    destruct (groups_quoted w (marks envs (FCons (Lit 32) fs))) as (g & gs & E' & E). rewrite app_nil_l, E.
    simpl in E'. injection E' as <- <-. rewrite app_nil_r, !(filter_cons _ w). by rewrite <- IH.
Qed.

(** ** Errors *)

Lemma stopOn_dollar_error Letter Digit sw_word envs stop result ws s e :
  stops stop → yields (λ n, processDollar Letter Digit sw_word envs n (ch_dollar :: s)) (inl e) →
  yields (λ n, processStopOn Letter Digit sw_word envs n stop result ws (ch_dollar :: s)) (inl e).
Proof.
  intros Hs [k E]. exists (S k). cbn [processStopOn]. rewrite stops_false by done. simpl. by use_run E.
Qed.

Lemma dollar_missing_colon Letter Digit sw_word envs name s :
  is_name Letter Digit name = true → name_rune Letter Digit (hd EOF s) = false →
  hd EOF s ≠ ch_close → hd EOF s ≠ ch_colon →
  yields (λ n, processDollar Letter Digit sw_word envs n (ch_dollar :: ch_open :: name ++ s)) (inl (MissingColon sw_word)).
Proof.
  intros Hn Hs H1%Z.eqb_neq H2%Z.eqb_neq. exists 1%nat. cbn [processDollar tl Peek hd]. rewrite Z.eqb_refl, processName_app.
  - unfold Peek. by rewrite H1, H2.
  - done.
  - rewrite Hs. destruct name; [done | by rewrite orb_true_r].
Qed.

(** An error after a prefix that is well-formed is the error of the word. *)
Lemma ProcessWord_error Letter Digit fs s env e :
  let w := print fs ++ ch_dollar :: s in
  wf Letter Digit EOF ch_dollar fs = true → head w ≠ Some 0xFEFF →
  yields (λ n, processDollar Letter Digit w env n (ch_dollar :: s)) (inl e) →
  ProcessWord Letter Digit w env = Some (inl e) ∧ ProcessWords Letter Digit w env = Some (inl e).
Proof.
  intros w Hw Hbom He. unfold ProcessWord, ProcessWords. rewrite (process_yields _ _ _ _ (inl e)); [done | done |].
  eapply (proj1 (proj2 (proj2 (parse_meets Letter Digit w env)))); [by left | exact Hw | done |].
  apply stopOn_dollar_error; [by left | done].
Qed.

(** ** The environment *)

(** [name=value], or [name] alone, which binds it to the empty string. *)
Definition binds (env name value : gostring) : Prop :=
  ch_equals ∉ name ∧ (env = (name ++ ch_equals :: value) ∨ (env = name ∧ value = [])).

Lemma Index_absent s c : c ∉ s → Index s c = -1.
Proof.
  induction s as [|x s IH]; simpl; [done|]. intros [Hx Hs]%not_elem_of_cons. destruct (Z.eqb_spec x c); [congruence|].
  by rewrite (IH Hs).
Qed.

Lemma Index_first s c t : c ∉ s → Index (s ++ c :: t) c = Z.of_nat (length s).
Proof.
  induction s as [|x s IH]; simpl; [by rewrite Z.eqb_refl|]. intros [Hx Hs]%not_elem_of_cons.
  destruct (Z.eqb_spec x c); [congruence|]. rewrite (IH Hs). destruct (Z.ltb_spec (Z.of_nat (length s)) 0); lia.
Qed.

Lemma entry_split (env : gostring) : ch_equals ∉ env ∨ ∃ s t, env = s ++ ch_equals :: t ∧ ch_equals ∉ s.
Proof.
  destruct (decide (ch_equals ∈ env)) as [H|H]; [right | by left].
  destruct (list_elem_of_split_l _ _ H) as (s & t & -> & Hs). eauto.
Qed.

Lemma getEnv_binds env envs name value : binds env name value → getEnv (env :: envs) name = value.
Proof.
  intros [Hn [-> | [-> ->]]]; cbn [getEnv].
  - rewrite Index_first by done. destruct (Z.ltb_spec (Z.of_nat (length name)) 0); [lia|].
    rewrite Nat2Z.id, take_app_length, bool_decide_true by done. cbn.
    replace (Z.to_nat (Z.of_nat (length name) + 1)) with (S (length name)) by lia.
    rewrite cons_middle, app_assoc. apply drop_app_length'. rewrite length_app. simpl. lia.
  - rewrite Index_absent by done. by rewrite bool_decide_true.
Qed.

Lemma getEnv_skips env envs name : (∀ v, ¬ binds env name v) → getEnv (env :: envs) name = getEnv envs name.
Proof.
  intros H. cbn [getEnv]. destruct (entry_split env) as [He | (s & t & -> & Hs)].
  - rewrite Index_absent by done. simpl. rewrite bool_decide_false; [done|]. intros ->. apply (H []). split; auto.
  - rewrite Index_first by done. destruct (Z.ltb_spec (Z.of_nat (length s)) 0); [lia|].
    rewrite Nat2Z.id, take_app_length, bool_decide_false; [done|]. intros ->. apply (H t). split; auto.
Qed.

(** ** No empty words *)

Definition no_empty (w : wordsStruct) : Prop := [] ∉ words w.

Lemma getWords_no_empty w : no_empty w → [] ∉ getWords w.
Proof.
  unfold no_empty, getWords. intros H. case_bool_decide; [|done]. rewrite elem_of_app, list_elem_of_singleton.
  intros [?|E]; [done|]. rewrite <- E in *. simpl in *. lia.
Qed.

Lemma addChar_no_empty c w : no_empty w → no_empty (addChar c w).
Proof.
  unfold no_empty, addChar. intros H. repeat case_match; simpl; try done. rewrite elem_of_app, list_elem_of_singleton.
  intros [?|E]; [done|]. rewrite <- E in *. done.
Qed.

Lemma addString_no_empty s w : no_empty w → no_empty (addString s w).
Proof. unfold addString. generalize (Init s). intros l. revert w. induction l; simpl; auto using addChar_no_empty. Qed.

Lemma processStopOn_no_empty Letter Digit sw_word envs n stop result ws s r wl s' :
  no_empty ws → processStopOn Letter Digit sw_word envs n stop result ws s = Some (inr (r, wl, s')) → [] ∉ wl.
Proof.
  revert result ws s. induction n as [|n IH]; intros result ws s Hw; [done|]. cbn [processStopOn].
  assert (∀ r0 w0 s0, no_empty w0 → processStopOn Letter Digit sw_word envs n stop r0 w0 s0 = Some (inr (r, wl, s')) → [] ∉ wl)
    as Hloop by eauto.
  assert (∀ A (m : out (A * scanner)) k, andThen m k = Some (inr (r, wl, s')) → ∃ a, k a = Some (inr (r, wl, s'))) as Hthen
    by (intros A [[]|]; naive_solver).
  repeat case_match; intros E; simplify_eq; try by apply getWords_no_empty.
  all: try (apply Hthen in E as [[tmp s1] E]).
  all: eapply Hloop; [|exact E]; auto using addChar_no_empty, addString_no_empty.
Qed.

(** ** The text of a word *)

Lemma process_print Letter Digit fs env :
  wf Letter Digit EOF EOF fs = true → head (print fs) ≠ Some 0xFEFF →
  process Letter Digit (print fs) env = Some (inr (denote env fs, fields (marks env fs))).
Proof.
  intros Hw Hbom. rewrite (process_yields _ _ _ _ (inr (denote env fs, getWords (split env fs no_words), []))); [|done|].
  - simpl. rewrite getWords_fields, split_fields by done. unfold fields_from. simpl. by rewrite app_nil_r.
  - destruct (parse_meets Letter Digit (print fs) env) as (_ & _ & H & _).
    specialize (H fs EOF EOF [] no_words []). rewrite app_nil_r in H. eapply H; [by left | done | done |]. by exists 1%nat.
Qed.

(** * Theorems *)

(** C13: the text of a well-formed word is processed to its meaning, however
    quotes, escapes and substitutions are nested; [ProcessWords] splits it exactly at
    the spaces that were neither quoted nor escaped, and drops empty words. *)
Theorem ProcessWords_denotes Letter Digit fs env :
  wf Letter Digit EOF EOF fs = true → head (print fs) ≠ Some 0xFEFF →
  ProcessWord Letter Digit (print fs) env = Some (inr (denote env fs)) ∧
  ProcessWords Letter Digit (print fs) env = Some (inr (fields (marks env fs))).
Proof.
  intros Hw Hbom. unfold ProcessWord, ProcessWords. by rewrite process_print.
Qed.

(** C32: a word that is quoted is given back by [ProcessWord], whatever it contains; of words that are quoted and separated by spaces
    [ProcessWords] gives back those that are not empty. *)
Theorem ProcessWords_quote Letter Digit env :
  (∀ w, ProcessWord Letter Digit (quote w) env = Some (inr w)) ∧
  ∀ ws, ProcessWords Letter Digit (join_spaces (quote <$> ws)) env = Some (inr (filter (λ w, w ≠ []) ws)).
Proof.
  assert (∀ ws, process Letter Digit (join_spaces (quote <$> ws)) env =
    Some (inr (denote env (words_frags ws), filter (λ w, w ≠ []) ws))) as H.
  { intros ws. rewrite <- print_words_frags, process_print; [by rewrite fields_words_frags|apply wf_words_frags|].
    rewrite print_words_frags. by destruct ws as [|w [|w' ws]]. }
  unfold ProcessWord, ProcessWords. split; [intros w|intros ws; by rewrite H].
  specialize (H [w]). simpl in H. rewrite denote_quote_frags in H. by rewrite H, app_nil_r.
Qed.

(** the parser ends on every input, whatever the nesting, and both functions
    fail for the same words with the same error. *)
Theorem ProcessWords_total Letter Digit w env :
  ProcessWord Letter Digit w env ≠ None ∧ ProcessWords Letter Digit w env ≠ None ∧
  ∀ e, ProcessWord Letter Digit w env = Some (inl e) ↔ ProcessWords Letter Digit w env = Some (inl e).
Proof.
  unfold ProcessWord, ProcessWords. destruct (process_answers Letter Digit w env) as [[e|[r ws]] ->]; simpl; naive_solver.
Qed.

(** after a well-formed prefix, a [${name] that is followed by neither a
    closing brace nor a colon is an error, and so is a modifier other than [+] and [-]. *)
Theorem ProcessWord_rejects Letter Digit fs name rest env :
  wf Letter Digit EOF ch_dollar fs = true → head (print fs) ≠ Some 0xFEFF → is_name Letter Digit name = true →
  (let w := print fs ++ ch_dollar :: ch_open :: name ++ rest in
   name_rune Letter Digit (hd EOF rest) = false → hd EOF rest ≠ ch_close → hd EOF rest ≠ ch_colon →
   ProcessWord Letter Digit w env = Some (inl (MissingColon w)) ∧
   ProcessWords Letter Digit w env = Some (inl (MissingColon w))) ∧
  (∀ modifier inner,
   let w := print fs ++ ch_dollar :: ch_open :: name ++ ch_colon :: modifier :: print inner ++ ch_close :: rest in
   wf Letter Digit ch_close ch_close inner = true → modifier ≠ ch_plus → modifier ≠ ch_minus →
   ProcessWord Letter Digit w env = Some (inl (UnsupportedModifier modifier w)) ∧
   ProcessWords Letter Digit w env = Some (inl (UnsupportedModifier modifier w))).
Proof.
  intros Hw Hbom Hn.
  assert (∀ s, head (print fs ++ ch_dollar :: s) ≠ Some 0xFEFF) as Hbom' by (intros s; by destruct (print fs)).
  split.
  - intros w H1 H2 H3. apply ProcessWord_error; auto. by apply dollar_missing_colon.
  - intros modifier inner w Hi H1%Z.eqb_neq H2%Z.eqb_neq. apply ProcessWord_error; auto.
    assert (yields (λ n, processStopOn Letter Digit w env n ch_close [] no_words (print inner ++ ch_close :: rest))
              (inr (denote env inner, getWords (split env inner no_words), rest))) as Hin.
    { eapply (proj1 (proj2 (proj2 (parse_meets Letter Digit w env)))); [by right | exact Hi | done |]. by exists 1%nat. }
    apply (dollar_modifier Letter Digit w env name modifier) in Hin; [|done]. by rewrite H1, H2 in Hin.
Qed.

(** a name stands for the value of the first entry of the environment that
    binds it, and for the empty string when none does. *)
Theorem getEnv_first envs name :
  (∀ pre env post value, envs = pre ++ env :: post → binds env name value →
     (∀ e v, e ∈ pre → ¬ binds e name v) → getEnv envs name = value) ∧
  ((∀ e v, e ∈ envs → ¬ binds e name v) → getEnv envs name = []).
Proof.
  split.
  - intros pre env post value -> Hb. induction pre as [|e pre IH]; intros Hpre; [by apply getEnv_binds|].
    rewrite <- app_comm_cons, getEnv_skips by (intros v; apply Hpre; left). apply IH. intros e' v ?. apply Hpre. by right.
  - induction envs as [|e envs IH]; intros H; [done|]. rewrite getEnv_skips by (intros v; apply H; left).
    apply IH. intros e' v ?. apply H. by right.
Qed.

(** [ProcessWords] never returns an empty word, not even for a pair of quotes. *)
Theorem ProcessWords_no_empty Letter Digit w env ws :
  ProcessWords Letter Digit w env = Some (inr ws) → [] ∉ ws.
Proof.
  unfold ProcessWords, process. destruct (processStopOn _ _ _ _ _ _ _ _ _) as [[|[[r wl] s]]|] eqn:E; [done| |done].
  simpl. intros [= ->]. eapply processStopOn_no_empty; [|exact E]. apply not_elem_of_nil.
Qed.

(** * Concrete runs *)

(** A backtick stands for a double quote. *)
Definition text (s : string) : gostring := (λ c, if c =? 96 then ch_dquote else c) <$> runes s.

Definition no_table (c : rune) : bool := false.

Definition run_word (env : list string) (s : string) : gostring :=
  match ProcessWord no_table no_table (text s) (text <$> env) with
  | Some (inr r) => r
  | _ => text "error"
  end.

Definition run_words (env : list string) (s : string) : list gostring :=
  match ProcessWords no_table no_table (text s) (text <$> env) with
  | Some (inr r) => r
  | _ => [text "error"]
  end.

(** The lines of [executor/dockershellparser/envVarTest] that are ASCII. *)
Example envVarTest : Forall (λ t, run_word ["PWD=/home"%string; "SHELL=bash"%string] t.1 = text t.2) [
  ("hello", "hello");
  ("he'll'o", "hello");
  ("he'llo", "hello");
  ("he\'llo", "he'llo");
  ("he\\'llo", "he\llo");
  ("abc\tdef", "abctdef");
  ("`abc\tdef`", "abc\tdef");
  ("'abc\tdef'", "abc\tdef");
  ("hello\", "hello");
  ("hello\\", "hello\");
  ("`hello", "hello");
  ("`hello\`", "hello`");
  ("`hel'lo`", "hel'lo");
  ("'hello", "hello");
  ("'hello\'", "hello\");
  ("`''`", "''");
  ("$.", "$.");
  ("$1", "");
  ("he$1x", "hex");
  ("he$.x", "he$.x");
  ("he$pwd.", "he.");
  ("he$PWD", "he/home");
  ("he\$PWD", "he$PWD");
  ("he\\$PWD", "he\/home");
  ("he\${}", "he${}");
  ("he\${}xx", "he${}xx");
  ("he${}", "he");
  ("he${}xx", "hexx");
  ("he${hi}", "he");
  ("he${hi}xx", "hexx");
  ("he${PWD}", "he/home");
  ("he${.}", "error");
  ("he${XXX:-000}xx", "he000xx");
  ("he${PWD:-000}xx", "he/homexx");
  ("he${XXX:-$PWD}xx", "he/homexx");
  ("he${XXX:-${PWD:-yyy}}xx", "he/homexx");
  ("he${XXX:-${YYY:-yyy}}xx", "heyyyxx");
  ("he${XXX:YYY}", "error");
  ("he${XXX:+${PWD}}xx", "hexx");
  ("he${PWD:+${XXX}}xx", "hexx");
  ("he${PWD:+${SHELL}}xx", "hebashxx");
  ("he${XXX:+000}xx", "hexx");
  ("he${PWD:+000}xx", "he000xx");
  ("'he${XX}'", "he${XX}");
  ("`he${PWD}`", "he/home");
  ("`he'$PWD'`", "he'/home'");
  ("`$PWD`", "/home");
  ("'$PWD'", "$PWD");
  ("'\$PWD'", "\$PWD");
  ("'`hello`'", "`hello`");
  ("he\$PWD", "he$PWD");
  ("`he\$PWD`", "he$PWD");
  ("'he\$PWD'", "he\$PWD");
  ("he${PWD", "error");
  ("he${PWD:=000}xx", "error");
  ("he${PWD:+${PWD}:}xx", "he/home:xx");
  ("he${XXX:-\$PWD:}xx", "he$PWD:xx");
  ("he${XXX:-\${PWD}z}xx", "he${PWDz}xx")
]%string.
Proof. repeat constructor. Qed.

(** The lines of [executor/dockershellparser/wordsTest], each with the variables
    defined before it. *)
Example wordsTest : Forall (λ t : list string * string * list string, run_words t.1.1 t.1.2 = text <$> t.2) [
  ([], "hello", ["hello"]);
  ([], "hello${hi}bye", ["hellobye"]);
  (["hi=hi"], "hello${hi}bye", ["hellohibye"]);
  (["hi=hi"; "space=abc  def"], "hello${space}bye", ["helloabc"; "defbye"]);
  (["hi=hi"; "space=abc  def"], "hello`${space}`bye", ["helloabc  defbye"]);
  (["hi=hi"; "space=abc  def"], "hello `${space}`bye", ["hello"; "abc  defbye"]);
  (["hi=hi"; "space=abc  def"; "leading=  ab c"], "hello${leading}def", ["hello"; "ab"; "cdef"]);
  (["hi=hi"; "space=abc  def"; "leading=  ab c"], "hello`${leading}` def", ["hello  ab c"; "def"]);
  (["hi=hi"; "space=abc  def"; "leading=  ab c"], "hello`${leading}`", ["hello  ab c"]);
  (["hi=hi"; "space=abc  def"; "leading=  ab c"], "hello${leading}", ["hello"; "ab"; "c"]);
  (["hi=hi"; "space=abc  def"; "leading=  ab c"; "trailing=ab c   "], "hello${trailing}", ["helloab"; "c"]);
  (["hi=hi"; "space=abc  def"; "leading=  ab c"; "trailing=ab c   "], "hello${trailing}d", ["helloab"; "c"; "d"]);
  (["hi=hi"; "space=abc  def"; "leading=  ab c"; "trailing=ab c   "], "hello`${trailing}`d", ["helloab c   d"]);
  (["hi=hi"; "space=abc  def"; "leading=  ab c"; "trailing=ab c   "], "hel`lo${trailing}`", ["helloab c   "]);
  (["hi=hi"; "space=abc  def"; "leading=  ab c"; "trailing=ab c   "], "hello` there  `", ["hello there  "]);
  (["hi=hi"; "space=abc  def"; "leading=  ab c"; "trailing=ab c   "], "hello there", ["hello"; "there"]);
  (["hi=hi"; "space=abc  def"; "leading=  ab c"; "trailing=ab c   "], "hello\ there", ["hello there"]);
  (["hi=hi"; "space=abc  def"; "leading=  ab c"; "trailing=ab c   "], "hello` there", ["hello there"]);
  (["hi=hi"; "space=abc  def"; "leading=  ab c"; "trailing=ab c   "], "hello\` there", ["hello`"; "there"]);
  (["hi=hi"; "space=abc  def"; "leading=  ab c"; "trailing=ab c   "], "`a \`b\`` c", ["a `b`"; "c"])
]%string.
Proof. repeat constructor. Qed.

(** A space, a quoted part with a substitution, and a default value. *)
Definition sample_word : frags :=
  FCons (Lit 97) (FCons (Lit 32) (FCons (DQuote (DLit 32 (DSub (Braced (text "x")) DNil)))
    (FCons (Sub (Modified (text "y") false (FCons (Esc 32) (FCons (Sub (Named (text "x"))) FNil)))) FNil))).

Lemma ProcessWords_denotes_witness :
  wf no_table no_table EOF EOF sample_word = true ∧
  ProcessWords no_table no_table (print sample_word) [text "x=1 2"] = Some (inr [text "a"; text " 1 2"; text "1"; text "2"]).
Proof.
  split; [reflexivity|].
  refine (eq_trans (proj2 (ProcessWords_denotes no_table no_table sample_word [text "x=1 2"] _ _)) _); reflexivity || done.
Defined.

Lemma ProcessWords_quote_witness :
  ProcessWords no_table no_table (join_spaces (quote <$> [text "it's"; text " $x "; text "`"])) []
  = Some (inr [text "it's"; text " $x "; text "`"]).
Proof. exact (proj2 (ProcessWords_quote no_table no_table []) [text "it's"; text " $x "; text "`"]). Defined.

Lemma ProcessWord_rejects_witness :
  ProcessWord no_table no_table (text "a${x-y}") [] = Some (inl (MissingColon (text "a${x-y}"))) ∧
  ProcessWord no_table no_table (text "a${x:=b}c") [] = Some (inl (UnsupportedModifier 61 (text "a${x:=b}c"))).
Proof.
  split.
  - refine (proj1 (proj1 (ProcessWord_rejects no_table no_table (FCons (Lit 97) FNil) (text "x") (text "-y}") [] _ _ _) _ _ _));
      reflexivity || done.
  - refine (proj1 (proj2 (ProcessWord_rejects no_table no_table (FCons (Lit 97) FNil) (text "x") (text "c") [] _ _ _)
      61 (FCons (Lit 98) FNil) _ _ _)); reflexivity || done.
Defined.

Lemma getEnv_first_witness : getEnv [text "car=hat"; text "car=bike"] (text "car") = text "hat".
Proof.
  refine (proj1 (getEnv_first [text "car=hat"; text "car=bike"] (text "car")) [] (text "car=hat") [text "car=bike"] _ eq_refl _ _).
  - split; [by apply (bool_decide_unpack _); vm_compute | by left].
  - intros e v H. inversion H.
Defined.

Lemma ProcessWords_no_empty_witness : ProcessWords no_table no_table (text "a '' b") [] = Some (inr [text "a"; text "b"]) ∧ [] ∉ [text "a"; text "b"].
Proof. split; [reflexivity|]. apply (ProcessWords_no_empty no_table no_table (text "a '' b") []). reflexivity. Defined.
