(* ===== verification/GoTime.v ===== *)
(** * GoTime: times and their names

    What [filesystems/watcher.go] uses of Go's package [time]: a time in UTC by its
    fields, [Format] and [Parse] with the layout [02012006_150405.999]
    ([backupFileTimeFormat]) and the difference of two times.  [Format] cuts the
    fraction of the second to milliseconds and drops its trailing zeros; [Parse]
    accepts an hour of one digit and a fraction of up to nine digits, and checks
    the day against the month.  [UTC] gives the fields of a time, which [metadataserver/iam.go] prints. *)
From S2P Require Import Prelude.

Open Scope string_scope.
Open Scope Z_scope.

Record utc := Utc { t_year : Z; t_month : Z; t_day : Z; t_hour : Z; t_minute : Z; t_second : Z; t_nsec : Z }.

(** ** The calendar *)

Definition is_leap (y : Z) : bool := (y mod 4 =? 0) && (negb (y mod 100 =? 0) || (y mod 400 =? 0)).

Definition daysIn (m y : Z) : Z :=
  if m =? 2 then (if is_leap y then 29 else 28)
  else if (m =? 4) || (m =? 6) || (m =? 9) || (m =? 11) then 30 else 31.

(** Days since 1970-01-01; years begin in March. *)
Definition days (t : utc) : Z :=
  let y := if t_month t <=? 2 then t_year t - 1 else t_year t in
  let doy := (153 * ((t_month t + 9) mod 12) + 2) / 5 + t_day t - 1 in
  365 * y + y / 4 - y / 100 + y / 400 + doy - 719468.

(** Nanoseconds since then. *)
Definition moment (t : utc) : Z :=
  (((days t * 24 + t_hour t) * 60 + t_minute t) * 60 + t_second t) * 1000000000 + t_nsec t.

(** [t.Sub(u)] *)
Definition Sub (t u : utc) : Z := moment t - moment u.

(** [UTC]: the fields of a time in nanoseconds since 1970-01-01.  An era has 400 years, which begin in March. *)
Definition UTC (t : Z) : utc :=
  let z := t / 86400000000000 + 719468 in
  let doe := z mod 146097 in
  let yoe := (doe - doe / 1460 + doe / 36524 - doe / 146096) / 365 in
  let doy := doe - (365 * yoe + yoe / 4 - yoe / 100) in
  let mp := (5 * doy + 2) / 153 in
  let month := if mp <? 10 then mp + 3 else mp - 9 in
  let year := yoe + 400 * (z / 146097) in
  let s := t mod 86400000000000 / 1000000000 in
  Utc (if month <=? 2 then year + 1 else year) month (doy - (153 * mp + 2) / 5 + 1)
      (s / 3600) (s / 60 mod 60) (s mod 60) (t mod 1000000000).

Definition valid (t : utc) : Prop :=
  0 <= t_year t < 10000 ∧ 1 <= t_month t <= 12 ∧ 1 <= t_day t <= daysIn (t_month t) (t_year t) ∧
  0 <= t_hour t < 24 ∧ 0 <= t_minute t < 60 ∧ 0 <= t_second t < 60 ∧ 0 <= t_nsec t < 1000000000.

(** ** Format *)

Definition digit_char (d : Z) : ascii := ascii_of_N (Z.to_N (48 + d)).

Definition pad2 (n : Z) (s : string) : string := String (digit_char (n / 10)) (String (digit_char (n mod 10)) s).
Definition pad4 (n : Z) (s : string) : string := pad2 (n / 100) (pad2 (n mod 100) s).

(** A year has four digits or more. *)
Definition long_year (y : Z) (s : string) : string :=
  if (0 <=? y) && (y <? 10000) then pad4 y s
  else if y <? 0 then String "-" (if - y <? 10000 then pad4 (- y) s else Itoa (- y) +:+ s)
  else Itoa y +:+ s.

Definition millis (ms : Z) : string :=
  if ms =? 0 then ""
  else if ms mod 100 =? 0 then String "." (String (digit_char (ms / 100)) "")
  else if ms mod 10 =? 0 then String "." (pad2 (ms / 10) "")
  else String "." (String (digit_char (ms / 100)) (pad2 (ms mod 100) "")).

Definition Format (t : utc) : string :=
  pad2 (t_day t) (pad2 (t_month t) (long_year (t_year t) (String "_"
    (pad2 (t_hour t) (pad2 (t_minute t) (pad2 (t_second t) (millis (t_nsec t / 1000000)))))))).

(** ** Parse *)

Definition digit_of (c : ascii) : option Z := Z.of_N <$> digit c.

(** [getnum]: two digits, or one when [fixed] is false. *)
Definition getnum (fixed : bool) (s : string) : option (Z * string) :=
  match s with
  | String a s1 =>
      x ← digit_of a;
      match s1 with
      | String b s2 =>
          match digit_of b with
          | Some y => Some (10 * x + y, s2)
          | None => if fixed then None else Some (x, s1)
          end
      | EmptyString => if fixed then None else Some (x, s1)
      end
  | EmptyString => None
  end.

Definition getyear (s : string) : option (Z * string) :=
  x ← getnum true s;
  y ← getnum true x.2;
  Some (100 * x.1 + y.1, y.2).

Definition skip (c : ascii) (s : string) : option string :=
  match s with
  | String a s' => if ascii_dec a c then Some s' else None
  | EmptyString => None
  end.

(** At most [n] digits, as multiples of [unit]. *)
Fixpoint fraction (n : nat) (unit acc : Z) (s : string) : Z * string :=
  match n, s with
  | S n', String c s' =>
      match digit_of c with
      | Some d => fraction n' (unit / 10) (acc + d * unit) s'
      | None => (acc, s)
      end
  | _, _ => (acc, s)
  end.

(** The fraction may be omitted. *)
Definition getfraction (s : string) : Z * string :=
  match s with
  | String a (String b _ as s') =>
      if ascii_dec a "." then match digit_of b with Some _ => fraction 9 100000000 0 s' | None => (0, s) end else (0, s)
  | _ => (0, s)
  end.

Definition within (lo hi n : Z) : option unit := if (lo <=? n) && (n <=? hi) then Some tt else None.

Definition Parse (s : string) : option utc :=
  d ← getnum true s;
  m ← getnum true d.2;
  _ ← within 1 12 m.1;
  y ← getyear m.2;
  s ← skip "_" y.2;
  h ← getnum false s;
  _ ← within 0 23 h.1;
  mi ← getnum true h.2;
  _ ← within 0 59 mi.1;
  se ← getnum true mi.2;
  _ ← within 0 59 se.1;
  let f := getfraction se.2 in
  if bool_decide (f.2 = "") then
    _ ← within 1 (daysIn m.1 y.1) d.1;
    Some (Utc y.1 m.1 d.1 h.1 mi.1 se.1 f.1)
  else None.

(** ** Round trip *)

#[local] Arguments getnum : simpl never.
#[local] Arguments getyear : simpl never.
#[local] Arguments getfraction : simpl never.
#[local] Arguments pad2 : simpl never.
#[local] Arguments pad4 : simpl never.

Lemma digit_of_char d : 0 <= d < 10 → digit_of (digit_char d) = Some d.
Proof.
  intros H. assert (d ∈ [0;1;2;3;4;5;6;7;8;9]) as Hin by (rewrite !elem_of_cons; lia).
  repeat (apply elem_of_cons in Hin as [->|Hin]; [reflexivity|]). inversion Hin.
Qed.

Lemma getnum_pad2 fixed n s : 0 <= n < 100 → getnum fixed (pad2 n s) = Some (n, s).
Proof.
  intros H. unfold getnum, pad2. rewrite (digit_of_char (n / 10)) by (split; [apply Z.div_pos | apply Z.div_lt_upper_bound]; lia).
  simpl. rewrite digit_of_char by (apply Z.mod_pos_bound; lia). do 2 f_equal. symmetry. apply Z.div_mod. lia.
Qed.

Lemma getyear_pad4 n s : 0 <= n < 10000 → getyear (pad4 n s) = Some (n, s).
Proof.
  intros H. unfold getyear, pad4. rewrite getnum_pad2 by (split; [apply Z.div_pos | apply Z.div_lt_upper_bound]; lia).
  simpl. rewrite getnum_pad2 by (apply Z.mod_pos_bound; lia). simpl. do 2 f_equal. symmetry. apply Z.div_mod. lia.
Qed.

Lemma long_year_four y s : 0 <= y < 10000 → long_year y s = pad4 y s.
Proof. intros Hy. unfold long_year. by replace ((0 <=? y) && (y <? 10000)) with true by lia. Qed.

Lemma within_true lo hi n : lo <= n <= hi → within lo hi n = Some tt.
Proof. intros H. unfold within. by rewrite (proj2 (Z.leb_le lo n)), (proj2 (Z.leb_le n hi)) by lia. Qed.

Lemma getfraction_millis ms : 0 <= ms < 1000 → getfraction (millis ms) = (ms * 1000000, "").
Proof.
  intros H. assert (Forall (λ ms, getfraction (millis ms) = (ms * 1000000, "")) (seqZ 0 1000)) as Hall.
  { apply (bool_decide_unpack _). vm_compute. exact I. }
  rewrite Forall_forall in Hall. apply Hall, elem_of_seqZ. lia.
Qed.

Definition Truncate (t : utc) : utc :=
  Utc (t_year t) (t_month t) (t_day t) (t_hour t) (t_minute t) (t_second t) (t_nsec t / 1000000 * 1000000).

Lemma Parse_Format t : valid t → Parse (Format t) = Some (Truncate t).
Proof.
  intros (Hy & Hm & Hd & Hh & Hmi & Hs & Hn).
  assert (t_day t <= 31) by (unfold daysIn in Hd; repeat case_match; lia).
  assert (0 <= t_nsec t / 1000000 < 1000) by (split; [apply Z.div_pos | apply Z.div_lt_upper_bound]; lia).
  unfold Parse, Format. rewrite long_year_four by lia. rewrite getnum_pad2 by lia. simpl. rewrite getnum_pad2 by lia. simpl.
  rewrite within_true by lia. simpl. rewrite getyear_pad4 by lia. simpl. rewrite getnum_pad2 by lia. simpl.
  rewrite within_true by lia. simpl. rewrite getnum_pad2 by lia. simpl. rewrite within_true by lia. simpl.
  rewrite getnum_pad2 by lia. simpl. rewrite within_true by lia. simpl. rewrite getfraction_millis by lia. simpl.
  rewrite within_true by lia. done.
Qed.

(** 19 January 2038, 03:14:07 *)
Example moment_2038 : moment (Utc 2038 1 19 3 14 7 0) = (2 ^ 31 - 1) * 1000000000.
Proof. reflexivity. Qed.

Example Format_run : Format (Utc 2020 3 7 15 4 5 70000000) = "07032020_150405.07".
Proof. reflexivity. Qed.

(** ** The fields of a time *)

Lemma UTC_days z :
  let doe := z mod 146097 in
  let yoe := (doe - doe / 1460 + doe / 36524 - doe / 146096) / 365 in
  let doy := doe - (365 * yoe + yoe / 4 - yoe / 100) in
  0 <= yoe < 400 ∧ 0 <= doy < 366.
Proof.
  cbv zeta. pose proof (Z.mod_pos_bound z 146097). set (doe := z mod 146097) in *. clearbody doe.
  split; Z.to_euclidean_division_equations; lia.
Qed.

(** The fields are those of the time. *)
Lemma moment_UTC t : moment (UTC t) = t.
Proof.
  unfold UTC, moment, days. cbv zeta. cbn [t_year t_month t_day t_hour t_minute t_second t_nsec].
  set (z := t / 86400000000000 + 719468).
  destruct (UTC_days z) as [Hy Hd]. cbv zeta in Hy, Hd.
  set (yoe := (_ `div` 365)) in *. clearbody yoe.
  set (doy := z mod 146097 - _) in *.
  set (mp := (5 * doy + 2) / 153) in *.
  assert (0 <= mp <= 11) by (subst mp; Z.to_euclidean_division_equations; lia).
  assert (Hm : ((if mp <? 10 then mp + 3 else mp - 9) + 9) mod 12 = mp)
    by (destruct (mp <? 10) eqn:E; Z.to_euclidean_division_equations; lia).
  rewrite Hm. 
  assert (Hyear : (if (if mp <? 10 then mp + 3 else mp - 9) <=? 2
   then (if (if mp <? 10 then mp + 3 else mp - 9) <=? 2 then yoe + 400 * (z / 146097) + 1 else yoe + 400 * (z / 146097)) - 1
   else if (if mp <? 10 then mp + 3 else mp - 9) <=? 2 then yoe + 400 * (z / 146097) + 1 else yoe + 400 * (z / 146097))
    = yoe + 400 * (z / 146097)) by (destruct (_ <=? 2); lia).
  rewrite Hyear. 
  assert (doy = z mod 146097 - (365 * yoe + yoe / 4 - yoe / 100)) by done. clearbody doy. clear Hyear Hm.
  set (era := z / 146097) in *. assert (Hz : z = 146097 * era + z mod 146097) by (apply Z.div_mod; lia). clearbody era.
  assert ((yoe + 400 * era) / 4 = yoe / 4 + 100 * era) as -> by (Z.to_euclidean_division_equations; lia).
  assert ((yoe + 400 * era) / 100 = yoe / 100 + 4 * era) as -> by (Z.to_euclidean_division_equations; lia).
  assert ((yoe + 400 * era) / 400 = era) as -> by (Z.to_euclidean_division_equations; lia).
  assert (365 * (yoe + 400 * era) + (yoe / 4 + 100 * era) - (yoe / 100 + 4 * era) + era +
    ((153 * mp + 2) / 5 + (doy - (153 * mp + 2) / 5 + 1) - 1) - 719468 = t / 86400000000000) as ->.
  { subst z. lia. }
  clear. Z.to_euclidean_division_equations; lia.
Qed.
