(* ===== verification/LogWatcher.v ===== *)
(** * LogWatcher: rotating and uploading the logs of a task

    Models [filesystems/watcher.go], with what it uses of [filesystems/xattr] and
    [uploader].  Two loops upload logs while a task runs, and a last round of each
    runs when it has ended:
    - [stdioRotate] is for the files [stdout] and [stderr], which are never renamed: an
      extended attribute names a part of the file as a virtual file, another one
      says where the part begins that is still written.  A virtual file is uploaded,
      its attribute removed, and the file made a hole up to its end;
    - [traditionalRotate] uploads the files of a directory whose name matches.

    The task appends to the file while the watcher reads it: [f_appends] is what it
    appends before each of the next system calls, [f_faults] says which of those fail,
    [f_now] and [f_clock] are the readings of the clock.  [f_written] is all that was
    ever appended. *)
From S2P Require Import Prelude GoTime.

Open Scope string_scope.
Open Scope Z_scope.
Open Scope list_scope.

(** ** The file and its system calls *)

Record stdio := Stdio {
  f_data : list ascii;
  f_xattrs : gmap string string;
  f_uploads : list (string * list ascii);
  f_appends : list (list ascii);
  f_faults : list bool;
  f_now : utc;
  f_clock : list utc;
  f_written : list ascii
}.

Definition L (A : Type) : Type := stdio → option A * stdio.

#[export] Instance L_ret : MRet L := λ A a w, (Some a, w).
#[export] Instance L_bind : MBind L := λ A B f m w,
  match m w with
  | (Some a, w') => f a w'
  | (None, w') => (None, w')
  end.

Definition fails {A} : L A := λ w, (None, w).

(** Errors are only logged. *)
Definition attempt {A} (m : L A) : L (option A) := λ w, let '(o, w') := m w in (Some o, w').

Definition of_option {A} (o : option A) : L A := match o with Some a => mret a | None => fails end.

Definition set_data (d : list ascii) (w : stdio) : stdio :=
  Stdio d (f_xattrs w) (f_uploads w) (f_appends w) (f_faults w) (f_now w) (f_clock w) (f_written w).
Definition set_xattrs (x : gmap string string) (w : stdio) : stdio :=
  Stdio (f_data w) x (f_uploads w) (f_appends w) (f_faults w) (f_now w) (f_clock w) (f_written w).
Definition set_uploads (u : list (string * list ascii)) (w : stdio) : stdio :=
  Stdio (f_data w) (f_xattrs w) u (f_appends w) (f_faults w) (f_now w) (f_clock w) (f_written w).
Definition set_file_faults (f : list bool) (w : stdio) : stdio :=
  Stdio (f_data w) (f_xattrs w) (f_uploads w) (f_appends w) f (f_now w) (f_clock w) (f_written w).

(** The task writes. *)
Definition append (bs : list ascii) (w : stdio) : stdio :=
  Stdio (f_data w ++ bs) (f_xattrs w) (f_uploads w) (f_appends w) (f_faults w) (f_now w) (f_clock w) (f_written w ++ bs).

Definition append_next (w : stdio) : stdio :=
  match f_appends w with
  | [] => w
  | bs :: rest =>
      Stdio (f_data w ++ bs) (f_xattrs w) (f_uploads w) rest (f_faults w) (f_now w) (f_clock w) (f_written w ++ bs)
  end.

Definition syscall {A} (f : stdio → option A * stdio) : L A := λ w,
  let w := append_next w in
  match f_faults w with
  | [] => f w
  | true :: fs => (None, set_file_faults fs w)
  | false :: fs => f (set_file_faults fs w)
  end.

Definition time_Now : L utc := λ w,
  match f_clock w with
  | [] => (Some (f_now w), w)
  | t :: ts => (Some t, Stdio (f_data w) (f_xattrs w) (f_uploads w) (f_appends w) (f_faults w) t ts (f_written w))
  end.

Definition int64 (n : Z) : Z := (n + 2 ^ 63) mod 2 ^ 64 - 2 ^ 63.
Definition MaxInt64 : Z := 2 ^ 63 - 1.

Definition size (w : stdio) : Z := Z.of_nat (length (f_data w)).

(** At most [n] bytes from [start] on *)
Definition section (start n : Z) (d : list ascii) : list ascii :=
  let d := drop (Z.to_nat start) d in
  if Z.of_nat (length d) <=? n then d else take (Z.to_nat n) d.

(** [FALLOC_FL_PUNCH_HOLE|FALLOC_FL_KEEP_SIZE] *)
Definition punch (start n : Z) (d : list ascii) : list ascii :=
  take (Z.to_nat start) d ++ replicate (length (section start n d)) "000"%char ++ drop (Z.to_nat (start + n)) d.

Definition FGetXattr (key : string) : L string := syscall (λ w, (f_xattrs w !! key, w)).
Definition FSetXattr (key value : string) : L unit :=
  if bool_decide (key = "") then fails else syscall (λ w, (Some tt, set_xattrs (<[key := value]> (f_xattrs w)) w)).
Definition FDelXattr (key : string) : L unit :=
  if bool_decide (key = "") then fails
  else syscall (λ w, match f_xattrs w !! key with
                     | Some _ => (Some tt, set_xattrs (delete key (f_xattrs w)) w)
                     | None => (None, w)
                     end).
Definition FListXattrs : L (list string) := syscall (λ w, (Some (elements (dom (f_xattrs w))), w)).

Definition StdioAttr : string := "user.stdio".
Definition VirtualFilePrefixWithSeparator : string := "user.titus.virtualFile.".

Inductive stdioRotateMode := normalRotate | finalUpload.

(** Configuration of the watcher; [blockSize] is the one of the file system. *)
Section Stdio.
Context (rotateSize maxSeek blockSize : Z) (uploadDir : string) (uploadThresholdTime : Z) (keepFileAfterUpload : bool).

Definition path_Join (dir name : string) : string := dir +:+ "/" +:+ name.

(** ** Holes *)

Definition newStartAndLength (start length : Z) : Z * Z :=
  ((start + blockSize - 1) / blockSize * blockSize, length / blockSize * blockSize).

Definition MakeHole (start length : Z) : L unit :=
  let '(newStart, newLength) := newStartAndLength start length in
  syscall (λ w, if (newStart <? 0) || (newLength <=? 0) then (None, w)
                else (Some tt, set_data (punch newStart newLength (f_data w)) w)).

(** [local.Seek(start, io.SeekStart)], then the upload of an [io.LimitReader] *)
Definition UploadPartOfFile (start length : Z) (remote : string) : L unit :=
  syscall (λ w, if start <? 0 then (None, w)
                else (Some tt, set_uploads (f_uploads w ++ [(remote, section start length (f_data w))]) w)).

(** ** Offsets *)

Definition parsecurrentOffsetBytes (s : string) : Z := default 0 (Atoi s).

Definition GetCurrentOffset : L Z :=
  currentOffsetBytes ← FGetXattr StdioAttr;
  mret (if bool_decide (currentOffsetBytes = "") then 0 else parsecurrentOffsetBytes currentOffsetBytes).

Definition getSize : L Z := syscall (λ w, (Some (size w), w)).

Fixpoint LastIndexByte (b : list ascii) (c : ascii) : option nat :=
  match b with
  | [] => None
  | x :: b => match LastIndexByte b c with
              | Some i => Some (S i)
              | None => if ascii_dec x c then Some 0%nat else None
              end
  end.

Definition newline : ascii := "010"%char.

(** The buffer ends with zeros when less than [maxSeek] bytes were read. *)
Definition getCutOffset : L Z :=
  seekOffset ← syscall (λ w, (if size w - maxSeek <? 0 then None else Some (size w - maxSeek), w));
  buf ← syscall (λ w, (Some (section seekOffset maxSeek (f_data w)), w));
  match buf with
  | [] => fails
  | _ => mret (match LastIndexByte buf newline with
               | None => 0
               | Some newLineIdx => int64 (seekOffset + Z.of_nat newLineIdx + 1)
               end)
  end.

(** ** Rotation *)

Definition updateFile (currentOffset cutLoc : Z) : L unit :=
  now ← time_Now;
  let newAttrKey := VirtualFilePrefixWithSeparator +:+ Format now in
  let newAttrVal := Itoa currentOffset +:+ "," +:+ Itoa (int64 (cutLoc - currentOffset)) in
  _ ← FSetXattr newAttrKey newAttrVal;
  r ← attempt (FSetXattr StdioAttr (Itoa cutLoc));
  match r with
  | Some _ => mret tt
  | None =>
      _ ← attempt (FDelXattr newAttrKey);
      fails
  end.

(** The error of [getCutOffset] is only logged; the offset is then 0. *)
Definition doStdioRotate : L unit :=
  currentOffset ← GetCurrentOffset;
  currentSize ← getSize;
  if int64 (currentSize - currentOffset) <? rotateSize then mret tt
  else
    cutLoc ← attempt getCutOffset;
    updateFile currentOffset (default 0 cutLoc).

(** ** Uploads *)

(** A value that does not have two parts is an error only for the log. *)
Definition FetchStartAndLen (xattrKey : string) : L (Z * Z) :=
  v ← FGetXattr xattrKey;
  match strings_Split v "," with
  | [a; b] =>
      start ← of_option (Atoi a);
      length ← of_option (Atoi b);
      mret (start, length)
  | _ => mret (0, 0)
  end.

(** [strings.TrimPrefix] and [strings.HasPrefix] *)
Fixpoint cut_prefix (prefix s : string) : option string :=
  match prefix, s with
  | EmptyString, _ => Some s
  | String a p, String b s' => if ascii_dec a b then cut_prefix p s' else None
  | String _ _, EmptyString => None
  end.

(** [name] is the base name of the file, [suffix] the key without its prefix. *)
Definition doStdioUploadAndReclaimVirtualFile (name : string) (mode : stdioRotateMode) (start length : Z)
    (xattrKey suffix : string) : L unit :=
  creationTime ← of_option (Parse suffix);
  now ← time_Now;
  if match mode with normalRotate => uploadThresholdTime <? Sub now creationTime | finalUpload => false end then mret tt
  else
    _ ← attempt (UploadPartOfFile start length (path_Join uploadDir (name +:+ "." +:+ suffix)));
    if keepFileAfterUpload then mret tt
    else
      let holeSize := int64 (start + length - 1) in
      _ ← attempt (FDelXattr xattrKey);
      _ ← attempt (MakeHole 0 holeSize);
      mret tt.

Definition virtualFile_step (name : string) (mode : stdioRotateMode) (xattrKey : string) : L unit :=
  match cut_prefix VirtualFilePrefixWithSeparator xattrKey with
  | None => mret tt
  | Some suffix =>
      r ← attempt (FetchStartAndLen xattrKey);
      match r with
      | None => mret tt
      | Some x =>
          _ ← attempt (doStdioUploadAndReclaimVirtualFile name mode (x : Z * Z).1 x.2 xattrKey suffix);
          mret tt
      end
  end.

Fixpoint virtualFile_steps (name : string) (mode : stdioRotateMode) (keys : list string) : L unit :=
  match keys with
  | [] => mret tt
  | key :: keys =>
      _ ← virtualFile_step name mode key;
      virtualFile_steps name mode keys
  end.

Definition doStdioUploadAndReclaim (name : string) (mode : stdioRotateMode) : L unit :=
  xattrList ← FListXattrs;
  virtualFile_steps name mode (sort_Strings xattrList).

Definition doFinalStdioUploadAndReclaim (name : string) : L unit :=
  _ ← attempt (doStdioUploadAndReclaim name finalUpload);
  cutLoc ← GetCurrentOffset;
  _ ← attempt (UploadPartOfFile cutLoc MaxInt64 (path_Join uploadDir name));
  mret tt.

(** An error that is not about a missing attribute counts as having it. *)
Definition CheckFileForStdio : L bool :=
  r ← attempt (syscall (λ w, (Some (bool_decide (is_Some (f_xattrs w !! StdioAttr))), w)));
  mret (default true r).

(** One round for one file: checking, opening, and then the work. *)
Definition stdioRotateFile (name : string) (mode : stdioRotateMode) : L unit :=
  is_stdio ← CheckFileForStdio;
  if is_stdio : bool then
    _ ← syscall (λ w, (Some tt, w));
    _ ← attempt (doStdioUploadAndReclaim name mode);
    _ ← attempt (match mode with normalRotate => doStdioRotate | finalUpload => doFinalStdioUploadAndReclaim name end);
    mret tt
  else mret tt.

Definition PotentialStdioNames : list string := ["stderr"; "stdout"].

(** The files of the log directory that are there. *)
Definition stdioRotate (mode : stdioRotateMode) (files : gmap string stdio) : gmap string stdio :=
  map_imap (λ name f, Some (if bool_decide (name ∈ PotentialStdioNames) then (stdioRotateFile name mode f).2 else f)) files.
End Stdio.

(** ** Reasoning about rounds *)

Definition lwp {A} (m : L A) (Q : option A → stdio → Prop) (w : stdio) : Prop := Q (m w).1 (m w).2.

Lemma lwp_mono {A} (m : L A) (Q Q' : option A → stdio → Prop) w : lwp m Q w → (∀ o w', Q o w' → Q' o w') → lwp m Q' w.
Proof. unfold lwp. auto. Qed.

Lemma lwp_ret {A} (a : A) (Q : option A → stdio → Prop) w : Q (Some a) w → lwp (mret a) Q w.
Proof. done. Qed.

Lemma lwp_bind {A B} (m : L A) (f : A → L B) (Q : option B → stdio → Prop) w :
  lwp m (λ o w', match o with Some a => lwp (f a) Q w' | None => Q None w' end) w → lwp (m ≫= f) Q w.
Proof. unfold lwp, mbind, L_bind. by destruct (m w) as [[a|] w']. Qed.

Lemma lwp_attempt {A} (m : L A) (Q : option (option A) → stdio → Prop) w : lwp m (λ o, Q (Some o)) w → lwp (attempt m) Q w.
Proof. unfold lwp, attempt. by destruct (m w). Qed.

(** All that was written when the pending writes are. *)
Definition whole (w : stdio) : list ascii := f_written w ++ concat (f_appends w).

Definition readings (w : stdio) : list utc := f_now w :: f_clock w.

(** Only the task did something, and time passed. *)
Record grows (w w1 : stdio) : Prop := {
  gr_data : ∃ bs, f_data w1 = f_data w ++ bs ∧ f_written w1 = f_written w ++ bs;
  gr_whole : whole w1 = whole w;
  gr_xattrs : f_xattrs w1 = f_xattrs w;
  gr_uploads : f_uploads w1 = f_uploads w;
  gr_faults : f_faults w1 = f_faults w;
  gr_clock : readings w1 ⊆ readings w;
}.

#[export] Instance grows_preorder : PreOrder grows.
Proof.
  split.
  - intros w. split; try done. exists []. by rewrite !app_nil_r.
  - intros w1 w2 w3 [(bs & D1 & W1) ? ? ? ? R1] [(bs' & D2 & W2) ? ? ? ? R2]. split; try congruence.
    + exists (bs ++ bs'). by rewrite D2, D1, W2, W1, !app_assoc.
    + by etrans.
Qed.

Lemma grows_append_next w : grows w (append_next w).
Proof.
  unfold append_next. destruct (f_appends w) as [|bs rest] eqn:E; [done|]. split; try done.
  - by exists bs.
  - unfold whole. simpl. rewrite E. simpl. by rewrite <- app_assoc.
Qed.

Lemma lwp_syscall {A} (f : stdio → option A * stdio) (Q : option A → stdio → Prop) w :
  f_faults w = [] → (∀ w1, grows w w1 → lwp f Q w1) → lwp (syscall f) Q w.
Proof.
  intros Hf HQ. unfold lwp, syscall. pose proof (grows_append_next w) as Hg. rewrite (gr_faults _ _ Hg), Hf. by apply HQ.
Qed.

Lemma lwp_time_Now (Q : option utc → stdio → Prop) w :
  (∀ t w1, t ∈ readings w → grows w w1 → Q (Some t) w1) → lwp time_Now Q w.
Proof.
  intros HQ. unfold lwp, time_Now. destruct (f_clock w) as [|t ts] eqn:E; simpl.
  - apply HQ; [by left | done].
  - assert (∀ x, x ∈ t :: ts → x ∈ readings w) as Hsub by (intros x Hx; unfold readings; rewrite E; by right).
    apply HQ; [apply Hsub; by left|]. split; try done. exists []. by rewrite !app_nil_r.
Qed.

Lemma lwp_FGetXattr key (Q : option string → stdio → Prop) w :
  f_faults w = [] → (∀ w1, grows w w1 → Q (f_xattrs w !! key) w1) → lwp (FGetXattr key) Q w.
Proof. intros Hf HQ. apply lwp_syscall; [done|]. intros w1 Hg. unfold lwp. simpl. rewrite (gr_xattrs _ _ Hg). by apply HQ. Qed.

(** ** Virtual files *)

(** The key of an attribute, the start and the length. *)
Definition vfile : Type := string * Z * Z.
Definition vf_key (v : vfile) : string := v.1.1.

Definition attr_value (start length : Z) : string := Itoa start +:+ "," +:+ Itoa length.

(** The virtual files follow each other from [p] to [c]. *)
Fixpoint tiles (p : Z) (vs : list vfile) (c : Z) : Prop :=
  match vs with
  | [] => p = c
  | (_, start, len) :: vs => start = p ∧ 0 < len ∧ tiles (p + len) vs c
  end.

Definition named (v : vfile) : Prop := ∃ suffix t, cut_prefix VirtualFilePrefixWithSeparator (vf_key v) = Some suffix ∧ Parse suffix = Some t.

Definition before (a b : string) : Prop := String.le a b ∧ a ≠ b.

(** The bytes before [p] were uploaded, those from [p] to [c] are in the virtual files [vs], and the
    task writes after [c]; there may be a hole up to [q]. *)
Record tiled (w : stdio) (p : Z) (vs : list vfile) (c q : Z) : Prop := {
  ti_faults : f_faults w = [];
  ti_tiles : tiles p vs c;
  ti_bounds : 0 <= q <= p ∧ c <= Z.of_nat (length (f_written w));
  ti_sorted : StronglySorted before (vf_key <$> vs);
  ti_named : Forall named vs;
  ti_attrs : ∀ v, v ∈ vs → f_xattrs w !! vf_key v = Some (attr_value v.1.2 v.2);
  ti_only : ∀ k suffix v, f_xattrs w !! k = Some v → cut_prefix VirtualFilePrefixWithSeparator k = Some suffix → k ∈ vf_key <$> vs;
  ti_offset : ∃ v, f_xattrs w !! StdioAttr = Some v ∧ (if bool_decide (v = "") then 0 else parsecurrentOffsetBytes v) = c;
  ti_data : f_data w = replicate (Z.to_nat q) "000"%char ++ drop (Z.to_nat q) (f_written w);
  ti_uploads : concat (f_uploads w).*2 = take (Z.to_nat p) (f_written w);
}.

Lemma tiles_le p vs c : tiles p vs c → p <= c.
Proof. revert p. induction vs as [|[[k s] l] vs IH]; intros p; simpl; [lia|]. intros (-> & ? & H%IH). lia. Qed.

Lemma tiled_grows w w1 p vs c q : tiled w p vs c q → grows w w1 → tiled w1 p vs c q.
Proof.
  intros [Hf Ht [Hq Hc] Hs Hn Ha Ho Hoff Hd Hu] [(bs & D & W) _ X U F _]. pose proof (tiles_le _ _ _ Ht).
  split; try done; rewrite ?X, ?U, ?F, ?D, ?W, ?Hd; try done.
  - rewrite length_app. lia.
  - rewrite drop_app_le by lia. by rewrite app_assoc.
  - rewrite take_app_le by lia. done.
Qed.

(** ** The bytes of a file with a hole *)

Definition holed (q : Z) (d : list ascii) : list ascii := replicate (Z.to_nat q) "000"%char ++ drop (Z.to_nat q) d.

Lemma drop_holed q n d : 0 <= q <= n → drop (Z.to_nat n) (holed q d) = drop (Z.to_nat n) d.
Proof.
  intros H. unfold holed. rewrite drop_app_ge by (rewrite length_replicate; lia). rewrite length_replicate, drop_drop.
  f_equal. lia.
Qed.

Lemma section_holed q start n d : 0 <= q <= start → section start n (holed q d) = section start n d.
Proof. intros H. unfold section. by rewrite drop_holed. Qed.

Lemma length_holed q d : q <= Z.of_nat (length d) → length (holed q d) = length d.
Proof. intros H. unfold holed. rewrite length_app, length_replicate, length_drop. lia. Qed.

(** The section is all there. *)
Lemma section_take start n d :
  0 <= start → 0 <= n → start + n <= Z.of_nat (length d) → section start n d = take (Z.to_nat n) (drop (Z.to_nat start) d).
Proof.
  intros Hs Hn H. unfold section. destruct (Z.leb_spec (Z.of_nat (length (drop (Z.to_nat start) d))) n) as [Hle|]; [|done].
  rewrite take_ge; [done|]. lia.
Qed.

Lemma section_app start n d bs :
  0 <= start → 0 <= n → start + n <= Z.of_nat (length d) → section start n (d ++ bs) = section start n d.
Proof.
  intros Hs Hn H. rewrite !section_take by (rewrite ?length_app; lia). rewrite drop_app_le by lia.
  rewrite take_app_le; [done|]. rewrite length_drop. lia.
Qed.

Lemma punch_holed q n d :
  0 <= q <= Z.of_nat (length d) → 0 < n <= Z.of_nat (length d) → punch 0 n (holed q d) = holed (Z.max q n) d.
Proof.
  intros Hq Hn. unfold punch. simpl. rewrite section_take, length_take, length_drop, length_holed by (rewrite ?length_holed; lia).
  destruct (decide (n < q)) as [Hlt|Hge].
  - rewrite Z.max_l by lia. unfold holed. rewrite drop_app_le by (rewrite length_replicate; lia). rewrite drop_replicate, app_assoc, <- replicate_add.
    do 2 f_equal. lia.
  - rewrite Z.max_r by lia. rewrite drop_holed by lia. unfold holed. do 2 f_equal. lia.
Qed.

Lemma take_section p l d :
  0 <= p → 0 <= l → p + l <= Z.of_nat (length d) → take (Z.to_nat p) d ++ section p l d = take (Z.to_nat (p + l)) d.
Proof.
  intros Hp Hl H. rewrite section_take by lia. rewrite Z2Nat.inj_add by lia. by rewrite take_take_drop.
Qed.

(** ** Attributes are read back *)

Definition has_char (c : ascii) (s : string) : Prop := c ∈ String.list_ascii_of_string s.

Lemma strings_Split_nosep s sep : ¬ has_char sep s → strings_Split s sep = [s].
Proof.
  unfold has_char. induction s as [|c s IH]; simpl; [done|]. rewrite elem_of_cons. intros H.
  destruct (ascii_dec c sep) as [->|]; [naive_solver|]. rewrite IH; [done|naive_solver].
Qed.

Lemma strings_Split_join s t sep : ¬ has_char sep s → ¬ has_char sep t → strings_Split (s +:+ String sep t) sep = [s; t].
Proof.
  unfold has_char. intros Hs Ht. induction s as [|c s IH]; simpl in *.
  - destruct (ascii_dec sep sep); [|done]. by rewrite strings_Split_nosep.
  - rewrite elem_of_cons in Hs. destruct (ascii_dec c sep) as [->|]; [naive_solver|]. rewrite IH; [done|naive_solver].
Qed.

Lemma digits_chars acc s n c : digits acc s = Some n → has_char c s → is_Some (digit c).
Proof.
  unfold has_char. revert acc. induction s as [|a s IH]; intros acc; simpl; [by intros _ ?%not_elem_of_nil|].
  destruct (digit a) eqn:E; [|done]. intros H [->|Hc]%elem_of_cons; [by rewrite E | by eapply IH].
Qed.

Lemma Itoa_chars z c : has_char c (Itoa z) → is_Some (digit c) ∨ c = "-"%char.
Proof.
  unfold Itoa. destruct z as [|p|p]; intros H.
  - left. by eapply (digits_chars 0 (pretty 0)).
  - left. eapply (digits_chars 0 _ _ _ (digits_pretty (Npos p))). done.
  - change (pretty (Zneg p)) with (String "-" (pretty (Npos p))) in H. apply elem_of_cons in H as [->|H]; [by right|].
    left. by eapply (digits_chars 0 _ _ _ (digits_pretty (Npos p))).
Qed.

Lemma Itoa_no_comma z : ¬ has_char "," (Itoa z).
Proof. intros [[d H]|H]%Itoa_chars; done. Qed.

Lemma is_int_of z : - 2 ^ 63 <= z < 2 ^ 63 → is_int z = true.
Proof. intros H. unfold is_int. apply andb_true_iff. rewrite Z.leb_le, Z.ltb_lt. lia. Qed.

Lemma int64_id z : - 2 ^ 63 <= z < 2 ^ 63 → int64 z = z.
Proof. intros H. unfold int64. rewrite Z.mod_small by lia. lia. Qed.

Lemma Itoa_nonempty z : Itoa z ≠ "".
Proof. intros H. pose proof (parse_integer_pretty z) as E. unfold Itoa in H. by rewrite H in E. Qed.

Lemma cut_prefix_app p s : cut_prefix p (p +:+ s) = Some s.
Proof. induction p as [|a p IH]; [done|]. simpl. by destruct (ascii_dec a a). Qed.

Lemma cut_prefix_inv p s r : cut_prefix p s = Some r → s = p +:+ r.
Proof.
  revert s. induction p as [|a p IH]; intros [|b s] H; simpl in *; simplify_eq/=; try done.
  destruct (ascii_dec a b) as [->|]; [|done]. by rewrite (IH s).
Qed.

(** ** A round uploads all virtual files *)

#[local] Arguments cut_prefix : simpl never.
#[local] Arguments int64 : simpl never.

Section Rounds.
Context (rotateSize maxSeek blockSize : Z) (uploadDir : string) (uploadThresholdTime : Z) (name : string).
Context (Hseek : 0 < maxSeek <= rotateSize) (Hblock : 0 < blockSize).

(** The clock is right, and no virtual file is older than the threshold: that is when it is skipped. *)
Definition on_time (w : stdio) : Prop := ∀ t, t ∈ readings w →
  valid t ∧ ∀ k v suffix t0, f_xattrs w !! k = Some v → cut_prefix VirtualFilePrefixWithSeparator k = Some suffix →
    Parse suffix = Some t0 → Sub t t0 <= uploadThresholdTime.

(** The file stays smaller than the largest offset. *)
Definition fits (d : list ascii) : Prop := Z.of_nat (length d) < 2 ^ 63.

Lemma written_fits w : fits (whole w) → fits (f_written w).
Proof. unfold fits, whole. rewrite length_app. lia. Qed.

(** What a step of the watcher keeps. *)
Record keeps (w w1 : stdio) : Prop := {
  ke_whole : whole w1 = whole w;
  ke_clock : readings w1 ⊆ readings w;
  ke_attrs : ∀ k, k ≠ StdioAttr → f_xattrs w !! k = None → f_xattrs w1 !! k = None;
  ke_written : f_written w `prefix_of` f_written w1;
}.

#[export] Instance keeps_preorder : PreOrder keeps.
Proof.
  split; [done|]. intros w1 w2 w3 [? R1 A1 ?] [? R2 A2 ?]. split; [congruence|by etrans|auto|by etrans].
Qed.

Lemma grows_keeps w w1 : grows w w1 → keeps w w1.
Proof. intros [(bs & _ & W) ? X _ _ ?]. split; [done|done|by rewrite X|by exists bs]. Qed.

Lemma lwp_eval {A} (o : option A) w' (f : L A) (Q : option A → stdio → Prop) w : f w = (o, w') → Q o w' → lwp f Q w.
Proof. intros E HQ. unfold lwp. by rewrite E. Qed.

Lemma lwp_FetchStartAndLen start len key (Q : option (Z * Z) → stdio → Prop) w :
  f_faults w = [] → f_xattrs w !! key = Some (attr_value start len) → is_int start = true → is_int len = true →
  (∀ w1, grows w w1 → Q (Some (start, len)) w1) → lwp (FetchStartAndLen key) Q w.
Proof.
  intros Hf Hk Hs Hl HQ. apply lwp_bind, lwp_FGetXattr; [done|]. intros w1 Hg. rewrite Hk. unfold attr_value.
  change ("," +:+ Itoa len) with (String "," (Itoa len)). rewrite strings_Split_join by apply Itoa_no_comma.
  rewrite !Atoi_Itoa by done. by apply HQ.
Qed.

(** Nothing of the virtual file is lost with its attribute and the hole. *)
Lemma tiled_reclaimed w w' key len vs c p q bs remote :
  tiled w p ((key, p, len) :: vs) c q → f_faults w' = [] → f_written w' = f_written w ++ bs →
  f_xattrs w' = delete key (f_xattrs w) → f_uploads w' = f_uploads w ++ [(remote, section p len (f_data w))] →
  (f_data w' = f_data w ++ bs ∨ ∃ n, 0 < n <= p + len ∧ f_data w' = punch 0 n (f_data w ++ bs)) →
  ∃ q', tiled w' (p + len) vs c q'.
Proof.
  intros [Hf (_ & Hlen & Ht) [Hq Hc] [Hs Hall]%StronglySorted_inv Hn Ha Ho Hoff Hd Hu] Hf' W X U D. pose proof (tiles_le _ _ _ Ht).
  assert (f_data w ++ bs = holed q (f_written w')) as Hd'.
  { rewrite Hd, W. unfold holed. rewrite drop_app_le by lia. by rewrite app_assoc. }
  rewrite Forall_forall in Hall. assert (∀ v, v ∈ vs → vf_key v ≠ key) as Hne.
  { intros v Hv E. destruct (Hall (vf_key v)) as [_ []]; [by apply list_elem_of_fmap_2|done]. }
  assert (∃ q', 0 <= q' <= p + len ∧ f_data w' = holed q' (f_written w')) as (q' & Hq' & Hdata).
  { destruct D as [->|(n & Hn' & ->)]; rewrite Hd'; [exists q; split; [lia|done]|].
    exists (Z.max q n). split; [lia|]. apply punch_holed; rewrite W, length_app; lia. }
  exists q'. split; try done.
  - rewrite W, length_app. lia.
  - by apply Forall_cons_1 in Hn as [_ ?].
  - intros v Hv. rewrite X, lookup_delete_ne by (by apply not_eq_sym, Hne). apply Ha. by right.
  - intros k suffix v. rewrite X. intros [Hk Hv]%lookup_delete_Some Hp. specialize (Ho k suffix v Hv Hp).
    simpl in Ho. apply elem_of_cons in Ho as [->|?]; [by destruct Hk | done].
  - destruct Hoff as (v & Hv & Hov). exists v. split; [|done]. rewrite X, lookup_delete_ne; [done|].
    intros ->. apply Forall_cons_1 in Hn as [(sf & t & Hk & _) _]. done.
  - rewrite U, fmap_app, concat_app, Hu, Hd. simpl. rewrite app_nil_r. fold (holed q (f_written w)).
    rewrite section_holed by lia. rewrite take_section by lia. rewrite W, take_app_le by lia. done.
Qed.

Lemma is_int_small n (d : list ascii) : fits d → 0 <= n <= Z.of_nat (length d) → is_int n = true.
Proof. unfold fits. intros. apply is_int_of. lia. Qed.

Lemma virtualFile_step_ok mode key len vs c p q w :
  tiled w p ((key, p, len) :: vs) c q → fits (whole w) → (mode = normalRotate → on_time w) →
  lwp (virtualFile_step blockSize uploadDir uploadThresholdTime false name mode key)
    (λ _ w1, keeps w w1 ∧ ∃ q', tiled w1 (p + len) vs c q') w.
Proof.
  intros Ht Hwhole Hon. pose proof (written_fits _ Hwhole) as Hfit. pose proof Ht as [Hf (_ & Hlen & Htiles) [Hq Hc] _ Hn Ha _ _ _ _]. pose proof (tiles_le _ _ _ Htiles).
  apply Forall_cons_1 in Hn as [(suffix & t0 & Hk & Hp) _]. specialize (Ha (key, p, len) ltac:(by left)). simpl in Ha. unfold vf_key in Hk. simpl in Hk.
  assert (key ≠ "") by (by intros ->).
  unfold virtualFile_step. rewrite Hk. apply lwp_bind, lwp_attempt.
  apply (lwp_FetchStartAndLen p len); [done|done|apply (is_int_small _ (f_written w)); [done|lia]..|].
  intros w1 H1. apply lwp_bind, lwp_attempt. unfold doStdioUploadAndReclaimVirtualFile. rewrite Hp. apply lwp_bind, lwp_ret.
  apply lwp_bind, lwp_time_Now. intros t w2 Hclock H2.
  assert (match mode with normalRotate => uploadThresholdTime <? Sub t t0 | finalUpload => false end = false) as ->.
  { destruct mode; [|done]. apply Z.ltb_ge. destruct (Hon eq_refl t) as [_ Hage]; [by apply (gr_clock _ _ H1)|]. by eapply Hage. }
  apply lwp_bind, lwp_attempt, lwp_syscall; [rewrite (gr_faults _ _ H2), (gr_faults _ _ H1); done|]. intros w3 H3.
  assert (grows w w3) as H03 by (etrans; [exact H1|]; by etrans). pose proof (tiled_grows _ _ _ _ _ _ Ht H03) as Ht3.
  assert (f_xattrs w3 !! key = Some (attr_value p len)) as Ha3 by (rewrite (gr_xattrs _ _ H03); exact Ha).
  set (w3' := set_uploads (f_uploads w3 ++ [(path_Join uploadDir (name +:+ "." +:+ suffix), section p len (f_data w3))]) w3).
  apply (lwp_eval (Some tt) w3'); [simpl; by rewrite (proj2 (Z.ltb_ge p 0)) by lia|].
  apply lwp_bind, lwp_attempt. unfold FDelXattr. rewrite bool_decide_eq_false_2 by done.
  apply lwp_syscall; [apply Ht3|]. intros w4 H4.
  assert (f_xattrs w4 = f_xattrs w3) as X4 by apply (gr_xattrs _ _ H4). set (w4' := set_xattrs (delete key (f_xattrs w4)) w4).
  apply (lwp_eval (Some tt) w4'); [rewrite <- X4 in Ha3; by rewrite Ha3|]. apply lwp_bind, lwp_attempt. unfold MakeHole. simpl.
  apply lwp_syscall; [simpl; rewrite (gr_faults _ _ H4); apply Ht3|]. intros w5 H5.
  destruct (gr_data _ _ H4) as (bs4 & D4 & W4). destruct (gr_data _ _ H5) as (bs5 & D5 & W5). simpl in D5, W5.
  assert (keeps w w5) as Hkeeps.
  { split.
    - rewrite (gr_whole _ _ H5). change (whole w4') with (whole w4). rewrite (gr_whole _ _ H4). apply (gr_whole _ _ H03).
    - etrans; [apply (gr_clock _ _ H5)|]. etrans; [apply (gr_clock _ _ H4)|]. apply (gr_clock _ _ H03).
    - intros k _ Hkn. rewrite (gr_xattrs _ _ H5). simpl. rewrite (gr_xattrs _ _ H4). simpl. apply lookup_delete_None. right.
      by rewrite (gr_xattrs _ _ H03).
    - destruct (gr_data _ _ H03) as (bs3 & _ & W3). exists (bs3 ++ bs4 ++ bs5). by rewrite W5, W4, <- !app_assoc, !app_assoc, <- W3. }
  rewrite int64_id by (unfold fits in Hfit; lia).
  assert (∀ w', keeps w5 w' → f_faults w' = [] → f_written w' = f_written w5 → f_xattrs w' = f_xattrs w5 → f_uploads w' = f_uploads w5 →
    (f_data w' = f_data w5 ∨ ∃ n, 0 < n <= p + len ∧ f_data w' = punch 0 n (f_data w5)) → keeps w w' ∧ ∃ q', tiled w' (p + len) vs c q') as Hdone.
  { intros w' K F W X U D. split; [by etrans|]. eapply (tiled_reclaimed w3 w' key len vs c p q (bs4 ++ bs5)); [done|done|..].
    - rewrite W, W5, W4. simpl. by rewrite app_assoc.
    - rewrite X, (gr_xattrs _ _ H5). simpl. by rewrite (gr_xattrs _ _ H4).
    - rewrite U, (gr_uploads _ _ H5). simpl. by rewrite (gr_uploads _ _ H4).
    - assert (f_data w3 ++ bs4 ++ bs5 = f_data w5) as -> by (rewrite app_assoc; change (f_data w3) with (f_data w3'); congruence). done. }
  assert (f_faults w5 = []) as F5 by (rewrite (gr_faults _ _ H5); simpl; rewrite (gr_faults _ _ H4); apply Ht3).
  assert ((p + len - 1) / blockSize * blockSize <= p + len - 1) by (pose proof (Z.mul_div_le (p + len - 1) blockSize); lia).
  unfold lwp. destruct (_ || _) eqn:E; simpl.
  - apply Hdone; [done..|by left].
  - apply orb_false_iff in E as [_ E%Z.leb_gt]. apply Hdone; [done..|]. right. exists ((p + len - 1) / blockSize * blockSize). split; [lia|].
    simpl. rewrite Z.div_small by lia. done.
Qed.

(** Errors end the work on one virtual file only. *)
Lemma virtualFile_step_some keep mode key w :
  (virtualFile_step blockSize uploadDir uploadThresholdTime keep name mode key w).1 = Some tt.
Proof.
  unfold virtualFile_step, attempt, mbind, L_bind, mret, L_ret. destruct (cut_prefix _ key) as [suffix|]; [|done].
  destruct (FetchStartAndLen key w) as [[x|] w1]; [|done]. by destruct (doStdioUploadAndReclaimVirtualFile _ _ _ _ _ _ _ _ _ _ w1).
Qed.

Lemma lwp_virtualFile_steps keep mode key keys (Q : option unit → stdio → Prop) w :
  lwp (virtualFile_step blockSize uploadDir uploadThresholdTime keep name mode key)
    (λ _ w1, lwp (virtualFile_steps blockSize uploadDir uploadThresholdTime keep name mode keys) Q w1) w →
  lwp (virtualFile_steps blockSize uploadDir uploadThresholdTime keep name mode (key :: keys)) Q w.
Proof.
  intros H. apply lwp_bind. unfold lwp at 1 in H. unfold lwp at 1. by rewrite virtualFile_step_some.
Qed.

Lemma virtualFile_steps_ok mode vs c p q w :
  tiled w p vs c q → fits (whole w) → (mode = normalRotate → on_time w) →
  lwp (virtualFile_steps blockSize uploadDir uploadThresholdTime false name mode (vf_key <$> vs))
    (λ _ w1, keeps w w1 ∧ ∃ q', tiled w1 c [] c q') w.
Proof.
  revert p q w. induction vs as [|[[key start] len] vs IH]; intros p q w Ht Hfit Hon.
  - pose proof (ti_tiles _ _ _ _ _ Ht) as E. simpl in E. subst. apply lwp_ret. split; [done|by exists q].
  - pose proof (ti_tiles _ _ _ _ _ Ht) as (E & Hlen & Htiles). subst start. change (vf_key <$> _ :: vs) with (key :: (vf_key <$> vs)). apply lwp_virtualFile_steps.
    eapply lwp_mono; [by eapply virtualFile_step_ok|]. intros o w1 (Hk1 & q1 & Ht1).
    eapply lwp_mono; [apply (IH _ _ _ Ht1)|].
      + by rewrite (ke_whole _ _ Hk1).
      + intros Hm t Hclock. destruct (Hon Hm t) as [Hv Hage]; [by apply (ke_clock _ _ Hk1)|]. split; [done|].
        intros k v suffix t0 Hkv Hp. destruct (f_xattrs w !! k) as [v0|] eqn:E; [by eapply Hage|].
        rewrite (ke_attrs _ _ Hk1) in Hkv; [done| |done]. by intros ->.
      + intros o2 w2 [Hk2 H2]. split; [by etrans|done].
Qed.

Definition relevant (k : string) : Prop := is_Some (cut_prefix VirtualFilePrefixWithSeparator k).

#[export] Instance relevant_dec k : Decision (relevant k).
Proof. unfold relevant. apply _. Defined.

Lemma virtualFile_steps_relevant keep mode keys w :
  virtualFile_steps blockSize uploadDir uploadThresholdTime keep name mode keys w =
  virtualFile_steps blockSize uploadDir uploadThresholdTime keep name mode (filter relevant keys) w.
Proof.
  revert w. induction keys as [|k keys IH]; intros w; [done|]. rewrite filter_cons. case_decide as Hr.
  - simpl. unfold mbind, L_bind. destruct (virtualFile_step _ _ _ _ _ _ k w) as [[[]|] w1]; [apply IH|done].
  - rewrite <- IH. simpl. unfold mbind, L_bind. unfold virtualFile_step. unfold relevant in Hr.
    destruct (cut_prefix _ k); [by destruct Hr|done].
Qed.

Lemma lwp_virtualFile_steps_relevant keep mode keys (Q : option unit → stdio → Prop) w :
  lwp (virtualFile_steps blockSize uploadDir uploadThresholdTime keep name mode (filter relevant keys)) Q w →
  lwp (virtualFile_steps blockSize uploadDir uploadThresholdTime keep name mode keys) Q w.
Proof. unfold lwp. by rewrite <- virtualFile_steps_relevant. Qed.

Lemma StronglySorted_filter {A} (R : relation A) (P : A → Prop) `{!∀ x, Decision (P x)} l :
  StronglySorted R l → StronglySorted R (filter P l).
Proof.
  induction 1 as [|x l Hl IH Hx]; [constructor|]. rewrite filter_cons. case_decide; [|done]. constructor; [done|].
  rewrite Forall_forall in Hx |- *. intros y [_ Hy]%list_elem_of_filter. by apply Hx.
Qed.

Lemma virtual_keys w p vs c q :
  tiled w p vs c q → filter relevant (sort_Strings (elements (dom (f_xattrs w)))) = vf_key <$> vs.
Proof.
  intros [_ _ _ Hs Hn Ha Ho _ _ _]. apply (StronglySorted_unique String.le).
  - apply StronglySorted_filter. apply (StronglySorted_merge_sort String.le).
  - clear -Hs. induction Hs as [|x l _ IH Hx]; constructor; [done|]. eapply Forall_impl; [exact Hx|]. by intros y [].
  - apply NoDup_Permutation.
    + apply NoDup_filter. unfold sort_Strings. rewrite (merge_sort_Permutation String.le). apply NoDup_elements.
    + clear -Hs. induction Hs as [|x l _ IH Hx]; constructor; [|done]. intros Hin. rewrite Forall_forall in Hx. by destruct (Hx x Hin).
    + intros k. rewrite list_elem_of_filter. unfold sort_Strings. rewrite (merge_sort_Permutation String.le), elem_of_elements, elem_of_dom.
      split.
      * intros [[suffix Hk] [v Hv]]. by eapply Ho.
      * intros (v & -> & Hv)%list_elem_of_fmap. rewrite (Ha v Hv). rewrite Forall_forall in Hn. destruct (Hn v Hv) as (sf & t & Hsf & _).
        split; by eexists.
Qed.

Lemma doStdioUploadAndReclaim_ok mode vs c p q w :
  tiled w p vs c q → fits (whole w) → (mode = normalRotate → on_time w) →
  lwp (doStdioUploadAndReclaim blockSize uploadDir uploadThresholdTime false name mode)
    (λ _ w1, keeps w w1 ∧ ∃ q', tiled w1 c [] c q') w.
Proof.
  intros Ht Hfit Hon. apply lwp_bind, lwp_syscall; [apply Ht|]. intros w1 Hg. unfold lwp at 1. simpl.
  pose proof (tiled_grows _ _ _ _ _ _ Ht Hg) as Ht1. apply lwp_virtualFile_steps_relevant. rewrite (virtual_keys _ _ _ _ _ Ht1).
  eapply lwp_mono; [eapply virtualFile_steps_ok; [done|by rewrite (gr_whole _ _ Hg)|]|].
  - intros Hm t Hc. destruct (Hon Hm t) as [? H]; [by apply (gr_clock _ _ Hg)|]. rewrite (gr_xattrs _ _ Hg). done.
  - intros o w2 [K H]. split; [|done]. etrans; [by apply grows_keeps|done].
Qed.

(** ** A rotation cuts behind a line *)

(** Lines are shorter than what is searched for a line break. *)
Definition line_oriented (d : list ascii) : Prop :=
  ∀ i, 0 <= i → i + maxSeek <= Z.of_nat (length d) → newline ∈ section i maxSeek d.

Lemma line_oriented_app d bs : line_oriented (d ++ bs) → line_oriented d.
Proof. intros H i Hi Hd. rewrite <- (section_app i maxSeek d bs) by lia. apply H; rewrite ?length_app; lia. Qed.

Lemma LastIndexByte_Some b c i : LastIndexByte b c = Some i → b !! i = Some c.
Proof.
  revert i. induction b as [|x b IH]; intros i; simpl; [done|]. destruct (LastIndexByte b c); [intros [= <-]; by apply IH|].
  destruct (ascii_dec x c); [|done]. intros [= <-]. by subst.
Qed.

Lemma LastIndexByte_elem b c : c ∈ b → ∃ i, LastIndexByte b c = Some i ∧ (i < length b)%nat.
Proof.
  intros H. destruct (LastIndexByte b c) as [i|] eqn:E.
  - exists i. split; [done|]. apply LastIndexByte_Some, lookup_lt_Some in E. done.
  - exfalso. induction b as [|x b IH]; [by apply not_elem_of_nil in H|]. simpl in E. destruct (LastIndexByte b c); [done|].
    destruct (ascii_dec x c); [done|]. apply elem_of_cons in H as [?|?]; [congruence|auto].
Qed.

Lemma size_tiled w p vs c q : tiled w p vs c q → size w = Z.of_nat (length (f_written w)).
Proof.
  intros [_ Ht [Hq Hc] _ _ _ _ _ Hd _]. pose proof (tiles_le _ _ _ Ht). unfold size. rewrite Hd. fold (holed q (f_written w)).
  rewrite length_holed by lia. done.
Qed.

Lemma lwp_getCutOffset (Q : option Z → stdio → Prop) w p vs c q :
  tiled w p vs c q → fits (whole w) → line_oriented (whole w) → rotateSize <= size w - c →
  (∀ cut w1, grows w w1 → c < cut <= Z.of_nat (length (f_written w1)) → Q (Some cut) w1) → lwp (getCutOffset maxSeek) Q w.
Proof.
  intros Ht Hfit Hlines Hsize HQ. pose proof (tiles_le _ _ _ (ti_tiles _ _ _ _ _ Ht)). pose proof (ti_bounds _ _ _ _ _ Ht) as [Hq _].
  apply lwp_bind, lwp_syscall; [apply Ht|]. intros w1 H1. pose proof (tiled_grows _ _ _ _ _ _ Ht H1) as Ht1.
  assert (size w <= size w1).
  { destruct (gr_data _ _ H1) as (bs & D & _). unfold size. rewrite D, length_app. lia. }
  apply (lwp_eval (Some (size w1 - maxSeek)) w1); [by rewrite (proj2 (Z.ltb_ge (size w1 - maxSeek) 0)) by lia|].
  apply lwp_bind, lwp_syscall; [apply Ht1|]. intros w2 H2. pose proof (tiled_grows _ _ _ _ _ _ Ht1 H2) as Ht2.
  assert (grows w w2) as H02 by by etrans.
  assert (size w1 <= size w2).
  { destruct (gr_data _ _ H2) as (bs & D & _). unfold size. rewrite D, length_app. lia. }
  pose proof (size_tiled _ _ _ _ _ Ht2) as Hs2. set (off := size w1 - maxSeek) in *.
  assert (section off maxSeek (f_data w2) = section off maxSeek (f_written w2)) as Ebuf.
  { rewrite (ti_data _ _ _ _ _ Ht2). apply section_holed. lia. }
  assert (newline ∈ section off maxSeek (f_data w2)) as Hnl.
  { rewrite Ebuf. apply (line_oriented_app _ (concat (f_appends w2))); [|lia..]. fold (whole w2). by rewrite (gr_whole _ _ H02). }
  assert (Z.of_nat (length (section off maxSeek (f_data w2))) <= maxSeek) as Hlen.
  { rewrite Ebuf, section_take, length_take by lia. lia. }
  apply LastIndexByte_elem in Hnl as (i & Hi & Hil). apply (lwp_eval (Some (section off maxSeek (f_data w2))) w2); [done|].
  destruct (section off maxSeek (f_data w2)) as [|b buf] eqn:E; [done|]. apply lwp_ret. rewrite Hi.
  assert (fits (f_written w2)) as Hf2 by (apply written_fits; by rewrite (gr_whole _ _ H02)). unfold fits in Hf2.
  rewrite int64_id by lia. apply HQ; [done|]. lia.
Qed.

Lemma tiled_rotated w w' t c cut q :
  tiled w c [] c q → valid t → fits (f_written w) → c < cut <= Z.of_nat (length (f_written w)) →
  f_faults w' = [] → f_data w' = f_data w → f_written w' = f_written w → f_uploads w' = f_uploads w →
  f_xattrs w' = <[StdioAttr := Itoa cut]> (<[VirtualFilePrefixWithSeparator +:+ Format t := attr_value c (cut - c)]> (f_xattrs w)) →
  tiled w' c [(VirtualFilePrefixWithSeparator +:+ Format t, c, cut - c)] cut q.
Proof.
  intros [Hf _ [Hq Hc] _ _ _ Ho _ Hd Hu] Hv Hfit Hcut F D W U X. split; rewrite ?D, ?W, ?U; try done.
  - simpl. split_and!; [done|lia|lia].
  - lia.
  - simpl. repeat constructor.
  - apply Forall_singleton. exists (Format t), (Truncate t). split; [apply cut_prefix_app | by apply Parse_Format].
  - intros v ->%list_elem_of_singleton. rewrite X, lookup_insert_ne, lookup_insert_eq by done. done.
  - intros k suffix v. rewrite X. intros [[<- _]|[_ [[<- _]|[_ Hk]]%lookup_insert_Some]]%lookup_insert_Some Hp.
    + done.
    + by left.
    + by specialize (Ho _ _ _ Hk Hp) as ?%not_elem_of_nil.
  - exists (Itoa cut). rewrite X, lookup_insert_eq. split; [done|]. rewrite bool_decide_eq_false_2 by apply Itoa_nonempty.
    unfold parsecurrentOffsetBytes. unfold fits in Hfit. by rewrite Atoi_Itoa by (apply is_int_of; lia).
Qed.

Lemma lwp_GetCurrentOffset (Q : option Z → stdio → Prop) w p vs c q :
  tiled w p vs c q → (∀ w1, grows w w1 → Q (Some c) w1) → lwp GetCurrentOffset Q w.
Proof.
  intros Ht HQ. destruct (ti_offset _ _ _ _ _ Ht) as (v & Hv & Hc). apply lwp_bind, lwp_FGetXattr; [apply Ht|].
  intros w1 H1. rewrite Hv. apply lwp_ret. rewrite Hc. by apply HQ.
Qed.

Lemma doStdioRotate_ok c q w :
  tiled w c [] c q → fits (whole w) → line_oriented (whole w) → (∀ t, t ∈ readings w → valid t) →
  lwp (doStdioRotate rotateSize maxSeek) (λ _ w1, whole w1 = whole w ∧ ∃ vs c', tiled w1 c vs c' q) w.
Proof.
  intros Ht Hfit Hlines Hvalid. apply lwp_bind. eapply lwp_GetCurrentOffset; [done|]. intros w1 H1.
  apply lwp_bind, lwp_syscall; [rewrite (gr_faults _ _ H1); apply Ht|]. intros w2 H2. apply (lwp_eval (Some (size w2)) w2); [done|].
  assert (grows w w2) as H02 by by etrans. pose proof (tiled_grows _ _ _ _ _ _ Ht H02) as Ht2.
  assert (fits (f_written w2)) as Hf2 by (apply written_fits; by rewrite (gr_whole _ _ H02)).
  pose proof (size_tiled _ _ _ _ _ Ht2) as Hs2. pose proof (ti_bounds _ _ _ _ _ Ht2) as [Hq Hc]. unfold fits in Hf2.
  rewrite int64_id by lia. destruct (Z.ltb_spec (size w2 - c) rotateSize); [apply lwp_ret; split; [apply (gr_whole _ _ H02)|by exists [], c]|].
  apply lwp_bind, lwp_attempt. eapply lwp_getCutOffset; [done|by rewrite (gr_whole _ _ H02)..|done|]. intros cut w3 H3 Hcut. simpl.
  apply lwp_bind, lwp_time_Now. intros t w4 Hclock H4. assert (grows w2 w4) as H24 by by etrans.
  assert (valid t) by (apply Hvalid, (gr_clock _ _ H02), (gr_clock _ _ H3), Hclock).
  pose proof (tiled_grows _ _ _ _ _ _ Ht2 H24) as Ht4. assert (grows w w4) as H04 by by etrans.
  assert (fits (f_written w4)) as Hf4 by (apply written_fits; by rewrite (gr_whole _ _ H04)).
  assert (c < cut <= Z.of_nat (length (f_written w4))) as Hcut4.
  { destruct (gr_data _ _ H4) as (bs & _ & W). rewrite W, length_app. lia. }
  rewrite int64_id by (unfold fits in Hf4; lia). set (key := VirtualFilePrefixWithSeparator +:+ Format t).
  apply lwp_bind. unfold FSetXattr. rewrite bool_decide_eq_false_2 by done. apply lwp_syscall; [apply Ht4|]. intros w5 H5.
  apply (lwp_eval (Some tt) (set_xattrs (<[key := attr_value c (cut - c)]> (f_xattrs w5)) w5)); [done|].
  apply lwp_bind, lwp_attempt. rewrite bool_decide_eq_false_2 by done.
  apply lwp_syscall; [simpl; rewrite (gr_faults _ _ H5); apply Ht4|]. intros w6 H6.
  apply (lwp_eval (Some tt) (set_xattrs (<[StdioAttr := Itoa cut]> (f_xattrs w6)) w6)); [done|]. apply lwp_ret.
  assert (grows w (set_xattrs (f_xattrs w4) w6)) as H06.
  { etrans; [exact H04|]. etrans; [exact H5|]. destruct H6 as [(bs & D & W) Hw X U F R]. split; try done; [by exists bs|]. simpl. by rewrite (gr_xattrs _ _ H5). }
  split; [apply (gr_whole _ _ H06)|]. exists [(key, c, cut - c)], cut.
  assert (∃ bs, f_written w6 = f_written w4 ++ bs) as [bs W6].
  { destruct (gr_data _ _ H5) as (bs5 & _ & W5). destruct (gr_data _ _ H6) as (bs6 & _ & W6). simpl in W6. exists (bs5 ++ bs6). by rewrite W6, W5, app_assoc. }
  apply (tiled_rotated (set_xattrs (f_xattrs w4) w6)); try done.
  - by apply (tiled_grows w).
  - simpl. apply written_fits. change (whole w6) with (whole (set_xattrs (f_xattrs w4) w6)). by rewrite (gr_whole _ _ H06).
  - simpl. rewrite W6, length_app. lia.
  - simpl. rewrite (gr_faults _ _ H6). simpl. rewrite (gr_faults _ _ H5). apply Ht4.
  - simpl. rewrite (gr_xattrs _ _ H6). simpl. by rewrite (gr_xattrs _ _ H5).
Qed.

(** ** Rounds *)

Definition normal_round : L unit := stdioRotateFile rotateSize maxSeek blockSize uploadDir uploadThresholdTime false name normalRotate.
Definition final_round : L unit := stdioRotateFile rotateSize maxSeek blockSize uploadDir uploadThresholdTime false name finalUpload.

Lemma lwp_opened (k : L unit) (Q : option unit → stdio → Prop) w p vs c q :
  tiled w p vs c q → (∀ w1, grows w w1 → lwp k Q w1) →
  lwp (is_stdio ← CheckFileForStdio; if is_stdio : bool then _ ← syscall (λ w, (Some tt, w)); k else mret tt) Q w.
Proof.
  intros Ht Hk. destruct (ti_offset _ _ _ _ _ Ht) as (v & Hv & _). apply lwp_bind, lwp_bind, lwp_attempt, lwp_syscall; [apply Ht|].
  intros w1 H1. apply (lwp_eval (Some true) w1); [by rewrite (gr_xattrs _ _ H1), Hv|]. apply lwp_ret. simpl.
  apply lwp_bind, lwp_syscall; [rewrite (gr_faults _ _ H1); apply Ht|]. intros w2 H2. apply (lwp_eval (Some tt) w2); [done|].
  apply Hk. by etrans.
Qed.

Lemma on_time_grows w w1 : on_time w → grows w w1 → on_time w1.
Proof. intros H Hg t Hc. rewrite (gr_xattrs _ _ Hg). apply H. by apply (gr_clock _ _ Hg). Qed.

Lemma normal_round_ok p vs c q w :
  tiled w p vs c q → fits (whole w) → line_oriented (whole w) → on_time w →
  lwp normal_round (λ _ w1, whole w1 = whole w ∧ ∃ p vs c q, tiled w1 p vs c q) w.
Proof.
  intros Ht Hfit Hlines Hon. eapply lwp_opened; [done|]. intros w1 H1. pose proof (tiled_grows _ _ _ _ _ _ Ht H1) as Ht1.
  apply lwp_bind, lwp_attempt. eapply lwp_mono; [eapply doStdioUploadAndReclaim_ok; [done|by rewrite (gr_whole _ _ H1)|]|].
  { intros _. by eapply on_time_grows. }
  intros _ w2 (K2 & q2 & Ht2). apply lwp_bind, lwp_attempt.
  assert (whole w2 = whole w) as Hw2 by (rewrite (ke_whole _ _ K2); apply (gr_whole _ _ H1)).
  eapply lwp_mono; [eapply doStdioRotate_ok; [done|by rewrite Hw2..|]|].
  { intros t Hc. apply Hon, (gr_clock _ _ H1), (ke_clock _ _ K2), Hc. }
  intros _ w3 (Hw3 & vs3 & c3 & Ht3). apply lwp_ret. split; [congruence|eauto].
Qed.

(** What is left when the task has ended is uploaded too. *)
Lemma final_round_ok p vs c q w :
  tiled w p vs c q → fits (whole w) → f_appends w = [] →
  lwp final_round (λ _ w1, f_written w1 = f_written w ∧ concat (f_uploads w1).*2 = f_written w) w.
Proof.
  intros Ht Hfit Hend. assert (whole w = f_written w) as Hww by (unfold whole; rewrite Hend; apply app_nil_r).
  eapply lwp_opened; [done|]. intros w1 H1. pose proof (tiled_grows _ _ _ _ _ _ Ht H1) as Ht1.
  apply lwp_bind, lwp_attempt. eapply lwp_mono; [eapply doStdioUploadAndReclaim_ok; [done|by rewrite (gr_whole _ _ H1)|done]|].
  intros _ w2 (K2 & q2 & Ht2). assert (whole w2 = whole w) as Hw2 by (rewrite (ke_whole _ _ K2); apply (gr_whole _ _ H1)).
  apply lwp_bind, lwp_attempt, lwp_bind, lwp_attempt.
  eapply lwp_mono; [eapply doStdioUploadAndReclaim_ok; [done|by rewrite Hw2|done]|].
  intros _ w3 (K3 & q3 & Ht3). apply lwp_bind. eapply lwp_GetCurrentOffset; [done|]. intros w4 H4.
  pose proof (tiled_grows _ _ _ _ _ _ Ht3 H4) as Ht4. apply lwp_bind, lwp_attempt, lwp_syscall; [apply Ht4|]. intros w5 H5.
  pose proof (tiled_grows _ _ _ _ _ _ Ht4 H5) as Ht5.
  assert (keeps w w5) as [Hw5 _ _ [bs Hbs]].
  { etrans; [by apply grows_keeps|]. etrans; [exact K2|]. etrans; [exact K3|]. etrans; by apply grows_keeps. }
  assert (bs = []) as ->.
  { unfold whole at 1 in Hw5. rewrite Hww, Hbs, <- app_assoc in Hw5. apply (f_equal length) in Hw5. rewrite length_app, length_app in Hw5.
    apply length_zero_iff_nil. lia. }
  rewrite app_nil_r in Hbs. pose proof (ti_bounds _ _ _ _ _ Ht5) as [Hq Hc].
  set (u := f_uploads w5 ++ [(path_Join uploadDir name, section c MaxInt64 (f_data w5))]).
  apply (lwp_eval (Some tt) (set_uploads u w5)); [by rewrite (proj2 (Z.ltb_ge c 0)) by lia|]. apply lwp_ret.
  change (f_written w5 = f_written w ∧ concat u.*2 = f_written w). split; [done|].
  subst u. rewrite fmap_app, concat_app, (ti_uploads _ _ _ _ _ Ht5), (ti_data _ _ _ _ _ Ht5). simpl. rewrite app_nil_r.
  fold (holed q3 (f_written w5)). rewrite section_holed by lia. unfold section.
  rewrite (proj2 (Z.leb_le _ _)), take_drop; [done|]. rewrite length_drop.
  assert (fits (f_written w5)) as Hf by (rewrite Hbs, <- Hww; done). unfold fits, MaxInt64 in *. lia.
Qed.

(** ** Runs *)

(** The next round sees these readings of the clock, and the task writes [appends] meanwhile. *)
Definition arm (appends : list (list ascii)) (now : utc) (clock : list utc) (w : stdio) : stdio :=
  Stdio (f_data w) (f_xattrs w) (f_uploads w) appends (f_faults w) now clock (f_written w).

(** What the task has not written during the round it writes after it. *)
Definition settle (w : stdio) : stdio :=
  Stdio (f_data w ++ concat (f_appends w)) (f_xattrs w) (f_uploads w) [] (f_faults w) (f_now w) (f_clock w) (whole w).

Inductive watched : relation stdio :=
| watched_round w appends now clock :
    on_time (arm appends now clock w) → watched w (settle (normal_round (arm appends now clock w)).2).

Lemma tiled_arm w appends now clock p vs c q : tiled w p vs c q → tiled (arm appends now clock w) p vs c q.
Proof. by intros [? ? ? ? ? ? ? ? ? ?]. Qed.

Lemma tiled_settle w p vs c q : tiled w p vs c q → tiled (settle w) p vs c q.
Proof.
  intros [Hf Ht [Hq Hc] Hs Hn Ha Ho Hoff Hd Hu]. pose proof (tiles_le _ _ _ Ht). unfold settle, whole. split; try done; simpl.
  - rewrite length_app. lia.
  - rewrite Hd, drop_app_le by lia. by rewrite app_assoc.
  - rewrite take_app_le by lia. done.
Qed.

(** Whatever happens, bytes that are to be written are written, in order. *)
Definition keeps_whole {A} (m : L A) : Prop := ∀ w, whole (m w).2 = whole w.

Lemma keeps_whole_bind {A B} (m : L A) (f : A → L B) : keeps_whole m → (∀ a, keeps_whole (f a)) → keeps_whole (m ≫= f).
Proof. intros Hm Hf w. specialize (Hm w). unfold mbind, L_bind. destruct (m w) as [[a|] w1]; simpl in *; [|done]. by rewrite Hf. Qed.

Lemma keeps_whole_attempt {A} (m : L A) : keeps_whole m → keeps_whole (attempt m).
Proof. intros Hm w. specialize (Hm w). unfold attempt. by destruct (m w). Qed.

Lemma keeps_whole_syscall {A} (f : stdio → option A * stdio) : (∀ w, whole (f w).2 = whole w) → keeps_whole (syscall f).
Proof.
  intros Hf w. unfold syscall. pose proof (gr_whole _ _ (grows_append_next w)) as H.
  destruct (f_faults (append_next w)) as [|[] fs]; [by rewrite Hf|done|by rewrite Hf].
Qed.

Lemma keeps_whole_time_Now : keeps_whole time_Now.
Proof. intros w. unfold time_Now. by destruct (f_clock w). Qed.

Lemma keeps_whole_FGetXattr key : keeps_whole (FGetXattr key).
Proof. by apply keeps_whole_syscall. Qed.

Lemma keeps_whole_FSetXattr key v : keeps_whole (FSetXattr key v).
Proof. unfold FSetXattr. case_bool_decide; [done|]. by apply keeps_whole_syscall. Qed.

Lemma keeps_whole_FDelXattr key : keeps_whole (FDelXattr key).
Proof. unfold FDelXattr. case_bool_decide; [done|]. apply keeps_whole_syscall. intros w. by destruct (f_xattrs w !! key). Qed.

Lemma keeps_whole_MakeHole start len : keeps_whole (MakeHole blockSize start len).
Proof. unfold MakeHole. destruct (newStartAndLength _ _ _). apply keeps_whole_syscall. intros w. by destruct (_ || _). Qed.

Lemma keeps_whole_UploadPartOfFile start len remote : keeps_whole (UploadPartOfFile start len remote).
Proof. apply keeps_whole_syscall. intros w. by destruct (start <? 0). Qed.

Lemma keeps_whole_FetchStartAndLen key : keeps_whole (FetchStartAndLen key).
Proof.
  apply keeps_whole_bind; [apply keeps_whole_FGetXattr|]. intros v. destruct (strings_Split v ",") as [|a [|b [|]]]; try done.
  apply keeps_whole_bind; [by destruct (Atoi a)|]. intros start. apply keeps_whole_bind; [by destruct (Atoi b)|done].
Qed.

Lemma keeps_whole_virtualFile keep mode start len key suffix :
  keeps_whole (doStdioUploadAndReclaimVirtualFile blockSize uploadDir uploadThresholdTime keep name mode start len key suffix).
Proof.
  apply keeps_whole_bind; [by destruct (Parse suffix)|]. intros t. apply keeps_whole_bind; [apply keeps_whole_time_Now|]. intros now.
  destruct (match mode with normalRotate => _ | finalUpload => _ end); [done|].
  apply keeps_whole_bind; [apply keeps_whole_attempt, keeps_whole_UploadPartOfFile|]. intros _. destruct keep; [done|].
  apply keeps_whole_bind; [apply keeps_whole_attempt, keeps_whole_FDelXattr|]. intros _.
  apply keeps_whole_bind; [apply keeps_whole_attempt, keeps_whole_MakeHole|done].
Qed.

Lemma keeps_whole_steps keep mode keys : keeps_whole (virtualFile_steps blockSize uploadDir uploadThresholdTime keep name mode keys).
Proof.
  induction keys as [|k keys IH]; [done|]. apply keeps_whole_bind; [|done].
  unfold virtualFile_step. destruct (cut_prefix _ k) as [suffix|]; [|done].
  apply keeps_whole_bind; [apply keeps_whole_attempt, keeps_whole_FetchStartAndLen|]. intros [x|]; [|done].
  apply keeps_whole_bind; [apply keeps_whole_attempt, keeps_whole_virtualFile|done].
Qed.

Lemma keeps_whole_rotate : keeps_whole (doStdioRotate rotateSize maxSeek).
Proof.
  apply keeps_whole_bind; [apply keeps_whole_bind; [apply keeps_whole_FGetXattr|done]|]. intros c.
  apply keeps_whole_bind; [by apply keeps_whole_syscall|]. intros n. destruct (_ <? _); [done|].
  apply keeps_whole_bind.
  - apply keeps_whole_attempt, keeps_whole_bind; [by apply keeps_whole_syscall|]. intros off.
    apply keeps_whole_bind; [by apply keeps_whole_syscall|]. by intros [].
  - intros o. apply keeps_whole_bind; [apply keeps_whole_time_Now|]. intros now.
    apply keeps_whole_bind; [apply keeps_whole_FSetXattr|]. intros _.
    apply keeps_whole_bind; [apply keeps_whole_attempt, keeps_whole_FSetXattr|]. intros [|]; [done|].
    apply keeps_whole_bind; [apply keeps_whole_attempt, keeps_whole_FDelXattr|done].
Qed.

Lemma keeps_whole_normal_round : keeps_whole normal_round.
Proof.
  apply keeps_whole_bind; [apply keeps_whole_bind; [by apply keeps_whole_attempt, keeps_whole_syscall|done]|]. intros [|]; [|done].
  apply keeps_whole_bind; [by apply keeps_whole_syscall|]. intros _. apply keeps_whole_bind.
  - apply keeps_whole_attempt, keeps_whole_bind; [by apply keeps_whole_syscall|]. intros l. apply keeps_whole_steps.
  - intros _. apply keeps_whole_bind; [apply keeps_whole_attempt, keeps_whole_rotate|done].
Qed.

Lemma watched_written w w1 : watched w w1 → f_written w `prefix_of` f_written w1.
Proof.
  intros [w0 appends now clock _]. change (f_written (settle ?x)) with (whole x). rewrite keeps_whole_normal_round. unfold whole. simpl. by eexists.
Qed.

Lemma line_oriented_prefix d d' : d `prefix_of` d' → line_oriented d' → line_oriented d.
Proof. intros [bs ->]. apply line_oriented_app. Qed.

Lemma fits_prefix d d' : d `prefix_of` d' → fits d' → fits d.
Proof. intros [bs ->]. unfold fits. rewrite length_app. lia. Qed.

Lemma watched_tiled w w1 p vs c q :
  rtc watched w w1 → tiled w p vs c q → fits (f_written w1) → line_oriented (f_written w1) → ∃ p vs c q, tiled w1 p vs c q.
Proof.
  intros Hrun. revert p vs c q. induction Hrun as [w|w w' w1 Hstep Hrun IH]; intros p vs c q Ht Hfit Hlines; [eauto|].
  assert (f_written w' `prefix_of` f_written w1) as Hpre.
  { clear -Hrun. induction Hrun as [|x y z Hxy _ IH]; [done|]. etrans; [by apply watched_written|done]. }
  destruct Hstep as [w appends now clock Hon]. set (wa := arm appends now clock w) in *.
  change (f_written (settle (normal_round wa).2)) with (whole (normal_round wa).2) in Hpre. rewrite keeps_whole_normal_round in Hpre.
  pose proof (normal_round_ok _ _ _ _ wa (tiled_arm _ appends now clock _ _ _ _ Ht) (fits_prefix _ _ Hpre Hfit)
    (line_oriented_prefix _ _ Hpre Hlines) Hon) as [_ (p' & vs' & c' & q' & Ht')].
  eapply IH; [by apply tiled_settle|done|done].
Qed.
End Rounds.


(** ** Runs on a small file *)

Definition bytes (s : string) : list ascii := String.list_ascii_of_string s.
Definition line (s : string) : list ascii := bytes s ++ [newline].

(** A file as it is handed to the task. *)
Definition new_file : stdio := Stdio [] {[StdioAttr := ""]} [] [] [] (Utc 2020 1 31 23 50 0 0) [] [].

Lemma new_file_tiled : tiled new_file 0 [] 0 0.
Proof.
  split; try done.
  - constructor.
  - intros v ?%not_elem_of_nil. done.
  - intros k suffix v Hk. change (f_xattrs new_file) with ({[StdioAttr := ""]} : gmap string string) in Hk.
    by apply lookup_singleton_Some in Hk as [<- _].
  - by exists "".
Qed.

Definition minute : Z := 60 * 1000000000.

(** Rotation at 8 bytes, lines of at most 7, blocks of 2, a threshold of a minute. *)
Definition small_round (t : utc) (bs : list ascii) (w : stdio) : stdio :=
  settle (normal_round 8 7 2 "logs" minute "stdout" (arm [bs] t [] w)).2.
Definition small_final (t : utc) (w : stdio) : stdio := (final_round 8 7 2 "logs" minute "stdout" (arm [] t [] w)).2.

Definition at_23_50 (s : Z) : utc := Utc 2020 1 31 23 50 s 0.

Definition after_one : stdio := small_round (at_23_50 0) (line "one" ++ line "two" ++ bytes "thr") new_file.
Definition after_two : stdio := small_round (at_23_50 20) (line "six" ++ bytes "se") after_one.
Definition after_rounds : stdio := small_round (at_23_50 40) (bytes "ven") after_two.

Definition young (uploadThresholdTime : Z) (t : utc) (k v : string) : Prop :=
  match cut_prefix VirtualFilePrefixWithSeparator k ≫= Parse with
  | Some t0 => Sub t t0 <= uploadThresholdTime
  | None => True
  end.

#[export] Instance young_dec uploadThresholdTime t k v : Decision (young uploadThresholdTime t k v).
Proof. unfold young. destruct (_ ≫= _); apply _. Defined.

Lemma on_time_intro uploadThresholdTime w :
  Forall (λ t, valid t ∧ map_Forall (young uploadThresholdTime t) (f_xattrs w)) (readings w) → on_time uploadThresholdTime w.
Proof.
  rewrite Forall_forall. intros H t Ht. destruct (H t Ht) as [Hv Hm]. split; [done|]. intros k v suffix t0 Hk Hc Hp.
  specialize (Hm k v Hk). unfold young in Hm. rewrite Hc in Hm. simpl in Hm. by rewrite Hp in Hm.
Qed.

Lemma small_watched t bs w :
  Forall (λ t, valid t ∧ map_Forall (young minute t) (f_xattrs w)) [t] → watched 8 7 2 "logs" minute "stdout" w (small_round t bs w).
Proof. intros H. apply (watched_round _ _ _ _ _ _ w [bs] t []). by apply on_time_intro. Qed.

Lemma line_oriented_check maxSeek d :
  Forall (λ i, newline ∈ section i maxSeek d) (seqZ 0 (Z.of_nat (length d) - maxSeek + 1)) → line_oriented maxSeek d.
Proof. rewrite Forall_forall. intros H i Hi Hd. apply H, elem_of_seqZ. lia. Qed.

Ltac computes := apply (bool_decide_unpack _); vm_compute; exact I.


Definition zeros (n : nat) : list ascii := replicate n "000"%char.

(** A virtual file that is older than the threshold is skipped, and what it held is lost in the hole
    behind the next one. *)
Example old_file_lost :
  f_uploads (small_final (Utc 2020 1 31 23 56 0 0) (small_round (Utc 2020 1 31 23 55 30 0) [] (small_round (Utc 2020 1 31 23 55 0 0) (line "three" ++ line "four")
    (small_round (at_23_50 0) (line "one" ++ line "two") new_file)))) =
  [("logs/stdout.31012020_235500", line "three" ++ line "four"); ("logs/stdout.31012020_235000", zeros 8); ("logs/stdout", [])].
Proof. vm_compute. reflexivity. Qed.

(** Listing the attributes fails in the second round, so that two virtual files are left; the first day
    of a month sorts before the last day of the one before. *)
Example month_end_lost :
  let w1 := small_round (Utc 2020 1 31 23 59 50 0) (line "one" ++ line "two") new_file in
  let w2 := small_round (Utc 2020 2 1 0 0 10 0) (line "three" ++ line "four") (set_file_faults [false; false; true] w1) in
  f_uploads (small_round (Utc 2020 2 1 0 0 30 0) [] w2) =
  [("logs/stdout.01022020_000010", line "three" ++ line "four"); ("logs/stdout.31012020_235950", zeros 8)].
Proof. vm_compute. reflexivity. Qed.

(** Without a line break in reach the virtual file gets a negative length, and what was uploaded is
    uploaded again. *)
Example no_newline_rotates_to_start :
  let w1 := small_round (at_23_50 20) [] (small_round (at_23_50 0) (line "one" ++ line "two" ++ bytes "a line that is too long") new_file) in
  let w2 := small_round (at_23_50 40) (bytes "!") w1 in
  f_xattrs w2 !! StdioAttr = Some "0".
Proof. vm_compute. reflexivity. Qed.
