(* ===== verification/LogFiles.v ===== *)
(** * LogFiles: which log files are uploaded

    The part of [filesystems/watcher.go] that uploads whole files: the regular
    expressions a file name is compared with ([CheckFileForRotation]), the list of the
    files of a directory ([buildFileListInDir]), and the two loops over it
    ([traditionalRotate] while the task runs, [uploadAllLogFiles] when it has ended).

    A regular expression is matched as Go's package [regexp] does, anywhere in the
    name; the model has names of single-byte characters.  The user's own expression
    is an argument.  A file is named by its path below the log directory. *)
From S2P Require Import Prelude LogWatcher.

Open Scope string_scope.
Open Scope Z_scope.
Open Scope list_scope.

(** ** Regular expressions *)

Inductive regex :=
| Nothing
| Empty
| Class (p : ascii → bool)
| Cat (r s : regex)
| Alt (r s : regex)
| Star (r : regex).

Definition Plus (r : regex) : regex := Cat r (Star r).

Inductive matches : regex → list ascii → Prop :=
| m_empty : matches Empty []
| m_class p c : p c = true → matches (Class p) [c]
| m_cat r s l1 l2 : matches r l1 → matches s l2 → matches (Cat r s) (l1 ++ l2)
| m_alt_l r s l : matches r l → matches (Alt r s) l
| m_alt_r r s l : matches s l → matches (Alt r s) l
| m_star_nil r : matches (Star r) []
| m_star_app r l1 l2 : matches r l1 → matches (Star r) l2 → matches (Star r) (l1 ++ l2).

Fixpoint nullable (r : regex) : bool :=
  match r with
  | Nothing | Class _ => false
  | Empty | Star _ => true
  | Cat r s => nullable r && nullable s
  | Alt r s => nullable r || nullable s
  end.

Fixpoint deriv (c : ascii) (r : regex) : regex :=
  match r with
  | Nothing | Empty => Nothing
  | Class p => if p c then Empty else Nothing
  | Cat r s => if nullable r then Alt (Cat (deriv c r) s) (deriv c s) else Cat (deriv c r) s
  | Alt r s => Alt (deriv c r) (deriv c s)
  | Star r => Cat (deriv c r) (Star r)
  end.

(** An expression, and whether it ends with [$]. *)
Record regexp := Regexp { re_body : regex; re_end : bool }.

(** Some beginning of the text matches, all of it before [$]. *)
Fixpoint match_here (r : regex) (anchored : bool) (s : list ascii) : bool :=
  (nullable r && (negb anchored || bool_decide (s = []))) ||
  match s with
  | [] => false
  | c :: s => match_here (deriv c r) anchored s
  end.

Fixpoint match_anywhere (r : regexp) (s : list ascii) : bool :=
  match_here (re_body r) (re_end r) s ||
  match s with
  | [] => false
  | _ :: s => match_anywhere r s
  end.

(** ** The default expressions *)

Definition is_char (c : ascii) : regex := Class (λ x, bool_decide (x = c)).

Fixpoint literal (s : string) : regex :=
  match s with
  | EmptyString => Empty
  | String c s => Cat (is_char c) (literal s)
  end.

Definition digit_class (c : ascii) : bool := bool_decide (is_Some (digit c)).
Definition any : regex := Class (λ c, negb (bool_decide (c = "010"%char))).
(** [\S] *)
Definition no_space : regex := Class (λ c, negb (bool_decide (c ∈ ["009"; "010"; "012"; "013"; " "]%char))).

Definition defaultUploadRegexpList : list regexp := [
  Regexp (literal ".complete") true;
  Regexp (Cat (literal "stdout") (Cat any (Plus (Class (λ c, digit_class c || bool_decide (c ∈ ["_"; "."]%char)))))) true;
  Regexp (Cat (literal "stderr") (Cat any (Plus (Class (λ c, digit_class c || bool_decide (c ∈ ["_"; "."]%char)))))) true;
  Regexp (Cat (Plus (Class (λ c, digit_class c || bool_decide (c ∈ ["-"; "_"]%char)))) (Cat any (literal "log"))) false;
  Regexp (Cat (Plus no_space) (Cat (literal ".core.") (Cat (Plus (Class digit_class)) (Cat (literal ".") (Plus (Class digit_class)))))) false
].

Definition MatchString (r : regexp) (name : string) : bool := match_anywhere r (String.list_ascii_of_string name).

(** ** Files *)

Definition path : Type := list string.

Definition Base (p : path) : string := default "." (last p).

(** An entry of a directory; [age] is the time since a file was modified, and a directory that
    cannot be read has no entries. *)
Inductive node :=
| Plain (name : string) (age : Z)
| Symlink (name : string)
| Directory (name : string) (entries : option (list node)).

Definition node_name (n : node) : string :=
  match n with Plain name _ | Symlink name | Directory name _ => name end.

Section Files.
(** Whether a path has the attribute of stdio files: below the log directory, and, for a bare name,
    below the working directory of the executor. *)
Context (is_stdio : path → bool) (cwd_is_stdio : string → bool).
Context (uploadRegexp : option (string → bool)) (uploadThresholdTime : Z) (keepFileAfterUpload : bool).

Definition CheckFileForRotation (name : string) : bool :=
  match uploadRegexp with Some m => m name | None => false end ||
  existsb (λ r, MatchString r name) defaultUploadRegexpList.

Definition isFileModifiedAfterThreshold (age : Z) : bool := uploadThresholdTime <? age.

(** [CheckFileForStdio] gets the bare name. *)
Definition shouldIgnoreFile (checkModifiedTimeThreshold : bool) (n : node) : bool :=
  match n with
  | Symlink _ => true
  | Plain name age =>
      checkModifiedTimeThreshold && isFileModifiedAfterThreshold age ||
      bool_decide (name ∈ PotentialStdioNames) && cwd_is_stdio name
  | Directory name _ => bool_decide (name ∈ PotentialStdioNames) && cwd_is_stdio name
  end.

(** The entries of one directory; [sub] is the call for a directory below it. *)
Definition add_entry (check : bool) (sub : node → path → list path → option (list path)) (dir : path)
    (n : node) (result : list path) : option (list path) :=
  if shouldIgnoreFile check n then Some result
  else match n with
       | Plain name _ => Some (result ++ [dir ++ [name]])
       | _ => sub n (dir ++ [node_name n]) result
       end.

Fixpoint buildFileListInDir2 (check : bool) (n : node) (dir : path) (result : list path) : option (list path) :=
  match n with
  | Directory _ (Some entries) =>
      (fix add_entries (l : list node) (result : list path) : option (list path) :=
         match l with
         | [] => Some result
         | n :: l => result ← add_entry check (buildFileListInDir2 check) dir n result; add_entries l result
         end) entries result
  | _ => None
  end.

Definition buildFileListInDir (check : bool) (localDir : option (list node)) : option (list path) :=
  buildFileListInDir2 check (Directory "" localDir) [] [].

(** ** Uploading *)

(** What was uploaded and what was removed. *)
Record outcome := Outcome { o_uploaded : list path; o_removed : list path }.

(** Which uploads and removals succeed. *)
Context (upload_ok remove_ok : path → bool).

Definition uploadLogfile (fileToUpload : path) (o : outcome) : outcome :=
  if CheckFileForRotation (Base fileToUpload) then
    let o := if upload_ok fileToUpload then Outcome (o_uploaded o ++ [fileToUpload]) (o_removed o) else o in
    if keepFileAfterUpload then o
    else if remove_ok fileToUpload then Outcome (o_uploaded o) (o_removed o ++ [fileToUpload]) else o
  else o.

Definition traditionalRotate (localDir : option (list node)) (o : outcome) : outcome :=
  match buildFileListInDir true localDir with
  | Some logFileList => foldl (λ o f, uploadLogfile f o) o logFileList
  | None => o
  end.

(** The errors are the context's and those of uploads; [ctx] says before which file the context is
    over. *)
Fixpoint uploadFiles (ctx : list bool) (l : list path) (o : outcome) (errs : nat) : outcome * nat :=
  match l with
  | [] => (o, errs)
  | f :: l =>
      if default false (head ctx) then (o, S errs)
      else if is_stdio f then uploadFiles (tail ctx) l o errs
      else if upload_ok f then uploadFiles (tail ctx) l (Outcome (o_uploaded o ++ [f]) (o_removed o)) errs
      else uploadFiles (tail ctx) l o (S errs)
  end.

Definition uploadAllLogFiles (ctx : list bool) (localDir : option (list node)) (o : outcome) : outcome * option nat :=
  match buildFileListInDir false localDir with
  | None => (o, None)
  | Some l => let '(o, errs) := uploadFiles ctx l o 0 in (o, Some errs)
  end.
End Files.

(** ** Matching is what the expressions mean *)

Lemma matches_inv r l : matches r l →
  match r with
  | Nothing => False
  | Empty => l = []
  | Class p => ∃ c, l = [c] ∧ p c = true
  | Cat r s => ∃ l1 l2, l = l1 ++ l2 ∧ matches r l1 ∧ matches s l2
  | Alt r s => matches r l ∨ matches s l
  | Star r => l = [] ∨ ∃ l1 l2, l = l1 ++ l2 ∧ matches r l1 ∧ matches (Star r) l2
  end.
Proof. destruct 1; naive_solver. Qed.

Lemma nullable_spec r : nullable r = true ↔ matches r [].
Proof.
  induction r as [| |p|r IHr s IHs|r IHr s IHs|r IHr]; simpl.
  - split; [done|]. by intros ?%matches_inv.
  - split; [constructor|done].
  - split; [done|]. by intros (c & ? & _)%matches_inv.
  - rewrite andb_true_iff, IHr, IHs. split.
    + intros [? ?]. by apply (m_cat r s [] []).
    + intros (l1 & l2 & E & ? & ?)%matches_inv. symmetry in E. by apply app_nil in E as [-> ->].
  - rewrite orb_true_iff, IHr, IHs. split; [intros [?|?]; by constructor | by intros ?%matches_inv].
  - split; [constructor|done].
Qed.

(** The first character of a repetition is one of its body. *)
Lemma matches_star_cons r c l : matches (Star r) (c :: l) → ∃ l1 l2, l = l1 ++ l2 ∧ matches r (c :: l1) ∧ matches (Star r) l2.
Proof.
  intros H. remember (Star r) as sr eqn:E. remember (c :: l) as cl eqn:El. revert E El.
  induction H as [| | | | | |r0 l1 l2 H1 _ H2 IH2]; intros E El; simplify_eq/=.
  destruct l1 as [|x l1]; simpl in El; simplify_eq/=.
  - by apply IH2.
  - by exists l1, l2.
Qed.

Lemma deriv_spec c r l : matches (deriv c r) l ↔ matches r (c :: l).
Proof.
  revert l. induction r as [| |p|r IHr s IHs|r IHr s IHs|r IHr]; intros l; simpl.
  - split; by intros ?%matches_inv.
  - split; by intros ?%matches_inv.
  - destruct (p c) eqn:E.
    + split; [intros ->%matches_inv; by constructor | intros (? & [= -> ->] & _)%matches_inv; constructor].
    + split; [by intros ?%matches_inv | intros (? & [= -> ->] & ?)%matches_inv; congruence].
  - assert (matches (Cat (deriv c r) s) l ↔ ∃ l1 l2, l = l1 ++ l2 ∧ matches r (c :: l1) ∧ matches s l2) as Hcat.
    { split.
      - intros (l1 & l2 & -> & H1%IHr & H2)%matches_inv. by exists l1, l2.
      - intros (l1 & l2 & -> & H1%IHr & H2). by constructor. }
    assert (matches (Cat r s) (c :: l) ↔ (∃ l1 l2, l = l1 ++ l2 ∧ matches r (c :: l1) ∧ matches s l2) ∨ (matches r [] ∧ matches s (c :: l))) as Hsplit.
    { split.
      - intros ([|x l1] & l2 & E & H1 & H2)%matches_inv; simplify_eq/=; [by right|]. left. by exists l1, l2.
      - intros [(l1 & l2 & -> & H1 & H2)|[H1 H2]]; [by apply (m_cat r s (c :: l1) l2) | by apply (m_cat r s [] (c :: l))]. }
    rewrite Hsplit, <- Hcat, <- nullable_spec. destruct (nullable r).
    + rewrite <- IHs. split; [intros ?%matches_inv; naive_solver | intros [?|[_ ?]]; by constructor].
    + naive_solver.
  - split; intros [H|H]%matches_inv; [apply m_alt_l|apply m_alt_r|apply m_alt_l|apply m_alt_r]; by (apply IHr || apply IHs).
  - split.
    + intros (l1 & l2 & -> & H1%IHr & H2)%matches_inv. by apply (m_star_app r (c :: l1) l2).
    + intros (l1 & l2 & -> & H1%IHr & H2)%matches_star_cons. by constructor.
Qed.

Lemma match_here_spec r anchored l :
  match_here r anchored l = true ↔ ∃ l1 l2, l = l1 ++ l2 ∧ matches r l1 ∧ (anchored = true → l2 = []).
Proof.
  revert r. induction l as [|c l IH]; intros r; simpl; rewrite orb_true_iff, andb_true_iff, nullable_spec.
  - split.
    + intros [[H _]|?]; [|done]. by exists [], [].
    + intros (l1 & l2 & E & H & _). symmetry in E. apply app_nil in E as [-> ->]. left. split; [done|]. by rewrite orb_true_r.
  - rewrite IH. split.
    + intros [[H Ha]|(l1 & l2 & -> & H%deriv_spec & Ha)]; [|by exists (c :: l1), l2].
      exists [], (c :: l). split_and!; [done|done|]. intros ->. done.
    + intros ([|x l1] & l2 & E & H & Ha); simplify_eq/=.
      * left. split; [done|]. destruct anchored; [by specialize (Ha eq_refl)|done].
      * right. exists l1, l2. by rewrite deriv_spec.
Qed.

(** A part of the text matches, at its end before [$]. *)
Definition found (r : regexp) (l : list ascii) : Prop :=
  ∃ before part after, l = before ++ part ++ after ∧ matches (re_body r) part ∧ (re_end r = true → after = []).

#[local] Arguments match_here : simpl never.

Lemma match_anywhere_spec r l : match_anywhere r l = true ↔ found r l.
Proof.
  induction l as [|c l IH]; simpl; rewrite orb_true_iff, match_here_spec.
  - split.
    + intros [(l1 & l2 & E & H & Ha)|?]; [|done]. exists [], l1, l2. split; [exact E|done].
    + intros ([|] & l1 & l2 & E & H & Ha); [|done]. left. by exists l1, l2.
  - rewrite IH. split.
    + intros [(l1 & l2 & -> & H & Ha)|(b & l1 & l2 & -> & H & Ha)]; [by exists [], l1, l2 | by exists (c :: b), l1, l2].
    + intros ([|x b] & l1 & l2 & E & H & Ha); simplify_eq/=; [left; by exists l1, l2 | right; by exists b, l1, l2].
Qed.

(** *** The names that the default expressions match *)

Abbreviation chars := String.list_ascii_of_string.

Lemma matches_cat r s l : matches (Cat r s) l ↔ ∃ l1 l2, l = l1 ++ l2 ∧ matches r l1 ∧ matches s l2.
Proof. split; [apply matches_inv|]. intros (l1 & l2 & -> & H1 & H2). by constructor. Qed.

Lemma matches_class p l : matches (Class p) l ↔ ∃ c, l = [c] ∧ p c = true.
Proof. split; [apply matches_inv|]. intros (c & -> & H). by constructor. Qed.

Lemma matches_literal s l : matches (literal s) l ↔ l = chars s.
Proof.
  revert l. induction s as [|c s IH]; intros l; simpl.
  - split; [apply matches_inv|]. intros ->. constructor.
  - rewrite matches_cat. setoid_rewrite matches_class. setoid_rewrite IH. setoid_rewrite bool_decide_eq_true. naive_solver.
Qed.

Lemma matches_star_class p l : matches (Star (Class p)) l ↔ Forall (λ c, p c = true) l.
Proof.
  split.
  - induction l as [|c l IH]; [done|]. intros (l1 & l2 & -> & (? & [= -> ->] & H1)%matches_inv & H2)%matches_star_cons.
    constructor; [done|]. by apply IH.
  - induction 1 as [|c l Hc Hl IH]; [constructor|]. apply (m_star_app _ [c]); [by constructor|done].
Qed.

Lemma matches_plus_class p l : matches (Plus (Class p)) l ↔ ∃ c l', l = c :: l' ∧ Forall (λ c, p c = true) l.
Proof.
  unfold Plus. rewrite matches_cat. setoid_rewrite matches_class. setoid_rewrite matches_star_class. split.
  - intros (? & l2 & -> & (c & -> & Hc) & Hl). exists c, l2. split; [done|]. by constructor.
  - intros (c & l' & -> & [Hc Hl]%Forall_cons). exists [c], l'. eauto.
Qed.

Definition in_class (class : string) (c : ascii) : Prop := c ∈ chars class.

#[export] Instance in_class_dec class c : Decision (in_class class c).
Proof. unfold in_class. apply _. Defined.

(** A name that ends with [.complete]; one that ends with [stdout] or [stderr], some character and a number
    or a date; one in which a digit, a hyphen or an underscore comes two characters before [log]; and
    the name of a core file: something, [core], a number and a number. *)
Inductive default_name : list ascii → Prop :=
| dn_complete before : default_name (before ++ chars ".complete")
| dn_stdio before name c date :
    name = "stdout" ∨ name = "stderr" → c ≠ "010"%char → date ≠ [] → Forall (in_class "0123456789_.") date →
    default_name (before ++ chars name ++ c :: date)
| dn_log before c c' after :
    in_class "0123456789-_" c → c' ≠ "010"%char → default_name (before ++ c :: c' :: chars "log" ++ after)
| dn_core before c n c' after :
    c ∉ ["009"; "010"; "012"; "013"; " "]%char → n ≠ [] → Forall (in_class "0123456789") n → in_class "0123456789" c' →
    default_name (before ++ c :: chars ".core." ++ n ++ chars "." ++ c' :: after).

Lemma class_date c : digit_class c || bool_decide (c ∈ ["_"; "."]%char) = bool_decide (in_class "0123456789_." c).
Proof. by destruct c as [[] [] [] [] [] [] [] []]; vm_compute. Qed.

Lemma class_log c : digit_class c || bool_decide (c ∈ ["-"; "_"]%char) = bool_decide (in_class "0123456789-_" c).
Proof. by destruct c as [[] [] [] [] [] [] [] []]; vm_compute. Qed.

Lemma class_digit c : digit_class c = bool_decide (in_class "0123456789" c).
Proof. by destruct c as [[] [] [] [] [] [] [] []]; vm_compute. Qed.

Lemma matches_plus p P l : (∀ c, p c = bool_decide (in_class P c)) →
  matches (Plus (Class p)) l ↔ ∃ c l', l = c :: l' ∧ Forall (in_class P) l.
Proof.
  intros Hp. rewrite matches_plus_class.
  assert (Forall (λ c, p c = true) l ↔ Forall (in_class P) l) as H; [|naive_solver].
  rewrite !Forall_forall. split; intros H c Hc; specialize (H c Hc); rewrite Hp, bool_decide_eq_true in *; done.
Qed.

Lemma matches_date l : matches (Plus (Class (λ c, digit_class c || bool_decide (c ∈ ["_"; "."]%char)))) l ↔ ∃ c l', l = c :: l' ∧ Forall (in_class "0123456789_.") l.
Proof. apply matches_plus, class_date. Qed.

Lemma matches_before_log l : matches (Plus (Class (λ c, digit_class c || bool_decide (c ∈ ["-"; "_"]%char)))) l ↔ ∃ c l', l = c :: l' ∧ Forall (in_class "0123456789-_") l.
Proof. apply matches_plus, class_log. Qed.

Lemma matches_number l : matches (Plus (Class digit_class)) l ↔ ∃ c l', l = c :: l' ∧ Forall (in_class "0123456789") l.
Proof. apply matches_plus, class_digit. Qed.

Lemma matches_any l : matches any l ↔ ∃ c, l = [c] ∧ c ≠ "010"%char.
Proof. unfold any. rewrite matches_class. setoid_rewrite negb_true_iff. by setoid_rewrite bool_decide_eq_false. Qed.

Lemma matches_spaceless l :
  matches (Plus no_space) l ↔ ∃ c l', l = c :: l' ∧ Forall (λ c, c ∉ ["009"; "010"; "012"; "013"; " "]%char) l.
Proof.
  unfold no_space. rewrite matches_plus_class.
  assert (Forall (λ c, negb (bool_decide (c ∈ ["009"; "010"; "012"; "013"; " "]%char)) = true) l ↔
          Forall (λ c, c ∉ ["009"; "010"; "012"; "013"; " "]%char) l) as H; [|naive_solver].
  rewrite !Forall_forall. split; intros H c Hc; specialize (H c Hc); rewrite negb_true_iff, bool_decide_eq_false in *; done.
Qed.

#[local] Opaque Plus literal.

Lemma found_complete l : found (Regexp (literal ".complete") true) l ↔ ∃ before, l = before ++ chars ".complete".
Proof.
  unfold found. setoid_rewrite matches_literal. split.
  - intros (before & part & after & -> & -> & Ha). exists before. by rewrite (Ha eq_refl), app_nil_r.
  - intros [before ->]. by exists before, (chars ".complete"), [].
Qed.

Lemma found_stdio name l :
  found (Regexp (Cat (literal name) (Cat any (Plus (Class (λ c, digit_class c || bool_decide (c ∈ ["_"; "."]%char)))))) true) l ↔
  ∃ before c date, l = before ++ chars name ++ c :: date ∧ c ≠ "010"%char ∧ date ≠ [] ∧ Forall (in_class "0123456789_.") date.
Proof.
  unfold found. cbn [re_body re_end]. repeat setoid_rewrite matches_cat. setoid_rewrite matches_literal.
  setoid_rewrite matches_any. setoid_rewrite matches_date. split.
  - intros (before & ? & after & -> & (? & ? & -> & -> & ? & date & -> & (c & -> & Hc) & c' & date' & -> & Hd) & Ha).
    exists before, c, (c' :: date'). by rewrite (Ha eq_refl), app_nil_r.
  - intros (before & c & [|c' date] & -> & Hc & Hd & Hall); [done|].
    exists before, (chars name ++ c :: c' :: date), []. rewrite app_nil_r. split_and!; [done| |done].
    exists (chars name), (c :: c' :: date). split_and!; [done|done|]. exists [c], (c' :: date). split_and!; [done|by exists c|by exists c', date].
Qed.

Lemma found_log l :
  found (Regexp (Cat (Plus (Class (λ c, digit_class c || bool_decide (c ∈ ["-"; "_"]%char)))) (Cat any (literal "log"))) false) l ↔
  ∃ before c c' after, l = before ++ c :: c' :: chars "log" ++ after ∧ in_class "0123456789-_" c ∧ c' ≠ "010"%char.
Proof.
  unfold found. cbn [re_body re_end]. repeat setoid_rewrite matches_cat. setoid_rewrite matches_literal.
  setoid_rewrite matches_any. setoid_rewrite matches_before_log. split.
  - intros (before & ? & after & -> & (? & ? & -> & (c0 & l' & -> & Hall) & ? & ? & -> & (c' & -> & Hc') & ->) & _).
    destruct (exists_last (l := c0 :: l') ltac:(done)) as (l0 & c & E). rewrite E in Hall |- *.
    apply Forall_app in Hall as [_ [Hc _]%Forall_cons]. exists (before ++ l0), c, c', after. by rewrite <- !app_assoc.
  - intros (before & c & c' & after & -> & Hc & Hc'). exists before, (c :: c' :: chars "log"), after. split_and!; [done| |done].
    exists [c], (c' :: chars "log"). split_and!; [done|exists c, []; split; [done|by constructor]|].
    exists [c'], (chars "log"). split_and!; [done|by exists c'|done].
Qed.

Lemma found_core l :
  found (Regexp (Cat (Plus no_space) (Cat (literal ".core.") (Cat (Plus (Class digit_class)) (Cat (literal ".") (Plus (Class digit_class)))))) false) l ↔
  ∃ before c n c' after, l = before ++ c :: chars ".core." ++ n ++ chars "." ++ c' :: after ∧
    (c ∉ ["009"; "010"; "012"; "013"; " "]%char) ∧ n ≠ [] ∧ Forall (in_class "0123456789") n ∧ in_class "0123456789" c'.
Proof.
  unfold found. cbn [re_body re_end]. repeat setoid_rewrite matches_cat. setoid_rewrite matches_literal.
  setoid_rewrite matches_spaceless. setoid_rewrite matches_number. split.
  - intros (before & ? & after & -> & (? & ? & -> & (c0 & l' & -> & Hall) & ? & ? & -> & -> & ? & ? & -> & (d & n & -> & Hn) &
      ? & ? & -> & -> & (c' & rest & -> & [Hc' _]%Forall_cons)) & _).
    destruct (exists_last (l := c0 :: l') ltac:(done)) as (l0 & c & E). rewrite E in Hall |- *.
    apply Forall_app in Hall as [_ [Hc _]%Forall_cons]. exists (before ++ l0), c, (d :: n), c', (rest ++ after).
    by rewrite <- !app_assoc.
  - intros (before & c & [|d n] & c' & after & -> & Hc & Hn & Hall & Hc'); [done|].
    exists before, (c :: chars ".core." ++ (d :: n) ++ chars "." ++ [c']), after. split_and!; [|  |done].
    { simpl. by rewrite <- !app_assoc. }
    exists [c], (chars ".core." ++ (d :: n) ++ chars "." ++ [c']). split_and!; [done|exists c, []; split; [done|by constructor]|].
    exists (chars ".core."), ((d :: n) ++ chars "." ++ [c']). split_and!; [done|done|].
    exists (d :: n), (chars "." ++ [c']). split_and!; [done|by exists d, n|].
    exists (chars "."), [c']. split_and!; [done|done|]. exists c', []. split; [done|by constructor].
Qed.

Lemma default_name_spec l : (∃ r, r ∈ defaultUploadRegexpList ∧ found r l) ↔ default_name l.
Proof.
  transitivity (Exists (λ r, found r l) defaultUploadRegexpList); [by rewrite Exists_exists|]. unfold defaultUploadRegexpList.
  rewrite !Exists_cons, Exists_nil, found_complete, !found_stdio, found_log, found_core. split.
  - intros [[b ->]|[(b & c & d & -> & H)|[(b & c & d & -> & H)|[(b & c & c' & a & -> & H)|[(b & c & n & c' & a & -> & H)|[]]]]]].
    + constructor.
    + destruct H as (? & ? & ?). apply dn_stdio; auto.
    + destruct H as (? & ? & ?). apply dn_stdio; auto.
    + destruct H as [? ?]. by apply dn_log.
    + destruct H as (? & ? & ? & ?). by apply dn_core.
  - intros [b|b name c d [->| ->] ? ? ?|b c c' a ? ?|b c n c' a ? ? ? ?].
    + left. by exists b.
    + right; left. by exists b, c, d.
    + do 2 right; left. by exists b, c, d.
    + do 3 right; left. by exists b, c, c', a.
    + do 4 right; left. by exists b, c, n, c', a.
Qed.

(** C39: A file is rotated exactly when its name matches the user's expression, or ends with [.complete],
    or with [stdout] or [stderr], a character and a date, or has a digit, a hyphen or an underscore two
    characters before [log], or is that of a core file. *)
Theorem CheckFileForRotation_matches uploadRegexp name :
  CheckFileForRotation uploadRegexp name = true ↔
  (∃ m, uploadRegexp = Some m ∧ m name = true) ∨ default_name (chars name).
Proof.
  unfold CheckFileForRotation. rewrite orb_true_iff, existsb_true. unfold MatchString. setoid_rewrite match_anywhere_spec.
  assert (match uploadRegexp with Some m => m name | None => false end = true ↔ ∃ m, uploadRegexp = Some m ∧ m name = true) as ->.
  { destruct uploadRegexp; naive_solver. }
  by rewrite default_name_spec.
Qed.

(** The names of the task's own output match none of them. *)
Example stdio_not_rotated : existsb (CheckFileForRotation None) PotentialStdioNames = false.
Proof. vm_compute. reflexivity. Qed.

Example rotation_names :
  CheckFileForRotation None <$> ["stdout.30092016_151555.073"; "stderr.foobar.4555."; "catalina.out_20160414_0124.log"; "tomcat-startup.log";
    "nodequark.core.13213.3213"; "nodequark.core.13213.abb.3213"] = [true; false; true; false; true; false].
Proof. vm_compute. reflexivity. Qed.

(** ** The list has every file that is not ignored *)

Fixpoint node_ind' (P : node → Prop) (HPlain : ∀ name age, P (Plain name age)) (HSymlink : ∀ name, P (Symlink name))
    (HUnreadable : ∀ name, P (Directory name None))
    (HDirectory : ∀ name entries, Forall P entries → P (Directory name (Some entries))) (n : node) {struct n} : P n :=
  match n with
  | Plain name age => HPlain name age
  | Symlink name => HSymlink name
  | Directory name None => HUnreadable name
  | Directory name (Some entries) =>
      HDirectory name entries ((fix go (l : list node) : Forall P l :=
        match l with
        | [] => @List.Forall_nil _ P
        | n :: l => @List.Forall_cons _ P _ _ (node_ind' P HPlain HSymlink HUnreadable HDirectory n) (go l)
        end) entries)
  end.

Section Lists.
Context (cwd_is_stdio : string → bool) (uploadThresholdTime : Z) (check : bool).

Abbreviation ignored := (shouldIgnoreFile cwd_is_stdio uploadThresholdTime check).
Abbreviation build := (buildFileListInDir2 cwd_is_stdio uploadThresholdTime check).

(** A file below a directory with these entries, and the directories on the way to it. *)
Inductive reaches : list node → path → Prop :=
| reaches_file entries name age :
    Plain name age ∈ entries → ignored (Plain name age) = false → reaches entries [name]
| reaches_below entries name sub p :
    Directory name (Some sub) ∈ entries → ignored (Directory name (Some sub)) = false → reaches sub p → reaches entries (name :: p).

(** A directory on the way cannot be read. *)
Inductive blocked : list node → Prop :=
| blocked_here entries name : Directory name None ∈ entries → ignored (Directory name None) = false → blocked entries
| blocked_below entries name sub :
    Directory name (Some sub) ∈ entries → ignored (Directory name (Some sub)) = false → blocked sub → blocked entries.

Lemma reaches_app l1 l2 p : reaches (l1 ++ l2) p ↔ reaches l1 p ∨ reaches l2 p.
Proof.
  split.
  - intros H. inversion H as [? name age Hin Hi|? name sub p' Hin Hi Hr]; subst; apply elem_of_app in Hin as [Hin|Hin];
      [left|right|left|right]; econstructor; eauto.
  - intros [H|H]; inversion H as [? name age Hin Hi|? name sub p' Hin Hi Hr]; subst; econstructor; eauto; apply elem_of_app; eauto.
Qed.

Lemma blocked_app l1 l2 : blocked (l1 ++ l2) ↔ blocked l1 ∨ blocked l2.
Proof.
  split.
  - intros H. inversion H as [? name Hin Hi|? name sub Hin Hi Hb]; subst; apply elem_of_app in Hin as [Hin|Hin];
      [left|right|left|right]; first [by eapply blocked_here | by eapply blocked_below].
  - intros [H|H]; inversion H as [? name Hin Hi|? name sub Hin Hi Hb]; subst;
      first [eapply blocked_here; [|done]; apply elem_of_app; eauto; fail | eapply blocked_below; [apply elem_of_app; eauto|done|done]].
Qed.

(** What is added to the list for these entries of the directory [dir]. *)
Definition added (entries : list node) (dir : path) (result : list path) (o : option (list path)) : Prop :=
  match o with
  | Some l => ¬ blocked entries ∧ ∃ new, l = result ++ new ∧ ∀ p, p ∈ new ↔ ∃ q, p = dir ++ q ∧ reaches entries q
  | None => blocked entries
  end.

Lemma reaches_nil p : ¬ reaches [] p.
Proof. intros H. inversion H; subst; by eapply not_elem_of_nil. Qed.

Lemma blocked_nil : ¬ blocked [].
Proof. intros H. inversion H; subst; by eapply not_elem_of_nil. Qed.

Lemma blocked_singleton n : blocked [n] → ignored n = false ∧ ∃ name o, n = Directory name o ∧ ∀ sub, o = Some sub → blocked sub.
Proof.
  intros H. inversion H as [? name Hin Hi|? name sub Hin Hi Hb]; subst; apply list_elem_of_singleton in Hin; subst; naive_solver.
Qed.

Lemma add_entry_ok n dir result :
  (∀ name entries dir result, n = Directory name (Some entries) → added entries dir result (build n dir result)) →
  added [n] dir result (add_entry cwd_is_stdio uploadThresholdTime check build dir n result).
Proof.
  intros Hsub. unfold add_entry. destruct (ignored n) eqn:Ei.
  - split; [intros [? _]%blocked_singleton; congruence|]. exists []. rewrite app_nil_r. split; [done|]. intros p. split; [by intros ?%not_elem_of_nil|].
    intros (q & _ & H). inversion H as [? name age Hin Hi|? name sub p' Hin Hi _]; subst; apply list_elem_of_singleton in Hin; subst; congruence.
  - destruct n as [name age|name|name [sub|]]; [| |specialize (Hsub name sub (dir ++ [name]) result eq_refl)|].
    + split; [intros [_ (? & ? & ? & _)]%blocked_singleton; done|]. exists [dir ++ [name]]. split; [done|]. intros p. rewrite list_elem_of_singleton. split.
      * intros ->. exists [name]. split; [done|]. by apply (reaches_file _ _ age); [left|].
      * intros (q & -> & H). inversion H as [? ? ? Hin|? ? ? ? Hin]; subst; apply list_elem_of_singleton in Hin; by simplify_eq.
    + done.
    + unfold node_name. destruct (build (Directory name (Some sub)) (dir ++ [name]) result) as [l|].
      * destruct Hsub as (Hnb & new & -> & Hnew). split; [intros [_ (? & ? & [= <- <-] & Hb)]%blocked_singleton; by apply Hnb, Hb|]. exists new. split; [done|]. intros p. rewrite Hnew. split.
        -- intros (q & -> & H). exists (name :: q). rewrite <- app_assoc. split; [done|]. by apply (reaches_below _ _ sub); [left| |].
        -- intros (q & -> & H). inversion H as [? ? ? Hin|? ? ? q' Hin]; subst; apply list_elem_of_singleton in Hin; simplify_eq.
           exists q'. by rewrite <- app_assoc.
      * by apply (blocked_below _ name sub); [left| |].
    + by apply (blocked_here _ name); [left|].
Qed.

Lemma build_ok n name entries dir result : n = Directory name (Some entries) → added entries dir result (build n dir result).
Proof.
  revert name entries dir result. induction n as [| | |nm es IH] using node_ind'; intros name0 entries0 dir result E; simplify_eq. simpl.
  revert result. induction IH as [|n l Hn _ IHl]; intros result.
  - split; [apply blocked_nil|]. exists []. rewrite app_nil_r. split; [done|]. intros p. split; [by intros ?%not_elem_of_nil|]. by intros (q & _ & ?%reaches_nil).
  - pose proof (add_entry_ok n dir result Hn) as H1.
    destruct (add_entry _ _ _ _ dir n result) as [l1|]; simpl; [|by apply (blocked_app [n]); left].
    destruct H1 as (Hnb1 & new1 & -> & Hnew1). specialize (IHl (result ++ new1)).
    match goal with |- added _ _ _ ?o => destruct o as [l2|] end; [|by apply (blocked_app [n]); right].
    destruct IHl as (Hnb2 & new2 & -> & Hnew2). split; [by intros [?|?]%(blocked_app [n])|]. exists (new1 ++ new2). rewrite app_assoc. split; [done|]. intros p.
    rewrite elem_of_app, Hnew1, Hnew2. setoid_rewrite (reaches_app [n] l). naive_solver.
Qed.
End Lists.

(** The list has exactly the files that are reached through directories and are not ignored; there is
    no list exactly when one of those directories cannot be read. *)
Lemma buildFileListInDir_spec cwd_is_stdio uploadThresholdTime check localDir :
  match buildFileListInDir cwd_is_stdio uploadThresholdTime check localDir with
  | Some l => ∃ entries, localDir = Some entries ∧ ¬ blocked cwd_is_stdio uploadThresholdTime check entries ∧ ∀ p, p ∈ l ↔ reaches cwd_is_stdio uploadThresholdTime check entries p
  | None => ∀ entries, localDir = Some entries → blocked cwd_is_stdio uploadThresholdTime check entries
  end.
Proof.
  unfold buildFileListInDir. destruct localDir as [entries|]; [|done].
  pose proof (build_ok cwd_is_stdio uploadThresholdTime check (Directory "" (Some entries)) "" entries [] [] eq_refl) as H.
  destruct (buildFileListInDir2 _ _ _ _ _ _) as [l|]; [|by intros ? [= <-]].
  destruct H as (Hnb & new & -> & Hnew). exists entries. split_and!; [done|done|]. intros p. simpl. rewrite Hnew. naive_solver.
Qed.

(** ** What a round touches *)

Lemma foldl_uploadLogfile uploadRegexp keep upload_ok remove_ok l o :
  foldl (λ o f, uploadLogfile uploadRegexp keep upload_ok remove_ok f o) o l =
  Outcome (o_uploaded o ++ filter (λ f, CheckFileForRotation uploadRegexp (Base f) = true ∧ upload_ok f = true) l)
    (o_removed o ++ filter (λ f, CheckFileForRotation uploadRegexp (Base f) = true ∧ keep = false ∧ remove_ok f = true) l).
Proof.
  revert o. induction l as [|f l IH]; intros [u r]; simpl; [by rewrite !app_nil_r|]. rewrite IH. unfold uploadLogfile. simpl.
  rewrite !filter_cons. destruct (CheckFileForRotation uploadRegexp (Base f)), (upload_ok f), keep, (remove_ok f); simpl;
    repeat (case_decide; [|naive_solver]) || case_decide; try naive_solver; simpl; rewrite <- ?app_assoc; done.
Qed.

(** A round uploads exactly the files of the directory that were modified lately, have a name that
    is rotated and whose upload succeeds.  It removes those files when they are not kept, also the ones
    whose upload failed.  When a directory cannot be read it does nothing. *)
Theorem traditionalRotate_touches cwd_is_stdio uploadRegexp threshold keep upload_ok remove_ok localDir :
  let o := traditionalRotate cwd_is_stdio uploadRegexp threshold keep upload_ok remove_ok localDir (Outcome [] []) in
  (∃ entries, localDir = Some entries ∧ ∀ p,
     (p ∈ o_uploaded o ↔ reaches cwd_is_stdio threshold true entries p ∧ CheckFileForRotation uploadRegexp (Base p) = true ∧ upload_ok p = true) ∧
     (p ∈ o_removed o ↔ reaches cwd_is_stdio threshold true entries p ∧ CheckFileForRotation uploadRegexp (Base p) = true ∧ keep = false ∧ remove_ok p = true)) ∨
  o = Outcome [] [] ∧ ∀ entries, localDir = Some entries → blocked cwd_is_stdio threshold true entries.
Proof.
  unfold traditionalRotate. pose proof (buildFileListInDir_spec cwd_is_stdio threshold true localDir) as H.
  destruct (buildFileListInDir _ _ _ _) as [l|]; [|by right]. destruct H as (entries & -> & _ & Hl). left. exists entries. split; [done|].
  intros p. rewrite foldl_uploadLogfile. simpl. rewrite !list_elem_of_filter, Hl. naive_solver.
Qed.
