(* ===== verification/Iam.v ===== *)
(** * Iam: credentials for a container

    Models [metadataserver/iam.go].  A container asks the metadata service for the credentials of its role.
    The first request, or the start of the service, assumes the role, while others wait in [sync.Once]; a
    goroutine then renews the credentials before they expire.

    [iam_step] is what one goroutine does next, or a request, an answer of STS or the passing of time; a run is a list of [label]s.
    [pc] says where a goroutine is.  A section under [roleAssumptionStateLock] reads or writes one pointer and is
    one step.  [apiProtectInfoLock] is locked for writing once, before anyone can ask, so a reader waits
    until [getProtectInfo] unlocks it and never after that.  Times are nanoseconds since 1970.

    The body of a response is the struct that is encoded as JSON. *)
From S2P Require Import Prelude Errors GoTime.

Open Scope string_scope.
Open Scope Z_scope.
Open Scope list_scope.

(** ** Constants *)

Definition Second : Z := 1000000000.
Definition Minute : Z := 60 * Second.

Definition requestTimeout : Z := 30 * Second.
Definition defaultSessionLifetime : Z := 60 * Minute.
Definition maxSessionNameLen : nat := 32.
Definition renewalWindow : Z := 5 * Minute.

(** [t.UTC().Format(awsTimeFormat)] *)
Definition awsTimeFormat (t : Z) : string :=
  let u := UTC t in
  long_year (t_year u) (String "-" (pad2 (t_month u) (String "-" (pad2 (t_day u) (String "T"
    (pad2 (t_hour u) (String ":" (pad2 (t_minute u) (String ":" (pad2 (t_second u) "Z")))))))))).

(** ** The name of a session *)

(** A byte of the class [\w+=,.@-] of [invalidSessionNameRegexp] *)
Definition session_char (c : ascii) : bool :=
  let n := N_of_ascii c in
  ((48 <=? n) && (n <=? 57) || (65 <=? n) && (n <=? 90) || (97 <=? n) && (n <=? 122) || (n =? 95)
   || (n =? 43) || (n =? 61) || (n =? 44) || (n =? 46) || (n =? 64) || (n =? 45))%N.

Definition byte_at (s : string) (i : nat) : N := match String.get i s with Some c => N_of_ascii c | None => 0%N end.

(** [utf8.DecodeRuneInString]: how many bytes the first rune has; a byte that begins no rune is one of its own. *)
Definition rune_width (s : string) : nat :=
  let b i := byte_at s i in
  let within lo hi i := ((lo <=? b i) && (b i <=? hi))%N in
  let cont := within 128%N 191%N in
  if within 194%N 223%N 0%nat then if cont 1%nat then 2 else 1
  else if within 224%N 239%N 0%nat then
    let lo := if (b 0%nat =? 224)%N then 160%N else 128%N in
    let hi := if (b 0%nat =? 237)%N then 159%N else 191%N in
    if within lo hi 1%nat && cont 2%nat then 3 else 1
  else if within 240%N 244%N 0%nat then
    let lo := if (b 0%nat =? 240)%N then 144%N else 128%N in
    let hi := if (b 0%nat =? 244)%N then 143%N else 191%N in
    if within lo hi 1%nat && cont 2%nat && cont 3%nat then 4 else 1
  else 1.

(** [invalidSessionNameRegexp.ReplaceAllString(s, "_")]; [skip] bytes belong to a rune that was replaced. *)
Fixpoint replaceInvalid (skip : nat) (s : string) : string :=
  match s with
  | EmptyString => EmptyString
  | String c s' =>
      match skip with
      | S k => replaceInvalid k s'
      | O => if session_char c then String c (replaceInvalid 0 s')
             else String "_" (replaceInvalid (pred (rune_width s)) s')
      end
  end.

Definition GenerateSessionName (containerID : string) : string :=
  let sessionName := replaceInvalid 0 ("titus-" +:+ containerID) in
  if (String.length sessionName <=? maxSessionNameLen)%nat then sessionName
  else String.substring 0 maxSessionNameLen sessionName.

(** ** What STS is asked and answers *)

Record credentials := Credentials {
  cr_AccessKeyId : option string;
  cr_SecretAccessKey : option string;
  cr_SessionToken : option string;
  cr_Expiration : option Z
}.

(** [ao_AssumedRoleId] is what [AssumedRoleUser.AssumedRoleId] points to, when neither is nil. *)
Record AssumeRoleOutput := ARO {
  ao_Credentials : option credentials;
  ao_AssumedRoleId : option string
}.

Record AssumeRoleInput := ARI {
  ai_DurationSeconds : Z;
  ai_RoleArn : string;
  ai_RoleSessionName : string;
  ai_Policy : option string
}.

Record roleAssumptionState := RAS {
  assumeRoleGenerated : Z;
  assumeRoleResult : error + AssumeRoleOutput
}.

(** What does not change in an [iamProxy] *)
Record iamProxy := IamProxy {
  ip_arn : string;
  ip_titusTaskInstanceID : string;
  ip_roleName : string
}.

(** ** The handlers, once they have the state *)

Record ec2IAMInfo := IAMInfo {
  ii_Code : string; ii_LastUpdated : string; ii_InstanceProfileArn : string; ii_InstanceProfileID : string
}.

Record ec2RoleCredRespBody := CredBody {
  cb_Expiration : string; cb_AccessKeyID : string; cb_SecretAccessKey : string; cb_Token : string; cb_Type : string;
  cb_LastUpdated : string; cb_Code : string; cb_Message : string
}.

Inductive body :=
| NoBody
| Text (s : string)
| InfoBody (i : ec2IAMInfo)
| RoleBody (c : ec2RoleCredRespBody).

Record response := Response { rs_status : Z; rs_body : body }.

(** [http.Error] ends the message with a line feed. *)
Definition http_Error (msg : string) (status : Z) : response :=
  Response status (Text (msg +:+ String (ascii_of_nat 10) "")).

(** The status for an error that is an [awserr.Error] *)
Definition aws_status (a : awserr) : Z :=
  if bool_decide (aws_Code a = "AuthFailure") then 403
  else if bool_decide (aws_Code a = "UnauthorizedOperation") then 403
  else 503.

Definition as_awserr (e : error) : option awserr :=
  match e with EAws a | EWrappedRequestFailure a | EWrappedEC2 a => Some a | _ => None end.

(** [None] is a nil pointer that is dereferenced. *)
Definition info (p : iamProxy) (st : option roleAssumptionState) : option response :=
  match st with
  | None => Some (http_Error "Role assumption state is nil" 503)
  | Some s =>
      let updated := awsTimeFormat (assumeRoleGenerated s) in
      match assumeRoleResult s with
      | inr out =>
          id ← ao_AssumedRoleId out;
          Some (Response 200 (InfoBody (IAMInfo "Success" updated (ip_arn p) id)))
      | inl e =>
          match as_awserr e with
          | Some a => Some (Response (aws_status a) (InfoBody (IAMInfo (aws_Code a) updated (ip_arn p) "")))
          | None => Some (Response 503 (InfoBody (IAMInfo "ValidationError" updated (ip_arn p) "")))
          end
      end
  end.

Definition specificInstanceProfile (st : option roleAssumptionState) : option response :=
  match st with
  | None => Some (http_Error "Role assumption state is nil" 503)
  | Some s =>
      let updated := awsTimeFormat (assumeRoleGenerated s) in
      match assumeRoleResult s with
      | inr out =>
          c ← ao_Credentials out;
          expiration ← cr_Expiration c;
          key ← cr_AccessKeyId c;
          secret ← cr_SecretAccessKey c;
          token ← cr_SessionToken c;
          Some (Response 200 (RoleBody (CredBody (awsTimeFormat expiration) key secret token "AWS-HMAC" updated "Success" "")))
      | inl e =>
          match as_awserr e with
          | Some a => Some (Response (aws_status a) (RoleBody (CredBody "" "" "" "" "" updated (aws_Code a) (aws_Message a))))
          | None => Some (Response 503 (RoleBody (CredBody "" "" "" "" "" updated "ValidationError" (Error e))))
          end
      end
  end.

Definition policy (apiProtectPolicy : option string) : response :=
  match apiProtectPolicy with
  | None => Response 404 NoBody
  | Some p => Response 200 (Text p)
  end.

Definition securityCredentials (p : iamProxy) : response := Response 200 (Text (ip_roleName p)).

(** The role of [newIamProxy], from the resource of its ARN; [None] is [log.Fatal]. *)
Definition role_name (resource : string) : option string :=
  match strings_Split resource "/" with
  | [_; role] => Some role
  | _ => None
  end.

(** ** The goroutines *)

(** Who calls [startRoleAssumer] *)
Inductive caller := Info | SpecificInstanceProfile | Optimistic.

(** Who calls [doAssumeRole] *)
Inductive place := InOnce (c : caller) | InLoop.

Inductive pc :=
| Starting (c : caller)
| AwaitPolicy (w : place) (deadline : Z)
| Calling (w : place) (started deadline : Z)
| Recording (w : place) (st : roleAssumptionState)
| Loading (c : caller)
| Checking
| Deciding (st : option roleAssumptionState)
| Resting
| Sleeping (until : Z)
| ServingPolicy
| Ended.

(** [g_since] is when the goroutine came there. *)
Record goroutine := Goroutine { g_pc : pc; g_since : Z }.

Inductive once := OnceNew | OnceRunning | OnceDone.

(** What happens: calls of STS, outcomes that are recorded, replies with the state that the handler got ([None] for
    the reply when it panics), and the policy that was fetched *)
Inductive event :=
| Called (t : Z) (input : AssumeRoleInput)
| Recorded (st : roleAssumptionState)
| Replied (t : Z) (c : caller) (st : option roleAssumptionState) (r : option response)
| Fetched (p : option string)
| RepliedPolicy (t : Z) (r : response).

Record iam := Iam {
  im_now : Z;
  im_state : option roleAssumptionState;
  im_once : once;
  im_protecting : bool;
  im_policy : option string;
  im_threads : list goroutine;
  im_log : list event;
  im_crashed : bool
}.

Inductive label :=
| Elapse (d : Z)
| Request (c : caller)
| RequestPolicy
| Protected (p : option string)
| Run (i : nat)
| Answer (i : nat) (r : error + AssumeRoleOutput)
| Rest (i : nat) (n : Z).

Definition set_pc (i : nat) (p : pc) (s : iam) : iam :=
  Iam (im_now s) (im_state s) (im_once s) (im_protecting s) (im_policy s)
      (<[i := Goroutine p (im_now s)]> (im_threads s)) (im_log s) (im_crashed s).

(** [go] *)
Definition spawn (p : pc) (s : iam) : iam :=
  Iam (im_now s) (im_state s) (im_once s) (im_protecting s) (im_policy s)
      (im_threads s ++ [Goroutine p (im_now s)]) (im_log s) (im_crashed s).

Definition set_once (o : once) (s : iam) : iam :=
  Iam (im_now s) (im_state s) o (im_protecting s) (im_policy s) (im_threads s) (im_log s) (im_crashed s).

Definition record (st : roleAssumptionState) (s : iam) : iam :=
  Iam (im_now s) (Some st) (im_once s) (im_protecting s) (im_policy s) (im_threads s) (im_log s ++ [Recorded st]) (im_crashed s).

Definition note (e : event) (s : iam) : iam :=
  Iam (im_now s) (im_state s) (im_once s) (im_protecting s) (im_policy s) (im_threads s) (im_log s ++ [e]) (im_crashed s).

(** A panic that nothing recovers *)
Definition crash (s : iam) : iam :=
  Iam (im_now s) (im_state s) (im_once s) (im_protecting s) (im_policy s) (im_threads s) (im_log s) true.

Definition elapse (d : Z) (s : iam) : iam :=
  Iam (im_now s + d) (im_state s) (im_once s) (im_protecting s) (im_policy s) (im_threads s) (im_log s) (im_crashed s).

(** The end of [getProtectInfo]: the policy is set and the lock given up. *)
Definition getProtectInfo (p : option string) (s : iam) : iam :=
  Iam (im_now s) (im_state s) (im_once s) false p (im_threads s) (im_log s ++ [Fetched p]) (im_crashed s).

Section Proxy.
Context (proxy : iamProxy).

Definition assume_input (p : option string) : AssumeRoleInput :=
  ARI (defaultSessionLifetime / Second) (ip_arn proxy) (GenerateSessionName (ip_titusTaskInstanceID proxy)) p.

(** [doAssumeRole] begins: its context has a deadline, and it waits for the lock. *)
Definition doAssumeRole (w : place) (i : nat) (s : iam) : iam :=
  set_pc i (AwaitPolicy w (im_now s + (requestTimeout - 1 * Second))) s.

(** With the lock it calls STS, whether or not the context is done. *)
Definition call_sts (w : place) (deadline : Z) (i : nat) (s : iam) : iam :=
  set_pc i (Calling w (im_now s) deadline) (note (Called (im_now s) (assume_input (im_policy s))) s).

(** [sync.Once] is done when its function panics, too; [net/http] recovers the panics of handlers. *)
Definition panic_at (w : place) (i : nat) (s : iam) : iam :=
  match w with
  | InOnce Optimistic | InLoop => crash s
  | InOnce _ => set_once OnceDone (set_pc i Ended s)
  end.

(** STS has answered. *)
Definition sts_answers (w : place) (r : error + AssumeRoleOutput) (i : nat) (s : iam) : iam :=
  match r with
  | inr out =>
      match c ← ao_Credentials out; cr_AccessKeyId c with
      | Some _ => set_pc i (Recording w (RAS (im_now s) r)) s
      | None => panic_at w i s
      end
  | inl _ => set_pc i (Recording w (RAS (im_now s) r)) s
  end.

(** [startRoleAssumer] has returned: a handler goes on with [getRoleAssumptionState]. *)
Definition started_by (c : caller) (i : nat) (s : iam) : iam :=
  set_pc i (match c with Optimistic => Ended | _ => Loading c end) s.

Definition startRoleAssumer (c : caller) (i : nat) (s : iam) : option iam :=
  match im_once s with
  | OnceNew => Some (doAssumeRole (InOnce c) i (set_once OnceRunning s))
  | OnceRunning => None
  | OnceDone => Some (started_by c i s)
  end.

(** The end of [doAssumeRole], and what its caller does then *)
Definition finish_assume (w : place) (st : roleAssumptionState) (i : nat) (s : iam) : iam :=
  let s := record st s in
  match w with
  | InOnce c => spawn Checking (set_once OnceDone (started_by c i s))
  | InLoop => set_pc i Resting s
  end.

(** Whether [maybeAssumeRole] calls [doAssumeRole]; [None] is a nil pointer. *)
Definition maybeAssumeRole (now : Z) (current : option roleAssumptionState) : option bool :=
  match current with
  | None => Some true
  | Some st =>
      match assumeRoleResult st with
      | inr out =>
          c ← ao_Credentials out;
          expiration ← cr_Expiration c;
          let lifetimeRemaining := expiration - now in
          Some (lifetimeRemaining <? renewalWindow)
      | inl _ => Some (10 * Second <? now - assumeRoleGenerated st)
      end
  end.

Definition getRoleAssumptionState (s : iam) : option roleAssumptionState := im_state s.

Definition respond (c : caller) (st : option roleAssumptionState) : option response :=
  match c with
  | Info => info proxy st
  | SpecificInstanceProfile => specificInstanceProfile st
  | Optimistic => None
  end.

(** A step of goroutine [i] that needs nothing from outside *)
Definition run_goroutine (i : nat) (p : pc) (s : iam) : option iam :=
  match p with
  | Starting c => startRoleAssumer c i s
  | AwaitPolicy w deadline => if im_protecting s then None else Some (call_sts w deadline i s)
  | Recording w st => Some (finish_assume w st i s)
  | Loading c => Some (set_pc i Ended (note (Replied (im_now s) c (getRoleAssumptionState s) (respond c (getRoleAssumptionState s))) s))
  | Checking => Some (set_pc i (Deciding (getRoleAssumptionState s)) s)
  | Deciding st =>
      match maybeAssumeRole (im_now s) st with
      | Some true => Some (doAssumeRole InLoop i s)
      | Some false => Some (set_pc i Resting s)
      | None => Some (crash s)
      end
  | Sleeping until => if until <=? im_now s then Some (set_pc i Checking s) else None
  | ServingPolicy =>
      if im_protecting s then None
      else Some (set_pc i Ended (note (RepliedPolicy (im_now s) (policy (im_policy s))) s))
  | Calling _ _ _ | Resting | Ended => None
  end.

Definition iam_step (l : label) (s : iam) : option iam :=
  if im_crashed s then None else
  match l with
  | Elapse d => if 0 <=? d then Some (elapse d s) else None
  | Request Optimistic => None
  | Request c => Some (spawn (Starting c) s)
  | RequestPolicy => Some (spawn ServingPolicy s)
  | Protected p => if im_protecting s then Some (getProtectInfo p s) else None
  | Run i => g ← im_threads s !! i; run_goroutine i (g_pc g) s
  | Answer i r =>
      g ← im_threads s !! i;
      match g_pc g with Calling w _ _ => Some (sts_answers w r i s) | _ => None end
  | Rest i n =>
      g ← im_threads s !! i;
      match g_pc g with
      | Resting => if (0 <=? n) && (n <? 14) then Some (set_pc i (Sleeping (im_now s + Second * (n + 1))) s) else None
      | _ => None
      end
  end.

Fixpoint iam_run (ls : list label) (s : iam) : option iam :=
  match ls with
  | [] => Some s
  | l :: ls => s' ← iam_step l s; iam_run ls s'
  end.

End Proxy.

(** [newIamProxy]: the policy is fetched when API protection is enabled, the role assumed at once when [Optimistic]. *)
Definition newIamProxy (t : Z) (optimistic apiProtectEnabled : bool) : iam :=
  Iam t None OnceNew apiProtectEnabled None
      (if optimistic then [Goroutine (Starting Optimistic) t] else []) [] false.

(** ** What a history may be *)

(** The last outcome, whether STS is being asked, and the policy once it is known *)
Record history := History {
  h_last : option roleAssumptionState;
  h_calling : bool;
  h_policy : option (option string)
}.

(** A role is assumed again when its credentials are about to expire, or some time after a failure. *)
Definition due (t : Z) (last : option roleAssumptionState) : Prop :=
  match last with
  | None => True
  | Some st =>
      match assumeRoleResult st with
      | inr out => ∃ c e, ao_Credentials out = Some c ∧ cr_Expiration c = Some e ∧ e < t + renewalWindow
      | inl _ => assumeRoleGenerated st + 10 * Second < t
      end
  end.

Inductive happens (proxy : iamProxy) : history → event → history → Prop :=
| happens_call last p t :
    due t last →
    happens proxy (History last false (Some p)) (Called t (assume_input proxy p)) (History last true (Some p))
| happens_outcome last p st : happens proxy (History last true p) (Recorded st) (History (Some st) false p)
| happens_reply h t c : happens proxy h (Replied t c (h_last h) (respond proxy c (h_last h))) h
| happens_fetched last b p : happens proxy (History last b None) (Fetched p) (History last b (Some p))
| happens_policy last b p t : happens proxy (History last b (Some p)) (RepliedPolicy t (policy p)) (History last b (Some p)).

Inductive life (proxy : iamProxy) (h0 : history) : list event → history → Prop :=
| life_begins : life proxy h0 [] h0
| life_goes_on l h e h' : life proxy h0 l h → happens proxy h e h' → life proxy h0 (l ++ [e]) h'.

#[local] Hint Constructors happens life : core.

(** ** One goroutine at a time assumes the role *)

Definition is_worker (g : goroutine) : bool :=
  match g_pc g with
  | AwaitPolicy _ _ | Calling _ _ _ | Recording _ _ | Checking | Deciding _ | Resting | Sleeping _ => true
  | Starting _ | Loading _ | ServingPolicy | Ended => false
  end.

Definition workers (l : list goroutine) : list goroutine := filter (λ g, is_worker g = true) l.

Lemma workers_app l1 l2 : workers (l1 ++ l2) = workers l1 ++ workers l2.
Proof. apply filter_app. Qed.

Lemma workers_cons g l : workers (g :: l) = (if is_worker g then [g] else []) ++ workers l.
Proof. unfold workers. rewrite filter_cons. destruct (is_worker g); by simpl. Qed.

Section Insert.
Context (l : list goroutine) (i : nat) (x y : goroutine) (Hi : l !! i = Some x).

Lemma workers_idle : is_worker x = false → is_worker y = false → workers (<[i:=y]> l) = workers l.
Proof.
  destruct (list_split_at l i x Hi) as (l1 & l2 & -> & _ & Hins). rewrite Hins, !workers_app, !workers_cons.
  by intros -> ->.
Qed.

Lemma workers_first : is_worker x = false → workers l = [] → workers (<[i:=y]> l) = workers [y].
Proof.
  destruct (list_split_at l i x Hi) as (l1 & l2 & -> & _ & Hins). rewrite Hins, !workers_app, !workers_cons.
  intros ->. simpl. intros [-> ->]%app_nil. done.
Qed.

Lemma workers_same w : is_worker x = true → workers l = [w] → w = x ∧ workers (<[i:=y]> l) = workers [y].
Proof.
  destruct (list_split_at l i x Hi) as (l1 & l2 & -> & _ & Hins). rewrite Hins, !workers_app, !workers_cons.
  intros ->. simpl. intros H. destruct (workers l1) as [|? [|]]; [|done..]. injection H as -> ->. done.
Qed.

Lemma workers_nonempty : is_worker x = true → workers l ≠ [].
Proof.
  destruct (list_split_at l i x Hi) as (l1 & l2 & -> & _ & _). rewrite !workers_app, workers_cons.
  intros ->. by destruct (workers l1).
Qed.
End Insert.

(** What the one goroutine that assumes the role is doing, before and after [sync.Once] is done *)
Definition worker_ok (now : Z) (st : option roleAssumptionState) (calling : bool) (o : once) (p : pc) : Prop :=
  match o, p with
  | OnceRunning, AwaitPolicy (InOnce _) _ => calling = false
  | OnceRunning, (Calling (InOnce _) _ _ | Recording (InOnce _) _) => calling = true
  | OnceDone, AwaitPolicy InLoop _ => calling = false ∧ due now st
  | OnceDone, (Calling InLoop _ _ | Recording InLoop _) => calling = true
  | OnceDone, (Checking | Resting | Sleeping _) => calling = false
  | OnceDone, Deciding st' => calling = false ∧ st' = st
  | _, _ => False
  end.

Definition phase (s : iam) (calling : bool) : Prop :=
  (im_once s ≠ OnceDone → im_state s = None) ∧
  match im_once s with
  | OnceNew => workers (im_threads s) = [] ∧ calling = false
  | o => (o = OnceDone ∧ workers (im_threads s) = []) ∨
         ∃ g, workers (im_threads s) = [g] ∧ worker_ok (im_now s) (im_state s) calling o (g_pc g)
  end.

Definition policy_known (s : iam) : option (option string) := if im_protecting s then None else Some (im_policy s).

Definition lives (proxy : iamProxy) (h0 : history) (s : iam) : Prop :=
  ∃ calling, life proxy h0 (im_log s) (History (im_state s) calling (policy_known s)) ∧ phase s calling.

Lemma due_later t t' st : t <= t' → due t st → due t' st.
Proof. unfold due. intros Ht. repeat case_match; [intros; lia| |done]. intros (c & e & ? & ? & ?). exists c, e. split_and!; [done..|lia]. Qed.

Lemma maybeAssumeRole_due t st : maybeAssumeRole t st = Some true → due t st.
Proof.
  unfold maybeAssumeRole, due. destruct st as [[g [e|out]]|]; simpl; [| |done].
  - intros [= H%Z.ltb_lt]. lia.
  - destruct (ao_Credentials out) as [c|]; simpl; [|done]. destruct (cr_Expiration c) as [e|] eqn:E; simpl; [|done].
    intros [= H%Z.ltb_lt]. exists c, e. split_and!; [done..|lia].
Qed.

Ltac worker H := unfold is_worker; rewrite H; reflexivity.

Section Lives.
Context (proxy : iamProxy) (h0 : history).

Lemma phase_worker s calling i x :
  phase s calling → im_threads s !! i = Some x → is_worker x = true →
  workers (im_threads s) = [x] ∧ worker_ok (im_now s) (im_state s) calling (im_once s) (g_pc x).
Proof.
  intros [_ Hp] Hi Hx. pose proof (workers_nonempty _ _ _ Hi Hx) as Hne.
  destruct (im_once s) eqn:Ho; [by destruct Hp| |];
    (destruct Hp as [[_ ?]|(g & Hg & Hw)]; [done|]);
    destruct (workers_same _ _ _ x Hi g Hx Hg) as [-> _]; done.
Qed.

(** The goroutine goes on to [p], and is the only one. *)
Lemma phase_goes s s' calling calling' i x p :
  phase s calling → im_threads s !! i = Some x → is_worker x = true →
  im_threads s' = <[i := Goroutine p (im_now s)]> (im_threads s) → im_once s' = im_once s →
  (im_once s ≠ OnceDone → im_state s' = None) →
  (is_worker (Goroutine p (im_now s)) = true → worker_ok (im_now s') (im_state s') calling' (im_once s) p) →
  (is_worker (Goroutine p (im_now s)) = false → im_once s = OnceDone) →
  phase s' calling'.
Proof.
  intros Hp Hi Hx Ht Ho Hst Hw Hd. destruct (phase_worker _ _ _ _ Hp Hi Hx) as [Hws Hok].
  destruct (workers_same _ _ _ (Goroutine p (im_now s)) Hi _ Hx Hws) as [_ Hins].
  split; [by rewrite Ho|]. rewrite Ho, Ht, Hins, workers_cons.
  destruct (is_worker (Goroutine p (im_now s))) eqn:E; simpl.
  - destruct (im_once s) eqn:Hos; [by destruct (g_pc x)| |]; right; eexists; (split; [done|]); by apply Hw.
  - rewrite (Hd eq_refl). by left.
Qed.

(** Goroutines that do not assume the role leave the phase as it is. *)
Lemma phase_idle s s' calling i x p :
  phase s calling → im_threads s !! i = Some x → is_worker x = false → is_worker (Goroutine p (im_now s)) = false →
  im_threads s' = <[i := Goroutine p (im_now s)]> (im_threads s) → im_once s' = im_once s →
  im_state s' = im_state s → im_now s' = im_now s → phase s' calling.
Proof.
  intros [Hst Hp] Hi Hx Hp' Ht Ho Hs Hn. split; [by rewrite Ho, Hs|].
  rewrite Ho, Ht, Hs, Hn, (workers_idle _ _ _ _ Hi) by done. done.
Qed.

Lemma phase_spawn s calling p :
  is_worker (Goroutine p (im_now s)) = false → phase s calling → phase (spawn p s) calling.
Proof.
  intros Hp [Hst Hph]. split; [done|]. simpl. rewrite workers_app, workers_cons, Hp, app_nil_r. done.
Qed.

Lemma phase_later s calling d : 0 <= d → phase s calling → phase (elapse d s) calling.
Proof.
  intros Hd [Hst Hp]. split; [done|]. simpl. destruct (im_once s) eqn:Ho; [done| |];
    (destruct Hp as [Hp|(g & Hg & Hw)]; [by left|]); right; exists g; (split; [done|]);
    unfold worker_ok in *; destruct (g_pc g) as [|w ?|w ??|w ?| | | | | | |]; try done; destruct w; try done.
  destruct Hw as [? Hdue]. split; [done|]. eapply due_later; [|done]. lia.
Qed.

Lemma lives_note s s' calling calling' e :
  life proxy h0 (im_log s) (History (im_state s) calling (policy_known s)) →
  happens proxy (History (im_state s) calling (policy_known s)) e (History (im_state s') calling' (policy_known s')) →
  im_log s' = im_log s ++ [e] → phase s' calling' → lives proxy h0 s'.
Proof. intros Hl He Hlog Hp. exists calling'. rewrite Hlog. eauto. Qed.

Lemma lives_quiet s s' calling calling' :
  life proxy h0 (im_log s) (History (im_state s) calling (policy_known s)) → im_log s' = im_log s → im_state s' = im_state s →
  policy_known s' = policy_known s → calling' = calling → phase s' calling' → lives proxy h0 s'.
Proof. intros Hl Hlog Hst Hp -> Hph. exists calling. by rewrite Hlog, Hst, Hp. Qed.


Lemma lives_call i x w dl s :
  im_threads s !! i = Some x → g_pc x = AwaitPolicy w dl → im_protecting s = false → lives proxy h0 s →
  lives proxy h0 (call_sts proxy w dl i s).
Proof.
  intros Hi Epc Epr (calling & Hl & Hp). destruct (phase_worker _ _ _ _ Hp Hi) as [_ Hw]; [worker Epc|]. rewrite Epc in Hw.
  assert (calling = false ∧ due (im_now s) (im_state s)) as [-> Hdue].
  { destruct (im_once s) eqn:Ho, w; simpl in Hw; try done. destruct Hp as [Hst _]. rewrite Hst by congruence. done. }
  eapply (lives_note s _ false true); [done| |done|].
  - unfold policy_known. simpl. rewrite Epr. by constructor.
  - eapply (phase_goes s _ false true i x); [done|done|worker Epc|done|done| | |done].
    + apply Hp.
    + intros _. by destruct (im_once s) eqn:Ho, w.
Qed.

Lemma lives_panic i x w a dl s :
  im_threads s !! i = Some x → g_pc x = Calling w a dl → lives proxy h0 s → lives proxy h0 (panic_at w i s).
Proof.
  intros Hi Epc (calling & Hl & Hp). destruct (phase_worker _ _ _ _ Hp Hi) as [Hws _]; [worker Epc|].
  assert (Hx : is_worker x = true) by worker Epc.
  destruct (workers_same _ _ _ (Goroutine Ended (im_now s)) Hi _ Hx Hws) as [_ Hins].
  eapply (lives_quiet s _ calling calling); [done| | | |done|]; (destruct w as [[]|]; [..]); try done;
    (split; [done|by left]).
Qed.

Lemma lives_answer i x w a dl r s :
  im_threads s !! i = Some x → g_pc x = Calling w a dl → lives proxy h0 s → lives proxy h0 (sts_answers w r i s).
Proof.
  intros Hi Epc Hs. assert (Hrec : lives proxy h0 (set_pc i (Recording w (RAS (im_now s) r)) s)).
  { destruct Hs as (calling & Hl & Hp). destruct (phase_worker _ _ _ _ Hp Hi) as [_ Hw]; [worker Epc|]. rewrite Epc in Hw.
    eapply (lives_quiet s _ calling calling); [done..|].
    eapply (phase_goes s _ calling calling i x); [done|done|worker Epc|done|done|apply Hp| |done].
    intros _. by destruct (im_once s), w. }
  unfold sts_answers. destruct r; [done|]. case_match; [done|]. by eapply lives_panic.
Qed.

Lemma lives_start i x c s s' :
  im_threads s !! i = Some x → g_pc x = Starting c → startRoleAssumer c i s = Some s' → lives proxy h0 s → lives proxy h0 s'.
Proof.
  intros Hi Epc Hr (calling & Hl & Hp). assert (Hx : is_worker x = false) by worker Epc.
  unfold startRoleAssumer in Hr. destruct (im_once s) eqn:Ho; simplify_eq.
  - destruct Hp as [Hst Hp]. rewrite Ho in Hp. destruct Hp as [Hws ->].
    eapply (lives_quiet s _ false false); [done..|]. split; simpl; [intros _; apply Hst; congruence|]. right.
    rewrite (workers_first _ _ _ _ Hi Hx Hws). eexists. split; [reflexivity|done].
  - eapply (lives_quiet s _ calling calling); [done..|]. eapply (phase_idle s _ calling i x _ Hp Hi Hx); [|done|done|done|done]. by destruct c.
Qed.

Lemma lives_finish i x w st s :
  im_threads s !! i = Some x → g_pc x = Recording w st → lives proxy h0 s → lives proxy h0 (finish_assume w st i s).
Proof.
  intros Hi Epc (calling & Hl & Hp). destruct (phase_worker _ _ _ _ Hp Hi) as [Hws Hw]; [worker Epc|].
  assert (Hx : is_worker x = true) by worker Epc.
  rewrite Epc in Hw. assert (calling = true) as -> by (destruct (im_once s), w; done).
  destruct w as [c|].
  - eapply (lives_note s _ true false); [done|by constructor|done|]. split; [done|]. right. simpl.
    eexists. rewrite workers_app.
    match goal with |- context [<[i := ?y]> _] => destruct (workers_same _ _ _ y Hi _ Hx Hws) as [_ ->] end.
    destruct c; (split; [reflexivity|done]).
  - eapply (lives_note s _ true false); [done|by constructor|done|].
    eapply (phase_goes s _ true false i x); try done; by destruct (im_once s).
Qed.

Lemma lives_decide i x st s s' :
  im_threads s !! i = Some x → g_pc x = Deciding st → run_goroutine proxy i (Deciding st) s = Some s' →
  lives proxy h0 s → lives proxy h0 s'.
Proof.
  intros Hi Epc Hr (calling & Hl & Hp). destruct (phase_worker _ _ _ _ Hp Hi) as [_ Hw]; [worker Epc|]. rewrite Epc in Hw.
  destruct (im_once s) eqn:Ho; simpl in Hw; try done. destruct Hw as [-> ->]. simpl in Hr.
  destruct (maybeAssumeRole _ _) as [[]|] eqn:Em; simplify_eq; eapply (lives_quiet s _ false false); try done;
    (eapply (phase_goes s _ false false i x); [done|done|worker Epc|done|done|by rewrite Ho| |done]); intros _; rewrite Ho; simpl; [|done].
  split; [done|]. by apply maybeAssumeRole_due.
Qed.

(** The goroutine moves on within its loop. *)
Lemma lives_loop i x p s :
  im_threads s !! i = Some x → (g_pc x = Checking ∧ p = Deciding (im_state s) ∨ (∃ u, g_pc x = Sleeping u) ∧ p = Checking ∨
    g_pc x = Resting ∧ ∃ u, p = Sleeping u) → lives proxy h0 s → lives proxy h0 (set_pc i p s).
Proof.
  intros Hi Hpc (calling & Hl & Hp). assert (Hx : is_worker x = true).
  { unfold is_worker. by destruct Hpc as [[-> _]|[[[u ->] _]|[-> _]]]. }
  destruct (phase_worker _ _ _ _ Hp Hi Hx) as [_ Hw]. eapply (lives_quiet s _ calling calling); [done..|].
  destruct Hpc as [[E ->]|[[[u E] ->]|[E [u ->]]]]; rewrite E in Hw; (destruct (im_once s) eqn:Ho; try done);
    (eapply (phase_goes s _ calling calling i x); [done|done|done|done|done|by rewrite Ho|by rewrite Ho|done]).
Qed.

Lemma lives_reply i x s e :
  im_threads s !! i = Some x → is_worker x = false →
  (∀ calling, let h := History (im_state s) calling (policy_known s) in happens proxy h e h) →
  lives proxy h0 s → lives proxy h0 (set_pc i Ended (note e s)).
Proof.
  intros Hi Hx He (calling & Hl & Hp). eapply (lives_note s _ calling calling); [done|by apply He|done|].
  by apply (phase_idle s _ calling i x Ended Hp Hi Hx).
Qed.

Lemma lives_run i x s s' :
  im_threads s !! i = Some x → run_goroutine proxy i (g_pc x) s = Some s' → lives proxy h0 s → lives proxy h0 s'.
Proof.
  intros Hi Hr Hs. destruct (g_pc x) as [c|w dl|w a dl|w st|c| |st| |until| |] eqn:Epc; simpl in Hr; try done.
  - by eapply lives_start.
  - destruct (im_protecting s) eqn:Epr; [done|]. simplify_eq. by eapply lives_call.
  - simplify_eq. by eapply lives_finish.
  - simplify_eq. eapply lives_reply; [done|worker Epc| |done]. intros. apply (happens_reply proxy h).
  - simplify_eq. eapply lives_loop; [done|by left|done].
  - by eapply lives_decide.
  - case_match; simplify_eq. eapply lives_loop; [done| |done]. right; left; eauto.
  - destruct (im_protecting s) eqn:Epr; [done|]. simplify_eq. eapply lives_reply; [done|worker Epc| |done].
    intros. subst h. unfold policy_known. rewrite Epr. constructor.
Qed.

Lemma lives_step l s s' : iam_step proxy l s = Some s' → lives proxy h0 s → lives proxy h0 s'.
Proof.
  intros Hr Hs. unfold iam_step in Hr. destruct (im_crashed s); [done|]. destruct l as [d|c| |p|i|i r|i n].
  - destruct (0 <=? d) eqn:Hd; [|done]. simplify_eq. destruct Hs as (calling & Hl & Hp). exists calling. split; [done|].
    apply phase_later; [by apply Z.leb_le|done].
  - destruct Hs as (calling & Hl & Hp). destruct c; simplify_eq; exists calling; (split; [done|by apply phase_spawn]).
  - destruct Hs as (calling & Hl & Hp). simplify_eq; exists calling; (split; [done|by apply phase_spawn]).
  - destruct (im_protecting s) eqn:Epr; [|done]. simplify_eq. destruct Hs as (calling & Hl & Hp).
    eapply (lives_note s _ calling calling); [done| |done|done]. unfold policy_known. rewrite Epr. constructor.
  - destruct (im_threads s !! i) as [x|] eqn:Hi; [|done]. by eapply lives_run.
  - destruct (im_threads s !! i) as [x|] eqn:Hi; [|done]. simpl in Hr. destruct (g_pc x) eqn:Epc; simplify_eq. by eapply lives_answer.
  - destruct (im_threads s !! i) as [x|] eqn:Hi; [|done]. simpl in Hr. destruct (g_pc x) eqn:Epc; try done.
    case_match; simplify_eq. eapply lives_loop; [done| |done]. right; right; eauto.
Qed.

Lemma lives_runs ls s s' : iam_run proxy ls s = Some s' → lives proxy h0 s → lives proxy h0 s'.
Proof.
  revert s. induction ls as [|l ls IH]; simpl; intros s Hr Hs; [by simplify_eq|].
  destruct (iam_step proxy l s) as [s1|] eqn:E; [|done]. eapply IH; [done|]. by eapply lives_step.
Qed.
End Lives.

Definition begins (apiProtectEnabled : bool) : history :=
  History None false (if apiProtectEnabled then None else Some None).

Lemma lives_new proxy t optimistic prot : lives proxy (begins prot) (newIamProxy t optimistic prot).
Proof. exists false. split; [by constructor|]. split; [done|]. by destruct optimistic. Qed.

(** ** Renewal in time *)

(** When goroutine [g] has to have gone on, if the scheduler and timers are late by at most [late] and STS
    answers before the context of the call is done; handlers and what waits for the policy may take any time. *)
Definition due_by (late : Z) (g : goroutine) : option Z :=
  match g_pc g with
  | Sleeping until => Some (until + late)
  | Calling _ started deadline => Some (Z.max started deadline + late)
  | AwaitPolicy InLoop _ | Recording _ _ | Checking | Deciding _ | Resting => Some (g_since g + late)
  | AwaitPolicy (InOnce _) _ | Starting _ | Loading _ | ServingPolicy | Ended => None
  end.

Definition punctual (late : Z) (l : label) (s : iam) : bool :=
  match l with
  | Elapse d => forallb (λ g, match due_by late g with Some t => im_now s + d <=? t | None => true end) (im_threads s)
  | _ => true
  end.

(** STS gives the lifetime that it is asked for. *)
Definition grants (l : label) (s : iam) : bool :=
  match l with
  | Answer i (inr out) =>
      match g_pc <$> im_threads s !! i, c ← ao_Credentials out; cr_Expiration c with
      | Some (Calling _ started _), Some expiration => started + defaultSessionLifetime <=? expiration
      | Some (Calling _ _ _), None => false
      | _, _ => true
      end
  | _ => true
  end.

Fixpoint all_steps (P : label → iam → bool) (proxy : iamProxy) (ls : list label) (s : iam) : bool :=
  match ls with
  | [] => true
  | l :: ls => P l s && match iam_step proxy l s with Some s' => all_steps P proxy ls s' | None => true end
  end.

(** When credentials expire *)
Definition expires (st : roleAssumptionState) (e : Z) : Prop :=
  ∃ out c, assumeRoleResult st = inr out ∧ ao_Credentials out = Some c ∧ cr_Expiration c = Some e.

Definition doAssumeRoleTimeout : Z := requestTimeout - 1 * Second.
Definition longest_rest : Z := 14 * Second.

Section Renewal.
Context (late : Z) (Hlate : 0 <= late <= 2 * Second).

(** How long the credentials still live, by where the goroutine is that renews them *)
Definition renewed (g : goroutine) (e : Z) : Prop :=
  let checked := renewalWindow - longest_rest in
  let asked := checked - doAssumeRoleTimeout in
  match g_pc g with
  | Resting => g_since g + renewalWindow <= e
  | Sleeping until => until + checked - late <= e
  | Checking => g_since g + checked - 2 * late <= e
  | Deciding _ => g_since g + checked - 3 * late <= e
  | AwaitPolicy InLoop deadline | Calling InLoop _ deadline => deadline + asked - 4 * late <= e
  | Recording InLoop _ => g_since g + asked - 5 * late <= e
  | _ => False
  end.

Definition on_time (now : Z) (g : goroutine) : Prop :=
  g_since g <= now ∧ (∀ t, due_by late g = Some t → now <= t) ∧
  match g_pc g with
  | AwaitPolicy _ deadline => deadline = g_since g + doAssumeRoleTimeout
  | Calling w started deadline =>
      started = g_since g ∧ deadline <= started + doAssumeRoleTimeout ∧ (w = InLoop → started <= deadline)
  | Recording _ st => ∀ e, expires st e → g_since g + defaultSessionLifetime - doAssumeRoleTimeout - late <= e
  | _ => True
  end.

(** Credentials that were handed out live for another four minutes. *)
Definition fresh (e : event) : Prop :=
  ∀ t c st r b, e = Replied t c st (Some r) → rs_status r = 200 → rs_body r = RoleBody b →
  ∃ st0 expiration, st = Some st0 ∧ expires st0 expiration ∧ cb_Expiration b = awsTimeFormat expiration ∧
    t + 4 * Minute <= expiration.

Definition timed (s : iam) : Prop :=
  Forall (on_time (im_now s)) (workers (im_threads s)) ∧ Forall fresh (im_log s) ∧
  ∀ st e, im_state s = Some st → expires st e → ∃ g, workers (im_threads s) = [g] ∧ renewed g e.

Lemma renewed_lives now g e : on_time now g → renewed g e → now + 4 * Minute <= e.
Proof.
  intros (Hs & Hd & Hc) Hr. unfold renewed, due_by, longest_rest, doAssumeRoleTimeout, renewalWindow, requestTimeout, Minute, Second in *.
  destruct g as [p since]; destruct p as [|[] dl|[] a dl|[] st| | | | | | |]; simpl in *; try done;
    specialize (Hd _ eq_refl); try lia.
  destruct Hc as (-> & ? & Hle). specialize (Hle eq_refl). lia.
Qed.

Lemma respond_fresh proxy t c st :
  (∀ s e, st = Some s → expires s e → t + 4 * Minute <= e) → fresh (Replied t c st (respond proxy c st)).
Proof.
  intros Hst t' c' st' r b [= -> -> -> Hr] H200 Hb. destruct c'; [| |done]; simpl in Hr.
  - unfold info in Hr. repeat (case_match; simplify_eq/=; try done).
    all: destruct (ao_AssumedRoleId _); by simplify_eq/=.
  - destruct st' as [s|]; [|by simplify_eq/=]. unfold specificInstanceProfile in Hr. destruct (assumeRoleResult s) as [e|out] eqn:Er.
    + unfold aws_status in Hr. repeat (case_match; simplify_eq/=; try done).
    + destruct (ao_Credentials out) as [cr|] eqn:Ec; [|done]. simpl in Hr.
      destruct (cr_Expiration cr) as [e|] eqn:Ee; [|done]. simpl in Hr.
      assert (He : expires s e) by (by exists out, cr).
      destruct (cr_AccessKeyId cr), (cr_SecretAccessKey cr), (cr_SessionToken cr); simplify_eq/=.
      exists s, e. split_and!; [done..|]. by eapply Hst.
Qed.

Lemma timed_goes s s' i x p :
  im_threads s !! i = Some x → is_worker x = true → workers (im_threads s) = [x] →
  im_threads s' = <[i := Goroutine p (im_now s)]> (im_threads s) → im_now s' = im_now s → Forall fresh (im_log s') →
  (is_worker (Goroutine p (im_now s)) = true → on_time (im_now s) (Goroutine p (im_now s))) →
  (∀ st e, im_state s' = Some st → expires st e →
    is_worker (Goroutine p (im_now s)) = true ∧ renewed (Goroutine p (im_now s)) e) →
  timed s'.
Proof.
  intros Hi Hx Hws Ht Hn Hlog Hon Hren. destruct (workers_same _ _ _ (Goroutine p (im_now s)) Hi _ Hx Hws) as [_ Hins].
  unfold timed. rewrite Ht, Hn, Hins, workers_cons. split_and!; [|done|].
  - destruct (is_worker (Goroutine p _)); simpl; constructor; [by apply Hon|constructor].
  - intros st e Hst He. destruct (Hren st e Hst He) as [-> Hr]. by eexists.
Qed.

Lemma timed_idle s s' i x p :
  im_threads s !! i = Some x → is_worker x = false → is_worker (Goroutine p (im_now s)) = false →
  im_threads s' = <[i := Goroutine p (im_now s)]> (im_threads s) → im_now s' = im_now s → im_state s' = im_state s →
  Forall fresh (im_log s') → timed s → timed s'.
Proof.
  intros Hi Hx Hp Ht Hn Hst Hlog (Hon & _ & Hren). unfold timed.
  rewrite Ht, Hn, Hst, (workers_idle _ _ _ _ Hi Hx Hp). done.
Qed.

Lemma timed_spawn s p : is_worker (Goroutine p (im_now s)) = false → timed s → timed (spawn p s).
Proof. intros Hp. unfold timed. simpl. by rewrite workers_app, workers_cons, Hp, app_nil_r. Qed.

Lemma timed_later s d : 0 <= d → punctual late (Elapse d) s = true → timed s → timed (elapse d s).
Proof.
  intros Hd Hp (Hon & Hlog & Hren). split_and!; [|done..]. simpl. rewrite Forall_forall in *.
  intros g Hg. destruct (Hon g Hg) as (Hs & _ & Hc). split_and!; [lia| |done]. intros t Ht.
  simpl in Hp. rewrite forallb_forall in Hp. apply list_elem_of_filter in Hg as [_ Hg%list_elem_of_In].
  specialize (Hp g Hg). rewrite Ht in Hp. lia.
Qed.

(** The one goroutine that assumes the role, and what is known of it *)
Lemma timed_worker proxy h0 s i x :
  lives proxy h0 s → timed s → im_threads s !! i = Some x → is_worker x = true →
  workers (im_threads s) = [x] ∧ on_time (im_now s) x ∧
  (∀ st e, im_state s = Some st → expires st e → im_once s = OnceDone ∧ renewed x e).
Proof.
  intros (calling & _ & Hp) (Hon & _ & Hren) Hi Hx. destruct (phase_worker _ _ _ _ Hp Hi Hx) as [Hws _].
  split_and!; [done| |].
  - rewrite Hws in Hon. by inversion Hon.
  - intros st e Hst He. split.
    + destruct Hp as [Hp _]. destruct (im_once s); [..|done]; rewrite Hp in Hst; done.
    + destruct (Hren st e Hst He) as (g & Hg & Hr). congruence.
Qed.

Ltac bounds := unfold renewed, due_by, longest_rest, doAssumeRoleTimeout, renewalWindow, requestTimeout, defaultSessionLifetime, Minute, Second in *;
  simpl in *; try lia.

Lemma timed_call proxy h0 i x w dl s :
  lives proxy h0 s → im_threads s !! i = Some x → g_pc x = AwaitPolicy w dl → timed s → timed (call_sts proxy w dl i s).
Proof.
  intros Hl Hi Epc Ht. assert (Hx : is_worker x = true) by worker Epc.
  destruct (timed_worker _ _ _ _ _ Hl Ht Hi Hx) as (Hws & (Hs & Hd & Hc) & Hren). rewrite Epc in Hc.
  eapply (timed_goes s _ i x); [done|done|done|done|done| | |].
  - simpl. apply Forall_app. split; [apply Ht|]. by repeat constructor.
  - intros _. unfold on_time. simpl. split_and!; [done|intros t [= <-]; bounds|done|bounds|]. intros ->. specialize (Hd (g_since x + late) ltac:(unfold due_by; by rewrite Epc)). bounds.
  - intros st e Hst He. split; [done|]. destruct (Hren st e Hst He) as [_ Hr]. unfold renewed in *. by rewrite Epc in Hr.
Qed.

Lemma timed_answer proxy h0 i x w a dl r s :
  lives proxy h0 s → im_threads s !! i = Some x → g_pc x = Calling w a dl → grants (Answer i r) s = true →
  timed s → timed (sts_answers w r i s).
Proof.
  intros Hl Hi Epc Hg Ht. assert (Hx : is_worker x = true) by worker Epc.
  destruct (timed_worker _ _ _ _ _ Hl Ht Hi Hx) as (Hws & (Hs & Hd & Hc) & Hren). rewrite Epc in Hc. destruct Hc as (-> & Hdl & Hw).
  specialize (Hd (Z.max (g_since x) dl + late) ltac:(unfold due_by; by rewrite Epc)).
  assert (Hrec : timed (set_pc i (Recording w (RAS (im_now s) r)) s)).
  { eapply (timed_goes s _ i x); [done|done|done|done|done|apply Ht| |].
    - intros _. split_and!; [done|intros t [= <-]; bounds|]. simpl. intros e (out & c & [= ->] & Hc & He).
      simpl in Hg. rewrite Hi in Hg. simpl in Hg. rewrite Epc, Hc in Hg. simpl in Hg. rewrite He in Hg. apply Z.leb_le in Hg. bounds.
    - intros st e Hst He. split; [done|]. destruct (Hren st e Hst He) as [_ Hr]. unfold renewed in Hr. rewrite Epc in Hr.
      destruct w; [done|]. specialize (Hw eq_refl). bounds. }
  unfold sts_answers. destruct r; [done|]. case_match; [done|]. unfold panic_at. destruct w as [[]|]; try exact Ht.
  all: eapply (timed_goes s _ i x); [done|done|done|done|done|apply Ht|done|].
  all: intros st e Hst He; destruct (Hren st e Hst He) as [_ Hr]; unfold renewed in Hr; by rewrite Epc in Hr.
Qed.

Lemma timed_start i x c s s' :
  im_threads s !! i = Some x → g_pc x = Starting c → startRoleAssumer c i s = Some s' →
  im_once s = OnceNew → workers (im_threads s) = [] → im_state s = None → timed s → timed s'.
Proof.
  intros Hi Epc Hr Ho Hws Hst Ht. assert (Hx : is_worker x = false) by worker Epc.
  unfold startRoleAssumer in Hr. rewrite Ho in Hr. simplify_eq. unfold timed. simpl. rewrite Hst.
  rewrite (workers_first _ _ _ _ Hi Hx Hws), workers_cons. simpl. split_and!; [|apply Ht|done]. constructor; [|constructor].
  split_and!; [done..|]. simpl. bounds.
Qed.

Lemma timed_finish proxy h0 i x w st s :
  lives proxy h0 s → im_threads s !! i = Some x → g_pc x = Recording w st → timed s → timed (finish_assume w st i s).
Proof.
  intros Hl Hi Epc Ht. assert (Hx : is_worker x = true) by worker Epc.
  destruct (timed_worker _ _ _ _ _ Hl Ht Hi Hx) as (Hws & (Hs & Hd & Hc) & _). rewrite Epc in Hc.
  specialize (Hd (g_since x + late) ltac:(unfold due_by; by rewrite Epc)).
  assert (Hlog : Forall fresh (im_log s ++ [Recorded st])).
  { apply Forall_app. split; [apply Ht|]. by repeat constructor. }
  assert (Hnew : ∀ e, expires st e → im_now s + renewalWindow <= e) by (intros e He; specialize (Hc e He); bounds).
  destruct w as [c|]; unfold finish_assume.
  - unfold timed. simpl. rewrite workers_app.
    match goal with |- context [<[i := ?y]> _] => destruct (workers_same _ _ _ y Hi _ Hx Hws) as [_ ->] end.
    assert (Hnil : workers [Goroutine match c with Optimistic => Ended | _ => Loading c end (im_now s)] = []) by by destruct c.
    rewrite Hnil, workers_cons. simpl. split_and!; [|done|].
    + constructor; [|constructor]. split_and!; [done|intros t [= <-]; bounds|done].
    + intros st' e [= <-] He. eexists. split; [reflexivity|]. specialize (Hnew e He). bounds.
  - eapply (timed_goes s _ i x); [done|done|done|done|done|done| |].
    + intros _. split_and!; [done|intros t [= <-]; bounds|done].
    + intros st' e [= <-] He. split; [done|]. by apply Hnew.
Qed.

Lemma timed_decide proxy h0 i x st s s' :
  lives proxy h0 s → im_threads s !! i = Some x → g_pc x = Deciding st → run_goroutine proxy i (Deciding st) s = Some s' →
  timed s → timed s'.
Proof.
  intros Hl Hi Epc Hr Ht. assert (Hx : is_worker x = true) by worker Epc.
  destruct (timed_worker _ _ _ _ _ Hl Ht Hi Hx) as (Hws & (Hs & Hd & _) & Hren).
  specialize (Hd (g_since x + late) ltac:(unfold due_by; by rewrite Epc)).
  assert (st = im_state s) as ->.
  { destruct Hl as (calling & _ & Hp). destruct (phase_worker _ _ _ _ Hp Hi Hx) as [_ Hw]. rewrite Epc in Hw.
    destruct (im_once s); [done..|]. apply Hw. }
  simpl in Hr. destruct (maybeAssumeRole _ _) as [[]|] eqn:Em; simplify_eq; [| |exact Ht].
  - eapply (timed_goes s _ i x); [done|done|done|done|done|apply Ht| |].
    + intros _. unfold on_time. simpl. split_and!; [done|intros t [= <-]; bounds|bounds].
    + intros st e Hst He. split; [done|]. destruct (Hren st e Hst He) as [_ Hr]. unfold renewed in Hr. rewrite Epc in Hr. bounds.
  - eapply (timed_goes s _ i x); [done|done|done|done|done|apply Ht| |].
    + intros _. split_and!; [done|intros t [= <-]; bounds|done].
    + intros st e Hst (out & c & Hout & Hc & He). split; [done|]. simpl in Hst. rewrite Hst in Em. simpl in Em. rewrite Hout, Hc in Em. simpl in Em.
      rewrite He in Em. simpl in Em. injection Em as Em%Z.ltb_ge. bounds.
Qed.

Lemma timed_loop proxy h0 i x p s :
  lives proxy h0 s → im_threads s !! i = Some x →
  (g_pc x = Checking ∧ p = Deciding (im_state s) ∨ (∃ u, g_pc x = Sleeping u ∧ u <= im_now s) ∧ p = Checking ∨
   g_pc x = Resting ∧ ∃ n, p = Sleeping (im_now s + Second * (n + 1)) ∧ 0 <= n < 14) →
  timed s → timed (set_pc i p s).
Proof.
  intros Hl Hi Hpc Ht. assert (Hx : is_worker x = true).
  { unfold is_worker. by destruct Hpc as [[-> _]|[[(u & -> & _) _]|[-> _]]]. }
  destruct (timed_worker _ _ _ _ _ Hl Ht Hi Hx) as (Hws & (Hs & Hd & _) & Hren).
  eapply (timed_goes s _ i x); [done|done|done|done|done|apply Ht| |].
  - intros _. destruct Hpc as [[_ ->]|[[_ ->]|[_ (n & -> & Hn)]]]; (split_and!; [done|intros t [= <-]; bounds|done]).
  - intros st e Hst He. destruct (Hren st e Hst He) as [_ Hr]. unfold renewed in Hr. unfold due_by in Hd.
    destruct Hpc as [[E ->]|[[(u & E & Hu) ->]|[E (n & -> & Hn)]]]; rewrite E in Hr, Hd; specialize (Hd _ eq_refl); (split; [done|]); bounds.
Qed.

Lemma timed_reply s i x e :
  im_threads s !! i = Some x → is_worker x = false → fresh e → timed s → timed (set_pc i Ended (note e s)).
Proof.
  intros Hi Hx He Ht. apply (timed_idle s _ i x Ended); [done..| |done]. simpl. apply Forall_app. split; [apply Ht|]. by constructor.
Qed.

Lemma timed_reads s st e : timed s → im_state s = Some st → expires st e → im_now s + 4 * Minute <= e.
Proof.
  intros (Hon & _ & Hren) Hst He. destruct (Hren st e Hst He) as (g & Hg & Hr). rewrite Hg in Hon.
  inversion Hon; subst. by eapply renewed_lives.
Qed.

Lemma timed_run proxy h0 i x s s' :
  lives proxy h0 s → im_threads s !! i = Some x → run_goroutine proxy i (g_pc x) s = Some s' → timed s → timed s'.
Proof.
  intros Hl Hi Hr Ht. destruct (g_pc x) as [c|w dl|w a dl|w st|c| |st| |until| |] eqn:Epc; simpl in Hr; try done.
  - destruct (im_once s) eqn:Ho.
    + destruct Hl as (calling & _ & Hst & Hp). rewrite Ho in Hp. destruct Hp as [Hws _].
      eapply timed_start; [done|done|done|done|done|apply Hst; congruence|done].
    + unfold startRoleAssumer in Hr. by rewrite Ho in Hr.
    + unfold startRoleAssumer in Hr. rewrite Ho in Hr. simplify_eq.
      eapply (timed_idle s _ i x); [done|worker Epc| |reflexivity|done|done|apply Ht|done]. by destruct c.
  - destruct (im_protecting s) eqn:Epr; [done|]. simplify_eq. by eapply timed_call.
  - simplify_eq. by eapply timed_finish.
  - simplify_eq. eapply timed_reply; [done|worker Epc| |done]. apply respond_fresh. intros st e Hst He. by eapply timed_reads.
  - simplify_eq. eapply timed_loop; [done|done|by left|done].
  - by eapply timed_decide.
  - destruct (until <=? im_now s) eqn:Eu; simplify_eq. apply Z.leb_le in Eu. eapply timed_loop; [done|done| |done]. right; left; eauto.
  - destruct (im_protecting s) eqn:Epr; [done|]. simplify_eq. eapply timed_reply; [done|worker Epc|by repeat intro|done].
Qed.

Lemma timed_step proxy h0 l s s' :
  lives proxy h0 s → iam_step proxy l s = Some s' → punctual late l s = true → grants l s = true → timed s → timed s'.
Proof.
  intros Hl Hr Hp Hg Ht. unfold iam_step in Hr. destruct (im_crashed s); [done|]. destruct l as [d|c| |p|i|i r|i n].
  - destruct (0 <=? d) eqn:Hd; [|done]. simplify_eq. apply timed_later; [by apply Z.leb_le|done..].
  - destruct c; simplify_eq; by apply timed_spawn.
  - simplify_eq. by apply timed_spawn.
  - destruct (im_protecting s); simplify_eq. destruct Ht as (Hon & Hlog & Hren). split_and!; [done| |done].
    simpl. apply Forall_app. split; [done|]. by repeat constructor.
  - destruct (im_threads s !! i) as [x|] eqn:Hi; [|done]. by eapply timed_run.
  - destruct (im_threads s !! i) as [x|] eqn:Hi; [|done]. simpl in Hr. destruct (g_pc x) eqn:Epc; simplify_eq. by eapply timed_answer.
  - destruct (im_threads s !! i) as [x|] eqn:Hi; [|done]. simpl in Hr. destruct (g_pc x) eqn:Epc; try done.
    destruct (_ && _) eqn:En; simplify_eq. eapply timed_loop; [done|done| |done]. right; right. split; [done|]. exists n. split; [done|]. lia.
Qed.

Lemma timed_runs proxy h0 ls s s' :
  iam_run proxy ls s = Some s' → all_steps (λ l s, punctual late l s && grants l s) proxy ls s = true →
  lives proxy h0 s → timed s → timed s'.
Proof.
  revert s. induction ls as [|l ls IH]; simpl; intros s Hr Ha Hl Ht; [by simplify_eq|].
  destruct (iam_step proxy l s) as [s1|] eqn:E; [|done]. apply andb_true_iff in Ha as [Ha Hrest]. apply andb_true_iff in Ha as [Hp Hg].
  eapply IH; [done|done|by eapply lives_step|by eapply timed_step].
Qed.
End Renewal.

(** ** Names of sessions *)

Definition session_name (s : string) : bool := forallb session_char (String.list_ascii_of_string s).

Lemma replaceInvalid_chars k s : session_name (replaceInvalid k s) = true.
Proof.
  revert k. induction s as [|c s IH]; intros k; [done|]. simpl. destruct k; [|done].
  destruct (session_char c) eqn:E; unfold session_name in *; simpl; [by rewrite E, IH | by rewrite IH].
Qed.

Lemma replaceInvalid_id s : session_name s = true → replaceInvalid 0 s = s.
Proof.
  unfold session_name. induction s as [|c s IH]; [done|]. simpl. intros [-> H]%andb_true_iff. by rewrite IH.
Qed.

Lemma substring_prefix n s :
  session_name s = true → session_name (String.substring 0 n s) = true ∧ String.length (String.substring 0 n s) = min n (String.length s).
Proof.
  unfold session_name. revert n. induction s as [|c s IH]; intros [|n] H; simpl in *; try done.
  apply andb_true_iff in H as [-> H]. destruct (IH n H) as [-> ->]. done.
Qed.

Lemma length_string_app s s' : String.length (s +:+ s') = (String.length s + String.length s')%nat.
Proof. induction s; simpl; auto. Qed.

(** C31: whatever the bytes of a container's ID, the name of its session is one that STS accepts: 2 to 32 characters of [\w+=,.@-].
    It begins with titus-, and an ID of up to 26 such characters is part of it unchanged. *)
Theorem GenerateSessionName_accepted containerID :
  session_name (GenerateSessionName containerID) = true ∧
  (6 <= String.length (GenerateSessionName containerID) <= 32)%nat ∧
  (∃ rest, GenerateSessionName containerID = "titus-" +:+ rest) ∧
  (session_name containerID = true → (String.length containerID <= 26)%nat →
   GenerateSessionName containerID = "titus-" +:+ containerID).
Proof.
  set (name := replaceInvalid 0 ("titus-" +:+ containerID)).
  assert (Hn : name = "titus-" +:+ replaceInvalid 0 containerID) by done.
  pose proof (replaceInvalid_chars 0 ("titus-" +:+ containerID)) as Hc. fold name in Hc.
  assert (Hlen : (6 <= String.length name)%nat) by (rewrite Hn, length_string_app; simpl; lia).
  destruct (substring_prefix maxSessionNameLen name Hc) as [Hsub Hsublen].
  unfold GenerateSessionName. fold name. split_and!.
  - by destruct (_ <=? _)%nat.
  - destruct (Nat.leb_spec (String.length name) maxSessionNameLen); unfold maxSessionNameLen in *; lia.
  - destruct (Nat.leb_spec (String.length name) maxSessionNameLen); unfold maxSessionNameLen in *; lia.
  - destruct (String.length name <=? maxSessionNameLen)%nat; rewrite Hn; eexists; reflexivity.
  - intros Hid Hle. rewrite Hn, replaceInvalid_id by done.
    rewrite (proj2 (Nat.leb_le _ _)); [done|]. rewrite length_string_app. unfold maxSessionNameLen. simpl. lia.
Qed.


(** C6: if goroutines are late by at most two seconds, calls of STS end with their context and STS grants the lifetime it is asked
    for, a container never gets credentials that expire within four minutes, whatever fails: the state that the
    reply was made from has credentials, the reply says when they expire, and that is four minutes later or more. *)
Theorem credentials_fresh proxy late t optimistic prot ls s :
  0 <= late <= 2 * Second → iam_run proxy ls (newIamProxy t optimistic prot) = Some s →
  all_steps (λ l s, punctual late l s && grants l s) proxy ls (newIamProxy t optimistic prot) = true →
  ∀ t' c st r b, Replied t' c st (Some r) ∈ im_log s → rs_status r = 200 → rs_body r = RoleBody b →
  ∃ st0 expiration, st = Some st0 ∧ expires st0 expiration ∧ cb_Expiration b = awsTimeFormat expiration ∧
    t' + 4 * Minute <= expiration.
Proof.
  intros Hlate Hr Ha t' c st r b Hin H200 Hb.
  assert (Ht : timed late s).
  { eapply timed_runs; [done|done|done|by apply lives_new|]. split_and!; [|constructor|done]. by destruct optimistic; repeat constructor. }
  destruct Ht as (_ & Hlog & _). rewrite Forall_forall in Hlog. by eapply (Hlog _ Hin).
Qed.

(** ** Runs *)

Definition a_proxy : iamProxy := IamProxy "arn:aws:iam::123456789012:role/app" "b2c4/1" "app".

Definition granted (expiration : Z) : error + AssumeRoleOutput :=
  inr (ARO (Some (Credentials (Some "AKIA") (Some "secret") (Some "token") (Some expiration))) (Some "AROA:titus-b2c4_1")).

(** The first request waits for the policy and assumes the role. *)
Definition first_request : list label :=
  [Request SpecificInstanceProfile; Run 0; Protected (Some "{}"); Run 0; Elapse Second;
   Answer 0 (granted (3600 * Second)); Run 0; Run 0].

(** A round of the loop that has nothing to do *)
Definition quiet_round : list label := [Run 1; Run 1; Rest 1 13; Elapse (14 * Second); Run 1].

(** The rounds until the credentials are about to expire, and the renewal *)
Definition until_renewal : list label := first_request ++ concat (replicate 236 quiet_round) ++ [Run 1; Run 1; Run 1].

Definition renewed_run : list label :=
  until_renewal ++ [Elapse Second; Answer 1 (granted (7000 * Second)); Run 1; Request SpecificInstanceProfile; Run 2; Run 2].

Definition replies (s : option iam) : list (Z * option response) :=
  match s with
  | Some s => omap (λ e, match e with Replied t _ _ r => Some (t / Second, r) | _ => None end) (im_log s)
  | None => []
  end.

Definition second_reply : response :=
  Response 200 (RoleBody (CredBody "1970-01-01T01:56:40Z" "AKIA" "secret" "token" "AWS-HMAC" "1970-01-01T00:55:06Z" "Success" "")).

Ltac in_log := simpl; repeat first [apply list_elem_of_here | apply list_elem_of_further].

Definition second_state : roleAssumptionState := RAS (3306 * Second) (granted (7000 * Second)).

Lemma renewed_run_replies :
  ∃ s, iam_run a_proxy renewed_run (newIamProxy 0 false true) = Some s ∧
       Replied (3306 * Second) SpecificInstanceProfile (Some second_state) (Some second_reply) ∈ im_log s.
Proof. eexists. split; [vm_compute; reflexivity|]. in_log. Qed.

Lemma renewed_run_timely :
  all_steps (λ l s, punctual Second l s && grants l s) a_proxy renewed_run (newIamProxy 0 false true) = true.
Proof. vm_compute. reflexivity. Qed.

Lemma late_enough : 0 <= Second <= 2 * Second.
Proof. unfold Second. lia. Qed.

Lemma credentials_fresh_witness :
  ∃ st0 e, Some second_state = Some st0 ∧ expires st0 e ∧ "1970-01-01T01:56:40Z" = awsTimeFormat e ∧ 3306 * Second + 4 * Minute <= e.
Proof.
  destruct renewed_run_replies as (s & Hr & Hin).
  exact (credentials_fresh a_proxy Second 0 false true renewed_run s late_enough Hr renewed_run_timely _ _ _ second_reply _ Hin eq_refl eq_refl).
Defined.


Lemma GenerateSessionName_accepted_witness :
  GenerateSessionName "b2c4-1" = "titus-b2c4-1".
Proof. apply (GenerateSessionName_accepted "b2c4-1"); [reflexivity | vm_compute; lia]. Defined.

(** A renewal that fails takes away credentials that live for another five minutes: the container is told of the
    failure instead. *)
Definition throttled : awserr := AwsErr "Throttling" "Rate exceeded" (Some (400, "id")).

Definition failed_renewal : list label :=
  until_renewal ++ [Elapse Second; Answer 1 (inl (EAws throttled)); Run 1; Request SpecificInstanceProfile; Run 2; Run 2].

Lemma failed_renewal_loses_credentials :
  map (λ x, (x.1, rs_status <$> x.2)) (replies (iam_run a_proxy failed_renewal (newIamProxy 0 false true))) =
  [(1, Some 200); (3306, Some 503)].
Proof. vm_compute. reflexivity. Qed.

(** A request waits for STS for longer than ten seconds. *)
Definition slow_request : list label :=
  [Request Info; Run 0; Run 0; Elapse (29 * Second); Answer 0 (inl (ECtx true)); Run 0; Run 0].

Lemma slow_request_waits :
  map (λ x, (x.1, rs_status <$> x.2)) (replies (iam_run a_proxy slow_request (newIamProxy 0 false false))) = [(29, Some 503)].
Proof. vm_compute. reflexivity. Qed.

(** After a failed renewal the role is assumed again within half a minute. *)
Definition retried_renewal : list label :=
  until_renewal ++ [Elapse Second; Answer 1 (inl (EAws throttled)); Run 1; Rest 1 10; Elapse (11 * Second); Run 1; Run 1; Run 1; Run 1].

Definition calls (s : option iam) : list Z :=
  match s with
  | Some s => omap (λ e, match e with Called t _ => Some (t / Second) | _ => None end) (im_log s)
  | None => []
  end.

(** The policies that STS was called with *)
Definition calls_with (s : option iam) : list (option string) :=
  match s with
  | Some s => omap (λ e, match e with Called _ i => Some (ai_Policy i) | _ => None end) (im_log s)
  | None => []
  end.

Lemma renewal_retried_soon : calls (iam_run a_proxy retried_renewal (newIamProxy 0 false true)) = [0; 3305; 3317].
Proof. vm_compute. reflexivity. Qed.

(** An answer without a key ends [sync.Once] and nobody assumes the role again. *)
Definition incomplete_answer : list label :=
  [Request Info; Run 0; Run 0; Answer 0 (inr (ARO None None)); Elapse Minute; Request Info; Run 1; Run 1].

Lemma incomplete_answer_sticks :
  map (λ x, (x.1, rs_status <$> x.2)) (replies (iam_run a_proxy incomplete_answer (newIamProxy 0 false false))) = [(60, Some 503)] ∧
  calls (iam_run a_proxy incomplete_answer (newIamProxy 0 false false)) = [0].
Proof. vm_compute. done. Qed.
