(* ===== verification/Cache.v ===== *)
(** * Cache: answers kept in files

    Models [cache/cache.go] and [cache/cache_linux.go].  Processes share a directory with one file for each key; a value is
    fetched by a resolver when there is no file or it is too old, and linked into the directory when it is
    completely written, if no other process was first.

    [cache_step] is the next system call of one [Resolve], with what the operating system answers, or an answer of the
    resolver; a run is a list of labels.  A file that is open stays what it is when its name is
    removed, so a handle is the file itself.  [json.Marshal] and [Decode] are arguments, since they depend on the type of
    the value.  Keys have no slash, so that files are named by them. *)
From S2P Require Import Prelude Errors.

Open Scope string_scope.
Open Scope Z_scope.
Open Scope list_scope.

(** The errors that [Resolve] returns: those around the file, and those of the resolver as they are *)
Inductive resolve_error :=
| PreResolveError (underlyingError : error)
| PostResolveError (underlyingError : error)
| KeyResolverError (e : error).

Definition os_IsNotExist (e : errno) : bool := bool_decide (e = ENOENT).

Definition entry_path (key : string) : string := "entry-" +:+ key +:+ ".json".

Lemma app_inv_tail_string s t u : s +:+ u = t +:+ u → s = t.
Proof.
  assert (Hl : ∀ a b, String.length (a +:+ b) = (String.length a + String.length b)%nat) by (induction a; simpl; auto).
  revert t. induction s as [|c s IH]; intros [|d t] H; [done|..].
  - apply (f_equal String.length) in H. rewrite !Hl in H. simpl in H. lia.
  - apply (f_equal String.length) in H. rewrite !Hl in H. simpl in H. lia.
  - simpl in H. injection H as -> H. by rewrite (IH t).
Qed.

Lemma entry_path_inj k k' : entry_path k = entry_path k' → k = k'.
Proof. unfold entry_path. intros H. simpl in H. injection H as H. by eapply app_inv_tail_string. Qed.

Section Cache.
Context {V : Type}.
Context (json_Marshal : V → error + string) (json_Decode : string → error + V).
Context (ttl : option Z).

Record file := File { f_data : string; f_ModTime : Z }.

(** Where a call of [Resolve] is.  [Returned] has the error and what [v] points to, if it was written. *)
Inductive resolve_pc :=
| Opening
| Statting (f : file)
| Removing
| Fetching
| Writing (v : V) (data : string)
| Linking (v : V) (f : file)
| Decoding (f : file)
| Returned (err : option resolve_error) (v : option V).

(** [rc_begun] is when it was called. *)
Record resolve_call := ResolveCall { rc_key : string; rc_begun : Z; rc_pc : resolve_pc }.

(** [cs_answers] records what the resolver answered, with the time and the key, and [cs_written] what was written
    into files. *)
Record cache_state := CacheState {
  cs_now : Z;
  cs_files : gmap string file;
  cs_calls : list resolve_call;
  cs_answers : list (Z * string * V);
  cs_written : list (Z * string * V)
}.

(** A system call is answered in the usual way, or with an error. *)
Inductive cache_label :=
| CElapse (d : Z)
| CResolve (key : string)
| CRun (i : nat) (fault : option errno)
| CFetch (i : nat) (r : error + V).

Definition set_call (i : nat) (c : resolve_call) (s : cache_state) : cache_state :=
  CacheState (cs_now s) (cs_files s) (<[i:=c]> (cs_calls s)) (cs_answers s) (cs_written s).
Definition set_files (fs : gmap string file) (s : cache_state) : cache_state :=
  CacheState (cs_now s) fs (cs_calls s) (cs_answers s) (cs_written s).
Definition add_fetched (a : Z * string * V) (s : cache_state) : cache_state :=
  CacheState (cs_now s) (cs_files s) (cs_calls s) (cs_answers s ++ [a]) (cs_written s).
Definition add_written (a : Z * string * V) (s : cache_state) : cache_state :=
  CacheState (cs_now s) (cs_files s) (cs_calls s) (cs_answers s) (cs_written s ++ [a]).

Definition pre_error (e : errno) : resolve_pc := Returned (Some (PreResolveError (EErrno e))) None.

(** Is the value expired? *)
Definition expired (now : Z) (f : file) : bool :=
  match ttl with Some d => d <? now - f_ModTime f | None => false end.

(** [Resolve] goes on after [os.Open], [file.Stat], [os.Remove] and [Decode]. *)
Definition after_open (opened : errno + file) : resolve_pc :=
  match opened with
  | inr f => Statting f
  | inl e => if os_IsNotExist e then Fetching else pre_error e
  end.

Definition after_stat (now : Z) (f : file) (fault : option errno) : resolve_pc :=
  match fault with
  | Some e => pre_error e
  | None => if expired now f then Removing else Decoding f
  end.

Definition after_remove (fault : option errno) : resolve_pc :=
  match fault with
  | Some e => if os_IsNotExist e then Fetching else pre_error e
  | None => Fetching
  end.

Definition after_decode (f : file) (fault : option errno) : resolve_pc :=
  match fault with
  | Some e => pre_error e
  | None =>
      match json_Decode (f_data f) with
      | inl e => Returned (Some (PreResolveError e)) None
      | inr v => Returned None (Some v)
      end
  end.

(** [fetchValueAndCache] after the resolver *)
Definition fetchValueAndCache (r : error + V) : resolve_pc :=
  match r with
  | inl e => Returned (Some (KeyResolverError e)) None
  | inr v =>
      match json_Marshal v with
      | inl e => Returned (Some (PostResolveError e)) (Some v)
      | inr data => Writing v data
      end
  end.

(** [atomicWriteOnce]: a file without a name is written, then it gets its name, unless it is taken. *)
Definition after_write (now : Z) (v : V) (data : string) (fault : option errno) : resolve_pc :=
  match fault with
  | Some e => Returned (Some (PostResolveError (EErrno e))) (Some v)
  | None => Linking v (File data now)
  end.

Definition linkat (path : string) (fault : option errno) (fs : gmap string file) : option errno :=
  match fault with
  | Some e => Some e
  | None => match fs !! path with Some _ => Some EEXIST | None => None end
  end.

Definition run_call (i : nat) (fault : option errno) (c : resolve_call) (s : cache_state) : option cache_state :=
  let path := entry_path (rc_key c) in
  let goes p s := Some (set_call i (ResolveCall (rc_key c) (rc_begun c) p) s) in
  match rc_pc c with
  | Opening =>
      goes (after_open match fault with
                       | Some e => inl e
                       | None => match cs_files s !! path with Some f => inr f | None => inl ENOENT end
                       end) s
  | Statting f => goes (after_stat (cs_now s) f fault) s
  | Removing =>
      match fault with
      | Some e => goes (after_remove (Some e)) s
      | None => goes (after_remove match cs_files s !! path with Some _ => None | None => Some ENOENT end)
                     (set_files (delete path (cs_files s)) s)
      end
  | Writing v data => goes (after_write (cs_now s) v data fault)
           match fault with Some _ => s | None => add_written (cs_now s, rc_key c, v) s end
  | Linking v f =>
      match linkat path fault (cs_files s) with
      | Some e => goes (Returned (Some (PostResolveError (EErrno e))) (Some v)) s
      | None => goes (Returned None (Some v)) (set_files (<[path := f]> (cs_files s)) s)
      end
  | Decoding f => goes (after_decode f fault) s
  | Fetching | Returned _ _ => None
  end.

Definition cache_step (l : cache_label) (s : cache_state) : option cache_state :=
  match l with
  | CElapse d => if 0 <=? d then Some (CacheState (cs_now s + d) (cs_files s) (cs_calls s) (cs_answers s) (cs_written s)) else None
  | CResolve key => Some (CacheState (cs_now s) (cs_files s) (cs_calls s ++ [ResolveCall key (cs_now s) Opening]) (cs_answers s) (cs_written s))
  | CRun i fault => c ← cs_calls s !! i; run_call i fault c s
  | CFetch i r =>
      c ← cs_calls s !! i;
      match rc_pc c with
      | Fetching =>
          let s := match r with inr v => add_fetched (cs_now s, rc_key c, v) s | inl _ => s end in
          Some (set_call i (ResolveCall (rc_key c) (rc_begun c) (fetchValueAndCache r)) s)
      | _ => None
      end
  end.

Fixpoint cache_run (ls : list cache_label) (s : cache_state) : option cache_state :=
  match ls with
  | [] => Some s
  | l :: ls => s' ← cache_step l s; cache_run ls s'
  end.

(** [NewCache], in an empty directory *)
Definition NewCache (now : Z) : cache_state := CacheState now ∅ [] [] [].

(** [ResolveSplitErrors]: the first result is an error of the cache, the second one of the resolver. *)
Definition ResolveSplitErrors (err : option resolve_error) : option resolve_error * option error :=
  match err with
  | Some (PreResolveError e) => (Some (PreResolveError e), None)
  | Some (PostResolveError e) => (Some (PostResolveError e), None)
  | Some (KeyResolverError e) => (None, Some e)
  | None => (None, None)
  end.

(** ** What a value is *)

(** The resolver was asked for [v] since [b]. *)
Definition fetched_since (b : Z) (k : string) (v : V) (s : cache_state) : Prop :=
  ∃ t, (t, k, v) ∈ cs_answers s ∧ b <= t.

(** [v] was written, and no longer than the time to live before [b]. *)
Definition written_since (b : Z) (k : string) (v : V) (s : cache_state) : Prop :=
  ∃ w, (w, k, v) ∈ cs_written s ∧ match ttl with Some d => b - d <= w | None => True end.

Definition holds_value (k : string) (f : file) (s : cache_state) : Prop :=
  ∃ v, json_Marshal v = inr (f_data f) ∧ (f_ModTime f, k, v) ∈ cs_written s.

Definition call_ok (s : cache_state) (c : resolve_call) : Prop :=
  rc_begun c <= cs_now s ∧
  match rc_pc c with
  | Opening | Removing | Fetching => True
  | Statting f => holds_value (rc_key c) f s
  | Decoding f => holds_value (rc_key c) f s ∧ match ttl with Some d => rc_begun c - d <= f_ModTime f | None => True end
  | Writing v data => json_Marshal v = inr data ∧ fetched_since (rc_begun c) (rc_key c) v s
  | Linking v f =>
      json_Marshal v = inr (f_data f) ∧ (f_ModTime f, rc_key c, v) ∈ cs_written s ∧ fetched_since (rc_begun c) (rc_key c) v s
  | Returned None v => ∃ v', v = Some v' ∧ (fetched_since (rc_begun c) (rc_key c) v' s ∨ written_since (rc_begun c) (rc_key c) v' s)
  | Returned (Some (PostResolveError _)) v => ∃ v', v = Some v' ∧ fetched_since (rc_begun c) (rc_key c) v' s
  | Returned (Some _) v => v = None
  end.

Definition files_ok (s : cache_state) : Prop :=
  ∀ path f, cs_files s !! path = Some f → ∃ k, path = entry_path k ∧ holds_value k f s.

(** What is written was answered before. *)
Definition writes_ok (s : cache_state) : Prop :=
  ∀ w k v, (w, k, v) ∈ cs_written s → ∃ t, (t, k, v) ∈ cs_answers s ∧ t <= w.

Definition answers_ok (s : cache_state) : Prop := ∀ t k v, (t, k, v) ∈ cs_answers s → t <= cs_now s.

Definition cache_ok (s : cache_state) : Prop :=
  Forall (call_ok s) (cs_calls s) ∧ files_ok s ∧ writes_ok s ∧ answers_ok s.

(** Time goes on, and more is answered and written. *)
Definition grown (s s' : cache_state) : Prop :=
  cs_now s <= cs_now s' ∧ cs_answers s ⊆ cs_answers s' ∧ cs_written s ⊆ cs_written s'.

Lemma holds_value_grown k f s s' : grown s s' → holds_value k f s → holds_value k f s'.
Proof. intros (_ & _ & Hw) (v & Hv & Hin). exists v. split; [done|]. by apply Hw. Qed.

Lemma call_ok_grown s s' c : grown s s' → call_ok s c → call_ok s' c.
Proof.
  intros Hg [Hb Hc]. pose proof Hg as (Hn & Ha & Hw). split; [lia|].
  assert (Hf : ∀ b k v, fetched_since b k v s → fetched_since b k v s') by (intros b k v (t & ? & ?); exists t; eauto).
  destruct (rc_pc c) as [|f| | |v data|v f|f|[[]|] v]; try done.
  - by eapply holds_value_grown.
  - destruct Hc as [? ?]. eauto.
  - destruct Hc as (? & ? & ?). eauto.
  - destruct Hc as [? ?]. eauto using holds_value_grown.
  - destruct Hc as (v' & ? & ?). eauto.
  - destruct Hc as (v' & ? & [?|(w & ? & ?)]); exists v'; (split; [done|]); [left; eauto|right; exists w; eauto].
Qed.

(** Call [i] goes on, and the others see that more happened. *)
Lemma cache_ok_goes i c p s s' :
  cache_ok s → cs_calls s !! i = Some c → grown s s' →
  cs_calls s' = <[i := ResolveCall (rc_key c) (rc_begun c) p]> (cs_calls s) →
  call_ok s' (ResolveCall (rc_key c) (rc_begun c) p) → files_ok s' → writes_ok s' → answers_ok s' → cache_ok s'.
Proof.
  intros (Hc & _) Hi Hg Hcs Hp Hf Hw Ha. split_and!; [|done..]. rewrite Hcs. apply Forall_insert; [|done].
  eapply Forall_impl; [done|]. intros c'. by apply call_ok_grown.
Qed.

Lemma grown_refl s s' : cs_now s' = cs_now s → cs_answers s' = cs_answers s → cs_written s' = cs_written s → grown s s'.
Proof. intros Hn Ha Hw. unfold grown. rewrite Hn, Ha, Hw. split_and!; [lia|done..]. Qed.

Lemma files_ok_grown s s' : grown s s' → cs_files s' = cs_files s → files_ok s → files_ok s'.
Proof. intros Hg Hf Hs path f H. rewrite Hf in H. destruct (Hs path f H) as (k & ? & ?). eauto using holds_value_grown. Qed.

Context (Decode_Marshal : ∀ v data, json_Marshal v = inr data → json_Decode data = inr v).

(** A step that only moves the call *)
Lemma cache_ok_quiet i c p s :
  cache_ok s → cs_calls s !! i = Some c → (rc_begun c <= cs_now s → call_ok s (ResolveCall (rc_key c) (rc_begun c) p)) →
  cache_ok (set_call i (ResolveCall (rc_key c) (rc_begun c) p) s).
Proof.
  intros Hs Hi Hp. pose proof Hs as (Hc & Hf & Hw & Ha).
  assert (Hg : grown s (set_call i (ResolveCall (rc_key c) (rc_begun c) p) s)) by by apply grown_refl.
  eapply (cache_ok_goes i c p s); [done|done|done|done| |done..]. eapply call_ok_grown; [done|]. apply Hp.
  rewrite Forall_lookup in Hc. by destruct (Hc i c Hi).
Qed.

Lemma cache_ok_remove i c p s :
  cache_ok s → cs_calls s !! i = Some c → p = Fetching ∨ (∃ e, p = pre_error e) →
  cache_ok (set_call i (ResolveCall (rc_key c) (rc_begun c) p) (set_files (delete (entry_path (rc_key c)) (cs_files s)) s)).
Proof.
  intros Hs Hi Hp. pose proof Hs as (Hc & Hf & Hw & Ha). rewrite Forall_lookup in Hc. destruct (Hc i c Hi) as [Hb _].
  eapply (cache_ok_goes i c p s); [done|done|by apply grown_refl|done| | |done|done].
  - split; [done|]. by destruct Hp as [->|[e ->]].
  - intros path f H. simpl in H. apply lookup_delete_Some in H as [_ H]. by apply Hf.
Qed.

Lemma cache_ok_write i c v data s :
  cache_ok s → cs_calls s !! i = Some c → rc_pc c = Writing v data →
  cache_ok (set_call i (ResolveCall (rc_key c) (rc_begun c) (Linking v (File data (cs_now s)))) (add_written (cs_now s, rc_key c, v) s)).
Proof.
  intros Hs Hi Hp. pose proof Hs as (Hc & Hf & Hw & Ha). rewrite Forall_lookup in Hc. destruct (Hc i c Hi) as [Hb Hcall].
  rewrite Hp in Hcall. destruct Hcall as [Hm (t & Hin & Ht)].
  assert (Hg : grown s (set_call i (ResolveCall (rc_key c) (rc_begun c) (Linking v (File data (cs_now s)))) (add_written (cs_now s, rc_key c, v) s))).
  { split_and!; simpl; [lia|done|set_solver]. }
  eapply (cache_ok_goes i c _ s); [done|done|exact Hg|reflexivity| | | |exact Ha].
  - split; [done|]. simpl. split_and!; [done|set_solver|]. exists t. done.
  - by eapply files_ok_grown.
  - intros w k v'. simpl. rewrite elem_of_app, list_elem_of_singleton. intros [H|[= -> -> ->]]; [by apply Hw|]. exists t. split; [done|]. by eapply Ha.
Qed.

Lemma cache_ok_link i c v f s :
  cache_ok s → cs_calls s !! i = Some c → rc_pc c = Linking v f →
  cache_ok (set_call i (ResolveCall (rc_key c) (rc_begun c) (Returned None (Some v)))
    (set_files (<[entry_path (rc_key c) := f]> (cs_files s)) s)).
Proof.
  intros Hs Hi Hp. pose proof Hs as (Hc & Hf & Hw & Ha). rewrite Forall_lookup in Hc. destruct (Hc i c Hi) as [Hb Hcall].
  rewrite Hp in Hcall. destruct Hcall as (Hm & Hin & Hfe).
  eapply (cache_ok_goes i c _ s); [done|done|by apply grown_refl|reflexivity| | |done|done].
  - split; [done|]. simpl. exists v. split; [done|]. by left.
  - intros path f' H. simpl in H. apply lookup_insert_Some in H as [[<- <-]|[_ H]]; [|by apply Hf].
    exists (rc_key c). split; [done|]. by exists v.
Qed.

Lemma cache_ok_fetch i c r s :
  cache_ok s → cs_calls s !! i = Some c →
  cache_ok (set_call i (ResolveCall (rc_key c) (rc_begun c) (fetchValueAndCache r))
    match r with inr v => add_fetched (cs_now s, rc_key c, v) s | inl _ => s end).
Proof.
  intros Hs Hi. destruct r as [e|v]; [by apply cache_ok_quiet|].
  pose proof Hs as (Hc & Hf & Hw & Ha). rewrite Forall_lookup in Hc. destruct (Hc i c Hi) as [Hb _].
  set (s' := set_call _ _ _). assert (Hg : grown s s') by (split_and!; simpl; [lia|set_solver|done]).
  eapply (cache_ok_goes i c _ s); [done|done|exact Hg|reflexivity| | | |].
  - assert (Hfe : fetched_since (rc_begun c) (rc_key c) v s').
    { exists (cs_now s). split; [simpl; set_solver|done]. }
    split; [done|]. simpl. destruct (json_Marshal v) eqn:Em; simpl; eauto.
  - by eapply files_ok_grown.
  - intros w k v' H. destruct (Hw w k v' H) as (t & Hin & Ht). exists t. split; [simpl; set_solver|done].
  - intros t k v'. simpl. rewrite elem_of_app, list_elem_of_singleton. intros [H|[= -> -> ->]]; [by eapply Ha|lia].
Qed.

Lemma cache_ok_run i fault c s s' :
  cs_calls s !! i = Some c → run_call i fault c s = Some s' → cache_ok s → cache_ok s'.
Proof.
  intros Hi Hr Hs. pose proof Hs as (Hc & Hf & _). rewrite Forall_lookup in Hc. destruct (Hc i c Hi) as [Hb Hcall].
  unfold run_call in Hr. destruct (rc_pc c) as [|f| | |v data|v f|f|err v] eqn:Epc; try done.
  - simplify_eq. apply cache_ok_quiet; [done..|]. intros _. split; [done|]. simpl. destruct fault as [e|]; simpl.
    + by destruct (os_IsNotExist e).
    + destruct (cs_files s !! _) as [f|] eqn:Ef; [|done]. simpl. destruct (Hf _ _ Ef) as (k & Hk & Hv).
      by apply entry_path_inj in Hk as ->.
  - simplify_eq. apply cache_ok_quiet; [done..|]. intros _. split; [done|]. simpl. unfold after_stat, expired.
    destruct fault; [done|]. destruct ttl as [d|]; [|by simpl]. destruct (Z.ltb_spec d (cs_now s - f_ModTime f)); [done|]. simpl.
    split; [done|]. lia.
  - destruct fault as [e|]; simplify_eq.
    + apply cache_ok_quiet; [done..|]. intros _. split; [done|]. simpl. by destruct (os_IsNotExist e).
    + apply cache_ok_remove; [done..|]. left. by destruct (cs_files s !! _).
  - destruct fault as [e|]; simplify_eq.
    + apply cache_ok_quiet; [done..|]. intros _. split; [done|]. simpl. exists v. split; [done|]. apply Hcall.
    + by apply cache_ok_write.
  - destruct (linkat _ _ _) as [e|]; simplify_eq; [|by apply cache_ok_link].
    apply cache_ok_quiet; [done..|]. intros _. split; [done|]. simpl. exists v. split; [done|]. apply Hcall.
  - simplify_eq. apply cache_ok_quiet; [done..|]. intros _. destruct fault as [e|]; [done|]. split; [done|]. simpl.
    destruct Hcall as [(v & Hm & Hin) Ht]. unfold after_decode. rewrite (Decode_Marshal v (f_data f) Hm). exists v. split; [done|]. right. eexists. done.
Qed.

Lemma cache_ok_step l s s' : cache_step l s = Some s' → cache_ok s → cache_ok s'.
Proof.
  intros Hr Hs. destruct l as [d|key|i fault|i r]; simpl in Hr.
  - destruct (0 <=? d) eqn:Hd; simplify_eq. apply Z.leb_le in Hd. destruct Hs as (Hc & Hf & Hw & Ha).
    split_and!; [|done|done|].
    + eapply Forall_impl; [done|]. intros c. apply call_ok_grown. split_and!; simpl; [lia|done..].
    + intros t k v H. simpl. pose proof (Ha t k v H). lia.
  - simplify_eq. destruct Hs as (Hc & Hf & Hw & Ha). split_and!; [|done..]. simpl. apply Forall_app. split; [exact Hc|].
    constructor; [|constructor]. split; [|done]. simpl. lia.
  - destruct (cs_calls s !! i) as [c|] eqn:Hi; [|done]. by eapply cache_ok_run.
  - destruct (cs_calls s !! i) as [c|] eqn:Hi; [|done]. simpl in Hr. destruct (rc_pc c); simplify_eq. by apply cache_ok_fetch.
Qed.

Lemma cache_ok_runs ls s s' : cache_run ls s = Some s' → cache_ok s → cache_ok s'.
Proof.
  revert s. induction ls as [|l ls IH]; simpl; intros s Hr Hs; [by simplify_eq|].
  destruct (cache_step l s) as [s1|] eqn:E; [|done]. eapply IH; [done|]. by eapply cache_ok_step.
Qed.

(** C21: however processes resolve keys at the same time, and whatever system calls fail, a [Resolve] without error gives a value that the
    resolver answered for its key: during the call, or before it was written to a file, which was no longer ago than the
    time to live when the call began.  With an error around the file after the resolver, the value is a new answer all the
    same; with any other error nothing is given. *)
Theorem Resolve_current now ls s i c err v :
  cache_run ls (NewCache now) = Some s → cs_calls s !! i = Some c → rc_pc c = Returned err v →
  match err with
  | None =>
      ∃ v', v = Some v' ∧ (fetched_since (rc_begun c) (rc_key c) v' s ∨
        ∃ w t, (t, rc_key c, v') ∈ cs_answers s ∧ t <= w ∧ (w, rc_key c, v') ∈ cs_written s ∧
               match ttl with Some d => rc_begun c - d <= w | None => True end)
  | Some (PostResolveError _) => ∃ v', v = Some v' ∧ fetched_since (rc_begun c) (rc_key c) v' s
  | Some _ => v = None
  end.
Proof.
  intros Hr Hi Hp. assert (Hok : cache_ok s).
  { eapply cache_ok_runs; [done|]. split_and!; [constructor|..]; by repeat intro; set_solver. }
  destruct Hok as (Hc & _ & Hw & _). rewrite Forall_lookup in Hc. destruct (Hc i c Hi) as [_ Hcall]. rewrite Hp in Hcall.
  destruct err as [[]|]; try done. destruct Hcall as (v' & -> & [Hfe|(w & Hin & Ht)]); exists v'; (split; [done|]); [by left|right].
  destruct (Hw _ _ _ Hin) as (t & ? & ?). by exists w, t.
Qed.
End Cache.

Arguments NewCache {V} now.

(** ** Runs *)

(** Numbers as values *)
Definition number_Marshal (z : Z) : error + string := if is_int z then inr (Itoa z) else inl (EString "not a number").
Definition number_Decode (s : string) : error + Z := match Atoi s with Some z => inr z | None => inl (EString "not a number") end.

Lemma number_Decode_Marshal v data : number_Marshal v = inr data → number_Decode data = inr v.
Proof. unfold number_Marshal, number_Decode. destruct (is_int v) eqn:E; [|done]. intros [= <-]. by rewrite Atoi_Itoa. Qed.

Definition run_all (i n : nat) : list (@cache_label Z) := replicate n (CRun i None).

(** A value is fetched, used again before it is an hour old, and fetched anew later. *)
Definition hour_run : list cache_label :=
  [CResolve "vpc-1"; CRun 0 None; CFetch 0 (inr 7)] ++ run_all 0 2 ++
  [CElapse 3000; CResolve "vpc-1"] ++ run_all 1 3 ++
  [CElapse 3000; CResolve "vpc-1"] ++ run_all 2 3 ++ [CFetch 2 (inr 8)] ++ run_all 2 2.

Definition outcomes (s : option (@cache_state Z)) : list (option (option resolve_error * option Z)) :=
  match s with
  | Some s => map (λ c, match rc_pc c with Returned e v => Some (e, v) | _ => None end) (cs_calls s)
  | None => []
  end.

Lemma hour_run_outcomes :
  outcomes (cache_run number_Marshal number_Decode (Some 3600) hour_run (NewCache 0)) =
  [Some (None, Some 7); Some (None, Some 7); Some (None, Some 8)].
Proof. vm_compute. reflexivity. Qed.

Lemma Resolve_current_witness :
  ∃ s, cache_run number_Marshal number_Decode (Some 3600) hour_run (NewCache 0) = Some s ∧
  ∃ v', Some 7 = Some v' ∧ (fetched_since 3000 "vpc-1" v' s ∨
    ∃ w t, (t, "vpc-1", v') ∈ cs_answers s ∧ t <= w ∧ (w, "vpc-1", v') ∈ cs_written s ∧ 3000 - 3600 <= w).
Proof.
  eexists. split; [vm_compute; reflexivity|].
  apply (Resolve_current number_Marshal number_Decode (Some 3600) number_Decode_Marshal 0 hour_run _ 1 (ResolveCall "vpc-1" 3000 (Returned None (Some 7))) None (Some 7));
    [vm_compute; reflexivity | reflexivity | reflexivity].
Defined.

(** Two processes fetch at the same time: the second one gets an error, although it has the value. *)
Definition race_run : list cache_label :=
  [CResolve "vpc-1"; CResolve "vpc-1"; CRun 0 None; CRun 1 None; CFetch 0 (inr 7); CFetch 1 (inr 7)] ++ run_all 0 2 ++ run_all 1 2.

Lemma race_loses :
  outcomes (cache_run number_Marshal number_Decode (Some 3600) race_run (NewCache 0)) =
  [Some (None, Some 7); Some (Some (PostResolveError (EErrno EEXIST)), Some 7)].
Proof. vm_compute. reflexivity. Qed.
