(* ===== verification/ApiProtect.v ===== *)
(** * ApiProtect: the policy that restricts a container's credentials

    Models [metadataserver/api_protect.go] and [ec2util/ec2util.go].  The policy denies requests that come neither from the addresses of
    the container and its NAT nor through its VPC.  What it needs of EC2 is cached ([Cache.v]); the
    proxy assumes the role with it ([Iam.v]).

    A policy is the JSON value that is marshalled; [json.MarshalIndent] is an argument. *)
From S2P Require Import Prelude Errors NetIP Cache GoTime Iam.

Open Scope string_scope.
Open Scope list_scope.

(** A tag of EC2, whose fields are pointers *)
Record tag := Tag { tg_Key : option string; tg_Value : option string }.

(** [TagSetToMap]; [None] is a nil pointer that is dereferenced. *)
Fixpoint TagSetToMap (ret : gmap string (option string)) (tagSet : list tag) : option (gmap string (option string)) :=
  match tagSet with
  | [] => Some ret
  | t :: tagSet =>
      k ← tg_Key t;
      TagSetToMap (<[k := tg_Value t]> ret) tagSet
  end.

Record Vpc := MkVpc { vpc_VpcId : option string; vpc_Tags : list tag }.

(** [vpcResolver], with the answer of [DescribeVpcs] *)
Definition vpcResolver (answer : error + list Vpc) : error + Vpc :=
  match answer with
  | inl e => inl (EWrap "Could not describe VPCs" e)
  | inr [vpc] => inr vpc
  | inr vpcs => inl (EString ("Did not get one VPC back from describe, instead got " +:+ Itoa (Z.of_nat (length vpcs)) +:+ " VPCs"))
  end.

Definition pageSize : Z := 1000.

(** A page of [DescribeVpcEndpoints]: IDs of endpoints, and the token of the next one *)
Record page := Page { pg_VpcEndpoints : list (option string); pg_NextToken : option string }.

Section Endpoints.
(** EC2, by the token it is asked with *)
Context (DescribeVpcEndpoints : option string → error + page).

(** The loop of [vpcEndpointsResolver]; [None] when there are more than [n] pages *)
Fixpoint endpoint_pages (n : nat) (vpcEndpoints : list (option string)) (nextToken : option string) :
    option (error + list (option string)) :=
  match n with
  | O => None
  | S n =>
      match DescribeVpcEndpoints nextToken with
      | inl e => Some (inl (EWrap "Could not fetch VPC Endpoints" e))
      | inr p =>
          let vpcEndpoints := vpcEndpoints ++ pg_VpcEndpoints p in
          match pg_NextToken p with
          | None => Some (inr vpcEndpoints)
          | Some token => endpoint_pages n vpcEndpoints (Some token)
          end
      end
  end.

Definition dquote : ascii := ascii_of_nat 34.

Definition vpcEndpointsResolver (n : nat) (key : string) : option (error + list (option string)) :=
  if bool_decide (key = "") then endpoint_pages n [] None
  else Some (inl (EString ("VPC Endpoints resolver only returns the key for " +:+ String dquote (String dquote "")))).

(** The pages that follow each other from a token *)
Inductive pages_from : option string → list page → Prop :=
| pages_last token p : DescribeVpcEndpoints token = inr p → pg_NextToken p = None → pages_from token [p]
| pages_next token p token' ps :
    DescribeVpcEndpoints token = inr p → pg_NextToken p = Some token' → pages_from (Some token') ps → pages_from token (p :: ps).

(** All pages are collected, in order, with as much fuel as there are pages. *)
Lemma endpoint_pages_all token ps n acc :
  pages_from token ps → (length ps <= n)%nat →
  endpoint_pages n acc token = Some (inr (acc ++ concat (map pg_VpcEndpoints ps))).
Proof.
  intros Hp. revert n acc. induction Hp as [token p Hd Hn|token p token' ps Hd Hn Hp IH]; intros [|n] acc Hl; simpl in *; try lia;
    rewrite Hd, Hn.
  - by rewrite app_nil_r.
  - rewrite IH by lia. by rewrite app_assoc.
Qed.
End Endpoints.

(** ** The policy *)

Inductive json :=
| JString (s : string)
| JList (l : list json)
| JObject (l : list (string * json)).

Definition vpcNatTag : string := "vpcnat".

Definition strings_json (l : list string) : json := JList (map JString l).

Definition policy_json (vpcId : string) (sourceIPs vpcE : list string) : json :=
  JObject [
    ("Version", JString "2012-10-17");
    ("Statement", JList [
      JObject [
        ("Effect", JString "Deny");
        ("Resource", JString "*");
        ("Action", JString "*");
        ("Condition", JObject [
          ("NotIpAddress", JObject [("aws:SourceIP", strings_json sourceIPs)]);
          ("ForAnyValue:StringNotEquals", JObject [("aws:SourceVpc", JString vpcId); ("aws:SourceVpce", strings_json vpcE)])])];
      JObject [
        ("Effect", JString "Allow");
        ("Resource", JString "*");
        ("Action", JString "*")]])].

Definition address (ip : option IP) : list string := match ip with Some ip => [IP_String (Some ip)] | None => [] end.

Section Policy.
Context (json_MarshalIndent : json → error + string).

(** [None] is a nil pointer that is dereferenced, [Some None] the answer nil. *)
Definition generatePolicy (vpc : Vpc) (vpcEndpoints : list (option string)) (ipv4Address ipv6Address : option IP) :
    option (option string) :=
  vpcTags ← TagSetToMap ∅ (vpc_Tags vpc);
  match vpcTags !! vpcNatTag with
  | None => Some None
  | Some vpcNat =>
      vpcNat ← vpcNat;
      let sourceIPs := address ipv4Address ++ address ipv6Address ++ strings_Split vpcNat "," in
      vpcE ← mapM id vpcEndpoints;
      vpcId ← vpc_VpcId vpc;
      match json_MarshalIndent (policy_json vpcId sourceIPs vpcE) with
      | inl _ => Some None
      | inr s => Some (Some s)
      end
  end.

(** What the two caches returned: the error, and the value that was written to the argument *)
Definition getAPIProtectPolicy (vpc : option resolve_error * option Vpc)
    (vpcEndpoints : option resolve_error * option (list (option string))) (ipv4Address ipv6Address : option IP) :
    option (option string) :=
  match vpc.1 with
  | Some _ => Some None
  | None =>
      match vpcEndpoints.1 with
      | Some _ => Some None
      | None => generatePolicy (default (MkVpc None []) vpc.2) (default [] vpcEndpoints.2) ipv4Address ipv6Address
      end
  end.

(** A policy names the addresses of the container, those of the NAT, the VPC and all its endpoints. *)
Lemma generatePolicy_restricts vpc endpoints v4 v6 p :
  generatePolicy vpc endpoints v4 v6 = Some (Some p) →
  ∃ vpcId nat tags vpcE, vpc_VpcId vpc = Some vpcId ∧ TagSetToMap ∅ (vpc_Tags vpc) = Some tags ∧
    tags !! vpcNatTag = Some (Some nat) ∧ mapM id endpoints = Some vpcE ∧
    json_MarshalIndent (policy_json vpcId (address v4 ++ address v6 ++ strings_Split nat ",") vpcE) = inr p.
Proof.
  unfold generatePolicy. destruct (TagSetToMap ∅ (vpc_Tags vpc)) as [tags|]; [|done]. simpl.
  destruct (tags !! vpcNatTag) as [[nat|]|] eqn:Et; [|done..]. simpl. destruct (mapM id endpoints) as [vpcE|]; [|done]. simpl.
  destruct (vpc_VpcId vpc) as [vpcId|]; [|done]. simpl. destruct (json_MarshalIndent _) eqn:Ej; [done|]. intros [= ->].
  exists vpcId, nat, tags, vpcE. done.
Qed.

(** Any error of a cache, also one after EC2 has answered, means no policy, and the role is assumed without one. *)
Lemma cache_error_fails_open e vpc endpoints v4 v6 :
  getAPIProtectPolicy (Some (PostResolveError e), Some vpc) (None, Some endpoints) v4 v6 = Some None ∧
  calls_with (iam_run a_proxy [Protected None; Request Info; Run 0; Run 0] (newIamProxy 0 false true)) = [None].
Proof. split; reflexivity. Qed.
End Policy.
