(* ===== verification/Runner.v ===== *)
(** * Runner: the life of a task in the executor

    Models [executor/runner/runner.go] with [executor/drivers/titusdriver.go].
    [startRunner] waits for a task and starts [runContainer] as a goroutine, which
    prepares, starts and monitors the container and sends updates over a channel;
    [startRunner] passes them on, and shuts the container down after the last one.

    The goroutines, and the callers of [StartTask] and [Kill], interleave: [step]
    is what one of them does next, and a run is a list of labels that says who
    moves and what the runtime answers.  A call of the runtime and its answer are
    one step.  The channel between the goroutines holds ten updates.
    [UpdatesChan] is the list of what was sent over it; whoever reads it is
    assumed to do so.  The context of the goroutines is cancelled when
    [startRunner] returns, which it does after [runContainer] has. *)
From S2P Require Import Prelude.

Open Scope Z_scope.
Open Scope string_scope.
Open Scope list_scope.

(** ** Data *)

Inductive TitusTaskState := Starting | Running | Finished | Failed | Killed | Lost.

#[export] Instance TitusTaskState_eq_dec : EqDecision TitusTaskState.
Proof. solve_decision. Defined.

Definition IsTerminalStatus (s : TitusTaskState) : bool :=
  match s with
  | Finished | Failed | Killed | Lost => true
  | _ => false
  end.

Record NetworkConfigurationDetails := MkNetworkConfigurationDetails {
  IsRoutableIP : bool;
  IPAddress : string;
  EniIPAddress : string;
  EniIPv6Address : string;
  EniID : string;
  ResourceID : string
}.

Record Details := MkDetails {
  IPAddresses : list (string * string);
  NetworkConfiguration : option NetworkConfigurationDetails
}.

(** The type of an error of the runtime, and its [Error()]. *)
Inductive error_type :=
| RegistryImageNotFoundError | InvalidSecurityGroupError | BadEntryPointError | InvalidConfigurationError | OtherError.

Record runtime_error := RuntimeError { re_type : error_type; re_Error : string }.

Inductive Status := StatusUnknown | StatusRunning | StatusFinished | StatusFailed.

Record StatusMessage := MkStatusMessage { sm_Status : Status; sm_Msg : string }.

Record update := MkUpdate { status : TitusTaskState; msg : string; details : option Details }.

(** What is sent over [UpdatesChan]. *)
Record Update := MkUpdates {
  TaskID : string;
  State : TitusTaskState;
  Mesg : string;
  Update_Details : option Details
}.

(** The calls of the runtime and of the watcher, and the updates sent. *)
Inductive event :=
| EPrepare | EStart | EStartWatcher | EKill | EStopWatcher | ECleanup
| EUpdate (u : Update).

(** Where [runContainer] is. *)
Inductive container_pc :=
| CNone
| CBegin
| CSend (u : update) (next : container_pc)
| CPreparing
| CStarting
| CLogger (logDir : string) (d : option Details)
| CMonitor (lastMessage : string) (runningSent : bool) (d : option Details)
| CDone.

(** Where [startRunner] is. *)
Inductive runner_pc :=
| RSetup
| RWait
| RLoop (lastUpdate : option update)
| RSend (u : update)
| RNoProgress
| RKill (lastUpdate : update)
| RWatcher (lastUpdate : update) (errs : list string)
| RCleanup (lastUpdate : update) (errs : list string)
| RReport (lastUpdate : update) (errs : list string)
| RFinal
| RReturned.

Record runner := MkRunner {
  taskChan : option string;
  taskChan_closed : bool;
  killed : bool;
  updateChan : list update;
  container : container_pc;
  main : runner_pc;
  watcher : bool;
  container_TaskID : string;
  log : list event;
  crash : option string
}.

Definition set_taskChan (t : option string) (closed : bool) (r : runner) : runner :=
  MkRunner t closed (killed r) (updateChan r) (container r) (main r) (watcher r) (container_TaskID r) (log r) (crash r).
Definition set_killed (r : runner) : runner :=
  MkRunner (taskChan r) (taskChan_closed r) true (updateChan r) (container r) (main r) (watcher r) (container_TaskID r)
    (log r) (crash r).
Definition set_updateChan (c : list update) (r : runner) : runner :=
  MkRunner (taskChan r) (taskChan_closed r) (killed r) c (container r) (main r) (watcher r) (container_TaskID r)
    (log r) (crash r).
Definition set_container (c : container_pc) (r : runner) : runner :=
  MkRunner (taskChan r) (taskChan_closed r) (killed r) (updateChan r) c (main r) (watcher r) (container_TaskID r)
    (log r) (crash r).
Definition set_main (m : runner_pc) (r : runner) : runner :=
  MkRunner (taskChan r) (taskChan_closed r) (killed r) (updateChan r) (container r) m (watcher r) (container_TaskID r)
    (log r) (crash r).
(** A watcher is made and started, or none. *)
Definition start_watcher (w : bool) (r : runner) : runner :=
  MkRunner (taskChan r) (taskChan_closed r) (killed r) (updateChan r) (container r) (main r) w (container_TaskID r)
    (log r ++ if w then [EStartWatcher] else []) (crash r).
Definition set_TaskID (id : string) (r : runner) : runner :=
  MkRunner (taskChan r) (taskChan_closed r) (killed r) (updateChan r) (container r) (main r) (watcher r) id
    (log r) (crash r).
Definition add_log (e : event) (r : runner) : runner :=
  MkRunner (taskChan r) (taskChan_closed r) (killed r) (updateChan r) (container r) (main r) (watcher r)
    (container_TaskID r) (log r ++ [e]) (crash r).
Definition set_crash (s : string) (r : runner) : runner :=
  MkRunner (taskChan r) (taskChan_closed r) (killed r) (updateChan r) (container r) (main r) (watcher r)
    (container_TaskID r) (log r) (Some s).

(** [WithRuntime] makes the channels and starts [startRunner]. *)
Definition WithRuntime : runner := MkRunner None false false [] CNone RSetup false "" [] None.

(** ** Requests *)

Inductive start_answer := StartOk | StartError (e : string).

(** A send on a closed channel panics.  [r.err] is only set after a dereference
    of the nil task that comes with the error, so it always is nil here. *)
Definition StartTask (taskID : string) (r : runner) : start_answer * runner :=
  if taskChan_closed r then (StartOk, set_crash "send on closed channel" r)
  else match taskChan r with
       | None => (StartOk, set_taskChan (Some taskID) false r)
       | Some _ => (StartError "Runner already started task or not available", r)
       end.

Definition Kill (r : runner) : runner := set_killed r.

(** ** [runContainer] *)

Definition prepareContainer (err : option runtime_error) : update :=
  match err with
  | Some e =>
      match re_type e with
      | RegistryImageNotFoundError | InvalidSecurityGroupError | BadEntryPointError | InvalidConfigurationError =>
          MkUpdate Failed (re_Error e) None
      | OtherError => MkUpdate Lost (re_Error e) None
      end
  | None => MkUpdate Starting "starting" None
  end.

(** The errors of the calls [maybeSetupExternalLogger] makes, up to the
    watcher, which is always made and started. *)
Record logger_answers := LoggerAnswers {
  la_uploadCheckInterval : option string;
  la_uploadThresholdTime : option string;
  la_stdioCheckInterval : option string;
  la_keepAfterUpload : option string;
  la_uploadRegexp : option string;
  la_NewUploader : option string
}.

(** The error, and whether [r.watcher] is set. *)
Definition maybeSetupExternalLogger (logDir : string) (a : logger_answers) : option string * bool :=
  if decide (logDir = "") then (None, false)
  else match la_uploadCheckInterval a with Some e => (Some e, false) | None =>
       match la_uploadThresholdTime a with Some e => (Some e, false) | None =>
       match la_stdioCheckInterval a with Some e => (Some e, false) | None =>
       match la_keepAfterUpload a with Some e => (Some e, false) | None =>
       match la_uploadRegexp a with Some e => (Some e, false) | None =>
       match la_NewUploader a with Some e => (Some e, false) | None => (None, true)
       end end end end end end.

Definition handleTaskRunningMessage (m lastMessage : string) (runningSent : bool) (d : option Details) : container_pc :=
  if bool_decide (m = lastMessage) && runningSent then CMonitor lastMessage runningSent d
  else
    let m := if negb runningSent then if decide (m = "") then "running" else m else m in
    CSend (MkUpdate Running m d) (CMonitor m true d).

(** What [monitorContainer] does with what it received from the runtime; [None]
    when that closed the channel. *)
Definition monitorContainer (s : option StatusMessage) (lastMessage : string) (runningSent : bool) (d : option Details)
    : container_pc :=
  match s with
  | None => CSend (MkUpdate Lost "Lost connection to runtime driver" d) CDone
  | Some (MkStatusMessage st m) =>
      match st with
      | StatusRunning => handleTaskRunningMessage m lastMessage runningSent d
      | StatusFinished => CSend (MkUpdate Finished (if decide (m = "") then "finished" else m) d) CDone
      | StatusFailed => CSend (MkUpdate Failed m d) CDone
      | StatusUnknown => CSend (MkUpdate Lost m d) CDone
      end
  end.

(** What [runContainer] does with the answer of [runtime.Start]. *)
Definition startedContainer (a : runtime_error * option Details + string * option Details) : container_pc :=
  match a with
  | inl (e, d) =>
      let lost := CSend (MkUpdate Lost (re_Error e) d) CDone in
      match re_type e with
      | BadEntryPointError => CSend (MkUpdate Failed (re_Error e) d) lost
      | _ => lost
      end
  | inr (logDir, d) => CLogger logDir d
  end.

(** ** [startRunner] *)

Definition updateStatusWithDetails (s : TitusTaskState) (m : string) (d : option Details) (r : runner) : runner :=
  add_log (EUpdate (MkUpdates (container_TaskID r) s m d)) r.

Definition wasKilled (r : runner) : bool := killed r.

Section Runner.
(** [multierror]'s text of a list of errors. *)
Context (multierror_Error : list string → string).

(** [doShutdown] after [runtime.Kill] answered. *)
Definition killErrors (lastUpdate : update) (err : option string) : list string :=
  match err with
  | None => []
  | Some e => match status lastUpdate with Finished | Failed => [] | _ => [e] end
  end.

(** The end of [doShutdown]. *)
Definition reportShutdown (lastUpdate : update) (errs : list string) (r : runner) : runner :=
  let m := match errs with [] => msg lastUpdate | _ => multierror_Error errs end in
  if decide (status lastUpdate = Finished) then updateStatusWithDetails (status lastUpdate) m (details lastUpdate) r
  else if wasKilled r then updateStatusWithDetails Killed m (details lastUpdate) r
  else if negb (IsTerminalStatus (status lastUpdate)) then
    updateStatusWithDetails Lost "Container lost -- Unknown" (details lastUpdate) r
  else updateStatusWithDetails (status lastUpdate) (msg lastUpdate) (details lastUpdate) r.

(** ** Steps *)

Inductive label :=
| StartTaskCalled (taskID : string)
| KillCalled
| RuntimeProvided (err : option string)
| TaskReceived
| WaitTimeout
| ParentDone
| ContainerBegins
| ContainerSends
| Prepared (err : option runtime_error)
| Started (a : runtime_error * option Details + string * option Details)
| LoggerSetUp (a : logger_answers)
| StatusReceived (s : option StatusMessage)
| MonitorKilled
| RunnerReceives
| RunnerSends
| RuntimeKilled (err : option string)
| WatcherStopped (err : option string)
| CleanedUp (err : option string)
| Reported
| LastReceive.

Definition updateChan_cap : nat := 10.

Definition container_done (r : runner) : bool := match container r with CDone => true | _ => false end.

Definition step (l : label) (r : runner) : option runner :=
  match crash r with
  | Some _ => None
  | None =>
  match l, main r, container r with
  | StartTaskCalled id, _, _ => Some (StartTask id r).2
  | KillCalled, _, _ => Some (Kill r)
  (* setupRunner *)
  | RuntimeProvided None, RSetup, _ => Some (set_main RWait r)
  | RuntimeProvided (Some _), RSetup, _ => Some (set_main RReturned r)
  (* waitForTask: the task is nil when the context or the timer ended *)
  | TaskReceived, RWait, _ =>
      match taskChan r with
      | Some id =>
          Some (set_main (RLoop None) (set_container CBegin (set_TaskID id (set_taskChan None true r))))
      | None => None
      end
  | WaitTimeout, RWait, _ | ParentDone, RWait, _ =>
      Some (set_crash "nil pointer dereference" (set_taskChan (taskChan r) true r))
  (* runContainer *)
  | ContainerBegins, _, CBegin =>
      Some (if killed r then set_container CDone r
            else set_container (CSend (MkUpdate Starting "creating" None) CPreparing) r)
  | ContainerSends, _, CSend u next =>
      if bool_decide (length (updateChan r) < updateChan_cap)%nat
      then Some (set_container next (set_updateChan (updateChan r ++ [u]) r)) else None
  | Prepared err, _, CPreparing =>
      let u := prepareContainer err in
      Some (add_log EPrepare (set_container (CSend u (if IsTerminalStatus (status u) then CDone else CStarting)) r))
  | Started a, _, CStarting => Some (add_log EStart (set_container (startedContainer a) r))
  | LoggerSetUp a, _, CLogger logDir d =>
      let '(err, w) := maybeSetupExternalLogger logDir a in
      let r := start_watcher w r in
      Some match err, d with
           | Some e, _ => set_container (CSend (MkUpdate Lost e d) CDone) r
           | None, None => set_crash "Unable to fetch task details" r
           | None, Some _ => set_container (CMonitor "" false d) r
           end
  | StatusReceived s, _, CMonitor lastMessage runningSent d =>
      Some (set_container (monitorContainer s lastMessage runningSent d) r)
  | MonitorKilled, _, CMonitor _ _ _ => if killed r then Some (set_container CDone r) else None
  (* startRunner *)
  | RunnerReceives, RLoop lastUpdate, _ =>
      match updateChan r with
      | u :: us =>
          Some (set_main (if IsTerminalStatus (status u) then RKill u else RSend u) (set_updateChan us r))
      | [] =>
          if container_done r
          then Some (set_main match lastUpdate with Some u => RKill u | None => RNoProgress end r) else None
      end
  | RunnerSends, RSend u, _ =>
      Some (set_main (RLoop (Some u)) (updateStatusWithDetails (status u) (msg u) (details u) r))
  | RunnerSends, RNoProgress, _ =>
      Some (set_main RReturned
        (updateStatusWithDetails Lost "Task run stopped without making any progress" None r))
  (* doShutdown *)
  | RuntimeKilled err, RKill u, _ => Some (add_log EKill (set_main (RWatcher u (killErrors u err)) r))
  | WatcherStopped err, RWatcher u errs, _ =>
      Some (if watcher r then add_log EStopWatcher (set_main (RCleanup u (errs ++ option_list err)) r)
            else set_main (RCleanup u errs) r)
  | CleanedUp err, RCleanup u errs, _ => Some (add_log ECleanup (set_main (RReport u (errs ++ option_list err)) r))
  | Reported, RReport u errs, _ => Some (set_main RFinal (reportShutdown u errs r))
  | LastReceive, RFinal, _ =>
      match updateChan r with
      | _ :: _ => Some (set_crash "Received update after task was in terminal status" r)
      | [] => if container_done r then Some (set_main RReturned r) else None
      end
  | _, _, _ => None
  end
  end.

Fixpoint run (ls : list label) (r : runner) : option runner :=
  match ls with
  | [] => Some r
  | l :: ls => match step l r with Some r' => run ls r' | None => None end
  end.
End Runner.

(** ** Invariants *)

(** What [runContainer] is about to send, and where it goes then. *)
Fixpoint pending (c : container_pc) : list update :=
  match c with CSend u next => u :: pending next | _ => [] end.

Fixpoint next_pc (c : container_pc) : container_pc :=
  match c with CSend _ next => next_pc next | _ => c end.

(** The updates that [startRunner] has yet to receive. *)
Definition inflight (r : runner) : list update := updateChan r ++ pending (container r).

Definition terminal (u : update) : Prop := IsTerminalStatus (status u) = true.
Definition progress (u : update) : Prop := IsTerminalStatus (status u) = false.

(** What happens before the shutdown. *)
Definition quiet (e : event) : Prop :=
  match e with
  | EPrepare | EStart | EStartWatcher => True
  | EUpdate u => IsTerminalStatus (State u) = false
  | _ => False
  end.

(** At most [n] terminal updates are in flight, after all others, and only when
    [runContainer] has nothing left to do. *)
Definition well_ordered (n : nat) (r : runner) : Prop :=
  ∃ us ts, inflight r = us ++ ts ∧ Forall progress us ∧ Forall terminal ts ∧ (length ts ≤ n)%nat ∧
    (next_pc (container r) = CDone ∨ ts = []).

(** Nothing but [n] updates is left. *)
Definition settled (n : nat) (r : runner) : Prop := next_pc (container r) = CDone ∧ (length (inflight r) ≤ n)%nat.

Definition shut_down (w : bool) : list event := if w then [EKill; EStopWatcher] else [EKill].

(** [S n] terminal updates may be sent. *)
Definition phase (n : nat) (r : runner) : Prop :=
  match main r with
  | RSetup | RWait => container r = CNone ∧ updateChan r = [] ∧ log r = []
  | RLoop lastUpdate =>
      Forall quiet (log r) ∧ well_ordered (S n) r ∧ next_pc (container r) ≠ CNone ∧
      match lastUpdate with
      | Some u => progress u
      | None => log r = [] ∧ updateChan r = [] ∧ (container r = CBegin ∨ container r = CDone ∧ killed r = true) ∨ inflight r ≠ []
      end
  | RSend u => Forall quiet (log r) ∧ well_ordered (S n) r ∧ next_pc (container r) ≠ CNone ∧ progress u
  | RNoProgress => log r = [] ∧ killed r = true ∧ settled 0 r
  | RKill _ => Forall quiet (log r) ∧ settled n r
  | RWatcher _ _ => ∃ pre, log r = pre ++ [EKill] ∧ Forall quiet pre ∧ settled n r
  | RCleanup _ _ => ∃ pre, log r = pre ++ shut_down (watcher r) ∧ Forall quiet pre ∧ settled n r
  | RReport _ _ => ∃ pre, log r = pre ++ shut_down (watcher r) ++ [ECleanup] ∧ Forall quiet pre ∧ settled n r
  | RFinal => ∃ pre u, log r = pre ++ shut_down (watcher r) ++ [ECleanup; EUpdate u] ∧ Forall quiet pre ∧
      IsTerminalStatus (State u) = true ∧ settled n r
  | RReturned =>
      container r = CNone ∧ log r = [] ∧ updateChan r = [] ∨
      settled 0 r ∧
        (killed r = true ∧
           log r = [EUpdate (MkUpdates (container_TaskID r) Lost "Task run stopped without making any progress" None)] ∨
         ∃ pre u, log r = pre ++ shut_down (watcher r) ++ [ECleanup; EUpdate u] ∧ Forall quiet pre ∧
           IsTerminalStatus (State u) = true)
  end.

(** The answer of [runtime.Start] after which two terminal updates are sent. *)
Definition bad_entry_point (l : label) : bool :=
  match l with Started (inl (e, _)) => match re_type e with BadEntryPointError => true | _ => false end | _ => false end.

Definition extra (ls : list label) : nat := if existsb bad_entry_point ls then 1 else 0.

Section Steps.
Context (multierror_Error : list string → string).
Abbreviation step := (step multierror_Error).
Abbreviation run := (run multierror_Error).

Lemma run_app ls ls' r : run (ls ++ ls') r = match run ls r with Some r' => run ls' r' | None => None end.
Proof. revert r. induction ls as [|l ls IH]; intros r; simpl; [done|]. by destruct (step l r). Qed.

(** What a step does, by cases of the label and of where the goroutines are. *)
Ltac step_cases :=
  unfold Runner.step; repeat (case_match; try discriminate); intros [= <-]; simplify_eq.

(** *** The order of updates *)

(** What [c] is about to send keeps the order. *)
Definition sends_ordered (n : nat) (c : container_pc) : Prop :=
  ∃ us ts, pending c = us ++ ts ∧ Forall progress us ∧ Forall terminal ts ∧ (length ts ≤ n)%nat ∧ (next_pc c = CDone ∨ ts = []).

Lemma sends_progress n c : Forall progress (pending c) → sends_ordered n c.
Proof. intros H. exists (pending c), []. rewrite app_nil_r. split_and!; auto. simpl. lia. Qed.

Lemma sends_terminal n u : terminal u → sends_ordered (S n) (CSend u CDone).
Proof. intros H. exists [], [u]. split_and!; simpl; auto. lia. Qed.

Lemma prepareContainer_ordered n err :
  sends_ordered (S n) (CSend (prepareContainer err) (if IsTerminalStatus (status (prepareContainer err)) then CDone else CStarting)).
Proof.
  destruct (IsTerminalStatus _) eqn:E; [by apply sends_terminal|]. apply sends_progress. by repeat constructor.
Qed.

Lemma startedContainer_ordered n a :
  (bad_entry_point (Started a) = true → 1 ≤ n)%nat → sends_ordered (S n) (startedContainer a).
Proof.
  destruct a as [[e d]|[logDir d]]; simpl; [|intros; by apply sends_progress].
  destruct (re_type e); intros H; try by apply sends_terminal.
  exists [], [MkUpdate Failed (re_Error e) d; MkUpdate Lost (re_Error e) d]. split_and!; simpl; auto; [by repeat constructor|].
  specialize (H eq_refl). lia.
Qed.

Lemma monitorContainer_ordered n s lastMessage runningSent d : sends_ordered (S n) (monitorContainer s lastMessage runningSent d).
Proof.
  destruct s as [[[] m]|]; simpl; try by apply sends_terminal.
  unfold handleTaskRunningMessage. case_match; apply sends_progress; by repeat constructor.
Qed.

(** [runContainer] is past its last statement that is not a send. *)
Definition busy (c : container_pc) : Prop := pending c = [] ∧ c ≠ CNone ∧ c ≠ CDone.

Lemma busy_not_done c : busy c → next_pc c ≠ CDone.
Proof. intros (H & _ & H'). by destruct c. Qed.

Lemma well_ordered_next n c r :
  busy (container r) → well_ordered n r → sends_ordered n c → well_ordered n (set_container c r).
Proof.
  intros Hb (us & ts & E & Hu & Ht & _ & Hd) (us' & ts' & E' & Hu' & Ht' & Hl & Hd').
  destruct Hd as [Hd| ->]; [by destruct (busy_not_done _ Hb)|].
  exists (us ++ us'), ts'. unfold inflight in *. simpl. destruct Hb as [Hp _]. rewrite Hp, !app_nil_r in E.
  rewrite E, E', app_assoc. split_and!; auto. by apply Forall_app.
Qed.

Lemma well_ordered_same n r r' :
  inflight r' = inflight r → next_pc (container r') = next_pc (container r) → well_ordered n r → well_ordered n r'.
Proof. intros Hi Hn (us & ts & H). exists us, ts. by rewrite Hi, Hn. Qed.

Lemma settled_same n r r' :
  inflight r' = inflight r → next_pc (container r') = next_pc (container r) → settled n r → settled n r'.
Proof. unfold settled. intros -> ->. done. Qed.

Lemma phase_busy n r : phase n r → busy (container r) → (∃ lastUpdate, main r = RLoop lastUpdate) ∨ ∃ u, main r = RSend u.
Proof.
  intros Hp Hb. pose proof (busy_not_done _ Hb) as Hd. destruct Hb as (_ & Hn & _).
  unfold phase, settled in Hp. destruct (main r); eauto; exfalso; naive_solver.
Qed.

(** A step of [runContainer] that is not a send. *)
Lemma phase_container n r r' es :
  phase n r → busy (container r) → main r' = main r → killed r' = killed r → updateChan r' = updateChan r →
  log r' = log r ++ es → Forall quiet es → sends_ordered (S n) (container r') → next_pc (container r') ≠ CNone →
  (container r = CBegin → pending (container r') = [] → killed r = true ∧ container r' = CDone ∧ es = []) →
  phase n r'.
Proof.
  intros Hp Hb Em Ek Ec El Hq Hs Hc Hbegin. pose proof (phase_busy n r Hp Hb) as Hm.
  assert (well_ordered (S n) r) as Hwo by (destruct Hm as [[? E]|[? E]]; unfold phase in Hp; rewrite E in Hp; naive_solver).
  pose proof (well_ordered_next (S n) _ r Hb Hwo Hs) as Hwo'.
  apply (well_ordered_same _ _ r') in Hwo'; [|unfold inflight; simpl; by rewrite Ec|done].
  destruct Hm as [[lastUpdate E]|[u E]]; unfold phase in *; rewrite E in Hp; rewrite Em, El, E.
  - destruct Hp as (Hlog & _ & Hn & Hlast). split_and!; [by apply Forall_app | exact Hwo' | done |].
    destruct lastUpdate as [u|]; [done|]. unfold inflight in *. rewrite Ec, Ek. destruct Hb as (Hpend & _ & Hdone).
    destruct Hlast as [(Hl & Hch & [Hcb|[? _]])|Hi]; [|done|].
    + destruct (pending (container r')) eqn:Epc; [left|right; by rewrite Hch].
      destruct (Hbegin Hcb eq_refl) as (Hk & -> & ->). rewrite Hl. split_and!; auto.
    + right. rewrite Hpend, app_nil_r in Hi. by destruct (updateChan r).
  - destruct Hp as (Hlog & _ & Hn & Hu). split_and!; [by apply Forall_app | exact Hwo' | done | done].
Qed.

Lemma phase_send n r u next :
  container r = CSend u next → phase n r → phase n (set_container next (set_updateChan (updateChan r ++ [u]) r)).
Proof.
  intros Hc. assert (inflight (set_container next (set_updateChan (updateChan r ++ [u]) r)) = inflight r) as Hi.
  { unfold inflight. simpl. rewrite Hc. simpl. by rewrite <- app_assoc. }
  assert (next_pc next = next_pc (container r)) as Hn by (by rewrite Hc).
  pose proof (well_ordered_same (S n) r _ Hi Hn) as Hw. pose proof (λ k, settled_same k r _ Hi Hn) as Hs.
  unfold phase. rewrite Hi. simpl. rewrite Hn.
  destruct (main r); simpl; try solve [intros [Hn' _]; congruence | naive_solver].
  - intros (?&?&?&Hlast). split_and!; auto. destruct lastUpdate; [done|]. right.
    destruct Hlast as [(_&_&[?|[? _]])|?]; congruence.
  - intros [[? _]|[? H]]; [congruence|]. right. split; [by apply Hs | done].
Qed.

Lemma well_ordered_receive n r u us :
  updateChan r = u :: us → well_ordered (S n) r →
  if IsTerminalStatus (status u) then settled n (set_updateChan us r) else well_ordered (S n) (set_updateChan us r).
Proof.
  unfold well_ordered, settled, inflight. simpl. intros -> (vs & ts & E & Hv & Ht & Hl & Hd).
  destruct (IsTerminalStatus (status u)) eqn:Eu.
  - destruct vs as [|v vs]; simpl in *; [|apply Forall_cons in Hv as [Hv _]; unfold progress in Hv; congruence].
    destruct Hd as [Hd| ->]; [|done]. split; [done|]. rewrite <- E in Hl. simpl in Hl. lia.
  - destruct vs as [|v vs]; simpl in *.
    + subst ts. apply Forall_cons in Ht as [Ht _]. unfold terminal in Ht. congruence.
    + apply Forall_cons in Hv as [_ Hv]. exists vs, ts. naive_solver.
Qed.

Lemma phase_receive n r u us lastUpdate :
  main r = RLoop lastUpdate → updateChan r = u :: us → phase n r →
  phase n (set_main (if IsTerminalStatus (status u) then RKill u else RSend u) (set_updateChan us r)).
Proof.
  intros Hm Hu. unfold phase at 1. rewrite Hm. intros (Hq & Hw & Hn & _). pose proof (well_ordered_receive n r u us Hu Hw) as H.
  unfold phase. destruct (IsTerminalStatus (status u)) eqn:E; simpl; auto.
Qed.

Lemma phase_closed n r lastUpdate :
  main r = RLoop lastUpdate → updateChan r = [] → container r = CDone → phase n r →
  phase n (set_main match lastUpdate with Some u => RKill u | None => RNoProgress end r).
Proof.
  intros Hm Hu Hc. unfold phase at 1. rewrite Hm. intros (Hq & _ & _ & Hlast).
  assert (inflight r = []) as Hi by (unfold inflight; by rewrite Hu, Hc).
  assert (∀ k, settled k r) as Hs by (intros k; unfold settled; rewrite Hc, Hi; simpl; split; [done|lia]).
  destruct lastUpdate; unfold phase; simpl; [exact (conj Hq (Hs n))|].
  destruct Hlast as [(? & _ & [?|[_ ?]])|?]; [congruence | by split_and!; [| |apply (Hs 0%nat)] | done].
Qed.

Lemma reportShutdown_log u errs r :
  ∃ v, reportShutdown multierror_Error u errs r = add_log (EUpdate v) r ∧ IsTerminalStatus (State v) = true.
Proof.
  unfold reportShutdown, updateStatusWithDetails. case_decide as E; [eexists; split; [done|]; simpl; by rewrite E|].
  repeat case_match; eexists; (split; [done|]); simpl; try done. by apply negb_false_iff.
Qed.

(** A step that neither moves a goroutine nor uses the channel. *)
Lemma phase_same n r r' :
  main r' = main r → container r' = container r → updateChan r' = updateChan r → log r' = log r → watcher r' = watcher r →
  container_TaskID r' = container_TaskID r → (killed r = true → killed r' = true) → phase n r → phase n r'.
Proof.
  intros Em Ec Eu El Ew Et Hk. unfold phase, well_ordered, settled, inflight. rewrite Em, Ec, Eu, El, Ew, Et.
  destruct (main r) as [| |[]| | | | | | | |]; try done.
  - intros (?&?&?&[(?&?&[?|[]])|?]); auto 10.
  - intros (?&?&?); auto.
  - intros [?|[? [[]|?]]]; auto 10.
Qed.

Ltac container_moves es :=
  match goal with
  | Hp : phase ?n ?r, H : container ?r = _ |- phase ?n _ =>
      eapply (phase_container n r _ es Hp); simpl; rewrite ?H, ?app_nil_r; try done; try by repeat constructor;
      try first [by apply sends_terminal | by apply sends_progress; repeat constructor]
  end.

Ltac logger_moves :=
  match goal with
  | E : maybeSetupExternalLogger _ _ = (_, ?w) |- _ =>
      let es := constr:(if w then [EStartWatcher] else []) in container_moves es; destruct w; by repeat constructor
  end.

Ltac receives :=
  match goal with
  | Hm : main ?r = RLoop ?last, Hu : updateChan ?r = ?u :: ?us, Ht : IsTerminalStatus _ = _, Hp : phase ?n ?r |- _ =>
      let H := fresh in pose proof (phase_receive n r u us last Hm Hu Hp) as H; rewrite Ht in H; exact H
  end.

Ltac at_main :=
  match goal with
  | Hm : main ?r = _, Hp : phase ?n ?r |- _ => unfold phase in Hp; rewrite Hm in Hp; unfold phase; simpl
  end.

(** The phases are kept by every step. *)
Lemma phase_step n l r r' : (bad_entry_point l = true → 1 ≤ n)%nat → phase n r → step l r = Some r' → phase n r'.
Proof.
  intros Hbad Hp. step_cases.
  - (* StartTask *) unfold StartTask. repeat case_match; simpl; by apply (phase_same n r).
  - by apply (phase_same n r).
  - at_main. left. naive_solver.
  - by at_main.
  - at_main. destruct Hp as (_ & Eu & El). rewrite El. split_and!; [done| |done|left; auto].
    exists [], []. unfold inflight. simpl. rewrite Eu. split_and!; auto; simpl; lia.
  - by apply (phase_same n r).
  - by apply (phase_same n r).
  - container_moves (@nil event).
  - container_moves (@nil event).
  - by eapply phase_send.
  - container_moves [EPrepare].
  - container_moves [EPrepare].
  - container_moves [EStart]; [by apply startedContainer_ordered | by destruct a as [[[[] ?] ?] | []]].
  - logger_moves.
  - logger_moves.
  - logger_moves.
  - container_moves (@nil event); [by apply monitorContainer_ordered|].
    destruct s as [[[] m]|]; simpl; try done. unfold handleTaskRunningMessage. by case_match.
  - container_moves (@nil event).
  - by apply (phase_closed n r (Some u)); [.. | unfold container_done in *; case_match | ].
  - by apply (phase_closed n r None); [.. | unfold container_done in *; case_match | ].
  - receives.
  - receives.
  - at_main. destruct Hp as (?&?&?&?). split_and!; auto. apply Forall_app. by repeat constructor.
  - at_main. destruct Hp as (-> & ? & Hs). right. split; [by apply Hs|]. auto.
  - at_main. destruct Hp as [? Hs]. eexists. split_and!; [done | done | exact Hs].
  - at_main. destruct Hp as (pre & -> & ? & Hs). exists pre. split_and!; [|done|exact Hs].
    unfold shut_down. case_match; [|done]. by rewrite <- app_assoc.
  - at_main. destruct Hp as (pre & -> & ? & Hs). exists pre. split_and!; [|done|exact Hs]. unfold shut_down. by case_match.
  - at_main. destruct Hp as (pre & -> & ? & Hs). exists pre. split_and!; [|done|exact Hs]. by rewrite <- app_assoc.
  - destruct (reportShutdown_log lastUpdate errs r) as (v & -> & Hv). at_main. destruct Hp as (pre & -> & ? & Hs).
    exists pre, v. split_and!; [|done|done|exact Hs]. by rewrite <- !app_assoc.
  - at_main. destruct Hp as (pre & v & ? & ? & ? & [? Hs]). right. split; [|eauto 10].
    unfold settled, inflight. simpl. match goal with Hu : updateChan r = _ |- _ => rewrite Hu end.
    unfold container_done in *. by destruct (container r).
  - by apply (phase_same n r).
Qed.

Lemma phase_mono n m r : (n ≤ m)%nat → phase n r → phase m r.
Proof.
  intros Hnm.
  assert (settled n r → settled m r) as Hs by (unfold settled; intuition lia).
  assert (well_ordered (S n) r → well_ordered (S m) r) as Hw.
  { intros (us & ts & ?&?&?&?&?). exists us, ts. split_and!; auto. lia. }
  unfold phase. destruct (main r); naive_solver.
Qed.

(** In every state of a run. *)
Lemma phase_run ls r : run ls WithRuntime = Some r → phase (extra ls) r.
Proof.
  revert r. induction ls as [|l ls IH] using rev_ind; intros r; [by intros [= <-]|]. rewrite run_app.
  destruct (run ls WithRuntime) as [r0|] eqn:E; [|done]. simpl. destruct (step l r0) as [r1|] eqn:Es; [|done]. intros [= ->].
  assert (extra ls ≤ extra (ls ++ [l]) ∧ (bad_entry_point l = true → 1 ≤ extra (ls ++ [l])))%nat as [H1 H2].
  { unfold extra. rewrite existsb_app. simpl. destruct (existsb _ ls), (bad_entry_point l); simpl; lia. }
  eapply phase_step; [exact H2| |exact Es]. eapply phase_mono; [exact H1|]. by apply IH.
Qed.

(** *** Where statuses come from *)

Definition reports_finished (l : label) : bool :=
  match l with StatusReceived (Some (MkStatusMessage StatusFinished _)) => true | _ => false end.

Definition reports_failed (l : label) : bool :=
  match l with
  | StatusReceived (Some (MkStatusMessage StatusFailed _)) => true
  | Prepared (Some e) => match re_type e with OtherError => false | _ => true end
  | _ => bad_entry_point l
  end.

Definition is_kill (l : label) : bool := match l with KillCalled => true | _ => false end.

Definition held (m : runner_pc) : list update :=
  match m with
  | RLoop (Some u) | RSend u | RKill u | RWatcher u _ | RCleanup u _ | RReport u _ => [u]
  | _ => []
  end.

(** Some label of the run is the reason for the status. *)
Definition cause (ls : list label) (s : TitusTaskState) : Prop :=
  match s with
  | Finished => existsb reports_finished ls = true
  | Failed => existsb reports_failed ls = true
  | Killed => existsb is_kill ls = true
  | _ => True
  end.

Definition event_cause (ls : list label) (e : event) : Prop := match e with EUpdate u => cause ls (State u) | _ => True end.

Record caused (ls : list label) (r : runner) : Prop := {
  caused_inflight : Forall (λ u, cause ls (status u)) (inflight r);
  caused_held : Forall (λ u, cause ls (status u)) (held (main r));
  caused_killed : killed r = true → existsb is_kill ls = true;
  caused_log : Forall (event_cause ls) (log r)
}.

Lemma cause_app ls l s : cause ls s → cause (ls ++ l) s.
Proof. destruct s; simpl; try done; rewrite existsb_app; by intros ->. Qed.

Lemma caused_app ls l r : caused ls r → caused (ls ++ l) r.
Proof.
  intros [H1 H2 H3 H4]. split.
  - eapply Forall_impl; [exact H1|]. eauto using cause_app.
  - eapply Forall_impl; [exact H2|]. eauto using cause_app.
  - rewrite existsb_app. intros H. by rewrite H3.
  - eapply Forall_impl; [exact H4|]. intros []; simpl; eauto using cause_app.
Qed.

Lemma cause_last ls l s :
  match s with Finished => reports_finished l | Failed => reports_failed l | Killed => is_kill l | _ => true end = true →
  cause (ls ++ [l]) s.
Proof. destruct s; simpl; try done; rewrite existsb_app; simpl; intros ->; by rewrite orb_true_r. Qed.

Lemma StartTask_keeps id r :
  ∃ t c k, (StartTask id r).2 = MkRunner t c (killed r) (updateChan r) (container r) (main r) (watcher r) (container_TaskID r) (log r) k.
Proof. unfold StartTask. repeat case_match; simpl; destruct r; simpl; eauto. Qed.

Lemma prepareContainer_cause ls err : cause (ls ++ [Prepared err]) (status (prepareContainer err)).
Proof. apply cause_last. destruct err as [[[] m]|]; done. Qed.

Lemma startedContainer_cause ls a :
  Forall (λ u, cause (ls ++ [Started a]) (status u)) (pending (startedContainer a)).
Proof. destruct a as [[[[] m] d]|[]]; repeat (constructor; simpl; [|done || idtac]); try done; by apply (cause_last _ _ Failed). Qed.

Lemma monitorContainer_cause ls s lastMessage runningSent d :
  Forall (λ u, cause (ls ++ [StatusReceived s]) (status u)) (pending (monitorContainer s lastMessage runningSent d)).
Proof.
  destruct s as [[[] m]|]; simpl; try unfold handleTaskRunningMessage; try case_match; repeat constructor; simpl.
  all: first [by apply (cause_last _ _ Finished) | by apply (cause_last _ _ Failed)].
Qed.

Ltac use_places :=
  repeat match goal with
  | Hc : container _ = _ |- _ => rewrite Hc in *; clear Hc
  | Hc : updateChan _ = _ |- _ => rewrite Hc in *; clear Hc
  end; simpl in *.

(** What is in flight has a cause. *)
Lemma inflight_cause ls l r r' :
  step l r = Some r' → Forall (λ u, cause (ls ++ [l]) (status u)) (inflight r) →
  Forall (λ u, cause (ls ++ [l]) (status u)) (inflight r').
Proof.
  unfold inflight. step_cases; simpl in *; intros H'; use_places.
  all: rewrite ?Forall_app, ?Forall_cons in *; try (intuition; done).
  - by destruct (StartTask_keeps taskID r) as (? & ? & ? & ->).
  - destruct H'. auto using prepareContainer_cause.
  - destruct H'. auto using prepareContainer_cause.
  - destruct H'. auto using startedContainer_cause.
  - destruct H'. auto using monitorContainer_cause.
  - by destruct H' as [_ [??]%Forall_app].
  - by destruct H' as [_ [??]%Forall_app].
  - by destruct (reportShutdown_log lastUpdate errs r) as (? & -> & _).
Qed.

Lemma reportShutdown_cause ls u errs r :
  cause ls (status u) → (killed r = true → existsb is_kill ls = true) →
  ∃ v, reportShutdown multierror_Error u errs r = add_log (EUpdate v) r ∧ cause ls (State v).
Proof.
  intros Hu Hk. unfold reportShutdown, updateStatusWithDetails, wasKilled.
  repeat case_match; eexists; (split; [done|]); simpl; auto.
Qed.

Lemma caused_step ls l r r' : caused ls r → step l r = Some r' → caused (ls ++ [l]) r'.
Proof.
  intros Hc Hs. apply (caused_app _ [l]) in Hc as [H1 H2 H3 H4]. pose proof (inflight_cause ls l r r' Hs H1) as H1'.
  assert (existsb is_kill (ls ++ [KillCalled]) = true) as Hkill by (rewrite existsb_app; simpl; by rewrite orb_true_r).
  split; [exact H1'| | |]; clear H1'; revert Hs.
  - unfold inflight in H1. step_cases; simpl in *; use_places;
      repeat match goal with Hm : main _ = _ |- _ => rewrite Hm in *; clear Hm end; simpl in *; try done.
    all: rewrite ?Forall_app, ?Forall_cons in *.
    + by destruct (StartTask_keeps taskID r) as (? & ? & ? & ->).
    + by destruct H1.
    + by destruct H1.
  - step_cases; simpl in *; auto.
    + by destruct (StartTask_keeps taskID r) as (? & ? & ? & ->).
    + intros. congruence || auto.
    + by destruct (reportShutdown_log lastUpdate errs r) as (? & -> & _).
  - step_cases; simpl in *; repeat match goal with Hm : main _ = _ |- _ => rewrite Hm in *; clear Hm end; simpl in *; auto.
    all: try (apply Forall_app; split; [done|]; repeat case_match; by repeat constructor).
    + by destruct (StartTask_keeps taskID r) as (? & ? & ? & ->).
    + apply Forall_cons in H2 as [H2 _]. apply Forall_app. split; [done|]. by apply Forall_singleton.
    + apply Forall_cons in H2 as [H2 _]. destruct (reportShutdown_cause _ _ errs r H2 H3) as (v & -> & Hv).
      simpl. apply Forall_app. split; [done|]. by apply Forall_singleton.
Qed.

Lemma caused_run ls r : run ls WithRuntime = Some r → caused ls r.
Proof.
  revert r. induction ls as [|l ls IH] using rev_ind; intros r; [intros [= <-]; by repeat constructor|]. rewrite run_app.
  destruct (run ls WithRuntime) as [r0|] eqn:E; [|done]. simpl. destruct (step l r0) as [r1|] eqn:Es; [|done]. intros [= ->].
  eapply caused_step; [|exact Es]. by apply IH.
Qed.

(** *** A status that is not lost *)

Definition unreported (m : runner_pc) : list update := match m with RLoop _ => [] | _ => held m end.

Definition finished (u : update) : Prop := status u = Finished.

Definition finished_event (e : event) : Prop := match e with EUpdate u => State u = Finished | _ => False end.

(** The runtime said that the task finished, and this is on its way or reported. *)
Definition delivered (r : runner) : Prop :=
  Exists finished (inflight r) ∨ Exists finished (unreported (main r)) ∨ Exists finished_event (log r).

Lemma delivered_reports l r r' : reports_finished l = true → step l r = Some r' → delivered r'.
Proof.
  destruct l; try done. destruct s as [[[] m]|]; try done. intros _. step_cases. left. unfold inflight. simpl.
  apply Exists_app. right. by left.
Qed.

Lemma delivered_step n l r r' : phase n r → delivered r → step l r = Some r' → delivered r'.
Proof.
  unfold delivered, inflight. intros Hp Hd. step_cases; simpl in *; use_places;
    repeat match goal with Hm : main _ = _ |- _ => rewrite Hm in Hd end; simpl in *;
    rewrite ?app_nil_r, ?Exists_app, ?Exists_cons, ?Exists_nil in *; try tauto; try done.
  - destruct (StartTask_keeps taskID r) as (? & ? & ? & ->). simpl. tauto.
  - at_main. by destruct Hp as (Ec & Eu & El); rewrite Ec, Eu, El in *; simpl in *; rewrite !Exists_nil in *; tauto.
  - rewrite Exists_app in Hd. tauto.
  - rewrite Exists_app in Hd. tauto.
  - unfold reportShutdown, finished. case_decide; [|destruct (reportShutdown_log lastUpdate errs r) as (v & E & _)].
    + simpl. rewrite Exists_app, Exists_cons. simpl. tauto.
    + unfold reportShutdown in E. rewrite decide_False in E by done. rewrite E. simpl. rewrite Exists_app. tauto.
Qed.

Lemma delivered_run ls r : run ls WithRuntime = Some r → existsb reports_finished ls = true → delivered r.
Proof.
  revert r. induction ls as [|l ls IH] using rev_ind; intros r; [done|]. rewrite run_app, existsb_app.
  destruct (run ls WithRuntime) as [r0|] eqn:E; [|done]. simpl. destruct (step l r0) as [r1|] eqn:Es; [|done]. intros [= ->].
  rewrite orb_false_r, orb_true_iff. intros [H|H]; [|by eapply delivered_reports].
  eapply delivered_step; [by eapply phase_run | by apply IH | exact Es].
Qed.

(** *** A bad entry point *)

(** The second terminal update is still to come. *)
Definition doomed (r : runner) : Prop :=
  match main r with
  | RLoop _ | RSend _ => ∃ us u v, inflight r = us ++ [u; v] ∧ terminal u
  | RKill _ | RWatcher _ _ | RCleanup _ _ | RReport _ _ | RFinal => inflight r ≠ []
  | _ => False
  end.

Lemma inflight_send r u next :
  container r = CSend u next → inflight (set_container next (set_updateChan (updateChan r ++ [u]) r)) = inflight r.
Proof. intros Hc. unfold inflight. simpl. rewrite Hc. simpl. by rewrite <- app_assoc. Qed.

Lemma doomed_starts n l r r' : phase n r → bad_entry_point l = true → step l r = Some r' → doomed r'.
Proof.
  intros Hp Hl. destruct l; try done. destruct a as [[[[] m] d]|]; try done. step_cases.
  destruct (phase_busy n r Hp) as [[? E]|[? E]]; [by repeat split; congruence || by match goal with H : container r = _ |- _ => rewrite H end| |].
  all: unfold doomed, inflight; simpl; rewrite E; by do 3 eexists.
Qed.

Lemma doomed_busy r : doomed r → main r ≠ RReturned.
Proof. unfold doomed. by destruct (main r). Qed.

Lemma doomed_same r r' : main r' = main r → inflight r' = inflight r → doomed r → doomed r'.
Proof. unfold doomed. by intros -> ->. Qed.

Lemma doomed_not_busy n r : phase n r → doomed r → ¬ busy (container r).
Proof.
  intros Hp Hd Hb. pose proof (phase_busy n r Hp Hb) as Hm. pose proof (busy_not_done _ Hb) as Hn.
  assert (well_ordered (S n) r) as (us & ts & E & Hu & Ht & _ & Hdone)
    by (destruct Hm as [[? E]|[? E]]; unfold phase in Hp; rewrite E in Hp; naive_solver).
  destruct Hdone as [? | ->]; [done|]. rewrite app_nil_r in E.
  assert (∃ us u v, inflight r = us ++ [u; v] ∧ terminal u) as (vs & u & v & E' & Hterm).
  { unfold doomed in Hd. destruct Hm as [[? Em]|[? Em]]; by rewrite Em in Hd. }
  rewrite <- E, E' in Hu. apply Forall_app in Hu as [_ [Hu _]%Forall_cons]. unfold progress, terminal in *. congruence.
Qed.

Lemma doomed_inflight r : doomed r → inflight r ≠ [].
Proof. unfold doomed. destruct (main r); try done; intros (us & ? & ? & -> & _); by destruct us. Qed.

Lemma doomed_receive r us u last :
  doomed r → main r = RLoop last → updateChan r = u :: us →
  doomed (set_main (if IsTerminalStatus (status u) then RKill u else RSend u) (set_updateChan us r)).
Proof.
  intros Hd Em Eu. unfold doomed in *. rewrite Em in Hd. destruct Hd as (vs & v1 & v2 & E & Ht).
  unfold inflight in *. rewrite Eu in E. destruct vs as [|v vs]; simpl in *; injection E as -> E.
  - unfold terminal in Ht. rewrite Ht. simpl. by rewrite E.
  - destruct (IsTerminalStatus (status v)); simpl; rewrite E; [by destruct vs | eauto].
Qed.

Lemma doomed_step n l r r' : phase n r → doomed r → step l r = Some r' → doomed r'.
Proof.
  intros Hp Hd. pose proof (doomed_not_busy n r Hp Hd) as Hnb. unfold busy in Hnb.
  step_cases;
    try (exfalso; apply Hnb; split_and!; done);
    try (exfalso; unfold doomed in Hd; match goal with Hm : main _ = _ |- _ => rewrite Hm in Hd end; exact Hd);
    try (by apply (doomed_same r)).
  - by destruct (StartTask_keeps taskID r) as (? & ? & ? & ->).
  - apply (doomed_same r); [done | by apply inflight_send | done].
  - exact (doomed_inflight r Hd).
  - exfalso. apply (doomed_inflight r Hd). unfold inflight, container_done in *. use_places. by destruct (container r).
  - match goal with Hu : updateChan r = ?v :: ?l, Hm : main r = RLoop ?o, Ht : IsTerminalStatus _ = _ |- _ =>
      pose proof (doomed_receive r l v o Hd Hm Hu) as H'; by rewrite Ht in H' end.
  - match goal with Hu : updateChan r = ?v :: ?l, Hm : main r = RLoop ?o, Ht : IsTerminalStatus _ = _ |- _ =>
      pose proof (doomed_receive r l v o Hd Hm Hu) as H'; by rewrite Ht in H' end.
  - unfold doomed in *. match goal with Hm : main _ = _ |- _ => rewrite Hm in Hd end. exact Hd.
  - exact (doomed_inflight r Hd).
  - exact (doomed_inflight r Hd).
  - exact (doomed_inflight r Hd).
  - exact (doomed_inflight r Hd).
  - destruct (reportShutdown_log lastUpdate errs r) as (? & -> & _). exact (doomed_inflight r Hd).
  - exfalso. apply (doomed_inflight r Hd). unfold inflight, container_done in *. use_places. by destruct (container r).
Qed.

Lemma doomed_run ls r : run ls WithRuntime = Some r → existsb bad_entry_point ls = true → doomed r.
Proof.
  revert r. induction ls as [|l ls IH] using rev_ind; intros r; [done|]. rewrite run_app, existsb_app.
  destruct (run ls WithRuntime) as [r0|] eqn:E; [|done]. simpl. destruct (step l r0) as [r1|] eqn:Es; [|done]. intros [= ->].
  pose proof (phase_run ls r0 E) as Hp. rewrite orb_false_r, orb_true_iff.
  intros [H|H]; [eapply doomed_step; eauto | by eapply doomed_starts].
Qed.

(** The panic of [startRunner] is the one for an update after the last one. *)
Definition late_update : string := "Received update after task was in terminal status".

Lemma panic_state l r r' : step l r = Some r' → crash r' = Some late_update → main r' = RFinal ∧ inflight r' ≠ [].
Proof.
  unfold inflight, late_update. step_cases; simpl in *; try (intros; congruence).
  - unfold StartTask. repeat case_match; simpl; intros; congruence.
  - destruct (reportShutdown_log lastUpdate errs r) as (? & -> & _). simpl. intros; congruence.
  - intros _. by use_places.
Qed.

(** *** Steps are bounded *)

Fixpoint container_weight (c : container_pc) : nat :=
  match c with
  | CNone | CDone => 0
  | CSend _ next => 4 + container_weight next
  | CMonitor _ _ _ => 9
  | CLogger _ _ => 10
  | CStarting => 11
  | CPreparing => 16
  | CBegin => 21
  end.

Definition main_weight (m : runner_pc) : nat :=
  match m with
  | RReturned => 0
  | RFinal | RNoProgress => 1
  | RReport _ _ => 2
  | RCleanup _ _ => 3
  | RWatcher _ _ => 4
  | RKill _ => 5
  | RLoop _ => 6
  | RSend _ => 7
  | RWait => 28
  | RSetup => 29
  end.

Definition weight (r : runner) : nat :=
  match crash r with
  | Some _ => 0
  | None => S (container_weight (container r) + 3 * length (updateChan r) + main_weight (main r))
  end.

(** Steps that are not made by the two goroutines, and messages of the runtime. *)
Definition outside (l : label) : bool :=
  match l with StartTaskCalled _ | KillCalled | StatusReceived _ => true | _ => false end.

Definition is_status (l : label) : bool := match l with StatusReceived _ => true | _ => false end.

Lemma step_weight l r r' :
  step l r = Some r' → (weight r' + (if outside l then 0 else 1) ≤ weight r + (if is_status l then 4 else 0))%nat.
Proof.
  unfold weight. step_cases; simpl in *; rewrite ?length_app in *; simpl in *; try lia;
    try (match goal with Hu : updateChan r = [] |- _ => rewrite Hu end; simpl; lia).
  - destruct (StartTask_keeps taskID r) as (? & ? & ? & ->). simpl. lia.
  - destruct a as [[[[] ?] ?]|[]]; simpl; lia.
  - destruct s as [[[] m]|]; simpl; try unfold handleTaskRunningMessage; try case_match; simpl; lia.
  - destruct (reportShutdown_log lastUpdate errs r) as (? & -> & _). simpl. lia.
Qed.

Lemma run_weight ls r r' :
  run ls r = Some r' →
  (weight r' + length (filter (λ l, outside l = false) ls) ≤ weight r + 4 * length (filter (λ l, is_status l = true) ls))%nat.
Proof.
  revert r. induction ls as [|l ls IH]; intros r; [intros [= ->]; simpl; lia|]. simpl.
  destruct (step l r) as [r1|] eqn:E; [|done]. intros Hr. specialize (IH r1 Hr). apply step_weight in E.
  rewrite !filter_cons. repeat case_decide; simpl; destruct (outside l), (is_status l); try done; lia.
Qed.

(** *** Somebody can move *)

(** A label of one of the goroutines, with what the runtime might answer. *)
Definition next_container (r : runner) : label :=
  match container r with
  | CBegin => ContainerBegins
  | CSend _ _ => ContainerSends
  | CPreparing => Prepared None
  | CStarting => Started (inr (EmptyString, None))
  | CLogger _ _ => LoggerSetUp (LoggerAnswers None None None None None None)
  | _ => if killed r then MonitorKilled else StatusReceived None
  end.

Definition next_main (r : runner) : label :=
  match main r with
  | RSetup => RuntimeProvided None
  | RWait => match taskChan r with Some _ => TaskReceived | None => WaitTimeout end
  | RLoop _ => RunnerReceives
  | RSend _ | RNoProgress => RunnerSends
  | RKill _ => RuntimeKilled None
  | RWatcher _ _ => WatcherStopped None
  | RCleanup _ _ => CleanedUp None
  | RReport _ _ => Reported
  | RFinal | RReturned => LastReceive
  end.

Lemma container_moves_on r :
  crash r = None → updateChan r = [] → container r ≠ CNone → container r ≠ CDone → is_Some (step (next_container r) r).
Proof.
  intros Hc Hu H1 H2. unfold next_container, Runner.step. rewrite Hc, Hu.
  destruct (container r) eqn:E; try done; simpl; repeat case_match; try done; eauto.
Qed.

Lemma goroutines_move n r :
  phase n r → crash r = None → main r ≠ RReturned →
  is_Some (step (next_main r) r) ∨ is_Some (step (next_container r) r).
Proof.
  intros Hp Hc Hr.
  assert (updateChan r = [] → next_pc (container r) ≠ CNone → container_done r = false → is_Some (step (next_container r) r)) as Hmove.
  { intros Hu Hn Hd. apply container_moves_on; auto; unfold container_done in Hd; by destruct (container r). }
  assert (container_done r = true ∨ container_done r = false) as Hdone by (destruct (container_done r); auto).
  unfold phase, settled in Hp.
  destruct (main r) eqn:Em; unfold next_main; rewrite Em; try (left; unfold Runner.step; rewrite Hc, Em; by eauto).
  - left. unfold Runner.step. destruct (taskChan r) eqn:Et; rewrite Hc, Em; eauto.
  - destruct Hp as (_ & _ & Hn & _). destruct (updateChan r) eqn:Eu; [destruct Hdone as [Hd|Hd]|]; [left | right; by apply Hmove | left].
    all: unfold Runner.step; rewrite Hc, Em, Eu, ?Hd; eauto.
  - destruct Hp as (_ & _ & _ & _ & _ & Hn & _).
    destruct (updateChan r) eqn:Eu; [destruct Hdone as [Hd|Hd]|]; [left | right; apply Hmove; congruence | left].
    all: unfold Runner.step; rewrite Hc, Em, Eu, ?Hd; eauto.
Qed.

(** *** Preparing comes before starting *)

Definition is_launch (e : event) : bool := match e with EPrepare | EStart | EStartWatcher => true | _ => false end.

Definition launches (r : runner) : list event := List.filter is_launch (log r).

(** A watcher was started. *)
Definition watches (es : list event) : bool := existsb (λ e, match e with EStartWatcher => true | _ => false end) es.

Definition all_launches : list event := [EPrepare; EStart; EStartWatcher].

Definition launched (r : runner) : Prop :=
  watcher r = watches (launches r) ∧
  match next_pc (container r) with
  | CStarting => launches r = [EPrepare]
  | CLogger _ _ => launches r `prefix_of` all_launches ∧ (crash r = None → launches r = [EPrepare; EStart])
  | CMonitor _ _ _ | CDone => launches r `prefix_of` all_launches
  | _ => launches r = []
  end.

Lemma launched_same r r' :
  next_pc (container r') = next_pc (container r) → launches r' = launches r → watcher r' = watcher r →
  (crash r' = None → crash r = None) → launched r → launched r'.
Proof. unfold launched. intros -> -> -> Hc. destruct (next_pc _); naive_solver. Qed.

Ltac launch :=
  match goal with
  | Hl : launched ?r, Hc : container ?r = _ |- _ =>
      destruct Hl as [Hw Hl]; unfold launched, launches in *; rewrite Hc in Hl; simpl in Hl |- *;
      rewrite ?List.filter_app; simpl; rewrite ?app_nil_r, ?Hl in *; (split; [done|]); try done
  end.

Lemma launches_logger w r logDir d :
  launched r → container r = CLogger logDir d → crash r = None →
  w = watches (launches (start_watcher w r)) ∧ launches (start_watcher w r) `prefix_of` all_launches.
Proof.
  intros [_ Hl] Hc Hk. rewrite Hc in Hl. destruct Hl as [_ Hl]. specialize (Hl Hk). unfold launches in *. simpl.
  rewrite List.filter_app, Hl. destruct w; split; try done. by exists [EStartWatcher].
Qed.

Ltac logged :=
  match goal with
  | Hl : launched ?r, Hc : container ?r = CLogger _ _, E : maybeSetupExternalLogger _ _ = (_, ?w) |- _ =>
      destruct (launches_logger w r _ _ Hl Hc ltac:(done)); split; [done|]; simpl; rewrite ?Hc; done
  end.

Ltac monitored :=
  match goal with
  | Hl : launched ?r, Hc : container ?r = CMonitor _ _ _ |- _ => destruct Hl as [Hw Hl]; rewrite Hc in Hl; split; [exact Hw|]; simpl in *
  end.

Lemma launched_step n l r r' : phase n r → launched r → step l r = Some r' → launched r'.
Proof.
  intros Hp Hl. step_cases;
    try (apply (launched_same r); [done | by unfold launches; simpl; rewrite ?List.filter_app; simpl; rewrite ?app_nil_r | done | done | done]).
  all: try logged.
  - destruct (StartTask_keeps taskID r) as (? & ? & ? & ->). by apply (launched_same r).
  - at_main. destruct Hp as (_ & _ & El). unfold launched, launches in *. simpl. rewrite El in *. by destruct Hl.
  - launch. apply prefix_nil.
  - launch.
  - apply (launched_same r); [simpl | done | done | done | done]. by match goal with Hc : container r = _ |- _ => rewrite Hc end.
  - launch. by eexists.
  - launch.
  - launch. destruct a as [[[[] ?] ?]|[]]; simpl; repeat split; done || by exists [EStartWatcher].
  - monitored. destruct s as [[[] m]|]; simpl; try done. unfold handleTaskRunningMessage. by destruct (_ && _).
  - by monitored.
  - destruct (reportShutdown_log lastUpdate errs r) as (? & -> & _). apply (launched_same r); [done| |done|done|done].
    unfold launches. simpl. rewrite List.filter_app. simpl. by rewrite app_nil_r.
Qed.

Lemma launched_run ls r : run ls WithRuntime = Some r → launched r.
Proof.
  revert r. induction ls as [|l ls IH] using rev_ind; intros r; [by intros [= <-]|]. rewrite run_app.
  destruct (run ls WithRuntime) as [r0|] eqn:E; [|done]. simpl. destruct (step l r0) as [r1|] eqn:Es; [|done]. intros [= ->].
  eapply launched_step; [by eapply phase_run | by apply IH | exact Es].
Qed.
End Steps.

(** ** The life of a task *)

(** Updates of progress while the container is prepared and started and a watcher is
    started, at most once and in this order; then the runtime is told to kill, the watcher is
    stopped exactly if one was started, the runtime cleans up, and the terminal update is sent. *)
Definition life (es : list event) : Prop :=
  ∃ pre u, es = pre ++ shut_down (watches pre) ++ [ECleanup; EUpdate u] ∧ Forall quiet pre ∧
    List.filter is_launch pre `prefix_of` all_launches ∧ IsTerminalStatus (State u) = true.

Definition no_progress (es : list event) : Prop :=
  ∃ id, es = [EUpdate (MkUpdates id Lost "Task run stopped without making any progress" None)].

Lemma launches_prefix r : launched r → launches r `prefix_of` all_launches.
Proof.
  intros [_ H]. destruct (next_pc (container r)); try rewrite H; try apply prefix_nil; try done.
  - by exists [EStart; EStartWatcher].
  - apply H.
Qed.

Lemma watches_app es es' : watches (es ++ es') = watches es || watches es'.
Proof. apply existsb_app. Qed.

Lemma watches_launches es : watches (List.filter is_launch es) = watches es.
Proof. induction es as [|[] es IH]; simpl; done || exact IH. Qed.

(** A shutdown starts no watcher, so the one that is stopped was started before it. *)
Lemma launched_watches r pre rest : launched r → log r = pre ++ rest → watches rest = false → watches pre = watcher r.
Proof.
  intros [-> _] E Hr. unfold launches. rewrite watches_launches, E, watches_app, Hr. by rewrite orb_false_r.
Qed.

(** What is logged so far can be completed to a life. *)
Lemma life_prefix pre rest u es :
  es = pre ++ rest → rest `prefix_of` shut_down (watches pre) ++ [ECleanup; EUpdate u] → Forall quiet pre →
  List.filter is_launch es `prefix_of` all_launches → IsTerminalStatus (State u) = true →
  ∃ l, life l ∧ es `prefix_of` l.
Proof.
  intros -> [more E] Hq Hp Ht. exists (pre ++ shut_down (watches pre) ++ [ECleanup; EUpdate u]). split.
  - exists pre, u. split_and!; try done. rewrite List.filter_app in Hp.
    etrans; [|exact Hp]. by apply prefix_app_r.
  - rewrite E. exists more. by rewrite app_assoc.
Qed.

(** * Theorems *)

(** C3: however requests, goroutines and answers of the runtime interleave,
    what the runner has done is the beginning of a life, in which exactly a watcher that was
    started is stopped and no update follows the terminal one, or it is one update that there was no progress.  A
    runner that returns has completed a life, unless its set-up failed and nothing was done, or the task was
    killed before it was created and that update was sent. *)
Theorem runner_life multierror_Error ls r :
  run multierror_Error ls WithRuntime = Some r →
  (∃ l, (life l ∨ no_progress l) ∧ log r `prefix_of` l) ∧
  (main r = RReturned →
     container r = CNone ∧ log r = [] ∨ killed r = true ∧ no_progress (log r) ∨ life (log r)).
Proof.
  intros Hrun. pose proof (phase_run _ _ _ Hrun) as Hp. pose proof (launched_run _ _ _ Hrun) as Hla.
  pose proof (launches_prefix _ Hla) as Hl. set (u0 := MkUpdates "" Lost "" None).
  assert (∀ pre rest u, log r = pre ++ rest → rest `prefix_of` shut_down (watches pre) ++ [ECleanup; EUpdate u] → Forall quiet pre →
            IsTerminalStatus (State u) = true → ∃ l, (life l ∨ no_progress l) ∧ log r `prefix_of` l) as Hpre.
  { intros. edestruct life_prefix as (l & ? & ?); eauto. }
  assert (Forall quiet (log r) → ∃ l, (life l ∨ no_progress l) ∧ log r `prefix_of` l) as Hquiet.
  { intros. eapply (Hpre _ [] u0); [by rewrite app_nil_r | apply prefix_nil | done | done]. }
  assert (∀ pre u, log r = pre ++ shut_down (watcher r) ++ [ECleanup; EUpdate u] → Forall quiet pre →
            IsTerminalStatus (State u) = true → life (log r)) as Hlife.
  { intros pre u E ? ?. assert (watches pre = watcher r) as Ew by (eapply launched_watches; [done|exact E|by destruct (watcher r)]).
    exists pre, u. rewrite Ew. split_and!; try done. unfold launches in Hl. rewrite E, List.filter_app in Hl.
    etrans; [|exact Hl]. by apply prefix_app_r. }
  unfold phase in Hp. destruct (main r); (split; [|try done]).
  - destruct Hp as (_ & _ & El). apply Hquiet. by rewrite El.
  - destruct Hp as (_ & _ & El). apply Hquiet. by rewrite El.
  - apply Hquiet. tauto.
  - apply Hquiet. tauto.
  - destruct Hp as (El & _). apply Hquiet. by rewrite El.
  - apply Hquiet. tauto.
  - destruct Hp as (pre & E & ? & _). eapply (Hpre _ _ u0 E); [|done|done].
    unfold shut_down. case_match; eexists; reflexivity.
  - destruct Hp as (pre & E & ? & _). eapply (Hpre _ _ u0 E); [|done|done].
    rewrite (launched_watches r pre _ Hla E) by (by destruct (watcher r)). by eexists.
  - destruct Hp as (pre & E & ? & _). eapply (Hpre _ _ u0 E); [|done|done].
    rewrite (launched_watches r pre _ Hla E) by (by destruct (watcher r)). exists [EUpdate u0]. by rewrite <- app_assoc.
  - destruct Hp as (pre & u & E & ? & ? & _). exists (log r). split; [left; by eapply Hlife | done].
  - destruct Hp as [(_ & El & _)|(_ & [[_ E]|(pre & u & E & ? & ?)])].
    + apply Hquiet. by rewrite El.
    + exists (log r). split; [right; by eexists | done].
    + exists (log r). split; [left; by eapply Hlife | done].
  - intros _. destruct Hp as [(? & ? & _)|(_ & [[? E]|(pre & u & E & ? & ?)])]; [auto | right; left | right; right; eauto].
    split; [done|]. by eexists.
Qed.

(** the terminal update says what happened: [Finished] exactly when the
    runtime said the task finished, also when it was killed meanwhile; [Failed] only
    when the runtime said so or could not prepare the task for a reason of the task;
    [Killed] only when somebody called [Kill]. *)
Theorem runner_final_status multierror_Error ls r :
  run multierror_Error ls WithRuntime = Some r →
  (∀ u, EUpdate u ∈ log r → cause ls (State u)) ∧
  (main r = RReturned → existsb reports_finished ls = true → ∃ u, EUpdate u ∈ log r ∧ State u = Finished).
Proof.
  intros Hrun. split.
  - intros u Hu. pose proof (caused_log _ _ (caused_run _ _ _ Hrun)) as H. rewrite Forall_forall in H. exact (H _ Hu).
  - intros Hm Hf. pose proof (phase_run _ _ _ Hrun) as Hp. unfold phase in Hp. rewrite Hm in Hp.
    assert (inflight r = []) as Hi.
    { destruct Hp as [(Ec & _ & Eu)|([_ Hlen] & _)]; [unfold inflight; by rewrite Ec, Eu|].
      destruct (inflight r); [done | simpl in Hlen; lia]. }
    destruct (delivered_run _ _ _ Hrun Hf) as [H|[H|H]].
    + rewrite Hi in H. by apply Exists_nil in H.
    + rewrite Hm in H. by apply Exists_nil in H.
    + apply Exists_exists in H as ([] & ? & ?); try done. eauto.
Qed.

(** C26: the goroutines make at most 30 steps, and four more for every message of the
    runtime; until the runner has returned or crashed, one of them can make a step
    whatever was asked of the runner. *)
Theorem runner_terminates multierror_Error ls r :
  run multierror_Error ls WithRuntime = Some r →
  (length (filter (λ l, outside l = false) ls) ≤ 30 + 4 * length (filter (λ l, is_status l = true) ls))%nat ∧
  (crash r = None → main r ≠ RReturned →
     is_Some (step multierror_Error (next_main r) r) ∨ is_Some (step multierror_Error (next_container r) r)).
Proof.
  intros Hrun. split.
  - apply run_weight in Hrun. simpl in Hrun. lia.
  - intros. eapply goroutines_move; eauto. by eapply phase_run.
Qed.

(** [startRunner] panics over an update after the last one exactly for a bad
    entry point: only after [runtime.Start] answered with such an error, and then
    it never returns. *)
Theorem runner_panics_bad_entry_point multierror_Error ls r :
  run multierror_Error ls WithRuntime = Some r →
  (crash r = Some late_update → existsb bad_entry_point ls = true) ∧
  (existsb bad_entry_point ls = true → main r ≠ RReturned).
Proof.
  intros Hrun. split; [|intros H; eapply doomed_busy, doomed_run; eauto].
  intros Hc. pose proof (phase_run _ _ _ Hrun) as Hp.
  destruct ls as [|l ls] using rev_ind; [by simplify_eq/=|]. clear IHls. pose proof Hrun as Hrun'. rewrite run_app in Hrun'.
  destruct (run _ ls WithRuntime) as [r0|]; [|done]. simpl in Hrun'. destruct (step _ l r0) as [r1|] eqn:Es; [|done].
  simplify_eq. destruct (panic_state _ _ _ _ Es Hc) as [Hm Hi]. unfold phase in Hp. rewrite Hm in Hp.
  destruct Hp as (_ & _ & _ & _ & _ & _ & Hlen). unfold extra in Hlen. destruct (existsb _ _); [done|].
  destruct (inflight r); simpl in *; [done | lia].
Qed.

(** * Concrete runs *)

Definition no_errors (errs : list string) : string := "errors".

Definition some_details : option Details := Some (MkDetails [] None).

(** A task that runs and finishes, with a watcher. *)
Definition good_run : list label :=
  [RuntimeProvided None; StartTaskCalled "task"; TaskReceived; ContainerBegins; ContainerSends; RunnerReceives; Prepared None;
   RunnerSends; ContainerSends; Started (inr ("/logs", some_details));
   LoggerSetUp (LoggerAnswers None None None None None None); StatusReceived (Some (MkStatusMessage StatusRunning ""));
   ContainerSends; KillCalled; StatusReceived (Some (MkStatusMessage StatusFinished "")); RunnerReceives; RunnerSends;
   ContainerSends; RunnerReceives; RunnerSends; RunnerReceives; RuntimeKilled None; WatcherStopped None;
   CleanedUp (Some "leak"); Reported; LastReceive].

(** [runtime.Start] says that the entry point is bad. *)
Definition bad_run : list label :=
  [RuntimeProvided None; StartTaskCalled "task"; TaskReceived; ContainerBegins; ContainerSends; RunnerReceives; RunnerSends;
   Prepared None; ContainerSends; RunnerReceives; RunnerSends; Started (inl (RuntimeError BadEntryPointError "no such file", None));
   ContainerSends; RunnerReceives; RuntimeKilled None; WatcherStopped None; CleanedUp None; Reported; ContainerSends; LastReceive].

Definition after (ls : list label) : runner :=
  match run no_errors ls WithRuntime with Some r => r | None => WithRuntime end.

Lemma runner_life_witness : main (after good_run) = RReturned ∧ life (log (after good_run)).
Proof.
  split; [reflexivity|].
  destruct (proj2 (runner_life no_errors good_run (after good_run) ltac:(vm_compute; reflexivity)) ltac:(vm_compute; reflexivity))
    as [[H _]|[[_ [id H]]|H]]; [vm_compute in H; discriminate H | vm_compute in H; discriminate H | exact H].
Defined.

Lemma runner_final_status_witness :
  killed (after good_run) = true ∧ ∃ u, EUpdate u ∈ log (after good_run) ∧ State u = Finished.
Proof. split; [reflexivity|]. apply (runner_final_status no_errors good_run (after good_run)); vm_compute; reflexivity. Defined.

Lemma runner_terminates_witness :
  length (filter (λ l, outside l = false) good_run) = 22%nat ∧
  (length (filter (λ l, outside l = false) good_run) ≤ 30 + 4 * length (filter (λ l, is_status l = true) good_run))%nat.
Proof. split; [reflexivity|]. apply (runner_terminates no_errors good_run (after good_run)). vm_compute; reflexivity. Defined.

Lemma runner_panics_bad_entry_point_witness :
  crash (after bad_run) = Some late_update ∧ existsb bad_entry_point bad_run = true.
Proof. split; [reflexivity|]. apply (runner_panics_bad_entry_point no_errors bad_run (after bad_run)); vm_compute; reflexivity. Defined.
