(* ===== verification/Scenario.v ===== *)
(** * Scenario: a small account, and the theorems on it

    A database with one instance, its trunk ENI and a few branch ENIs, an EC2
    that answers plausibly, and runs of the handlers there.  The runs show that
    the hypotheses of the theorems can hold, and what the handlers do when
    nothing fails. *)
From S2P Require Import Prelude Errors Limits Schema Service Logic TxLogic BranchEni GenerateAssignment AssignV3 UnassignV3 LongLivedLock ExcessBranches GcV3 TrunkEnis InternalApis Reconcile ScheduledTasks Allocate.

Open Scope string_scope.
Open Scope Z_scope.
Open Scope list_scope.

(** ** The account *)

Definition sg : list string := ["sg-1"; "sg-2"].

Definition branch (id : string) (sgs : list string) : branch_eni_row :=
  BranchEniRow id "account" "subnet-1" "us-east-1a" "vpc-1" sgs false (Some "0a:0b") None 0.

Definition attached_row (id : Z) (eni : string) (idx : Z) (assoc : string) : attachment :=
  Attachment id eni "eni-trunk" idx (Some assoc) (Some ("token-" +:+ eni)) None attached None None None None 5 (Some 6).

Definition unattaching_row (id : Z) (eni : string) (idx : Z) (assoc : string) : attachment :=
  Attachment id eni "eni-trunk" idx (Some assoc) (Some ("token-" +:+ eni)) (Some ("dtoken-" +:+ eni)) unattaching
    (Some false) None None None 5 (Some 6).

Definition attaching_row (id : Z) (eni : string) (idx : Z) : attachment :=
  Attachment id eni "eni-trunk" idx None (Some ("token-" +:+ eni)) None attaching None None None None 5 None.

(** [eni-1] is attached and unused, [eni-2] attached and used by [task-0] with an
    elastic IP, [eni-3] is being detached. *)
Definition account_db (more_enis : list branch_eni_row) (more : list attachment) : db := {|
  branch_enis := [branch "eni-1" sg; branch "eni-2" ["sg-3"]; branch "eni-3" []] ++ more_enis;
  branch_eni_attachments :=
    [attached_row 1 "eni-1" 1 "assoc-1"; attached_row 2 "eni-2" 2 "assoc-2"; unattaching_row 3 "eni-3" 3 "assoc-3"]
    ++ more;
  assignments := [AssignmentRow 7 "assoc-2" "task-0" (Some "10.0.0.7") None true];
  trunk_enis := [TrunkEniRow 1 "eni-trunk" "account" "us-east-1a" "subnet-1" "vpc-1" "us-east-1" (Some "0a:00") (Some 3) None];
  subnets := [SubnetRow "subnet-1" "us-east-1a" "use1-az1" "vpc-1" "account" "10.0.0.0/18"];
  account_mapping := [AccountMappingRow "account" "us-east-1a" "vpc-1" "subnet-1"];
  availability_zones := [AzRow "account" "us-east-1" "use1-az1" "us-east-1a" "us-east-1" "us-east-1"];
  ip_addresses := [IpAddressRow "static-1" "us-east-1a" "us-east-1" "subnet-1" "10.0.0.11" "eni-home" "account" "" "" "" ""];
  ip_address_attachments := [];
  elastic_ips := [ElasticIpRow "eip-1" "account" "52.0.0.1" "us-east-1" "us-east-1" ∅];
  elastic_ip_attachments := [ElasticIpAttachment 4 "eip-1" "task-0" (Some "eipassoc-1")];
  ip_last_used_v3 := [IpLastUsedRow "10.0.0.12" "vpc-1" 9];
  branch_eni_last_used := [("eni-2", 3)];
  eni_permissions := [];
  htb_classid := [HtbClassRow 1 1 (Some 7) 101; HtbClassRow 2 1 None 102];
  long_lived_locks := [LockRow 1 "gc_us-east-1" (Some "host-a") 1030];
  scheduled_tasks := [ScheduledTaskRow 1 "elastic_ip_us-east-1_account" 100 (Some "host-a")];
  accounts := [("us-east-1", "account")];
  ip_addresses_new := [];
  static_enis := [("eni-home", "subnet-1")];
  trusted_public_keys := [];
  ip_last_used := []
|}.

Definition account : db := account_db [] [].

Definition start (d : db) : world := World d ∅ 0 [] [] [] 100 0 1000 [].

(** EC2 knows the instance and gives every ENI the same four addresses. *)
Definition iface (id : string) : network_interface :=
  NetworkInterface id "subnet-1" "account" "us-east-1a" "vpc-1" "0a:0b" "in-use" sg "10.0.0.10"
    [PrivateIp "10.0.0.10" true None; PrivateIp "10.0.0.11" false None; PrivateIp "10.0.0.12" false None;
     PrivateIp "10.0.0.13" false None] [] None.

Definition the_instance : instance :=
  Instance "i-1" "m5.xlarge" "us-east-1a" "subnet-1"
    [InstanceEni "eni-primary" "account" "subnet-1" "0a:01" "interface" 0 "vpc-1" "";
     InstanceEni "eni-trunk" "account" "subnet-1" "0a:00" "trunk" 1 "vpc-1" "titus-trunk"] "account".

Definition kind_ec2 : ec2_oracle := λ A _ c,
  match c in ec2_call A return error + A with
  | GetSession _ _ => inr tt
  | DescribeInstance _ _ => inr the_instance
  | DescribeNetworkInterface id => inr (iface id)
  | DescribeNetworkInterfaces ids _ => inr (iface <$> ids, None)
  | AssociateTrunkInterface _ branch _ _ => inr ("trunk-assoc-" +:+ branch)
  | DisassociateTrunkInterface _ _ => inr tt
  | CreateNetworkInterface _ _ => inr (iface "eni-new")
  | CreateTrunkNetworkInterface _ _ => inr (iface "eni-trunk-new")
  | CreateStaticNetworkInterface _ _ _ _ => inr (iface "eni-static-new")
  | AttachNetworkInterface _ _ _ => inr tt
  | DescribeNetworkInterfacesByDescription _ _ _ => inr ([iface "eni-1"; iface "eni-2"; iface "eni-3"], None)
  | DescribeTrunkInterfaceAssociations _ => inr (["assoc-1"; "assoc-2"; "assoc-3"], None)
  | ModifyNetworkInterfaceDescription _ _ => inr tt
  | ModifyNetworkInterfaceSourceDestCheck _ _ => inr tt
  | ModifyNetworkInterfaceDeleteOnTermination _ _ _ => inr tt
  | DeleteNetworkInterface _ => inr tt
  | ModifyNetworkInterfaceGroups _ _ => inr tt
  | CreateNetworkInterfacePermission _ _ => inr tt
  | AssignPrivateIpCount _ n => inr ["10.0.0.20"; "10.0.0.21"]
  | AssignPrivateIps _ ips _ => inr ips
  | UnassignPrivateIps _ _ => inr tt
  | AssignIpv6Count _ _ => inr ["fd00::1"]
  | AssignIpv6s _ ips => inr ips
  | UnassignIpv6s _ _ => inr tt
  | AssociateAddress _ _ _ => inr "eipassoc-new"
  | DisassociateAddress _ => inr tt
  | DescribeAddresses =>
      inr [Address "eip-1" "52.0.0.1" "us-east-1" [("titus_vpc_pool", "pool-1")]; Address "eip-2" "52.0.0.2" "us-east-1" []]
  | DescribeSubnets owner _ =>
      inr ([Ec2Subnet "subnet-1" "us-east-1a" "use1-az1" "vpc-1" owner "10.0.0.0/18";
            Ec2Subnet "subnet-2" "us-east-1b" "use1-az2" "vpc-1" owner "10.0.64.0/18"], None)
  | DescribeSubnetsByID ids => inr ((λ id, Ec2Subnet id "us-east-1a" "use1-az1" "vpc-1" "acc-1" "10.0.0.0/18") <$> ids)
  | DescribeSecurityGroups _ _ => inr ["sg-default"]
  | DescribeAvailabilityZones =>
      inr [AvailabilityZone "us-east-1" "us-east-1" "us-east-1" "use1-az1" "us-east-1a";
           AvailabilityZone "us-east-1" "us-east-1" "us-east-1" "use1-az2" "us-east-1b"]
  end.

Definition the_request : AssignIPRequestV3 :=
  AssignIPRequest (Some ("i-1", "us-east-1", "account")) "task-1" sg true [] "" (Ipv4AddressRequested true) false
    ElasticEmpty.

(** ** Its world is sane *)

Lemma start_sane d : schema_ok d → attachments_wf d → machine_sane (start d).
Proof. by split. Qed.

Ltac schema := apply schema_okb_ok; vm_compute; reflexivity.
Ltac sane_start :=
  apply start_sane; [schema | repeat constructor; by eexists].

Definition after {A} (m : M A) (w : world) : world := (m w).2.

Lemma account_sane : machine_sane (start account).
Proof. sane_start. Qed.

(** The world in which transaction 0 was begun. *)
Definition opened (d : db) : world := after BeginTx (start d).

Lemma opened_sane d : machine_sane (start d) → machine_sane (opened d).
Proof.
  intros Hw. exact (ev_sane _ _ _ _ (preserves_BeginTx attachments_evolve attachments_wf (start d) Hw)).
Qed.

Lemma opened_quiet d : quiet_tx 0 (opened d).
Proof. intros g Hg d'. vm_compute in Hg. by injection Hg as <-. Qed.

Lemma run {A} (m : M A) w r : (m w).1 = r → m w = (r, after m w).
Proof. intros <-. apply surjective_pairing. Qed.

Ltac evaluates := apply run; vm_compute; reflexivity.

(** ** Runs *)

Definition detaching : list string := ["3"].

Lemma workers_follow_state_machine_witness :
  attachments_evolve account (w_db (after (worker (disassociateActionWorker kind_ec2) detaching) (start account))) ∧
  at_state <$> branch_eni_attachments (w_db (after (worker (disassociateActionWorker kind_ec2) detaching) (start account)))
    = [attached; attached; unattached].
Proof.
  split; [|vm_compute; reflexivity].
  destruct (workers_follow_state_machine kind_ec2 (disassociateActionWorker kind_ec2) detaching (start account) _ _
    (or_intror eq_refl) account_sane (surjective_pairing _)) as [H _]. exact H.
Defined.

Lemma doWorkItem_queue_witness : item_ops "3" [wq_Forget "3"; wq_Done "3"].
Proof.
  eapply (doWorkItem_queue kind_ec2 (disassociateActionWorker kind_ec2) "3" (start account));
    [right; reflexivity | exact account_sane | evaluates].
Defined.

Lemma startDissociation_starts_witness :
  dissociation_started "assoc-1" false 1 account (w_db (after (startDissociation 0 "assoc-1" false) (opened account))).
Proof.
  apply (startDissociation_starts 0 "assoc-1" false (opened account) (Ok 1));
    [apply opened_sane, account_sane | evaluates].
Defined.

Lemma finishDisassociation_safe_witness :
  disassociated 3 account (w_db (after (finishDisassociation kind_ec2 0 false 3) (opened account))) ∧
  w_db (after (finishDisassociation kind_ec2 0 false 3) (opened account)) ≠ account.
Proof.
  split; [|intros H; apply (f_equal (λ d, at_state <$> branch_eni_attachments d)) in H; vm_compute in H; discriminate H].
  apply (finishDisassociation_safe kind_ec2 0 false 3 (opened account) (Ok tt));
    [apply opened_sane, account_sane | apply opened_quiet | evaluates].
Defined.

(** [eni-4] is being attached. *)
Definition attaching_account : db := account_db [branch "eni-4" []] [attaching_row 4 "eni-4" 4].

Lemma attaching_sane : machine_sane (start attaching_account).
Proof. sane_start. Qed.

Lemma finishAssociation_attached_witness :
  item_in 4 attached (λ a, at_association_id a = Some "trunk-assoc-eni-4")
    (w_db (after (finishAssociation kind_ec2 0 false 4) (opened attaching_account))).
Proof.
  apply (finishAssociation_attached kind_ec2 0 false 4 (opened attaching_account));
    [apply opened_sane, attaching_sane | apply opened_quiet | evaluates].
Defined.

Definition denied : error := EWrap "Cannot associate" (EAws (AwsErr "UnauthorizedOperation" "no" (Some (403, "req-1")))).

Lemma finishAssociation_records_failure_witness :
  failure_recorded 4 denied (w_db (after (finishAssociationPersistentError 4 attaching denied) (start attaching_account))).
Proof.
  apply (finishAssociation_records_failure 4 denied (start attaching_account) (Ok tt));
    [apply attaching_sane | evaluates].
Defined.

Lemma detachBranchENI_least_recently_used_witness :
  ∃ a, least_recently_used_eni "eni-trunk" a account ∧ at_branch_eni a = "eni-1".
Proof.
  destruct (detachBranchENI_least_recently_used kind_ec2 0 false "eni-trunk" (opened account) 1 "eni-1" "assoc-1"
    (after (detachBranchENI kind_ec2 0 false "eni-trunk") (opened account))) as (g & a & Hg & Ha & _ & Hb & _);
    [apply opened_sane, account_sane | apply opened_quiet | evaluates |].
  exists a. vm_compute in Hg. injection Hg as <-. exact (conj Ha Hb).
Defined.

Lemma retrieveAllWorkItems_complete_witness :
  ∃ a item, a ∈ branch_eni_attachments account ∧ at_state a = unattaching ∧
            wq_Add "3" = wq_Add item ∧ Atoi item = Some (at_id a).
Proof.
  apply (retrieveAllWorkItems_complete (disassociateActionWorker kind_ec2) (start account) [wq_Add "3"]
    (after (retrieveAllWorkItems (disassociateActionWorker kind_ec2)) (start account)));
    [repeat constructor | evaluates | by left].
Defined.

(** *** Assigning *)

Definition eni_request : getENIRequest :=
  GetENIRequest "us-east-1" "eni-trunk" "account" false "account" false "task-1"
    (Subnet "us-east-1a" "vpc-1" "account" "subnet-1" "10.0.0.0/18" "us-east-1") ["sg-9"] 20 15.

(** The unused ENI gets the security groups. *)
Definition placed_on_eni_1 : assignment :=
  Assignment "task-1" 100 (BranchENI "eni-1" "us-east-1a" "assoc-1" "account" 1) ["sg-9"] (rq_subnet eni_request).

Lemma generateAssignmentID_places_witness :
  let w' := after (generateAssignmentID kind_ec2 1 eni_request) (start account) in
  assignment_ready eni_request placed_on_eni_1 (w_db w') ∧
  (groups_modified kind_ec2 "eni-1" (assigned_securityGroups placed_on_eni_1) (w_calls w') ∨
   groups_known kind_ec2 "eni-1" (assigned_securityGroups placed_on_eni_1) account).
Proof. apply (generateAssignmentID_places kind_ec2 1 eni_request (start account)); [schema | reflexivity | evaluates]. Defined.

Definition with_free_eni : db := account_db [branch "eni-4" []] [].

(** Transactions 0 and 1 are open. *)
Definition opened_both : world := after BeginTx (opened with_free_eni).

Lemma attachENI_free_index_witness :
  ∃ g, w_txs opened_both !! 0%nat = Some (Some g) ∧
    attached_at_free_index eni_request "eni-4" (g with_free_eni)
      (w_db (after (attachENI eni_request "eni-4" 0 1) opened_both)).
Proof. apply (attachENI_free_index eni_request "eni-4" 0 1 opened_both 100). evaluates. Defined.

Lemma AssignIPV3_describes_witness :
  ∃ resp, AssignIPV3 kind_ec2 2 the_request (start account)
            = (Ok resp, after (AssignIPV3 kind_ec2 2 the_request) (start account)) ∧
    rp_Ipv4Address resp = Some (MkUsableAddress "10.0.0.10" 18) ∧
    describes "task-1" resp (w_db (after (AssignIPV3 kind_ec2 2 the_request) (start account))).
Proof.
  eexists. split_and!; [evaluates | reflexivity |].
  apply (AssignIPV3_describes kind_ec2 2 the_request (start account)); [schema | evaluates].
Defined.

Lemma AssignIPV3_follows_state_machine_witness :
  attachments_wf (w_db (after (AssignIPV3 kind_ec2 2 the_request) (start account))).
Proof.
  apply (AssignIPV3_follows_state_machine kind_ec2 2 the_request (start account) _ _ account_sane
    (surjective_pairing _)).
Defined.

(** The assignment is there and waits for its addresses. *)
Definition waiting : db :=
  set_assignments (assignments account ++ [AssignmentRow 8 "assoc-1" "task-1" None None false]) account.

Definition waiting_assignment : assignment :=
  Assignment "task-1" 8 (BranchENI "eni-1" "us-east-1a" "assoc-1" "account" 1) sg (rq_subnet eni_request).

Definition the_trunk : instance_eni := InstanceEni "eni-trunk" "account" "subnet-1" "0a:00" "trunk" 1 "vpc-1" "titus-trunk".

Abbreviation assigning := (assignIPsToENI kind_ec2 the_request waiting_assignment 15 the_instance the_trunk).

Lemma assignIPsToENI_atomic_witness :
  ∃ resp, assigning (start waiting) = (Ok resp, after assigning (start waiting)) ∧
    assignment_completed 8 "eni-trunk" resp waiting (w_db (after assigning (start waiting))).
Proof.
  eexists. split; [evaluates|].
  apply (assignIPsToENI_atomic kind_ec2 the_request waiting_assignment 15 the_instance the_trunk (start waiting) (Ok _)).
  evaluates.
Defined.

Lemma assignArbitraryIPv4AddressV3_choice_witness :
  ∃ g prefix, w_txs (opened waiting) !! 0%nat = Some (Some g) ∧
    ParseCIDR "10.0.0.0/18" = Some prefix ∧ 18 = uint32 prefix ∧
    address_choice kind_ec2 (iface "eni-1") 15 "assoc-1" (g waiting) "10.0.0.10".
Proof.
  apply (assignArbitraryIPv4AddressV3_choice kind_ec2 0 (iface "eni-1") 15 waiting_assignment (opened waiting)
    (MkUsableAddress "10.0.0.10" 18) (after (assignArbitraryIPv4AddressV3 kind_ec2 0 (iface "eni-1") 15 waiting_assignment)
                                        (opened waiting))). evaluates.
Defined.

(** An assignment that was not completed is deleted for another attempt. *)
Lemma fetchIdempotentAssignment_fetches_witness :
  fetched "task-1" true waiting None (w_db (after (fetchIdempotentAssignment "task-1" true) (start waiting))) ∧
  assignments (w_db (after (fetchIdempotentAssignment "task-1" true) (start waiting))) = assignments account.
Proof.
  split; [|vm_compute; reflexivity].
  apply (fetchIdempotentAssignment_fetches "task-1" true (start waiting) (Ok None)). evaluates.
Defined.

Lemma assign_fetch_round_trip_witness :
  ∃ resp resp', assigning (start waiting) = (Ok resp, after assigning (start waiting)) ∧
    fetchIdempotentAssignment "task-1" true (after assigning (start waiting))
      = (Ok (Some resp'), after (fetchIdempotentAssignment "task-1" true) (after assigning (start waiting))) ∧
    ua_Address <$> rp_Ipv4Address resp' = ua_Address <$> rp_Ipv4Address resp ∧ rp_ClassId resp' = rp_ClassId resp.
Proof.
  eassert (assigning (start waiting) = (Ok _, after assigning (start waiting))) as E by evaluates.
  eassert (fetchIdempotentAssignment "task-1" true (after assigning (start waiting))
    = (Ok (Some _), after (fetchIdempotentAssignment "task-1" true) (after assigning (start waiting)))) as E' by evaluates.
  destruct (assign_fetch_round_trip kind_ec2 the_request waiting_assignment 15 the_instance the_trunk (start waiting)
    _ _ (AssignmentRow 8 "assoc-1" "task-1" None None false) true _ _ _ E
    (list_elem_of_further _ _ _ (list_elem_of_here _ _)) eq_refl eq_refl eq_refl eq_refl E') as (H1 & _ & H2).
  exact (ex_intro _ _ (ex_intro _ _ (conj E (conj E' (conj H1 H2))))).
Defined.

Lemma AssignIPV3_validates_witness :
  ∃ msg, AssignIPV3 kind_ec2 2
    (AssignIPRequest (Some ("i-1", "us-east-1", "account")) "task-1" [] true [] "" Ipv4None false ElasticEmpty)
    (start account) = (Fail (EStatus InvalidArgument msg), start account).
Proof. apply AssignIPV3_validates. right; right. reflexivity. Defined.

(** *** Unassigning *)


Lemma UnassignIPV3_error_keeps_assignment_witness :
  assignment_left "task-9" account (w_db (after (UnassignIPV3 kind_ec2 "task-9") (start account))).
Proof.
  eapply (UnassignIPV3_error_keeps_assignment kind_ec2 "task-9" (start account)); [schema | evaluates].
Defined.

Lemma UnassignIPV3_follows_state_machine_witness :
  schema_ok (w_db (after (UnassignIPV3 kind_ec2 "task-0") (start account))).
Proof.
  apply (UnassignIPV3_follows_state_machine kind_ec2 "task-0" (start account) _ _ account_sane (surjective_pairing _)).
Defined.

(** *** Errors and limits *)

Lemma HandleEC2Error_classifies_witness : IsPersistentError (HandleEC2Error denied) = true.
Proof.
  destruct (HandleEC2Error_classifies denied (AwsErr "UnauthorizedOperation" "no" (Some (403, "req-1"))) eq_refl)
    as (_ & H & _). exact H.
Defined.

Lemma GetMaxNetworkbps_exact_witness : GetMaxNetworkbps "m5.metal" = Ok 25000000000.
Proof. apply (GetMaxNetworkbps_exact "m5.metal" 25000). vm_compute. reflexivity. Defined.

(** *** Locks *)

Definition gc_lock : string := "gc_us-east-1".

(** The lease of [host-a] is over. *)
Definition later : world := set_now 1031 (start account).

Definition by_host_b : world := after (tryToAcquireLock "host-b" gc_lock) later.

Lemma lock_exclusive_witness :
  let w := after (tryToHoldLock "host-b" 1) by_host_b in
  rtc system_step (start account, []) (w, [Lease "host-b" 1 1061; Lease "host-b" 1 1061]) ∧
  ∀ l1 l2, l1 ∈ [Lease "host-b" 1 1061; Lease "host-b" 1 1061] → l2 ∈ [Lease "host-b" 1 1061; Lease "host-b" 1 1061] →
    ls_lock l1 = ls_lock l2 → w_now w ≤ ls_until l1 → w_now w ≤ ls_until l2 → ls_host l1 = ls_host l2.
Proof.
  cbv zeta. eassert (rtc system_step (start account, []) (after (tryToHoldLock "host-b" 1) by_host_b, _)) as H.
  { eapply rtc_l. { apply (step_pass (start account) 31). lia. }
    eapply rtc_l. { eapply (step_acquired "host-b" gc_lock later 1). evaluates. }
    eapply rtc_l; [|apply rtc_refl]. { eapply (step_held "host-b" 1 by_host_b). evaluates. } }
  split; [exact H|]. intros l1 l2. apply (lock_exclusive (start account)); [schema | exact H].
Defined.

Lemma tryToAcquireLock_iff_free_witness :
  ∃ id, Ok (Er:=error) (true, 1) = Ok (true, id) ∧ LockRow id gc_lock (Some "host-b") 1061 ∈ long_lived_locks (w_db by_host_b).
Proof.
  apply (tryToAcquireLock_iff_free "host-b" gc_lock later (Ok (true, 1)) by_host_b); [schema | reflexivity | | evaluates |].
  - intros H. apply list_elem_of_singleton in H. vm_compute in H. discriminate H.
  - intros r Hr _. apply list_elem_of_singleton in Hr as ->. reflexivity.
Defined.

Definition preempted : world := after (PreemptLock gc_lock) (start account).

Lemma PreemptLock_ends_lease_witness :
  free_lock gc_lock 1000 (w_db preempted) ∧ (tryToHoldLock "host-a" 1 preempted).1 ≠ Ok tt.
Proof.
  edestruct (PreemptLock_ends_lease gc_lock (start account) preempted "host-a" 1 (LockRow 1 gc_lock None 970) preempted
    (tryToHoldLock "host-a" 1 preempted).1 (after (tryToHoldLock "host-a" 1) preempted)) as [[H _] H'];
    [evaluates | reflexivity | reflexivity | left | reflexivity | reflexivity | schema | apply run; reflexivity |].
  exact (conj H' H).
Defined.

Lemma GetLocks_fails_after_preemption_witness : is_ok (GetLocks preempted).1 = false.
Proof.
  apply (GetLocks_fails_after_preemption gc_lock (start account) preempted); [evaluates | reflexivity |].
  apply Nat.leb_le. reflexivity.
Defined.

(** *** Background tasks *)

(** [eni-5] was last assigned to long ago. *)
Definition idle_account : db :=
  account_db [BranchEniRow "eni-5" "account" "subnet-1" "us-east-1a" "vpc-1" sg false (Some "0a:0c") (Some 1) 0]
    [attached_row 5 "eni-5" 5 "assoc-5"].

Definition evening : world := set_now 10000 (start idle_account).

Lemma sane_now t w : machine_sane w → machine_sane (set_now t w).
Proof. by intros [? ? ? ?]. Qed.

Lemma evening_sane : machine_sane evening.
Proof. apply sane_now. sane_start. Qed.

Lemma doDetatchUnusedBranchENI_unused_witness :
  detach_outcome 10000 idle_account (5, None) (w_db (after (doDetatchUnusedBranchENI kind_ec2) evening)) ∧
  at_state <$> branch_eni_attachments (w_db (after (doDetatchUnusedBranchENI kind_ec2) evening))
    = [attached; attached; unattaching; unattached].
Proof.
  split; [|vm_compute; reflexivity].
  apply (doDetatchUnusedBranchENI_unused kind_ec2 evening (Ok (5, None))); [exact evening_sane | evaluates].
Defined.

Definition spares : list branch_eni_row := (λ n : nat, branch ("spare-" +:+ pretty n) []) <$> seq 0 51.

(** An EC2 whose ENIs have no secondary addresses. *)
Definition bare_ec2 : ec2_oracle := λ A cs c,
  match c in ec2_call A return error + A with
  | DescribeNetworkInterface id =>
      inr (NetworkInterface id "subnet-1" "account" "us-east-1a" "vpc-1" "0a:0b" "available" [] "10.0.0.99"
             [PrivateIp "10.0.0.99" true None] [] None)
  | c' => kind_ec2 _ cs c'
  end.

Definition crowded : db := account_db spares [].

Lemma crowded_sane : machine_sane (start crowded).
Proof. sane_start. Qed.

Lemma doDeleteExcessBranches_keeps_pool_witness :
  one_deleted "subnet-1" (start crowded) (after (doDeleteExcessBranches bare_ec2 (rq_subnet eni_request)) (start crowded)).
Proof.
  apply (doDeleteExcessBranches_keeps_pool bare_ec2 (rq_subnet eni_request) (start crowded) (Ok true));
    [exact crowded_sane | evaluates].
Defined.

(** *** Garbage collection *)

Definition gc_request : GCRequestV3 := GCRequest (Some ("i-1", "us-east-1", "account")) false ["task-5"].

Lemma GCV3_collects_witness :
  let d' := w_db (after (GCV3 kind_ec2 gc_request) (start account)) in let gone := abandoned "eni-trunk" ["task-5"] in
  GCV3 kind_ec2 gc_request (start account) = (Ok ["task-0"], after (GCV3 kind_ec2 gc_request) (start account)) ∧
  (∀ id, ¬ gone d' id) ∧ (∀ r, r ∈ assignments account → r ∈ assignments d' ∨ gone account (as_assignment_id r)) ∧
  (∀ id, id ∈ ["task-0"] → gone account id) ∧ (∀ id, gone account id → id ∈ ["task-0"] ∨ static_task account id).
Proof.
  intros d' gone. split; [evaluates|].
  apply (GCV3_collects kind_ec2 gc_request "i-1" "us-east-1" "account" (start account) the_instance the_trunk
    [Event (GetSession "account" "us-east-1"); Event (DescribeInstance "i-1" false)] eq_refl eq_refl).
  vm_compute. reflexivity.
Defined.

(** [eni-9] is in no attachment; its static address goes home. *)
Definition loose_iface : network_interface :=
  NetworkInterface "eni-9" "subnet-1" "account" "us-east-1a" "vpc-1" "0a:0b" "available" sg "10.0.0.10"
    [PrivateIp "10.0.0.10" true (Some "eipassoc-9"); PrivateIp "10.0.0.11" false None; PrivateIp "10.0.0.12" false None] ["fd00::9"] None.

Example doGCENI_run :
  w_calls (after (doGCENI kind_ec2 loose_iface) (start (account_db [branch "eni-9" []] []))) =
    [Event (UnassignPrivateIps "eni-9" ["10.0.0.11"]); Event (AssignPrivateIps "eni-home" ["10.0.0.11"] false);
     Event (DisassociateAddress "eipassoc-9"); Event (UnassignPrivateIps "eni-9" ["10.0.0.12"]);
     Event (UnassignIpv6s "eni-9" ["fd00::9"])].
Proof. vm_compute. reflexivity. Qed.

(** *** Trunk ENIs, calls by hand and reconciliation *)

Lemma DisassociateTrunkNetworkInterface_detaches_witness :
  attachments_evolve account (w_db (after (DisassociateTrunkNetworkInterface kind_ec2 (Some "assoc-1") false) (start account))) ∧
  at_state <$> branch_eni_attachments (w_db (after (DisassociateTrunkNetworkInterface kind_ec2 (Some "assoc-1") false) (start account)))
    = [unattached; attached; unattaching].
Proof.
  split; [|vm_compute; reflexivity].
  apply (DisassociateTrunkNetworkInterface_detaches kind_ec2 "assoc-1" false (start account) (Ok tt)); [exact account_sane | evaluates].
Defined.

(** EC2 and the database have different groups for [eni-2]. *)
Lemma reconcileBranchENI_row_witness :
  reconcileBranchENI (iface "eni-2") (start account) = (Ok false, after (reconcileBranchENI (iface "eni-2")) (start account)) ∧
  (∃ b, b ∈ branch_enis account ∧ be_branch_eni b = "eni-2" ∧
     w_db (after (reconcileBranchENI (iface "eni-2")) (start account)) =
       set_branch_enis (update_where (branch_named "eni-2") (λ _, reconciled (iface "eni-2") b b) (branch_enis account)) account) ∧
  be_dirty_security_groups <$> branch_enis (w_db (after (reconcileBranchENI (iface "eni-2")) (start account))) = [false; true; false].
Proof.
  split; [evaluates|]. split; [|vm_compute; reflexivity].
  apply (reconcileBranchENI_row (iface "eni-2") (start account) (Ok false)); [schema | evaluates].
Defined.

(** [eni-9] is in the database only; it is probed, and goes when EC2 does not know it. *)
Definition forgetful_ec2 : ec2_oracle := λ A cs c,
  match c in ec2_call A return error + A with
  | ModifyNetworkInterfaceDescription _ _ => inl (EAws (AwsErr InvalidNetworkInterfaceIDNotFound "unknown" None))
  | c' => kind_ec2 _ cs c'
  end.

Example reconcileBranchENIs_run :
  let run ec2 := after (reconcileBranchENIsForRegionAccount ec2 "titus-branch" 5 (RegionAccount "us-east-1" "account"))
                   (start (account_db [branch "eni-9" sg] [])) in
  be_branch_eni <$> branch_enis (w_db (run kind_ec2)) = ["eni-1"; "eni-2"; "eni-3"; "eni-9"] ∧
  be_branch_eni <$> branch_enis (w_db (run forgetful_ec2)) = ["eni-1"; "eni-2"; "eni-3"].
Proof. vm_compute. done. Qed.

(** *** Scheduled tasks *)

(** The task ran 900 ago. *)
Definition eip_task : string := "elastic_ip_us-east-1_account".
Definition the_account : regionAccount := RegionAccount "us-east-1" "account".
Abbreviation reconcile_eips := (runScheduledTask "host-b" eip_task 600 (reconcileEIPsForRegionAccount kind_ec2 the_account)).

Lemma runScheduledTask_waits_witness :
  ¬ due 901 1000 eip_task account ∧
  runScheduledTask "host-b" eip_task 901 (λ _, go_panic "never") (start account) =
  runScheduledTask "host-b" eip_task 901 (λ _, mret tt) (start account).
Proof.
  assert (¬ due 901 1000 eip_task account) as H by (intros (r & Hr & Hle); vm_compute in Hr; injection Hr as <-; vm_compute in Hle; by apply Hle).
  split; [exact H|]. exact (proj1 (runScheduledTask_waits "host-b" eip_task 901 _ (start account) ltac:(lia) H) _).
Defined.

(** The first tick runs the task, the second one is too early. *)
Lemma taskLoop_paced_witness :
  let w' := after (taskLoop "host-b" 600 "elastic_ip" getRegionAccounts (reconcileEIPsForRegionAccount kind_ec2) [1060; 1120]) (start account) in
  (ei_allocation_id <$> elastic_ips (w_db w') = ["eip-1"; "eip-2"] ∧ st_last_run <$> task_named eip_task (w_db w') = Some 1060) ∧
  ∃ runs, history kind_ec2 600 "elastic_ip" runs account (w_db w') ∧ Forall (λ run, run.2 ∈ [1060; 1120]) runs ∧ paced 600 account runs.
Proof.
  split; [split; vm_compute; reflexivity|].
  pose proof (taskLoop_paced kind_ec2 "host-b" 1 600 (TaskLoopEntry "elastic_ip" getRegionAccounts (reconcileEIPsForRegionAccount kind_ec2))
    [1060; 1120] (start account) ltac:(lia) ltac:(right; left)) as H. unfold after. simpl tl_taskName in H. simpl tl_itemLister in H.
  simpl tl_workFunc in H. destruct (taskLoop _ _ _ _ _ _ _). exact (proj2 H).
Defined.

Lemma reconcileEIPs_atomic_witness :
  ∃ addresses cs, kind_ec2 _ cs DescribeAddresses = inr addresses ∧
    eips_reconciled the_account addresses account (w_db (after reconcile_eips (start account))).
Proof.
  destruct (reconcileEIPs_atomic kind_ec2 "host-b" eip_task 600 the_account (start account) (Ok tt) (after reconcile_eips (start account)))
    as [[H _]|H]; [evaluates| |exact H].
  apply (f_equal length) in H. vm_compute in H. discriminate H.
Defined.

(** EC2 says that the IP of [eip-1] now belongs to another allocation. *)
Definition reallocating_ec2 : ec2_oracle := λ A cs c,
  match c in ec2_call A return error + A with
  | DescribeAddresses => inr [Address "eip-9" "52.0.0.1" "us-east-1" []]
  | c => kind_ec2 _ cs c
  end.

Lemma reconcileEIPs_succeeds_witness :
  st_last_run <$> task_named eip_task (w_db (after reconcile_eips (start account))) = Some 1000 ∧
  w_db (after (runScheduledTask "host-b" eip_task 600 (reconcileEIPsForRegionAccount reallocating_ec2 the_account)) (start account)) = account.
Proof.
  assert (due 600 1000 eip_task account) as Hdue by (eexists; split; [vm_compute; reflexivity | done]).
  split.
  - pose proof (reconcileEIPs_succeeds kind_ec2 "host-b" eip_task 600 the_account _ (start account) (Ok tt) (after reconcile_eips (start account))
      eq_refl eq_refl ltac:(schema) Hdue (λ _, eq_refl) (λ _, eq_refl) ltac:(evaluates)) as H.
    rewrite decide_True in H by (split; apply (bool_decide_unpack _); vm_compute; reflexivity). exact (proj2 (proj2 H)).
  - pose proof (reconcileEIPs_succeeds reallocating_ec2 "host-b" eip_task 600 the_account _ (start account) _ _
      eq_refl eq_refl ltac:(schema) Hdue (λ _, eq_refl) (λ _, eq_refl) (surjective_pairing _)) as H.
    rewrite decide_False in H by (intros [_ Hn]; apply (bool_decide_pack _) in Hn; vm_compute in Hn; exact Hn). exact H.
Defined.

(** *** Static allocations *)

(** The first [n] bytes, filled up if there are fewer *)
Fixpoint fit (n : nat) (s : string) : string :=
  match n with
  | O => ""
  | S n => match s with EmptyString => String "." (fit n "") | String c s => String c (fit n s) end
  end.

Lemma fit_length n s : String.length (fit n s) = n.
Proof. revert s. induction n as [|n IH]; intros [|c s]; simpl; by rewrite ?IH. Qed.

(** A signature is the public key and the message. *)
Definition toy_public (sk : string) : string := fit 32 sk.
Definition toy_sign (sk msg : string) : string := toy_public sk +:+ msg.
Definition toy_verify (key msg sig : string) : bool := bool_decide (sig = key +:+ msg).

(** The encoding knows one message. *)
Definition the_allocation : AddressAllocation :=
  MkAddressAllocation (Some (MkAddressLocation "us-east-1" "us-east-1a" "subnet-1")) "00000000-0000-4000-8000-000000000000" "10.0.0.12".
Definition toy_marshal (a : AddressAllocation) : error + string :=
  if bool_decide (a = the_allocation) then inr "message" else inl (EString "cannot be encoded").
Definition toy_unmarshal (msg : string) : error + AddressAllocation :=
  if bool_decide (msg = "message") then inr the_allocation else inl (EString "cannot be decoded").

(** The database trusts the service's key. *)
Definition trusting : db :=
  Db (branch_enis account) (branch_eni_attachments account) (assignments account) (trunk_enis account) (subnets account)
     (account_mapping account) (availability_zones account) (ip_addresses account) (ip_address_attachments account)
     (elastic_ips account) (elastic_ip_attachments account) (ip_last_used_v3 account) (branch_eni_last_used account)
     (eni_permissions account) (htb_classid account) (long_lived_locks account) (scheduled_tasks account) (accounts account)
     (ip_addresses_new account) (static_enis account) [toy_public "long-lived key"] [].

Definition allocation_request : AllocateAddressRequest :=
  MkAllocateAddressRequest "account" (Some (MkAddressAllocation (Some (MkAddressLocation "" "" "subnet-1")) "" "")) FAMILY_V4.

Abbreviation allocating :=
  (AllocateAddress kind_ec2 toy_sign toy_marshal (service_keys toy_sign toy_public "long-lived key" "host key") allocation_request).

Definition the_answer : SignedAddressAllocation :=
  MkSignedAddressAllocation (Some the_allocation) (toy_public "long-lived key") (toy_public "host key")
    (toy_sign "long-lived key" (toy_public "host key")) "message" (toy_sign "host key" "message").

Lemma allocation_round_trip_witness :
  allocating (start trusting) = (Ok the_answer, after allocating (start trusting)) ∧
  (ValidateAllocation toy_verify toy_unmarshal (Some the_answer) (after allocating (start trusting))).1 = Ok tt.
Proof.
  split; [evaluates|].
  apply (allocation_round_trip kind_ec2 toy_sign toy_public toy_verify toy_marshal toy_unmarshal "long-lived key" "host key")
    with (rq := allocation_request) (w := start trusting) (w' := after allocating (start trusting)).
  - intros sk msg. by apply bool_decide_eq_true_2.
  - intros sk. apply fit_length.
  - intros a msg. unfold toy_marshal, toy_unmarshal. case_bool_decide as E; [|done]. intros [= <-]. by rewrite E.
  - evaluates.
  - reflexivity.
  - vm_compute. reflexivity.
  - vm_compute. by left.
  - intros k [->|Hk%elem_of_nil]%elem_of_cons; [reflexivity|done].
Defined.

Lemma AllocateAddress_allocates_witness : homes_ok (w_db (after allocating (start trusting))).
Proof.
  refine (proj1 (AllocateAddress_allocates kind_ec2 toy_sign toy_marshal _ allocation_request (start trusting) _ _ _ _ (surjective_pairing _))).
  - intros cs id ni next. simpl. by intros [= <- _].
  - split; [intros r [->|Hr%elem_of_nil]%elem_of_cons; [by left|done]|]. intros eni. unfold count_where. simpl.
    destruct (bool_decide _); simpl; lia.
Defined.
