(* ===== verification/ScenarioV2.v ===== *)
(** * ScenarioV2: the first two generations on the small account

    Runs of the handlers of the first two generations on the account of [Scenario]. *)
From S2P Require Import Prelude Errors Limits NetIP Schema Service Logic TxLogic BranchEni GenerateAssignment AssignV3 UnassignV3 Gc GcV2 TrunkEnis AssignV1 AssignV2 Scenario.

Open Scope string_scope.
Open Scope Z_scope.
Open Scope list_scope.

(** An agent asks for an address on the ENI at index 1, and says that it uses one. *)
Definition request_v2 (idx : Z) : AssignIPRequestV2 :=
  MkAssignIPRequestV2 (Some ("i-1", "us-east-1", "account")) (Some idx) sg true "" ["10.0.0.13"] (Ipv4AddressRequested true) None.

Definition trunk_v2 : instance_eni := InstanceEni "eni-trunk" "account" "subnet-1" "0a:00" "trunk" 1 "vpc-1" "titus-trunk".

Definition attaching_v2 : M string := ensureBranchENIAttached kind_ec2 trunk_v2 "account" "us-east-1a" 9 sg.

(** At a free index an ENI is created and attached. *)
Lemma attaching_v2_attaches : attached_at "eni-trunk" 9 "eni-new" (w_db (after attaching_v2 (start account))).
Proof.
  assert (attaching_v2 (start account) = (Ok "eni-new", after attaching_v2 (start account))) as E by evaluates.
  pose proof (ensureBranchENIAttached_attaches kind_ec2 trunk_v2 "account" "us-east-1a" 9 sg (start account) ltac:(schema)) as H.
  exact (proj1 (proj2 (proj2 (wp_elim _ _ _ _ _ H E)))).
Defined.

Definition answer_v2 : AssignIPResponseV2 :=
  MkAssignIPResponseV2 (Some (MkUsableAddress "10.0.0.12" 18)) None (networkInterface (iface "eni-1")) (instanceNetworkInterface the_instance trunk_v2) 1.

Definition assigning_v2 : M AssignIPResponseV2 := AssignIPV2 kind_ec2 (request_v2 1).


(** The address that was answered is not collected within the hour. *)
Definition an_hour_later : world := set_now 4600 (after assigning_v2 (start account)).

Lemma AssignIPV2_protects_witness :
  wp (GCV2 kind_ec2 3600 (MkGCRequestV2 "eni-1" [] ["10.0.0.12"])) (λ r w2,
    (∃ es, w_calls w2 = w_calls an_hour_later ++ es ∧ Forall (λ ev, ¬ unassigns "10.0.0.12" ev) es) ∧
    match r with
    | Ok l => "10.0.0.12" ∈ l → ∃ iface, is_described kind_ec2 "eni-1" iface ∧ "10.0.0.12" ∉ assigned iface
    | _ => True
    end) an_hour_later.
Proof.
  assert (assigning_v2 (start account) = (Ok answer_v2, after assigning_v2 (start account))) as E by evaluates.
  pose proof (AssignIPV2_protects kind_ec2 (request_v2 1) (start account) ltac:(schema)) as H.
  refine (wp_elim _ _ _ _ _ H E "10.0.0.12" kind_ec2 3600 (MkGCRequestV2 "eni-1" [] ["10.0.0.12"]) an_hour_later _ _ _ _).
  - vm_compute. by left.
  - schema.
  - vm_compute. reflexivity.
  - vm_compute. discriminate.
Defined.

(** A collection: the static address goes home, an address that is neither used nor noted is taken away, and an unknown one forgotten. *)
Definition collecting_v2 : M (list string) := GCV2 kind_ec2 600 (MkGCRequestV2 "eni-1" ["10.0.0.12"] ["10.0.0.13"; "10.0.0.99"]).

Example collecting_v2_answers :
  (collecting_v2 (start account)).1 = Ok ["10.0.0.13"; "10.0.0.99"] ∧
  w_calls (after collecting_v2 (start account)) =
    [Event (GetSession "account" "us-east-1"); Event (DescribeNetworkInterface "eni-1");
     Event (AssignPrivateIps "eni-home" ["10.0.0.11"] true); Event (UnassignPrivateIps "eni-1" ["10.0.0.13"])].
Proof. vm_compute. split; reflexivity. Qed.

(** An assignment of the first generation to the interface at index 1 *)
Definition request_v1 (allocations : list (option string)) : AssignV1.AssignIPRequest :=
  MkAssignIPRequest (Some ("i-1", "us-east-1", "account")) (Some 1) sg false false [Some "10.0.0.13"] allocations.

Example assigning_v1_answers :
  match (AssignIP kind_ec2 3 (request_v1 []) (start account)).1 with
  | Ok resp => (λ ua, (ua_Address ua, PrefixLength ua)) <$> r1_UsableAddresses resp
  | _ => []
  end ≡ₚ [("10.0.0.10", 18); ("10.0.0.12", 18); ("10.0.0.13", 18)].
Proof. vm_compute. solve_Permutation. Qed.
