(* ===== verification/ScenarioAgent.v ===== *)
(** * ScenarioAgent: processes of an agent at work

    Concrete runs of the processes that use the locker: two allocations on one interface, two containers with GPUs, a lock that is
    lost, and files that are left open.  They are the witnesses of the theorems about those processes. *)
From ITree Require Import ITree.
From S2P Require Import Prelude Errors NetIP Schema Service AssignV3 AssignV1 Host FsLocker LockUsers AgentAllocate Gpu.

Open Scope string_scope.
Open Scope Z_scope.
Open Scope list_scope.

(** ** The agent *)

Definition agent_locker : FSLocker := MkFSLocker ["fslocker"; ".pendingwork"] ["fslocker"; "lockDir"].

(** A machine where [NewFSLocker] has run *)
Definition fresh_machine {W : World} : machine :=
  Machine 1000 4 {[ [] := 1%N; ["fslocker"] := 2%N; ["fslocker"; "lockDir"] := 3%N ]}
    {[ 1%N := Inode true 0; 2%N := Inode true 0; 3%N := Inode true 0 ]} ∅ ∅ ∅ ∅ [].

Definition usable_addresses : list UsableAddress := [MkUsableAddress "10.0.0.7" 24; MkUsableAddress "10.0.0.9" 24].

(** The service offers the same two addresses to everyone. *)
Definition agent_answers (q : @question agent_world) : @answer agent_world q :=
  match (q : agent_question) as q return agent_answer q with
  | GetIdentity => inr ("i-1", "us-east-1", "acct")
  | CallAssignIP _ _ => inr (MkAssignIPResponse usable_addresses (MkNetworkInterfaceV3 "subnet-1" "us-east-1a" "0a:00" "eni-1" "acct" "vpc-1" (Some 1)) [])
  | Encode _ => None
  | NextEvent => false
  | RandomTime _ => 5
  | SortSlice l => l
  end.

Definition calm_oracle : @oracle agent_world := Oracle None 0 false agent_answers.

Definition agent_args : allocate_args := MkArgs ["sg-1"] 1 false "".

Definition two_agents : list (pid * @prog agent_world unit) := [(1%N, Allocate agent_locker 0%N agent_args); (2%N, Allocate agent_locker 0%N agent_args)].

(** The first process for [n1] steps, then the second for [n2] *)
Definition one_after_the_other {W : World} (o : @oracle W) (n1 n2 : nat) : list label := replicate n1 (Run 1%N o) ++ replicate n2 (Run 2%N o).

Definition agents_run (n1 n2 : nat) : option (@system agent_world) := sys_run (one_after_the_other calm_oracle n1 n2) (boot fresh_machine two_agents).

Definition trace_after {W : World} (o : option (@system W)) : option (list (pid * @happening W)) := m_trace ∘ sys_m <$> o.

Lemma fresh_world {W : World} : world (fresh_machine (W := W)).
Proof.
  split; try done. intros q i Hq. cbn in Hq. repeat apply lookup_insert_Some in Hq as [[_ <-]|[_ Hq]]; try done.
  apply lookup_singleton_Some in Hq as [_ <-]. done.
Qed.

Definition is_signal (e : pid * @happening agent_world) : bool :=
  match e.2 with Asked q a => ends (LockUser := agent_user agent_locker) q a | _ => false end.

Lemma not_signalled p (m : @machine agent_world) : existsb is_signal (m_trace m) = false → ¬ signalled p m.
Proof. intros E Hs. apply not_true_iff_false in E. apply E, existsb_exists. eexists. split; [by apply list_elem_of_In|]. done. Qed.

Definition agents_trace : list (pid * @happening agent_world) := Eval vm_compute in default [] (trace_after (agents_run 100 110)).

Definition alive {W : World} (s : option (@system W)) (p : pid) : bool :=
  match s with Some s => bool_decide (is_Some (sys_threads s !! p)) | None => false end.

Definition printed_agent (ip : string) : LegacyAllocation := MkLegacyAllocation (Some (MkUsableAddress ip 24)) None 1 true "" "eni-1" "vpc-1" "0a:00".

(** Two processes that were given different addresses *)
Lemma agents_ran : ∃ s, agents_run 100 110 = Some s ∧ m_trace (sys_m s) = agents_trace ∧ is_Some (sys_threads s !! 1%N) ∧ is_Some (sys_threads s !! 2%N).
Proof.
  assert (trace_after (agents_run 100 110) = Some agents_trace) as Ht by (vm_compute; reflexivity).
  assert (alive (agents_run 100 110) 1%N = true) as H1 by (vm_compute; reflexivity).
  assert (alive (agents_run 100 110) 2%N = true) as H2 by (vm_compute; reflexivity).
  destruct (agents_run 100 110) as [s|]; [|done]. exists s. injection Ht as Ht. split_and!; [done | done | by apply bool_decide_eq_true in H1 | by apply bool_decide_eq_true in H2].
Qed.

Lemma Allocate_exclusive_witness : "10.0.0.7" ∉ alloc_ips (printed_agent "10.0.0.9").
Proof.
  destruct agents_ran as (s & Hrun & Htr & H1 & H2).
  apply (Allocate_exclusive agent_locker fresh_machine two_agents (one_after_the_other calm_oracle 100 110) s 1%N 2%N (printed_agent "10.0.0.7") (printed_agent "10.0.0.9") "10.0.0.7" fresh_world eq_refl).
  - intros p t [[= -> ->]|[[= -> ->]|[]%elem_of_nil]%elem_of_cons]%elem_of_cons; by eexists _, _.
  - exact Hrun.
  - exact H1.
  - exact H2.
  - done.
  - exists None. rewrite Htr. vm_compute. repeat (first [apply list_elem_of_here | apply list_elem_of_further]).
  - exists None. rewrite Htr. vm_compute. repeat (first [apply list_elem_of_here | apply list_elem_of_further]).
  - apply not_signalled. rewrite Htr. reflexivity.
  - apply not_signalled. rewrite Htr. reflexivity.
  - reflexivity.
  - vm_compute. apply list_elem_of_here.
Defined.

(** ** Containers with GPUs *)

Definition gpu_machine : @machine gpu_world :=
  Machine 1000 3 {[ [] := 1%N; ["run"] := 2%N ]} {[ 1%N := Inode true 0; 2%N := Inode true 0 ]} ∅ ∅ ∅ ∅ [].

Definition two_gpus : string := "GPU-a" +:+ String (ascii_of_N 10) ("GPU-b" +:+ String (ascii_of_N 10) "").

Definition gpu_answers (q : @question gpu_world) : @answer gpu_world q :=
  match (q : gpu_question) as q return gpu_answer q with
  | InstanceType => inr "p2.xlarge"
  | NvidiaSmi => inr two_gpus
  | MapOrder keys => keys
  | ContainerStarted _ => tt
  | KillRequested => tt
  | ContainerInspect => Inspected true
  | ContainerStop => None
  | ContainerKill => None
  end.

Definition gpu_oracle : @oracle gpu_world := Oracle None 0 false gpu_answers.

Definition two_containers : list (pid * @prog gpu_world unit) := [(1%N, gpu_container 0%N 1); (2%N, gpu_container 0%N 1)].

Definition containers_run (n1 n2 : nat) : option (@system gpu_world) := sys_run (one_after_the_other gpu_oracle n1 n2) (boot gpu_machine two_containers).

Lemma gpu_machine_world : world gpu_machine.
Proof.
  split; try done. intros q i Hq. cbn in Hq. apply lookup_insert_Some in Hq as [[_ <-]|[_ Hq]]; [done|].
  apply lookup_singleton_Some in Hq as [_ <-]. done.
Qed.

Definition containers_trace : list (pid * @happening gpu_world) := Eval vm_compute in default [] (trace_after (containers_run 18 29)).

Definition is_done (e : pid * @happening gpu_world) : bool :=
  match e.2 with Asked q a => ends (LockUser := gpu_user) q a | _ => false end.

Lemma not_done p (m : @machine gpu_world) : existsb is_done (m_trace m) = false → ¬ container_given_up p m.
Proof. intros E (q & a & Ha & Hq). apply not_true_iff_false in E. apply E, existsb_exists. eexists. split; [by apply list_elem_of_In|]. done. Qed.

Lemma containers_ran : ∃ s, containers_run 18 29 = Some s ∧ m_trace (sys_m s) = containers_trace ∧ is_Some (sys_threads s !! 1%N) ∧ is_Some (sys_threads s !! 2%N).
Proof.
  assert (trace_after (containers_run 18 29) = Some containers_trace) as Ht by (vm_compute; reflexivity).
  assert (alive (containers_run 18 29) 1%N = true) as H1 by (vm_compute; reflexivity).
  assert (alive (containers_run 18 29) 2%N = true) as H2 by (vm_compute; reflexivity).
  destruct (containers_run 18 29) as [s|]; [|done]. exists s. injection Ht as Ht. split_and!; [done | done | by apply bool_decide_eq_true in H1 | by apply bool_decide_eq_true in H2].
Qed.

(** The second container has the other device. *)
Lemma setupGPU_exclusive_witness : ∃ s, containers_run 18 29 = Some s ∧ started_with 1%N "GPU-a" (sys_m s) ∧ started_with 2%N "GPU-b" (sys_m s) ∧ ¬ started_with 2%N "GPU-a" (sys_m s).
Proof.
  destruct containers_ran as (s & Hrun & Htr & H1 & H2). exists s.
  assert (started_with 1%N "GPU-a" (sys_m s)) as Ha.
  { exists ["GPU-a"], tt. rewrite Htr. split; [|by left]. vm_compute. repeat (first [apply list_elem_of_here | apply list_elem_of_further]). }
  split_and!; [exact Hrun | exact Ha | |].
  - exists ["GPU-b"], tt. rewrite Htr. split; [|by left]. vm_compute. repeat (first [apply list_elem_of_here | apply list_elem_of_further]).
  - apply (setupGPU_exclusive gpu_machine two_containers (one_after_the_other gpu_oracle 18 29) s 1%N 2%N "GPU-a" gpu_machine_world eq_refl).
    + intros p t [[= -> ->]|[[= -> ->]|[]%elem_of_nil]%elem_of_cons]%elem_of_cons; by eexists _, _.
    + exact Hrun.
    + exact H1.
    + exact H2.
    + done.
    + apply not_done. rewrite Htr. reflexivity.
    + apply not_done. rewrite Htr. reflexivity.
    + exact Ha.
Defined.

(** Docker fails to stop the first container and to kill it; its device is given back all the same, and the second one starts with it. *)
Definition failing_docker (q : @question gpu_world) : @answer gpu_world q :=
  match (q : gpu_question) as q return gpu_answer q with
  | ContainerStop => Some (EString "stop")
  | ContainerKill => Some (EString "kill")
  | q => gpu_answers q
  end.

Definition failing_oracle : @oracle gpu_world := Oracle None 0 false failing_docker.

Definition starts (s : option (@system gpu_world)) : list (pid * list string) :=
  omap (λ e : pid * @happening gpu_world, match e.2 with
    | Asked q _ => match (q : gpu_question) with ContainerStarted devices => Some (e.1, devices) | _ => None end
    | _ => None
    end) (default [] (trace_after s)).


(** Both executors are alive. *)
Lemma kill_fails_shares :
  starts (sys_run (one_after_the_other failing_oracle 26 20) (boot gpu_machine two_containers)) = [(2%N, ["GPU-a"]); (1%N, ["GPU-a"])].
Proof. vm_compute. reflexivity. Qed.

(** A name that is not the name of a GPU instance matches the expression for them. *)
Example gpu_instance_d2 : gpu_instance "d2.xlarge" = true.
Proof. reflexivity. Qed.

Example gpu_instance_m5 : gpu_instance "m5.large" = false.
Proof. reflexivity. Qed.

(** Without output there still is a device, with an empty name. *)
Example gpu_ids_empty : gpu_ids "" = [""].
Proof. reflexivity. Qed.

(** ** The locker *)

Definition locks_one : list (pid * @prog agent_world unit) := [(1%N, client agent_locker 0%N [OpLock LOCK_EX ["a"] 0; OpRemove ["a"]] [])].

(** The process that is about to lock a directory, and the file it is about to lock *)
Definition about_to_lock (s : @system agent_world) (p : pid) : option file :=
  match observe <$> (th_code <$> sys_threads s !! p) with
  | Some (VisF (Sys (FlockTake f _ _)) _) => Some f
  | _ => None
  end.

Lemma about_to_lock_Some s p f : about_to_lock s p = Some f →
  ∃ th how nb k, sys_threads s !! p = Some th ∧ observe (th_code th) = VisF (Sys (FlockTake f how nb)) k.
Proof.
  unfold about_to_lock. destruct (sys_threads s !! p) as [th|]; [|done]. cbn. destruct (observe (th_code th)) as [| |X e k] eqn:E; try done.
  destruct e as [A e| | |]; try done. destruct e; try done. intros [= ->]. eauto 10.
Qed.

Definition one_lock_run : option (@system agent_world) := sys_run (replicate 8 (Run 1%N calm_oracle)) (boot fresh_machine locks_one).

Lemma doLock_locks_current_witness : ∃ s, one_lock_run = Some s ∧ about_to_lock s 1%N = Some 7%N ∧
  m_names (sys_m s) !! ["fslocker"; "lockDir"; "a"] = Some 6%N ∧
  (["fslocker"; "lockDir"; "a"] = ["fslocker"; ".pendingwork"] ∨ has_pending agent_locker 1%N [LOCK_SH; LOCK_EX] (sys_m s)).
Proof.
  assert ((λ s, about_to_lock s 1%N) <$> one_lock_run = Some (Some 7%N)) as Ha by (vm_compute; reflexivity).
  assert ((λ s, m_files (sys_m s) !! (1%N, 7%N)) <$> one_lock_run = Some (Some (OFile 6 None ["fslocker"; "lockDir"; "a"]))) as Hx by (vm_compute; reflexivity).
  destruct one_lock_run as [s|] eqn:Hrun; [|done]. injection Ha as Ha. injection Hx as Hx.
  exists s. split; [done|]. split; [done|]. destruct (about_to_lock_Some _ _ _ Ha) as (th & how & nb & k & Hth & Hobs).
  apply (doLock_locks_current agent_locker fresh_machine locks_one (replicate 8 (Run 1%N calm_oracle)) s 1%N th 7%N how nb k (OFile 6 None ["fslocker"; "lockDir"; "a"])).
  - by exists ["fslocker"].
  - apply fresh_world.
  - intros p t Hin. apply list_elem_of_singleton in Hin. injection Hin as -> Et. exists 0%N, [OpLock LOCK_EX ["a"] 0; OpRemove ["a"]].
    split; [exact Et|]. repeat constructor. vm_compute. by intros [|[]%elem_of_nil]%elem_of_cons.
  - exact Hrun.
  - exact Hth.
  - exact Hobs.
  - exact Hx.
Defined.

(** A machine with an open file *)
Definition with_open_file : @machine agent_world := (open_as (create fresh_machine ["a"] true) 1%N 4%N ["a"]).2.

Lemma lockHelper_ends_witness :
  wp 1%N world (others agent_locker false 1%N) (promises agent_locker false 1%N) (λ _, True) true (helper_steps second) (lockHelper 0%N 5%N LOCK_EX (Some second))
    (λ r m', ∃ l', m_files m' !! (1%N, 5%N) = Some (OFile 4 l' ["a"]) ∧ helper_result LOCK_EX r l' (1000 + second) (m_now m')) with_open_file.
Proof. apply (lockHelper_ends agent_locker 1%N 0%N 5%N LOCK_EX second 4%N None ["a"] with_open_file); vm_compute; reflexivity. Defined.

(** *** What is left of a failed attempt *)

Definition open_files (p : pid) (s : @system agent_world) : list ofile := (filter (λ e, e.1.1 = p) (map_to_list (m_files (sys_m s)))).*2.

(** The context is done before [doLock] makes its first attempt: the call has failed and the next one has begun, and the directory is still open. *)
Definition cancelled_lock : option (@system agent_world) :=
  sys_run (CancelCtx 1%N 0%N true :: replicate 14 (Run 1%N calm_oracle))
    (boot fresh_machine [(1%N, client agent_locker 0%N [OpLock LOCK_EX ["a"] second; OpList []] [])]).

Lemma cancelled_lock_leaks : open_files 1%N <$> cancelled_lock = Some [OFile 6 None ["fslocker"; "lockDir"; "a"]].
Proof. vm_compute. reflexivity. Qed.

(** A lock that is to be upgraded without a timeout: the context is done while another process has the lock too. *)
Definition upgrade_forever : @prog agent_world unit :=
  r ← SharedLock agent_locker 0%N ["a"] (Some 0);
  match r with
  | inr l => _ ← ToExclusiveLock l 0%N None; _ ← sys (WaitUntil 2000); Unlock l
  | inl _ => mret tt
  end.

Definition upgrade_labels : list (@label agent_world) :=
  let run n p := replicate n (Run p calm_oracle) in
  run 12%nat 2%N ++ run 13%nat 1%N ++ run 1%nat 13%N ++ [CancelCtx 1%N 0%N false] ++ run 2%nat 1%N ++
  run 4%nat 2%N ++ run 3%nat 13%N ++ run 4%nat 14%N ++ [Tick 1000] ++ run 4%nat 1%N.

(** The goroutine that [lockHelper] leaves behind closes the file of the shared lock, and unlocking that panics. *)
Lemma upgrade_panics :
  (λ s, m_trace (sys_m s)) <$> sys_run upgrade_labels
    (boot fresh_machine [(1%N, upgrade_forever); (2%N, client agent_locker 0%N [OpLock LOCK_SH ["a"] 0; OpUnlock 0; OpList []] [])])
  = Some [(1%N, Panicked)].
Proof. vm_compute. reflexivity. Qed.
